(* ===== verification/_CoqProject ===== *)
-Q . S2P
Prelude.v
Cpp.v
Parser.v
AofFormat.v
ParserFacts.v
Response.v
StdList.v
Lru.v
Shard.v
StorageInterface.v
ShardedStorage.v
StorageFacts.v
StorageSize.v
Accounting.v
Expiration.v
StorageCommute.v
AofWriter.v
AofReplay.v
Dispatcher.v
DispatcherFacts.v
Isolation.v
Recovery.v
Restarts.v
ReplayReport.v
LogOrder.v
SplitLog.v
Connection.v
ThreadPool.v
Server.v
ServerFacts.v
ServerSession.v
FineServer.v
OneLine.v
ServerLoop.v
ServerLife.v
Main.v
Process.v
Drain.v
Pooled.v
Finish.v
Double.v
Client.v
Bench.v
BenchFacts.v
BenchSession.v
Cli.v
Witnesses.v
BenchWitnesses.v
Tests.v
ConcurrentTests.v
