(* ===== verification/Prelude.v ===== *)
(** * CacheForge: a verification development

    CacheForge is an in-memory key-value server in C++20.  A client sends one-line
    commands over TCP; the server answers each with one line, keeps the keys in a
    sharded LRU store with deadlines, and logs every write to an append-only file that
    is replayed at the next start.  Two client programs come with it, one for the terminal
    and one for benchmarks.  This library models the server and the clients as executable
    definitions translated from the sources and proves what makes them correct.  Paths
    below are relative to the root of the repository.

    ** The program and the files that model it

    - [Prelude]: byte strings, the [outcome] monad (a C++ computation returns or has
      undefined behaviour), shared tactics and lemmas.
    - [Cpp]: the parts of the language and its library the sources use: integer widths
      (LP64), [<cctype>], [std::to_string], [std::stoll], [atoi], [steady_clock] arithmetic.
    - [Parser], [ParserFacts]: [src/protocol/parser.cpp].  The index of the tokenizer is
      the suffix that is left to read; [tokenize] recurses on its length.
    - [Response]: [src/protocol/response.cpp].
    - [StdList], [Lru], [Shard]: one shard of [src/storage/sharded_storage.cpp]: a hash
      map of entries and a linked list of keys, with the iterator of an entry as the
      identity of its list node, so that erasing or splicing through a stale iterator is
      undefined.  [Lru] is the abstract cache a shard implements: a list of slots, the
      most recently used first.
    - [ShardedStorage], [StorageFacts]: sixteen shards; every public operation runs under
      one shard's mutex and is one step of the concurrent system ([storage_step], with
      the expiration sweep as a step per shard).  [std::hash] is a parameter ([StdHash]),
      as are the readings of the clock and the order in which a sweep visits the map.
    - [StorageCommute]: calls on different shards.  [StorageSize]: [size], which reads the
      shards one after the other, with calls of other threads in between.  [Accounting]:
      the counters.  [Expiration]: the expiration thread, its start and its stop.
    - [StorageInterface]: what the storage promises ([StorageLaws]); the dispatcher and
      the replay are proved against it, and [StorageFacts] gives the instance.
    - [AofFormat]: the text of the log: quoting and the three lines.
    - [AofWriter]: [src/storage/aof_writer.cpp]: producers, queue, background thread,
      output stream and [stop] as atomic actions that may interleave in any order; what
      the operating system answers to a write is part of the action.
    - [AofReplay], [ReplayReport]: [src/storage/aof_replay.cpp], and what it does with any
      file, with the messages it writes.
    - [Dispatcher], [DispatcherFacts], [Isolation]: [src/protocol/dispatcher.cpp], every
      command with its storage call, log line, counters and response; what several clients
      see of each other.
    - [Recovery], [Restarts]: dispatcher, log writer and replay composed, for one session
      and for any number of them.
    - [LogOrder], [SplitLog]: the storage call and the log call of a command as two steps of
      a worker; what they leave behind when log calls of several workers are on their way.
    - [Connection]: [src/server/connection.cpp]; the kernel's answers to [recv] and
      [send] are arguments.
    - [ThreadPool]: [src/server/thread_pool.cpp] as atomic actions, with the order in
      which the destructor destroys the members.
    - [Server], [ServerFacts], [ServerSession]: [src/server/server.cpp] and [src/server/event_loop.cpp]:
      the handlers of the event loop, the task a worker runs, the connection objects in
      a shared heap, the descriptor table of the kernel, and the use of the log at start.
      What [accept], [fcntl], [epoll_ctl], [recv] and [send] answer comes with each step,
      and a refusal throws where the code throws.
    - [FineServer]: the same server with the workers' storage calls, log calls and single
      [send] calls as separate steps; every run of [Server] is one of its runs
      ([coarse_runs_are_fine]).  [OneLine] follows the commands of a connection through it.
    - [ServerLoop]: the batches of [EventLoop::wait] and the loop of [Server::run] over
      them, and the loop of [acceptConnection].
    - [ServerLife]: the constructor and the destructor of the server, the signal handlers
      and the flag of the loop.
    - [Main], [Process]: [src/server/main.cpp]: the command line, and the whole process
      from its launch through its interleaved threads to its destructor.
    - [Drain]: how the worker of a task finishes it.
    - [Pooled], [Finish]: the process with its thread pool: workers lock, take a task, make
      its calls and come back for the next.  The clearing of the in-flight flag, the last
      thing a task does, and its return are one step, since nothing shared is used in
      between.  [Finish] also has the destructors of the members at the end of [main].
    - [Double]: binary64 arithmetic on the Standard Library's [SpecFloat], [std::sort] and
      [atof].
    - [Client], [Cli]: [tools/cache_cli.cpp]; [tool] is the monad of a blocking client
      (done, waiting, terminated by an exception or by SIGPIPE, undefined).
    - [Bench], [BenchFacts], [BenchSession]: [tools/cache_bench.cpp]; the draws of the
      random generators, the clocks and the answers of the kernel are arguments.
    - [Witnesses], [BenchWitnesses]: every theorem with hypotheses applied to concrete inputs.
    - [Tests], [ConcurrentTests]: the repository's tests: those with one thread evaluated on the
      model, those with several threads proved to pass in every interleaving.

    ** What the theorems show

    - Storage: every sequence of operations on the shards whose deadlines fit the clock
      refines the abstract LRU cache (replies, contents and recency order), no operation ever uses a stale iterator or
      an empty list, the capacity holds, and a key used recently enough is not evicted
      ([storage_refines_lru], [storage_reachable_inv], [lru_keeps_recent]); [size] counts
      each key as it was when its shard was read, which need not be a state of the whole
      storage ([size_regular], [size_not_snapshot]); every key inserted is stored, deleted,
      expired or evicted, and counted once ([keys_balance]); the sweep removes exactly expired keys
      among those it scans, and may never reach others ([sweep_exact],
      [sweep_starvation]); EXPIRE is defined exactly when its deadline fits the clock;
      calls on different shards commute ([shards_commute]); the expiration thread stops
      within four steps when it is asked to ([expiration_stops]).
    - Protocol, for commands whose deadlines fit the clock: a client sees a plain map with
      deadlines as long as nothing is evicted, the text of STATS apart, and exact counters
      ([serve_like_map], [serve_counters]); each command the server takes from a client, the
      first of a read, gets one line in order ([session_one_line_each]); clients with keys of
      their own do not see each other, but for STATS ([clients_isolated]); the shape of parsed commands, the round
      trip of quoting and of the log's lines.
    - Log and recovery: in every interleaving the file holds the pushed lines in order,
      a disk error costs only a suffix, and on a healthy disk the body of the server's
      destructor leaves every line in the file ([aof_fifo], [aof_prefix], [shutdown_flushes]); after any number of sessions,
      and after any number of processes with all their threads interleaved, the next
      start brings every stored key back ([restarts_recover], [processes_recover]).  In the
      latter the steps of the workers are their single calls, and the hypotheses on a run
      ([run_ok]) are that no command logs a key while another log call for that key is on
      its way ([log_order_inverted] is what happens otherwise), that arguments survive
      quoting, that EXPIRE asks for a number of seconds other than 0 that fits the clock
      ([expire_zero_resurrects]), that the keys written fit the storage, that the disk is
      healthy and that the kernel grants [fcntl] and [epoll_ctl]; a replay takes less than
      a second.  A replay of any file applies its
      well-formed lines and accounts for the others ([replay_any_file]).
    - Connections, pool and server: framing does not depend on how the kernel cuts the
      stream, nothing is lost between a response and the socket, tasks are taken in
      order and none is lost, the server's tables stay consistent in every run, which ends
      early only when the kernel refuses a call or a storage operation is undefined
      ([server_consistent]), and in runs without refused sends and without error events
      for a busy connection every client receives the responses to its own commands, in
      order, whatever parts the single sends take ([clients_get_own_bytes]); the process with its
      pool is a run of the process and a run of the pool, with the commands in flight as the
      tasks of the pool ([pooled_refines]), and at any moment its workers can finish every
      command that was submitted ([pooled_drains]), both under [run_ok]; the loop over batches of events does
      what the single events do ([run_batch_refines]).
    - Clients: a session at the terminal and a benchmark worker stay in step with the
      server ([cli_session], [bench_session]); every request of a benchmark that is not
      terminated is accounted for and its percentiles are ranks ([bench_accounts],
      [percentile_rank]).
    - Where the code does not do what it means to: runs and inputs are exhibited as
      theorems (responses to the wrong client, interleaved responses, dropped pipelined
      commands, the destructor of the pool, which keeps [main] from its end ([exit_undefined]), EXPIRE 0, torn and unquoted log lines, the
      race of [stop], the width of TTL, writes logged in the wrong order or not at all
      during shutdown, a signal that is forgotten, clients that get out of step).

    ** Bounds and recursion

    No definition has an artificial bound.  Loops over data are structural; the tokenizer
    and the line splitter recurse on the length of what is left ([Equations]);
    [dec_digits] has fuel [log2 n + 1], shown to be enough ([dec_fuel_enough]).  A loop
    that waits for the kernel ([sendResponse]) takes the list of the kernel's answers and
    is proved to end once there is one per byte.  Counters are kept modulo [2^64].

    ** What is not modelled

    Sockets, epoll and files appear through the answers of the kernel only.  Memory is not
    exhausted ([std::bad_alloc] is not thrown), and the server can create its threads.  A
    write of the log that fails after part of its bytes leaves the others in the buffer, the
    rule of the C++ standard; an implementation that keeps the whole buffer may write a part
    twice.  The addresses of the clients
    and the text of the benchmark's report are left out; the random generators of the
    benchmark and the [what()] of the exceptions of [std::stoll] are parameters; the branches
    for Windows of the terminal client are not modelled.  [dispatch] is one step in [Server],
    and its storage call and log call are two in [LogOrder], [FineServer] and [Process]; the
    [size] of a STATS command is part of one step there, and split in [StorageSize] only.
    The order of the relaxed atomic operations is the order of the steps they belong to.  The
    process of [Process] ends with the body of the server's destructor; the destruction of
    the members follows in [Finish], that of the storage in [Expiration].  The [main]
    functions of the tests are not repeated. *)

From Stdlib Require Export Ascii.
From stdpp Require Export gmap strings list fin_maps relations.

(** ** Byte strings

    [std::string] and [std::string_view] are sequences of bytes.  A byte is an
    [ascii]; [str] turns a literal of the source into a byte string. *)
Abbreviation bytes := (list ascii).

Definition str (s : string) : bytes := String.list_ascii_of_string s.

(** The control characters the source writes as escapes. *)
Definition ch_tab : ascii := "009"%char.
Definition ch_nl : ascii := "010"%char.
Definition ch_vt : ascii := "011"%char.
Definition ch_ff : ascii := "012"%char.
Definition ch_cr : ascii := "013"%char.
Definition ch_space : ascii := "032"%char.
Definition ch_quote : ascii := "034"%char.
Definition ch_backslash : ascii := "092"%char.

Declare Scope cpp_scope.
Delimit Scope cpp_scope with cpp.
Notation "a =c b" := (bool_decide (a = b)) (at level 70, no associativity) : cpp_scope.

(** ** Outcomes

    A C++ expression either yields a value or has undefined behaviour: signed
    overflow, access through an invalid iterator, [back()] of an empty list,
    indexing past an array.  [UB] is absorbing: nothing is known after it. *)
Inductive outcome (A : Type) : Type :=
| Ret (a : A)
| UB.
Arguments Ret {A} a.
Arguments UB {A}.

#[export] Instance outcome_ret : MRet outcome := fun A a => Ret a.
#[export] Instance outcome_bind : MBind outcome := fun A B k m =>
  match m with Ret a => k a | UB => UB end.
#[export] Instance outcome_fmap : FMap outcome := fun A B f m =>
  match m with Ret a => Ret (f a) | UB => UB end.

(** [require P] is the definedness condition of an operation. *)
Definition require (P : Prop) `{Decision P} : outcome unit :=
  if decide P then Ret tt else UB.

(** An option whose absence is undefined behaviour. *)
Definition deref {A} (o : option A) : outcome A :=
  match o with Some a => Ret a | None => UB end.

(** The result of an outcome known to be defined. *)
Definition defined {A} (m : outcome A) : Prop := exists a, m = Ret a.

Section outcome_laws.
Context {A B : Type}.
Implicit Types (m : outcome A) (k : A -> outcome B).

Lemma bind_Ret_inv m k b :
  m ≫= k = Ret b <-> exists a, m = Ret a /\ k a = Ret b.
Proof.
  destruct m as [a|]; simpl; split; intros H.
  - eauto.
  - destruct H as (a' & [= ->] & H); done.
  - done.
  - destruct H as (a' & [=] & _).
Qed.

Lemma require_Ret (P : Prop) `{Decision P} u : require P = Ret u <-> P.
Proof. unfold require. destruct u. case_decide; split; done. Qed.

Lemma require_true (P : Prop) `{Decision P} : P -> require P = Ret tt.
Proof. intros HP. by apply require_Ret. Qed.

Lemma deref_Ret (o : option A) a : deref o = Ret a <-> o = Some a.
Proof. destruct o; simpl; split; congruence. Qed.
End outcome_laws.

(** ** Automation *)

Create HintDb cf discriminated.
#[export] Hint Resolve require_true : cf.
#[export] Hint Extern 3 (_ <= _) => lia : cf.
#[export] Hint Extern 3 (_ < _) => lia : cf.

(** Invert every hypothesis that says a monadic computation returned. *)
Ltac outcome_inv :=
  repeat match goal with
  | H : _ ≫= _ = Ret _ |- _ =>
      apply bind_Ret_inv in H as (? & ? & H)
  | H : require _ = Ret _ |- _ => apply require_Ret in H
  | H : deref _ = Ret _ |- _ => apply deref_Ret in H
  | H : Ret _ = Ret _ |- _ => injection H as H
  | H : mret _ = Ret _ |- _ => injection H as H
  | H : UB = Ret _ |- _ => discriminate H
  | H : (_, _) = (_, _) |- _ => injection H as H
  end; simplify_eq.

(** Case analysis on the innermost test of the goal, keeping the equation. *)
Ltac case_if :=
  match goal with
  | |- context [if decide ?P then _ else _] => destruct (decide P)
  | |- context [if ?b then _ else _] => let E := fresh "E" in destruct b eqn:E
  end.

(** Prove a decidable closed proposition by evaluating its decision procedure. *)
Ltac by_evaluation :=
  match goal with
  | |- ?P => apply (bool_decide_eq_true_1 P); vm_compute; reflexivity
  end.

Ltac refute_by_evaluation H :=
  match type of H with
  | ?P => exfalso; apply (bool_decide_eq_false_1 P); [vm_compute; reflexivity|exact H]
  end.

(** ** Lists *)

Lemma list_filter_all {A} (P : A -> Prop) `{!forall x, Decision (P x)} (l : list A) :
  Forall P l -> filter P l = l.
Proof. induction 1; [done|]. by rewrite filter_cons_True; f_equal. Qed.

Lemma list_filter_none {A} (P : A -> Prop) `{!forall x, Decision (P x)} (l : list A) :
  Forall (fun x => ~ P x) l -> filter P l = [].
Proof. induction 1; [done|]. by rewrite filter_cons_False. Qed.

Lemma list_filter_length {A} (P : A -> Prop) `{!forall x, Decision (P x)} (l : list A) :
  length (filter P l) <= length l.
Proof. induction l as [|x l IH]; [done|]. rewrite filter_cons. case_decide; simpl; lia. Qed.

Lemma list_filter_ext_in {A} (P Q : A -> Prop) `{!forall x, Decision (P x)}
    `{!forall x, Decision (Q x)} (l : list A) :
  (forall x, x ∈ l -> P x <-> Q x) -> filter P l = filter Q l.
Proof.
  induction l as [|x l IH]; intros HPQ; [done|]. rewrite !filter_cons.
  pose proof (HPQ x ltac:(left)). rewrite IH by (intros y Hy; apply HPQ; by right).
  repeat case_decide; tauto.
Qed.

(** ** Functions used as arrays *)

Definition fn_update {A} (i : nat) (x : A) (f : nat -> A) : nat -> A :=
  fun j => if decide (i = j) then x else f j.

Lemma fn_update_eq {A} i (x : A) f : fn_update i x f i = x.
Proof. unfold fn_update. by rewrite decide_True. Qed.

Lemma fn_update_ne {A} i j (x : A) f : i <> j -> fn_update i x f j = f j.
Proof. intros. unfold fn_update. by rewrite decide_False. Qed.
