(* ===== verification/Cpp.v ===== *)
(** * The parts of C++ and its standard library the sources use

    Machine integers at their width, the character classes of [<cctype>] in the
    "C" locale, [std::to_string], [std::stoll] and [std::stoi], and
    [std::chrono::steady_clock] arithmetic.  The target is the LP64 platform the
    build names (Linux, GCC): [int] has 32 bits, [int64_t], [ssize_t] and [size_t]
    64 bits, and [steady_clock] counts nanoseconds in an [int64_t]. *)

From S2P Require Import Prelude.
Local Open Scope Z_scope.

(** ** Integers *)

Definition INT64_MIN : Z := - 2 ^ 63.
Definition INT64_MAX : Z := 2 ^ 63 - 1.
Definition INT_MIN : Z := - 2 ^ 31.
Definition INT_MAX : Z := 2 ^ 31 - 1.

Definition in_int64 (z : Z) : Prop := INT64_MIN <= z <= INT64_MAX.
Definition in_int (z : Z) : Prop := INT_MIN <= z <= INT_MAX.

#[export] Instance in_int64_dec z : Decision (in_int64 z).
Proof. unfold in_int64. apply _. Defined.
#[export] Instance in_int_dec z : Decision (in_int z).
Proof. unfold in_int. apply _. Defined.

(** Arithmetic on an unsigned 64-bit type wraps. *)
Definition u64 (z : Z) : Z := z mod 2 ^ 64.

(** Conversion of a wider signed integer to [int] keeps the low 32 bits. *)
Definition to_int (z : Z) : Z := (z - INT_MIN) mod 2 ^ 32 + INT_MIN.

(** Conversion to [uint16_t]. *)
Definition u16 (z : Z) : Z := z mod 2 ^ 16.

(** Signed 64-bit arithmetic is undefined outside the range of the type. *)
Definition i64 (z : Z) : outcome Z := require (in_int64 z);; Ret z.

(** ** [<cctype>] *)

Definition byte_val (c : ascii) : Z := Z.of_N (N_of_ascii c).

Definition isspace (c : ascii) : bool :=
  ((9 <=? byte_val c) && (byte_val c <=? 13)) || (byte_val c =? 32).

Definition islower (c : ascii) : bool :=
  (97 <=? byte_val c) && (byte_val c <=? 122).

Definition toupper (c : ascii) : ascii :=
  if islower c then ascii_of_N (N_of_ascii c - 32) else c.

(** Drop the leading white space, as [strtoll] and several loops of the parser do. *)
Fixpoint skip_spaces (s : bytes) : bytes :=
  match s with
  | c :: s' => if isspace c then skip_spaces s' else s
  | [] => []
  end.

(** ** [std::to_string] *)

Definition digit (d : Z) : ascii := ascii_of_N (48 + Z.to_N d).

Definition digit_val (c : ascii) : option Z :=
  if (48 <=? byte_val c) && (byte_val c <=? 57) then Some (byte_val c - 48) else None.

Fixpoint dec_digits (fuel : nat) (n : Z) : bytes :=
  match fuel with
  | O => []
  | S f => if n <? 10 then [digit n] else dec_digits f (n / 10) ++ [digit (n mod 10)]
  end.

(** [log2 n + 1] digits are more than the decimal writing of [n] needs. *)
Definition dec (n : Z) : bytes := dec_digits (S (Z.to_nat (Z.log2 n))) n.

Definition to_string (z : Z) : bytes :=
  if z <? 0 then "-"%char :: dec (- z) else dec z.

(** ** [std::stoll] and [std::stoi]

    Leading white space, an optional sign, then the longest run of digits; what
    follows the digits is ignored.  Without a digit the call throws
    [std::invalid_argument], out of the range of the type [std::out_of_range]. *)
Inductive conversion : Type :=
| Conv (z : Z)
| InvalidArgument
| OutOfRange.

Fixpoint scan_digits (acc : Z) (s : bytes) : Z * bytes :=
  match s with
  | c :: s' =>
      match digit_val c with
      | Some d => scan_digits (acc * 10 + d) s'
      | None => (acc, s)
      end
  | [] => (acc, [])
  end.

Definition scan_sign (s : bytes) : Z * bytes :=
  match s with
  | c :: s' => if bool_decide (c = "-"%char) then (-1, s')
               else if bool_decide (c = "+"%char) then (1, s') else (1, s)
  | [] => (1, [])
  end.

Definition starts_with_digit (s : bytes) : bool :=
  match s with
  | c :: _ => match digit_val c with Some _ => true | None => false end
  | [] => false
  end.

Definition strtol (lo hi : Z) (s : bytes) : conversion :=
  let '(sign, ds) := scan_sign (skip_spaces s) in
  if starts_with_digit ds then
    let z := sign * (scan_digits 0 ds).1 in
    if (lo <=? z) && (z <=? hi) then Conv z else OutOfRange
  else InvalidArgument.

Definition stoll : bytes -> conversion := strtol INT64_MIN INT64_MAX.
Definition stoi : bytes -> conversion := strtol INT_MIN INT_MAX.

(** [std::atoi]: 0 without a number, undefined when the number does not fit an [int]. *)
Definition atoi (s : bytes) : outcome Z :=
  match stoi s with
  | Conv z => Ret z
  | InvalidArgument => Ret 0
  | OutOfRange => UB
  end.

(** ** [std::chrono::steady_clock]

    A time point is a count of nanoseconds.  [now() + seconds(s)] converts [s] to
    nanoseconds and adds, both in [int64_t]; the difference of two time points is
    cast to seconds by truncation. *)
Definition NS_PER_S : Z := 10 ^ 9.

(** A reading of the clock: time since boot, so never negative. *)
Definition clock_reading (t : Z) : Prop := 0 <= t <= INT64_MAX.

#[export] Instance clock_reading_dec t : Decision (clock_reading t).
Proof. unfold clock_reading. apply _. Defined.

Definition add_seconds (t s : Z) : outcome Z :=
  ns ← i64 (s * NS_PER_S);
  i64 (t + ns).

Definition diff_seconds (a b : Z) : outcome Z :=
  ns ← i64 (a - b);
  Ret (Z.quot ns NS_PER_S).

(** ** Lemmas *)

Lemma u64_small z : 0 <= z < 2 ^ 64 -> u64 z = z.
Proof. apply Z.mod_small. Qed.

Lemma u64_add_l a b : u64 (u64 a + b) = u64 (a + b).
Proof. unfold u64. by rewrite Zplus_mod_idemp_l. Qed.

Lemma to_int_small z : in_int z -> to_int z = z.
Proof.
  unfold in_int, to_int, INT_MIN, INT_MAX. intros H.
  rewrite Z.mod_small by lia. lia.
Qed.

Lemma to_int_range z : in_int (to_int z).
Proof.
  unfold in_int, to_int, INT_MIN, INT_MAX.
  pose proof (Z.mod_pos_bound (z - - 2 ^ 31) (2 ^ 32)). lia.
Qed.

Lemma i64_Ret z r : i64 z = Ret r <-> in_int64 z /\ r = z.
Proof.
  unfold i64. split.
  - intros H. outcome_inv. done.
  - intros [H ->]. by rewrite require_true.
Qed.

Lemma i64_ok z : in_int64 z -> i64 z = Ret z.
Proof. intros H. by apply i64_Ret. Qed.

(** [add_seconds] is defined exactly when neither the conversion nor the sum overflows. *)
Lemma add_seconds_Ret t s r :
  add_seconds t s = Ret r <->
  in_int64 (s * NS_PER_S) /\ in_int64 (t + s * NS_PER_S) /\ r = t + s * NS_PER_S.
Proof.
  unfold add_seconds. split.
  - intros H. outcome_inv.
    match goal with H : i64 _ = Ret _ |- _ => apply i64_Ret in H as [? ->] end.
    match goal with H : i64 _ = Ret _ |- _ => apply i64_Ret in H as [? ->] end.
    done.
  - intros (H1 & H2 & ->). rewrite (i64_ok (s * NS_PER_S)) by done.
    by apply i64_Ret.
Qed.

Lemma add_seconds_defined now seconds :
  0 <= seconds -> clock_reading now -> clock_reading (now + seconds * NS_PER_S) ->
  add_seconds now seconds = Ret (now + seconds * NS_PER_S).
Proof.
  intros Hs Hn Hd. apply add_seconds_Ret.
  unfold clock_reading, in_int64, NS_PER_S, INT64_MIN, INT64_MAX in *. lia.
Qed.

Lemma diff_seconds_ok a b :
  in_int64 (a - b) -> diff_seconds a b = Ret (Z.quot (a - b) NS_PER_S).
Proof. intros H. unfold diff_seconds. by rewrite i64_ok. Qed.

Lemma digit_val_digit d : 0 <= d < 10 -> digit_val (digit d) = Some d.
Proof.
  intros H. assert (Hd : d = 0 \/ d = 1 \/ d = 2 \/ d = 3 \/ d = 4 \/ d = 5 \/ d = 6
    \/ d = 7 \/ d = 8 \/ d = 9) by lia.
  by repeat destruct Hd as [->|Hd]; [..|subst].
Qed.

Lemma digit_not_space c d : digit_val c = Some d -> isspace c = false.
Proof.
  unfold digit_val, isspace. intros H.
  destruct (48 <=? byte_val c) eqn:E; [|done]. apply Z.leb_le in E.
  destruct (byte_val c <=? 13) eqn:E1; [apply Z.leb_le in E1; lia|].
  destruct (byte_val c =? 32) eqn:E2; [apply Z.eqb_eq in E2; lia|].
  by rewrite andb_false_r.
Qed.

Lemma digit_not_sign d : 0 <= d < 10 -> digit d <> "-"%char /\ digit d <> "+"%char.
Proof.
  intros H. assert (Hd : d = 0 \/ d = 1 \/ d = 2 \/ d = 3 \/ d = 4 \/ d = 5 \/ d = 6
    \/ d = 7 \/ d = 8 \/ d = 9) by lia.
  by repeat destruct Hd as [->|Hd]; [..|subst].
Qed.

(** The digits of [n], read back, give [n]: the induction behind the round trip. *)
Lemma scan_dec_digits fuel n acc rest :
  0 <= n < 10 ^ Z.of_nat fuel ->
  scan_digits acc (dec_digits fuel n ++ rest) =
  scan_digits (acc * 10 ^ Z.of_nat (length (dec_digits fuel n)) + n) rest.
Proof.
  revert n rest. induction fuel as [|fuel IH]; intros n rest Hn.
  - simpl. f_equal. change (10 ^ Z.of_nat 0) with 1 in *. lia.
  - simpl. destruct (n <? 10) eqn:E.
    + apply Z.ltb_lt in E. simpl. rewrite digit_val_digit by lia. f_equal; lia.
    + apply Z.ltb_ge in E. rewrite <- app_assoc, IH.
      2:{ rewrite Nat2Z.inj_succ, Z.pow_succ_r in Hn by lia.
          split; [apply Z.div_pos; lia|apply Z.div_lt_upper_bound; lia]. }
      simpl. rewrite digit_val_digit by (apply Z.mod_pos_bound; lia).
      f_equal. rewrite length_app, Nat2Z.inj_add, Z.pow_add_r by lia. simpl.
      pose proof (Z.div_mod n 10). lia.
Qed.

Lemma dec_fuel_enough n : 0 <= n -> n < 10 ^ Z.of_nat (S (Z.to_nat (Z.log2 n))).
Proof.
  intros H. destruct (decide (n = 0)) as [->|Hn]; [done|].
  pose proof (Z.log2_nonneg n). pose proof (Z.log2_spec n).
  rewrite Nat2Z.inj_succ, Z2Nat.id by lia.
  apply Z.lt_le_trans with (2 ^ Z.succ (Z.log2 n)); [lia|].
  apply Z.pow_le_mono_l. lia.
Qed.

(** Every character written is a digit, and there is at least one. *)
Lemma dec_digits_digits fuel n :
  0 <= n -> Forall (fun c => exists d, 0 <= d < 10 /\ c = digit d) (dec_digits fuel n).
Proof.
  revert n. induction fuel as [|fuel IH]; intros n Hn; simpl; [done|].
  destruct (n <? 10) eqn:E.
  - apply Z.ltb_lt in E. repeat constructor. eauto.
  - apply Forall_app. split; [apply IH, Z.div_pos; lia|].
    repeat constructor. exists (n mod 10). split; [apply Z.mod_pos_bound; lia|done].
Qed.

Lemma dec_digits_nonempty fuel n : dec_digits (S fuel) n <> [].
Proof. simpl. case_if; [done|]. by intros [_ [=]]%app_nil. Qed.

Lemma dec_head n : 0 <= n -> exists d tl, 0 <= d < 10 /\ dec n = digit d :: tl.
Proof.
  intros Hn. pose proof (dec_digits_digits (S (Z.to_nat (Z.log2 n))) n Hn) as Hd.
  pose proof (dec_digits_nonempty (Z.to_nat (Z.log2 n)) n) as Hne.
  fold (dec n) in *. destruct (dec n) as [|c tl]; [done|].
  inversion Hd as [|? ? (d & Hd1 & ->) _]. eauto.
Qed.

Lemma to_string_nonempty z : to_string z <> [].
Proof.
  unfold to_string. case_if; [done|]. apply Z.ltb_ge in E.
  destruct (dec_head z E) as (d & tl & _ & ->). done.
Qed.

Lemma to_string_no_space z : Forall (fun c => isspace c = false) (to_string z).
Proof.
  assert (Hdec : forall n, 0 <= n -> Forall (fun c => isspace c = false) (dec n)).
  { intros n Hn. eapply Forall_impl; [by apply dec_digits_digits|].
    intros c (d & Hd & ->). by eapply digit_not_space, digit_val_digit. }
  unfold to_string. case_if; [constructor; [done|]|]; apply Hdec.
  - apply Z.ltb_lt in E. lia.
  - by apply Z.ltb_ge in E.
Qed.

Lemma scan_dec n rest :
  0 <= n -> starts_with_digit rest = false ->
  scan_digits 0 (dec n ++ rest) = (n, rest).
Proof.
  intros Hn Hrest. unfold dec.
  rewrite scan_dec_digits by (split; [done|by apply dec_fuel_enough]).
  rewrite Z.mul_0_l, Z.add_0_l.
  destruct rest as [|c rest]; simpl in *; [done|]. by destruct (digit_val c).
Qed.

(** [strtol] reads back what [to_string] wrote; trailing non-digits are ignored. *)
Lemma strtol_to_string lo hi z rest :
  lo <= z <= hi -> starts_with_digit rest = false ->
  strtol lo hi (to_string z ++ rest) = Conv z.
Proof.
  intros Hz Hrest. unfold strtol, to_string. destruct (z <? 0) eqn:E.
  - apply Z.ltb_lt in E. destruct (dec_head (- z)) as (d & tl & Hd & Heq); [lia|].
    assert (Hs : starts_with_digit (dec (- z) ++ rest) = true).
    { rewrite Heq. simpl. by rewrite digit_val_digit. }
    simpl. rewrite Hs, scan_dec by (done || lia).
    replace (-1 * (- z, rest).1) with z by (simpl; lia).
    destruct Hz as [Hlo%Z.leb_le Hhi%Z.leb_le]. by rewrite Hlo, Hhi.
  - apply Z.ltb_ge in E. destruct (dec_head z) as (d & tl & Hd & Heq); [lia|].
    assert (Hs : starts_with_digit (dec z ++ rest) = true).
    { rewrite Heq. simpl. by rewrite digit_val_digit. }
    assert (Hsk : scan_sign (skip_spaces (dec z ++ rest)) = (1, dec z ++ rest)).
    { rewrite Heq. simpl. erewrite digit_not_space by (by apply digit_val_digit).
      destruct (digit_not_sign d Hd). simpl. by rewrite !bool_decide_eq_false_2. }
    rewrite Hsk, Hs, scan_dec by (done || lia).
    replace (1 * (z, rest).1) with z by (simpl; lia).
    destruct Hz as [Hlo%Z.leb_le Hhi%Z.leb_le]. by rewrite Hlo, Hhi.
Qed.

Lemma stoll_to_string z : in_int64 z -> stoll (to_string z) = Conv z.
Proof.
  intros Hz. unfold stoll. rewrite <- (app_nil_r (to_string z)).
  by apply strtol_to_string.
Qed.

Lemma stoi_to_string z : in_int z -> stoi (to_string z) = Conv z.
Proof.
  intros Hz. unfold stoi. rewrite <- (app_nil_r (to_string z)). by apply strtol_to_string.
Qed.

Lemma atoi_to_string z : in_int z -> atoi (to_string z) = Ret z.
Proof. intros Hz. unfold atoi. by rewrite stoi_to_string. Qed.

Lemma to_string_inj z1 z2 : to_string z1 = to_string z2 -> z1 = z2.
Proof.
  intros Heq. apply (f_equal (fun s => strtol (Z.min z1 z2) (Z.max z1 z2) (s ++ []))) in Heq.
  rewrite !strtol_to_string in Heq by (done || lia). congruence.
Qed.

(** A conversion that succeeds is in the range of its type. *)
Lemma strtol_range lo hi s z : strtol lo hi s = Conv z -> lo <= z <= hi.
Proof.
  unfold strtol. destruct (scan_sign _) as [sign ds]. destruct (starts_with_digit ds); [|done].
  cbv zeta. destruct (_ && _) eqn:E; [|done].
  intros [= <-]. apply andb_prop in E as [?%Z.leb_le ?%Z.leb_le]. done.
Qed.

Lemma stoll_range s z : stoll s = Conv z -> in_int64 z.
Proof. apply strtol_range. Qed.

(** White space. *)
Lemma skip_spaces_length s : (length (skip_spaces s) <= length s)%nat.
Proof. induction s as [|c s IH]; simpl; [done|]. destruct (isspace c); simpl; lia. Qed.

Lemma skip_spaces_head s c r : skip_spaces s = c :: r -> isspace c = false.
Proof.
  induction s as [|d s IH]; simpl; [done|].
  destruct (isspace d) eqn:E; [done|]. by intros [= <- <-].
Qed.

Lemma skip_spaces_id c s : isspace c = false -> skip_spaces (c :: s) = c :: s.
Proof. simpl. by intros ->. Qed.

Lemma skip_spaces_nil s : skip_spaces s = [] <-> Forall (fun c => isspace c = true) s.
Proof.
  split.
  - induction s as [|c s IH]; simpl; [done|]. destruct (isspace c) eqn:E; [|done].
    intros H. constructor; auto.
  - induction 1 as [|c s Hc _ IH]; simpl; [done|]. by rewrite Hc.
Qed.
