(* ===== verification/Parser.v ===== *)
(** * The command parser ([src/protocol/parser.cpp], [include/protocol/parser.h])

    [tokenize] splits a line into tokens, with double quotes and backslash
    escapes; [parseCommand] trims the line, tokenizes it and recognises the
    command word.  The index [i] of the source is the suffix that is left. *)

From Equations Require Import Equations.
From S2P Require Import Prelude Cpp.

(** ** Data *)

Inductive CommandType : Type :=
| PING | SET | GET | DEL | EXPIRE | TTL | STATS | UNKNOWN.

#[export] Instance CommandType_eq_dec : EqDecision CommandType.
Proof. solve_decision. Defined.

Record Command : Type := mkCommand {
  type : CommandType;
  args : list bytes
}.

(** ** Operations *)

Definition toUpper (s : bytes) : bytes := map toupper s.

(** The loop inside a quoted string: it stops at the closing quote, which stays in
    the rest, or at the end of the input. *)
Fixpoint scan_quoted (s : bytes) : bytes * bytes :=
  match s with
  | [] => ([], [])
  | c :: s' =>
      if bool_decide (c = ch_quote) then ([], s)
      else if bool_decide (c = ch_backslash) then
        match s' with
        | [] => ([c], [])
        | d :: s'' => let tr := scan_quoted s'' in (d :: tr.1, tr.2)
        end
      else let tr := scan_quoted s' in (c :: tr.1, tr.2)
  end.

(** The loop over an unquoted token. *)
Fixpoint scan_plain (s : bytes) : bytes * bytes :=
  match s with
  | [] => ([], [])
  | c :: s' => if isspace c then ([], s)
               else let tr := scan_plain s' in (c :: tr.1, tr.2)
  end.

(** One token from a suffix that starts at a character that is not a space. *)
Definition next_token (s : bytes) : bytes * bytes :=
  match s with
  | [] => ([], [])
  | c :: s' =>
      if bool_decide (c = ch_quote)
      then let tr := scan_quoted s' in (tr.1, drop 1 tr.2)
      else scan_plain s
  end.

(** [if (!token.empty()) tokens.push_back(...)]. *)
Definition push_token (token : bytes) (tokens : list bytes) : list bytes :=
  match token with [] => tokens | _ => token :: tokens end.

Lemma scan_quoted_length s : length (scan_quoted s).2 <= length s.
Proof.
  induction s as [s IH] using (induction_ltof1 _ (@length ascii)). unfold ltof in IH.
  destruct s as [|c s]; simpl; [done|]. case_bool_decide; simpl; [done|].
  case_bool_decide; simpl.
  - destruct s as [|d s]; simpl; [lia|]. specialize (IH s). simpl in IH. lia.
  - specialize (IH s). simpl in IH. lia.
Qed.

Lemma scan_plain_length s : length (scan_plain s).2 <= length s.
Proof. induction s as [|c s IH]; simpl; [done|]. destruct (isspace c); simpl; lia. Qed.

(** Every iteration of the outer loop consumes at least one character. *)
Lemma next_token_length c s :
  isspace c = false -> length (next_token (c :: s)).2 < length (c :: s).
Proof.
  intros Hc. simpl. case_bool_decide; simpl.
  - rewrite length_drop. pose proof (scan_quoted_length s). lia.
  - rewrite Hc. simpl. pose proof (scan_plain_length s). lia.
Qed.

Definition inspect {A : Type} (x : A) : {y : A | x = y} := exist _ x eq_refl.

Equations? tokenize (s : bytes) : list bytes by wf (length s) lt :=
tokenize s with inspect (skip_spaces s) => {
  | exist _ [] _ := [];
  | exist _ (c :: r) E :=
      push_token (next_token (c :: r)).1 (tokenize (next_token (c :: r)).2) }.
Proof.
  pose proof (skip_spaces_length s) as Hs. rewrite E in Hs.
  pose proof (next_token_length c r (skip_spaces_head _ _ _ E)) as Hn. simpl in *. lia.
Qed.

(** [remove_suffix] while the last character is a space. *)
Definition trim_back (s : bytes) : bytes := reverse (skip_spaces (reverse s)).

Definition trimCommand (s : bytes) : bytes := trim_back (skip_spaces s).

Definition first_arg (tokens : list bytes) : list bytes :=
  match tokens with _ :: k :: _ => [k] | _ => [] end.

Definition first_two_args (tokens : list bytes) : list bytes :=
  match tokens with _ :: k :: v :: _ => [k; v] | _ => [] end.

(** The command a list of tokens stands for: the chain of comparisons of
    [parseCommand], from the test for no token on. *)
Definition command_of_tokens (tokens : list bytes) : Command :=
  match tokens with
  | [] => mkCommand UNKNOWN []
  | name :: _ =>
      let cmdName := toUpper name in
      if bool_decide (cmdName = str "PING") then mkCommand PING []
      else if bool_decide (cmdName = str "SET") then mkCommand SET (first_two_args tokens)
      else if bool_decide (cmdName = str "GET") then mkCommand GET (first_arg tokens)
      else if bool_decide (cmdName = str "DEL") then mkCommand DEL (first_arg tokens)
      else if bool_decide (cmdName = str "EXPIRE") then mkCommand EXPIRE (first_two_args tokens)
      else if bool_decide (cmdName = str "TTL") then mkCommand TTL (first_arg tokens)
      else if bool_decide (cmdName = str "STATS") then mkCommand STATS []
      else mkCommand UNKNOWN []
  end.

Definition parseCommand (input : bytes) : Command :=
  match trimCommand input with
  | [] => mkCommand UNKNOWN []
  | trimmed => command_of_tokens (tokenize trimmed)
  end.

(** ** Tokenizer lemmas *)

(** The defining equation of [tokenize], without the termination argument. *)
Lemma tokenize_eq s :
  tokenize s = match skip_spaces s with
               | [] => []
               | c :: r => push_token (next_token (c :: r)).1
                                      (tokenize (next_token (c :: r)).2)
               end.
Proof.
  rewrite tokenize_equation_1.
  destruct (inspect (skip_spaces s)) as [[|c r] E]; simpl; by rewrite E.
Qed.

Lemma tokenize_cons c s :
  isspace c = false ->
  tokenize (c :: s) = push_token (next_token (c :: s)).1 (tokenize (next_token (c :: s)).2).
Proof. intros Hc. by rewrite tokenize_eq, skip_spaces_id. Qed.

Lemma tokenize_skip s : tokenize (skip_spaces s) = tokenize s.
Proof.
  rewrite !(tokenize_eq _). destruct (skip_spaces s) as [|c r] eqn:E; [done|].
  by rewrite skip_spaces_id by (by eapply skip_spaces_head).
Qed.

Lemma tokenize_space c s : isspace c = true -> tokenize (c :: s) = tokenize s.
Proof. intros Hc. rewrite <- (tokenize_skip (c :: s)), <- (tokenize_skip s). simpl. by rewrite Hc. Qed.

(** Tokens are never empty: the parser drops them. *)
Lemma tokenize_nonempty s : Forall (fun t => t <> []) (tokenize s).
Proof.
  funelim (tokenize s); [done|]. destruct (next_token (c :: r)).1; simpl; [done|].
  by constructor.
Qed.

(** Trimming. *)
Lemma skip_spaces_app_space ws s :
  Forall (fun c => isspace c = true) ws -> skip_spaces (ws ++ s) = skip_spaces s.
Proof. induction 1 as [|c ws Hc _ IH]; simpl; [done|]. by rewrite Hc. Qed.

Lemma trim_back_app_space s ws :
  Forall (fun c => isspace c = true) ws -> trim_back (s ++ ws) = trim_back s.
Proof.
  intros H. unfold trim_back. rewrite reverse_app, skip_spaces_app_space; [done|].
  by apply Forall_reverse.
Qed.

Lemma skip_spaces_app s t c r :
  skip_spaces s = c :: r -> skip_spaces (s ++ t) = skip_spaces s ++ t.
Proof.
  induction s as [|d s IH]; simpl; [done|].
  destruct (isspace d); [done|]. by intros [= <- <-].
Qed.

Lemma trimCommand_spaces ws1 s ws2 :
  Forall (fun c => isspace c = true) ws1 -> Forall (fun c => isspace c = true) ws2 ->
  trimCommand (ws1 ++ s ++ ws2) = trimCommand s.
Proof.
  intros H1 H2. unfold trimCommand. rewrite skip_spaces_app_space by done.
  destruct (skip_spaces s) as [|c r] eqn:E.
  - apply skip_spaces_nil in E. rewrite skip_spaces_app_space by done.
    apply skip_spaces_nil in H2. by rewrite H2.
  - erewrite skip_spaces_app by done. rewrite E. by apply trim_back_app_space.
Qed.

(** A line that neither starts nor ends with a space is left alone. *)
Lemma trimCommand_id c s d :
  isspace c = false -> isspace d = false -> last (c :: s) = Some d ->
  trimCommand (c :: s) = c :: s.
Proof.
  intros Hc Hd Hl. unfold trimCommand, trim_back. rewrite skip_spaces_id by done.
  apply last_Some in Hl as [l ->]. rewrite reverse_snoc, skip_spaces_id by done.
  by rewrite <- reverse_snoc, reverse_involutive.
Qed.

(** Tokens of a text without quotes are free of spaces. *)
Lemma scan_plain_no_space s : Forall (fun c => isspace c = false) (scan_plain s).1.
Proof.
  induction s as [|c s IH]; simpl; [done|]. destruct (isspace c) eqn:E; simpl; [done|].
  by constructor.
Qed.

Lemma scan_plain_suffix s c : c ∈ (scan_plain s).2 -> c ∈ s.
Proof.
  induction s as [|d s IH]; simpl; [done|]. destruct (isspace d); simpl; [done|].
  intros H. right. auto.
Qed.

Lemma skip_spaces_suffix s c : c ∈ skip_spaces s -> c ∈ s.
Proof.
  induction s as [|d s IH]; simpl; [done|]. destruct (isspace d); [|done].
  intros H. right. auto.
Qed.

Lemma push_token_elem t token tokens :
  t ∈ push_token token tokens -> t = token \/ t ∈ tokens.
Proof. destruct token; simpl; set_solver. Qed.

Lemma tokenize_no_quote s t :
  ch_quote ∉ s -> t ∈ tokenize s -> Forall (fun c => isspace c = false) t.
Proof.
  funelim (tokenize s); [set_solver|]. intros Hq Ht.
  match goal with IH : forall t, _ -> t ∈ tokenize _ -> _ |- _ => rename IH into IHr end.
  assert (Hq' : ch_quote ∉ c :: r) by (intros Hin; apply Hq, skip_spaces_suffix; by rewrite E).
  assert (Hn : next_token (c :: r) = scan_plain (c :: r)).
  { unfold next_token. apply not_elem_of_cons in Hq' as [? ?].
    by rewrite bool_decide_eq_false_2 by done. }
  rewrite Hn in *. apply push_token_elem in Ht as [->|Ht]; [apply scan_plain_no_space|].
  apply IHr; [|done]. intros Hin. by apply Hq', scan_plain_suffix.
Qed.
