(* ===== verification/AofFormat.v ===== *)
(** * The text of the append-only file ([src/storage/aof_writer.cpp])

    [quoteIfNeeded] and the lines [logSet], [logDel] and [logExpire] build, and
    what the command parser makes of them when the file is replayed. *)

From S2P Require Import Prelude Cpp Parser.

(** ** Operations *)

(** The characters [find_first_of] looks for: space, tab, quote and backslash. *)
Definition quoting_chars : bytes := [ch_space; ch_tab; ch_quote; ch_backslash].

Definition needs_quoting (s : bytes) : bool :=
  existsb (fun c => bool_decide (c ∈ quoting_chars)) s.

(** The loop of [quoteIfNeeded] over the characters. *)
Fixpoint escape (s : bytes) : bytes :=
  match s with
  | [] => []
  | c :: s' =>
      if bool_decide (c = ch_quote) || bool_decide (c = ch_backslash)
      then ch_backslash :: c :: escape s'
      else c :: escape s'
  end.

Definition quoteIfNeeded (s : bytes) : bytes :=
  if needs_quoting s then ch_quote :: escape s ++ [ch_quote] else s.

(** The strings the three log operations enqueue. *)
Definition setLine (key value : bytes) : bytes :=
  str "SET " ++ quoteIfNeeded key ++ str " " ++ quoteIfNeeded value.

Definition delLine (key : bytes) : bytes := str "DEL " ++ quoteIfNeeded key.

Definition expireLine (key : bytes) (seconds : Z) : bytes :=
  str "EXPIRE " ++ quoteIfNeeded key ++ str " " ++ to_string seconds.

(** ** Which arguments survive *)

(** An argument that comes back from the file: not empty, and either quoted or
    free of every character the tokenizer splits on. *)
Definition replayable (s : bytes) : Prop :=
  s <> [] /\ (needs_quoting s = true \/ Forall (fun c => isspace c = false) s).

#[export] Instance replayable_dec s : Decision (replayable s).
Proof. unfold replayable. apply _. Defined.

(** What may follow a token: the end of the line or a space. *)
Definition token_end (s : bytes) : Prop :=
  match s with [] => True | c :: _ => isspace c = true end.

(** ** Lemmas *)

Lemma scan_quoted_escape s rest :
  scan_quoted (escape s ++ ch_quote :: rest) = (s, ch_quote :: rest).
Proof.
  induction s as [|c s IH]; simpl; [done|].
  destruct (bool_decide (c = ch_quote)) eqn:Eq; simpl.
  - rewrite IH. simpl. done.
  - destruct (bool_decide (c = ch_backslash)) eqn:Eb; simpl.
    + by rewrite IH.
    + by rewrite Eq, Eb, IH.
Qed.

Lemma scan_plain_app s rest :
  Forall (fun c => isspace c = false) s -> token_end rest ->
  scan_plain (s ++ rest) = (s, rest).
Proof.
  intros Hs Hr. induction Hs as [|c s Hc _ IH]; simpl.
  - destruct rest as [|c rest]; simpl in *; [done|]. by rewrite Hr.
  - by rewrite Hc, IH.
Qed.

Lemma needs_quoting_false s c :
  needs_quoting s = false -> c ∈ s -> c ∉ quoting_chars.
Proof.
  intros H Hc Hq. assert (needs_quoting s = true); [|congruence].
  apply existsb_exists. exists c. split; [by apply list_elem_of_In|].
  by apply bool_decide_eq_true.
Qed.

(** A plain token with no space and no leading quote is read as it is. *)
Lemma tokenize_plain s rest :
  s <> [] -> head s <> Some ch_quote -> Forall (fun c => isspace c = false) s ->
  token_end rest -> tokenize (s ++ rest) = s :: tokenize rest.
Proof.
  intros Hne Hq Hs Hr. pose proof (scan_plain_app s rest Hs Hr) as Hp.
  destruct s as [|c s]; [done|]. simpl app in *.
  rewrite tokenize_cons by (by inversion Hs).
  unfold next_token. rewrite bool_decide_eq_false_2 by (simpl in Hq; congruence).
  by rewrite Hp.
Qed.

(** One quoted or plain argument, followed by the end of the line or a space. *)
Lemma tokenize_quoteIfNeeded s rest :
  replayable s -> token_end rest ->
  tokenize (quoteIfNeeded s ++ rest) = s :: tokenize rest.
Proof.
  intros [Hne Hs] Hr. unfold quoteIfNeeded. destruct (needs_quoting s) eqn:Hq.
  - simpl. rewrite <- app_assoc. simpl. rewrite tokenize_cons by done.
    unfold next_token. rewrite bool_decide_eq_true_2 by done.
    rewrite scan_quoted_escape. simpl. by destruct s.
  - destruct Hs as [|Hs]; [done|]. apply tokenize_plain; [done| |done|done].
    destruct s as [|c s]; [done|]. intros [= ->].
    apply (needs_quoting_false _ ch_quote Hq); [set_solver|by_evaluation].
Qed.

Lemma quoteIfNeeded_last s :
  replayable s -> exists c, last (quoteIfNeeded s) = Some c /\ isspace c = false.
Proof.
  intros [Hne Hs]. unfold quoteIfNeeded. destruct (needs_quoting s).
  - exists ch_quote. by rewrite app_comm_cons, last_snoc.
  - destruct Hs as [|Hs]; [done|]. destruct (last s) as [c|] eqn:E.
    + exists c. split; [done|]. apply last_Some in E as [l ->].
      apply Forall_app in Hs as [_ Hs]. by inversion Hs.
    + by apply last_None in E.
Qed.

(** A line made of a command word and one argument text is not trimmed. *)
Lemma trimCommand_line c w t d :
  isspace c = false -> last t = Some d -> isspace d = false ->
  trimCommand ((c :: w) ++ t) = (c :: w) ++ t.
Proof.
  intros Hc Ht Hd. simpl. eapply trimCommand_id; [done|exact Hd|].
  by rewrite app_comm_cons, last_app, Ht.
Qed.

Lemma parseCommand_line c w t d :
  isspace c = false -> last t = Some d -> isspace d = false ->
  parseCommand ((c :: w) ++ t) = command_of_tokens (tokenize ((c :: w) ++ t)).
Proof. intros. unfold parseCommand. by erewrite trimCommand_line by done. Qed.

(** A command word and its separator, read before the arguments. *)
Lemma tokenize_word w rest :
  w <> [] -> head w <> Some ch_quote -> Forall (fun c => isspace c = false) w ->
  tokenize (w ++ str " " ++ rest) = w :: tokenize rest.
Proof.
  intros. rewrite tokenize_plain by done. f_equal. by apply tokenize_space.
Qed.

Lemma tokenize_word_arg w s :
  w <> [] -> head w <> Some ch_quote -> Forall (fun c => isspace c = false) w ->
  replayable s -> tokenize (w ++ str " " ++ quoteIfNeeded s) = [w; s].
Proof.
  intros. rewrite tokenize_word by done.
  rewrite <- (app_nil_r (quoteIfNeeded s)), tokenize_quoteIfNeeded by done.
  by rewrite tokenize_eq.
Qed.

Lemma tokenize_word_two_args w s1 s2 :
  w <> [] -> head w <> Some ch_quote -> Forall (fun c => isspace c = false) w ->
  replayable s1 -> replayable s2 ->
  tokenize (w ++ str " " ++ quoteIfNeeded s1 ++ str " " ++ quoteIfNeeded s2) = [w; s1; s2].
Proof.
  intros. rewrite tokenize_word by done. rewrite tokenize_quoteIfNeeded by done.
  f_equal. simpl str. simpl app. rewrite tokenize_space by done.
  rewrite <- (app_nil_r (quoteIfNeeded s2)), tokenize_quoteIfNeeded by done.
  by rewrite tokenize_eq.
Qed.

(** A decimal number is its own quotation. *)
Lemma to_string_replayable z : replayable (to_string z).
Proof. split; [apply to_string_nonempty|right; apply to_string_no_space]. Qed.

Lemma digit_not_quoting d : (0 <= d < 10)%Z -> digit d ∉ quoting_chars.
Proof.
  intros H. assert (Hd : (d = 0 \/ d = 1 \/ d = 2 \/ d = 3 \/ d = 4 \/ d = 5 \/ d = 6
    \/ d = 7 \/ d = 8 \/ d = 9)%Z) by lia.
  unfold quoting_chars.
  repeat destruct Hd as [->|Hd]; [..|subst]; by_evaluation.
Qed.

Lemma to_string_unquoted z : needs_quoting (to_string z) = false.
Proof.
  destruct (needs_quoting (to_string z)) eqn:E; [|done]. exfalso.
  apply existsb_exists in E as (c & Hc%list_elem_of_In & Hq%bool_decide_eq_true).
  assert (Hdec : forall n, (0 <= n)%Z -> c ∉ dec n).
  { intros n Hn Hin. pose proof (dec_digits_digits (S (Z.to_nat (Z.log2 n))) n Hn) as HF.
    rewrite Forall_forall in HF. destruct (HF c Hin) as (d & Hd & ->).
    by apply (digit_not_quoting d). }
  unfold to_string in Hc. destruct (z <? 0)%Z eqn:Ez.
  - apply Z.ltb_lt in Ez. apply elem_of_cons in Hc as [->|Hc].
    + refute_by_evaluation Hq.
    + by apply (Hdec (- z)%Z) in Hc; [|lia].
  - apply Z.ltb_ge in Ez. by apply (Hdec z) in Hc.
Qed.

Lemma to_string_plain z : quoteIfNeeded (to_string z) = to_string z.
Proof. unfold quoteIfNeeded. by rewrite to_string_unquoted. Qed.

(** ** Round trips *)

(** C15: A token survives being written and read back exactly when it is [replayable]:
    quoting is complete for spaces, tabs, quotes and backslashes, and nothing
    quotes a vertical tab, a form feed, a carriage return or a line feed. *)
Theorem quoteIfNeeded_roundtrip s :
  tokenize (quoteIfNeeded s) = [s] <-> replayable s.
Proof.
  split.
  - intros H. split.
    + intros ->. by rewrite tokenize_eq in H.
    + destruct (needs_quoting s) eqn:E; [by left|right].
      unfold quoteIfNeeded in H. rewrite E in H.
      eapply tokenize_no_quote; [|rewrite H; set_solver].
      intros Hq. eapply needs_quoting_false; [done..|by_evaluation].
  - intros Hs. rewrite <- (app_nil_r (quoteIfNeeded s)), tokenize_quoteIfNeeded by done.
    by rewrite tokenize_eq.
Qed.

(** A command word: what the tokenizer reads as a plain token. *)
Definition plain_word (w : bytes) : Prop :=
  w <> [] /\ head w <> Some ch_quote /\ Forall (fun c => isspace c = false) w.

#[export] Instance plain_word_dec w : Decision (plain_word w).
Proof. unfold plain_word. apply _. Defined.

Lemma parseCommand_word w t s :
  plain_word w -> replayable s ->
  parseCommand (w ++ t ++ quoteIfNeeded s) =
  command_of_tokens (tokenize (w ++ t ++ quoteIfNeeded s)).
Proof.
  intros (Hne & _ & Hw) Hs. destruct (quoteIfNeeded_last s Hs) as (d & Hl & Hd).
  destruct w as [|c w]; [done|]. eapply parseCommand_line; [by inversion Hw| |exact Hd].
  by rewrite last_app, Hl.
Qed.

Lemma parse_one_arg w s :
  plain_word w -> replayable s ->
  parseCommand (w ++ str " " ++ quoteIfNeeded s) = command_of_tokens [w; s].
Proof.
  intros Hw Hs. rewrite parseCommand_word by done. destruct Hw as (? & ? & ?).
  by rewrite tokenize_word_arg.
Qed.

Lemma parse_two_args w s1 s2 :
  plain_word w -> replayable s1 -> replayable s2 ->
  parseCommand (w ++ str " " ++ quoteIfNeeded s1 ++ str " " ++ quoteIfNeeded s2) =
  command_of_tokens [w; s1; s2].
Proof.
  intros Hw H1 H2.
  pose proof (parseCommand_word w (str " " ++ quoteIfNeeded s1 ++ str " ") s2 Hw H2) as H.
  rewrite <- !app_assoc in H. rewrite H. destruct Hw as (? & ? & ?).
  by rewrite tokenize_word_two_args.
Qed.

Lemma parse_setLine key value :
  replayable key -> replayable value ->
  parseCommand (setLine key value) = mkCommand SET [key; value].
Proof.
  intros. unfold setLine. change (str "SET ") with (str "SET" ++ str " ").
  rewrite <- app_assoc. by rewrite parse_two_args by (done || by_evaluation).
Qed.

Lemma parse_delLine key :
  replayable key -> parseCommand (delLine key) = mkCommand DEL [key].
Proof.
  intros. unfold delLine. change (str "DEL ") with (str "DEL" ++ str " ").
  rewrite <- app_assoc. by rewrite parse_one_arg by (done || by_evaluation).
Qed.

Lemma parse_expireLine key seconds :
  replayable key ->
  parseCommand (expireLine key seconds) = mkCommand EXPIRE [key; to_string seconds].
Proof.
  intros. unfold expireLine. change (str "EXPIRE ") with (str "EXPIRE" ++ str " ").
  rewrite <- app_assoc, <- (to_string_plain seconds) at 1.
  by rewrite parse_two_args by (done || apply to_string_replayable || by_evaluation).
Qed.
