(* ===== verification/ParserFacts.v ===== *)
(** * What the parser accepts

    The shape of a parsed command, the white space and letter case a client may use,
    the round trip of the log's lines, and that no line feed gets through. *)

From S2P Require Import Prelude Cpp Parser AofFormat.
From Equations Require Import Equations.

(** ** Shape *)

(** The arguments a parsed command can have: what the dispatcher tests for is either
    complete or absent, and no argument is empty. *)
Definition command_shape (cmd : Command) : Prop :=
  Forall (fun a => a <> []) (args cmd) /\
  match type cmd with
  | SET | EXPIRE => length (args cmd) = 0 \/ length (args cmd) = 2
  | GET | DEL | TTL => length (args cmd) = 0 \/ length (args cmd) = 1
  | PING | STATS | UNKNOWN => args cmd = []
  end.

Lemma first_arg_Forall (P : bytes -> Prop) tokens : Forall P tokens -> Forall P (first_arg tokens).
Proof. intros HF. repeat (destruct HF as [|? ? ? HF]; simpl; auto). Qed.

Lemma first_two_args_Forall (P : bytes -> Prop) tokens :
  Forall P tokens -> Forall P (first_two_args tokens).
Proof. intros HF. repeat (destruct HF as [|? ? ? HF]; simpl; auto). Qed.

Lemma first_arg_length tokens : length (first_arg tokens) = 0 \/ length (first_arg tokens) = 1.
Proof. destruct tokens as [|? [|? ?]]; simpl; auto. Qed.

Lemma first_two_args_length tokens :
  length (first_two_args tokens) = 0 \/ length (first_two_args tokens) = 2.
Proof. destruct tokens as [|? [|? [|? ?]]]; simpl; auto. Qed.

(** Every argument of the command is one of the tokens. *)
Lemma command_of_tokens_Forall (P : bytes -> Prop) tokens :
  Forall P tokens -> Forall P (args (command_of_tokens tokens)).
Proof.
  intros HF. unfold command_of_tokens. destruct tokens as [|name tokens]; [constructor|].
  cbv zeta. repeat case_bool_decide; cbn [args];
    auto using first_arg_Forall, first_two_args_Forall.
Qed.

Lemma command_of_tokens_shape tokens :
  Forall (fun a => a <> []) tokens -> command_shape (command_of_tokens tokens).
Proof.
  intros HF. split; [by apply command_of_tokens_Forall|]. unfold command_of_tokens.
  destruct tokens as [|name tokens]; [done|].
  repeat case_bool_decide; try done;
    first [apply first_arg_length|apply first_two_args_length].
Qed.

(** C30: Whatever bytes a client sends, the parsed command has the shape the dispatcher
    expects: a command word with exactly its arguments, none of them empty, or with
    no argument at all. *)
Theorem parseCommand_shape input : command_shape (parseCommand input).
Proof.
  unfold parseCommand. destruct (trimCommand input) as [|c r]; [done|].
  apply command_of_tokens_shape, tokenize_nonempty.
Qed.

(** ** White space and case *)

Lemma parseCommand_spaces ws1 s ws2 :
  Forall (fun c => isspace c = true) ws1 -> Forall (fun c => isspace c = true) ws2 ->
  parseCommand (ws1 ++ s ++ ws2) = parseCommand s.
Proof. intros H1 H2. unfold parseCommand. by rewrite trimCommand_spaces. Qed.

Lemma command_of_tokens_case name1 name2 tokens :
  toUpper name1 = toUpper name2 ->
  command_of_tokens (name1 :: tokens) = command_of_tokens (name2 :: tokens).
Proof. intros Hn. unfold command_of_tokens. rewrite Hn. done. Qed.

(** Trimming keeps a prefix that is followed by something else than spaces. *)
Lemma trim_back_app s t :
  ~ Forall (fun c => isspace c = true) t -> trim_back (s ++ t) = s ++ trim_back t.
Proof.
  intros Ht. unfold trim_back. rewrite reverse_app.
  destruct (skip_spaces (reverse t)) as [|c r] eqn:E.
  - apply skip_spaces_nil, Forall_reverse in E. by rewrite reverse_involutive in E.
  - erewrite skip_spaces_app by done. by rewrite E, reverse_app, reverse_involutive.
Qed.

Lemma trim_back_cases t :
  Forall (fun c => isspace c = true) t \/ ~ Forall (fun c => isspace c = true) t.
Proof. destruct (decide (Forall (fun c => isspace c = true) t)); auto. Qed.

Lemma trim_back_word w : plain_word w -> trim_back w = w.
Proof.
  intros (Hne & _ & Hw). unfold trim_back.
  destruct (reverse w) as [|c r] eqn:E.
  - apply (f_equal reverse) in E. by rewrite reverse_involutive in E.
  - apply Forall_reverse in Hw. rewrite E in Hw. inversion Hw; subst.
    rewrite skip_spaces_id by done. by rewrite <- E, reverse_involutive.
Qed.

Lemma trimCommand_word_nonempty w t : plain_word w -> trimCommand (w ++ str " " ++ t) <> [].
Proof.
  intros Hw. pose proof Hw as (Hne & _ & Hs). destruct w as [|c w]; [done|].
  unfold trimCommand. rewrite <- app_comm_cons, skip_spaces_id by (by inversion Hs).
  unfold trim_back. intros Heq%(f_equal reverse). rewrite reverse_involutive in Heq.
  apply skip_spaces_nil, Forall_reverse in Heq. rewrite reverse_involutive in Heq.
  inversion Heq; inversion Hs; congruence.
Qed.

(** A command word, a space and the rest of the line: the word is the first token and
    the others come from the trimmed rest. *)
Lemma parseCommand_word_rest w t :
  plain_word w -> parseCommand (w ++ str " " ++ t) = command_of_tokens (w :: tokenize (trim_back t)).
Proof.
  intros Hw. pose proof Hw as (Hne & Hq & Hs). unfold parseCommand.
  pose proof (trimCommand_word_nonempty w t Hw) as Hnil.
  assert (Htok : tokenize (trimCommand (w ++ str " " ++ t)) = w :: tokenize (trim_back t)).
  { unfold trimCommand. destruct w as [|c w]; [done|].
    rewrite <- app_comm_cons, skip_spaces_id by (by inversion Hs). rewrite app_comm_cons.
    destruct (trim_back_cases t) as [Ht|Ht].
    - rewrite trim_back_app_space by (by constructor). rewrite trim_back_word by done.
      rewrite <- (app_nil_r (c :: w)) at 1. rewrite tokenize_plain by done.
      do 2 rewrite tokenize_eq. rewrite (proj2 (skip_spaces_nil (trim_back t))); [done|].
      unfold trim_back. apply Forall_reverse in Ht. apply skip_spaces_nil in Ht. by rewrite Ht.
    - rewrite app_assoc, trim_back_app by done. rewrite <- app_assoc. by rewrite tokenize_word. }
  destruct (trimCommand (w ++ str " " ++ t)); [done|]. by rewrite Htok.
Qed.

(** A client may write the command word in any letter case and put white space, such as
    the carriage return of a CRLF terminator, around the line: the command is the same. *)
Lemma parseCommand_lenient ws1 ws2 w1 w2 t :
  Forall (fun c => isspace c = true) ws1 -> Forall (fun c => isspace c = true) ws2 ->
  plain_word w1 -> plain_word w2 -> toUpper w1 = toUpper w2 ->
  parseCommand (ws1 ++ (w1 ++ str " " ++ t) ++ ws2) = parseCommand (w2 ++ str " " ++ t).
Proof.
  intros Hs1 Hs2 H1 H2 Hup. rewrite parseCommand_spaces by done.
  rewrite !parseCommand_word_rest by done. by apply command_of_tokens_case.
Qed.

(** ** Where the characters come from *)

Lemma scan_quoted_chars s c :
  c ∈ (scan_quoted s).1 \/ c ∈ (scan_quoted s).2 -> c ∈ s.
Proof.
  induction s as [s IH] using (induction_ltof1 _ (@length ascii)). unfold ltof in IH.
  destruct s as [|d s]; simpl; [tauto|]. case_bool_decide; simpl; [set_solver|].
  case_bool_decide; simpl.
  - destruct s as [|e s]; simpl; [set_solver|]. specialize (IH s ltac:(simpl; lia)).
    rewrite !elem_of_cons. tauto.
  - specialize (IH s ltac:(simpl; lia)). rewrite !elem_of_cons. tauto.
Qed.

Lemma scan_plain_chars s c : c ∈ (scan_plain s).1 \/ c ∈ (scan_plain s).2 -> c ∈ s.
Proof.
  induction s as [|d s IH]; simpl; [tauto|].
  destruct (isspace d); simpl; rewrite !elem_of_cons; rewrite ?elem_of_nil; tauto.
Qed.

Lemma next_token_chars s c : c ∈ (next_token s).1 \/ c ∈ (next_token s).2 -> c ∈ s.
Proof.
  unfold next_token. destruct s as [|d s]; [tauto|]. case_bool_decide; [|apply scan_plain_chars].
  simpl. intros Hc. right. apply scan_quoted_chars. destruct Hc as [Hc|Hc]; [by left|right].
  by apply subseteq_drop in Hc.
Qed.

Lemma tokenize_chars s t c : t ∈ tokenize s -> c ∈ t -> c ∈ s.
Proof.
  funelim (tokenize s); [set_solver|]. intros Ht Hc.
  match goal with IH : forall t c, t ∈ tokenize _ -> _ |- _ => rename IH into IHr end.
  apply skip_spaces_suffix. rewrite E. apply next_token_chars.
  apply push_token_elem in Ht as [->|Ht]; [by left|right]. by eapply IHr.
Qed.

Lemma trimCommand_chars s c : c ∈ trimCommand s -> c ∈ s.
Proof.
  unfold trimCommand, trim_back. intros Hc. apply skip_spaces_suffix.
  rewrite elem_of_reverse in Hc. apply skip_spaces_suffix in Hc. by rewrite elem_of_reverse in Hc.
Qed.

(** Every character of an argument is a character of the line. *)
Lemma parseCommand_chars input a c : a ∈ args (parseCommand input) -> c ∈ a -> c ∈ input.
Proof.
  intros Ha Hc. apply trimCommand_chars. unfold parseCommand in Ha.
  destruct (trimCommand input) as [|d r]; [by apply elem_of_nil in Ha|].
  pose proof (command_of_tokens_Forall (fun t => c ∈ t -> c ∈ d :: r) (tokenize (d :: r))) as HF.
  rewrite !Forall_forall in HF. eapply HF; [|done..]. intros t Ht. by eapply tokenize_chars.
Qed.

(** ** The lines of the log *)

(** What is left of a text that follows a word. *)
Lemma trim_back_rest s c rest :
  trim_back s = s -> isspace c = true ->
  exists rest', token_end rest' /\ trim_back (s ++ c :: rest) = s ++ rest'.
Proof.
  intros Hs Hc. destruct (trim_back_cases rest) as [Hr|Hr].
  - exists []. split; [done|]. rewrite app_nil_r, <- Hs at 1.
    rewrite trim_back_app_space by (by constructor). by rewrite Hs.
  - exists (c :: trim_back rest). split; [done|].
    by rewrite cons_middle, app_assoc, trim_back_app, <- app_assoc.
Qed.

Lemma quoteIfNeeded_trim s t :
  replayable s -> trim_back (t ++ quoteIfNeeded s) = t ++ quoteIfNeeded s.
Proof.
  intros Hs. destruct (quoteIfNeeded_last s Hs) as (d & Hl & Hd).
  unfold trim_back. apply last_Some in Hl as [l Hl]. rewrite Hl, app_assoc, reverse_snoc.
  rewrite skip_spaces_id by done. by rewrite <- reverse_snoc, reverse_involutive.
Qed.

(** Whatever follows the two arguments of a SET line is ignored. *)
Lemma parse_setLine_rest key value rest :
  replayable key -> replayable value ->
  parseCommand (setLine key value ++ str " " ++ rest) = mkCommand SET [key; value].
Proof.
  intros Hk Hv.
  unfold setLine. change (str "SET ") with (str "SET" ++ str " "). rewrite <- !app_assoc.
  rewrite parseCommand_word_rest by by_evaluation.
  set (s := quoteIfNeeded key ++ str " " ++ quoteIfNeeded value).
  assert (Hs : trim_back s = s) by (unfold s; rewrite app_assoc; by apply quoteIfNeeded_trim).
  destruct (trim_back_rest s ch_space rest Hs eq_refl) as (r & Hr & Heq).
  change (ch_space :: rest) with (str " " ++ rest) in Heq. unfold s in Heq. rewrite <- !app_assoc in Heq. rewrite Heq.
  rewrite tokenize_quoteIfNeeded by done. simpl str. simpl app.
  by rewrite tokenize_space, tokenize_quoteIfNeeded by done.
Qed.

(** The lines of the log read back as the commands that wrote them.  Whatever follows the
    value of a SET line, such as an EX option, is ignored: the parser keeps the first
    two arguments. *)
Lemma log_lines_roundtrip key value seconds rest :
  replayable key -> replayable value -> in_int64 seconds ->
  parseCommand (setLine key value) = mkCommand SET [key; value] /\
  parseCommand (delLine key) = mkCommand DEL [key] /\
  (exists n, parseCommand (expireLine key seconds) = mkCommand EXPIRE [key; n] /\
     stoll n = Conv seconds) /\
  parseCommand (setLine key value ++ str " " ++ rest) = mkCommand SET [key; value].
Proof.
  intros Hk Hv Hs. split; [by apply parse_setLine|]. split; [by apply parse_delLine|].
  split; [|by apply parse_setLine_rest]. exists (to_string seconds).
  split; [by apply parse_expireLine|by apply stoll_to_string].
Qed.

(** White space that is not quoted ends the value: a SET line whose value has a
    vertical tab, a form feed or a carriage return and no character that is quoted
    reads back with the value cut before it. *)
Lemma set_line_truncates key value c rest :
  replayable key -> needs_quoting (value ++ c :: rest) = false -> replayable value ->
  isspace c = true ->
  parseCommand (setLine key (value ++ c :: rest)) = mkCommand SET [key; value].
Proof.
  intros Hk Hq Hv Hc. assert (Hqv : quoteIfNeeded value = value).
  { unfold quoteIfNeeded. destruct (needs_quoting value) eqn:E; [|done].
    unfold needs_quoting in *. by rewrite existsb_app, E in Hq. }
  unfold setLine. unfold quoteIfNeeded at 2. rewrite Hq.
  change (str "SET ") with (str "SET" ++ str " "). rewrite <- !app_assoc.
  rewrite parseCommand_word_rest by by_evaluation.
  set (s := quoteIfNeeded key ++ str " " ++ quoteIfNeeded value).
  assert (Hs : trim_back s = s) by (unfold s; rewrite app_assoc; by apply quoteIfNeeded_trim).
  destruct (trim_back_rest s c rest Hs Hc) as (r & Hr & Heq). unfold s in Heq.
  rewrite <- !app_assoc, Hqv in Heq. rewrite Heq.
  replace (value ++ r) with (quoteIfNeeded value ++ r) by (by rewrite Hqv).
  rewrite tokenize_quoteIfNeeded by done. simpl str. simpl app.
  by rewrite tokenize_space, tokenize_quoteIfNeeded by done.
Qed.
