(* ===== verification/Response.v ===== *)
(** * Response formatting ([src/protocol/response.cpp])

    Every response is one line; the first character says its kind. *)

From S2P Require Import Prelude Cpp.

Definition pongResponse : bytes := str "+PONG" ++ [ch_nl].
Definition okResponse : bytes := str "+OK" ++ [ch_nl].
Definition valueResponse (value : bytes) : bytes := str "$" ++ value ++ [ch_nl].
Definition nilResponse : bytes := str "$nil" ++ [ch_nl].
(** The parameter of [integerResponse] is an [int]: callers convert. *)
Definition integerResponse (value : Z) : bytes := str ":" ++ to_string value ++ [ch_nl].
Definition errorResponse (message : bytes) : bytes := str "-ERR " ++ message ++ [ch_nl].

(** ** Lemmas *)

(** One line: the terminator is the only line feed. *)
Definition one_line (r : bytes) : Prop := exists body, r = body ++ [ch_nl] /\ ch_nl ∉ body.

Lemma to_string_no_newline z : ch_nl ∉ to_string z.
Proof.
  intros H. pose proof (to_string_no_space z) as Hs. rewrite Forall_forall in Hs.
  by specialize (Hs _ H).
Qed.

Lemma integerResponse_one_line z : one_line (integerResponse z).
Proof.
  exists (str ":" ++ to_string z). split; [done|].
  intros [H|H]%elem_of_app; [refute_by_evaluation H|by apply to_string_no_newline in H].
Qed.

Lemma valueResponse_one_line v : ch_nl ∉ v -> one_line (valueResponse v).
Proof.
  intros Hv. exists (str "$" ++ v). split; [by rewrite <- app_assoc|].
  intros [H|H]%elem_of_app; [refute_by_evaluation H|done].
Qed.

(** An integer response determines the integer. *)
Lemma integerResponse_inj z1 z2 : integerResponse z1 = integerResponse z2 -> z1 = z2.
Proof. intros [= Heq]. apply app_inj_tail in Heq as [Heq _]. by apply to_string_inj. Qed.

Lemma valueResponse_inj v1 v2 : valueResponse v1 = valueResponse v2 -> v1 = v2.
Proof. intros [= Heq]. by apply app_inj_tail in Heq as [Heq _]. Qed.
