(* ===== verification/StdList.v ===== *)
(** * [std::list<std::string>] with its iterators

    A list node has an identity: an iterator is the identity of the node it points
    to.  [splice] moves a node and keeps its identity, [erase] destroys the node, and
    using an iterator whose node is not in the list is undefined behaviour. *)

From S2P Require Import Prelude.

Abbreviation node_id := nat (only parsing).
Abbreviation Node := (node_id * bytes)%type.

(** Unlink the node an iterator points to. *)
Fixpoint unlink (i : node_id) (l : list Node) : option (Node * list Node) :=
  match l with
  | [] => None
  | n :: l' =>
      if decide (n.1 = i) then Some (n, l')
      else match unlink i l' with
           | Some (m, r) => Some (m, n :: r)
           | None => None
           end
  end.

Definition list_erase (i : node_id) (l : list Node) : outcome (list Node) :=
  '(_, r) ← deref (unlink i l); Ret r.

(** [l.splice(l.begin(), l, it)]. *)
Definition splice_front (i : node_id) (l : list Node) : outcome (list Node) :=
  '(n, r) ← deref (unlink i l); Ret (n :: r).

(** ** Lemmas *)

Lemma unlink_spec i k l1 l2 :
  i ∉ l1.*1 -> unlink i (l1 ++ (i, k) :: l2) = Some ((i, k), l1 ++ l2).
Proof.
  induction l1 as [|[j m] l1 IH]; simpl; intros Hi.
  - by rewrite decide_True.
  - apply not_elem_of_cons in Hi as [Hj Hi].
    rewrite decide_False by (simpl; congruence). by rewrite IH.
Qed.

(** With distinct identities, the node of a member is found where it is. *)
Lemma unlink_elem i k l :
  NoDup l.*1 -> (i, k) ∈ l ->
  exists l1 l2, l = l1 ++ (i, k) :: l2 /\ unlink i l = Some ((i, k), l1 ++ l2).
Proof.
  intros Hnd Hin. apply list_elem_of_split in Hin as (l1 & l2 & ->).
  exists l1, l2. split; [done|]. apply unlink_spec.
  rewrite fmap_app in Hnd. apply NoDup_app in Hnd as (_ & Hd & _).
  intros Hi. by apply (Hd i Hi); left.
Qed.
