(* ===== verification/Lru.v ===== *)
(** * The abstract LRU cache with deadlines

    The specification of one shard: a list of keys, the most recently used first,
    each with its value and optional deadline.  It has no hash map, no linked nodes
    and no iterators; [Shard] refines it. *)

From S2P Require Import Prelude Cpp.

(** A value and the time at which it expires. *)
Abbreviation slot := (bytes * option Z)%type.
Abbreviation cache := (list (bytes * slot)).

Definition slot_expired (now : Z) (s : slot) : bool :=
  match s.2 with None => false | Some d => (d <=? now)%Z end.

Fixpoint cfind (k : bytes) (c : cache) : option slot :=
  match c with
  | [] => None
  | (k', s) :: c' => if decide (k' = k) then Some s else cfind k c'
  end.

Definition cremove (k : bytes) (c : cache) : cache :=
  filter (fun p => p.1 <> k) c.

(** Replace the slot of a key, in place. *)
Definition creplace (k : bytes) (s : slot) (c : cache) : cache :=
  map (fun p => if decide (p.1 = k) then (k, s) else p) c.

Definition spec_insert (cap : nat) (k : bytes) (s : slot) (c : cache) : cache :=
  match cfind k c with
  | Some _ => (k, s) :: cremove k c
  | None => (k, s) :: take (cap - 1) c
  end.

(** How many keys an insertion pushes out. *)
Definition spec_evicted (cap : nat) (k : bytes) (c : cache) : nat :=
  match cfind k c with
  | Some _ => 0
  | None => length c - (cap - 1)
  end.

(** The lookup every reading operation starts with: the slot of a key that has not
    expired, the cache without it if it has, and how many entries that removed. *)
Definition spec_live (now : Z) (k : bytes) (c : cache) : option slot * cache * nat :=
  match cfind k c with
  | None => (None, c, 0)
  | Some s => if slot_expired now s then (None, cremove k c, 1) else (Some s, c, 0)
  end.

Definition spec_get (now : Z) (k : bytes) (c : cache) : option bytes * cache * nat :=
  match spec_live now k c with
  | (None, c', n) => (None, c', n)
  | (Some s, c', n) => (Some s.1, (k, s) :: cremove k c', n)
  end.

Definition spec_del (now : Z) (k : bytes) (c : cache) : bool * cache * nat :=
  match spec_live now k c with
  | (None, c', n) => (false, c', n)
  | (Some _, c', n) => (true, cremove k c', n)
  end.

(** [deadline] is the time the key is to expire. *)
Definition spec_expire (now deadline : Z) (k : bytes) (c : cache) : bool * cache * nat :=
  match spec_live now k c with
  | (None, c', n) => (false, c', n)
  | (Some s, c', n) => (true, creplace k (s.1, Some deadline) c', n)
  end.

(** [now] decides expiry, [now2] is the later reading the remaining time is from. *)
Definition spec_ttl (now now2 : Z) (k : bytes) (c : cache) : Z * cache * nat :=
  match spec_live now k c with
  | (None, c', n) => ((-2)%Z, c', n)
  | (Some (_, None), c', n) => ((-1)%Z, c', n)
  | (Some (_, Some d), c', n) => (Z.max 0 (Z.quot (d - now2) NS_PER_S), c', n)
  end.

(** A sweep that visits the keys [visited]. *)
Definition swept (now : Z) (visited : list bytes) (p : bytes * slot) : Prop :=
  slot_expired now p.2 = true /\ p.1 ∈ visited.

#[export] Instance swept_dec now visited p : Decision (swept now visited p).
Proof. unfold swept. apply _. Defined.

Definition spec_sweep (now : Z) (visited : list bytes) (c : cache) : cache :=
  filter (fun p => ~ swept now visited p) c.

(** ** Lemmas *)

Lemma cfind_None k c : cfind k c = None <-> k ∉ c.*1.
Proof.
  induction c as [|[k' s] c IH]; simpl; [set_solver|].
  case_decide; set_solver.
Qed.

Lemma cfind_Some k s c : NoDup c.*1 -> cfind k c = Some s <-> (k, s) ∈ c.
Proof.
  induction c as [|[k' s'] c IH]; simpl; [set_solver|].
  intros [Hk Hnd]%NoDup_cons. case_decide as Hd; subst.
  - split; [intros [= ->]; set_solver|].
    intros [[= ->]|Hin]%elem_of_cons; [done|]. exfalso. apply Hk.
    by apply (list_elem_of_fmap_2 fst) in Hin.
  - rewrite IH by done. split; [set_solver|]. intros [[= -> ->]|]%elem_of_cons; done.
Qed.

Lemma cremove_app k c1 c2 : cremove k (c1 ++ c2) = cremove k c1 ++ cremove k c2.
Proof. apply filter_app. Qed.

Lemma cremove_id k c : k ∉ c.*1 -> cremove k c = c.
Proof.
  intros H. apply list_filter_all. rewrite Forall_forall. intros p Hp <-.
  apply H. by apply list_elem_of_fmap_2.
Qed.

Lemma creplace_id k s c : k ∉ c.*1 -> creplace k s c = c.
Proof.
  induction c as [|p c IH]; simpl; [done|]. intros [? ?]%not_elem_of_cons.
  rewrite decide_False by done. by rewrite IH.
Qed.

Lemma cfind_cremove_ne k k' c : k <> k' -> cfind k' (cremove k c) = cfind k' c.
Proof.
  intros Hne. induction c as [|[j s] c IH]; simpl; [done|]. unfold cremove. rewrite filter_cons.
  destruct (decide (j = k)) as [->|Hj].
  - rewrite decide_False by naive_solver. rewrite decide_False by done. apply IH.
  - rewrite decide_True by done. simpl. case_decide; [done|apply IH].
Qed.

Lemma cfind_cremove_eq k c : cfind k (cremove k c) = None.
Proof.
  apply cfind_None. intros (p & -> & Hp)%list_elem_of_fmap.
  by apply list_elem_of_filter in Hp as [? _].
Qed.

Lemma cfind_creplace k s k' c :
  cfind k' (creplace k s c) = if decide (k = k') then (fun _ => s) <$> cfind k' c else cfind k' c.
Proof.
  induction c as [|[j t] c IH]; simpl; [by case_decide|].
  destruct (decide (j = k)) as [->|Hj]; simpl.
  - destruct (decide (k = k')) as [->|]; [done|]. apply IH.
  - destruct (decide (j = k')) as [->|]; [|apply IH].
    rewrite decide_False by congruence. done.
Qed.

Lemma cremove_creplace k s c : cremove k (creplace k s c) = cremove k c.
Proof.
  unfold cremove, creplace. induction c as [|p c IH]; [done|]. rewrite map_cons, !filter_cons.
  destruct (decide (p.1 = k)) as [Hp|Hp]; simpl.
  - rewrite !decide_False by naive_solver. exact IH.
  - rewrite !decide_True by done. by rewrite IH.
Qed.

Lemma cfind_take n k c s : cfind k (take n c) = Some s -> cfind k c = Some s.
Proof.
  revert n. induction c as [|[j t] c IH]; intros [|n]; simpl; try done.
  case_decide; [done|apply IH].
Qed.

(** What an insertion leaves of another key: its slot, or nothing when it was evicted;
    with room to spare nothing is lost. *)
Lemma cfind_spec_insert_ne cap k s k' c :
  k <> k' ->
  cfind k' (spec_insert cap k s c) = cfind k' c \/
  cfind k' (spec_insert cap k s c) = None /\ 0 < spec_evicted cap k c.
Proof.
  intros Hne. unfold spec_insert, spec_evicted. destruct (cfind k c); simpl.
  - rewrite decide_False by done. left. by apply cfind_cremove_ne.
  - rewrite decide_False by done.
    destruct (decide (length c <= cap - 1)).
    + left. by rewrite take_ge.
    + destruct (cfind k' (take (cap - 1) c)) eqn:E.
      * left. by apply cfind_take in E.
      * right. split; [done|lia].
Qed.

Lemma cfind_spec_insert_eq cap k s c : cfind k (spec_insert cap k s c) = Some s.
Proof. unfold spec_insert. destruct (cfind k c); simpl; by rewrite decide_True. Qed.

(** Visiting one key of a sweep: it goes if it has expired. *)
Lemma spec_sweep_cons_expired now k visited c s :
  NoDup c.*1 -> cfind k c = Some s -> slot_expired now s = true ->
  spec_sweep now (k :: visited) c = spec_sweep now visited (cremove k c).
Proof.
  intros Hnd Hk Hx. unfold spec_sweep, cremove. rewrite list_filter_filter.
  apply list_filter_ext_in. intros [j t] Hin. unfold swept. simpl.
  rewrite elem_of_cons. split; [|naive_solver].
  intros H. split; [naive_solver|]. intros ->. apply H. split; [|by left].
  apply cfind_Some in Hin; [|done]. congruence.
Qed.

Lemma spec_sweep_cons_live now k visited c s :
  NoDup c.*1 -> cfind k c = Some s -> slot_expired now s = false ->
  spec_sweep now (k :: visited) c = spec_sweep now visited c.
Proof.
  intros Hnd Hk Hx. apply list_filter_ext_in. intros [j t] Hin. unfold swept. simpl.
  rewrite elem_of_cons. apply cfind_Some in Hin; [|done]. naive_solver congruence.
Qed.

Lemma spec_sweep_nil now c : spec_sweep now [] c = c.
Proof. apply list_filter_all. apply Forall_forall. intros p _ [_ H]. set_solver. Qed.

(** A swept cache answers for every time from [now] on as the unswept one. *)
Lemma cfind_spec_sweep now visited k c :
  NoDup c.*1 ->
  cfind k (spec_sweep now visited c) = cfind k c \/
  cfind k (spec_sweep now visited c) = None /\
    exists s, cfind k c = Some s /\ slot_expired now s = true.
Proof.
  intros Hnd.
  assert (Hnd' : NoDup (spec_sweep now visited c).*1).
  { eapply sublist_NoDup; [exact Hnd|]. apply fmap_sublist, sublist_filter. }
  destruct (cfind k c) as [s|] eqn:Hk.
  - destruct (decide (swept now visited (k, s))) as [Hs|Hs].
    + right. split; [|exists s; split; [done|apply Hs]].
      apply cfind_None. intros ([j t] & -> & [Hn Hin]%list_elem_of_filter)%list_elem_of_fmap.
      apply cfind_Some in Hin; [|done]. simpl in *. congruence.
    + left. apply cfind_Some; [done|]. apply list_elem_of_filter. split; [done|].
      by apply cfind_Some.
  - left. apply cfind_None. apply cfind_None in Hk. intros Hin. apply Hk.
    apply list_elem_of_fmap in Hin as (p & -> & [_ Hin]%list_elem_of_filter).
    by apply list_elem_of_fmap_2.
Qed.

(** ** The keys an operation can leave behind *)

Lemma keys_cremove k c : (cremove k c).*1 ⊆ c.*1.
Proof. apply sublist_subseteq, fmap_sublist, sublist_filter. Qed.

Lemma keys_creplace k s c : (creplace k s c).*1 = c.*1.
Proof.
  unfold creplace. induction c as [|p c IH]; [done|]. rewrite map_cons, !fmap_cons, IH.
  by case_decide; subst.
Qed.

Lemma keys_spec_sweep now visited c : (spec_sweep now visited c).*1 ⊆ c.*1.
Proof. apply sublist_subseteq, fmap_sublist, sublist_filter. Qed.

Lemma keys_spec_insert cap k s c j : j ∈ (spec_insert cap k s c).*1 -> j ∈ c.*1 \/ j = k.
Proof.
  unfold spec_insert. destruct (cfind k c); rewrite fmap_cons, elem_of_cons; intros [->|Hj];
    try (by right); left.
  - by apply keys_cremove in Hj.
  - rewrite fmap_take in Hj. eapply elem_of_submseteq; [exact Hj|apply submseteq_take].
Qed.

Lemma keys_spec_live now k c : (spec_live now k c).1.2.*1 ⊆ c.*1.
Proof.
  unfold spec_live. destruct (cfind k c) as [s|]; [|done].
  destruct (slot_expired now s); simpl; [apply keys_cremove|done].
Qed.

Lemma keys_spec_get now k c j : j ∈ (spec_get now k c).1.2.*1 -> j ∈ c.*1 \/ j = k.
Proof.
  pose proof (keys_spec_live now k c) as Hl. unfold spec_get.
  destruct (spec_live now k c) as [[[s|] c'] n]; simpl in *; [|intros; left; by apply Hl].
  rewrite elem_of_cons. intros [->|Hj]; [by right|left]. by apply keys_cremove, Hl in Hj.
Qed.

Lemma keys_spec_del now k c j : j ∈ (spec_del now k c).1.2.*1 -> j ∈ c.*1 \/ j = k.
Proof.
  pose proof (keys_spec_live now k c) as Hl. unfold spec_del.
  destruct (spec_live now k c) as [[[s|] c'] n]; simpl in *; intros Hj; left; apply Hl; [|done].
  by apply keys_cremove in Hj.
Qed.

Lemma keys_spec_expire now d k c j : j ∈ (spec_expire now d k c).1.2.*1 -> j ∈ c.*1 \/ j = k.
Proof.
  pose proof (keys_spec_live now k c) as Hl. unfold spec_expire.
  destruct (spec_live now k c) as [[[s|] c'] n]; simpl in *; intros Hj; left; apply Hl; [|done].
  by rewrite keys_creplace in Hj.
Qed.

Lemma keys_spec_ttl now now2 k c j : j ∈ (spec_ttl now now2 k c).1.2.*1 -> j ∈ c.*1 \/ j = k.
Proof.
  pose proof (keys_spec_live now k c) as Hl. unfold spec_ttl.
  destruct (spec_live now k c) as [[[[v [d|]]|] c'] n]; simpl in *; intros Hj; left; by apply Hl.
Qed.

#[export] Hint Resolve keys_spec_get keys_spec_del keys_spec_expire keys_spec_ttl : cf.
