(* ===== verification/Shard.v ===== *)
(** * One shard of the storage ([src/storage/sharded_storage.cpp])

    A shard is a hash map from keys to entries and a linked list of keys, the most
    recently used first; an entry holds an iterator to its node of that list.  The
    operations are the bodies the member functions run with the shard's mutex held.
    What the source reads from its environment is an argument: a reading of
    [steady_clock] per call of [now()], and the order in which one traversal visits
    the hash map, which the standard leaves open. *)

From S2P Require Import Prelude Cpp StdList Lru.
Local Open Scope Z_scope.

(** ** State *)

Record Entry : Type := mkEntry {
  value : bytes;
  expires_at : option Z;
  lru_iter : node_id
}.

(** [next_node] is the allocator's supply of node identities. *)
Record Shard : Type := mkShard {
  data : gmap bytes Entry;
  lru_order : list Node;
  next_node : node_id
}.

(** The two atomic counters the operations bump. *)
Record Counters : Type := mkCounters {
  expired_keys : Z;
  evicted_keys : Z
}.

Definition empty_shard : Shard := mkShard ∅ [] 0%nat.

Definition count_expired (ct : Counters) : Counters :=
  mkCounters (u64 (expired_keys ct + 1)) (evicted_keys ct).

Definition count_evicted (ct : Counters) : Counters :=
  mkCounters (expired_keys ct) (u64 (evicted_keys ct + 1)).

(** ** Operations *)

Definition isExpired (now : Z) (e : Entry) : bool :=
  match expires_at e with
  | None => false
  | Some d => d <=? now
  end.

Definition removeExpiredEntry (key : bytes) (e : Entry) (sh : Shard) (ct : Counters)
    : outcome (Shard * Counters) :=
  l ← list_erase (lru_iter e) (lru_order sh);
  Ret (mkShard (delete key (data sh)) l (next_node sh), count_expired ct).

(** The loop of [evictIfNeeded]; the list is given from its back. *)
Fixpoint evictLoop (max_keys_per_shard : Z) (back : list Node) (d : gmap bytes Entry)
    (ct : Counters) : outcome (list Node * gmap bytes Entry * Counters) :=
  if decide (max_keys_per_shard <= Z.of_nat (size d)) then
    match back with
    | [] => UB
    | lru :: back' => evictLoop max_keys_per_shard back' (delete lru.2 d) (count_evicted ct)
    end
  else Ret (back, d, ct).

Definition evictIfNeeded (max_keys_per_shard : Z) (sh : Shard) (ct : Counters)
    : outcome (Shard * Counters) :=
  '(back, d, ct') ← evictLoop max_keys_per_shard (reverse (lru_order sh)) (data sh) ct;
  Ret (mkShard d (reverse back) (next_node sh), ct').

Definition insertOrUpdate (max_keys_per_shard : Z) (key val : bytes) (expires : option Z)
    (sh : Shard) (ct : Counters) : outcome (Shard * Counters) :=
  match data sh !! key with
  | Some e =>
      let e' := mkEntry val expires (lru_iter e) in
      l ← splice_front (lru_iter e') (lru_order sh);
      Ret (mkShard (<[key := e']> (data sh)) l (next_node sh), ct)
  | None =>
      '(sh', ct') ← evictIfNeeded max_keys_per_shard sh ct;
      let n := next_node sh' in
      Ret (mkShard (<[key := mkEntry val expires n]> (data sh'))
                   ((n, key) :: lru_order sh') (S n), ct')
  end.

(** The body of [setWithTTL]: a negative number of seconds means no deadline. *)
Definition setWithTTLBody (now max_keys_per_shard : Z) (key val : bytes) (seconds : Z)
    (sh : Shard) (ct : Counters) : outcome (Shard * Counters) :=
  if seconds <? 0 then insertOrUpdate max_keys_per_shard key val None sh ct
  else
    expires ← add_seconds now seconds;
    insertOrUpdate max_keys_per_shard key val (Some expires) sh ct.

Definition getBody (now : Z) (key : bytes) (sh : Shard) (ct : Counters)
    : outcome (option bytes * Shard * Counters) :=
  match data sh !! key with
  | None => Ret (None, sh, ct)
  | Some e =>
      if isExpired now e then
        '(sh', ct') ← removeExpiredEntry key e sh ct;
        Ret (None, sh', ct')
      else
        l ← splice_front (lru_iter e) (lru_order sh);
        Ret (Some (value e), mkShard (data sh) l (next_node sh), ct)
  end.

Definition delBody (now : Z) (key : bytes) (sh : Shard) (ct : Counters)
    : outcome (bool * Shard * Counters) :=
  match data sh !! key with
  | None => Ret (false, sh, ct)
  | Some e =>
      if isExpired now e then
        '(sh', ct') ← removeExpiredEntry key e sh ct;
        Ret (false, sh', ct')
      else
        l ← list_erase (lru_iter e) (lru_order sh);
        Ret (true, mkShard (delete key (data sh)) l (next_node sh), ct)
  end.

(** [now] is read by [isExpired], [now2] for the new deadline. *)
Definition expireBody (now now2 : Z) (key : bytes) (seconds : Z) (sh : Shard) (ct : Counters)
    : outcome (bool * Shard * Counters) :=
  match data sh !! key with
  | None => Ret (false, sh, ct)
  | Some e =>
      if isExpired now e then
        '(sh', ct') ← removeExpiredEntry key e sh ct;
        Ret (false, sh', ct')
      else
        expires ← add_seconds now2 seconds;
        Ret (true, mkShard (<[key := mkEntry (value e) (Some expires) (lru_iter e)]> (data sh))
                           (lru_order sh) (next_node sh), ct)
  end.

(** [now] is read by [isExpired], [now2] for the remaining time. *)
Definition ttlBody (now now2 : Z) (key : bytes) (sh : Shard) (ct : Counters)
    : outcome (Z * Shard * Counters) :=
  match data sh !! key with
  | None => Ret (-2, sh, ct)
  | Some e =>
      if isExpired now e then
        '(sh', ct') ← removeExpiredEntry key e sh ct;
        Ret (-2, sh', ct')
      else
        match expires_at e with
        | None => Ret (-1, sh, ct)
        | Some d =>
            remaining ← diff_seconds d now2;
            Ret (if 0 <? remaining then remaining else 0, sh, ct)
        end
  end.

Definition MAX_SCAN_PER_SWEEP : nat := 100.

(** The loop of [sweepShard]: [order] is what the iterator has yet to visit.  The
    iterator points into the map, so a key that is not there would be undefined. *)
Fixpoint sweepLoop (now : Z) (scanned : nat) (order : list bytes) (sh : Shard) (ct : Counters)
    : outcome (Shard * Counters) :=
  match order with
  | [] => Ret (sh, ct)
  | key :: order' =>
      if (scanned <? MAX_SCAN_PER_SWEEP)%nat then
        e ← deref (data sh !! key);
        if isExpired now e then
          l ← list_erase (lru_iter e) (lru_order sh);
          sweepLoop now (S scanned) order'
            (mkShard (delete key (data sh)) l (next_node sh)) (count_expired ct)
        else sweepLoop now (S scanned) order' sh ct
      else Ret (sh, ct)
  end.

Definition sweepShard (now : Z) (order : list bytes) (sh : Shard) (ct : Counters)
    : outcome (Shard * Counters) :=
  sweepLoop now 0 order sh ct.

(** ** Invariant and abstraction *)

(** The hash map and the linked list describe the same keys, one node per key, and
    the iterator of an entry points to the node of its key. *)
Record coherent (d : gmap bytes Entry) (l : list Node) : Prop := mkCoherent {
  coh_ids : NoDup l.*1;
  coh_keys : NoDup l.*2;
  coh_iff : forall i k, (i, k) ∈ l <-> exists e, d !! k = Some e /\ lru_iter e = i
}.

Definition entry_ok (e : Entry) : Prop :=
  match expires_at e with None => True | Some d => clock_reading d end.

Record shard_inv (max_keys_per_shard : Z) (sh : Shard) : Prop := mkShardInv {
  inv_coherent : coherent (data sh) (lru_order sh);
  inv_fresh : Forall (fun n => (n.1 < next_node sh)%nat) (lru_order sh);
  inv_capacity : Z.of_nat (size (data sh)) <= max_keys_per_shard;
  inv_deadlines : map_Forall (fun _ e => entry_ok e) (data sh)
}.

Definition slot_of (e : Entry) : slot := (value e, expires_at e).

Definition absN (d : gmap bytes Entry) (n : Node) : option (bytes * slot) :=
  (fun e => (n.2, slot_of e)) <$> d !! n.2.

(** The abstract cache of a shard: the slots in the order of the linked list. *)
Definition absL (d : gmap bytes Entry) (l : list Node) : cache := omap (absN d) l.
Arguments absL : simpl never.
Definition abs (sh : Shard) : cache := absL (data sh) (lru_order sh).

(** ** Coherence *)

#[export] Instance coherent_perm d : Proper ((≡ₚ) ==> iff) (coherent d).
Proof.
  assert (H : forall l l', l ≡ₚ l' -> coherent d l -> coherent d l').
  { intros l l' Hp [H1 H2 H3]. split.
    - by rewrite <- Hp.
    - by rewrite <- Hp.
    - intros i k. rewrite <- Hp. apply H3. }
  intros l l' Hp. split; apply H; by rewrite Hp.
Qed.

Lemma coherent_empty : coherent ∅ [].
Proof.
  split; try constructor; intros.
  - set_solver.
  - match goal with H : exists _, _ |- _ => destruct H as (? & H & _) end.
    by rewrite lookup_empty in H.
Qed.

Lemma coherent_cons_inv d i k l :
  coherent d ((i, k) :: l) -> exists e, d !! k = Some e /\ lru_iter e = i /\ k ∉ l.*2 /\ i ∉ l.*1.
Proof.
  intros [H1 H2 H3]. destruct (proj1 (H3 i k)) as (e & He & Hi); [set_solver|].
  apply NoDup_cons in H1 as [? _], H2 as [? _]. eauto 10.
Qed.

Lemma coherent_cons d i k l : coherent d ((i, k) :: l) -> coherent (delete k d) l.
Proof.
  intros Hc. destruct (coherent_cons_inv _ _ _ _ Hc) as (e & He & <- & Hk & Hi).
  destruct Hc as [H1 H2 H3]. apply NoDup_cons in H1 as [_ H1], H2 as [_ H2].
  split; [done..|]. intros j m. destruct (decide (m = k)) as [->|Hne].
  - rewrite lookup_delete_eq. split; [|by intros (? & ? & _)].
    intros Hin. exfalso. apply Hk. by apply (list_elem_of_fmap_2 snd) in Hin.
  - rewrite lookup_delete_ne by done. rewrite <- H3. set_solver.
Qed.

Lemma coherent_remove d l1 i k l2 :
  coherent d (l1 ++ (i, k) :: l2) -> coherent (delete k d) (l1 ++ l2).
Proof.
  intros Hc. eapply coherent_cons. by rewrite Permutation_middle.
Qed.

Lemma coherent_update d l k e e' :
  coherent d l -> d !! k = Some e -> lru_iter e' = lru_iter e ->
  coherent (<[k := e']> d) l.
Proof.
  intros [H1 H2 H3] He Hi. split; [done..|]. intros i m. rewrite H3.
  destruct (decide (m = k)) as [->|Hne]; [|by rewrite lookup_insert_ne].
  rewrite lookup_insert_eq, He. split; intros (e0 & [= <-] & <-); eauto.
Qed.

Lemma coherent_insert d l k e :
  coherent d l -> d !! k = None -> lru_iter e ∉ l.*1 ->
  coherent (<[k := e]> d) ((lru_iter e, k) :: l).
Proof.
  intros [H1 H2 H3] Hk Hi.
  assert (Hkl : k ∉ l.*2).
  { intros ([i m] & -> & Hin)%list_elem_of_fmap. apply H3 in Hin as (? & ? & _). simpl in *. congruence. }
  split; [by constructor..|]. intros i m. rewrite elem_of_cons.
  destruct (decide (m = k)) as [->|Hne].
  - rewrite lookup_insert_eq. split.
    + intros [[= ->]|Hin]; [eauto|].
      exfalso. apply Hkl. by apply (list_elem_of_fmap_2 snd) in Hin.
    + intros (e0 & [= <-] & <-). by left.
  - rewrite lookup_insert_ne by done. rewrite <- H3. split; [|by right].
    intros [[= ? ->]|?]; done.
Qed.

Lemma coherent_size d l : coherent d l -> size d = length l.
Proof.
  revert d. induction l as [|[i k] l IH]; intros d Hc; simpl.
  - apply map_size_empty_iff, map_empty. intros k. destruct (d !! k) as [e|] eqn:E; [|done].
    destruct Hc as [_ _ H]. destruct (H (lru_iter e) k) as [_ H']. exfalso.
    assert ((lru_iter e, k) ∈ @nil Node) by eauto. set_solver.
  - pose proof (coherent_cons_inv _ _ _ _ Hc) as (e & He & _).
    apply coherent_cons, IH in Hc. rewrite <- Hc.
    rewrite <- (insert_delete_id d k e He) at 1.
    apply map_size_insert_None, lookup_delete_eq.
Qed.

(** The node of a stored key, and what unlinking it leaves. *)
Lemma coherent_unlink d l k e :
  coherent d l -> d !! k = Some e ->
  exists l1 l2, l = l1 ++ (lru_iter e, k) :: l2 /\
    unlink (lru_iter e) l = Some ((lru_iter e, k), l1 ++ l2).
Proof. intros [H1 _ H3] He. apply unlink_elem; [done|]. apply H3. eauto. Qed.

(** ** The abstraction function *)

Lemma absL_unfold d n l :
  absL d (n :: l) = match absN d n with Some p => p :: absL d l | None => absL d l end.
Proof. reflexivity. Qed.

Lemma absL_ext d d' l :
  (forall n, n ∈ l -> d !! n.2 = d' !! n.2) -> absL d l = absL d' l.
Proof.
  induction l as [|n l IH]; intros H; [done|].
  assert (Hn : absN d n = absN d' n) by (unfold absN; rewrite H; [done|left]).
  rewrite !absL_unfold, Hn, IH; [done|]. intros m Hm. apply H. by right.
Qed.

Lemma absL_app d l1 l2 : absL d (l1 ++ l2) = absL d l1 ++ absL d l2.
Proof. apply omap_app. Qed.

Lemma absL_cons d i k l e :
  d !! k = Some e -> absL d ((i, k) :: l) = (k, slot_of e) :: absL d l.
Proof. intros He. rewrite absL_unfold. unfold absN. simpl. by rewrite He. Qed.

Lemma absL_keys d l : coherent d l -> (absL d l).*1 = l.*2.
Proof.
  revert d. induction l as [|[i k] l IH]; intros d Hc; [done|].
  pose proof (coherent_cons_inv _ _ _ _ Hc) as (e & He & _ & Hk & _).
  rewrite (absL_cons _ _ _ _ e), !fmap_cons by done. cbn [fst snd]. f_equal.
  rewrite <- (IH _ (coherent_cons _ _ _ _ Hc)). f_equal. apply absL_ext.
  intros [j m] Hin. simpl. rewrite lookup_delete_ne; [done|].
  intros ->. apply Hk. by apply (list_elem_of_fmap_2 snd) in Hin.
Qed.

Lemma absL_length d l : coherent d l -> length (absL d l) = length l.
Proof. intros Hc. rewrite <- (length_fmap fst (absL d l)), absL_keys by done. apply length_fmap. Qed.

Lemma cfind_abs d l k : coherent d l -> cfind k (absL d l) = slot_of <$> d !! k.
Proof.
  intros Hc. destruct (d !! k) as [e|] eqn:E; simpl.
  - apply cfind_Some; [rewrite absL_keys by done; apply Hc|].
    apply list_elem_of_omap. exists (lru_iter e, k). split.
    + apply Hc. eauto.
    + unfold absN. simpl. by rewrite E.
  - apply cfind_None. rewrite absL_keys by done.
    intros ([i m] & -> & Hin)%list_elem_of_fmap. apply Hc in Hin as (e & He & _).
    simpl in *. congruence.
Qed.

Lemma absL_delete d l k : k ∉ l.*2 -> absL (delete k d) l = absL d l.
Proof.
  intros Hk. apply absL_ext. intros [j m] Hin. simpl. apply lookup_delete_ne.
  intros ->. apply Hk. by apply (list_elem_of_fmap_2 snd) in Hin.
Qed.

Lemma absL_insert d l k e : k ∉ l.*2 -> absL (<[k := e]> d) l = absL d l.
Proof.
  intros Hk. apply absL_ext. intros [j m] Hin. simpl. apply lookup_insert_ne.
  intros ->. apply Hk. by apply (list_elem_of_fmap_2 snd) in Hin.
Qed.

Lemma coherent_not_elem d l1 i k l2 :
  coherent d (l1 ++ (i, k) :: l2) -> k ∉ (l1 ++ l2).*2.
Proof.
  intros Hc. rewrite <- Permutation_middle in Hc.
  by apply coherent_cons_inv in Hc as (? & _ & _ & ? & _).
Qed.

Lemma absL_remove d l1 i k l2 :
  coherent d (l1 ++ (i, k) :: l2) ->
  absL (delete k d) (l1 ++ l2) = cremove k (absL d (l1 ++ (i, k) :: l2)).
Proof.
  intros Hc. pose proof (coherent_not_elem _ _ _ _ _ Hc) as Hk.
  pose proof (coherent_remove _ _ _ _ _ Hc) as Hr.
  assert (He : exists e, d !! k = Some e) by (destruct (proj1 (coh_iff _ _ Hc i k)); naive_solver set_solver).
  destruct He as [e He].
  rewrite !absL_app, (absL_cons _ _ _ _ e) by done.
  change ((k, slot_of e) :: absL d l2) with ([(k, slot_of e)] ++ absL d l2).
  rewrite !cremove_app, <- !absL_app. unfold cremove at 2. rewrite filter_cons_False by naive_solver.
  rewrite absL_delete by done. rewrite app_nil_l, <- cremove_app, <- absL_app, cremove_id; [done|].
  rewrite <- (absL_delete d _ k), absL_keys by done. done.
Qed.

Lemma absL_update d l k e' :
  coherent d l -> absL (<[k := e']> d) l = creplace k (slot_of e') (absL d l).
Proof.
  revert d. induction l as [|[i m] l IH]; intros d Hc; [done|].
  pose proof (coherent_cons_inv _ _ _ _ Hc) as (e & He & _ & Hm & _).
  rewrite (absL_cons d _ _ _ e) by done. unfold creplace. rewrite map_cons. cbn [fst].
  destruct (decide (m = k)) as [->|Hne].
  - rewrite (absL_cons _ _ _ _ e') by apply lookup_insert_eq. f_equal.
    rewrite absL_insert by done. symmetry. apply creplace_id.
    rewrite <- (absL_delete d _ k), absL_keys by (done || by eapply coherent_cons). done.
  - rewrite (absL_cons _ _ _ _ e) by (by rewrite lookup_insert_ne). f_equal.
    rewrite <- (absL_delete d l m), <- (absL_delete _ l m) by done.
    rewrite delete_insert_ne by done. apply IH. by eapply coherent_cons.
Qed.

(** ** The building blocks preserve the invariant and refine the specification *)

Section blocks.
Context (max : Z) (sh : Shard) (key : bytes) (e : Entry).
Context (Hinv : shard_inv max sh) (Hkey : data sh !! key = Some e).

(** Unlinking the node of [key] through its iterator and dropping its entry. *)
Lemma erase_refines :
  exists l, list_erase (lru_iter e) (lru_order sh) = Ret l /\
    shard_inv max (mkShard (delete key (data sh)) l (next_node sh)) /\
    absL (delete key (data sh)) l = cremove key (abs sh).
Proof.
  destruct Hinv as [Hc Hf Hs Hd].
  destruct (coherent_unlink _ _ _ _ Hc Hkey) as (l1 & l2 & Hl & Hu).
  exists (l1 ++ l2). unfold list_erase. rewrite Hu. split; [done|]. rewrite Hl in Hc, Hf.
  split; [split; simpl|].
  - by eapply coherent_remove.
  - eapply Forall_app in Hf as [? Hf]. inversion Hf. by apply Forall_app.
  - pose proof (map_size_delete key (data sh)) as Hsz. rewrite Hkey in Hsz. simpl in Hsz. lia.
  - by apply map_Forall_delete.
  - unfold abs. rewrite Hl. by eapply absL_remove.
Qed.

(** Moving the node of [key] to the front. *)
Lemma splice_refines :
  exists l, splice_front (lru_iter e) (lru_order sh) = Ret l /\ l ≡ₚ lru_order sh /\
    shard_inv max (mkShard (data sh) l (next_node sh)) /\
    absL (data sh) l = (key, slot_of e) :: cremove key (abs sh).
Proof.
  destruct Hinv as [Hc Hf Hs Hd].
  destruct (coherent_unlink _ _ _ _ Hc Hkey) as (l1 & l2 & Hl & Hu).
  exists ((lru_iter e, key) :: l1 ++ l2). unfold splice_front. rewrite Hu.
  assert (Hp : (lru_iter e, key) :: l1 ++ l2 ≡ₚ lru_order sh) by (rewrite Hl; apply Permutation_middle).
  split; [done|]. split; [done|]. split; [split; simpl; try done; by rewrite Hp|].
  rewrite (absL_cons _ _ _ _ e) by done. f_equal. rewrite Hl in Hc. unfold abs. rewrite Hl.
  erewrite <- absL_remove by done. symmetry. apply absL_delete. by eapply coherent_not_elem.
Qed.

(** Overwriting the entry of [key], keeping its iterator. *)
Lemma update_refines e' :
  lru_iter e' = lru_iter e -> entry_ok e' ->
  shard_inv max (mkShard (<[key := e']> (data sh)) (lru_order sh) (next_node sh)) /\
  absL (<[key := e']> (data sh)) (lru_order sh) = creplace key (slot_of e') (abs sh).
Proof.
  intros Hi He'. destruct Hinv as [Hc Hf Hs Hd]. split; [split; simpl; try done|].
  - by eapply coherent_update.
  - rewrite map_size_insert_Some; eauto.
  - by apply map_Forall_insert_2.
  - by apply absL_update.
Qed.
End blocks.

(** The eviction loop stops with room for one more key, having dropped keys from the
    back of the list only; it never takes the back of an empty list. *)
Lemma evictLoop_refines max d l ct :
  1 <= max -> coherent d l ->
  let keep := (Z.to_nat max - 1)%nat in
  exists d',
    evictLoop max (reverse l) d ct =
      Ret (reverse (take keep l), d', Nat.iter (length l - keep) count_evicted ct) /\
    coherent d' (take keep l) /\ absL d' (take keep l) = take keep (absL d l) /\ d' ⊆ d.
Proof.
  intros Hmax. cbv zeta. revert d ct. induction l as [|[i k] l IH] using rev_ind; intros d ct Hc.
  - exists d. rewrite take_nil. simpl. pose proof (coherent_size _ _ Hc) as Hs. simpl in Hs.
    rewrite decide_False by lia.
    change (absL d []) with (@nil (bytes * slot)). by rewrite take_nil.
  - pose proof (coherent_size _ _ Hc) as Hs. rewrite length_app in *. simpl in Hs.
    rewrite reverse_snoc. cbn [evictLoop length].
    destruct (decide (max <= Z.of_nat (size d))) as [Hge|Hlt].
    + pose proof (coherent_remove _ _ _ _ _ Hc) as Hr. rewrite app_nil_r in Hr.
      destruct (IH (delete k d) (count_evicted ct) Hr) as (d' & He & Hc' & Ha & Hsub).
      exists d'. rewrite take_app_le by lia. cbn [snd]. rewrite He. split; [|split; [done|split]].
      * do 2 f_equal. rewrite <- Nat.iter_succ_r. f_equal. lia.
      * rewrite Ha, absL_app, take_app_le by (rewrite <- (absL_delete d l k), absL_length by
          (done || (apply coherent_not_elem in Hc; by rewrite app_nil_r in Hc)); lia).
        f_equal. apply absL_delete. apply coherent_not_elem in Hc. by rewrite app_nil_r in Hc.
      * etransitivity; [exact Hsub|apply delete_subseteq].
    + exists d. rewrite take_ge by (rewrite length_app; simpl; lia). rewrite reverse_snoc.
      replace (length l + 1 - (Z.to_nat max - 1))%nat with 0%nat by lia.
      split; [done|]. split; [done|]. split; [|done].
      rewrite take_ge; [done|]. rewrite absL_length by done. rewrite length_app. simpl. lia.
Qed.

Lemma evictIfNeeded_refines max sh ct :
  1 <= max -> shard_inv max sh ->
  let keep := (Z.to_nat max - 1)%nat in
  exists sh',
    evictIfNeeded max sh ct =
      Ret (sh', Nat.iter (length (abs sh) - keep) count_evicted ct) /\
    shard_inv (max - 1) sh' /\ next_node sh' = next_node sh /\
    data sh' ⊆ data sh /\ abs sh' = take keep (abs sh).
Proof.
  intros Hmax [Hc Hf Hs Hd]. cbv zeta.
  destruct (evictLoop_refines max _ _ ct Hmax Hc) as (d' & He & Hc' & Ha & Hsub).
  unfold evictIfNeeded. rewrite He. simpl. rewrite reverse_involutive.
  exists (mkShard d' (take (Z.to_nat max - 1) (lru_order sh)) (next_node sh)).
  unfold abs. rewrite absL_length by done. split; [done|]. split; [split; simpl|done].
  - done.
  - by apply Forall_take.
  - rewrite (coherent_size _ _ Hc'), length_take. lia.
  - intros k e He'. apply (Hd k). by eapply lookup_weaken.
Qed.

Lemma cfind_shard max key sh :
  shard_inv max sh -> cfind key (abs sh) = slot_of <$> data sh !! key.
Proof. intros Hinv. apply cfind_abs, Hinv. Qed.

Definition add_expired (n : nat) : Counters -> Counters := Nat.iter n count_expired.
Definition add_evicted (n : nat) : Counters -> Counters := Nat.iter n count_evicted.

(** ** Every operation refines its specification *)

Lemma insertOrUpdate_refines max key val expires sh ct :
  1 <= max -> shard_inv max sh -> entry_ok (mkEntry val expires 0%nat) ->
  exists sh',
    insertOrUpdate max key val expires sh ct =
      Ret (sh', add_evicted (spec_evicted (Z.to_nat max) key (abs sh)) ct) /\
    shard_inv max sh' /\ abs sh' = spec_insert (Z.to_nat max) key (val, expires) (abs sh).
Proof.
  intros Hmax Hinv He. unfold insertOrUpdate, spec_evicted, spec_insert.
  rewrite !(cfind_shard max) by done.
  destruct (data sh !! key) as [e|] eqn:Hk; simpl.
  - set (e' := mkEntry val expires (lru_iter e)).
    destruct (update_refines max sh key e Hinv Hk e' eq_refl He) as [Hinv' Habs'].
    destruct (splice_refines max _ key e' Hinv') as (l & Hl & Hp & Hinv2 & Habs2);
      [apply lookup_insert_eq|].
    simpl in *. rewrite Hl. eexists. split; [done|]. split; [done|].
    unfold abs at 1. simpl. rewrite Habs2. f_equal. unfold abs at 1. simpl. rewrite Habs'.
    apply cremove_creplace.
  - destruct (evictIfNeeded_refines max sh ct Hmax Hinv) as (sh' & Hev & Hinv' & Hn & Hsub & Ha).
    rewrite Hev. simpl. eexists. split; [done|].
    assert (Hk' : data sh' !! key = None) by (by eapply lookup_weaken_None).
    destruct Hinv' as [Hc Hf Hs Hd]. set (e := mkEntry val expires (next_node sh')).
    assert (Hfresh : next_node sh' ∉ (lru_order sh').*1).
    { intros (n & Heq & Hin)%list_elem_of_fmap. rewrite Forall_forall in Hf.
      specialize (Hf n Hin). simpl in Hf. lia. }
    pose proof (coherent_insert _ _ key e Hc Hk' Hfresh) as Hci.
    split; [split; simpl|].
    + done.
    + constructor; [simpl; lia|]. eapply Forall_impl; [exact Hf|]. simpl. lia.
    + rewrite map_size_insert_None by done. lia.
    + by apply map_Forall_insert_2.
    + unfold abs at 1. simpl. rewrite (absL_cons _ _ _ _ e) by apply lookup_insert_eq.
      rewrite <- Ha. f_equal. apply absL_insert.
      apply (coherent_not_elem _ [] _ _ _ Hci).
Qed.

(** The common prefix of the reading operations: an absent key, an expired one (which
    is removed and counted) or a live entry. *)
Lemma live_cases max now key sh ct :
  shard_inv max sh ->
  (data sh !! key = None /\ spec_live now key (abs sh) = (None, abs sh, 0%nat)) \/
  (exists e sh', data sh !! key = Some e /\ isExpired now e = true /\
    removeExpiredEntry key e sh ct = Ret (sh', count_expired ct) /\ shard_inv max sh' /\
    spec_live now key (abs sh) = (None, abs sh', 1%nat)) \/
  (exists e, data sh !! key = Some e /\ isExpired now e = false /\
    spec_live now key (abs sh) = (Some (slot_of e), abs sh, 0%nat)).
Proof.
  intros Hinv. unfold spec_live. rewrite !(cfind_shard max) by done.
  destruct (data sh !! key) as [e|] eqn:Hk; simpl; [right|by left].
  change (slot_expired now (slot_of e)) with (isExpired now e).
  destruct (isExpired now e) eqn:Hx; [left|right; eauto].
  destruct (erase_refines max sh key e Hinv Hk) as (l & Hl & Hinv' & Ha).
  exists e, (mkShard (delete key (data sh)) l (next_node sh)).
  unfold removeExpiredEntry. rewrite Hl. simpl. rewrite <- Ha. done.
Qed.

(** A body returns what its specification says, in a shard that abstracts to the
    specified cache, having counted the entries it expired. *)
Definition body_refines {A} (max : Z) (m : outcome (A * Shard * Counters)) (ct : Counters)
    (r : A * cache * nat) : Prop :=
  exists sh', m = Ret (r.1.1, sh', add_expired r.2 ct) /\ shard_inv max sh' /\ abs sh' = r.1.2.

Lemma getBody_refines max now key sh ct :
  shard_inv max sh ->
  body_refines max (getBody now key sh ct) ct (spec_get now key (abs sh)).
Proof.
  intros Hinv. unfold body_refines, getBody, spec_get.
  destruct (live_cases max now key sh ct Hinv)
    as [(Hk & ->)|[(e & sh' & Hk & Hx & Hr & Hinv' & ->)|(e & Hk & Hx & ->)]]; rewrite Hk.
  - by exists sh.
  - rewrite Hx, Hr. by exists sh'.
  - rewrite Hx. destruct (splice_refines max sh key e Hinv Hk) as (l & -> & _ & Hinv' & Ha).
    by eexists.
Qed.

Lemma delBody_refines max now key sh ct :
  shard_inv max sh ->
  body_refines max (delBody now key sh ct) ct (spec_del now key (abs sh)).
Proof.
  intros Hinv. unfold body_refines, delBody, spec_del.
  destruct (live_cases max now key sh ct Hinv)
    as [(Hk & ->)|[(e & sh' & Hk & Hx & Hr & Hinv' & ->)|(e & Hk & Hx & ->)]]; rewrite Hk.
  - by exists sh.
  - rewrite Hx, Hr. by exists sh'.
  - rewrite Hx. destruct (erase_refines max sh key e Hinv Hk) as (l & -> & Hinv' & Ha).
    by eexists.
Qed.

(** [expire] is defined when the deadline fits the clock's representation. *)
Lemma expireBody_refines max now now2 key seconds deadline sh ct :
  shard_inv max sh -> add_seconds now2 seconds = Ret deadline -> clock_reading deadline ->
  body_refines max (expireBody now now2 key seconds sh ct) ct
    (spec_expire now deadline key (abs sh)).
Proof.
  intros Hinv Hadd Hd. unfold body_refines, expireBody, spec_expire.
  destruct (live_cases max now key sh ct Hinv)
    as [(Hk & ->)|[(e & sh' & Hk & Hx & Hr & Hinv' & ->)|(e & Hk & Hx & ->)]]; rewrite Hk.
  - by exists sh.
  - rewrite Hx, Hr. by exists sh'.
  - rewrite Hx, Hadd. set (e' := mkEntry (value e) (Some deadline) (lru_iter e)).
    destruct (update_refines max sh key e Hinv Hk e' eq_refl Hd) as [Hinv' Ha].
    by eexists.
Qed.

Lemma ttlBody_refines max now now2 key sh ct :
  shard_inv max sh -> clock_reading now2 ->
  body_refines max (ttlBody now now2 key sh ct) ct (spec_ttl now now2 key (abs sh)).
Proof.
  intros Hinv Hnow2. unfold body_refines, ttlBody, spec_ttl.
  destruct (live_cases max now key sh ct Hinv)
    as [(Hk & ->)|[(e & sh' & Hk & Hx & Hr & Hinv' & ->)|(e & Hk & Hx & ->)]]; rewrite Hk.
  - by exists sh.
  - rewrite Hx, Hr. by exists sh'.
  - rewrite Hx. unfold slot_of. simpl. destruct (expires_at e) as [d|] eqn:Hd; [|by exists sh].
    assert (Hcd : clock_reading d).
    { pose proof (inv_deadlines _ _ Hinv key e Hk) as Hok. unfold entry_ok in Hok. by rewrite Hd in Hok. }
    unfold clock_reading, INT64_MAX in *.
    rewrite diff_seconds_ok by (unfold in_int64, INT64_MIN, INT64_MAX; lia). simpl.
    exists sh. split; [|done]. do 3 f_equal.
    destruct (0 <? _) eqn:E; [apply Z.ltb_lt in E|apply Z.ltb_ge in E]; lia.
Qed.

Lemma abs_length max sh : shard_inv max sh -> length (abs sh) = size (data sh).
Proof.
  intros Hinv. unfold abs. rewrite absL_length by apply Hinv.
  symmetry. apply coherent_size, Hinv.
Qed.

Lemma abs_NoDup max sh : shard_inv max sh -> NoDup (abs sh).*1.
Proof. intros Hinv. unfold abs. rewrite absL_keys by apply Hinv. apply Hinv. Qed.

(** The sweep removes the expired entries among the first [MAX_SCAN_PER_SWEEP] it
    visits, and nothing else. *)
Lemma sweepLoop_refines max now scanned order sh ct :
  shard_inv max sh -> NoDup order -> (forall k, k ∈ order -> is_Some (data sh !! k)) ->
  exists sh',
    let c' := spec_sweep now (take (MAX_SCAN_PER_SWEEP - scanned) order) (abs sh) in
    sweepLoop now scanned order sh ct =
      Ret (sh', add_expired (length (abs sh) - length c') ct) /\
    shard_inv max sh' /\ abs sh' = c'.
Proof.
  revert scanned sh ct. induction order as [|k order IH]; intros scanned sh ct Hinv Hnd Hin.
  - exists sh. cbv zeta. rewrite take_nil, spec_sweep_nil, Nat.sub_diag. done.
  - cbn [sweepLoop]. destruct (scanned <? MAX_SCAN_PER_SWEEP)%nat eqn:Hlt.
    2:{ apply Nat.ltb_ge in Hlt. exists sh. cbv zeta.
        replace (MAX_SCAN_PER_SWEEP - scanned)%nat with 0%nat by lia.
        rewrite take_0, spec_sweep_nil, Nat.sub_diag. done. }
    apply Nat.ltb_lt in Hlt.
    replace (MAX_SCAN_PER_SWEEP - scanned)%nat with (S (MAX_SCAN_PER_SWEEP - S scanned)) by lia.
    rewrite firstn_cons. apply NoDup_cons in Hnd as [Hk Hnd].
    destruct (Hin k ltac:(left)) as [e He]. rewrite He. simpl.
    pose proof (cfind_shard max k sh Hinv) as Hf. rewrite He in Hf. simpl in Hf.
    pose proof (abs_NoDup max sh Hinv) as Hnda.
    destruct (isExpired now e) eqn:Hx.
    + destruct (erase_refines max sh k e Hinv He) as (l & -> & Hinv' & Ha). simpl.
      set (sh1 := mkShard (delete k (data sh)) l (next_node sh)) in *.
      change (abs sh1 = cremove k (abs sh)) in Ha.
      rewrite (spec_sweep_cons_expired _ _ _ _ _ Hnda Hf Hx), <- Ha.
      destruct (IH (S scanned) sh1 (count_expired ct) Hinv' Hnd) as (sh' & Hl & Hi & Hc).
      { intros j Hj. simpl. rewrite lookup_delete_ne by set_solver. apply Hin. by right. }
      exists sh'. rewrite Hl. split; [|done].
      do 2 f_equal. unfold add_expired. rewrite <- Nat.iter_succ_r. f_equal.
      pose proof (abs_length max sh Hinv) as H1. pose proof (abs_length max sh1 Hinv') as H2.
      pose proof (map_size_delete k (data sh)) as Hsz. rewrite He in Hsz.
      assert (size (data sh) <> 0%nat).
      { intros H0%map_size_empty_iff. by rewrite H0, lookup_empty in He. }
      pose proof (length_filter
        (fun p => ~ swept now (take (MAX_SCAN_PER_SWEEP - S scanned) order) p) (abs sh1)).
      unfold spec_sweep. simpl in *. lia.
    + rewrite (spec_sweep_cons_live _ _ _ _ _ Hnda Hf Hx). apply IH; [done..|].
      intros j Hj. apply Hin. by right.
Qed.
