(* ===== verification/StorageInterface.v ===== *)
(** * What the storage promises to its clients

    The dispatcher and the log replay call the storage through these operations
    ([include/storage/sharded_storage.h], the public member functions) and their
    theorems rely only on the laws below; [ShardedStorage] is the instance. *)

From S2P Require Import Prelude Cpp Lru.
Local Open Scope Z_scope.

(** The public operations, and the sweep of one shard by the expiration thread.  Each takes
    the readings of the clock it makes, the sweep also the order of its traversal. *)
Class StorageOps (S : Type) : Type := {
  op_set : bytes -> bytes -> S -> outcome S;
  op_get : Z -> bytes -> S -> outcome (option bytes * S);
  op_del : Z -> bytes -> S -> outcome (bool * S);
  op_expire : Z -> Z -> bytes -> Z -> S -> outcome (bool * S);
  op_ttl : Z -> Z -> bytes -> S -> outcome (Z * S);
  op_sweep : nat -> Z -> list bytes -> S -> outcome S;
  op_size : S -> Z;
  op_expiredKeysCount : S -> Z;
  op_evictedKeysCount : S -> Z
}.

(** A key's slot as a reader at time [now] sees it. *)
Definition live_slot (now : Z) (o : option slot) : option slot :=
  match o with
  | Some s => if slot_expired now s then None else Some s
  | None => None
  end.

(** The seconds [ttl] reports for a live slot. *)
Definition ttl_of (now2 : Z) (o : option slot) : Z :=
  match o with
  | None => -2
  | Some (_, None) => -1
  | Some (_, Some d) => Z.max 0 (Z.quot (d - now2) NS_PER_S)
  end.

(** [view s k] is the slot stored for [k], expired or not; [fits K s] says that the
    keys of [s] are among [K] and that [K] can be stored without an eviction; [sweep_ok]
    says that a traversal visits what there is to visit. *)
Class StorageLaws (S : Type) `{StorageOps S} : Type := {
  store_inv : S -> Prop;
  view : S -> bytes -> option slot;
  fits : gset bytes -> S -> Prop;
  sweep_ok : nat -> list bytes -> S -> Prop;

  law_set s k v :
    store_inv s ->
    exists s', op_set k v s = Ret s' /\ store_inv s' /\ view s' k = Some (v, None) /\
      (forall k', k <> k' -> view s' k' = view s k' \/ view s' k' = None) /\
      (forall K, fits K s -> k ∈ K ->
         fits K s' /\ forall k', k <> k' -> view s' k' = view s k');
  law_get now s k :
    store_inv s ->
    exists s', op_get now k s = Ret (fst <$> live_slot now (view s k), s') /\ store_inv s' /\
      view s' k = live_slot now (view s k) /\
      (forall k', k <> k' -> view s' k' = view s k') /\
      (forall K, fits K s -> fits K s');
  law_del now s k :
    store_inv s ->
    exists s', op_del now k s = Ret (bool_decide (is_Some (live_slot now (view s k))), s') /\
      store_inv s' /\ view s' k = None /\
      (forall k', k <> k' -> view s' k' = view s k') /\
      (forall K, fits K s -> fits K s');
  law_expire now now2 s k seconds deadline :
    store_inv s -> 0 <= seconds -> clock_reading now2 ->
    add_seconds now2 seconds = Ret deadline ->
    exists s',
      op_expire now now2 k seconds s =
        Ret (bool_decide (is_Some (live_slot now (view s k))), s') /\
      store_inv s' /\
      view s' k = (fun x => (x.1, Some deadline)) <$> live_slot now (view s k) /\
      (forall k', k <> k' -> view s' k' = view s k') /\
      (forall K, fits K s -> fits K s');
  law_expire_negative now now2 s k seconds :
    seconds < 0 -> op_expire now now2 k seconds s = Ret (false, s);
  law_ttl now now2 s k :
    store_inv s -> clock_reading now2 ->
    exists s', op_ttl now now2 k s = Ret (ttl_of now2 (live_slot now (view s k)), s') /\
      store_inv s' /\ view s' k = live_slot now (view s k) /\
      (forall k', k <> k' -> view s' k' = view s k') /\
      (forall K, fits K s -> fits K s');
  law_sweep i now order s :
    store_inv s -> sweep_ok i order s ->
    exists s', op_sweep i now order s = Ret s' /\ store_inv s' /\
      (forall k, view s' k = view s k \/ view s' k = None /\ live_slot now (view s k) = None) /\
      (forall K, fits K s -> fits K s')
}.
