(* ===== verification/ShardedStorage.v ===== *)
(** * The sharded storage ([src/storage/sharded_storage.cpp],
    [include/storage/sharded_storage.h])

    Sixteen shards, each behind its own mutex; a key lives in the shard its hash
    selects.  A public operation locks one shard for its whole body, so operations
    are the atomic steps of the concurrent system; [storage_step] is that system,
    with the background sweep as one step per shard. *)

From S2P Require Import Prelude Cpp StdList Lru Shard StorageInterface.
Local Open Scope Z_scope.

(** [std::hash<std::string>], which the standard leaves to the implementation. *)
Class StdHash : Type := std_hash : bytes -> Z.

Definition NUM_SHARDS : Z := 16.

(** [expiration_thread_] is whether the sweep thread is joinable. *)
Record ShardedStorage : Type := mkStorage {
  shards_ : list Shard;
  counters_ : Counters;
  max_keys_ : Z;
  max_keys_per_shard_ : Z;
  expiration_thread_ : bool
}.

(** ** Operations *)

Definition new_storage (max_keys : Z) : ShardedStorage :=
  mkStorage (replicate (Z.to_nat NUM_SHARDS) empty_shard) (mkCounters 0 0)
    max_keys (Z.max 1 (max_keys / NUM_SHARDS)) false.

Definition set_shard (i : nat) (sh : Shard) (ct : Counters) (s : ShardedStorage)
    : ShardedStorage :=
  mkStorage (<[i := sh]> (shards_ s)) ct (max_keys_ s) (max_keys_per_shard_ s)
    (expiration_thread_ s).

Section operations.
Context `{StdHash}.

Definition shardIndex (key : bytes) : nat :=
  Z.to_nat (Z.land (std_hash key) (NUM_SHARDS - 1)).

(** [getShard(key)]: indexing past the array would be undefined. *)
Definition getShard (key : bytes) (s : ShardedStorage) : outcome Shard :=
  deref (shards_ s !! shardIndex key).

(** Run a body on the shard of a key, with the lock held, and store the result back. *)
Definition with_shard {A} (key : bytes)
    (body : Shard -> Counters -> outcome (A * Shard * Counters)) (s : ShardedStorage)
    : outcome (A * ShardedStorage) :=
  sh ← getShard key s;
  '(a, sh', ct') ← body sh (counters_ s);
  Ret (a, set_shard (shardIndex key) sh' ct' s).

Definition storage_set (key val : bytes) (s : ShardedStorage) : outcome ShardedStorage :=
  sh ← getShard key s;
  '(sh', ct') ← insertOrUpdate (max_keys_per_shard_ s) key val None sh (counters_ s);
  Ret (set_shard (shardIndex key) sh' ct' s).

Definition storage_setWithTTL (now : Z) (key val : bytes) (seconds : Z) (s : ShardedStorage)
    : outcome ShardedStorage :=
  sh ← getShard key s;
  '(sh', ct') ← setWithTTLBody now (max_keys_per_shard_ s) key val seconds sh (counters_ s);
  Ret (set_shard (shardIndex key) sh' ct' s).

Definition storage_get (now : Z) (key : bytes) (s : ShardedStorage)
    : outcome (option bytes * ShardedStorage) :=
  with_shard key (getBody now key) s.

Definition storage_del (now : Z) (key : bytes) (s : ShardedStorage)
    : outcome (bool * ShardedStorage) :=
  with_shard key (delBody now key) s.

Definition storage_expire (now now2 : Z) (key : bytes) (seconds : Z) (s : ShardedStorage)
    : outcome (bool * ShardedStorage) :=
  if seconds <? 0 then Ret (false, s)
  else with_shard key (expireBody now now2 key seconds) s.

Definition storage_ttl (now now2 : Z) (key : bytes) (s : ShardedStorage)
    : outcome (Z * ShardedStorage) :=
  with_shard key (ttlBody now now2 key) s.

(** [total += shard.data.size()] over the shards, in [size_t]. *)
Definition storage_size (s : ShardedStorage) : Z :=
  fold_left (fun total sh => u64 (total + Z.of_nat (size (data sh)))) (shards_ s) 0.

Definition expiredKeysCount (s : ShardedStorage) : Z := expired_keys (counters_ s).
Definition evictedKeysCount (s : ShardedStorage) : Z := evicted_keys (counters_ s).

(** [sweepShard(shards_[i])], as the expiration thread calls it. *)
Definition storage_sweep (i : nat) (now : Z) (order : list bytes) (s : ShardedStorage)
    : outcome ShardedStorage :=
  sh ← deref (shards_ s !! i);
  '(sh', ct') ← sweepShard now order sh (counters_ s);
  Ret (set_shard i sh' ct' s).

(** The inner loop of [expirationLoop]: one entry per shard says whether a stop was
    seen before it, and otherwise when and in what order it was swept. *)
Fixpoint expirationPass (i : nat) (env : list (bool * Z * list bytes)) (s : ShardedStorage)
    : outcome ShardedStorage :=
  match env with
  | [] => Ret s
  | (stop, now, order) :: env' =>
      if (i <? length (shards_ s))%nat then
        if stop then Ret s
        else s' ← storage_sweep i now order s; expirationPass (S i) env' s'
      else Ret s
  end.

Definition set_thread (b : bool) (s : ShardedStorage) : ShardedStorage :=
  mkStorage (shards_ s) (counters_ s) (max_keys_ s) (max_keys_per_shard_ s) b.

(** A thread is started only when none is joinable. *)
Definition startExpirationSweep (s : ShardedStorage) : ShardedStorage :=
  if negb (expiration_thread_ s) then set_thread true s else s.

Definition stopExpirationSweep (s : ShardedStorage) : ShardedStorage :=
  if expiration_thread_ s then set_thread false s else s.
End operations.

#[export] Instance storage_ops `{StdHash} : StorageOps ShardedStorage := {|
  op_set := storage_set;
  op_get := storage_get;
  op_del := storage_del;
  op_expire := storage_expire;
  op_ttl := storage_ttl;
  op_sweep := storage_sweep;
  op_size := storage_size;
  op_expiredKeysCount := expiredKeysCount;
  op_evictedKeysCount := evictedKeysCount
|}.

(** ** Invariant and abstraction *)

Section invariant.
Context `{StdHash}.

(** Every shard satisfies its invariant and holds only keys that hash to it. *)
Record storage_inv (s : ShardedStorage) : Prop := mkStorageInv {
  si_shards : length (shards_ s) = Z.to_nat NUM_SHARDS;
  si_max : 0 <= max_keys_ s < 2 ^ 64;
  si_per_shard : max_keys_per_shard_ s = Z.max 1 (max_keys_ s / NUM_SHARDS);
  si_shard i sh : shards_ s !! i = Some sh -> shard_inv (max_keys_per_shard_ s) sh;
  si_home i sh k : shards_ s !! i = Some sh -> is_Some (data sh !! k) -> shardIndex k = i
}.

(** The slot stored for a key. *)
Definition storage_view (s : ShardedStorage) (k : bytes) : option slot :=
  sh ← shards_ s !! shardIndex k; slot_of <$> data sh !! k.

(** The abstract cache of the shard of a key. *)
Definition shard_cache (s : ShardedStorage) (i : nat) : cache :=
  match shards_ s !! i with Some sh => abs sh | None => [] end.

(** All the keys stored. *)
Definition stored (s : ShardedStorage) : gset bytes :=
  ⋃ ((fun sh => dom (data sh)) <$> shards_ s).

(** The keys of [K] that share a shard. *)
Definition shard_share (K : gset bytes) (i : nat) : gset bytes :=
  filter (fun k => shardIndex k = i) K.

Definition storage_fits (K : gset bytes) (s : ShardedStorage) : Prop :=
  (forall k, is_Some (storage_view s k) -> k ∈ K) /\
  (forall i, Z.of_nat (size (shard_share K i)) <= max_keys_per_shard_ s).
End invariant.

(** ** Calls, as one type

    The operations as data, so that runs of the system are lists of calls. *)

Inductive call : Type :=
| CallSet (key val : bytes)
| CallSetWithTTL (now : Z) (key val : bytes) (seconds : Z)
| CallGet (now : Z) (key : bytes)
| CallDel (now : Z) (key : bytes)
| CallExpire (now now2 : Z) (key : bytes) (seconds : Z)
| CallTtl (now now2 : Z) (key : bytes)
| CallSweep (i : nat) (now : Z) (order : list bytes).

Inductive reply : Type :=
| RUnit
| RValue (v : option bytes)
| RBool (b : bool)
| RInt (z : Z).

Section calls.
Context `{StdHash}.

Definition run_call (c : call) (s : ShardedStorage) : outcome (reply * ShardedStorage) :=
  match c with
  | CallSet k v => s' ← storage_set k v s; Ret (RUnit, s')
  | CallSetWithTTL now k v secs => s' ← storage_setWithTTL now k v secs s; Ret (RUnit, s')
  | CallGet now k => '(r, s') ← storage_get now k s; Ret (RValue r, s')
  | CallDel now k => '(r, s') ← storage_del now k s; Ret (RBool r, s')
  | CallExpire now now2 k secs => '(r, s') ← storage_expire now now2 k secs s; Ret (RBool r, s')
  | CallTtl now now2 k => '(r, s') ← storage_ttl now now2 k s; Ret (RInt r, s')
  | CallSweep i now order => s' ← storage_sweep i now order s; Ret (RUnit, s')
  end.

(** The shard a call locks. *)
Definition target (c : call) : nat :=
  match c with
  | CallSet k _ | CallSetWithTTL _ k _ _ | CallGet _ k | CallDel _ k
  | CallExpire _ _ k _ | CallTtl _ _ k => shardIndex k
  | CallSweep i _ _ => i
  end.

(** A deadline [seconds] from [now] fits the clock's representation. *)
Definition deadline_ok (now seconds : Z) : Prop :=
  clock_reading now /\ clock_reading (now + seconds * NS_PER_S).

(** What a call needs to be defined: clock readings in range, no overflow in a
    deadline, and a traversal that visits each key of the shard once. *)
Definition call_ok (s : ShardedStorage) (c : call) : Prop :=
  match c with
  | CallSetWithTTL now _ _ secs | CallExpire _ now _ secs => 0 <= secs -> deadline_ok now secs
  | CallTtl _ now2 _ => clock_reading now2
  | CallSweep i _ order =>
      exists sh, shards_ s !! i = Some sh /\ order ≡ₚ (map_to_list (data sh)).*1
  | _ => True
  end.

(** The reply, the new cache of the shard, and how many keys expired and were evicted. *)
Definition spec_call (cap : nat) (c : call) (ca : cache) : reply * cache * nat * nat :=
  match c with
  | CallSet k v => (RUnit, spec_insert cap k (v, None) ca, 0%nat, spec_evicted cap k ca)
  | CallSetWithTTL now k v secs =>
      let deadline := if secs <? 0 then None else Some (now + secs * NS_PER_S) in
      (RUnit, spec_insert cap k (v, deadline) ca, 0%nat, spec_evicted cap k ca)
  | CallGet now k => let '(r, ca', n) := spec_get now k ca in (RValue r, ca', n, 0%nat)
  | CallDel now k => let '(r, ca', n) := spec_del now k ca in (RBool r, ca', n, 0%nat)
  | CallExpire now now2 k secs =>
      if secs <? 0 then (RBool false, ca, 0%nat, 0%nat)
      else let '(r, ca', n) := spec_expire now (now2 + secs * NS_PER_S) k ca in
           (RBool r, ca', n, 0%nat)
  | CallTtl now now2 k => let '(r, ca', n) := spec_ttl now now2 k ca in (RInt r, ca', n, 0%nat)
  | CallSweep _ now order =>
      let ca' := spec_sweep now (take MAX_SCAN_PER_SWEEP order) ca in
      (RUnit, ca', (length ca - length ca')%nat, 0%nat)
  end.
End calls.

(** ** Lemmas *)

Section lemmas.
Context `{StdHash}.

Lemma shardIndex_lt k : (shardIndex k < Z.to_nat NUM_SHARDS)%nat.
Proof.
  unfold shardIndex, NUM_SHARDS. change (16 - 1) with (Z.ones 4). rewrite Z.land_ones by lia.
  pose proof (Z.mod_pos_bound (std_hash k) (2 ^ 4)). lia.
Qed.

Lemma getShard_ok s k :
  storage_inv s -> exists sh, shards_ s !! shardIndex k = Some sh /\ getShard k s = Ret sh.
Proof.
  intros Hinv. destruct (lookup_lt_is_Some_2 (shards_ s) (shardIndex k)) as [sh Hsh].
  - rewrite (si_shards s Hinv). apply shardIndex_lt.
  - exists sh. unfold getShard. by rewrite Hsh.
Qed.

Lemma storage_max_pos s : storage_inv s -> 1 <= max_keys_per_shard_ s.
Proof. intros Hinv. rewrite (si_per_shard s Hinv). lia. Qed.

Lemma empty_shard_inv max : 0 <= max -> shard_inv max empty_shard.
Proof.
  intros Hm. split; simpl.
  - apply coherent_empty.
  - constructor.
  - rewrite map_size_empty. lia.
  - apply map_Forall_empty.
Qed.

Lemma new_storage_inv max_keys : 0 <= max_keys < 2 ^ 64 -> storage_inv (new_storage max_keys).
Proof.
  intros Hm. unfold new_storage. split; cbn [shards_ max_keys_ max_keys_per_shard_]; [done|done|done| |].
  - intros i sh [-> _]%lookup_replicate. apply empty_shard_inv. lia.
  - intros i sh k [-> _]%lookup_replicate [e He]. simpl in He. by rewrite lookup_empty in He.
Qed.

Lemma storage_view_cache s k :
  storage_inv s -> storage_view s k = cfind k (shard_cache s (shardIndex k)).
Proof.
  intros Hinv. unfold storage_view, shard_cache.
  destruct (getShard_ok s k Hinv) as (sh & Hsh & _). rewrite Hsh. simpl.
  symmetry. eapply cfind_shard. by eapply si_shard.
Qed.

(** Writing back a shard that kept its invariant and gained only keys that hash to it. *)
Lemma set_shard_inv s i sh sh' ct :
  storage_inv s -> shards_ s !! i = Some sh -> shard_inv (max_keys_per_shard_ s) sh' ->
  (forall k, k ∈ (abs sh').*1 -> k ∈ (abs sh).*1 \/ shardIndex k = i) ->
  storage_inv (set_shard i sh' ct s).
Proof.
  intros [H1 H2 H3 H4 H5] Hi Hsh' Hk. pose proof (lookup_lt_Some _ _ _ Hi) as Hlt.
  split; simpl; [by rewrite length_insert|done|done| |].
  - intros j shj. rewrite list_lookup_insert. case_decide; [naive_solver|apply H4].
  - intros j shj k. rewrite list_lookup_insert. case_decide as Hd; [|apply H5].
    destruct Hd as [<- _]. intros [= <-] Hk'.
    assert (Hin : k ∈ (abs sh').*1).
    { apply dec_stable. intros Hn%cfind_None. rewrite (cfind_shard _ _ _ Hsh') in Hn.
      destruct Hk' as [e He]. by rewrite He in Hn. }
    destruct (Hk k Hin) as [Hin'|]; [|done]. apply (H5 i sh); [done|].
    destruct (data sh !! k) eqn:E; [done|]. exfalso.
    assert (Hn : cfind k (abs sh) = None) by (rewrite (cfind_shard _ _ _ (H4 i sh Hi)), E; done).
    by apply cfind_None in Hn.
Qed.

Lemma shard_cache_set s i sh ct j :
  (i < length (shards_ s))%nat ->
  shard_cache (set_shard i sh ct s) j = if decide (i = j) then abs sh else shard_cache s j.
Proof.
  intros Hi. unfold shard_cache. simpl. rewrite list_lookup_insert.
  destruct (decide (i = j)) as [->|]; [by rewrite decide_True|].
  by rewrite decide_False by naive_solver.
Qed.
End lemmas.

(** ** The refinement *)

Section refinement.
Context `{StdHash}.

(** The state changed in shard [i] only, whose cache is now [ca]. *)
Record stepped (i : nat) (ca : cache) (ct : Counters) (s s' : ShardedStorage) : Prop := mkStepped {
  st_inv : storage_inv s';
  st_cache : shard_cache s' i = ca;
  st_frame j : i <> j -> shard_cache s' j = shard_cache s j;
  st_counters : counters_ s' = ct;
  st_max : max_keys_ s' = max_keys_ s;
  st_thread : expiration_thread_ s' = expiration_thread_ s
}.

Lemma stepped_max i ca ct s s' :
  storage_inv s -> stepped i ca ct s s' -> max_keys_per_shard_ s' = max_keys_per_shard_ s.
Proof.
  intros Hinv [Hinv' _ _ _ Hm _]. rewrite (si_per_shard s Hinv), (si_per_shard s' Hinv'). by rewrite Hm.
Qed.

Lemma set_shard_stepped s i sh sh' ct :
  storage_inv s -> shards_ s !! i = Some sh -> shard_inv (max_keys_per_shard_ s) sh' ->
  (forall k, k ∈ (abs sh').*1 -> k ∈ (abs sh).*1 \/ shardIndex k = i) ->
  stepped i (abs sh') ct s (set_shard i sh' ct s).
Proof.
  intros Hinv Hi Hsh' Hk. pose proof (lookup_lt_Some _ _ _ Hi) as Hlt.
  split; [by eapply set_shard_inv| | |done..].
  - rewrite shard_cache_set by done. by rewrite decide_True.
  - intros j Hj. rewrite shard_cache_set by done. by rewrite decide_False.
Qed.

Lemma shard_cache_lookup s i sh : shards_ s !! i = Some sh -> shard_cache s i = abs sh.
Proof. intros Hi. unfold shard_cache. by rewrite Hi. Qed.

Lemma with_shard_refines {A} k (body : Shard -> Counters -> outcome (A * Shard * Counters))
    (spec : cache -> A * cache * nat) s :
  storage_inv s ->
  (forall sh ct, shard_inv (max_keys_per_shard_ s) sh ->
     body_refines (max_keys_per_shard_ s) (body sh ct) ct (spec (abs sh))) ->
  (forall c j, j ∈ (spec c).1.2.*1 -> j ∈ c.*1 \/ j = k) ->
  let r := spec (shard_cache s (shardIndex k)) in
  exists s', with_shard k body s = Ret (r.1.1, s') /\
    stepped (shardIndex k) r.1.2 (add_expired r.2 (counters_ s)) s s'.
Proof.
  intros Hinv Hbody Hkeys. destruct (getShard_ok s k Hinv) as (sh & Hsh & Hg).
  rewrite (shard_cache_lookup _ _ _ Hsh). cbv zeta. unfold with_shard. rewrite Hg. simpl.
  destruct (Hbody sh (counters_ s)) as (sh' & -> & Hinv' & Habs); [by eapply si_shard|].
  simpl. eexists. split; [done|]. rewrite <- Habs. eapply set_shard_stepped; [done..|].
  intros j Hj. rewrite Habs in Hj. apply Hkeys in Hj as [?| ->]; auto.
Qed.

Lemma insert_stepped s k sl sh sh' ct :
  storage_inv s -> shards_ s !! shardIndex k = Some sh ->
  shard_inv (max_keys_per_shard_ s) sh' ->
  abs sh' = spec_insert (Z.to_nat (max_keys_per_shard_ s)) k sl (abs sh) ->
  stepped (shardIndex k)
    (spec_insert (Z.to_nat (max_keys_per_shard_ s)) k sl (shard_cache s (shardIndex k)))
    ct s (set_shard (shardIndex k) sh' ct s).
Proof.
  intros Hinv Hsh Hinv' Habs. rewrite (shard_cache_lookup _ _ _ Hsh), <- Habs.
  eapply set_shard_stepped; [done..|]. intros j Hj. rewrite Habs in Hj.
  apply keys_spec_insert in Hj as [?| ->]; auto.
Qed.

Lemma storage_set_refines s k v :
  storage_inv s ->
  let cap := Z.to_nat (max_keys_per_shard_ s) in
  let ca := shard_cache s (shardIndex k) in
  exists s', storage_set k v s = Ret s' /\
    stepped (shardIndex k) (spec_insert cap k (v, None) ca)
      (add_evicted (spec_evicted cap k ca) (counters_ s)) s s'.
Proof.
  intros Hinv. cbv zeta. destruct (getShard_ok s k Hinv) as (sh & Hsh & Hg).
  unfold storage_set. rewrite Hg. simpl.
  destruct (insertOrUpdate_refines (max_keys_per_shard_ s) k v None sh (counters_ s))
    as (sh' & -> & Hinv' & Habs); [by apply storage_max_pos|by eapply si_shard|done|].
  simpl. eexists. split; [done|]. rewrite (shard_cache_lookup _ _ _ Hsh) at 2.
  by eapply insert_stepped.
Qed.

Lemma add_seconds_ok now seconds :
  0 <= seconds -> deadline_ok now seconds -> add_seconds now seconds = Ret (now + seconds * NS_PER_S).
Proof. intros Hs [Hn Hd]. by apply add_seconds_defined. Qed.

Lemma storage_setWithTTL_refines s now k v seconds :
  storage_inv s -> (0 <= seconds -> deadline_ok now seconds) ->
  let cap := Z.to_nat (max_keys_per_shard_ s) in
  let ca := shard_cache s (shardIndex k) in
  let deadline := if seconds <? 0 then None else Some (now + seconds * NS_PER_S) in
  exists s', storage_setWithTTL now k v seconds s = Ret s' /\
    stepped (shardIndex k) (spec_insert cap k (v, deadline) ca)
      (add_evicted (spec_evicted cap k ca) (counters_ s)) s s'.
Proof.
  intros Hinv Hd. cbv zeta. destruct (getShard_ok s k Hinv) as (sh & Hsh & Hg).
  unfold storage_setWithTTL, setWithTTLBody. rewrite Hg. simpl.
  set (deadline := if seconds <? 0 then None else Some (now + seconds * NS_PER_S)).
  assert (Hok : entry_ok (mkEntry v deadline 0%nat)).
  { unfold deadline, entry_ok. simpl. destruct (seconds <? 0) eqn:E; [done|].
    apply Z.ltb_ge in E. by apply Hd. }
  destruct (insertOrUpdate_refines (max_keys_per_shard_ s) k v deadline sh (counters_ s))
    as (sh' & Hi & Hinv' & Habs); [by apply storage_max_pos|by eapply si_shard|done|].
  exists (set_shard (shardIndex k) sh'
    (add_evicted (spec_evicted (Z.to_nat (max_keys_per_shard_ s)) k (abs sh)) (counters_ s)) s).
  split; [|rewrite (shard_cache_lookup _ _ _ Hsh) at 2; by eapply insert_stepped].
  unfold deadline in Hi. destruct (seconds <? 0) eqn:E; [by rewrite Hi|].
  apply Z.ltb_ge in E. rewrite add_seconds_ok by auto. simpl. by rewrite Hi.
Qed.

Lemma storage_sweep_refines s i now order :
  storage_inv s -> call_ok s (CallSweep i now order) ->
  let ca := shard_cache s i in
  let ca' := spec_sweep now (take MAX_SCAN_PER_SWEEP order) ca in
  exists s', storage_sweep i now order s = Ret s' /\
    stepped i ca' (add_expired (length ca - length ca') (counters_ s)) s s'.
Proof.
  intros Hinv (sh & Hsh & Hord). cbv zeta. rewrite (shard_cache_lookup _ _ _ Hsh).
  unfold storage_sweep, sweepShard. rewrite Hsh. simpl.
  destruct (sweepLoop_refines (max_keys_per_shard_ s) now 0 order sh (counters_ s))
    as (sh' & -> & Hinv' & Habs).
  - by eapply si_shard.
  - rewrite Hord. apply NoDup_fst_map_to_list.
  - intros k Hk. rewrite Hord in Hk. apply list_elem_of_fmap in Hk as ([k' e] & -> & Hk).
    apply elem_of_map_to_list in Hk. eauto.
  - rewrite Nat.sub_0_r in *. simpl. eexists. split; [done|]. rewrite <- Habs.
    eapply set_shard_stepped; [done..|]. intros j Hj. left. rewrite Habs in Hj.
    by apply keys_spec_sweep in Hj.
Qed.
End refinement.

(** ** Runs *)

Section runs.
Context `{StdHash}.

Fixpoint run_calls (cs : list call) (s : ShardedStorage)
    : outcome (list reply * ShardedStorage) :=
  match cs with
  | [] => Ret ([], s)
  | c :: cs' =>
      '(r, s') ← run_call c s;
      '(rs, s'') ← run_calls cs' s';
      Ret (r :: rs, s'')
  end.

(** Every call of a run finds its environment as it needs it. *)
Fixpoint calls_ok (cs : list call) (s : ShardedStorage) : Prop :=
  match cs with
  | [] => True
  | c :: cs' => call_ok s c /\ forall r s', run_call c s = Ret (r, s') -> calls_ok cs' s'
  end.

(** The same run on an array of abstract caches. *)
Fixpoint spec_run (cap : nat) (cs : list call) (ca : nat -> cache)
    : list reply * (nat -> cache) :=
  match cs with
  | [] => ([], ca)
  | c :: cs' =>
      let '(r, ca', _, _) := spec_call cap c (ca (target c)) in
      let '(rs, ca'') := spec_run cap cs' (fn_update (target c) ca' ca) in
      (r :: rs, ca'')
  end.

(** One atomic step of the concurrent storage: some thread's critical section. *)
Inductive storage_step : ShardedStorage -> ShardedStorage -> Prop :=
| step_call c r s s' : call_ok s c -> run_call c s = Ret (r, s') -> storage_step s s'
| step_start s : storage_step s (startExpirationSweep s)
| step_stop s : storage_step s (stopExpirationSweep s).

Definition reachable (max_keys : Z) : ShardedStorage -> Prop :=
  rtc storage_step (new_storage max_keys).

Lemma call_refines s c :
  storage_inv s -> call_ok s c ->
  let '(r, ca', nx, ne) :=
    spec_call (Z.to_nat (max_keys_per_shard_ s)) c (shard_cache s (target c)) in
  exists s', run_call c s = Ret (r, s') /\
    stepped (target c) ca' (add_evicted ne (add_expired nx (counters_ s))) s s'.
Proof.
  intros Hinv Hok. destruct c; simpl in *.
  - destruct (storage_set_refines s key val Hinv) as (s' & -> & Hs). by exists s'.
  - destruct (storage_setWithTTL_refines s now key val seconds Hinv Hok) as (s' & -> & Hs).
    by exists s'.
  - destruct (with_shard_refines key (getBody now key) (spec_get now key) s Hinv)
      as (s' & Hr & Hs); [intros; by apply getBody_refines|eauto with cf|].
    unfold storage_get. rewrite Hr. destruct (spec_get _ _ _) as [[r ca'] n]. by exists s'.
  - destruct (with_shard_refines key (delBody now key) (spec_del now key) s Hinv)
      as (s' & Hr & Hs); [intros; by apply delBody_refines|eauto with cf|].
    unfold storage_del. rewrite Hr. destruct (spec_del _ _ _) as [[r ca'] n]. by exists s'.
  - unfold storage_expire. destruct (seconds <? 0) eqn:E.
    + exists s. by split.
    + apply Z.ltb_ge in E. specialize (Hok E).
      destruct (with_shard_refines key (expireBody now now2 key seconds)
        (spec_expire now (now2 + seconds * NS_PER_S) key) s Hinv) as (s' & Hr & Hs).
      * intros. apply expireBody_refines; [done|by apply add_seconds_ok|apply Hok].
      * eauto with cf.
      * rewrite Hr. destruct (spec_expire _ _ _ _) as [[r ca'] n]. by exists s'.
  - destruct (with_shard_refines key (ttlBody now now2 key) (spec_ttl now now2 key) s Hinv)
      as (s' & Hr & Hs); [intros; by apply ttlBody_refines|eauto with cf|].
    unfold storage_ttl. rewrite Hr. destruct (spec_ttl _ _ _ _) as [[r ca'] n]. by exists s'.
  - destruct (storage_sweep_refines s i now order Hinv Hok) as (s' & -> & Hs). by exists s'.
Qed.

Lemma run_call_stepped s c r s' :
  storage_inv s -> call_ok s c -> run_call c s = Ret (r, s') ->
  exists ca' nx ne,
    spec_call (Z.to_nat (max_keys_per_shard_ s)) c (shard_cache s (target c)) = (r, ca', nx, ne) /\
    stepped (target c) ca' (add_evicted ne (add_expired nx (counters_ s))) s s'.
Proof.
  intros Hinv Hok Hrun. pose proof (call_refines s c Hinv Hok) as Hr.
  destruct (spec_call _ _ _) as [[[r' ca'] nx] ne]. destruct Hr as (s'' & Hrun' & Hs).
  rewrite Hrun' in Hrun. injection Hrun as -> ->. eauto.
Qed.

Lemma storage_step_inv s s' : storage_inv s -> storage_step s s' -> storage_inv s'.
Proof.
  intros Hinv Hstep. destruct Hstep.
  - edestruct run_call_stepped as (ca' & nx & ne & _ & Hs); [done..|]. apply Hs.
  - unfold startExpirationSweep. destruct Hinv. by case_match.
  - unfold stopExpirationSweep. destruct Hinv. by case_match.
Qed.

Lemma reachable_inv max_keys s :
  0 <= max_keys < 2 ^ 64 -> reachable max_keys s -> storage_inv s.
Proof.
  intros Hm. unfold reachable. revert s.
  apply (rtc_ind_r storage_inv); [by apply new_storage_inv|].
  intros s s' _ Hstep Hinv. by eapply storage_step_inv.
Qed.

Lemma run_calls_refines cs s ca :
  storage_inv s -> calls_ok cs s -> (forall i, shard_cache s i = ca i) ->
  let '(rs, ca') := spec_run (Z.to_nat (max_keys_per_shard_ s)) cs ca in
  exists s', run_calls cs s = Ret (rs, s') /\ storage_inv s' /\ forall i, shard_cache s' i = ca' i.
Proof.
  revert s ca. induction cs as [|c cs IH]; intros s ca Hinv Hok Hca; simpl; [by exists s|].
  destruct Hok as [Hok Hoks]. pose proof (call_refines s c Hinv Hok) as Hr. rewrite Hca in Hr.
  destruct (spec_call _ _ _) as [[[r ca1] nx] ne]. destruct Hr as (s1 & Hrun & Hs).
  specialize (IH s1 (fn_update (target c) ca1 ca) (st_inv _ _ _ _ _ Hs) (Hoks _ _ Hrun)).
  rewrite (stepped_max _ _ _ _ _ Hinv Hs) in IH.
  destruct (spec_run _ _ _) as [rs ca'].
  destruct IH as (s' & Hrun' & Hinv' & Hca').
  { intros i. destruct (decide (target c = i)) as [<-|Hne].
    - by rewrite fn_update_eq, (st_cache _ _ _ _ _ Hs).
    - by rewrite fn_update_ne, (st_frame _ _ _ _ _ Hs). }
  exists s'. rewrite Hrun. simpl. rewrite Hrun'. done.
Qed.

(** C1: The storage is sixteen abstract LRU caches: for any sequence of operations, by
    any threads, starting from a fresh storage, in which clock readings and the deadlines that
    [expire] and [setWithTTL] compute are in the range of the clock and each sweep visits every key of its shard once,
    no operation has undefined behaviour (no overflow, no invalid iterator, no [back()] of
    an empty list, no index past the shards), every reply is the one the abstract caches give, and the shards end up holding
    exactly the abstract caches, in recency order. *)
Theorem storage_refines_lru max_keys cs :
  0 <= max_keys < 2 ^ 64 -> calls_ok cs (new_storage max_keys) ->
  let '(rs, ca) := spec_run (Z.to_nat (Z.max 1 (max_keys / NUM_SHARDS))) cs (fun _ => []) in
  exists s, run_calls cs (new_storage max_keys) = Ret (rs, s) /\
    storage_inv s /\ forall i, shard_cache s i = ca i.
Proof.
  intros Hm Hok.
  apply (run_calls_refines cs (new_storage max_keys)); [by apply new_storage_inv|done|].
  intros i. unfold shard_cache, new_storage. cbn [shards_].
  destruct (_ !! i) as [sh|] eqn:E; [|done]. by apply lookup_replicate in E as [-> _].
Qed.

(** C12: Every state the concurrent storage reaches is well formed. *)
Theorem storage_reachable_inv max_keys s :
  0 <= max_keys < 2 ^ 64 -> reachable max_keys s -> storage_inv s.
Proof. apply reachable_inv. Qed.
End runs.
