(* ===== verification/StorageFacts.v ===== *)
(** * What the storage guarantees to its users

    The laws of [StorageInterface] for the sharded storage, the exact key count and
    its bound, the recency guarantee of the LRU order, what the background sweep
    removes, and the one operation a client can drive out of the clock's range. *)

From S2P Require Import Prelude Cpp StdList Lru Shard StorageInterface ShardedStorage.
Local Open Scope Z_scope.

(** ** Lookups in the specification *)

Section spec_lookups.
Implicit Types (c : cache) (k : bytes).

Lemma spec_live_result now k c : (spec_live now k c).1.1 = live_slot now (cfind k c).
Proof. unfold spec_live, live_slot. destruct (cfind k c); [|done]. by case_match. Qed.

Lemma spec_live_self now k c : cfind k (spec_live now k c).1.2 = live_slot now (cfind k c).
Proof.
  unfold spec_live, live_slot. destruct (cfind k c) eqn:E; [|by simpl].
  destruct (slot_expired now _); simpl; [apply cfind_cremove_eq|done].
Qed.

Lemma spec_live_other now k k' c : k <> k' -> cfind k' (spec_live now k c).1.2 = cfind k' c.
Proof.
  intros Hne. unfold spec_live. destruct (cfind k c); [|done].
  destruct (slot_expired now _); simpl; [by apply cfind_cremove_ne|done].
Qed.

(** Destruct a [spec_live] and rewrite with what is known of its parts. *)
Ltac destruct_live now k c :=
  pose proof (spec_live_result now k c); pose proof (spec_live_self now k c);
  let Ho := fresh "Ho" in
  assert (Ho : forall k', k <> k' -> cfind k' (spec_live now k c).1.2 = cfind k' c)
    by (intros; by apply spec_live_other);
  destruct (spec_live now k c) as [[[?|] ?] ?]; simpl in *; simplify_eq.

Lemma spec_get_result now k c : (spec_get now k c).1.1 = fst <$> live_slot now (cfind k c).
Proof. unfold spec_get. destruct_live now k c; by rewrite <- H. Qed.

Lemma spec_get_self now k c : cfind k (spec_get now k c).1.2 = live_slot now (cfind k c).
Proof. unfold spec_get. destruct_live now k c; [by rewrite decide_True|done]. Qed.

Lemma spec_get_other now k k' c : k <> k' -> cfind k' (spec_get now k c).1.2 = cfind k' c.
Proof.
  intros Hne. unfold spec_get. destruct_live now k c; [|by apply Ho].
  rewrite decide_False by done. rewrite cfind_cremove_ne by done. by apply Ho.
Qed.

Lemma spec_del_result now k c :
  (spec_del now k c).1.1 = bool_decide (is_Some (live_slot now (cfind k c))).
Proof. unfold spec_del. destruct_live now k c; by rewrite <- H. Qed.

Lemma spec_del_self now k c : cfind k (spec_del now k c).1.2 = None.
Proof. unfold spec_del. destruct_live now k c; [apply cfind_cremove_eq|congruence]. Qed.

Lemma spec_del_other now k k' c : k <> k' -> cfind k' (spec_del now k c).1.2 = cfind k' c.
Proof.
  intros Hne. unfold spec_del. destruct_live now k c; [|by apply Ho].
  rewrite cfind_cremove_ne by done. by apply Ho.
Qed.

Lemma spec_expire_result now d k c :
  (spec_expire now d k c).1.1 = bool_decide (is_Some (live_slot now (cfind k c))).
Proof. unfold spec_expire. destruct_live now k c; by rewrite <- H. Qed.

Lemma spec_expire_self now d k c :
  cfind k (spec_expire now d k c).1.2 = (fun x => (x.1, Some d)) <$> live_slot now (cfind k c).
Proof.
  unfold spec_expire. destruct_live now k c; rewrite <- H in *; [|by rewrite H0].
  rewrite cfind_creplace, decide_True by done. by rewrite H0.
Qed.

Lemma spec_expire_other now d k k' c :
  k <> k' -> cfind k' (spec_expire now d k c).1.2 = cfind k' c.
Proof.
  intros Hne. unfold spec_expire. destruct_live now k c; [|by apply Ho].
  rewrite cfind_creplace, decide_False by done. by apply Ho.
Qed.

Lemma spec_ttl_result now now2 k c :
  (spec_ttl now now2 k c).1.1 = ttl_of now2 (live_slot now (cfind k c)).
Proof.
  unfold spec_ttl, ttl_of. rewrite <- spec_live_result.
  by destruct (spec_live now k c) as [[[[v [d|]]|] c'] n].
Qed.

Lemma spec_ttl_cache now now2 k c : (spec_ttl now now2 k c).1.2 = (spec_live now k c).1.2.
Proof. unfold spec_ttl. by destruct (spec_live now k c) as [[[[v [d|]]|] c'] n]. Qed.
End spec_lookups.

(** ** The laws *)

Section laws.
Context `{StdHash}.

Lemma stepped_view i ca ct s s' k :
  storage_inv s -> stepped i ca ct s s' ->
  storage_view s' k = if decide (i = shardIndex k) then cfind k ca else storage_view s k.
Proof.
  intros Hinv Hs. rewrite (storage_view_cache s' k) by apply Hs.
  case_decide as Hd; [by rewrite <- Hd, (st_cache _ _ _ _ _ Hs)|].
  rewrite (st_frame _ _ _ _ _ Hs) by done. by rewrite storage_view_cache.
Qed.

(** The view after an operation on key [k] whose specification touches [k] only. *)
Lemma stepped_view_other k ca ct s s' k' :
  storage_inv s -> stepped (shardIndex k) ca ct s s' ->
  cfind k' ca = cfind k' (shard_cache s (shardIndex k)) ->
  storage_view s' k' = storage_view s k'.
Proof.
  intros Hinv Hs Hk. rewrite (stepped_view _ _ _ s s') by done.
  case_decide as Hd; [|done]. rewrite Hk, Hd. by rewrite storage_view_cache.
Qed.

Lemma stepped_view_self k ca ct s s' :
  storage_inv s -> stepped (shardIndex k) ca ct s s' -> storage_view s' k = cfind k ca.
Proof. intros Hinv Hs. rewrite (stepped_view _ _ _ s s') by done. by rewrite decide_True. Qed.

Lemma fits_mono K i ca ct s s' :
  storage_inv s -> stepped i ca ct s s' ->
  (forall k, is_Some (storage_view s' k) -> is_Some (storage_view s k)) ->
  storage_fits K s -> storage_fits K s'.
Proof.
  intros Hinv Hs Hv [H1 H2]. split; [by eauto|].
  intros j. rewrite (stepped_max _ _ _ _ _ Hinv Hs). apply H2.
Qed.

(** Keys that fit leave room: an insertion of one of them evicts nothing. *)
Lemma fits_room K s k :
  storage_inv s -> storage_fits K s -> k ∈ K ->
  let ca := shard_cache s (shardIndex k) in
  cfind k ca = None -> (length ca <= Z.to_nat (max_keys_per_shard_ s) - 1)%nat.
Proof.
  intros Hinv [Hsub Hcap] Hk. cbv zeta. intros Hn.
  destruct (getShard_ok s k Hinv) as (sh & Hsh & _).
  pose proof (si_shard s Hinv _ _ Hsh) as Hshi.
  rewrite (shard_cache_lookup _ _ _ Hsh) in *. rewrite (abs_length _ _ Hshi).
  rewrite (cfind_shard _ _ _ Hshi) in Hn.
  assert (Hdom : {[k]} ∪ dom (data sh) ⊆ shard_share K (shardIndex k)).
  { intros j. unfold shard_share. rewrite elem_of_union, elem_of_singleton, elem_of_filter, elem_of_dom.
    intros [->|Hj]; [done|]. pose proof (si_home s Hinv _ _ _ Hsh Hj) as Hhome. split; [done|].
    apply Hsub. unfold storage_view. rewrite Hhome, Hsh. simpl. by apply fmap_is_Some. }
  apply subseteq_size in Hdom. rewrite size_union, size_singleton, size_dom in Hdom.
  2:{ apply disjoint_singleton_l. rewrite elem_of_dom. intros [e He]. by rewrite He in Hn. }
  specialize (Hcap (shardIndex k)). lia.
Qed.

(** An operation on [k] that leaves the other keys of the shard alone. *)
Lemma frame_law {A} k (m : outcome (A * ShardedStorage)) (r : A) ca ct s (o : option slot) :
  storage_inv s ->
  (exists s', m = Ret (r, s') /\ stepped (shardIndex k) ca ct s s') ->
  cfind k ca = o -> (is_Some o -> is_Some (storage_view s k)) ->
  (forall k', k <> k' -> cfind k' ca = cfind k' (shard_cache s (shardIndex k))) ->
  exists s', m = Ret (r, s') /\ storage_inv s' /\ storage_view s' k = o /\
    (forall k', k <> k' -> storage_view s' k' = storage_view s k') /\
    (forall K, storage_fits K s -> storage_fits K s').
Proof.
  intros Hinv (s' & Hm & Hs) Hk Ho Hne. exists s'. split; [done|]. split; [apply Hs|].
  assert (Hself : storage_view s' k = o) by (erewrite stepped_view_self; done).
  assert (Hother : forall k', k <> k' -> storage_view s' k' = storage_view s k').
  { intros k' Hk'. eapply stepped_view_other; [done..|]. by apply Hne. }
  split; [done|]. split; [done|]. intros K. eapply fits_mono; [done..|]. intros k'.
  destruct (decide (k = k')) as [<-|Hk']; [by rewrite Hself|by rewrite Hother].
Qed.

Lemma live_is_Some now o : is_Some (live_slot now o) -> is_Some o.
Proof. destruct o; [done|]. by intros [? [=]]. Qed.

Lemma storage_set_law s k v :
  storage_inv s ->
  exists s', storage_set k v s = Ret s' /\ storage_inv s' /\ storage_view s' k = Some (v, None) /\
    (forall k', k <> k' -> storage_view s' k' = storage_view s k' \/ storage_view s' k' = None) /\
    (forall K, storage_fits K s -> k ∈ K ->
       storage_fits K s' /\ forall k', k <> k' -> storage_view s' k' = storage_view s k').
Proof.
  intros Hinv. destruct (storage_set_refines s k v Hinv) as (s' & Hr & Hs).
  exists s'. split; [done|]. split; [apply Hs|].
  assert (Hself : storage_view s' k = Some (v, None)).
  { erewrite stepped_view_self by done. apply cfind_spec_insert_eq. }
  split; [done|]. split.
  - intros k' Hk'. rewrite (stepped_view _ _ _ s s' k') by done. case_decide as Hd; [|by left].
    destruct (cfind_spec_insert_ne (Z.to_nat (max_keys_per_shard_ s)) k (v, None) k'
      (shard_cache s (shardIndex k)) Hk') as [->|[-> _]]; [left|by right].
    rewrite Hd. by rewrite storage_view_cache.
  - intros K Hfit Hk.
    assert (Hother : forall k', k <> k' -> storage_view s' k' = storage_view s k').
    { intros k' Hk'. eapply stepped_view_other; [done..|].
      destruct (cfind_spec_insert_ne (Z.to_nat (max_keys_per_shard_ s)) k (v, None) k'
        (shard_cache s (shardIndex k)) Hk') as [->|[_ Hev]]; [done|]. exfalso.
      unfold spec_evicted in Hev. destruct (cfind k _) eqn:E; [lia|].
      pose proof (fits_room K s k Hinv Hfit Hk E). lia. }
    split; [|done]. destruct Hfit as [H1 H2]. split.
    + intros k' Hk'. destruct (decide (k = k')) as [<-|Hne]; [done|].
      rewrite Hother in Hk' by done. by apply H1.
    + intros j. rewrite (stepped_max _ _ _ _ _ Hinv Hs). apply H2.
Qed.

Lemma storage_get_law now s k :
  storage_inv s ->
  exists s', storage_get now k s = Ret (fst <$> live_slot now (storage_view s k), s') /\
    storage_inv s' /\ storage_view s' k = live_slot now (storage_view s k) /\
    (forall k', k <> k' -> storage_view s' k' = storage_view s k') /\
    (forall K, storage_fits K s -> storage_fits K s').
Proof.
  intros Hinv.
  pose proof (with_shard_refines k (getBody now k) (spec_get now k) s Hinv
    ltac:(intros; by apply getBody_refines) ltac:(eauto with cf)) as Hr. cbv zeta in Hr.
  rewrite spec_get_result in Hr. rewrite (storage_view_cache s k Hinv).
  eapply frame_law; [done|exact Hr|apply spec_get_self|..].
  - rewrite (storage_view_cache s k Hinv). apply live_is_Some.
  - intros. by apply spec_get_other.
Qed.

Lemma storage_del_law now s k :
  storage_inv s ->
  exists s',
    storage_del now k s = Ret (bool_decide (is_Some (live_slot now (storage_view s k))), s') /\
    storage_inv s' /\ storage_view s' k = None /\
    (forall k', k <> k' -> storage_view s' k' = storage_view s k') /\
    (forall K, storage_fits K s -> storage_fits K s').
Proof.
  intros Hinv.
  pose proof (with_shard_refines k (delBody now k) (spec_del now k) s Hinv
    ltac:(intros; by apply delBody_refines) ltac:(eauto with cf)) as Hr. cbv zeta in Hr.
  rewrite spec_del_result in Hr. rewrite (storage_view_cache s k Hinv).
  eapply frame_law; [done|exact Hr|apply spec_del_self|..].
  - by intros [? [=]].
  - intros. by apply spec_del_other.
Qed.

Lemma storage_expire_law now now2 s k seconds deadline :
  storage_inv s -> 0 <= seconds -> clock_reading now2 ->
  add_seconds now2 seconds = Ret deadline ->
  exists s',
    storage_expire now now2 k seconds s =
      Ret (bool_decide (is_Some (live_slot now (storage_view s k))), s') /\
    storage_inv s' /\
    storage_view s' k = (fun x => (x.1, Some deadline)) <$> live_slot now (storage_view s k) /\
    (forall k', k <> k' -> storage_view s' k' = storage_view s k') /\
    (forall K, storage_fits K s -> storage_fits K s').
Proof.
  intros Hinv Hsec Hnow2 Hadd.
  assert (Hd : clock_reading deadline).
  { apply add_seconds_Ret in Hadd as (_ & ? & ->).
    unfold clock_reading, in_int64, NS_PER_S in *. lia. }
  pose proof (with_shard_refines k (expireBody now now2 k seconds) (spec_expire now deadline k) s
    Hinv ltac:(intros; by apply expireBody_refines) ltac:(eauto with cf)) as Hr. cbv zeta in Hr.
  rewrite spec_expire_result in Hr. rewrite (storage_view_cache s k Hinv).
  unfold storage_expire. destruct (Z.ltb_spec seconds 0); [lia|].
  eapply frame_law; [done|exact Hr|apply spec_expire_self|..].
  - rewrite (storage_view_cache s k Hinv), fmap_is_Some. apply live_is_Some.
  - intros. by apply spec_expire_other.
Qed.

Lemma storage_ttl_law now now2 s k :
  storage_inv s -> clock_reading now2 ->
  exists s',
    storage_ttl now now2 k s = Ret (ttl_of now2 (live_slot now (storage_view s k)), s') /\
    storage_inv s' /\ storage_view s' k = live_slot now (storage_view s k) /\
    (forall k', k <> k' -> storage_view s' k' = storage_view s k') /\
    (forall K, storage_fits K s -> storage_fits K s').
Proof.
  intros Hinv Hnow2.
  pose proof (with_shard_refines k (ttlBody now now2 k) (spec_ttl now now2 k) s Hinv
    ltac:(intros; by apply ttlBody_refines) ltac:(eauto with cf)) as Hr. cbv zeta in Hr.
  rewrite spec_ttl_result, spec_ttl_cache in Hr. rewrite (storage_view_cache s k Hinv).
  eapply frame_law; [done|exact Hr|apply spec_live_self|..].
  - rewrite (storage_view_cache s k Hinv). apply live_is_Some.
  - intros. by apply spec_live_other.
Qed.

Lemma storage_expire_negative now now2 s k seconds :
  seconds < 0 -> storage_expire now now2 k seconds s = Ret (false, s).
Proof. intros Hneg. unfold storage_expire. destruct (Z.ltb_spec seconds 0); [done|lia]. Qed.

(** A sweep removes expired keys only. *)
Lemma sweep_cases s s' i now order ct :
  storage_inv s ->
  stepped i (spec_sweep now (take MAX_SCAN_PER_SWEEP order) (shard_cache s i)) ct s s' ->
  forall k, storage_view s' k = storage_view s k \/
    storage_view s' k = None /\ exists sl, storage_view s k = Some sl /\ slot_expired now sl = true.
Proof.
  intros Hinv Hs k. rewrite (stepped_view _ _ _ s s' k Hinv Hs). case_decide as Hk; [|by left].
  rewrite (storage_view_cache s k Hinv), <- Hk. apply cfind_spec_sweep.
  unfold shard_cache. destruct (shards_ s !! i) as [sh|] eqn:E; [|constructor].
  eapply abs_NoDup. by eapply si_shard.
Qed.

Lemma storage_sweep_law i now order s :
  storage_inv s -> (exists sh, shards_ s !! i = Some sh /\ order ≡ₚ (map_to_list (data sh)).*1) ->
  exists s', storage_sweep i now order s = Ret s' /\ storage_inv s' /\
    (forall k, storage_view s' k = storage_view s k \/
       storage_view s' k = None /\ live_slot now (storage_view s k) = None) /\
    (forall K, storage_fits K s -> storage_fits K s').
Proof.
  intros Hinv Hok. destruct (storage_sweep_refines s i now order Hinv Hok) as (s' & Hrun & Hs).
  pose proof (sweep_cases s s' i now order _ Hinv Hs) as Hcase. exists s'. split; [done|].
  split; [apply Hs|]. split.
  - intros k. destruct (Hcase k) as [->|(-> & sl & -> & Hx)]; [by left|right]. simpl. by rewrite Hx.
  - intros K. eapply fits_mono; [done..|]. intros k. destruct (Hcase k) as [->|[-> _]]; [done|by intros [? [=]]].
Qed.

#[export] Instance storage_laws : StorageLaws ShardedStorage := {|
  store_inv := storage_inv;
  view := storage_view;
  fits := storage_fits;
  sweep_ok i order s := exists sh, shards_ s !! i = Some sh /\ order ≡ₚ (map_to_list (data sh)).*1;
  law_set := storage_set_law;
  law_get := storage_get_law;
  law_del := storage_del_law;
  law_expire := storage_expire_law;
  law_expire_negative := storage_expire_negative;
  law_ttl := storage_ttl_law;
  law_sweep := storage_sweep_law
|}.

(** ** A new storage *)

Lemma new_storage_view (max_keys : Z) k : storage_view (new_storage max_keys) k = None.
Proof.
  unfold storage_view, new_storage. cbn [shards_].
  destruct (replicate _ _ !! shardIndex k) as [sh|] eqn:E; [|done].
  apply lookup_replicate in E as [-> _]. done.
Qed.

(** It has room for as many keys as one shard holds, wherever the hash puts them. *)
Lemma new_storage_fits (max_keys : Z) (K : gset bytes) :
  Z.of_nat (size K) <= Z.max 1 (max_keys / NUM_SHARDS) -> storage_fits K (new_storage max_keys).
Proof.
  intros HK. split.
  - intros k. rewrite new_storage_view. by intros [? [=]].
  - intros i. assert (size (shard_share K i) <= size K)%nat; [|simpl; lia].
    apply subseteq_size. unfold shard_share. set_solver.
Qed.
End laws.

(** ** Counting keys *)

Section counting.
Context `{StdHash}.

Definition shard_size (sh : Shard) : nat := size (data sh).

Lemma fold_size_u64 (l : list Shard) a :
  fold_left (fun total sh => u64 (total + Z.of_nat (size (data sh)))) l (u64 a) =
  u64 (a + Z.of_nat (sum_list_with shard_size l)).
Proof.
  revert a. induction l as [|sh l IH]; intros a; simpl; [by rewrite Z.add_0_r|].
  rewrite u64_add_l, IH. f_equal. unfold shard_size at 2. lia.
Qed.

(** Shards whose keys have different homes are disjoint, so sizes add up. *)
Lemma size_stored_list (home : bytes -> nat) l off :
  (forall i sh k, l !! i = Some sh -> is_Some (data sh !! k) -> home k = (off + i)%nat) ->
  size (⋃ ((fun sh => dom (data sh)) <$> l) : gset bytes) = sum_list_with shard_size l.
Proof.
  revert off. induction l as [|sh l IH]; intros off Hhome; [done|].
  rewrite fmap_cons. cbn [union_list foldr sum_list_with].
  rewrite size_union, size_dom.
  - f_equal. apply (IH (S off)). intros i sh' k Hi Hk. rewrite (Hhome (S i) sh' k Hi Hk). lia.
  - intros k [e1 He1]%elem_of_dom Hk. apply elem_of_union_list in Hk as (X & HX & Hk).
    apply list_elem_of_fmap in HX as (sh' & -> & Hsh'). apply elem_of_dom in Hk as [e2 He2].
    apply list_elem_of_lookup in Hsh' as [i Hi].
    pose proof (Hhome 0%nat sh k eq_refl (ex_intro _ _ He1)).
    pose proof (Hhome (S i) sh' k Hi (ex_intro _ _ He2)). lia.
Qed.

Lemma sum_size_le max (l : list Shard) :
  (forall i sh, l !! i = Some sh -> shard_inv max sh) ->
  Z.of_nat (sum_list_with shard_size l) <= Z.of_nat (length l) * max.
Proof.
  induction l as [|sh l IH]; intros Hl; [done|]. cbn [sum_list_with length].
  pose proof (inv_capacity _ _ (Hl 0%nat sh eq_refl)) as Hsh.
  specialize (IH (fun i sh' Hi => Hl (S i) sh' Hi)). unfold shard_size at 1. lia.
Qed.

(** What the loop of [size] adds up, for shards of which each holds keys of its own. *)
Lemma shards_counted max_keys l :
  0 <= max_keys < 2 ^ 64 -> length l = Z.to_nat NUM_SHARDS ->
  (forall i sh, l !! i = Some sh -> shard_inv (Z.max 1 (max_keys / NUM_SHARDS)) sh) ->
  (forall i sh k, l !! i = Some sh -> is_Some (data sh !! k) -> shardIndex k = i) ->
  fold_left (fun total sh => u64 (total + Z.of_nat (size (data sh)))) l 0 =
    Z.of_nat (size (⋃ ((fun sh => dom (data sh)) <$> l) : gset bytes)) /\
  Z.of_nat (size (⋃ ((fun sh => dom (data sh)) <$> l) : gset bytes)) <= Z.max 16 max_keys.
Proof.
  intros Hmax Hlen Hsh Hhome. pose proof (sum_size_le _ _ Hsh) as Hle. rewrite Hlen, Z2Nat.id in Hle by done.
  assert (Hb : NUM_SHARDS * Z.max 1 (max_keys / NUM_SHARDS) <= Z.max 16 max_keys).
  { unfold NUM_SHARDS. pose proof (Z.mul_div_le max_keys 16). lia. }
  change 0 with (u64 0) at 1. rewrite fold_size_u64, Z.add_0_l.
  rewrite (size_stored_list shardIndex l 0) by (intros i sh k Hi Hk; by apply (Hhome i sh)).
  rewrite u64_small by lia. split; [done|lia].
Qed.

Lemma storage_size_stored s :
  storage_inv s ->
  storage_size s = Z.of_nat (size (stored s)) /\ storage_size s <= Z.max 16 (max_keys_ s).
Proof.
  intros [Hlen Hmax Hper Hsh Hhome]. rewrite Hper in Hsh.
  destruct (shards_counted (max_keys_ s) (shards_ s) Hmax Hlen Hsh Hhome) as [Heq Hle].
  unfold storage_size, stored. by rewrite Heq.
Qed.

(** The capacity never changes. *)
Lemma steps_keep s s' :
  rtc storage_step s s' -> storage_inv s -> storage_inv s' /\ max_keys_ s' = max_keys_ s.
Proof.
  intros Hr Hinv. revert s' Hr.
  apply (rtc_ind_r (fun s' => storage_inv s' /\ max_keys_ s' = max_keys_ s)); [done|].
  intros s1 s2 _ Hstep [Hinv1 Hk]. split; [by eapply storage_step_inv|].
  destruct Hstep; [|unfold startExpirationSweep|unfold stopExpirationSweep]; try by case_match.
  edestruct run_call_stepped as (? & ? & ? & _ & Hs); [done..|]. by rewrite (st_max _ _ _ _ _ Hs).
Qed.
End counting.

(** ** Recency *)

Section recency.
Implicit Types (c : cache) (k : bytes) (sl : slot).

(** [k] is stored with slot [sl] behind at most [n] more recently used keys. *)
Definition within (n : nat) k sl c : Prop :=
  exists c1 c2, c = c1 ++ (k, sl) :: c2 /\ k ∉ c1.*1 /\ (length c1 <= n)%nat.

Lemma within_le n m k sl c : (n <= m)%nat -> within n k sl c -> within m k sl c.
Proof. intros Hle (c1 & c2 & -> & Hk & Hn). exists c1, c2. repeat split; [done|lia]. Qed.

Lemma within_cfind n k sl c : within n k sl c -> cfind k c = Some sl.
Proof.
  intros (c1 & c2 & -> & Hk & _). induction c1 as [|[j t] c1 IH]; simpl.
  - by rewrite decide_True.
  - rewrite fmap_cons in Hk. apply not_elem_of_cons in Hk as [Hj Hk]. simpl in Hj.
    rewrite decide_False by done. by apply IH.
Qed.

Lemma within_cons n k sl j t c : j <> k -> within n k sl c -> within (S n) k sl ((j, t) :: c).
Proof.
  intros Hj (c1 & c2 & -> & Hk & Hn). exists ((j, t) :: c1), c2. split; [done|].
  rewrite fmap_cons. simpl. split; [|lia]. apply not_elem_of_cons. split; [done|done].
Qed.

(** Dropping entries other than [k] keeps its place. *)
Lemma within_filter n k sl c (P : bytes * slot -> Prop) `{!forall x, Decision (P x)} :
  P (k, sl) -> within n k sl c -> within n k sl (filter P c).
Proof.
  intros HP (c1 & c2 & -> & Hk & Hn). rewrite filter_app, filter_cons_True by done.
  exists (filter P c1), (filter P c2). split; [done|]. split.
  - intros (p & Hp & Hin)%list_elem_of_fmap. apply Hk. rewrite Hp.
    apply list_elem_of_filter in Hin as [_ Hin]. by apply list_elem_of_fmap_2.
  - etransitivity; [apply length_filter|done].
Qed.

Lemma within_cremove n k sl j c : j <> k -> within n k sl c -> within n k sl (cremove j c).
Proof. intros Hj. apply within_filter. simpl. congruence. Qed.

Lemma within_creplace n k sl j t c : j <> k -> within n k sl c -> within n k sl (creplace j t c).
Proof.
  intros Hj (c1 & c2 & -> & Hk & Hn). unfold creplace. rewrite map_app, map_cons. simpl.
  rewrite decide_False by congruence. exists (creplace j t c1), (creplace j t c2).
  split; [done|]. rewrite keys_creplace. unfold creplace. by rewrite length_map.
Qed.

Lemma within_take n m k sl c : (n < m)%nat -> within n k sl c -> within n k sl (take m c).
Proof.
  intros Hm (c1 & c2 & -> & Hk & Hn). rewrite take_app_ge by lia.
  destruct (m - length c1)%nat as [|r] eqn:E; [lia|]. rewrite firstn_cons.
  by exists c1, (take r c2).
Qed.

Lemma within_spec_live n now k sl j c :
  j <> k -> within n k sl c -> within n k sl (spec_live now j c).1.2.
Proof.
  intros Hj Hw. unfold spec_live. destruct (cfind j c); [|done].
  case_match; simpl; [by apply within_cremove|done].
Qed.

(** A call on another key, or a sweep before the deadline, moves [k] back by at most
    one place. *)
Definition avoids k sl (ca : call) : Prop :=
  match ca with
  | CallSet j _ | CallSetWithTTL _ j _ _ | CallGet _ j | CallDel _ j
  | CallExpire _ _ j _ | CallTtl _ _ j => j <> k
  | CallSweep _ now _ => slot_expired now sl = false
  end.

Lemma within_spec_insert n cap k sl j t c :
  j <> k -> (S n < cap)%nat -> within n k sl c -> within (S n) k sl (spec_insert cap j t c).
Proof.
  intros Hj Hn Hw. unfold spec_insert. destruct (cfind j c); apply within_cons; try done.
  - by apply within_cremove.
  - apply within_take; [lia|done].
Qed.

Lemma within_spec_call n cap k sl ca c :
  avoids k sl ca -> (S n < cap)%nat -> within n k sl c ->
  within (S n) k sl (spec_call cap ca c).1.1.2.
Proof.
  intros Ha Hn Hw. assert (Hw' : within (S n) k sl c) by (eapply within_le; [|done]; lia).
  destruct ca; simpl in *.
  - by apply within_spec_insert.
  - by apply within_spec_insert.
  - unfold spec_get. pose proof (within_spec_live n now k sl key c Ha Hw) as Hl.
    destruct (spec_live now key c) as [[[s|] c'] m]; simpl in *.
    + apply within_cons; [done|]. by apply within_cremove.
    + eapply within_le; [|done]. lia.
  - unfold spec_del. pose proof (within_spec_live (S n) now k sl key c Ha Hw') as Hl.
    destruct (spec_live now key c) as [[[s|] c'] m]; simpl in *; [by apply within_cremove|done].
  - destruct (seconds <? 0); [done|].
    unfold spec_expire. pose proof (within_spec_live (S n) now k sl key c Ha Hw') as Hl.
    destruct (spec_live now key c) as [[[s|] c'] m]; simpl in *; [by apply within_creplace|done].
  - unfold spec_ttl. pose proof (within_spec_live (S n) now k sl key c Ha Hw') as Hl.
    by destruct (spec_live now key c) as [[[[v [d|]]|] c'] m].
  - apply within_filter; [|done]. intros [Hx _]. simpl in Hx. congruence.
Qed.
End recency.

Section lru_guarantee.
Context `{StdHash}.

(** A call that makes [k] the most recently used key when it stores or finds it. *)
Definition touches (k : bytes) (c : call) : Prop :=
  match c with
  | CallSet j _ | CallSetWithTTL _ j _ _ | CallGet _ j => j = k
  | _ => False
  end.

Lemma touched_within s c r s' k sl :
  storage_inv s -> call_ok s c -> touches k c -> run_call c s = Ret (r, s') ->
  storage_view s' k = Some sl -> within 0 k sl (shard_cache s' (shardIndex k)).
Proof.
  intros Hinv Hok Ht Hrun Hv.
  destruct (run_call_stepped s c r s' Hinv Hok Hrun) as (ca' & nx & ne & Hspec & Hs).
  assert (Htgt : target c = shardIndex k) by (destruct c; simpl in *; subst; done).
  rewrite Htgt in *. rewrite (stepped_view_self _ _ _ _ _ Hinv Hs) in Hv.
  rewrite (st_cache _ _ _ _ _ Hs).
  assert (Hhd : exists t c2, ca' = (k, t) :: c2).
  { destruct c; simpl in *; subst; try done.
    - unfold spec_insert in Hspec. injection Hspec as <- <- <- <-. case_match; eauto.
    - unfold spec_insert in Hspec. injection Hspec as <- <- <- <-. case_match; eauto.
    - unfold spec_get in Hspec. pose proof (spec_live_self now k (shard_cache s (shardIndex k))) as Hl.
      pose proof (spec_live_result now k (shard_cache s (shardIndex k))) as Hl'.
      destruct (spec_live _ _ _) as [[[t|] c'] m]; simpl in *; simplify_eq; [eauto|congruence]. }
  destruct Hhd as (t & c2 & ->). simpl in Hv. rewrite decide_True in Hv by done.
  injection Hv as ->. exists [], c2. split; [done|]. split; [set_solver|done].
Qed.

Lemma run_calls_within cs s rs s' k sl n :
  storage_inv s -> calls_ok cs s -> Forall (avoids k sl) cs ->
  run_calls cs s = Ret (rs, s') ->
  (n + length cs < Z.to_nat (max_keys_per_shard_ s))%nat ->
  within n k sl (shard_cache s (shardIndex k)) ->
  storage_inv s' /\ within (n + length cs) k sl (shard_cache s' (shardIndex k)).
Proof.
  revert s rs n. induction cs as [|c cs IH]; intros s rs n Hinv Hok Ha Hrun Hn Hw; simpl in *.
  - outcome_inv. by rewrite Nat.add_0_r.
  - destruct Hok as [Hok Hoks]. inversion Ha as [|? ? Hac Has]; subst.
    apply bind_Ret_inv in Hrun as ([r1 s1] & Hrun1 & Hrun).
    apply bind_Ret_inv in Hrun as ([rs2 s2] & Hrun2 & Hrun). injection Hrun as _ ->.
    destruct (run_call_stepped s c r1 s1 Hinv Hok Hrun1) as (ca' & nx & ne & Hspec & Hs).
    replace (n + S (length cs))%nat with (S n + length cs)%nat by lia.
    apply (IH s1 rs2); [apply Hs|by eapply Hoks|done|done| |].
    + rewrite (stepped_max _ _ _ _ _ Hinv Hs). lia.
    + destruct (decide (target c = shardIndex k)) as [Heq|Hne].
      * rewrite Heq in *. rewrite (st_cache _ _ _ _ _ Hs).
        pose proof (within_spec_call n (Z.to_nat (max_keys_per_shard_ s)) k sl c
          (shard_cache s (shardIndex k)) Hac ltac:(lia) Hw) as Hw'. by rewrite Hspec in Hw'.
      * rewrite (st_frame _ _ _ _ _ Hs) by done. eapply within_le; [|done]. lia.
Qed.

(** C17: The LRU order protects recently used keys: once a key has been written or read,
    it stays, with its value and deadline, through any sequence of fewer operations
    than a shard holds keys, as long as none names the key and no sweep finds it
    expired. *)
Theorem lru_keeps_recent max_keys s0 touch r0 s1 cs rs s2 k sl :
  0 <= max_keys < 2 ^ 64 -> reachable max_keys s0 ->
  touches k touch -> call_ok s0 touch -> run_call touch s0 = Ret (r0, s1) ->
  storage_view s1 k = Some sl ->
  calls_ok cs s1 -> Forall (avoids k sl) cs ->
  (length cs < Z.to_nat (max_keys_per_shard_ s1))%nat ->
  run_calls cs s1 = Ret (rs, s2) ->
  storage_view s2 k = Some sl.
Proof.
  intros Hm Hr Ht Hok Hrun Hv Hoks Ha Hlen Hruns.
  pose proof (reachable_inv _ _ Hm Hr) as Hinv.
  assert (Hinv1 : storage_inv s1).
  { eapply storage_step_inv; [exact Hinv|]. by eapply step_call. }
  pose proof (touched_within _ _ _ _ _ _ Hinv Hok Ht Hrun Hv) as Hw.
  destruct (run_calls_within cs s1 rs s2 k sl 0 Hinv1 Hoks Ha Hruns ltac:(lia) Hw) as [Hinv2 Hw2].
  rewrite (storage_view_cache s2 k Hinv2). by eapply within_cfind.
Qed.
End lru_guarantee.

(** ** The background sweep *)

Section sweeping.
Context `{StdHash}.

(** The key has a deadline and it has passed. *)
Definition expired_at (now : Z) (s : ShardedStorage) (k : bytes) : Prop :=
  exists sl, storage_view s k = Some sl /\ slot_expired now sl = true.

Lemma view_key_in_order s i now order k sl :
  storage_inv s -> call_ok s (CallSweep i now order) -> shardIndex k = i ->
  storage_view s k = Some sl -> k ∈ order.
Proof.
  intros Hinv (sh & Hsh & Hord) Hk Hv. unfold storage_view in Hv. rewrite Hk, Hsh in Hv.
  simpl in Hv. destruct (data sh !! k) as [e|] eqn:E; [|done]. rewrite Hord.
  apply list_elem_of_fmap. exists (k, e). split; [done|]. by apply elem_of_map_to_list.
Qed.

Lemma shard_cache_NoDup s i : storage_inv s -> NoDup (shard_cache s i).*1.
Proof.
  intros Hinv. unfold shard_cache. destruct (shards_ s !! i) as [sh|] eqn:E; [|constructor].
  eapply abs_NoDup. by eapply si_shard.
Qed.

(** A visited key that has expired is gone. *)
Lemma cfind_spec_sweep_visited now visited k c sl :
  NoDup c.*1 -> cfind k c = Some sl -> slot_expired now sl = true -> k ∈ visited ->
  cfind k (spec_sweep now visited c) = None.
Proof.
  intros Hnd Hk Hx Hin. apply cfind_None.
  intros ([j t] & -> & [Hn Hj]%list_elem_of_filter)%list_elem_of_fmap.
  apply cfind_Some in Hj; [|done]. simpl in *. apply Hn. split; [|done]. simpl. congruence.
Qed.

(** C22: One call of [sweepShard]: no reader at the time of the sweep or later can tell;
    every expired key among the first hundred visited is removed; and when the shard
    holds at most a hundred keys no expired key is left in it. *)
Theorem sweep_exact max_keys s i now order :
  0 <= max_keys < 2 ^ 64 -> reachable max_keys s -> call_ok s (CallSweep i now order) ->
  exists s', storage_sweep i now order s = Ret s' /\
    (forall k t, now <= t ->
       live_slot t (storage_view s' k) = live_slot t (storage_view s k)) /\
    (forall k, shardIndex k = i -> k ∈ take MAX_SCAN_PER_SWEEP order -> ~ expired_at now s' k) /\
    ((length order <= MAX_SCAN_PER_SWEEP)%nat ->
       forall k, shardIndex k = i -> storage_view s' k = live_slot now (storage_view s k)).
Proof.
  intros Hm Hr Hok. pose proof (reachable_inv _ _ Hm Hr) as Hinv.
  destruct (storage_sweep_refines s i now order Hinv Hok) as (s' & Hrun & Hs).
  exists s'. split; [done|]. pose proof (shard_cache_NoDup s i Hinv) as Hnd.
  set (vis := take MAX_SCAN_PER_SWEEP order) in *.
  assert (Hview : forall k, shardIndex k = i ->
    storage_view s k = cfind k (shard_cache s i) /\
    storage_view s' k = cfind k (spec_sweep now vis (shard_cache s i))).
  { intros k Hk. rewrite (stepped_view _ _ _ s s' k Hinv Hs), decide_True by done.
    split; [|done]. rewrite (storage_view_cache s k Hinv). by rewrite Hk. }
  assert (Hgone : forall k sl, shardIndex k = i -> k ∈ vis ->
    storage_view s k = Some sl -> slot_expired now sl = true -> storage_view s' k = None).
  { intros k sl Hk Hin Hv Hx. destruct (Hview k Hk) as [E1 E2]. rewrite E1 in Hv. rewrite E2.
    by eapply cfind_spec_sweep_visited. }
  assert (Hcase : forall k, storage_view s' k = storage_view s k \/
    storage_view s' k = None /\ expired_at now s k).
  { exact (sweep_cases s s' i now order _ Hinv Hs). }
  split; [|split].
  - intros k t Ht. destruct (Hcase k) as [->|(-> & [v [d|]] & -> & Hx)]; [done| |done].
    unfold live_slot, slot_expired in *. simpl in *. apply Z.leb_le in Hx.
    destruct (Z.leb_spec d t); [done|lia].
  - intros k Hk Hin (sl & Hv & Hx). destruct (Hcase k) as [E|[E _]]; [|congruence].
    rewrite Hv in E. symmetry in E. pose proof (Hgone k sl Hk Hin E Hx). congruence.
  - intros Hlen k Hk. destruct (storage_view s k) as [sl|] eqn:Hv; simpl.
    + destruct (slot_expired now sl) eqn:Hx.
      * apply (Hgone k sl); [done| |done|done]. unfold vis. rewrite take_ge by done.
        by eapply view_key_in_order.
      * destruct (Hcase k) as [->|(_ & sl' & Hv' & Hx')]; [done|congruence].
    + destruct (Hcase k) as [->|[-> _]]; done.
Qed.

(** The scan restarts at the beginning of the map each time: when the first hundred
    keys it meets are alive, a sweep changes nothing, however many expired keys come
    after them. *)
Lemma sweep_starvation max_keys s i now order :
  0 <= max_keys < 2 ^ 64 -> reachable max_keys s -> call_ok s (CallSweep i now order) ->
  (forall k, k ∈ take MAX_SCAN_PER_SWEEP order -> ~ expired_at now s k) ->
  exists s', storage_sweep i now order s = Ret s' /\
    counters_ s' = counters_ s /\ forall k, storage_view s' k = storage_view s k.
Proof.
  intros Hm Hr Hok Hlive. pose proof (reachable_inv _ _ Hm Hr) as Hinv.
  destruct (storage_sweep_refines s i now order Hinv Hok) as (s' & Hrun & Hs).
  assert (Hsame : spec_sweep now (take MAX_SCAN_PER_SWEEP order) (shard_cache s i) = shard_cache s i).
  { apply list_filter_all, Forall_forall. intros [k sl] Hin [Hx Hk]. simpl in *.
    apply (Hlive k Hk). exists sl. split; [|done].
    destruct Hok as (sh & Hsh & Hord). rewrite (shard_cache_lookup _ _ _ Hsh) in Hin.
    pose proof (si_shard s Hinv _ _ Hsh) as Hshi. apply cfind_Some in Hin; [|by eapply abs_NoDup].
    rewrite (cfind_shard _ _ _ Hshi) in Hin. unfold storage_view.
    rewrite (si_home s Hinv i sh k Hsh), Hsh by (destruct (data sh !! k); done). done. }
  exists s'. split; [done|]. rewrite Hsame, Nat.sub_diag in Hs. split; [by destruct Hs|].
  intros k. rewrite (stepped_view _ _ _ s s' k Hinv Hs). case_decide as Hd; [|done].
  rewrite (storage_view_cache s k Hinv). by rewrite Hd.
Qed.

(** C31: On a live key [expire] is defined exactly for the deadlines that fit the clock: a
    client can name a number of seconds that overflows. *)
Theorem expire_defined_iff max_keys s now now2 k seconds :
  0 <= max_keys < 2 ^ 64 -> reachable max_keys s -> clock_reading now2 -> 0 <= seconds ->
  is_Some (live_slot now (storage_view s k)) ->
  defined (storage_expire now now2 k seconds s) <-> now2 + seconds * NS_PER_S <= INT64_MAX.
Proof.
  intros Hm Hr Hnow2 Hsec Hlive. pose proof (reachable_inv _ _ Hm Hr) as Hinv. split.
  - intros [[b s'] Hrun]. unfold storage_expire in Hrun.
    destruct (Z.ltb_spec seconds 0); [lia|]. unfold with_shard, getShard in Hrun.
    apply bind_Ret_inv in Hrun as (sh & Hsh & Hrun). apply deref_Ret in Hsh.
    apply bind_Ret_inv in Hrun as (r & Hrun & _). unfold expireBody in Hrun.
    unfold storage_view in Hlive. rewrite Hsh in Hlive. simpl in Hlive.
    destruct (data sh !! k) as [e|]; [|by destruct Hlive]. simpl in Hlive.
    change (slot_expired now (slot_of e)) with (isExpired now e) in Hlive.
    destruct (isExpired now e); [by destruct Hlive|].
    apply bind_Ret_inv in Hrun as (d & Hd & _). apply add_seconds_Ret in Hd as (_ & [_ ?] & _). done.
  - intros Hle. destruct (storage_expire_law now now2 s k seconds (now2 + seconds * NS_PER_S) Hinv)
      as (s' & -> & _); [done|done| |by eexists].
    apply add_seconds_ok; [done|]. unfold deadline_ok, clock_reading, NS_PER_S in *. lia.
Qed.
End sweeping.
