(* ===== verification/StorageSize.v ===== *)
(** * [size()] while other threads work

    [size] locks the shards one after the other ([src/storage/sharded_storage.cpp]), so
    calls of other threads run between two of its reads.  The theorem says what the sum
    it returns counts: each key is counted as it was at the moment the shard of that key
    was read.  With no calls in between this is the number of keys stored; with some, it
    need not be the number of keys stored at any moment. *)

From S2P Require Import Prelude Cpp StdList Lru Shard StorageInterface ShardedStorage StorageFacts.
Local Open Scope Z_scope.

Section scan.
Context `{StdHash}.
Implicit Types (s : ShardedStorage) (css : list (list call)).

(** The loop of [size] from shard [i] on: before each shard is locked, other threads make
    the next list of calls. *)
Fixpoint size_scan (i : nat) css (total : Z) s : outcome (Z * ShardedStorage) :=
  match css with
  | [] => Ret (total, s)
  | calls :: css' =>
      '(_, s') ← run_calls calls s;
      sh ← deref (shards_ s' !! i);
      size_scan (S i) css' (u64 (total + Z.of_nat (size (data sh)))) s'
  end.

(** The states in which the shards were read. *)
Fixpoint moments css s : list ShardedStorage :=
  match css with
  | [] => []
  | calls :: css' => match run_calls calls s with Ret (_, s') => s' :: moments css' s' | UB => [] end
  end.

Fixpoint scan_ok css s : Prop :=
  match css with
  | [] => True
  | calls :: css' => calls_ok calls s /\ forall rs s', run_calls calls s = Ret (rs, s') -> scan_ok css' s'
  end.

(** Without calls in between it is [size]. *)
Lemma size_scan_alone s :
  storage_inv s -> size_scan 0 (replicate (Z.to_nat NUM_SHARDS) []) 0 s = Ret (storage_size s, s).
Proof.
  intros [Hlen _ _ _ _]. unfold storage_size. rewrite <- Hlen. clear Hlen. generalize 0.
  assert (Hscan : forall l pre total, shards_ s = pre ++ l ->
    size_scan (length pre) (replicate (length l) []) total s =
      Ret (fold_left (fun total sh => u64 (total + Z.of_nat (size (data sh)))) l total, s)).
  { induction l as [|sh l IH]; intros pre total Hl; [done|]. simpl. rewrite Hl, list_lookup_middle by done. simpl.
    replace (S (length pre)) with (length (pre ++ [sh])) by (rewrite length_app; simpl; lia).
    apply IH. by rewrite <- app_assoc. }
  intros total. by apply (Hscan (shards_ s) []).
Qed.

Lemma run_calls_steps cs s :
  storage_inv s -> calls_ok cs s -> exists rs s', run_calls cs s = Ret (rs, s') /\ rtc storage_step s s'.
Proof.
  revert s. induction cs as [|c cs IH]; intros s Hinv Hok; simpl; [by exists [], s|].
  destruct Hok as [Hok Hoks]. pose proof (call_refines s c Hinv Hok) as Hr.
  destruct (spec_call _ _ _) as [[[r ca1] nx] ne]. destruct Hr as (s1 & Hrun & Hs).
  destruct (IH s1 (st_inv _ _ _ _ _ Hs) (Hoks _ _ Hrun)) as (rs & s' & Hrun' & Hsteps).
  exists (r :: rs), s'. rewrite Hrun. simpl. rewrite Hrun'. split; [done|].
  eapply rtc_l; [by eapply step_call|done].
Qed.

(** The scan reads shard [i + j] in the [j]-th of its moments. *)
Lemma size_scan_seen i css total s :
  storage_inv s -> scan_ok css s -> (i + length css <= Z.to_nat NUM_SHARDS)%nat ->
  exists seen s', length seen = length css /\ length (moments css s) = length css /\ rtc storage_step s s' /\
    size_scan i css total s =
      Ret (fold_left (fun total sh => u64 (total + Z.of_nat (size (data sh)))) seen total, s') /\
    forall j sh, seen !! j = Some sh ->
      exists sj, moments css s !! j = Some sj /\ rtc storage_step s sj /\ shards_ sj !! (i + j)%nat = Some sh.
Proof.
  revert i total s. induction css as [|cs css IH]; intros i total s Hinv Hok Hi; simpl.
  { by exists [], s. }
  destruct Hok as [Hcs Hok]. destruct (run_calls_steps cs s Hinv Hcs) as (rs & s1 & Hrun & Hsteps).
  destruct (steps_keep s s1 Hsteps Hinv) as [Hinv1 _]. rewrite Hrun. simpl in Hi |- *.
  destruct (lookup_lt_is_Some_2 (shards_ s1) i) as [sh Hsh]; [rewrite (si_shards s1 Hinv1); lia|].
  rewrite Hsh. simpl.
  destruct (IH (S i) (u64 (total + Z.of_nat (size (data sh)))) s1 Hinv1 (Hok _ _ Hrun)) as
    (seen & s' & Hlen & Hlm & Hsteps' & Hscan & Hseen); [lia|].
  exists (sh :: seen), s'. simpl. rewrite Hlen, Hlm. do 2 (split; [done|]). split; [by etransitivity|]. split; [done|].
  intros [|j] sh'; simpl.
  - intros [= <-]. exists s1. by rewrite Nat.add_0_r.
  - intros (sj & Hj & Hs & Hshj)%Hseen. exists sj. split; [done|]. split; [by etransitivity|].
    by rewrite <- Nat.add_succ_comm.
Qed.

(** The keys of the shards seen are the keys that were stored when their shard was read. *)
Lemma seen_stored (seen : list Shard) (ms : list ShardedStorage) k :
  length seen = Z.to_nat NUM_SHARDS ->
  (forall i sh, seen !! i = Some sh -> exists si, ms !! i = Some si /\ shards_ si !! i = Some sh /\ storage_inv si) ->
  k ∈ (⋃ ((fun sh => dom (data sh)) <$> seen) : gset bytes) <->
  exists sk, ms !! shardIndex k = Some sk /\ is_Some (storage_view sk k).
Proof.
  intros Hlen Hseen. unfold storage_view. rewrite elem_of_union_list. split.
  - intros (X & (sh & -> & [i Hi]%list_elem_of_lookup)%list_elem_of_fmap & [e He]%elem_of_dom).
    destruct (Hseen i sh Hi) as (si & Hmi & Hsh & Hinvi).
    assert (shardIndex k = i) as -> by (by eapply si_home). exists si. split; [done|].
    rewrite Hsh. simpl. rewrite He. by eexists.
  - intros (sk & Hmk & [sl Hsl]). destruct (lookup_lt_is_Some_2 seen (shardIndex k)) as [sh Hsh].
    { rewrite Hlen. apply shardIndex_lt. }
    destruct (Hseen _ _ Hsh) as (si & Hmi & Hshi & _). assert (si = sk) as -> by congruence.
    rewrite Hshi in Hsl. simpl in Hsl. apply fmap_Some in Hsl as (e & He & _). exists (dom (data sh)).
    split; [|by eapply elem_of_dom_2]. apply list_elem_of_fmap. exists sh. split; [done|].
    by eapply list_elem_of_lookup_2.
Qed.

(** C18: [size()] returns, whatever other threads do between its reads, as long as the
    deadlines of their calls fit the clock; the sum does not wrap,
    is at most the capacity (or one key per shard when that is more), and is the number of
    keys that were stored when their shard was read.  So it counts a key stored all the
    time and not one never stored. *)
Theorem size_regular max_keys s css :
  0 <= max_keys < 2 ^ 64 -> reachable max_keys s -> length css = Z.to_nat NUM_SHARDS -> scan_ok css s ->
  exists (R : gset bytes) s',
    size_scan 0 css 0 s = Ret (Z.of_nat (size R), s') /\ rtc storage_step s s' /\
    Z.of_nat (size R) <= Z.max 16 max_keys /\ length (moments css s) = Z.to_nat NUM_SHARDS /\
    forall k, k ∈ R <-> exists sk, moments css s !! shardIndex k = Some sk /\ is_Some (storage_view sk k).
Proof.
  intros Hm Hr Hlen Hok. pose proof (steps_keep _ _ Hr (new_storage_inv max_keys Hm)) as [Hinv Hmax].
  destruct (size_scan_seen 0 css 0 s Hinv Hok) as (seen & s' & Hls & Hlm & Hsteps & Hscan & Hseen); [lia|].
  assert (Hfacts : forall i sh, seen !! i = Some sh -> exists si, moments css s !! i = Some si /\
    shards_ si !! i = Some sh /\ storage_inv si /\ max_keys_per_shard_ si = Z.max 1 (max_keys / NUM_SHARDS)).
  { intros i sh (si & Hi & Hst & Hsh)%Hseen. destruct (steps_keep _ _ Hst Hinv) as [Hinvi Hmaxi].
    exists si. split_and!; [done..|]. rewrite (si_per_shard si Hinvi), Hmaxi, Hmax. done. }
  destruct (shards_counted max_keys seen) as [Hsum Hle]; [done|congruence|..].
  - intros i sh (si & _ & Hsh & Hinvi & <-)%Hfacts. by eapply si_shard.
  - intros i sh k (si & _ & Hsh & Hinvi & _)%Hfacts. by eapply si_home.
  - eexists _, s'. split; [by rewrite Hscan, Hsum|]. split; [done|]. split; [done|]. split; [congruence|].
    intros k. apply seen_stored; [congruence|]. intros i sh (si & ? & ? & ? & _)%Hfacts. eauto.
Qed.
End scan.

(** ** Not a snapshot *)

(** A value is moved from one key to another, by two calls made after shard 1 was read and
    before shard 2 is; the keys are in shards 1 and 2. *)
Section moved.
#[local] Instance length_hash : StdHash := fun k => Z.of_nat (length k).

Definition between (calls : list call) : list (list call) := [[]; []; calls] ++ replicate 13 [].

(** The number of keys at the start, after the first call and at the end, and what a
    [size] reports that runs at the same time. *)
Definition watched (key : bytes) (c1 c2 : call) : outcome (list Z * Z) :=
  '(_, s) ← run_calls [CallSet key (str "v")] (new_storage 1600);
  '(_, s1) ← run_calls [c1] s;
  '(total, s2) ← size_scan 0 (between [c1; c2]) 0 s;
  Ret ([storage_size s; storage_size s1; storage_size s2], total).

(** Set before delete: there is a key at every moment, and [size] returns 0.  Delete
    before set: there is at most one key at every moment, and [size] returns 2. *)
Lemma size_not_snapshot :
  watched (str "bb") (CallSet (str "a") (str "v")) (CallDel 0 (str "bb")) = Ret ([1; 2; 1], 0) /\
  watched (str "a") (CallDel 0 (str "a")) (CallSet (str "bb") (str "v")) = Ret ([1; 0; 1], 2).
Proof. split; vm_compute; reflexivity. Qed.
End moved.
