(* ===== verification/Accounting.v ===== *)
(** * Where the keys went

    The counters of the storage ([expiredKeysCount], [evictedKeysCount]) and [size] are what
    STATS reports.  The theorem balances them: every key that was ever inserted is still
    stored, was deleted, has expired or was evicted, and is counted exactly once. *)

From S2P Require Import Prelude Cpp StdList Lru Shard StorageInterface ShardedStorage StorageFacts.
Local Open Scope Z_scope.

(** ** One shard *)

(** What a call adds by inserting a new key, and what a successful DEL takes away. *)
Definition inserts (c : call) (present : bytes -> bool) : nat :=
  match c with
  | CallSet k _ | CallSetWithTTL _ k _ _ => if present k then 0 else 1
  | _ => 0
  end.

Definition deletes (c : call) (r : reply) : nat :=
  match c, r with CallDel _ _, RBool true => 1 | _, _ => 0 end.

Definition cached (ca : cache) (k : bytes) : bool := bool_decide (is_Some (cfind k ca)).

Lemma length_cremove k ca s : NoDup ca.*1 -> cfind k ca = Some s -> S (length (cremove k ca)) = length ca.
Proof.
  induction ca as [|[k' s'] ca IH]; [done|]. rewrite fmap_cons. intros [Hk Hnd]%NoDup_cons. simpl.
  unfold cremove. rewrite filter_cons. case_decide as Hd; subst.
  - intros [= ->]. rewrite decide_False by naive_solver. f_equal.
    pose proof (cremove_id k ca Hk) as Hid. unfold cremove in Hid. by rewrite Hid.
  - intros Hf. rewrite decide_True by done. simpl. f_equal. by apply IH.
Qed.

Lemma length_creplace k s ca : length (creplace k s ca) = length ca.
Proof. apply length_map. Qed.

(** The lookup that reading operations start with removes what it counts. *)
Lemma spec_live_length now k ca :
  NoDup ca.*1 ->
  let '(o, ca', n) := spec_live now k ca in
  (length ca' + n)%nat = length ca /\ (is_Some o -> ca' = ca /\ cfind k ca = o).
Proof.
  intros Hnd. unfold spec_live. destruct (cfind k ca) as [s|] eqn:E; [|by rewrite Nat.add_0_r; split; [|intros []]].
  destruct (slot_expired now s); [|by rewrite Nat.add_0_r].
  rewrite <- (length_cremove k ca s Hnd E). split; [lia|by intros []].
Qed.

Lemma spec_call_balance `{StdHash} cap c ca r ca' nx ne :
  (1 <= cap)%nat -> (length ca <= cap)%nat -> NoDup ca.*1 -> spec_call cap c ca = (r, ca', nx, ne) ->
  (length ca' + deletes c r + nx + ne)%nat = (length ca + inserts c (cached ca))%nat.
Proof.
  intros Hcap Hlen Hnd Hc.
  assert (Hins : forall k sl, (length (spec_insert cap k sl ca) + spec_evicted cap k ca)%nat =
    (length ca + (if cached ca k then 0 else 1))%nat).
  { intros k sl. unfold spec_insert, spec_evicted, cached. destruct (cfind k ca) as [s|] eqn:E; simpl.
    - pose proof (length_cremove k ca s Hnd E). lia.
    - rewrite length_take. lia. }
  destruct c as [k v|now k v secs|now k|now k|now now2 k secs|now now2 k|i now order]; cbn [spec_call inserts] in *.
  - injection Hc as <- <- <- <-. pose proof (Hins k (v, None)). simpl. lia.
  - injection Hc as <- <- <- <-. pose proof (Hins k (v, if secs <? 0 then None else Some (now + secs * NS_PER_S))).
    simpl. lia.
  - pose proof (spec_live_length now k ca Hnd) as Hl. unfold spec_get in Hc.
    destruct (spec_live now k ca) as [[[s|] ca1] n]; destruct Hl as [Hl Hf]; injection Hc as <- <- <- <-; simpl.
    + destruct Hf as [-> Hf]; [done|]. pose proof (length_cremove k ca s Hnd Hf). lia.
    + lia.
  - pose proof (spec_live_length now k ca Hnd) as Hl. unfold spec_del in Hc.
    destruct (spec_live now k ca) as [[[s|] ca1] n]; destruct Hl as [Hl Hf]; injection Hc as <- <- <- <-; simpl.
    + destruct Hf as [-> Hf]; [done|]. pose proof (length_cremove k ca s Hnd Hf). lia.
    + lia.
  - destruct (secs <? 0); [injection Hc as <- <- <- <-; simpl; lia|].
    pose proof (spec_live_length now k ca Hnd) as Hl. unfold spec_expire in Hc.
    destruct (spec_live now k ca) as [[[s|] ca1] n]; destruct Hl as [Hl _]; injection Hc as <- <- <- <-; simpl;
      rewrite ?length_creplace; lia.
  - pose proof (spec_live_length now k ca Hnd) as Hl. unfold spec_ttl in Hc.
    destruct (spec_live now k ca) as [[[[v [d|]]|] ca1] n]; destruct Hl as [Hl _];
      injection Hc as <- <- <- <-; simpl; lia.
  - injection Hc as <- <- <- <-. simpl.
    assert (length (spec_sweep now (take MAX_SCAN_PER_SWEEP order) ca) <= length ca)%nat;
      [apply length_filter|lia].
Qed.

(** ** All shards *)

Section balance.
Context `{StdHash}.
Implicit Types (s : ShardedStorage).

Definition keys_stored s : nat :=
  sum_list_with (fun i => length (shard_cache s i)) (seq 0 (Z.to_nat NUM_SHARDS)).

Lemma sum_update {A} (f g : A -> nat) (x : A) l :
  NoDup l -> x ∈ l -> (forall y, x <> y -> f y = g y) ->
  (sum_list_with f l + g x)%nat = (sum_list_with g l + f x)%nat.
Proof.
  intros Hnd Hx Hfg. induction Hnd as [|y l Hy Hnd IH]; [by apply elem_of_nil in Hx|]. simpl.
  apply elem_of_cons in Hx as [->|Hx].
  - assert (sum_list_with f l = sum_list_with g l); [|lia]. clear IH Hnd.
    induction l as [|z l IH]; [done|]. apply not_elem_of_cons in Hy as [Hz Hy]. simpl. by rewrite (Hfg z), IH.
  - rewrite (Hfg y) by (intros ->; done). specialize (IH Hx). lia.
Qed.

Lemma stepped_keys i ca ct s s' :
  (i < Z.to_nat NUM_SHARDS)%nat -> stepped i ca ct s s' ->
  (keys_stored s' + length (shard_cache s i))%nat = (keys_stored s + length ca)%nat.
Proof.
  intros Hi Hs. rewrite <- (st_cache _ _ _ _ _ Hs).
  apply (sum_update (fun i => length (shard_cache s' i)) (fun i => length (shard_cache s i)) i).
  - apply NoDup_seq.
  - apply elem_of_seq. lia.
  - intros j Hj. by rewrite (st_frame _ _ _ _ _ Hs).
Qed.

(** [size] returns their number. *)
Lemma size_keys_stored s : storage_inv s -> storage_size s = Z.of_nat (keys_stored s).
Proof.
  intros Hinv. rewrite (proj1 (storage_size_stored s Hinv)). f_equal. unfold stored.
  rewrite (size_stored_list shardIndex (shards_ s) 0) by (intros i sh k Hi Hk; by eapply si_home).
  unfold keys_stored. rewrite <- (si_shards s Hinv).
  assert (Hsum : forall l off, (forall j sh, l !! j = Some sh -> shards_ s !! (off + j)%nat = Some sh) ->
    sum_list_with shard_size l = sum_list_with (fun i => length (shard_cache s i)) (seq off (length l))).
  { induction l as [|sh l IH]; intros off Hl; [done|]. cbn [sum_list_with length seq]. f_equal.
    - pose proof (Hl 0%nat sh eq_refl) as Hsh. rewrite Nat.add_0_r in Hsh. unfold shard_cache, shard_size.
      rewrite Hsh. symmetry. eapply abs_length. by eapply si_shard.
    - apply IH. intros j sh' Hj. rewrite Nat.add_succ_comm. by apply Hl. }
  by apply Hsum.
Qed.

(** The keys new calls insert and the keys DEL removes, in a run. *)
Fixpoint inserted (cs : list call) s : nat :=
  match cs with
  | [] => 0
  | c :: cs' =>
      inserts c (fun k => bool_decide (is_Some (storage_view s k))) +
      match run_call c s with Ret (_, s') => inserted cs' s' | UB => 0 end
  end.

Fixpoint deleted (cs : list call) (rs : list reply) : nat :=
  match cs, rs with c :: cs', r :: rs' => deletes c r + deleted cs' rs' | _, _ => 0 end.

(** So many keys have expired and so many were evicted, as the counters tell. *)
Definition counted (X E : nat) (ct : Counters) : Prop :=
  expired_keys ct = u64 (Z.of_nat X) /\ evicted_keys ct = u64 (Z.of_nat E).

Lemma counted_add X E nx ne ct :
  counted X E ct -> counted (X + nx) (E + ne) (add_evicted ne (add_expired nx ct)).
Proof.
  unfold add_evicted, add_expired. intros Hc. induction ne as [|ne IH].
  - rewrite Nat.add_0_r. induction nx as [|nx IH]; [by rewrite Nat.add_0_r|]. destruct IH as [IH1 IH2].
    simpl in IH1, IH2. split; [|done]. simpl. rewrite IH1, u64_add_l. f_equal. lia.
  - destruct IH as [IH1 IH2]. split; [done|]. simpl. rewrite IH2, u64_add_l. f_equal. lia.
Qed.

Lemma run_call_balance c s X E :
  storage_inv s -> call_ok s c -> counted X E (counters_ s) ->
  exists r s' X' E', run_call c s = Ret (r, s') /\ storage_inv s' /\ counted X' E' (counters_ s') /\
    (keys_stored s' + deletes c r + X' + E' =
     keys_stored s + inserts c (fun k => bool_decide (is_Some (storage_view s k))) + X + E)%nat.
Proof.
  intros Hinv Hok Hct. pose proof (call_refines s c Hinv Hok) as Hr.
  destruct (spec_call _ _ _) as [[[r ca] nx] ne] eqn:Hspec. destruct Hr as (s' & Hrun & Hs).
  assert (Hi : (target c < Z.to_nat NUM_SHARDS)%nat).
  { destruct c; simpl; try apply shardIndex_lt. destruct Hok as (sh & Hsh & _).
    rewrite <- (si_shards s Hinv). by eapply lookup_lt_Some. }
  destruct (lookup_lt_is_Some_2 (shards_ s) (target c)) as [sh Hsh]; [by rewrite (si_shards s Hinv)|].
  pose proof (si_shard s Hinv _ sh Hsh) as Hshard.
  assert (Hca : shard_cache s (target c) = abs sh) by (unfold shard_cache; by rewrite Hsh).
  assert (Hpos : 1 <= max_keys_per_shard_ s) by (rewrite (si_per_shard s Hinv); lia).
  pose proof (inv_capacity _ _ Hshard) as Hcap. pose proof (stepped_keys _ _ _ _ _ Hi Hs) as Hkeys.
  rewrite Hca in Hspec, Hkeys. apply spec_call_balance in Hspec as Hbal;
    [|lia|rewrite (abs_length _ _ Hshard); lia|by eapply abs_NoDup].
  exists r, s', (X + nx)%nat, (E + ne)%nat. split; [done|]. split; [apply Hs|].
  split; [rewrite (st_counters _ _ _ _ _ Hs); by apply counted_add|].
  assert (Hins : inserts c (cached (abs sh)) = inserts c (fun k => bool_decide (is_Some (storage_view s k)))).
  { rewrite <- Hca. destruct c; simpl; unfold cached; try done; by rewrite storage_view_cache. }
  rewrite <- Hins. lia.
Qed.

Lemma run_calls_balance cs s X E :
  storage_inv s -> calls_ok cs s -> counted X E (counters_ s) ->
  exists rs s' X' E', run_calls cs s = Ret (rs, s') /\ storage_inv s' /\ counted X' E' (counters_ s') /\
    (keys_stored s' + deleted cs rs + X' + E' = keys_stored s + inserted cs s + X + E)%nat.
Proof.
  revert s X E. induction cs as [|c cs IH]; intros s X E Hinv Hok Hct; simpl.
  { by exists [], s, X, E. }
  destruct Hok as [Hok Hoks].
  destruct (run_call_balance c s X E Hinv Hok Hct) as (r & s1 & X1 & E1 & Hrun & Hinv1 & Hct1 & Hbal).
  destruct (IH s1 X1 E1 Hinv1 (Hoks _ _ Hrun) Hct1) as (rs & s' & X' & E' & Hruns & Hinv' & Hct' & Hbal').
  exists (r :: rs), s', X', E'. rewrite Hrun. simpl. rewrite Hruns. split; [done|]. split; [done|]. split; [done|].
  lia.
Qed.

(** C19: The books balance: after any operations on a fresh storage, by any threads, sweeps
    included, whose deadlines fit the clock and that insert fewer than [2^64] keys, the number of keys that were inserted is the number stored, as [size]
    reports it, plus the number deleted with DEL, plus the two counters. *)
Theorem keys_balance max_keys cs :
  0 <= max_keys < 2 ^ 64 -> calls_ok cs (new_storage max_keys) ->
  Z.of_nat (inserted cs (new_storage max_keys)) < 2 ^ 64 ->
  exists rs s, run_calls cs (new_storage max_keys) = Ret (rs, s) /\
    Z.of_nat (inserted cs (new_storage max_keys)) =
      storage_size s + Z.of_nat (deleted cs rs) + expiredKeysCount s + evictedKeysCount s.
Proof.
  intros Hm Hok Hlt. pose proof (new_storage_inv max_keys Hm) as Hinv0.
  destruct (run_calls_balance cs (new_storage max_keys) 0 0 Hinv0 Hok) 
    as (rs & s & X & E & Hrun & Hinv & [HX HE] & Hb); [done|].
  exists rs, s. split; [done|]. unfold expiredKeysCount, evictedKeysCount. rewrite HX, HE, (size_keys_stored s Hinv).
  assert (H0 : Z.of_nat (keys_stored (new_storage max_keys)) = 0) by (by rewrite <- size_keys_stored).
  rewrite !u64_small by lia. lia.
Qed.
End balance.
