(* ===== verification/Expiration.v ===== *)
(** * The expiration thread ([src/storage/sharded_storage.cpp])

    [startExpirationSweep] starts a [std::jthread] that runs [expirationLoop];
    [stopExpirationSweep], which the destructor calls, asks it to stop and joins it.  The
    thread takes the mutex of one shard at a time, so its steps interleave with the calls
    of other threads; it polls its stop token, so a stop does not interrupt a sweep or the
    sleep. *)

From S2P Require Import Prelude Cpp StdList Lru Shard StorageInterface ShardedStorage StorageFacts.
Local Open Scope Z_scope.

(** ** The thread *)

(** Before the test of the outer loop, before the test of the inner one at a shard, before
    the sweep of a shard, asleep, returned. *)
Inductive sweeper_pc : Type := AtLoop | AtShard (i : nat) | AtSweep (i : nat) | AtSleep | AtEnd.

Record Sweeper : Type := mkSweeper { pc : sweeper_pc; stop_requested : bool }.

(** The storage and its thread; [expiration_thread_] of the storage says whether it is
    joinable. *)
Record SweepSystem : Type := mkSweepSystem { sw_storage : ShardedStorage; sweeper : option Sweeper }.

Inductive sweep_event : Type :=
| SwCall (c : call)                            (* an operation of another thread *)
| SwStart                                      (* [startExpirationSweep] *)
| SwRequest                                    (* [request_stop], in [stopExpirationSweep] *)
| SwJoin                                       (* [join], in [stopExpirationSweep] *)
| SwThread (now : Z) (order : list bytes).     (* the next step of [expirationLoop] *)

Section thread.
Context `{StdHash}.
Implicit Types (st : SweepSystem) (s : ShardedStorage).

Definition expirationLoop_step (now : Z) (order : list bytes) (t : Sweeper) s
    : option (outcome (Sweeper * ShardedStorage)) :=
  let goto p := mkSweeper p (stop_requested t) in
  match pc t with
  | AtLoop => Some (Ret (goto (if stop_requested t then AtEnd else AtShard 0), s))
  | AtShard i =>
      Some (Ret (goto (if (i <? length (shards_ s))%nat
                       then (if stop_requested t then AtSleep else AtSweep i) else AtSleep), s))
  | AtSweep i => Some (s' ← storage_sweep i now order s; Ret (goto (AtShard (S i)), s'))
  | AtSleep => Some (Ret (goto AtLoop, s))
  | AtEnd => None
  end.

(** [None] when the step is not possible, as a [join] of a thread that has not returned. *)
Definition sweep_exec (e : sweep_event) st : option (outcome SweepSystem) :=
  let s := sw_storage st in
  match e with
  | SwCall c => Some ('(_, s') ← run_call c s; Ret (mkSweepSystem s' (sweeper st)))
  | SwStart =>
      if negb (expiration_thread_ s)
      then Some (Ret (mkSweepSystem (startExpirationSweep s) (Some (mkSweeper AtLoop false))))
      else Some (Ret st)
  | SwRequest =>
      if expiration_thread_ s
      then t ← sweeper st; Some (Ret (mkSweepSystem s (Some (mkSweeper (pc t) true))))
      else Some (Ret st)
  | SwJoin =>
      if expiration_thread_ s
      then t ← sweeper st;
           match pc t with AtEnd => Some (Ret (mkSweepSystem (stopExpirationSweep s) None)) | _ => None end
      else Some (Ret st)
  | SwThread now order =>
      t ← sweeper st; o ← expirationLoop_step now order t s;
      Some ('(t', s') ← o; Ret (mkSweepSystem s' (Some t')))
  end.

Fixpoint sweep_run (es : list sweep_event) st : option (outcome SweepSystem) :=
  match es with
  | [] => Some (Ret st)
  | e :: es' => o ← sweep_exec e st; match o with Ret st' => sweep_run es' st' | UB => Some UB end
  end.



(** ** Invariant *)








(** ** A pass *)

(** The steps of a pass over the shards from [i] on, with no call in between. *)
Definition pass_steps (env : list (bool * Z * list bytes)) : list sweep_event :=
  env ≫= fun x => [SwThread x.1.2 x.2; SwThread x.1.2 x.2].

(** They are the inner loop of [expirationLoop] as [expirationPass] has it. *)
Lemma pass_runs i env s s' :
  Forall (fun x => x.1.1 = false) env -> (i + length env <= length (shards_ s))%nat ->
  expirationPass i env s = Ret s' ->
  sweep_run (pass_steps env) (mkSweepSystem s (Some (mkSweeper (AtShard i) false))) =
    Some (Ret (mkSweepSystem s' (Some (mkSweeper (AtShard (i + length env)) false)))).
Proof.
  revert i s. induction env as [|[[b now] order] env IH]; intros i s Hb Hi Hp.
  { injection Hp as ->. by rewrite Nat.add_0_r. }
  apply Forall_cons in Hb as [Hb1 Hb]. simpl in Hb1, Hi. subst b. cbn [expirationPass] in Hp.
  unfold pass_steps in *. rewrite bind_cons. cbn [app sweep_run sweep_exec sweeper sw_storage mbind option_bind fst snd].
  cbn [expirationLoop_step pc stop_requested mbind option_bind outcome_bind sweep_run sweep_exec sweeper sw_storage].
  destruct (Nat.ltb_spec i (length (shards_ s))) as [_|]; [|lia].
  apply bind_Ret_inv in Hp as (s1 & Hs & Hp). cbn. rewrite Hs. cbn [mbind outcome_bind].
  rewrite (IH (S i) s1); [by rewrite <- Nat.add_succ_comm|done| |done].
  unfold storage_sweep in Hs. apply bind_Ret_inv in Hs as (sh & _ & Hs).
  apply bind_Ret_inv in Hs as ([sh' ct] & _ & [= <-]). simpl. rewrite length_insert. lia.
Qed.

(** ** Stopping *)









End thread.
