(* ===== verification/StorageCommute.v ===== *)
(** * The shards are independent

    [include/storage/sharded_storage.h] finds the shard of a key with a bitwise AND
    instead of a modulo; calls on different shards lock different mutexes and may run at
    the same time.  The theorem says that their order does not matter: the two orders
    give the same replies and the same storage, counters included. *)

From S2P Require Import Prelude Cpp StdList Lru Shard StorageInterface ShardedStorage.
Local Open Scope Z_scope.

Section commute.
Context `{StdHash}.

(** The shard of a key is its hash modulo the number of shards. *)
Lemma shardIndex_mod k : Z.of_nat (shardIndex k) = std_hash k mod NUM_SHARDS.
Proof.
  unfold shardIndex, NUM_SHARDS. change (16 - 1) with (Z.ones 4). rewrite Z.land_ones by lia.
  apply Z2Nat.id, Z.mod_pos_bound. lia.
Qed.

(** ** Counters *)

Definition bump (n m : nat) (ct : Counters) : Counters :=
  Nat.iter n count_expired (Nat.iter m count_evicted ct).

Lemma evicted_expired n ct : count_expired (Nat.iter n count_evicted ct) = Nat.iter n count_evicted (count_expired ct).
Proof. induction n as [|n IH]; simpl; [done|]. by rewrite <- IH. Qed.

Lemma iter_swap {A} (f : A -> A) n m x : Nat.iter n f (Nat.iter m f x) = Nat.iter m f (Nat.iter n f x).
Proof. by rewrite <- !Nat.iter_add, Nat.add_comm. Qed.

Lemma evicted_expired_iter n m ct :
  Nat.iter n count_evicted (Nat.iter m count_expired ct) = Nat.iter m count_expired (Nat.iter n count_evicted ct).
Proof. induction m as [|m IH]; simpl; [done|]. by rewrite <- evicted_expired, IH. Qed.

Lemma bump_comm n m n' m' ct : bump n m (bump n' m' ct) = bump n' m' (bump n m ct).
Proof.
  unfold bump. rewrite !evicted_expired_iter, (iter_swap count_expired n n').
  by rewrite (iter_swap count_evicted m m').
Qed.

(** ** What a body does to the counters does not depend on them *)

Definition additive {A} (body : Counters -> outcome (A * Counters)) : Prop :=
  (exists a n m, forall ct, body ct = Ret (a, bump n m ct)) \/ (forall ct, body ct = UB).

Lemma additive_ret {A} (a : A) n m body : (forall ct, body ct = Ret (a, bump n m ct)) -> additive body.
Proof. left. eauto. Qed.

Lemma additive_bind {A B} (m : outcome A) (k : A -> Counters -> outcome (B * Counters)) :
  (forall a, additive (k a)) -> additive (fun ct => a ← m; k a ct).
Proof. intros Hk. destruct m as [a|]; [apply Hk|by right]. Qed.

Lemma additive_then {A B} (body : Counters -> outcome (A * Counters)) (k : A -> Counters -> outcome (B * Counters)) :
  additive body -> (forall a, additive (k a)) -> additive (fun ct => '(a, ct') ← body ct; k a ct').
Proof.
  intros [(a & n & m & Hb)|Hb] Hk; [|right; intros ct; by rewrite Hb].
  destruct (Hk a) as [(b & n' & m' & Hb')|Hb'].
  - left. exists b, (n' + n)%nat, (m' + m)%nat. intros ct. rewrite Hb. simpl. rewrite Hb'. unfold bump.
    rewrite evicted_expired_iter, !Nat.iter_add. done.
  - right. intros ct. rewrite Hb. simpl. apply Hb'.
Qed.

Lemma additive_ext {A} (f g : Counters -> outcome (A * Counters)) :
  (forall ct, f ct = g ct) -> additive f -> additive g.
Proof.
  intros Hfg [(a & n & m & Hb)|Hb]; [left; exists a, n, m|right]; intros ct; by rewrite <- Hfg.
Qed.

Lemma evictLoop_additive cap back d :
  additive (fun ct => evictLoop cap back d ct).
Proof.
  revert d. induction back as [|lru back IH]; intros d; simpl; case_decide; try by right.
  - apply (additive_ret ([], d) 0 0). done.
  - destruct (IH (delete lru.2 d)) as [(a & n & m & Hb)|Hb]; [left|right; intros; apply Hb].
    exists a, n, (S m). intros ct. rewrite Hb. unfold bump. f_equal. f_equal.
    rewrite (Nat.iter_succ_r). done.
  - apply (additive_ret (lru :: back, d) 0 0). done.
Qed.

(** ** The bodies *)

(** The body of a call on its shard; a negative EXPIRE returns before it takes the lock. *)
Definition call_body (c : call) (cap : Z) (sh : Shard) (ct : Counters) : outcome (reply * Shard * Counters) :=
  match c with
  | CallSet k v => '(sh', ct') ← insertOrUpdate cap k v None sh ct; Ret (RUnit, sh', ct')
  | CallSetWithTTL now k v secs => '(sh', ct') ← setWithTTLBody now cap k v secs sh ct; Ret (RUnit, sh', ct')
  | CallGet now k => '(r, sh', ct') ← getBody now k sh ct; Ret (RValue r, sh', ct')
  | CallDel now k => '(r, sh', ct') ← delBody now k sh ct; Ret (RBool r, sh', ct')
  | CallExpire now now2 k secs => '(r, sh', ct') ← expireBody now now2 k secs sh ct; Ret (RBool r, sh', ct')
  | CallTtl now now2 k => '(r, sh', ct') ← ttlBody now now2 k sh ct; Ret (RInt r, sh', ct')
  | CallSweep _ now order => '(sh', ct') ← sweepShard now order sh ct; Ret (RUnit, sh', ct')
  end.

Definition locks (c : call) : bool :=
  match c with CallExpire _ _ _ secs => negb (secs <? 0) | _ => true end.

Lemma run_call_body c s :
  locks c = true ->
  run_call c s =
    sh ← deref (shards_ s !! target c);
    '(r, sh', ct') ← call_body c (max_keys_per_shard_ s) sh (counters_ s);
    Ret (r, set_shard (target c) sh' ct' s).
Proof.
  destruct c; simpl; unfold storage_set, storage_setWithTTL, storage_get, storage_del, storage_expire,
    storage_ttl, storage_sweep, with_shard, getShard; intros Hl;
    try (apply negb_true_iff in Hl; rewrite Hl); destruct (shards_ s !! _); try done; simpl;
    [destruct (insertOrUpdate _ _ _ _ _ _) as [[]|]|destruct (setWithTTLBody _ _ _ _ _ _ _) as [[]|]
    |destruct (getBody _ _ _ _) as [[[]]|]|destruct (delBody _ _ _ _) as [[[]]|]
    |destruct (expireBody _ _ _ _ _ _) as [[[]]|]|destruct (ttlBody _ _ _ _ _) as [[[]]|]
    |destruct (sweepShard _ _ _ _) as [[]|]]; done.
Qed.

Lemma run_call_unlocked c s : locks c = false -> run_call c s = Ret (RBool false, s).
Proof. destruct c; try done. simpl. unfold storage_expire. by destruct (seconds <? 0). Qed.

Lemma removeExpiredEntry_additive k e sh : additive (removeExpiredEntry k e sh).
Proof. apply additive_bind. intros l. by eapply (additive_ret _ 1 0). Qed.

Lemma insertOrUpdate_additive cap k v d sh : additive (insertOrUpdate cap k v d sh).
Proof.
  unfold insertOrUpdate. destruct (data sh !! k).
  - apply additive_bind. intros l. by eapply (additive_ret _ 0 0).
  - apply additive_then; [|intros a; by eapply (additive_ret _ 0 0)]. unfold evictIfNeeded.
    eapply additive_ext; [|apply (additive_then (fun ct => evictLoop cap (reverse (lru_order sh)) (data sh) ct)
      (fun x ct' => Ret (mkShard x.2 (reverse x.1) (next_node sh), ct')))].
    + intros ct. cbv beta. by destruct (evictLoop _ _ _ ct) as [[[]]|].
    + apply evictLoop_additive.
    + intros x. by eapply (additive_ret _ 0 0).
Qed.

Lemma sweepLoop_additive now n order sh : additive (sweepLoop now n order sh).
Proof.
  revert n sh. induction order as [|k order IH]; intros n sh; simpl; [by apply (additive_ret sh 0 0)|].
  destruct (n <? _)%nat; [|by apply (additive_ret sh 0 0)]. apply additive_bind. intros e.
  destruct (isExpired now e); [|apply IH]. apply additive_bind. intros l.
  destruct (IH (S n) (mkShard (delete k (data sh)) l (next_node sh))) as [(a & i & j & Hb)|Hb];
    [left|right; intros; apply Hb].
  exists a, (S i), j. intros ct. rewrite Hb. unfold bump. f_equal. f_equal.
  by rewrite <- evicted_expired, Nat.iter_succ_r.
Qed.

Lemma call_body_additive c cap sh : additive (call_body c cap sh).
Proof.
  assert (Hpair : forall (f : Counters -> outcome (Shard * Counters)),
    additive f -> additive (fun ct => '(sh', ct') ← f ct; Ret (RUnit, sh', ct'))).
  { intros f Hf. apply (additive_then f (fun sh' ct' => Ret (RUnit, sh', ct'))); [done|].
    intros a. by eapply (additive_ret _ 0 0). }
  assert (Htriple : forall A (g : A -> reply) (f : Counters -> outcome (A * Shard * Counters)),
    additive f -> additive (fun ct => '(r, sh', ct') ← f ct; Ret (g r, sh', ct'))).
  { intros A g f Hf. eapply additive_ext; [|apply (additive_then f (fun x ct' => Ret (g x.1, x.2, ct')))].
    - intros ct. cbv beta. by destruct (f ct) as [[[]]|].
    - done.
    - intros x. by eapply (additive_ret _ 0 0). }
  assert (Hexp : forall A (r : A) k e,
    additive (fun ct => '(sh', ct') ← removeExpiredEntry k e sh ct; Ret (r, sh', ct'))).
  { intros A r k e. apply (additive_then _ (fun sh' ct' => Ret (r, sh', ct'))).
    - apply removeExpiredEntry_additive.
    - intros a. by eapply (additive_ret _ 0 0). }
  destruct c as [k v|now k v secs|now k|now k|now now2 k secs|now now2 k|i now order];
    [apply Hpair|apply Hpair|apply Htriple|apply Htriple|apply Htriple|apply Htriple|apply Hpair].
  - apply insertOrUpdate_additive.
  - unfold setWithTTLBody. destruct (secs <? 0); [|apply additive_bind; intros]; apply insertOrUpdate_additive.
  - unfold getBody. destruct (data sh !! k) as [e|]; [|by eapply (additive_ret _ 0 0)].
    destruct (isExpired now e); [apply Hexp|]. apply additive_bind. intros l. by eapply (additive_ret _ 0 0).
  - unfold delBody. destruct (data sh !! k) as [e|]; [|by eapply (additive_ret _ 0 0)].
    destruct (isExpired now e); [apply Hexp|]. apply additive_bind. intros l. by eapply (additive_ret _ 0 0).
  - unfold expireBody. destruct (data sh !! k) as [e|]; [|by eapply (additive_ret _ 0 0)].
    destruct (isExpired now e); [apply Hexp|]. apply additive_bind. intros l. by eapply (additive_ret _ 0 0).
  - unfold ttlBody. destruct (data sh !! k) as [e|]; [|by eapply (additive_ret _ 0 0)].
    destruct (isExpired now e); [apply Hexp|]. destruct (expires_at e); [|by eapply (additive_ret _ 0 0)].
    apply additive_bind. intros l. by eapply (additive_ret _ 0 0).
  - apply sweepLoop_additive.
Qed.

(** ** Two calls *)

(** Two calls one after the other: the replies and the storage. *)
Definition run_two (c1 c2 : call) (s : ShardedStorage) : outcome (reply * reply * ShardedStorage) :=
  '(r1, s1) ← run_call c1 s; '(r2, s2) ← run_call c2 s1; Ret (r1, r2, s2).

Definition swap_replies (x : reply * reply * ShardedStorage) : reply * reply * ShardedStorage :=
  (x.1.2, x.1.1, x.2).

(** C13: Calls on different shards commute: whichever comes first, each gets the same reply,
    and the contents, the recency order and the counters end up the same; one order is
    undefined exactly when the other is. *)
Theorem shards_commute c1 c2 s :
  target c1 <> target c2 -> run_two c1 c2 s = swap_replies <$> run_two c2 c1 s.
Proof.
  intros Hne. unfold run_two.
  destruct (locks c1) eqn:L1; [|rewrite !(run_call_unlocked c1) by done; cbn [mbind outcome_bind];
    destruct (run_call c2 s) as [[r2 s2]|]; cbn [mbind outcome_bind]; [|done];
    by rewrite run_call_unlocked].
  destruct (locks c2) eqn:L2; [|rewrite !(run_call_unlocked c2) by done; cbn [mbind outcome_bind];
    destruct (run_call c1 s) as [[r1 s1]|]; cbn [mbind outcome_bind]; [|done];
    by rewrite run_call_unlocked].
  rewrite (run_call_body c1 s L1), (run_call_body c2 s L2).
  destruct (shards_ s !! target c1) as [sh1|] eqn:E1; cbn [deref mbind outcome_bind].
  2:{ destruct (shards_ s !! target c2) as [sh2|]; [|done]. simpl.
      destruct (call_body c2 _ sh2 _) as [[[r2 sh2'] ct2]|]; [|done]. simpl.
      rewrite run_call_body by done. simpl. by rewrite list_lookup_insert_ne, E1 by done. }
  destruct (shards_ s !! target c2) as [sh2|] eqn:E2; cbn [deref mbind outcome_bind].
  2:{ destruct (call_body c1 _ sh1 _) as [[[r1 sh1'] ct1]|]; [|done]. simpl.
      rewrite run_call_body by done. simpl. by rewrite list_lookup_insert_ne, E2 by done. }
  set (cap := max_keys_per_shard_ s).
  destruct (call_body_additive c1 cap sh1) as [([r1 sh1'] & n1 & m1 & H1)|H1],
    (call_body_additive c2 cap sh2) as [([r2 sh2'] & n2 & m2 & H2)|H2];
    rewrite ?H1, ?H2; cbn [mbind outcome_bind]; rewrite ?run_call_body by done; simpl;
    rewrite ?list_lookup_insert_ne, ?E1, ?E2 by done; simpl; fold cap; rewrite ?H1, ?H2; try done.
  simpl. unfold swap_replies, set_shard. simpl. do 2 f_equal.
  by rewrite bump_comm, list_insert_insert_ne by done.
Qed.
End commute.
