(* ===== verification/AofWriter.v ===== *)
(** * The append-only file writer ([src/storage/aof_writer.cpp],
    [include/storage/aof_writer.h])

    Producers check two flags and push lines to a queue under a mutex; a background
    thread takes the whole queue as a batch and writes it to an output stream; [stop]
    asks the thread to finish, joins it and closes the stream.  [aof_exec] is one
    atomic action of one of these threads; what the operating system answers to a
    write is an argument of the action. *)

From S2P Require Import Prelude Cpp AofFormat.
Local Open Scope Z_scope.

(** ** State *)

(** [std::ofstream]: what its buffer holds and what has reached the file. *)
Record OFStream : Type := mkOFStream {
  is_open : bool;
  good : bool;
  buffered : bytes;
  disk : bytes
}.

(** Where the background thread is. *)
Inductive WriterThread : Type :=
| NotStarted
| Waiting
| Writing (batch : list bytes)
| Exited.

(** [pushing_] holds the lines of producers between their check of [stopped_] and
    their push; [stop_requested_] is the thread's stop token. *)
Record AOFWriter : Type := mkAOFWriter {
  fsync_interval_ : Z;
  queue_ : list bytes;
  thread_ : WriterThread;
  stop_requested_ : bool;
  enabled_ : bool;
  stopped_ : bool;
  written_count_ : Z;
  file_ : option OFStream;
  last_fsync_ : Z;
  pushing_ : list bytes
}.

Definition new_writer (now fsync_interval : Z) : AOFWriter :=
  mkAOFWriter fsync_interval [] NotStarted false true false 0 None now [].

Section setters.
Implicit Types w : AOFWriter.

Definition set_queue (q : list bytes) w : AOFWriter :=
  mkAOFWriter (fsync_interval_ w) q (thread_ w) (stop_requested_ w) (enabled_ w) (stopped_ w)
    (written_count_ w) (file_ w) (last_fsync_ w) (pushing_ w).
Definition set_writer_thread (t : WriterThread) w : AOFWriter :=
  mkAOFWriter (fsync_interval_ w) (queue_ w) t (stop_requested_ w) (enabled_ w) (stopped_ w)
    (written_count_ w) (file_ w) (last_fsync_ w) (pushing_ w).
Definition set_stop_requested (b : bool) w : AOFWriter :=
  mkAOFWriter (fsync_interval_ w) (queue_ w) (thread_ w) b (enabled_ w) (stopped_ w)
    (written_count_ w) (file_ w) (last_fsync_ w) (pushing_ w).
Definition set_stopped (b : bool) w : AOFWriter :=
  mkAOFWriter (fsync_interval_ w) (queue_ w) (thread_ w) (stop_requested_ w) (enabled_ w) b
    (written_count_ w) (file_ w) (last_fsync_ w) (pushing_ w).
Definition set_file (f : option OFStream) w : AOFWriter :=
  mkAOFWriter (fsync_interval_ w) (queue_ w) (thread_ w) (stop_requested_ w) (enabled_ w)
    (stopped_ w) (written_count_ w) f (last_fsync_ w) (pushing_ w).
Definition set_written (n : Z) w : AOFWriter :=
  mkAOFWriter (fsync_interval_ w) (queue_ w) (thread_ w) (stop_requested_ w) (enabled_ w)
    (stopped_ w) n (file_ w) (last_fsync_ w) (pushing_ w).
Definition set_last_fsync (t : Z) w : AOFWriter :=
  mkAOFWriter (fsync_interval_ w) (queue_ w) (thread_ w) (stop_requested_ w) (enabled_ w)
    (stopped_ w) (written_count_ w) (file_ w) t (pushing_ w).
Definition set_pushing (l : list bytes) w : AOFWriter :=
  mkAOFWriter (fsync_interval_ w) (queue_ w) (thread_ w) (stop_requested_ w) (enabled_ w)
    (stopped_ w) (written_count_ w) (file_ w) (last_fsync_ w) l.

(** ** Operations *)

Definition setEnabled (b : bool) w : AOFWriter :=
  mkAOFWriter (fsync_interval_ w) (queue_ w) (thread_ w) (stop_requested_ w) b (stopped_ w)
    (written_count_ w) (file_ w) (last_fsync_ w) (pushing_ w).

Definition isEnabled w : bool := enabled_ w.
Definition pendingCount w : Z := Z.of_nat (length (queue_ w)).
Definition writtenCount w : Z := written_count_ w.

(** A call of [enqueue] that is not interleaved with another thread. *)
Definition enqueue (command : bytes) w : AOFWriter :=
  if stopped_ w then w else set_queue (queue_ w ++ [command]) w.

Definition logSet (key val : bytes) w : AOFWriter :=
  if enabled_ w then enqueue (setLine key val) w else w.
Definition logDel (key : bytes) w : AOFWriter :=
  if enabled_ w then enqueue (delLine key) w else w.
Definition logExpire (key : bytes) (seconds : Z) w : AOFWriter :=
  if enabled_ w then enqueue (expireLine key seconds) w else w.

(** [start()]: open in append mode and start the thread; [None] is the exception when
    the file, whose contents are [existing], cannot be opened. *)
Definition aof_start (existing : option bytes) w : option AOFWriter :=
  match existing with
  | None => None
  | Some contents =>
      Some (set_writer_thread Waiting (set_file (Some (mkOFStream true true [] contents)) w))
  end.
End setters.

(** The operating system's answer to a write: all of it, or an error after [n] bytes. *)
Inductive io_result : Type :=
| IoOk
| IoFail (n : nat).

(** A line of the file. *)
Definition render (cmd : bytes) : bytes := cmd ++ [ch_nl].

(** Inserting a line in the stream: an insertion on a bad stream does nothing. *)
Definition put_line (io : io_result) (cmd : bytes) (f : OFStream) : OFStream :=
  if good f then
    match io with
    | IoOk => mkOFStream (is_open f) true (buffered f ++ render cmd) (disk f)
    | IoFail n => mkOFStream (is_open f) false (buffered f ++ take n (render cmd)) (disk f)
    end
  else f.

Definition flush (io : io_result) (f : OFStream) : OFStream :=
  if good f then
    match io with
    | IoOk => mkOFStream (is_open f) true [] (disk f ++ buffered f)
    | IoFail n =>
        mkOFStream (is_open f) false (drop n (buffered f)) (disk f ++ take n (buffered f))
    end
  else f.

(** The loop over a batch: it stops at the first line that leaves the stream bad. *)
Fixpoint write_lines (batch : list bytes) (io : list io_result) (f : OFStream) (written : Z)
    : OFStream * Z :=
  match batch with
  | [] => (f, written)
  | cmd :: batch' =>
      let f' := put_line (default IoOk (head io)) cmd f in
      if good f' then write_lines batch' (tail io) f' (u64 (written + 1)) else (f', written)
  end.

(** The locked part of an iteration of [writerLoop], once the wait has ended (on a
    command, on a stop request or on the time-out). *)
Definition take_batch (w : AOFWriter) : AOFWriter :=
  if stop_requested_ w && bool_decide (queue_ w = [])
  then set_writer_thread Exited w
  else set_writer_thread (Writing (queue_ w)) (set_queue [] w).

(** The rest of the iteration, outside the lock. *)
Definition write_batch (io : list io_result) (fio : io_result) (now : Z) (batch : list bytes)
    (w : AOFWriter) : AOFWriter :=
  let w := set_writer_thread Waiting w in
  match file_ w with
  | None => w
  | Some f =>
      if is_open f then
        let '(f', written) := write_lines batch io f (written_count_ w) in
        let w := set_written written w in
        if negb (bool_decide (batch = [])) || (fsync_interval_ w <=? now - last_fsync_ w)
        then set_last_fsync now (set_file (Some (flush fio f')) w)
        else set_file (Some f') w
      else w
  end.

(** [file_->flush(); file_->close()] at the end of [stop]; closing writes the buffer. *)
Definition close_file (fio : io_result) (w : AOFWriter) : AOFWriter :=
  match file_ w with
  | Some f =>
      if is_open f then
        let f' := flush fio f in
        set_file (Some (mkOFStream false (good f') (buffered f') (disk f'))) w
      else w
  | None => w
  end.

(** ** Interleavings *)

Inductive aof_event : Type :=
| EvCheck (cmd : bytes)        (* a producer passes the checks of [logX] and [enqueue] *)
| EvPush (cmd : bytes)         (* and pushes its line under the mutex *)
| EvSetEnabled (b : bool)
| EvStopStore                  (* [stop]: [stopped_.store(true)] *)
| EvStopRequest                (* [stop]: [request_stop()] *)
| EvTake                       (* the thread's locked section *)
| EvWrite (io : list io_result) (fio : io_result) (now : Z)
| EvSpill (n : nat)            (* the stream writes part of its buffer on its own *)
| EvStopFinish (fio : io_result). (* [stop]: after the join *)

Definition spill (n : nat) (f : OFStream) : OFStream :=
  mkOFStream (is_open f) (good f) (drop n (buffered f)) (disk f ++ take n (buffered f)).

(** Remove one occurrence. *)
Fixpoint remove_one (x : bytes) (l : list bytes) : option (list bytes) :=
  match l with
  | [] => None
  | y :: l' => if decide (x = y) then Some l' else (y ::.) <$> remove_one x l'
  end.

(** One action; [None] when it is not possible in the state. *)
Definition aof_exec (e : aof_event) (w : AOFWriter) : option AOFWriter :=
  match e with
  | EvCheck cmd =>
      if enabled_ w && negb (stopped_ w) then Some (set_pushing (cmd :: pushing_ w) w) else None
  | EvPush cmd =>
      l ← remove_one cmd (pushing_ w);
      Some (set_queue (queue_ w ++ [cmd]) (set_pushing l w))
  | EvSetEnabled b => Some (setEnabled b w)
  | EvStopStore => Some (set_stopped true w)
  | EvStopRequest => if stopped_ w then Some (set_stop_requested true w) else None
  | EvTake =>
      match thread_ w with Waiting => Some (take_batch w) | _ => None end
  | EvWrite io fio now =>
      match thread_ w with Writing batch => Some (write_batch io fio now batch w) | _ => None end
  | EvSpill n => Some (set_file (spill n <$> file_ w) w)
  | EvStopFinish fio =>
      match thread_ w with
      | NotStarted | Exited => if stopped_ w then Some (close_file fio w) else None
      | _ => None
      end
  end.

Fixpoint aof_run (es : list aof_event) (w : AOFWriter) : option AOFWriter :=
  match es with
  | [] => Some w
  | e :: es' => w' ← aof_exec e w; aof_run es' w'
  end.

(** ** Invariants *)

(** The bytes a list of lines makes. *)
Definition lines_text (cmds : list bytes) : bytes := concat (map render cmds).

(** What the stream has been given. *)
Definition text (w : AOFWriter) : bytes :=
  match file_ w with Some f => disk f ++ buffered f | None => [] end.

Definition in_progress (w : AOFWriter) : list bytes :=
  match thread_ w with Writing batch => batch | _ => [] end.

(** The lines producers pushed in a run, in order. *)
Fixpoint pushed (es : list aof_event) : list bytes :=
  match es with
  | [] => []
  | EvPush cmd :: es' => cmd :: pushed es'
  | _ :: es' => pushed es'
  end.

(** An action in which the operating system writes what it is given. *)
Definition healthy (e : aof_event) : Prop :=
  match e with
  | EvWrite io fio _ => Forall (eq IoOk) io /\ fio = IoOk
  | EvStopFinish fio => fio = IoOk
  | _ => True
  end.

(** The stream is good, and open for as long as the thread may write to it. *)
Definition writer_ok (w : AOFWriter) : Prop :=
  exists f, file_ w = Some f /\ good f = true /\ thread_ w <> NotStarted /\
    (is_open f = false -> thread_ w = Exited /\ buffered f = []).

Lemma lines_text_app l1 l2 : lines_text (l1 ++ l2) = lines_text l1 ++ lines_text l2.
Proof. unfold lines_text. by rewrite map_app, concat_app. Qed.

Lemma write_lines_ok batch io f n :
  good f = true -> Forall (eq IoOk) io ->
  exists n', write_lines batch io f n =
    (mkOFStream (is_open f) true (buffered f ++ lines_text batch) (disk f), n') /\
    u64 n' = u64 (n + Z.of_nat (length batch)).
Proof.
  revert io f n. induction batch as [|cmd batch IH]; intros io f n Hg Hio; simpl.
  - exists n. unfold lines_text. simpl. rewrite app_nil_r, Z.add_0_r.
    destruct f; simpl in *; by subst.
  - assert (Hhd : default IoOk (head io) = IoOk) by (by destruct Hio as [|? ? <-]).
    rewrite Hhd. unfold put_line. rewrite Hg. simpl.
    destruct (IH (tail io) (mkOFStream (is_open f) true (buffered f ++ render cmd) (disk f))
      (u64 (n + 1))) as (n' & -> & Hn'); [done|by destruct Hio|]. simpl.
    exists n'. rewrite <- app_assoc. split; [done|]. rewrite Hn', u64_add_l. f_equal. lia.
Qed.

Lemma flush_ok f :
  good f = true -> flush IoOk f = mkOFStream (is_open f) true [] (disk f ++ buffered f).
Proof. unfold flush. by intros ->. Qed.

(** Writing a batch to a healthy stream appends exactly its lines. *)
Lemma write_batch_ok io fio now batch w f :
  file_ w = Some f -> good f = true -> is_open f = true -> Forall (eq IoOk) io -> fio = IoOk ->
  exists f' w', write_batch io fio now batch w = w' /\ file_ w' = Some f' /\ good f' = true /\
    is_open f' = true /\ disk f' ++ buffered f' = disk f ++ buffered f ++ lines_text batch /\
    thread_ w' = Waiting /\ queue_ w' = queue_ w /\ pushing_ w' = pushing_ w /\
    stopped_ w' = stopped_ w /\ stop_requested_ w' = stop_requested_ w /\
    u64 (written_count_ w') = u64 (written_count_ w + Z.of_nat (length batch)).
Proof.
  intros Hf Hg Ho Hio ->. unfold write_batch. simpl. rewrite Hf, Ho.
  destruct (write_lines_ok batch io f (written_count_ w) Hg Hio) as (n' & -> & Hn').
  destruct (_ || _); simpl; do 2 eexists; (split; [done|]); (split; [done|]).
  - rewrite flush_ok by done. simpl. rewrite Ho, app_nil_r, app_assoc. done.
  - rewrite Ho. done.
Qed.

(** Close [writer_ok] with the stream [f], whose closing state is known. *)
Local Ltac stream_ok f :=
  exists f; split; [done|]; split; [done|]; split; [done|];
  let Hc := fresh in intros Hc;
  match goal with Ho : is_open f = false -> _ |- _ => by destruct (Ho Hc) end.

(** One healthy action keeps the stream usable, and what the stream was given plus
    what is still to be written grows by the line pushed, if any. *)
Lemma aof_exec_text e w w' :
  healthy e -> writer_ok w -> aof_exec e w = Some w' ->
  writer_ok w' /\
  text w' ++ lines_text (in_progress w' ++ queue_ w') =
    text w ++ lines_text (in_progress w ++ queue_ w) ++ lines_text (pushed [e]).
Proof.
  intros Hh (f & Hf & Hg & Hns & Ho) He. unfold writer_ok, text, in_progress.
  destruct e; simpl in *; rewrite ?app_nil_r.
  - case_match; simplify_eq. simpl. rewrite Hf. split; [stream_ok f|done].
  - destruct (remove_one cmd (pushing_ w)) as [l|]; simplify_eq/=. rewrite Hf.
    split; [stream_ok f|]. by rewrite !lines_text_app, !app_assoc.
  - simplify_eq. simpl. rewrite Hf. split; [stream_ok f|done].
  - simplify_eq. simpl. rewrite Hf. split; [stream_ok f|done].
  - case_match; simplify_eq. simpl. rewrite Hf. split; [stream_ok f|done].
  - destruct (thread_ w) eqn:Ht; simplify_eq. unfold take_batch.
    destruct (stop_requested_ w && bool_decide (queue_ w = [])) eqn:Eq; simpl; rewrite Hf.
    + split; [stream_ok f|done].
    + rewrite app_nil_r. split; [stream_ok f|done].
  - destruct (thread_ w) eqn:Ht; simplify_eq. destruct Hh as [Hio Hfio].
    assert (Hop : is_open f = true) by (destruct (is_open f); [done|by destruct (Ho eq_refl)]).
    destruct (write_batch_ok io fio now batch w f Hf Hg Hop Hio Hfio)
      as (f' & w' & -> & Hf' & Hg' & Ho' & Htxt & Ht' & Hq & _). rewrite Hf', Ht', Hq, Hf.
    split; [exists f'; repeat split; try done; congruence|].
    rewrite Htxt. simpl. by rewrite lines_text_app, !app_assoc.
  - simplify_eq. simpl. rewrite Hf. simpl. split.
    { exists (spill n f). split; [done|]. split; [done|]. split; [done|]. simpl. intros Hc.
      destruct (Ho Hc) as [? ->]. by rewrite drop_nil. }
    unfold spill. simpl. by rewrite <- !app_assoc, (app_assoc (take _ _)), take_drop.
  - assert (Hc : close_file fio w = w' /\ thread_ w = Exited)
      by (destruct (thread_ w); try done; case_match; by simplify_eq).
    destruct Hc as [<- Ht]. unfold close_file. rewrite Hf. destruct (is_open f) eqn:Hop.
    + rewrite Hh, flush_ok by done. simpl. rewrite Ht, app_nil_r. split; [by eexists|done].
    + rewrite Hf, Ht. split; [|done]. exists f. by destruct (Ho eq_refl).
Qed.

Lemma aof_run_text es w w' :
  Forall healthy es -> writer_ok w -> aof_run es w = Some w' ->
  writer_ok w' /\
  text w' ++ lines_text (in_progress w' ++ queue_ w') =
    text w ++ lines_text (in_progress w ++ queue_ w) ++ lines_text (pushed es).
Proof.
  revert w. induction es as [|e es IH]; intros w Hh Hok Hrun; simpl in *.
  - simplify_eq. split; [done|]. unfold lines_text at 3. simpl. by rewrite app_nil_r.
  - apply Forall_cons in Hh as [He Hh]. apply bind_Some in Hrun as (w1 & He1 & Hrun).
    destruct (aof_exec_text e w w1 He Hok He1) as [Hok1 Ht1].
    destruct (IH w1 Hh Hok1 Hrun) as [Hok' Ht']. split; [done|]. rewrite Ht'.
    rewrite app_assoc, Ht1, <- !app_assoc. do 2 f_equal.
    destruct e; simpl; try done. unfold lines_text. simpl. by rewrite app_nil_r.
Qed.

(** Flags: a stop is requested only after [stopped_] is set, and the thread exits
    only on a request. *)
Definition flags_ok (w : AOFWriter) : Prop :=
  (stop_requested_ w = true -> stopped_ w = true) /\
  (thread_ w = Exited -> stop_requested_ w = true).

(** After the last producer is done: nothing can be pushed, and an exited thread left
    an empty queue. *)
Definition drained (w : AOFWriter) : Prop :=
  stopped_ w = true /\ pushing_ w = [] /\ (thread_ w = Exited -> queue_ w = []).

Lemma write_batch_frame io fio now batch w :
  let w' := write_batch io fio now batch w in
  thread_ w' = Waiting /\ queue_ w' = queue_ w /\ pushing_ w' = pushing_ w /\
  stopped_ w' = stopped_ w /\ stop_requested_ w' = stop_requested_ w.
Proof.
  cbv zeta. unfold write_batch. simpl. destruct (file_ w) as [f|]; [|done].
  destruct (is_open f); [|done]. destruct (write_lines _ _ _ _). by case_match.
Qed.

Lemma close_file_frame fio w :
  let w' := close_file fio w in
  thread_ w' = thread_ w /\ queue_ w' = queue_ w /\ pushing_ w' = pushing_ w /\
  stopped_ w' = stopped_ w /\ stop_requested_ w' = stop_requested_ w.
Proof. cbv zeta. unfold close_file. by repeat case_match. Qed.

Lemma aof_exec_flags e w w' : flags_ok w -> aof_exec e w = Some w' -> flags_ok w'.
Proof.
  unfold flags_ok. intros [H1 H2] He. destruct e; simpl in He.
  - case_match; simplify_eq. done.
  - apply bind_Some in He as (l & _ & [= <-]). done.
  - by simplify_eq.
  - simplify_eq. done.
  - case_match; simplify_eq. done.
  - destruct (thread_ w); simplify_eq. unfold take_batch.
    destruct (stop_requested_ w) eqn:Es; simpl; repeat case_match; simpl; rewrite ?Es; done.
  - destruct (thread_ w); simplify_eq.
    destruct (write_batch_frame io fio now batch w) as (-> & _ & _ & -> & ->). done.
  - by simplify_eq.
  - assert (Hc : close_file fio w = w') by (destruct (thread_ w); try done; case_match; by simplify_eq).
    subst. destruct (close_file_frame fio w) as (-> & _ & _ & -> & ->). done.
Qed.

Lemma aof_exec_drained e w w' : drained w -> aof_exec e w = Some w' -> drained w'.
Proof.
  unfold drained. intros (H1 & H2 & H3) He. destruct e; simpl in He.
  - by rewrite H1, andb_false_r in He.
  - by rewrite H2 in He.
  - by simplify_eq.
  - by simplify_eq.
  - case_match; by simplify_eq.
  - destruct (thread_ w); simplify_eq. unfold take_batch.
    destruct (_ && _) eqn:E; [|done]. apply andb_prop in E as [_ E%bool_decide_eq_true]. done.
  - destruct (thread_ w); simplify_eq.
    destruct (write_batch_frame io fio now batch w) as (-> & _ & -> & -> & _). done.
  - by simplify_eq.
  - assert (Hc : close_file fio w = w') by (destruct (thread_ w); try done; case_match; by simplify_eq).
    subst. destruct (close_file_frame fio w) as (-> & -> & -> & -> & _). done.
Qed.

Lemma aof_run_inv (P : AOFWriter -> Prop) es w w' :
  (forall e w w', P w -> aof_exec e w = Some w' -> P w') ->
  P w -> aof_run es w = Some w' -> P w'.
Proof.
  intros Hstep. revert w. induction es as [|e es IH]; intros w HP Hrun; simpl in *.
  - by simplify_eq.
  - apply bind_Some in Hrun as (w1 & He & Hrun). eauto.
Qed.

Lemma aof_run_app es1 es2 w : aof_run (es1 ++ es2) w = w' ← aof_run es1 w; aof_run es2 w'.
Proof.
  revert w. induction es1 as [|e es1 IH]; intros w; simpl; [done|].
  destruct (aof_exec e w); simpl; [apply IH|done].
Qed.

Lemma pushed_app es1 es2 : pushed (es1 ++ es2) = pushed es1 ++ pushed es2.
Proof. induction es1 as [|[] es1 IH]; simpl; by rewrite ?IH. Qed.

Lemma aof_start_ok existing w0 w :
  aof_start (Some existing) w0 = Some w ->
  writer_ok w /\ text w = existing /\ in_progress w = [] /\ queue_ w = queue_ w0.
Proof.
  intros [= <-]. unfold writer_ok, text, in_progress. simpl.
  split; [by eexists|]. by rewrite app_nil_r.
Qed.

(** C7: Whatever the interleaving of producers, writer thread and [stop], with a healthy
    disk: the bytes given to the file, followed by the batch being written and the
    queue, are the old contents followed by the lines in the order they were pushed.
    No line is lost, duplicated, reordered or torn. *)
Theorem aof_fifo now interval existing w0 es w :
  aof_start (Some existing) (new_writer now interval) = Some w0 ->
  Forall healthy es -> aof_run es w0 = Some w ->
  text w ++ lines_text (in_progress w ++ queue_ w) = existing ++ lines_text (pushed es).
Proof.
  intros Hs Hh Hrun. destruct (aof_start_ok _ _ _ Hs) as (Hok & Ht & Hp & Hq).
  destruct (aof_run_text es w0 w Hh Hok Hrun) as [_ ->]. by rewrite Ht, Hp, Hq.
Qed.

(** Stopping drains the queue, once no producer is about to push. *)
Lemma stop_flushes now interval existing w0 es1 w1 es2 w :
  aof_start (Some existing) (new_writer now interval) = Some w0 ->
  Forall healthy es1 -> aof_run es1 w0 = Some w1 ->
  stopped_ w1 = false -> pushing_ w1 = [] ->
  Forall healthy es2 -> aof_run (EvStopStore :: es2 ++ [EvStopFinish IoOk]) w1 = Some w ->
  exists f, file_ w = Some f /\ is_open f = false /\ buffered f = [] /\ queue_ w = [] /\
    disk f = existing ++ lines_text (pushed es1 ++ pushed es2).
Proof.
  intros Hs Hh1 Hrun1 Hst Hpu Hh2 Hrun.
  destruct (aof_start_ok _ _ _ Hs) as (Hok & Ht & Hp & Hq). simpl in Hq.
  assert (Hfl : flags_ok w1).
  { eapply (aof_run_inv flags_ok); [apply aof_exec_flags| |done]. injection Hs as <-. done. }
  rewrite app_comm_cons, aof_run_app in Hrun. apply bind_Some in Hrun as (w2 & Hrun2 & Hfin).
  destruct (aof_run_text es1 w0 w1 Hh1 Hok Hrun1) as [Hok1 Htx1].
  destruct (aof_run_text (EvStopStore :: es2) w1 w2) as [Hok2 Htx2]; [by constructor|done|done|].
  assert (Hd : drained w2).
  { simpl in Hrun2. eapply (aof_run_inv drained); [apply aof_exec_drained| |exact Hrun2].
    split; [done|]. split; [done|]. simpl. intros He. destruct Hfl as [Hf1 Hf2].
    rewrite Hf1 in Hst; [done|auto]. }
  simpl in Hfin. destruct Hok2 as (f & Hf & Hg & Hns & Hop).
  assert (Hex : thread_ w2 = Exited /\ Some (close_file IoOk w2) = Some w).
  { destruct (thread_ w2); try done. by destruct (stopped_ w2). }
  destruct Hex as [Hex [= <-]]. destruct Hd as (_ & _ & Hqe). specialize (Hqe Hex).
  unfold text in Htx2. unfold in_progress in Htx2 at 1. rewrite Hf, Hex, Hqe in Htx2.
  change (lines_text ([] ++ [])) with (@nil ascii) in Htx2. rewrite app_nil_r in Htx2.
  rewrite app_assoc in Htx2. fold (text w1) in Htx2. rewrite Htx1, Ht, Hp, Hq in Htx2.
  change (pushed (EvStopStore :: es2)) with (pushed es2) in Htx2.
  rewrite <- app_assoc, <- !lines_text_app in Htx2. simpl in Htx2.
  unfold close_file. rewrite Hf. destruct (is_open f) eqn:Eo.
  - rewrite flush_ok by done. simpl. eexists. split; [done|]. simpl. by rewrite Htx2.
  - destruct (Hop eq_refl) as [_ Hb]. exists f. rewrite Hb, app_nil_r in Htx2. by rewrite Hqe.
Qed.

(** A stop can always complete: the thread writes its batch, takes what is queued, writes
    it and leaves. *)
Lemma stop_finishes w :
  stopped_ w = true -> stop_requested_ w = true -> thread_ w = Waiting ->
  exists es w', Forall healthy es /\ pushed es = [] /\ aof_run (es ++ [EvStopFinish IoOk]) w = Some w'.
Proof.
  assert (Hexit : forall w, stopped_ w = true -> stop_requested_ w = true -> thread_ w = Waiting ->
    queue_ w = [] -> exists w', aof_run ([EvTake] ++ [EvStopFinish IoOk]) w = Some w').
  { intros w0 Hs Hr Ht Hq. simpl. rewrite Ht. simpl. unfold take_batch. rewrite Hr, Hq. simpl.
    rewrite Hs. by eexists. }
  intros Hs Hr Ht. destruct (decide (queue_ w = [])) as [Hq|Hq].
  { destruct (Hexit w Hs Hr Ht Hq) as [w' Hw']. exists [EvTake], w'. split; [by repeat constructor|done]. }
  set (w1 := write_batch [] IoOk 0 (queue_ w) (set_writer_thread (Writing (queue_ w)) (set_queue [] w))).
  destruct (write_batch_frame [] IoOk 0 (queue_ w) (set_writer_thread (Writing (queue_ w)) (set_queue [] w)))
    as (H1 & H2 & _ & H3 & H4). fold w1 in H1, H2, H3, H4.
  destruct (Hexit w1) as [w' Hw']; [by rewrite H3|by rewrite H4|done|by rewrite H2|].
  exists [EvTake; EvWrite [] IoOk 0; EvTake], w'. split; [by repeat constructor|]. split; [done|].
  rewrite <- Hw'. simpl. rewrite Ht. simpl. unfold take_batch. rewrite Hr.
  rewrite (bool_decide_eq_false_2 _ Hq). simpl. done.
Qed.

Lemma stop_completes w :
  flags_ok w -> stopped_ w = false -> thread_ w <> NotStarted ->
  exists es w', Forall healthy es /\ pushed es = [] /\
    aof_run (EvStopStore :: es ++ [EvStopFinish IoOk]) w = Some w'.
Proof.
  intros [Hf1 Hf2] Hs Ht. set (w0 := set_stop_requested true (set_stopped true w)).
  assert (Hstart : forall es, aof_run (EvStopStore :: (EvStopRequest :: es) ++ [EvStopFinish IoOk]) w =
    aof_run (es ++ [EvStopFinish IoOk]) w0) by done.
  destruct (thread_ w) as [| |batch|] eqn:E; [done| | |].
  - destruct (stop_finishes w0) as (es & w' & Hh & Hp & Hrun); [done..|].
    exists (EvStopRequest :: es), w'. split; [by constructor|]. split; [done|]. by rewrite Hstart.
  - destruct (write_batch_frame [] IoOk 0 batch w0) as (H1 & _ & _ & H3 & H4).
    destruct (stop_finishes (write_batch [] IoOk 0 batch w0)) as (es & w' & Hh & Hp & Hrun); [by rewrite H3|by rewrite H4|done|].
    exists (EvStopRequest :: EvWrite [] IoOk 0 :: es), w'. split; [by repeat constructor|]. split; [done|].
    rewrite Hstart. cbn [app aof_run aof_exec]. change (thread_ w0) with (thread_ w). rewrite E. done.
  - rewrite (Hf1 (Hf2 eq_refl)) in Hs. done.
Qed.

(** The flag stays set. *)
Lemma aof_exec_stopped e w w' : stopped_ w = true -> aof_exec e w = Some w' -> stopped_ w' = true.
Proof.
  intros Hs He. destruct e; simpl in He; repeat case_match; simplify_eq/=; try done.
  - by apply bind_Some in He as (l & _ & [= <-]).
  - unfold take_batch. by case_match.
  - by destruct (write_batch_frame io fio now batch w) as (_ & _ & _ & -> & _).
  - by destruct (close_file_frame fio w) as (_ & _ & _ & -> & _).
  - by destruct (close_file_frame fio w) as (_ & _ & _ & -> & _).
Qed.

Lemma aof_stop_stopped es w w' : aof_run (EvStopStore :: es) w = Some w' -> stopped_ w' = true.
Proof.
  intros Hrun. cbn [aof_run aof_exec mbind option_bind] in Hrun.
  eapply (aof_run_inv (fun w => stopped_ w = true)); [intros; by eapply aof_exec_stopped| |exact Hrun]. done.
Qed.

(** C40: The check of [stopped_] and the push are not one atomic action: a producer that
    passed the check before [stop] can push after the thread has left.  Its line
    stays in the queue and never reaches the file. *)
Theorem aof_stop_race now interval cmd existing :
  exists w0 es w f,
    aof_start (Some existing) (new_writer now interval) = Some w0 /\
    Forall healthy es /\ aof_run (es ++ [EvStopFinish IoOk]) w0 = Some w /\
    pushed es = [cmd] /\ file_ w = Some f /\ is_open f = false /\
    disk f ++ buffered f = existing /\ queue_ w = [cmd].
Proof.
  eexists _, [EvCheck cmd; EvStopStore; EvStopRequest; EvTake; EvPush cmd], _, _.
  split; [reflexivity|]. split; [repeat constructor|]. simpl.
  rewrite decide_True by done. simpl. repeat (split; [reflexivity|]). simpl.
  by rewrite !app_nil_r.
Qed.

(** ** With disk errors *)

Lemma write_lines_any batch io f n f' n' :
  write_lines batch io f n = (f', n') ->
  is_open f' = is_open f /\ disk f' = disk f /\
  ((good f' = true /\ good f = true /\ buffered f' = buffered f ++ lines_text batch) \/
   (f' = f /\ (batch = [] \/ good f = false)) \/
   (good f' = false /\ good f = true /\
     exists p, buffered f' = buffered f ++ p /\ p `prefix_of` lines_text batch)).
Proof.
  revert io f n. induction batch as [|cmd batch IH]; intros io f n; simpl.
  - intros [= <- <-]. split; [done|]. split; [done|]. right; left. auto.
  - unfold put_line. destruct (good f) eqn:Hg.
    + destruct (default IoOk (head io)) as [|m]; simpl.
      * intros Hw. apply IH in Hw as (Ho & Hd & Hcase). simpl in *. split; [done|]. split; [done|].
        destruct Hcase as [(Hg' & _ & Hb)|[(-> & [-> | [=]])|(Hg' & _ & p & Hb & Hp)]].
        -- left. rewrite Hb, <- app_assoc. done.
        -- left. simpl. unfold lines_text. simpl. by rewrite app_nil_r.
        -- right; right. split; [done|]. split; [done|]. exists (render cmd ++ p).
           rewrite Hb, <- app_assoc. split; [done|]. by apply prefix_app.
      * intros [= <- <-]. simpl. split; [done|]. split; [done|]. right; right.
        split; [done|]. split; [done|]. exists (take m (render cmd)). split; [done|].
        unfold lines_text. simpl. exists (drop m (render cmd) ++ concat (map render batch)).
        by rewrite app_assoc, take_drop.
    + rewrite Hg. intros [= <- <-]. split; [done|]. split; [done|]. right; left. auto.
Qed.

Lemma flush_text io f :
  disk (flush io f) ++ buffered (flush io f) = disk f ++ buffered f /\
  is_open (flush io f) = is_open f /\ (good (flush io f) = true -> good f = true).
Proof.
  unfold flush. destruct (good f) eqn:Hg; [|split; [done|split; [done|congruence]]].
  destruct io; simpl.
  - by rewrite app_nil_r.
  - by rewrite <- app_assoc, take_drop.
Qed.

(** The stream holds a prefix of the log [total], and all that has been taken from
    the queue while it is good. *)
Definition logged (total : bytes) (w : AOFWriter) : Prop :=
  exists f, file_ w = Some f /\ thread_ w <> NotStarted /\
    (is_open f = false -> thread_ w = Exited) /\
    text w `prefix_of` total /\
    (good f = true -> text w ++ lines_text (in_progress w ++ queue_ w) = total).

Lemma write_batch_any io fio now batch w f total :
  file_ w = Some f -> is_open f = true -> thread_ w = Writing batch ->
  text w `prefix_of` total ->
  (good f = true -> text w ++ lines_text (batch ++ queue_ w) = total) ->
  logged total (write_batch io fio now batch w).
Proof.
  intros Hf Ho Ht Hpre Hg. destruct (write_batch_frame io fio now batch w) as (Ht' & Hq' & _).
  unfold logged, text, in_progress. rewrite Ht', Hq'. unfold text in Hpre, Hg. rewrite Hf in Hpre, Hg.
  unfold write_batch. simpl. rewrite Hf, Ho.
  destruct (write_lines batch io f (written_count_ w)) as [f1 n1] eqn:Hw.
  apply write_lines_any in Hw as (Ho1 & Hd1 & Hcase).
  assert (Hl : disk f1 ++ buffered f1 `prefix_of` total /\
    (good f1 = true -> disk f1 ++ buffered f1 ++ lines_text (queue_ w) = total)).
  { rewrite Hd1. destruct Hcase as [(Hg1 & Hg0 & ->)|[(-> & Hb)|(Hg1 & Hg0 & p & -> & Hp)]].
    - specialize (Hg Hg0). rewrite lines_text_app, !app_assoc in Hg.
      rewrite !app_assoc. split; [by exists (lines_text (queue_ w))|done].
    - split; [done|]. intros Hg0. destruct Hb as [-> |]; [|congruence].
      rewrite <- (Hg Hg0). simpl. by rewrite app_assoc.
    - split; [|congruence]. rewrite <- (Hg Hg0), lines_text_app, <- !app_assoc.
      do 2 apply prefix_app. by apply prefix_app_r. }
  destruct Hl as [Hl1 Hl2]. destruct (_ || _); simpl.
  - destruct (flush_text fio f1) as (Htx & Hof & Hgf). exists (flush fio f1).
    split; [done|]. split; [done|]. split; [congruence|]. rewrite Htx. split; [done|].
    intros Hgood. rewrite <- app_assoc. auto.
  - exists f1. split; [done|]. split; [done|]. split; [congruence|]. split; [done|].
    intros Hgood. rewrite <- app_assoc. auto.
Qed.

Lemma aof_exec_logged e w w' total :
  logged total w -> aof_exec e w = Some w' -> logged (total ++ lines_text (pushed [e])) w'.
Proof.
  intros Hl He. destruct e; simpl in He; simpl pushed;
    try change (lines_text []) with (@nil ascii); rewrite ?app_nil_r.
  - case_match; simplify_eq. done.
  - apply bind_Some in He as (l & _ & [= <-]). destruct Hl as (f & Hf & Hns & Ho & Hp & Hg).
    exists f. unfold text, in_progress in *. simpl in *. rewrite Hf in *.
    split; [done|]. split; [done|]. split; [done|]. split; [by apply prefix_app_r|].
    intros Hgood. rewrite <- (Hg Hgood). by rewrite !lines_text_app, !app_assoc.
  - simplify_eq. done.
  - simplify_eq. done.
  - case_match; simplify_eq. done.
  - destruct (thread_ w) eqn:Ht; simplify_eq. destruct Hl as (f & Hf & Hns & Ho & Hp & Hg).
    exists f. unfold text, in_progress in *. rewrite Ht, Hf in *. unfold take_batch.
    destruct (_ && _); simpl; rewrite Hf; (split; [done|]); (split; [done|]).
    + done.
    + split; [intros Hc; by specialize (Ho Hc)|]. split; [done|]. by rewrite app_nil_r.
  - destruct (thread_ w) eqn:Ht; simplify_eq. destruct Hl as (f & Hf & Hns & Ho & Hp & Hg).
    eapply write_batch_any; [done| |done|done|].
    + destruct (is_open f); [done|]. specialize (Ho eq_refl). congruence.
    + intros Hgood. rewrite <- (Hg Hgood). unfold in_progress. by rewrite Ht.
  - simplify_eq. destruct Hl as (f & Hf & Hns & Ho & Hp & Hg). exists (spill n f).
    unfold text, in_progress in *. simpl. rewrite Hf in *. simpl.
    rewrite <- (app_assoc (disk f)), take_drop. done.
  - assert (Hc : close_file fio w = w' /\ (thread_ w = NotStarted \/ thread_ w = Exited)).
    { destruct (thread_ w); try done; case_match; simplify_eq; auto. }
    destruct Hc as [<- Ht]. destruct Hl as (f & Hf & Hns & Ho & Hp & Hg).
    destruct Ht as [|Ht]; [done|]. unfold close_file. rewrite Hf. destruct (is_open f) eqn:Hop.
    + destruct (flush_text fio f) as (Htx & _ & Hgf). eexists. split; [done|].
      unfold text, in_progress in *. simpl. rewrite Ht, Hf in *. rewrite Htx.
      split; [done|]. split; [done|]. split; [done|]. auto.
    + by exists f.
Qed.

Lemma aof_run_logged es w w' total :
  logged total w -> aof_run es w = Some w' -> logged (total ++ lines_text (pushed es)) w'.
Proof.
  revert w total. induction es as [|e es IH]; intros w total Hl Hrun; simpl in *.
  - simplify_eq. unfold lines_text. simpl. by rewrite app_nil_r.
  - apply bind_Some in Hrun as (w1 & He & Hrun).
    pose proof (IH w1 _ (aof_exec_logged e w w1 total Hl He) Hrun) as Hl'.
    rewrite <- app_assoc, <- lines_text_app, <- pushed_app in Hl'. done.
Qed.

(** C16: Whatever the disk does (a write that fails after some bytes leaves the others in the
    buffer of the stream, as the C++ standard has it), what the file was given is a prefix of the old contents
    followed by the pushed lines: an error can lose the end of the log and tear its
    last line, never reorder it or leave a gap. *)
Theorem aof_prefix now interval existing w0 es w :
  aof_start (Some existing) (new_writer now interval) = Some w0 ->
  aof_run es w0 = Some w -> text w `prefix_of` existing ++ lines_text (pushed es).
Proof.
  intros Hs Hrun.
  assert (Hl : logged existing w0).
  { injection Hs as <-. eexists. split; [done|]. split; [done|]. split; [done|].
    unfold text, in_progress. simpl. rewrite app_nil_r. split; [done|].
    intros _. unfold lines_text. simpl. by rewrite app_nil_r. }
  pose proof (aof_run_logged es w0 w existing Hl Hrun) as (f & _ & _ & _ & Hp & _). done.
Qed.
