(* ===== verification/AofReplay.v ===== *)
(** * Replaying the append-only file ([src/storage/aof_replay.cpp])

    The file is read line by line; each line is parsed as a command and applied to
    the storage.  The storage is any instance of [StorageOps]. *)

From S2P Require Import Prelude Cpp Lru Parser AofFormat AofWriter StorageInterface.
Local Open Scope Z_scope.

(** ** Operations *)

(** The lines [std::getline] delivers: the last one may lack its line feed. *)
Fixpoint getlines (s : bytes) : list bytes :=
  match s with
  | [] => []
  | c :: s' =>
      if bool_decide (c = ch_nl) then [] :: getlines s'
      else match getlines s' with
           | [] => [[c]]
           | l :: ls => (c :: l) :: ls
           end
  end.

Record Stats : Type := mkStats {
  commands_replayed : Z;
  lines_skipped : Z;
  errors : Z
}.

Definition count_replayed (st : Stats) : Stats :=
  mkStats (u64 (commands_replayed st + 1)) (lines_skipped st) (errors st).
Definition count_skipped (st : Stats) : Stats :=
  mkStats (commands_replayed st) (u64 (lines_skipped st + 1)) (errors st).
Definition count_error (st : Stats) : Stats :=
  mkStats (commands_replayed st) (lines_skipped st) (u64 (errors st + 1)).

Section replay.
Context {S : Type} `{StorageOps S}.

(** The body of the loop for one line; [now] and [now2] are the clock readings. *)
Definition replay_line (now now2 : Z) (line : bytes) (s : S) (st : Stats)
    : outcome (S * Stats) :=
  match line with
  | [] => Ret (s, count_skipped st)
  | _ =>
      let cmd := parseCommand line in
      match type cmd with
      | SET =>
          match args cmd with
          | k :: v :: _ => s' ← op_set k v s; Ret (s', count_replayed st)
          | _ => Ret (s, count_error st)
          end
      | DEL =>
          match args cmd with
          | k :: _ => '(_, s') ← op_del now k s; Ret (s', count_replayed st)
          | _ => Ret (s, count_error st)
          end
      | EXPIRE =>
          match args cmd with
          | k :: n :: _ =>
              match stoll n with
              | Conv seconds =>
                  if seconds <=? 0 then Ret (s, count_error st)
                  else '(_, s') ← op_expire now now2 k seconds s; Ret (s', count_replayed st)
              | InvalidArgument | OutOfRange => Ret (s, count_error st)
              end
          | _ => Ret (s, count_error st)
          end
      | _ => Ret (s, count_skipped st)
      end
  end.

(** [clock i] gives the readings made while line [i] is replayed. *)
Fixpoint replay_lines (clock : nat -> Z * Z) (i : nat) (lines : list bytes) (s : S) (st : Stats)
    : outcome (S * Stats) :=
  match lines with
  | [] => Ret (s, st)
  | line :: lines' =>
      '(s', st') ← replay_line (clock i).1 (clock i).2 line s st;
      replay_lines clock (Datatypes.S i) lines' s' st'
  end.

(** [None] is a file that cannot be opened: a fresh start. *)
Definition replay (clock : nat -> Z * Z) (file : option bytes) (s : S) : outcome (S * Stats) :=
  match file with
  | None => Ret (s, mkStats 0 0 0)
  | Some contents => replay_lines clock 0 (getlines contents) s (mkStats 0 0 0)
  end.
End replay.

(** ** Lines *)

Lemma getlines_render_app l rest :
  ch_nl ∉ l -> getlines (render l ++ rest) = l :: getlines rest.
Proof.
  unfold render. rewrite <- app_assoc. change ([ch_nl] ++ rest) with (ch_nl :: rest).
  induction l as [|c l IH]; intros Hl; simpl; [done|].
  apply not_elem_of_cons in Hl as [Hc Hl]. rewrite bool_decide_eq_false_2 by congruence.
  rewrite IH by done. done.
Qed.

(** The writer's lines are the lines read back. *)
Lemma getlines_lines_text ls :
  Forall (fun l => ch_nl ∉ l) ls -> getlines (lines_text ls) = ls.
Proof.
  unfold lines_text. induction 1 as [|l ls Hl _ IH]; simpl; [done|].
  rewrite getlines_render_app by done. by rewrite IH.
Qed.

(** A last line without its line feed is delivered as a line. *)
Lemma getlines_torn l : ch_nl ∉ l -> l <> [] -> getlines l = [l].
Proof.
  induction l as [|c l IH]; [done|]. intros [Hc Hl]%not_elem_of_cons _. simpl.
  rewrite bool_decide_eq_false_2 by congruence. destruct l as [|d l]; [done|].
  by rewrite IH.
Qed.

Lemma escape_no_newline s : ch_nl ∉ s -> ch_nl ∉ escape s.
Proof.
  induction s as [|c s IH]; simpl; [done|]. intros [Hc Hs]%not_elem_of_cons.
  case_match; set_solver by done.
Qed.
