(* ===== verification/Dispatcher.v ===== *)
(** * The command dispatcher ([src/protocol/dispatcher.cpp],
    [include/protocol/dispatcher.h])

    One request: a parsed command, the storage operation it stands for, the line it
    logs and the response.  The storage is any instance of [StorageOps]. *)

From S2P Require Import Prelude Cpp Lru Parser Response StorageInterface AofFormat AofWriter.
Local Open Scope Z_scope.

(** ** State *)

Record Dispatcher : Type := mkDispatcher {
  total_requests_ : Z;
  total_reads_ : Z;
  total_writes_ : Z;
  cache_hits_ : Z;
  cache_misses_ : Z;
  start_time_ : Z
}.

Definition new_dispatcher (now : Z) : Dispatcher := mkDispatcher 0 0 0 0 0 now.

Section counters.
Implicit Types d : Dispatcher.
Definition inc_requests d : Dispatcher :=
  mkDispatcher (u64 (total_requests_ d + 1)) (total_reads_ d) (total_writes_ d)
    (cache_hits_ d) (cache_misses_ d) (start_time_ d).
Definition inc_reads d : Dispatcher :=
  mkDispatcher (total_requests_ d) (u64 (total_reads_ d + 1)) (total_writes_ d)
    (cache_hits_ d) (cache_misses_ d) (start_time_ d).
Definition inc_writes d : Dispatcher :=
  mkDispatcher (total_requests_ d) (total_reads_ d) (u64 (total_writes_ d + 1))
    (cache_hits_ d) (cache_misses_ d) (start_time_ d).
Definition inc_hits d : Dispatcher :=
  mkDispatcher (total_requests_ d) (total_reads_ d) (total_writes_ d)
    (u64 (cache_hits_ d + 1)) (cache_misses_ d) (start_time_ d).
Definition inc_misses d : Dispatcher :=
  mkDispatcher (total_requests_ d) (total_reads_ d) (total_writes_ d)
    (cache_hits_ d) (u64 (cache_misses_ d + 1)) (start_time_ d).
End counters.

(** What a request reads and writes: the dispatcher's counters, the storage and the
    log writer, if the server has one. *)
Record World (S : Type) : Type := mkWorld {
  disp : Dispatcher;
  store : S;
  aof : option AOFWriter
}.
Arguments mkWorld {S} disp store aof.
Arguments disp {S} w.
Arguments store {S} w.
Arguments aof {S} w.

(** ** Operations *)

Section dispatch.
Context {S : Type} `{StorageOps S}.

Definition stats_text (uptime : Z) (d : Dispatcher) (s : S) : bytes :=
  str "total_requests:" ++ to_string (total_requests_ d) ++
  str ",total_reads:" ++ to_string (total_reads_ d) ++
  str ",total_writes:" ++ to_string (total_writes_ d) ++
  str ",cache_hits:" ++ to_string (cache_hits_ d) ++
  str ",cache_misses:" ++ to_string (cache_misses_ d) ++
  str ",expired_keys:" ++ to_string (op_expiredKeysCount s) ++
  str ",evicted_keys:" ++ to_string (op_evictedKeysCount s) ++
  str ",current_keys:" ++ to_string (op_size s) ++
  str ",uptime_seconds:" ++ to_string uptime.

(** [dispatch]: [now] and [now2] are the readings of the clock the command makes, in
    order; a command that makes fewer ignores the rest. *)
Definition dispatch (now now2 : Z) (cmd : Command) (w : World S) : outcome (bytes * World S) :=
  let d := inc_requests (disp w) in
  let s := store w in
  match type cmd with
  | PING => Ret (pongResponse, mkWorld d s (aof w))
  | SET =>
      match args cmd with
      | k :: v :: _ =>
          s' ← op_set k v s;
          Ret (okResponse, mkWorld (inc_writes d) s' (logSet k v <$> aof w))
      | _ => Ret (errorResponse (str "wrong number of arguments for 'set' command"),
                  mkWorld d s (aof w))
      end
  | GET =>
      match args cmd with
      | k :: _ =>
          '(r, s') ← op_get now k s;
          match r with
          | Some v => Ret (valueResponse v, mkWorld (inc_hits (inc_reads d)) s' (aof w))
          | None => Ret (nilResponse, mkWorld (inc_misses (inc_reads d)) s' (aof w))
          end
      | [] => Ret (errorResponse (str "wrong number of arguments for 'get' command"),
                   mkWorld d s (aof w))
      end
  | DEL =>
      match args cmd with
      | k :: _ =>
          '(deleted, s') ← op_del now k s;
          Ret (integerResponse (if deleted : bool then 1 else 0),
               mkWorld (inc_writes d) s' (if deleted then logDel k <$> aof w else aof w))
      | [] => Ret (errorResponse (str "wrong number of arguments for 'del' command"),
                   mkWorld d s (aof w))
      end
  | EXPIRE =>
      match args cmd with
      | k :: n :: _ =>
          match stoll n with
          | Conv seconds =>
              '(success, s') ← op_expire now now2 k seconds s;
              Ret (integerResponse (if success : bool then 1 else 0),
                   mkWorld d s' (if success then logExpire k seconds <$> aof w else aof w))
          | InvalidArgument | OutOfRange =>
              Ret (errorResponse (str "value is not an integer or out of range"),
                   mkWorld d s (aof w))
          end
      | _ => Ret (errorResponse (str "wrong number of arguments for 'expire' command"),
                  mkWorld d s (aof w))
      end
  | TTL =>
      match args cmd with
      | k :: _ =>
          '(r, s') ← op_ttl now now2 k s;
          Ret (integerResponse (to_int r), mkWorld d s' (aof w))
      | [] => Ret (errorResponse (str "wrong number of arguments for 'ttl' command"),
                   mkWorld d s (aof w))
      end
  | STATS =>
      uptime ← diff_seconds now (start_time_ d);
      Ret (valueResponse (stats_text uptime d s), mkWorld d s (aof w))
  | UNKNOWN => Ret (errorResponse (str "unknown command"), mkWorld d s (aof w))
  end.

(** A sequence of requests, with the clock readings of each. *)
Fixpoint serve (reqs : list (Z * Z * Command)) (w : World S) : outcome (list bytes * World S) :=
  match reqs with
  | [] => Ret ([], w)
  | (now, now2, cmd) :: reqs' =>
      '(r, w') ← dispatch now now2 cmd w;
      '(rs, w'') ← serve reqs' w';
      Ret (r :: rs, w'')
  end.
End dispatch.
