(* ===== verification/DispatcherFacts.v ===== *)
(** * What a client observes

    The dispatcher over any lawful storage answers like a plain key-value map with
    deadlines as long as nothing is evicted, always with exactly one line, and keeps
    its counters consistent.  The last theorems are about the edges of the protocol:
    the width of a TTL response, and the value that reads as nil. *)

From S2P Require Import Prelude Cpp Lru Parser Response StorageInterface AofFormat AofWriter.
From S2P Require Import Dispatcher.
Local Open Scope Z_scope.

(** ** The reference: a map with deadlines *)

Definition kv : Type := bytes -> option slot.

Definition kv_update (k : bytes) (o : option slot) (m : kv) : kv :=
  fun k' => if decide (k = k') then o else m k'.

Definition kv_empty : kv := fun _ => None.

Definition bool_response (b : bool) : bytes := integerResponse (if b then 1 else 0).

Definition ref_dispatch (now now2 : Z) (cmd : Command) (m : kv) : bytes * kv :=
  match type cmd, args cmd with
  | PING, _ => (pongResponse, m)
  | SET, k :: v :: _ => (okResponse, kv_update k (Some (v, None)) m)
  | SET, _ => (errorResponse (str "wrong number of arguments for 'set' command"), m)
  | GET, k :: _ =>
      (match live_slot now (m k) with Some (v, _) => valueResponse v | None => nilResponse end,
       kv_update k (live_slot now (m k)) m)
  | GET, [] => (errorResponse (str "wrong number of arguments for 'get' command"), m)
  | DEL, k :: _ =>
      (bool_response (bool_decide (is_Some (live_slot now (m k)))), kv_update k None m)
  | DEL, [] => (errorResponse (str "wrong number of arguments for 'del' command"), m)
  | EXPIRE, k :: n :: _ =>
      match stoll n with
      | Conv seconds =>
          if seconds <? 0 then (bool_response false, m)
          else (bool_response (bool_decide (is_Some (live_slot now (m k)))),
                kv_update k ((fun x => (x.1, Some (now2 + seconds * NS_PER_S)))
                               <$> live_slot now (m k)) m)
      | _ => (errorResponse (str "value is not an integer or out of range"), m)
      end
  | EXPIRE, _ => (errorResponse (str "wrong number of arguments for 'expire' command"), m)
  | TTL, k :: _ =>
      (integerResponse (to_int (ttl_of now2 (live_slot now (m k)))),
       kv_update k (live_slot now (m k)) m)
  | TTL, [] => (errorResponse (str "wrong number of arguments for 'ttl' command"), m)
  | STATS, _ => ([], m)
  | UNKNOWN, _ => (errorResponse (str "unknown command"), m)
  end.

Fixpoint ref_serve (reqs : list (Z * Z * Command)) (m : kv) : list bytes * kv :=
  match reqs with
  | [] => ([], m)
  | (now, now2, cmd) :: reqs' =>
      let '(r, m') := ref_dispatch now now2 cmd m in
      let '(rs, m'') := ref_serve reqs' m' in
      (r :: rs, m'')
  end.

(** What a request needs to be defined: readings of the clock, and a deadline that
    fits it. *)
Definition req_ok (req : Z * Z * Command) : Prop :=
  let '(now, now2, cmd) := req in
  clock_reading now /\ clock_reading now2 /\
  match type cmd, args cmd with
  | EXPIRE, _ :: n :: _ =>
      match stoll n with
      | Conv seconds => 0 <= seconds -> clock_reading (now2 + seconds * NS_PER_S)
      | _ => True
      end
  | _, _ => True
  end.

(** A request that writes only keys of [K]. *)
Definition req_within (K : gset bytes) (req : Z * Z * Command) : Prop :=
  match type req.2, args req.2 with
  | SET, k :: _ :: _ => k ∈ K
  | _, _ => True
  end.

(** Responses are compared except for STATS, whose text is about the server. *)
Definition same_response (cmd : Command) (r r' : bytes) : Prop := type cmd = STATS \/ r = r'.

Section facts.
Context {S : Type} `{StorageLaws S}.
Implicit Types (w : World S) (s : S) (m : kv).

(** The world refines the map [m]: its invariants hold and the views agree. *)
Definition refines_kv (K : gset bytes) w m : Prop :=
  store_inv (store w) /\ fits K (store w) /\ clock_reading (start_time_ (disp w)) /\
  forall k, view (store w) k = m k.

Lemma kv_update_view s s' k o m :
  view s' k = o -> (forall k', k <> k' -> view s' k' = view s k') -> (forall k', view s k' = m k') ->
  forall k', view s' k' = kv_update k o m k'.
Proof.
  intros Hk Hne Hm k'. unfold kv_update. case_decide as Hd; [by subst|].
  rewrite Hne by done. apply Hm.
Qed.

Lemma stats_defined a b : clock_reading a -> clock_reading b ->
  diff_seconds a b = Ret (Z.quot (a - b) NS_PER_S).
Proof.
  intros Ha Hb. apply diff_seconds_ok.
  unfold clock_reading, in_int64, INT64_MIN, INT64_MAX in *. lia.
Qed.

(** One request does what the reference does. *)
Definition step_refines K now now2 cmd w m : Prop :=
  exists r w', dispatch now now2 cmd w = Ret (r, w') /\
    same_response cmd r (ref_dispatch now now2 cmd m).1 /\
    refines_kv K w' (ref_dispatch now now2 cmd m).2.

Section one_request.
Context (K : gset bytes) (now now2 : Z) (w : World S) (m : kv).
Context (Hnow : clock_reading now) (Hnow2 : clock_reading now2) (Hw : refines_kv K w m).

Lemma set_refines k v l : k ∈ K -> step_refines K now now2 (mkCommand SET (k :: v :: l)) w m.
Proof.
  intros HkK. destruct Hw as (Hinv & Hfit & Hst & Hview).
  destruct (law_set (store w) k v Hinv) as (s' & Hop & Hinv' & Hk & _ & Hf).
  destruct (Hf K Hfit HkK) as [Hfit' Hne]. unfold step_refines, dispatch. simpl. rewrite Hop.
  do 2 eexists. split; [reflexivity|]. split; [by right|]. split; [done|]. split; [done|].
  split; [done|]. by eapply kv_update_view.
Qed.

Lemma get_refines k l : step_refines K now now2 (mkCommand GET (k :: l)) w m.
Proof.
  destruct Hw as (Hinv & Hfit & Hst & Hview).
  destruct (law_get now (store w) k Hinv) as (s' & Hop & Hinv' & Hk & Hne & Hf).
  unfold step_refines, dispatch. simpl. rewrite Hop. rewrite Hview in *.
  destruct (live_slot now (m k)) as [[v d]|] eqn:E; simpl; do 2 eexists; (split; [reflexivity|]);
    (split; [by right|]); (split; [done|]); (split; [by apply Hf|]); (split; [done|]);
    by eapply kv_update_view.
Qed.

Lemma del_refines k l : step_refines K now now2 (mkCommand DEL (k :: l)) w m.
Proof.
  destruct Hw as (Hinv & Hfit & Hst & Hview).
  destruct (law_del now (store w) k Hinv) as (s' & Hop & Hinv' & Hk & Hne & Hf).
  unfold step_refines, dispatch. simpl. rewrite Hop. rewrite Hview in *.
  do 2 eexists. split; [reflexivity|]. split; [by right|]. split; [done|].
  split; [by apply Hf|]. split; [done|]. by eapply kv_update_view.
Qed.

Lemma ttl_refines k l : step_refines K now now2 (mkCommand TTL (k :: l)) w m.
Proof.
  destruct Hw as (Hinv & Hfit & Hst & Hview).
  destruct (law_ttl now now2 (store w) k Hinv Hnow2) as (s' & Hop & Hinv' & Hk & Hne & Hf).
  unfold step_refines, dispatch. simpl. rewrite Hop. rewrite Hview in *.
  do 2 eexists. split; [reflexivity|]. split; [by right|]. split; [done|].
  split; [by apply Hf|]. split; [done|]. by eapply kv_update_view.
Qed.

Lemma expire_refines k n l :
  req_ok (now, now2, mkCommand EXPIRE (k :: n :: l)) ->
  step_refines K now now2 (mkCommand EXPIRE (k :: n :: l)) w m.
Proof.
  intros (_ & _ & Hreq). simpl in Hreq. destruct Hw as (Hinv & Hfit & Hst & Hview).
  unfold step_refines, dispatch, ref_dispatch. simpl.
  destruct (stoll n) as [seconds| |] eqn:Hn;
    try (do 2 eexists; split; [reflexivity|]; split; [by right|done]).
  destruct (Z.ltb_spec seconds 0) as [Hneg|Hpos].
  - rewrite law_expire_negative by done. do 2 eexists. split; [reflexivity|].
    split; [by right|done].
  - specialize (Hreq Hpos). set (deadline := now2 + seconds * NS_PER_S) in *.
    assert (Hadd : add_seconds now2 seconds = Ret deadline) by (by apply add_seconds_defined).
    destruct (law_expire now now2 (store w) k seconds deadline Hinv Hpos Hnow2 Hadd)
      as (s' & Hop & Hinv' & Hk & Hne & Hf).
    rewrite Hop. rewrite Hview in *. do 2 eexists. split; [reflexivity|]. split; [by right|].
    split; [done|]. split; [by apply Hf|]. split; [done|]. by eapply kv_update_view.
Qed.

Lemma stats_refines l : step_refines K now now2 (mkCommand STATS l) w m.
Proof.
  destruct Hw as (Hinv & Hfit & Hst & Hview). unfold step_refines, dispatch. simpl.
  rewrite stats_defined by done. do 2 eexists. split; [reflexivity|]. split; [by left|done].
Qed.
End one_request.

Lemma dispatch_refines K now now2 cmd w m :
  req_ok (now, now2, cmd) -> req_within K (now, now2, cmd) ->
  refines_kv K w m -> step_refines K now now2 cmd w m.
Proof.
  destruct cmd as [ty al]. intros Hreq Hin Hw. pose proof Hreq as (Hnow & Hnow2 & Hr).
  destruct ty, al as [|k [|v l]]; simpl in Hr;
    eauto using set_refines, get_refines, del_refines, ttl_refines, expire_refines, stats_refines;
    do 2 eexists; (split; [reflexivity|]); (split; [by right|done]).
Qed.

(** As long as the keys written fit the storage, any sequence of requests is answered
    like the plain map answers it, and leaves the map's contents. *)
Lemma serve_refines K reqs w m :
  Forall req_ok reqs -> Forall (req_within K) reqs -> refines_kv K w m ->
  exists rs w', serve reqs w = Ret (rs, w') /\
    Forall3 (fun req => same_response req.2) reqs rs (ref_serve reqs m).1 /\
    refines_kv K w' (ref_serve reqs m).2.
Proof.
  intros Hreqs. revert w m.
  induction Hreqs as [|[[now now2] cmd] reqs Hreq _ IH]; intros w m Hins Hw.
  - exists [], w. split; [done|]. split; [constructor|done].
  - inversion Hins as [|? ? Hin Hins']; subst.
    destruct (dispatch_refines K now now2 cmd w m Hreq Hin Hw) as (r & w1 & Hd & Hr & Hw1).
    destruct (IH w1 _ Hins' Hw1) as (rs & w2 & Hs & Hrs & Hw2). exists (r :: rs), w2.
    simpl. rewrite Hd. simpl. rewrite Hs. destruct (ref_dispatch now now2 cmd m) as [r' m'].
    simpl in *. destruct (ref_serve reqs m') as [rs' m'']. simpl in *.
    split; [done|]. split; [by constructor|done].
Qed.

(** C4: From an empty storage large enough for the keys [K], every sequence of requests
    that writes only keys of [K], and whose EXPIRE deadlines fit the clock, is defined,
    gets the responses of the plain map, except to STATS, whose text is about the server,
    and leaves the contents of the plain map. *)
Theorem serve_like_map K reqs w :
  store_inv (store w) -> fits K (store w) -> (forall k, view (store w) k = None) ->
  clock_reading (start_time_ (disp w)) ->
  Forall req_ok reqs -> Forall (req_within K) reqs ->
  exists rs w', serve reqs w = Ret (rs, w') /\
    Forall3 (fun req => same_response req.2) reqs rs (ref_serve reqs kv_empty).1 /\
    forall k, view (store w') k = (ref_serve reqs kv_empty).2 k.
Proof.
  intros Hinv Hfit Hempty Hst Hok Hin.
  destruct (serve_refines K reqs w kv_empty Hok Hin) as (rs & w' & Hs & Hr & Hw'); [done|].
  exists rs, w'. split; [done|]. split; [done|]. apply Hw'.
Qed.

(** ** Framing *)

(** No stored value contains a line feed. *)
Definition clean s : Prop := forall k v d, view s k = Some (v, d) -> ch_nl ∉ v.

Definition clean_command (cmd : Command) : Prop := Forall (fun a => ch_nl ∉ a) (args cmd).

Lemma clean_frame s s' k o :
  clean s -> view s' k = o -> (forall v d, o = Some (v, d) -> ch_nl ∉ v) ->
  (forall k', k <> k' -> view s' k' = view s k' \/ view s' k' = None) -> clean s'.
Proof.
  intros Hc Hk Ho Hne k' v d Hv. destruct (decide (k = k')) as [<-|Hd].
  - rewrite Hk in Hv. by eapply Ho.
  - destruct (Hne k' Hd) as [E|E]; rewrite E in Hv; [by eapply Hc|done].
Qed.

Lemma live_slot_Some now o x : live_slot now o = Some x -> o = Some x.
Proof. destruct o as [y|]; simpl; [|done]. case_match; [done|]. by intros [= ->]. Qed.

Lemma one_line_of body : ch_nl ∉ body -> one_line (body ++ [ch_nl]).
Proof. intros Hb. by exists body. Qed.

Lemma errorResponse_one_line msg : ch_nl ∉ msg -> one_line (errorResponse msg).
Proof.
  intros Hm. exists (str "-ERR " ++ msg). split; [by rewrite <- app_assoc|].
  intros [Hi|Hi]%elem_of_app; [refute_by_evaluation Hi|done].
Qed.

Lemma app_no_newline a b : ch_nl ∉ a -> ch_nl ∉ b -> ch_nl ∉ a ++ b.
Proof. intros Ha Hb [Hi|Hi]%elem_of_app; done. Qed.

Lemma stats_text_no_newline uptime d s : ch_nl ∉ stats_text uptime d s.
Proof.
  unfold stats_text. repeat apply app_no_newline; try apply to_string_no_newline; by_evaluation.
Qed.

Definition framed w : Prop :=
  store_inv (store w) /\ clean (store w) /\ clock_reading (start_time_ (disp w)).

Definition framed_step now now2 cmd w : Prop :=
  exists r w', dispatch now now2 cmd w = Ret (r, w') /\ one_line r /\ framed w'.

Section framed_request.
Context (now now2 : Z) (w : World S).
Context (Hnow : clock_reading now) (Hnow2 : clock_reading now2) (Hw : framed w).

Lemma live_clean t k v d : live_slot t (view (store w) k) = Some (v, d) -> ch_nl ∉ v.
Proof. intros Hl%live_slot_Some. destruct Hw as (_ & Hc & _). by eapply Hc. Qed.

Lemma framed_const r d :
  one_line r -> start_time_ d = start_time_ (disp w) ->
  one_line r /\ framed (mkWorld d (store w) (aof w)).
Proof. intros Hr Hd. split; [done|]. destruct Hw as (? & ? & ?). unfold framed. simpl. by rewrite Hd. Qed.

Lemma framed_store k s' d a o :
  store_inv s' -> view s' k = o -> (forall v e, o = Some (v, e) -> ch_nl ∉ v) ->
  (forall k', k <> k' -> view s' k' = view (store w) k' \/ view s' k' = None) ->
  start_time_ d = start_time_ (disp w) -> framed (mkWorld d s' a).
Proof.
  intros Hinv Hk Ho Hne Hd. destruct Hw as (? & Hc & ?). unfold framed. simpl. rewrite Hd.
  split; [done|]. split; [|done]. by eapply clean_frame.
Qed.

Lemma set_framed k v l : ch_nl ∉ v -> framed_step now now2 (mkCommand SET (k :: v :: l)) w.
Proof.
  intros Hv. destruct (law_set (store w) k v) as (s' & Hop & Hinv' & Hk & Hne & _); [apply Hw|].
  unfold framed_step, dispatch. simpl. rewrite Hop. do 2 eexists. split; [reflexivity|].
  split; [by apply one_line_of; by_evaluation|].
  eapply framed_store; [done|exact Hk|by intros ? ? [= <- _]|done|done].
Qed.

Lemma get_framed k l : framed_step now now2 (mkCommand GET (k :: l)) w.
Proof.
  destruct (law_get now (store w) k) as (s' & Hop & Hinv' & Hk & Hne & _); [apply Hw|].
  unfold framed_step, dispatch. simpl. rewrite Hop.
  destruct (live_slot now (view (store w) k)) as [[v d]|] eqn:E; simpl; do 2 eexists;
    (split; [reflexivity|]).
  - split; [apply valueResponse_one_line; by eapply live_clean|].
    eapply framed_store; [done|exact Hk|intros ? ? [= <- _]; by eapply live_clean|by auto|done].
  - split; [apply one_line_of; by_evaluation|].
    eapply framed_store; [done|exact Hk|done|by auto|done].
Qed.

Lemma del_framed k l : framed_step now now2 (mkCommand DEL (k :: l)) w.
Proof.
  destruct (law_del now (store w) k) as (s' & Hop & Hinv' & Hk & Hne & _); [apply Hw|].
  unfold framed_step, dispatch. simpl. rewrite Hop. do 2 eexists. split; [reflexivity|].
  split; [apply integerResponse_one_line|].
  eapply framed_store; [done|exact Hk|done|by auto|done].
Qed.

Lemma ttl_framed k l : framed_step now now2 (mkCommand TTL (k :: l)) w.
Proof.
  destruct (law_ttl now now2 (store w) k) as (s' & Hop & Hinv' & Hk & Hne & _); [apply Hw|done|].
  unfold framed_step, dispatch. simpl. rewrite Hop. do 2 eexists. split; [reflexivity|].
  split; [apply integerResponse_one_line|].
  eapply framed_store; [done|exact Hk|intros; by eapply live_clean|by auto|done].
Qed.

Lemma expire_framed k n l :
  req_ok (now, now2, mkCommand EXPIRE (k :: n :: l)) ->
  framed_step now now2 (mkCommand EXPIRE (k :: n :: l)) w.
Proof.
  intros (_ & _ & Hreq). simpl in Hreq. unfold framed_step, dispatch. simpl.
  destruct (stoll n) as [seconds| |] eqn:Hn;
    try (do 2 eexists; split; [reflexivity|];
         apply framed_const; [apply errorResponse_one_line; by_evaluation|done]).
  destruct (Z.ltb_spec seconds 0) as [Hneg|Hpos].
  - rewrite law_expire_negative by done. do 2 eexists. split; [reflexivity|].
    apply framed_const; [apply integerResponse_one_line|done].
  - specialize (Hreq Hpos). set (deadline := now2 + seconds * NS_PER_S) in *.
    destruct (law_expire now now2 (store w) k seconds deadline)
      as (s' & Hop & Hinv' & Hk & Hne & _); [apply Hw|done|done| |].
    { by apply add_seconds_defined. }
    rewrite Hop. do 2 eexists. split; [reflexivity|]. split; [apply integerResponse_one_line|].
    eapply framed_store; [done|exact Hk| |by auto|done].
    intros v e Hv. destruct (live_slot now (view (store w) k)) as [[v' d']|] eqn:E; [|done].
    injection Hv as <- _. by eapply live_clean.
Qed.

Lemma stats_framed l : framed_step now now2 (mkCommand STATS l) w.
Proof.
  unfold framed_step, dispatch. simpl. rewrite stats_defined by (done || apply Hw).
  do 2 eexists. split; [reflexivity|].
  apply framed_const; [apply valueResponse_one_line, stats_text_no_newline|done].
Qed.
End framed_request.

(** One request gets one line, and leaves no line feed in the storage. *)
Lemma dispatch_framed now now2 cmd w :
  framed w -> req_ok (now, now2, cmd) -> clean_command cmd -> framed_step now now2 cmd w.
Proof.
  destruct cmd as [ty al]. intros Hw Hreq Hcmd. pose proof Hreq as (Hnow & Hnow2 & _).
  assert (Hv : forall k v l, al = k :: v :: l -> ch_nl ∉ v).
  { intros k v l ->. by inversion Hcmd as [|? ? _ Hc]; inversion Hc. }
  destruct ty, al as [|k [|v l]];
    eauto using set_framed, get_framed, del_framed, ttl_framed, expire_framed, stats_framed;
    do 2 eexists; (split; [reflexivity|]); apply framed_const; try done;
    first [apply errorResponse_one_line|apply one_line_of]; by_evaluation.
Qed.

Lemma serve_framed_lines reqs w :
  framed w -> Forall req_ok reqs -> Forall (fun req => clean_command req.2) reqs ->
  exists rs w', serve reqs w = Ret (rs, w') /\ length rs = length reqs /\
    Forall one_line rs /\ framed w'.
Proof.
  intros Hw Hok. revert w Hw. induction Hok as [|[[now now2] cmd] reqs Hreq _ IH]; intros w Hw Hcl.
  - by exists [], w.
  - inversion Hcl as [|? ? Hc Hcl']; subst.
    destruct (dispatch_framed now now2 cmd w Hw Hreq Hc) as (r & w1 & Hd & Hr & Hw1).
    destruct (IH w1 Hw1 Hcl') as (rs & w2 & Hs & Hlen & Hrs & Hw2). exists (r :: rs), w2.
    simpl. rewrite Hd. simpl. rewrite Hs. simpl. split; [done|]. split; [by f_equal|].
    split; [by constructor|done].
Qed.

(** ** Counters *)

Definition is_read (cmd : Command) : bool :=
  match type cmd, args cmd with GET, _ :: _ => true | _, _ => false end.

Definition is_write (cmd : Command) : bool :=
  match type cmd, args cmd with
  | SET, _ :: _ :: _ | DEL, _ :: _ => true
  | _, _ => false
  end.

Definition count (f : Command -> bool) (reqs : list (Z * Z * Command)) : Z :=
  Z.of_nat (length (List.filter (fun req => f req.2) reqs)).

(** What one request adds to the counters. *)
Lemma dispatch_counters now now2 cmd w r w' :
  dispatch now now2 cmd w = Ret (r, w') ->
  total_requests_ (disp w') = u64 (total_requests_ (disp w) + 1) /\
  u64 (total_reads_ (disp w')) = u64 (total_reads_ (disp w) + Z.b2z (is_read cmd)) /\
  u64 (total_writes_ (disp w')) = u64 (total_writes_ (disp w) + Z.b2z (is_write cmd)) /\
  u64 (cache_hits_ (disp w') + cache_misses_ (disp w')) =
    u64 (cache_hits_ (disp w) + cache_misses_ (disp w) + Z.b2z (is_read cmd)).
Proof.
  unfold dispatch, is_read, is_write.
  destruct (type cmd), (args cmd) as [|k [|v l]]; intros Hd;
    repeat match type of Hd with
    | context [stoll ?x] => destruct (stoll x)
    end;
    repeat (first [apply bind_Ret_inv in Hd as ([] & _ & Hd)|apply bind_Ret_inv in Hd as (? & _ & Hd)]);
    repeat match type of Hd with
    | context [match ?o with Some _ => _ | None => _ end] => destruct o
    end;
    simplify_eq/=; unfold inc_reads, inc_hits, inc_misses, inc_writes, inc_requests; simpl;
    rewrite ?Z.add_0_r; repeat split; try done;
    unfold u64; rewrite ?Zmod_mod, ?Zplus_mod_idemp_l, ?Zplus_mod_idemp_r; f_equal; lia.
Qed.

Lemma count_cons f req reqs : count f (req :: reqs) = Z.b2z (f req.2) + count f reqs.
Proof. unfold count. simpl. destruct (f req.2); simpl; lia. Qed.

Lemma u64_cong a b c : u64 a = u64 b -> u64 (a + c) = u64 (b + c).
Proof. intros E. by rewrite <- (u64_add_l a), E, u64_add_l. Qed.

Lemma serve_counts reqs w rs w' :
  serve reqs w = Ret (rs, w') ->
  u64 (total_requests_ (disp w')) = u64 (total_requests_ (disp w) + Z.of_nat (length reqs)) /\
  u64 (total_reads_ (disp w')) = u64 (total_reads_ (disp w) + count is_read reqs) /\
  u64 (total_writes_ (disp w')) = u64 (total_writes_ (disp w) + count is_write reqs) /\
  u64 (cache_hits_ (disp w') + cache_misses_ (disp w')) =
    u64 (cache_hits_ (disp w) + cache_misses_ (disp w) + count is_read reqs).
Proof.
  revert w rs. induction reqs as [|[[now now2] cmd] reqs IH]; intros w rs Hs; simpl in Hs.
  - outcome_inv. unfold count. simpl. by rewrite !Z.add_0_r.
  - apply bind_Ret_inv in Hs as ([r w1] & Hd & Hs).
    apply bind_Ret_inv in Hs as ([rs1 w2] & Hs & Hr). injection Hr as <- <-.
    destruct (dispatch_counters _ _ _ _ _ _ Hd) as (H1 & H2 & H3 & H4).
    destruct (IH w1 rs1 Hs) as (E1 & E2 & E3 & E4). rewrite !count_cons. simpl.
    rewrite E1, E2, E3, E4, !Z.add_assoc. split; [|split; [|split]]; try (by apply u64_cong).
    rewrite H1, u64_add_l. f_equal. lia.
Qed.

(** After any sequence of requests the counters STATS reports are the number of
    requests, of GETs and of SETs and DELs with enough arguments, and every GET was a
    hit or a miss (all modulo the width of the counters). *)
Lemma serve_counters start reqs s a rs w' :
  serve reqs (mkWorld (new_dispatcher start) s a) = Ret (rs, w') ->
  u64 (total_requests_ (disp w')) = u64 (Z.of_nat (length reqs)) /\
  u64 (total_reads_ (disp w')) = u64 (count is_read reqs) /\
  u64 (total_writes_ (disp w')) = u64 (count is_write reqs) /\
  u64 (cache_hits_ (disp w') + cache_misses_ (disp w')) = u64 (total_reads_ (disp w')).
Proof.
  intros Hs. destruct (serve_counts _ _ _ _ Hs) as (E1 & E2 & E3 & E4). simpl in *.
  rewrite E2. done.
Qed.

(** ** Edges of the protocol *)

Lemma ttl_of_lower now2 o : -2 <= ttl_of now2 o.
Proof. destruct o as [[v [d|]]|]; simpl; lia. Qed.

(** The remaining time goes through an [int]: the TTL response is right exactly when
    it is below 2^31 seconds. *)
Lemma ttl_response_exact_iff now now2 k l w :
  store_inv (store w) -> clock_reading now2 ->
  exists r w', dispatch now now2 (mkCommand TTL (k :: l)) w = Ret (r, w') /\
    (r = integerResponse (ttl_of now2 (live_slot now (view (store w) k))) <->
     ttl_of now2 (live_slot now (view (store w) k)) <= INT_MAX).
Proof.
  intros Hinv Hnow2. destruct (law_ttl now now2 (store w) k Hinv Hnow2) as (s' & Hop & _).
  unfold dispatch. simpl. rewrite Hop. do 2 eexists. split; [reflexivity|].
  pose proof (ttl_of_lower now2 (live_slot now (view (store w) k))) as Hlow.
  set (t := ttl_of now2 (live_slot now (view (store w) k))) in *. split.
  - intros Heq%integerResponse_inj. rewrite <- Heq. apply to_int_range.
  - intros Hle. by rewrite to_int_small by (unfold in_int, INT_MIN in *; lia).
Qed.

(** A client cannot tell the value nil from a missing key, and that is the only value
    it cannot tell. *)
Lemma get_nil_ambiguous now now2 k l w :
  store_inv (store w) ->
  exists r w', dispatch now now2 (mkCommand GET (k :: l)) w = Ret (r, w') /\
    (r = nilResponse <->
     forall v d, live_slot now (view (store w) k) = Some (v, d) -> v = str "nil").
Proof.
  intros Hinv. destruct (law_get now (store w) k Hinv) as (s' & Hop & _).
  unfold dispatch. simpl. rewrite Hop.
  destruct (live_slot now (view (store w) k)) as [[v d]|]; simpl; do 2 eexists;
    (split; [reflexivity|]); split; try done.
  - intros Heq v' d' [= <- _]. apply valueResponse_inj. exact Heq.
  - intros Hv. by rewrite (Hv v d eq_refl).
Qed.
End facts.
