(* ===== verification/Isolation.v ===== *)
(** * Clients that use different keys

    The dispatcher serves the requests of all clients in one order, whatever their
    interleaving.  As long as nothing is evicted, a client whose keys no other client
    names gets the responses it would get alone, from a server of its own. *)

From S2P Require Import Prelude Cpp Lru Parser Response StorageInterface AofFormat AofWriter.
From S2P Require Import Dispatcher DispatcherFacts.
Local Open Scope Z_scope.

(** The key a command is about. *)
Definition cmd_key (cmd : Command) : option bytes := head (args cmd).

(** ** The reference looks at one key *)

Definition agree_on (P : bytes -> Prop) (m m' : kv) : Prop := forall k, P k -> m k = m' k.

Lemma kv_update_agree P k o m m' : agree_on P m m' -> agree_on P (kv_update k o m) (kv_update k o m').
Proof. intros Hm k' Hk'. unfold kv_update. case_decide; [done|by apply Hm]. Qed.

Lemma kv_update_foreign (P : bytes -> Prop) k o m : ~ P k -> agree_on P (kv_update k o m) m.
Proof. intros Hk k' Hk'. unfold kv_update. case_decide; [by subst|done]. Qed.

(** A command about a key of [P], or about none, sees the keys of [P] only. *)
Lemma ref_dispatch_local (P : bytes -> Prop) now now2 cmd m m' :
  (forall k, cmd_key cmd = Some k -> P k) -> agree_on P m m' ->
  (ref_dispatch now now2 cmd m).1 = (ref_dispatch now now2 cmd m').1 /\
  agree_on P (ref_dispatch now now2 cmd m).2 (ref_dispatch now now2 cmd m').2.
Proof.
  intros Hk Hm. destruct cmd as [ty [|k [|n l]]]; unfold cmd_key in Hk; simpl in Hk; unfold ref_dispatch;
    destruct ty; cbn [type args]; try done; try (pose proof (Hm k (Hk k eq_refl)) as Heq; rewrite Heq);
    try (by split; [|apply kv_update_agree]).
  destruct (stoll n) as [seconds| |]; try done. destruct (seconds <? 0); [done|].
  split; [done|by apply kv_update_agree].
Qed.

(** A command about another key leaves them alone. *)
Lemma ref_dispatch_foreign (P : bytes -> Prop) now now2 cmd m k :
  cmd_key cmd = Some k -> ~ P k -> agree_on P (ref_dispatch now now2 cmd m).2 m.
Proof.
  intros Hk HP. destruct cmd as [ty [|k' [|n l]]]; unfold cmd_key in Hk; simpl in Hk; try done;
    injection Hk as ->; unfold ref_dispatch; destruct ty; cbn [type args]; try done;
    try by apply kv_update_foreign.
  destruct (stoll n) as [seconds| |]; try done. destruct (seconds <? 0); [done|]. by apply kv_update_foreign.
Qed.

(** ** Clients *)

Section clients.
Context {S : Type} `{StorageLaws S}.
Implicit Types (reqs : list (nat * (Z * Z * Command))) (w : World S).

(** The requests of client [c], and the responses to them among the responses to all. *)
Definition requests_of (c : nat) reqs : list (Z * Z * Command) := (filter (fun r => r.1 = c) reqs).*2.

Fixpoint answers_of (c : nat) reqs (rs : list bytes) : list bytes :=
  match reqs, rs with
  | (c', _) :: reqs', r :: rs' =>
      if decide (c' = c) then r :: answers_of c reqs' rs' else answers_of c reqs' rs'
  | _, _ => []
  end.

(** No other client names a key of [P], and client [c] names no other key. *)
Definition own_keys (P : bytes -> Prop) (c : nat) reqs : Prop :=
  Forall (fun r => match cmd_key r.2.2 with
                   | Some k => if decide (r.1 = c) then P k else ~ P k
                   | None => True
                   end) reqs.

Lemma ref_dispatch_keyless now now2 cmd m : cmd_key cmd = None -> (ref_dispatch now now2 cmd m).2 = m.
Proof. destruct cmd as [ty [|]]; [|done]. intros _. by destruct ty. Qed.

Lemma ref_serve_cons now now2 cmd (l : list (Z * Z * Command)) m :
  ref_serve ((now, now2, cmd) :: l) m =
    ((ref_dispatch now now2 cmd m).1 :: (ref_serve l (ref_dispatch now now2 cmd m).2).1,
     (ref_serve l (ref_dispatch now now2 cmd m).2).2).
Proof. simpl. destruct (ref_dispatch now now2 cmd m) as [r m']. simpl. by destruct (ref_serve l m'). Qed.

Lemma ref_serve_isolated P c reqs m m' :
  own_keys P c reqs -> agree_on P m m' ->
  answers_of c reqs (ref_serve reqs.*2 m).1 = (ref_serve (requests_of c reqs) m').1.
Proof.
  revert m m'. induction reqs as [|[c' [[now now2] cmd]] reqs IH]; intros m m' Hown Hm; [done|].
  apply Forall_cons in Hown as [Hk Hown]. cbn [fst snd] in Hk. unfold requests_of. rewrite fmap_cons, filter_cons.
  cbn [fst snd]. rewrite ref_serve_cons. cbn [answers_of fst]. case_decide as Hc.
  - destruct (ref_dispatch_local P now now2 cmd m m') as [Hr Hm']; [|done|].
    { intros k Hck. by rewrite Hck in Hk. }
    rewrite fmap_cons. cbn [snd]. rewrite ref_serve_cons. cbn [fst]. rewrite Hr. f_equal. by apply IH.
  - apply IH; [done|]. destruct (cmd_key cmd) as [k|] eqn:Hck.
    + intros k' Hk'. rewrite (ref_dispatch_foreign P now now2 cmd m k Hck Hk k' Hk'). by apply Hm.
    + by rewrite ref_dispatch_keyless.
Qed.

(** The requests of a client, each with two responses, of the same text unless STATS. *)
Lemma answers_of_same c reqs rs rs' :
  Forall3 (fun req : Z * Z * Command => same_response req.2) reqs.*2 rs rs' ->
  Forall3 (fun req : Z * Z * Command => same_response req.2) (requests_of c reqs) (answers_of c reqs rs)
    (answers_of c reqs rs').
Proof.
  revert rs rs'. induction reqs as [|[c' req] reqs IH]; intros rs rs' Hall; unfold requests_of.
  { constructor. }
  rewrite fmap_cons in Hall. inversion Hall; subst. rewrite filter_cons. cbn [fst answers_of].
  case_decide; [rewrite fmap_cons; constructor; [done|]|]; by apply IH.
Qed.

Lemma same_responses_trans (l : list (Z * Z * Command)) rs rs0 ref :
  Forall3 (fun req => same_response req.2) l rs ref -> Forall3 (fun req => same_response req.2) l rs0 ref ->
  Forall3 (fun req => same_response req.2) l rs rs0.
Proof.
  intros Hr. revert rs0. induction Hr as [|x a b l ra rb Hx Hr IH]; intros rs0 Hr0; inversion Hr0; subst.
  - constructor.
  - constructor; [|by apply IH]. destruct Hx as [Hx|Hx]; [by left|]. subst.
    match goal with Hb : same_response _ _ _ |- _ => destruct Hb as [Hb|Hb]; [by left|by right] end.
Qed.

(** C8: In any interleaving of the requests of any clients, when the EXPIRE deadlines of all
    of them fit the clock and the storage has room for all the keys written, a client that
    names keys of its own only gets the responses it gets when it is alone with a server, both starting empty,
    except to STATS, whose text is about the server: nothing the others write, delete or
    let expire is visible to it. *)
Theorem clients_isolated K P c reqs w w0 :
  refines_kv K w kv_empty -> refines_kv K w0 kv_empty -> own_keys P c reqs ->
  Forall (fun r => req_ok r.2 /\ req_within K r.2) reqs ->
  exists rs w' rs0 w0', serve reqs.*2 w = Ret (rs, w') /\ serve (requests_of c reqs) w0 = Ret (rs0, w0') /\
    Forall3 (fun req => same_response req.2) (requests_of c reqs) (answers_of c reqs rs) rs0.
Proof.
  intros Hw Hw0 Hown Hok.
  assert (Hsub : forall Q : Z * Z * Command -> Prop, Forall (fun r : nat * (Z * Z * Command) => Q r.2) reqs ->
    Forall Q reqs.*2 /\ Forall Q (requests_of c reqs)).
  { intros Q HQ. unfold requests_of. rewrite !Forall_fmap. split; [done|].
    apply Forall_forall. intros r [_ Hr]%list_elem_of_filter. by apply (proj1 (Forall_forall _ _) HQ). }
  destruct (Hsub req_ok) as [Hok1 Hok2]; [by eapply Forall_impl; [exact Hok|intros r []]|].
  destruct (Hsub (req_within K)) as [Hin1 Hin2]; [by eapply Forall_impl; [exact Hok|intros r []]|].
  destruct (serve_refines K reqs.*2 w kv_empty Hok1 Hin1 Hw) as (rs & w' & Hs & Hr & _).
  destruct (serve_refines K (requests_of c reqs) w0 kv_empty Hok2 Hin2 Hw0) as (rs0 & w0' & Hs0 & Hr0 & _).
  exists rs, w', rs0, w0'. split; [done|]. split; [done|].
  apply (answers_of_same c) in Hr. rewrite (ref_serve_isolated P c reqs kv_empty kv_empty Hown) in Hr by done.
  by eapply same_responses_trans.
Qed.
End clients.
