(* ===== verification/Recovery.v ===== *)
(** * Recovery from the append-only file

    The dispatcher logs what it writes ([src/protocol/dispatcher.cpp]), the writer puts
    the lines in the file ([src/storage/aof_writer.cpp]), and at the next start the file
    is replayed ([src/storage/aof_replay.cpp]).  The theorems say what comes back, and
    what does not: a lifetime of zero seconds, and a line torn by a crash. *)

From S2P Require Import Prelude Cpp Lru Parser Response StorageInterface AofFormat AofWriter.
From S2P Require Import AofReplay Dispatcher DispatcherFacts.
Local Open Scope Z_scope.

(** ** What a request logs *)

(** The lines of one request, by the state of the map before it. *)
Definition ref_log (now : Z) (cmd : Command) (m : kv) : list bytes :=
  match type cmd, args cmd with
  | SET, k :: v :: _ => [setLine k v]
  | DEL, k :: _ => if bool_decide (is_Some (live_slot now (m k))) then [delLine k] else []
  | EXPIRE, k :: n :: _ =>
      match stoll n with
      | Conv seconds =>
          if bool_decide (0 <= seconds) && bool_decide (is_Some (live_slot now (m k)))
          then [expireLine k seconds] else []
      | _ => []
      end
  | _, _ => []
  end.

Fixpoint ref_logs (reqs : list (Z * Z * Command)) (m : kv) : list bytes :=
  match reqs with
  | [] => []
  | (now, now2, cmd) :: reqs' =>
      ref_log now cmd m ++ ref_logs reqs' (ref_dispatch now now2 cmd m).2
  end.

(** A writer that accepts lines. *)
Definition accepting (a : AOFWriter) : Prop := enabled_ a = true /\ stopped_ a = false.

Definition append_log (lines : list bytes) (a : AOFWriter) : AOFWriter :=
  set_queue (queue_ a ++ lines) a.

Lemma append_log_nil a : append_log [] a = a.
Proof. unfold append_log. rewrite app_nil_r. by destruct a. Qed.

Lemma append_log_app l1 l2 a : append_log l2 (append_log l1 a) = append_log (l1 ++ l2) a.
Proof. unfold append_log. simpl. by rewrite app_assoc. Qed.

Lemma append_log_accepting l a : accepting a -> accepting (append_log l a).
Proof. done. Qed.

Lemma logSet_accepting k v a : accepting a -> logSet k v a = append_log [setLine k v] a.
Proof. intros [He Hs]. unfold logSet, enqueue. by rewrite He, Hs. Qed.

Lemma logDel_accepting k a : accepting a -> logDel k a = append_log [delLine k] a.
Proof. intros [He Hs]. unfold logDel, enqueue. by rewrite He, Hs. Qed.

Lemma logExpire_accepting k n a : accepting a -> logExpire k n a = append_log [expireLine k n] a.
Proof. intros [He Hs]. unfold logExpire, enqueue. by rewrite He, Hs. Qed.

Section logging.
Context {S : Type} `{StorageLaws S}.
Implicit Types (w : World S) (m : kv).

(** A request appends its lines to the queue, in one piece, and nothing else. *)
Lemma dispatch_log K now now2 cmd w m a r w' :
  req_ok (now, now2, cmd) -> refines_kv K w m -> aof w = Some a -> accepting a ->
  dispatch now now2 cmd w = Ret (r, w') -> aof w' = Some (append_log (ref_log now cmd m) a).
Proof.
  destruct cmd as [ty al]. intros (Hnow & Hnow2 & Hreq) (Hinv & _ & _ & Hview) Ha Hacc.
  unfold dispatch, ref_log. simpl in *.
  destruct ty, al as [|k [|v l]]; simpl in *;
    try (intros [= <- <-]; simpl; by rewrite append_log_nil);
    try (destruct (law_get now (store w) k Hinv) as (s' & -> & _); simpl; case_match;
         intros [= <- <-]; simpl; by rewrite append_log_nil);
    try (destruct (law_del now (store w) k Hinv) as (s' & -> & _); simpl; rewrite Hview;
         intros [= <- <-]; simpl; case_match; rewrite Ha, ?append_log_nil; simpl;
         by rewrite ?logDel_accepting);
    try (destruct (law_ttl now now2 (store w) k Hinv Hnow2) as (s' & -> & _); simpl;
         intros [= <- <-]; simpl; by rewrite append_log_nil);
    try (intros (u & _ & Heq)%bind_Ret_inv; injection Heq as <- <-; simpl;
         by rewrite append_log_nil).
  - destruct (law_set (store w) k v Hinv) as (s' & -> & _). simpl. intros [= <- <-]. simpl.
    by rewrite Ha; simpl; rewrite logSet_accepting.
  - destruct (stoll v) as [seconds| |];
      try (intros [= <- <-]; simpl; by rewrite append_log_nil).
    destruct (bool_decide_reflect (0 <= seconds)) as [Hpos|Hneg]; simpl.
    + destruct (law_expire now now2 (store w) k seconds (now2 + seconds * NS_PER_S))
        as (s' & -> & _); [done..|by apply add_seconds_defined; auto|]. simpl. rewrite Hview.
      intros [= <- <-]. simpl. case_match; rewrite Ha, ?append_log_nil; simpl;
        by rewrite ?logExpire_accepting.
    + rewrite law_expire_negative by lia. simpl. intros [= <- <-]. simpl.
      by rewrite append_log_nil.
Qed.

Lemma serve_log K reqs w m a rs w' :
  Forall req_ok reqs -> Forall (req_within K) reqs -> refines_kv K w m ->
  aof w = Some a -> accepting a -> serve reqs w = Ret (rs, w') ->
  aof w' = Some (append_log (ref_logs reqs m) a).
Proof.
  intros Hok. revert w m a rs. induction Hok as [|[[now now2] cmd] reqs Hreq _ IH];
    intros w m a rs Hin Hw Ha Hacc Hs; simpl in *.
  - outcome_inv. by rewrite append_log_nil.
  - inversion Hin as [|? ? Hin1 Hin2]; subst.
    destruct (dispatch_refines K now now2 cmd w m Hreq Hin1 Hw) as (r & w1 & Hd & _ & Hw1).
    rewrite Hd in Hs. simpl in Hs. apply bind_Ret_inv in Hs as ([rs1 w2] & Hs & Heq).
    injection Heq as <- <-.
    pose proof (dispatch_log K now now2 cmd w m a r w1 Hreq Hw Ha Hacc Hd) as Ha1.
    rewrite (IH w1 _ _ _ Hin2 Hw1 Ha1 (append_log_accepting _ _ Hacc) Hs).
    by rewrite append_log_app.
Qed.
End logging.

(** ** What replay restores *)

(** An argument the log keeps: one that survives quoting and has no line feed. *)
Definition loggable (a : bytes) : Prop := replayable a /\ ch_nl ∉ a.

(** A request whose log line can be replayed at time [T]: its arguments survive, and an
    EXPIRE asks for a lifetime that is not zero and that the clock can still hold. *)
Definition req_loggable (T : Z) (req : Z * Z * Command) : Prop :=
  match type req.2, args req.2 with
  | SET, k :: v :: _ => loggable k /\ loggable v
  | DEL, k :: _ => loggable k
  | EXPIRE, k :: n :: _ =>
      loggable k /\
      match stoll n with
      | Conv seconds => seconds <> 0 /\ T + (seconds + 1) * NS_PER_S <= INT64_MAX
      | _ => True
      end
  | _, _ => True
  end.

(** [recovered o o']: a slot [o] before the restart, and [o'] after it.  The value is
    the same, and there is a deadline exactly when there was one; a key that was not
    stored any more can only come back with a deadline. *)
Definition recovered (o o' : option slot) : Prop :=
  match o, o' with
  | Some (v, d), Some (v', d') => v = v' /\ (d = None <-> d' = None)
  | Some _, None => False
  | None, Some (_, d') => d' <> None
  | None, None => True
  end.

Lemma recovered_live now o o' : recovered o o' -> recovered (live_slot now o) o'.
Proof.
  destruct o as [[v d]|]; simpl; [|done]. unfold slot_expired. simpl.
  destruct d as [d|]; [|done]. destruct (d <=? now) eqn:E; [|done].
  destruct o' as [[v' d']|]; simpl; naive_solver.
Qed.

Section replaying.
Context {S : Type} `{StorageLaws S}.
Context (K : gset bytes) (T : Z).
Implicit Types (s : S) (m : kv) (st : Stats).

(** The clock during the replay: less than one second passes. *)
Definition replay_clock (clock : nat -> Z * Z) : Prop :=
  forall i, T <= (clock i).1 < T + NS_PER_S /\ T <= (clock i).2 < T + NS_PER_S.

(** The storage being rebuilt, next to the map [m] of the run that wrote the log. *)
Definition replaying m s : Prop :=
  store_inv s /\ fits K s /\ (forall k, recovered (m k) (view s k)) /\
  (forall k v d, view s k = Some (v, Some d) -> T + NS_PER_S <= d).

Lemma replay_setLine now now2 k v s st :
  replayable k -> replayable v ->
  replay_line now now2 (setLine k v) s st = s' ← op_set k v s; Ret (s', count_replayed st).
Proof. intros Hk Hv. unfold replay_line. by rewrite parse_setLine. Qed.

Lemma replay_delLine now now2 k s st :
  replayable k ->
  replay_line now now2 (delLine k) s st = '(_, s') ← op_del now k s; Ret (s', count_replayed st).
Proof. intros Hk. unfold replay_line. by rewrite parse_delLine. Qed.

Lemma replay_expireLine now now2 k seconds s st :
  replayable k -> in_int64 seconds ->
  replay_line now now2 (expireLine k seconds) s st =
  if seconds <=? 0 then Ret (s, count_error st)
  else '(_, s') ← op_expire now now2 k seconds s; Ret (s', count_replayed st).
Proof.
  intros Hk Hs. unfold replay_line. rewrite parse_expireLine by done. simpl.
  by rewrite stoll_to_string.
Qed.

(** Nothing expires during the replay. *)
Lemma replaying_live m s now k :
  replaying m s -> now < T + NS_PER_S -> live_slot now (view s k) = view s k.
Proof.
  intros (_ & _ & _ & Hd) Hnow. destruct (view s k) as [[v [d|]]|] eqn:E; simpl; try done.
  unfold slot_expired. simpl. specialize (Hd k v d E).
  by destruct (Z.leb_spec d now); [lia|].
Qed.

(** One key changes on both sides. *)
Lemma replaying_update m s s' k o :
  replaying m s -> store_inv s' -> fits K s' ->
  (forall k', k <> k' -> view s' k' = view s k') -> recovered o (view s' k) ->
  (forall v d, view s' k = Some (v, Some d) -> T + NS_PER_S <= d) ->
  replaying (kv_update k o m) s'.
Proof.
  intros (_ & _ & Hr & Hd) Hinv Hfit Hne Hk Hdk. split; [done|]. split; [done|].
  unfold kv_update. split; intros k'; destruct (decide (k = k')) as [<-|Hkk].
  - done.
  - rewrite Hne by done. apply Hr.
  - apply Hdk.
  - rewrite Hne by done. apply Hd.
Qed.

(** A key that expired in the run that wrote the log. *)
Lemma replaying_unlogged m s k now :
  replaying m s -> replaying (kv_update k (live_slot now (m k)) m) s.
Proof.
  intros Hs. pose proof Hs as (Hinv & Hfit & Hr & Hd).
  apply (replaying_update m s s k _ Hs); try done; [|by eauto]. apply recovered_live, Hr.
Qed.

(** One request's lines rebuild what the request did. *)
Definition restores (clock : nat -> Z * Z) lines m' s : Prop :=
  forall i st, exists s' st', replay_lines clock i lines s st = Ret (s', st') /\
    errors st' = errors st /\ lines_skipped st' = lines_skipped st /\
    u64 (commands_replayed st') = u64 (commands_replayed st + Z.of_nat (length lines)) /\
    replaying m' s'.

Lemma restores_nil clock m s : replaying m s -> restores clock [] m s.
Proof. intros Hs i st. exists s, st. simpl. by rewrite Z.add_0_r. Qed.

(** A single line: it is enough that each reading of the window restores. *)
Lemma restores_one clock line m' s :
  replay_clock clock ->
  (forall now now2, T <= now < T + NS_PER_S -> T <= now2 < T + NS_PER_S ->
     forall st, exists s', replay_line now now2 line s st = Ret (s', count_replayed st) /\
       replaying m' s') ->
  restores clock [line] m' s.
Proof.
  intros Hclock Hline i st. destruct (Hclock i) as [H1 H2].
  destruct (Hline _ _ H1 H2 st) as (s' & Hl & Hs'). exists s', (count_replayed st).
  simpl. rewrite Hl. simpl. split; [done|]. split; [done|]. split; [done|]. split; [|done].
  unfold u64. by rewrite Z.mod_mod.
Qed.

Section one_request.
Context (clock : nat -> Z * Z) (Hclock : replay_clock clock) (HT : 0 <= T).
Context (m : kv) (s : S) (Hs : replaying m s).

Lemma restores_set k v :
  loggable k -> loggable v -> k ∈ K ->
  restores clock [setLine k v] (kv_update k (Some (v, None)) m) s.
Proof.
  intros [Hk _] [Hv _] HkK. apply restores_one; [done|]. intros now now2 _ _ st.
  destruct Hs as (Hinv & Hfit & Hr & Hd).
  destruct (law_set s k v Hinv) as (s' & Hop & Hinv' & Hkv & _ & Hf).
  destruct (Hf K Hfit HkK) as [Hfit' Hne]. exists s'.
  rewrite replay_setLine, Hop by done. split; [done|].
  apply (replaying_update m s); try done; rewrite Hkv; [done|]. intros v' d [=].
Qed.

Lemma restores_del k :
  loggable k -> restores clock [delLine k] (kv_update k None m) s.
Proof.
  intros [Hk _]. apply restores_one; [done|]. intros nw nw2 _ _ st.
  destruct Hs as (Hinv & Hfit & Hr & Hd).
  destruct (law_del nw s k Hinv) as (s' & Hop & Hinv' & Hkv & Hne & Hf). exists s'.
  rewrite replay_delLine, Hop by done. split; [done|].
  apply (replaying_update m s); try done; [by apply Hf|by rewrite Hkv|].
  rewrite Hkv. intros v d [=].
Qed.

Lemma restores_expire now deadline k seconds :
  loggable k -> in_int64 seconds -> 0 < seconds ->
  T + (seconds + 1) * NS_PER_S <= INT64_MAX -> is_Some (live_slot now (m k)) ->
  restores clock [expireLine k seconds]
    (kv_update k ((fun x => (x.1, Some deadline)) <$> live_slot now (m k)) m) s.
Proof.
  intros [Hk _] Hi Hpos Hmax Hlive. apply restores_one; [done|]. intros nw nw2 Hnw Hnw2 st.
  rewrite replay_expireLine by done. destruct (Z.leb_spec seconds 0); [lia|].
  pose proof (replaying_live m s nw k Hs ltac:(lia)) as Hl.
  destruct Hs as (Hinv & Hfit & Hr & Hd).
  destruct (law_expire nw nw2 s k seconds (nw2 + seconds * NS_PER_S) Hinv)
    as (s' & Hop & Hinv' & Hkv & Hne & Hf); [lia| |apply add_seconds_defined| ];
    try (unfold clock_reading, NS_PER_S in *; lia).
  exists s'. rewrite Hop. split; [done|]. rewrite Hl in Hkv.
  apply (replaying_update m s); try done; [by apply Hf| |].
  - rewrite Hkv. specialize (Hr k). destruct (m k) as [[v d]|]; simpl in *; [|by destruct Hlive].
    destruct (slot_expired now (v, d)); [by destruct Hlive|].
    destruct (view s k) as [[v' d']|]; simpl in *; [|done]. by destruct Hr.
  - rewrite Hkv. intros v d. destruct (view s k) as [x|]; [|done]. intros [= _ <-].
    unfold NS_PER_S in *. lia.
Qed.

(** The lines of any request. *)
Lemma restores_request now now2 cmd :
  req_within K (now, now2, cmd) -> req_loggable T (now, now2, cmd) ->
  restores clock (ref_log now cmd m) (ref_dispatch now now2 cmd m).2 s.
Proof.
  destruct cmd as [ty al]. unfold req_within, req_loggable, ref_log, ref_dispatch. simpl.
  intros Hin Hlog. destruct ty, al as [|k [|v l]]; simpl in *;
    try (by apply restores_nil); try (by apply restores_nil, replaying_unlogged);
    try (case_bool_decide as Hl; [by apply restores_del|]; apply restores_nil;
         apply eq_None_not_Some in Hl; rewrite <- Hl; by apply replaying_unlogged).
  - destruct Hlog. by apply restores_set.
  - destruct Hlog as [Hk Hn]. destruct (stoll v) as [seconds| |] eqn:E; try by apply restores_nil.
    destruct Hn as [Hnz Hmax]. destruct (Z.ltb_spec seconds 0) as [Hneg|Hpos].
    { rewrite bool_decide_eq_false_2 by lia. by apply restores_nil. }
    rewrite bool_decide_eq_true_2 by done. simpl. case_bool_decide as Hl; simpl.
    + apply restores_expire; try done; [by eapply stoll_range|lia].
    + apply eq_None_not_Some in Hl. pose proof (replaying_unlogged m s k now Hs) as Hu.
      rewrite Hl in *. by apply restores_nil.
Qed.
End one_request.

Lemma replay_lines_app clock i l1 l2 s st :
  replay_lines clock i (l1 ++ l2) s st =
  '(s', st') ← replay_lines clock i l1 s st; replay_lines clock (length l1 + i)%nat l2 s' st'.
Proof.
  revert i s st. induction l1 as [|l l1 IH]; intros i s st; simpl; [done|].
  destruct (replay_line _ _ l s st) as [[s1 st1]|]; simpl; [|done].
  rewrite IH. by rewrite Nat.add_succ_r.
Qed.

Lemma restores_app clock l1 l2 m1 m2 s :
  restores clock l1 m1 s -> (forall s', replaying m1 s' -> restores clock l2 m2 s') ->
  restores clock (l1 ++ l2) m2 s.
Proof.
  intros H1 H2 i st. destruct (H1 i st) as (s1 & st1 & Hl1 & He1 & Hk1 & Hc1 & Hs1).
  destruct (H2 s1 Hs1 (length l1 + i)%nat st1) as (s2 & st2 & Hl2 & He2 & Hk2 & Hc2 & Hs2).
  exists s2, st2. rewrite replay_lines_app, Hl1. simpl. split; [done|]. split; [congruence|].
  split; [congruence|]. split; [|done]. rewrite Hc2, length_app, Nat2Z.inj_add, Z.add_assoc.
  by apply u64_cong.
Qed.

(** Replaying the log of a sequence of requests. *)
Lemma restores_run clock reqs m s :
  replay_clock clock -> 0 <= T -> Forall (req_within K) reqs -> Forall (req_loggable T) reqs ->
  replaying m s -> restores clock (ref_logs reqs m) (ref_serve reqs m).2 s.
Proof.
  intros Hclock HT Hin. revert m s. induction Hin as [|[[now now2] cmd] reqs Hreq _ IH];
    intros m s Hlog Hs; simpl.
  - by apply restores_nil.
  - inversion Hlog as [|? ? Hlog1 Hlog2]; subst.
    pose proof (restores_request clock Hclock HT m s Hs now now2 cmd Hreq Hlog1) as H1.
    destruct (ref_dispatch now now2 cmd m) as [r m1]. simpl in *.
    specialize (IH m1). destruct (ref_serve reqs m1) as [rs m2]. simpl in *.
    eapply restores_app; [done|]. intros s' Hs'. by apply IH.
Qed.
End replaying.

(** ** The lines of the log have no line feed *)

Lemma quoteIfNeeded_no_newline s : ch_nl ∉ s -> ch_nl ∉ quoteIfNeeded s.
Proof.
  intros Hs. unfold quoteIfNeeded. destruct (needs_quoting s); [|done].
  apply not_elem_of_cons. split; [done|]. apply not_elem_of_app.
  split; [by apply escape_no_newline|by_evaluation].
Qed.

Lemma line_no_newline w a b :
  ch_nl ∉ str w -> ch_nl ∉ a -> ch_nl ∉ b -> ch_nl ∉ str w ++ quoteIfNeeded a ++ str " " ++ b.
Proof.
  intros Hw Ha Hb. rewrite !not_elem_of_app. split; [done|].
  split; [by apply quoteIfNeeded_no_newline|]. split; [by_evaluation|done].
Qed.

Lemma setLine_no_newline k v : ch_nl ∉ k -> ch_nl ∉ v -> ch_nl ∉ setLine k v.
Proof. intros. apply line_no_newline; [by_evaluation|done|by apply quoteIfNeeded_no_newline]. Qed.

Lemma expireLine_no_newline k n : ch_nl ∉ k -> ch_nl ∉ expireLine k n.
Proof. intros. apply line_no_newline; [by_evaluation|done|apply to_string_no_newline]. Qed.

Lemma delLine_no_newline k : ch_nl ∉ k -> ch_nl ∉ delLine k.
Proof.
  intros. apply not_elem_of_app. split; [by_evaluation|by apply quoteIfNeeded_no_newline].
Qed.

Lemma ref_log_no_newline T now now2 cmd m :
  req_loggable T (now, now2, cmd) -> Forall (fun l => ch_nl ∉ l) (ref_log now cmd m).
Proof.
  destruct cmd as [ty al]. unfold req_loggable, ref_log, loggable. simpl. intros Hlog.
  destruct ty, al as [|k [|v l]]; simpl in *; try done; repeat case_match; try done;
    apply Forall_singleton; destruct_and?;
    auto using delLine_no_newline, expireLine_no_newline, setLine_no_newline.
Qed.

Lemma ref_logs_no_newline T reqs m :
  Forall (req_loggable T) reqs -> Forall (fun l => ch_nl ∉ l) (ref_logs reqs m).
Proof.
  intros HF. revert m. induction HF as [|[[now now2] cmd] reqs Hreq _ IH]; intros m; simpl; [done|].
  apply Forall_app. split; [by eapply ref_log_no_newline|apply IH].
Qed.

(** ** Restart *)

(** A life of the log writer on a file that holds [existing]: started, fed [lines] in
    this order, stopped when no producer was about to push; the file holds [contents]. *)
Definition writer_life (existing : bytes) (lines : list bytes) (contents : bytes) : Prop :=
  exists now interval w0 es1 w1 es2 w f,
    aof_start (Some existing) (new_writer now interval) = Some w0 /\
    Forall healthy es1 /\ aof_run es1 w0 = Some w1 /\ stopped_ w1 = false /\ pushing_ w1 = [] /\
    Forall healthy es2 /\ aof_run (EvStopStore :: es2 ++ [EvStopFinish IoOk]) w1 = Some w /\
    lines = pushed es1 ++ pushed es2 /\ file_ w = Some f /\ contents = disk f.

Lemma writer_life_contents existing lines contents :
  writer_life existing lines contents -> contents = existing ++ lines_text lines.
Proof.
  intros (now & interval & w0 & es1 & w1 & es2 & w & f & Hst & Hh1 & Hr1 & Hns & Hp & Hh2 & Hr & -> & Hf & ->).
  destruct (stop_flushes now interval existing w0 es1 w1 es2 w) as (f' & Hf' & _ & _ & _ & Hd); try done.
  congruence.
Qed.

Section restart.
Context {S : Type} `{StorageLaws S}.
Implicit Types (w : World S) (s : S).

(** A storage with no key and room for the keys [K]. *)
Definition empty_store (K : gset bytes) s : Prop :=
  store_inv s /\ fits K s /\ forall k, view s k = None.

(** A server that starts empty, with logging on. *)
Definition fresh_server (K : gset bytes) w (a : AOFWriter) : Prop :=
  empty_store K (store w) /\ clock_reading (start_time_ (disp w)) /\
  aof w = Some a /\ accepting a /\ queue_ a = [].

Lemma fresh_refines K w a : fresh_server K w a -> refines_kv K w kv_empty.
Proof. intros ((Hinv & Hfit & Hv) & Hst & _). done. Qed.

Lemma fresh_serve_log K reqs w a rs w' :
  fresh_server K w a -> Forall req_ok reqs -> Forall (req_within K) reqs ->
  serve reqs w = Ret (rs, w') -> aof w' = Some (append_log (ref_logs reqs kv_empty) a).
Proof.
  intros Hw Hok Hin Hs. pose proof Hw as (_ & _ & Ha & Hacc & _).
  by eapply serve_log; eauto using fresh_refines.
Qed.

(** The log is exact: each request that changed the map, and no other, appended its
    line, in the order of the requests. *)
Lemma serve_logs K reqs w a :
  fresh_server K w a -> Forall req_ok reqs -> Forall (req_within K) reqs ->
  exists rs w', serve reqs w = Ret (rs, w') /\
    aof w' = Some (append_log (ref_logs reqs kv_empty) a).
Proof.
  intros Hw Hok Hin.
  destruct (serve_refines K reqs w kv_empty Hok Hin (fresh_refines _ _ _ Hw)) as (rs & w' & Hs & _).
  exists rs, w'. split; [done|]. by eapply fresh_serve_log.
Qed.

(** Restart: any sequence of requests whose arguments survive quoting, logged, written
    by the writer thread in any interleaving, stopped and replayed on a new storage
    within one second brings back every stored key with its value, with a deadline
    exactly if it had one, and every line of the file is replayed without an error.  A
    key that had expired can come back, with a deadline. *)
Lemma restart_recovers K T reqs w a clock s0 :
  fresh_server K w a -> Forall req_ok reqs -> Forall (req_within K) reqs ->
  Forall (req_loggable T) reqs -> empty_store K s0 -> replay_clock T clock -> 0 <= T ->
  exists rs w' a', serve reqs w = Ret (rs, w') /\ aof w' = Some a' /\
    forall contents, writer_life [] (queue_ a') contents ->
    exists s1 st, replay clock (Some contents) s0 = Ret (s1, st) /\
      errors st = 0 /\ lines_skipped st = 0 /\
      u64 (commands_replayed st) = u64 (Z.of_nat (length (queue_ a'))) /\
      forall k, recovered (view (store w') k) (view s1 k).
Proof.
  intros Hw Hok Hin Hlog (Hinv0 & Hfit0 & Hv0) Hclock HT. pose proof Hw as (_ & _ & _ & _ & Hq).
  destruct (serve_refines K reqs w kv_empty Hok Hin (fresh_refines _ _ _ Hw))
    as (rs & w' & Hs & _ & _ & _ & _ & Hview).
  exists rs, w', (append_log (ref_logs reqs kv_empty) a). split; [done|].
  split; [by eapply fresh_serve_log|]. simpl. rewrite Hq. simpl.
  intros contents ->%writer_life_contents. unfold replay. cbn [app].
  rewrite getlines_lines_text by (by eapply ref_logs_no_newline).
  assert (Hr : replaying K T kv_empty s0).
  { split; [done|]. split; [done|]. split; intros k; rewrite Hv0; done. }
  destruct (restores_run K T clock reqs kv_empty s0 Hclock HT Hin Hlog Hr 0%nat (mkStats 0 0 0))
    as (s1 & st & Hl & He & Hk & Hc & _ & _ & Hrec & _).
  exists s1, st. split; [done|]. split; [done|]. split; [done|]. split; [done|].
  intros k. rewrite Hview. apply Hrec.
Qed.

(** ** What does not come back as it was *)

(** C38: EXPIRE with zero seconds expires the key at once and is logged, but the replay
    rejects lifetimes that are not positive: after a restart the key is back, and it
    never expires. *)
Theorem expire_zero_resurrects K w a k v t1 t2 t3 clock s0 :
  fresh_server K w a -> k ∈ K -> loggable k -> loggable v ->
  clock_reading t1 -> clock_reading t2 -> clock_reading t3 -> empty_store K s0 ->
  exists rs w' a',
    serve [(t1, t1, mkCommand SET [k; v]); (t2, t3, mkCommand EXPIRE [k; str "0"])] w = Ret (rs, w') /\
    (forall now, t3 <= now -> live_slot now (view (store w') k) = None) /\ aof w' = Some a' /\
    exists s1 st, replay clock (Some (lines_text (queue_ a'))) s0 = Ret (s1, st) /\
      view s1 k = Some (v, None) /\ errors st = 1.
Proof.
  intros Hw HkK [Hk Hkn] [Hv Hvn] Ht1 Ht2 Ht3 (Hinv0 & Hfit0 & Hv0).
  set (reqs := [(t1, t1, mkCommand SET [k; v]); (t2, t3, mkCommand EXPIRE [k; str "0"])]).
  assert (Hz : stoll (str "0") = Conv 0) by reflexivity.
  assert (Hlive : live_slot t2 (kv_update k (Some (v, None)) kv_empty k) = Some (v, None)).
  { unfold kv_update. by rewrite decide_True. }
  assert (Hok : Forall req_ok reqs).
  { constructor; [done|]. constructor; [|done]. split; [done|]. split; [done|].
    cbn [type args]. rewrite Hz. intros _. by rewrite Z.add_0_r. }
  assert (Hin : Forall (req_within K) reqs) by (by repeat constructor).
  destruct (serve_refines K reqs w kv_empty Hok Hin (fresh_refines _ _ _ Hw))
    as (rs & w' & Hs & _ & _ & _ & _ & Hview).
  exists rs, w', (append_log (ref_logs reqs kv_empty) a). split; [done|]. split; [|split].
  - intros now Hnow. rewrite Hview. unfold reqs. cbn [ref_serve ref_dispatch type args].
    rewrite Hz, Hlive. simpl. unfold kv_update at 1. rewrite decide_True by done.
    simpl. unfold slot_expired. simpl. by rewrite (proj2 (Z.leb_le _ _)) by lia.
  - by eapply fresh_serve_log.
  - destruct Hw as (_ & _ & _ & _ & Hq). unfold append_log. cbn [queue_ set_queue].
    assert (Hlog : ref_logs reqs kv_empty = [setLine k v; expireLine k 0]).
    { unfold reqs. cbn [ref_logs ref_log ref_dispatch type args snd app].
      by rewrite Hz, Hlive. }
    rewrite Hq, Hlog. cbn [app]. unfold replay. rewrite getlines_lines_text.
    + destruct (law_set s0 k v Hinv0) as (s1 & Hop & _ & Hk1 & _).
      cbn [replay_lines]. rewrite replay_setLine, Hop by done. cbn [mbind outcome_bind].
      rewrite replay_expireLine by done. simpl. eauto.
    + repeat constructor; [by apply setLine_no_newline|by apply expireLine_no_newline].
Qed.

(** C39: A log cut in the middle of its last line is replayed as if the line were complete:
    the key comes back with a value that was never stored, and no error is counted. *)
Theorem torn_line_accepted K k v c clock s0 :
  loggable k -> loggable v -> ch_nl <> c -> needs_quoting (v ++ [c]) = false -> empty_store K s0 ->
  exists contents s1 st, contents `prefix_of` lines_text [setLine k (v ++ [c])] /\
    replay clock (Some contents) s0 = Ret (s1, st) /\
    view s1 k = Some (v, None) /\ errors st = 0.
Proof.
  intros [Hk Hkn] [Hv Hvn] Hc Hq (Hinv0 & _ & _). exists (setLine k v).
  assert (Hqv : quoteIfNeeded v = v).
  { unfold quoteIfNeeded. destruct (needs_quoting v) eqn:E; [|done].
    unfold needs_quoting in *. by rewrite existsb_app, E in Hq. }
  destruct (law_set s0 k v Hinv0) as (s1 & Hop & _ & Hk1 & _). exists s1, (mkStats 1 0 0).
  split; [|split; [|by split]].
  - assert (Hl : setLine k (v ++ [c]) = setLine k v ++ [c]).
    { unfold setLine. rewrite Hqv. unfold quoteIfNeeded at 2. rewrite Hq.
      by rewrite <- !app_assoc. }
    rewrite Hl. unfold lines_text, render. simpl. exists [c; ch_nl].
    by rewrite app_nil_r, <- app_assoc.
  - unfold replay. rewrite (getlines_torn (setLine k v)) by (done || by apply setLine_no_newline).
    cbn [replay_lines]. by rewrite replay_setLine, Hop.
Qed.
End restart.
