(* ===== verification/Restarts.v ===== *)
(** * Any number of restarts

    A server that starts replays the log its predecessors left, serves, and appends to the
    same file.  The log is interpreted as a map of its own ([log_kv]: values, and which
    keys have a deadline); every session keeps the storage in agreement with it, so what
    the last session stored comes back however often the server was restarted. *)

From S2P Require Import Prelude Cpp Lru Parser Response StorageInterface AofFormat AofWriter.
From S2P Require Import AofReplay Dispatcher DispatcherFacts Recovery.
Local Open Scope Z_scope.

(** ** The log as a map *)

Inductive entry : Type :=
| ESet (k v : bytes)
| EDel (k : bytes)
| EExpire (k : bytes) (seconds : Z).

Definition entry_line (e : entry) : bytes :=
  match e with
  | ESet k v => setLine k v
  | EDel k => delLine k
  | EExpire k n => expireLine k n
  end.

(** A value, and whether it has a deadline. *)
Definition shape : Type := bytes -> option (bytes * bool).

Definition shape_update (k : bytes) (o : option (bytes * bool)) (g : shape) : shape :=
  fun k' => if decide (k = k') then o else g k'.

Definition apply_entry (g : shape) (e : entry) : shape :=
  match e with
  | ESet k v => shape_update k (Some (v, false)) g
  | EDel k => shape_update k None g
  | EExpire k _ => shape_update k ((fun x => (x.1, true)) <$> g k) g
  end.

Definition log_kv (es : list entry) : shape := foldl apply_entry (fun _ => None) es.

(** The shape of a slot. *)
Definition slot_shape (s : slot) : bytes * bool := (s.1, bool_decide (is_Some s.2)).

(** A map a session may have when the log says [g]: the same values, with a deadline in
    the same places, except that keys with a deadline may be gone. *)
Definition agrees (m : kv) (g : shape) : Prop :=
  forall k, match m k, g k with
            | Some s, o => o = Some (slot_shape s)
            | None, Some (_, d) => d = true
            | None, None => True
            end.

(** What can be logged, replayed at time [T] and stored without an eviction. *)
Definition entry_ok (K : gset bytes) (T : Z) (e : entry) : Prop :=
  match e with
  | ESet k v => loggable k /\ loggable v /\ k ∈ K
  | EDel k => loggable k
  | EExpire k n => loggable k /\ in_int64 n /\ 0 < n /\ T + (n + 1) * NS_PER_S <= INT64_MAX
  end.

Lemma agrees_update m g k o o' :
  agrees m g ->
  match o, o' with
  | Some s, _ => o' = Some (slot_shape s)
  | None, Some (_, d) => d = true
  | None, None => True
  end -> agrees (kv_update k o m) (shape_update k o' g).
Proof. intros Hm Ho k'. unfold kv_update, shape_update. case_decide; [done|apply Hm]. Qed.

Lemma shape_update_same k g k' : shape_update k (g k) g k' = g k'.
Proof. unfold shape_update. by case_decide as Hd; [rewrite Hd|]. Qed.

Lemma agrees_ext m g g' : (forall k, g k = g' k) -> agrees m g -> agrees m g'.
Proof. intros Hg Hm k. rewrite <- Hg. apply Hm. Qed.

(** A reader removes an expired key from the map; the log still has it. *)
Lemma agrees_live m g k now : agrees m g -> agrees (kv_update k (live_slot now (m k)) m) g.
Proof.
  intros Hm. apply (agrees_ext _ (shape_update k (g k) g)); [apply shape_update_same|].
  apply agrees_update; [done|]. specialize (Hm k). destruct (m k) as [[v d]|]; simpl; [|done].
  unfold slot_expired. simpl. destruct d as [d|]; [|done]. destruct (d <=? now); [|done]. by rewrite Hm.
Qed.

Lemma agrees_recovered m g m' :
  agrees m g -> (forall k, slot_shape <$> m' k = g k) -> forall k, recovered (m k) (m' k).
Proof.
  intros Hm Hm' k. specialize (Hm k). rewrite <- Hm' in Hm. unfold slot_shape in Hm.
  destruct (m k) as [[v d]|], (m' k) as [[v' d']|]; simpl in *; simplify_eq; try done.
  - split; [done|]. destruct d, d'; simpl in *; (done || by split).
  - by destruct d'.
Qed.

(** A request that logs one entry, or none. *)
Definition logs_as (K : gset bytes) (T : Z) (g : shape) (lines : list bytes) (m' : kv) : Prop :=
  exists es, lines = entry_line <$> es /\ Forall (entry_ok K T) es /\ agrees m' (foldl apply_entry g es).

Lemma logs_nothing K T g m' : agrees m' g -> logs_as K T g [] m'.
Proof. intros Hm. by exists []. Qed.

Lemma logs_del K T now m g k :
  loggable k -> agrees m g ->
  logs_as K T g (if bool_decide (is_Some (live_slot now (m k))) then [delLine k] else []) (kv_update k None m).
Proof.
  intros Hk Hm. case_bool_decide as Hl.
  - exists [EDel k]. split_and!; [done|by apply Forall_singleton|]. simpl. by apply agrees_update.
  - apply logs_nothing. apply eq_None_not_Some in Hl. rewrite <- Hl. by apply agrees_live.
Qed.

Lemma logs_expire K T now deadline m g k seconds :
  loggable k -> in_int64 seconds -> 0 <= seconds -> seconds <> 0 -> T + (seconds + 1) * NS_PER_S <= INT64_MAX ->
  agrees m g ->
  logs_as K T g (if bool_decide (is_Some (live_slot now (m k))) then [expireLine k seconds] else [])
    (kv_update k ((fun x => (x.1, Some deadline)) <$> live_slot now (m k)) m).
Proof.
  intros Hk Hi Hpos Hnz Hmax Hm. case_bool_decide as Hl.
  - exists [EExpire k seconds]. split_and!; [done|apply Forall_singleton; split_and!; (done || lia)|].
    simpl. apply agrees_update; [done|]. destruct Hl as [x Hx]. rewrite Hx. apply live_slot_Some in Hx.
    specialize (Hm k). rewrite Hx in Hm. rewrite Hm. done.
  - apply logs_nothing. apply eq_None_not_Some in Hl. rewrite Hl. simpl. rewrite <- Hl. by apply agrees_live.
Qed.

(** The entries a request logs, and what it does to map and log. *)
Lemma ref_log_entries K T now now2 cmd m g :
  req_within K (now, now2, cmd) -> req_loggable T (now, now2, cmd) -> agrees m g ->
  logs_as K T g (ref_log now cmd m) (ref_dispatch now now2 cmd m).2.
Proof.
  destruct cmd as [ty al]. unfold req_within, req_loggable, ref_log, ref_dispatch. simpl.
  intros Hin Hlog Hm. pose proof (agrees_live m g) as Hlive.
  destruct ty, al as [|k [|v l]]; simpl in *;
    try (by apply logs_nothing); try (apply logs_nothing; by apply Hlive); try (by apply logs_del).
  - exists [ESet k v]. destruct Hlog. split_and!; [done|by apply Forall_singleton|].
    simpl. by apply agrees_update.
  - destruct Hlog as [Hk Hn]. destruct (stoll v) as [seconds| |] eqn:E; try by apply logs_nothing.
    destruct Hn as [Hnz Hmax]. destruct (Z.ltb_spec seconds 0).
    { rewrite bool_decide_eq_false_2 by lia. by apply logs_nothing. }
    rewrite bool_decide_eq_true_2 by done. simpl. apply logs_expire; try done. by eapply stoll_range.
Qed.

Lemma ref_logs_entries K T reqs m g :
  Forall (req_within K) reqs -> Forall (req_loggable T) reqs -> agrees m g ->
  logs_as K T g (ref_logs reqs m) (ref_serve reqs m).2.
Proof.
  intros Hin. revert m g. induction Hin as [|[[now now2] cmd] reqs Hreq _ IH]; intros m g Hlog Hm; simpl.
  { by apply logs_nothing. }
  apply Forall_cons in Hlog as [Hlog1 Hlog2].
  destruct (ref_log_entries K T now now2 cmd m g Hreq Hlog1 Hm) as (es & -> & Hok & Hm1).
  destruct (ref_dispatch now now2 cmd m) as [r m1]. simpl in *.
  destruct (IH m1 _ Hlog2 Hm1) as (es2 & -> & Hok2 & Hm2).
  destruct (ref_serve reqs m1) as [rs m2]. simpl in *. exists (es ++ es2).
  rewrite fmap_app, foldl_app. split; [done|]. split; [by apply Forall_app|done].
Qed.

(** ** Replaying *)

Section replaying.
Context {S : Type} `{StorageLaws S}.
Context (K : gset bytes) (T : Z).
Implicit Types (s : S) (g : shape).

(** The storage rebuilt from a log with the map [g], during the second of the replay. *)
Definition rebuilt g s : Prop :=
  store_inv s /\ fits K s /\ (forall k, slot_shape <$> view s k = g k) /\
  (forall k v d, view s k = Some (v, Some d) -> T + NS_PER_S <= d).

Lemma rebuilt_update g s s' k o :
  rebuilt g s -> store_inv s' -> fits K s' -> (forall k', k <> k' -> view s' k' = view s k') ->
  slot_shape <$> view s' k = o -> (forall v d, view s' k = Some (v, Some d) -> T + NS_PER_S <= d) ->
  rebuilt (shape_update k o g) s'.
Proof.
  intros (_ & _ & Hg & Hd) Hinv Hfit Hne Hk Hdk. split_and!; [done|done| |]; unfold shape_update;
    intros k'; try case_decide as Hkk; try (subst k'; done);
    try (rewrite Hne by done; auto).
  intros v d. destruct (decide (k = k')) as [<-|Hkk]; [apply Hdk|]. rewrite Hne by done. apply Hd.
Qed.

Lemma replay_entry g s e now now2 st :
  rebuilt g s -> entry_ok K T e -> 0 <= T -> T <= now < T + NS_PER_S -> T <= now2 < T + NS_PER_S ->
  exists s', replay_line now now2 (entry_line e) s st = Ret (s', count_replayed st) /\
    rebuilt (apply_entry g e) s'.
Proof.
  intros Hs He HT Hnow Hnow2. pose proof Hs as (Hinv & Hfit & Hg & Hd). destruct e as [k v|k|k n];
    cbn [entry_line apply_entry entry_ok] in *.
  - destruct He as ([Hk _] & [Hv _] & HkK). destruct (law_set s k v Hinv) as (s' & Hop & Hinv' & Hkv & _ & Hf).
    destruct (Hf K Hfit HkK) as [Hfit' Hne]. exists s'. rewrite replay_setLine, Hop by done. split; [done|].
    apply (rebuilt_update g s); try done; rewrite Hkv; [done|]. intros v' d [=].
  - destruct He as [Hk _]. destruct (law_del now s k Hinv) as (s' & Hop & Hinv' & Hkv & Hne & Hf).
    exists s'. rewrite replay_delLine, Hop by done. split; [done|].
    apply (rebuilt_update g s); try done; [by apply Hf|by rewrite Hkv|]. rewrite Hkv. intros v d [=].
  - destruct He as ([Hk _] & Hi & Hpos & Hmax). rewrite replay_expireLine by done.
    destruct (Z.leb_spec n 0); [lia|].
    assert (Hl : live_slot now (view s k) = view s k).
    { destruct (view s k) as [[v [d|]]|] eqn:E; simpl; try done. unfold slot_expired. simpl.
      specialize (Hd k v d E). by destruct (Z.leb_spec d now); [lia|]. }
    destruct (law_expire now now2 s k n (now2 + n * NS_PER_S) Hinv) as (s' & Hop & Hinv' & Hkv & Hne & Hf);
      [lia| |apply add_seconds_defined|]; try (unfold clock_reading, NS_PER_S in *; lia).
    exists s'. rewrite Hop. split; [done|]. rewrite Hl in Hkv.
    apply (rebuilt_update g s); try done; [by apply Hf| |].
    + rewrite Hkv, <- Hg. by destruct (view s k).
    + rewrite Hkv. intros v d. destruct (view s k) as [x|]; [|done]. intros [= _ <-].
      unfold NS_PER_S in *. lia.
Qed.

Lemma replay_entries clock es g s i st :
  rebuilt g s -> Forall (entry_ok K T) es -> 0 <= T -> replay_clock T clock ->
  exists s' st', replay_lines clock i (entry_line <$> es) s st = Ret (s', st') /\
    errors st' = errors st /\ lines_skipped st' = lines_skipped st /\
    rebuilt (foldl apply_entry g es) s'.
Proof.
  intros Hs Hes HT Hclock. revert g s i st Hs. induction Hes as [|e es He _ IH]; intros g s i st Hs.
  { by exists s, st. }
  destruct (Hclock i) as [H1 H2].
  destruct (replay_entry g s e (clock i).1 (clock i).2 st Hs He HT H1 H2) as (s1 & Hl & Hs1).
  destruct (IH _ s1 (Datatypes.S i) (count_replayed st) Hs1) as (s2 & st2 & Hrun & He2 & Hk2 & Hs2).
  exists s2, st2. rewrite fmap_cons. cbn [replay_lines]. rewrite Hl. cbn [mbind outcome_bind].
  split; [done|]. done.
Qed.
End replaying.

(** ** Sessions *)

Section history.
Context {S : Type} `{StorageLaws S}.
Context (K : gset bytes) (T : Z).
Implicit Types (w : World S) (s : S) (m : kv).

(** A server that has just replayed its log into the storage [s], with an empty queue. *)
Definition started s w (a : AOFWriter) : Prop :=
  store w = s /\ clock_reading (start_time_ (disp w)) /\ aof w = Some a /\ accepting a /\ queue_ a = [].

(** [history file m]: after some sessions the log file holds [file], and the storage at
    the end of the last one held [m].  A session starts on an empty storage, replays the
    file within a second at a time up to [T], serves requests on keys of [K] whose lines
    survive until [T], and writes its log. *)
Inductive history : bytes -> kv -> Prop :=
| history_new : history [] kv_empty
| history_session file m t clock s0 s1 st w a reqs rs w' a' file' :
    history file m -> 0 <= t <= T -> replay_clock t clock -> empty_store K s0 ->
    replay clock (Some file) s0 = Ret (s1, st) -> started s1 w a ->
    Forall req_ok reqs -> Forall (req_within K) reqs -> Forall (req_loggable T) reqs ->
    serve reqs w = Ret (rs, w') -> aof w' = Some a' -> writer_life file (queue_ a') file' ->
    history file' (view (store w')).

(** The file is the text of entries that agree with the storage. *)
Definition logged (file : bytes) m : Prop :=
  exists es, file = lines_text (entry_line <$> es) /\ Forall (entry_ok K T) es /\ agrees m (log_kv es).

Lemma entry_ok_earlier t e : t <= T -> entry_ok K T e -> entry_ok K t e.
Proof. intros Ht. destruct e; simpl; try done. intros (? & ? & ? & ?). split_and!; (done || lia). Qed.

Lemma entries_no_newline es : Forall (entry_ok K T) es -> Forall (fun l => ch_nl ∉ l) (entry_line <$> es).
Proof.
  intros Hes. apply Forall_fmap. eapply Forall_impl; [exact Hes|]. unfold compose, loggable.
  intros [k v|k|k n] He; cbn [entry_line entry_ok] in *; unfold loggable in He;
    [apply setLine_no_newline|apply delLine_no_newline|apply expireLine_no_newline]; tauto.
Qed.

(** Replaying such a file rebuilds exactly its map, without an error. *)
Lemma replay_logged file m t clock s0 :
  logged file m -> 0 <= t <= T -> replay_clock t clock -> empty_store K s0 ->
  exists s1 st es, replay clock (Some file) s0 = Ret (s1, st) /\ errors st = 0 /\ lines_skipped st = 0 /\
    file = lines_text (entry_line <$> es) /\ Forall (entry_ok K T) es /\ agrees m (log_kv es) /\
    rebuilt K t (log_kv es) s1.
Proof.
  intros (es & -> & Hok & Hm) Ht Hclock (Hinv0 & Hfit0 & Hv0). unfold replay.
  rewrite getlines_lines_text by (by apply entries_no_newline).
  destruct (replay_entries K t clock es (fun _ => None) s0 0 (mkStats 0 0 0)) as (s1 & st & Hr & He & Hk & Hs).
  - split; [done|]. split; [done|]. split; intros k; rewrite Hv0; [done|by intros v d].
  - eapply Forall_impl; [exact Hok|]. intros e. apply entry_ok_earlier; lia.
  - lia.
  - done.
  - exists s1, st, es. split_and!; done.
Qed.

Lemma agrees_rebuilt t g s : rebuilt K t g s -> agrees (view s) g.
Proof. intros (_ & _ & Hg & _) k. rewrite <- Hg. by destruct (view s k). Qed.

Lemma agrees_view m m' g : (forall k, m' k = m k) -> agrees m g -> agrees m' g.
Proof. intros Hmm Hm k. rewrite Hmm. apply Hm. Qed.

Lemma history_logged file m : history file m -> logged file m.
Proof.
  induction 1 as [|file m t clock s0 s1 st w a reqs rs w' a' file' _ IH Ht Hclock Hs0 Hreplay Hw Hok Hin
    Hlog Hserve Ha' Hlife].
  { exists []. split_and!; done. }
  destruct (replay_logged file m t clock s0 IH Ht Hclock Hs0)
    as (s1' & st' & es & Hreplay' & _ & _ & Hfile & Hes & _ & Hreb).
  assert (s1' = s1) as -> by congruence. destruct Hw as (Hst & Hclk & Ha & Hacc & Hq).
  pose proof Hreb as (Hinv1 & Hfit1 & _).
  assert (Href : refines_kv K w (view s1)) by (split_and!; subst; done).
  destruct (serve_refines K reqs w (view s1) Hok Hin Href) as (rs' & w1 & Hserve' & _ & _ & _ & _ & Hview).
  assert (w1 = w') as -> by congruence.
  pose proof (serve_log K reqs w (view s1) a rs w' Hok Hin Href Ha Hacc Hserve) as Ha1.
  destruct (ref_logs_entries K T reqs (view s1) (log_kv es) Hin Hlog (agrees_rebuilt t _ _ Hreb))
    as (es2 & Hlines & Hes2 & Hm2).
  apply writer_life_contents in Hlife. assert (a' = append_log (ref_logs reqs (view s1)) a) as -> by congruence.
  exists (es ++ es2). split; [|split].
  - rewrite Hlife, Hfile, fmap_app, lines_text_app. simpl. by rewrite Hq, Hlines.
  - by apply Forall_app.
  - unfold log_kv. rewrite foldl_app. by apply (agrees_view _ _ _ Hview).
Qed.

(** However often the server was restarted: the next start replays the log without an
    error and brings back every key the last session stored, with its value, and with a
    deadline exactly if it had one; and it can serve again. *)
Lemma restarts_recover file m t clock s0 :
  history file m -> 0 <= t <= T -> replay_clock t clock -> empty_store K s0 ->
  exists s1 st, replay clock (Some file) s0 = Ret (s1, st) /\ errors st = 0 /\ lines_skipped st = 0 /\
    (forall k, recovered (m k) (view s1 k)) /\
    forall w a reqs, started s1 w a -> Forall req_ok reqs -> Forall (req_within K) reqs ->
      exists rs w', serve reqs w = Ret (rs, w').
Proof.
  intros Hh%history_logged Ht Hclock Hs0.
  destruct (replay_logged file m t clock s0 Hh Ht Hclock Hs0)
    as (s1 & st & es & Hr & He & Hk & _ & _ & Hm & Hinv & Hfit & Hg & _).
  exists s1, st. split_and!; [done|done|done|by eapply agrees_recovered|].
  intros w a reqs (Hst & Hclk & _) Hok Hin.
  destruct (serve_refines K reqs w (view s1) Hok Hin) as (rs & w' & Hserve & _); [split_and!; subst; done|].
  eauto.
Qed.
End history.
