(* ===== verification/ReplayReport.v ===== *)
(** * Replaying any file ([src/storage/aof_replay.cpp], [src/server/server.cpp])

    The log file of a server may be damaged, edited by hand or no log at all.  A reference
    reads a line as an entry to apply, a line to pass over or an error, and the theorem
    says that a replay applies exactly the entries, in order, whatever else the file
    holds, and accounts for every line: the statistics it returns and the messages it
    writes to [std::cerr]. *)

From S2P Require Import Prelude Cpp Lru Parser StorageInterface AofFormat AofReplay Recovery Restarts.
Local Open Scope Z_scope.

(** ** Messages *)

Section messages.
(** [what()] of the two exceptions of [std::stoll], which the standard leaves to the
    implementation. *)
Context (what_invalid_argument what_out_of_range : bytes).

(** Why a line is an error, in the words of the message. *)
Definition replay_reason (line : bytes) : option bytes :=
  match line with
  | [] => None
  | _ =>
      let cmd := parseCommand line in
      match type cmd with
      | SET => if (2 <=? length (args cmd))%nat then None else Some (str "SET requires 2 arguments")
      | DEL => match args cmd with _ :: _ => None | [] => Some (str "DEL requires 1 argument") end
      | EXPIRE =>
          match args cmd with
          | _ :: n :: _ =>
              match stoll n with
              | Conv seconds => if seconds <=? 0 then Some (str "EXPIRE TTL must be positive") else None
              | InvalidArgument => Some what_invalid_argument
              | OutOfRange => Some what_out_of_range
              end
          | _ => Some (str "EXPIRE requires 2 arguments")
          end
      | _ => None
      end
  end.

Definition replay_message (line_num : Z) (line : bytes) : option bytes :=
  (fun reason => str "AOF line " ++ to_string line_num ++ str " skipped: " ++ reason ++ [ch_nl])
    <$> replay_reason line.

(** What the replay of lines writes to [std::cerr]; [line_num] counts the lines before. *)
Fixpoint replay_messages (line_num : Z) (lines : list bytes) : list bytes :=
  match lines with
  | [] => []
  | line :: lines' =>
      let line_num := u64 (line_num + 1) in
      option_list (replay_message line_num line) ++ replay_messages line_num lines'
  end.
End messages.

(** What the constructor of the server says about a replay. *)
Definition replay_report (stats : Stats) : bytes :=
  str "AOF: " ++ to_string (commands_replayed stats) ++ str " commands replayed" ++
  (if 0 <? errors stats then str " (" ++ to_string (errors stats) ++ str " errors)" else []) ++ [ch_nl].

(** ** The reference *)

Inductive line_class : Type := Applies (e : entry) | Rejected | PassedOver.

Definition classify (line : bytes) : line_class :=
  match line with
  | [] => PassedOver
  | _ =>
      match parseCommand line with
      | mkCommand SET (k :: v :: _) => Applies (ESet k v)
      | mkCommand DEL (k :: _) => Applies (EDel k)
      | mkCommand EXPIRE (k :: n :: _) =>
          match stoll n with
          | Conv seconds => if 0 <? seconds then Applies (EExpire k seconds) else Rejected
          | _ => Rejected
          end
      | mkCommand (SET | DEL | EXPIRE) _ => Rejected
      | _ => PassedOver
      end
  end.

Definition applies (c : line_class) : bool := if c is Applies _ then true else false.
Definition rejected (c : line_class) : bool := if c is Rejected then true else false.
Definition passed_over (c : line_class) : bool := if c is PassedOver then true else false.

Definition count_class (f : line_class -> bool) (lines : list bytes) : nat :=
  length (filter (fun l => f (classify l) = true) lines).

(** Every line is counted once. *)
Lemma classes_partition lines :
  (count_class applies lines + count_class passed_over lines + count_class rejected lines)%nat = length lines.
Proof.
  unfold count_class. induction lines as [|l lines IH]; [done|].
  rewrite !filter_cons. destruct (classify l); cbn [applies rejected passed_over];
    repeat (case_decide; [|]); try done; simpl; lia.
Qed.

(** The lines the writer writes are entries. *)
Lemma classify_entry_line K T e : entry_ok K T e -> classify (entry_line e) = Applies e.
Proof.
  destruct e as [k v|k|k n]; cbn [entry_ok entry_line]; unfold classify.
  - intros ([Hk _] & [Hv _] & _). rewrite parse_setLine by done. done.
  - intros [Hk _]. rewrite parse_delLine by done. done.
  - intros ([Hk _] & Hn & Hpos & _). rewrite parse_expireLine, stoll_to_string by done.
    destruct (Z.ltb_spec 0 n); [done|lia].
Qed.

Section reference.
Context {S : Type} `{StorageLaws S}.
Implicit Types (s : S).

Definition run_entry (now now2 : Z) (e : entry) s : outcome S :=
  match e with
  | ESet k v => op_set k v s
  | EDel k => '(_, s') ← op_del now k s; Ret s'
  | EExpire k seconds => '(_, s') ← op_expire now now2 k seconds s; Ret s'
  end.

(** The entries of the lines, each with the clock readings made for it. *)
Fixpoint entries_of (clock : nat -> Z * Z) (i : nat) (lines : list bytes) : list (Z * Z * entry) :=
  match lines with
  | [] => []
  | line :: lines' =>
      match classify line with
      | Applies e => (clock i, e) :: entries_of clock (Datatypes.S i) lines'
      | _ => entries_of clock (Datatypes.S i) lines'
      end
  end.

Fixpoint run_entries (es : list (Z * Z * entry)) s : outcome S :=
  match es with
  | [] => Ret s
  | (now, now2, e) :: es' => s' ← run_entry now now2 e s; run_entries es' s'
  end.

(** An entry whose deadline the clock can represent. *)
Definition entry_defined (x : Z * Z * entry) : Prop :=
  match x with
  | (_, now2, EExpire _ seconds) => clock_reading now2 /\ clock_reading (now2 + seconds * NS_PER_S)
  | _ => True
  end.

Definition bump_class (c : line_class) (st : Stats) : Stats :=
  match c with
  | Applies _ => count_replayed st
  | Rejected => count_error st
  | PassedOver => count_skipped st
  end.

Lemma replay_line_class now now2 line s st :
  replay_line now now2 line s st =
    s' ← match classify line with Applies e => run_entry now now2 e s | _ => Ret s end;
    Ret (s', bump_class (classify line) st).
Proof.
  unfold replay_line, classify. destruct line as [|c line]; [done|]. destruct (parseCommand (c :: line)) as [ty ar].
  cbn [type args]. destruct ty; try done; destruct ar as [|k [|v ar]]; try done; cbn [run_entry bump_class].
  - by destruct (op_del now k s) as [[]|].
  - by destruct (op_del now k s) as [[]|].
  - destruct (stoll v) as [n| |]; try done. destruct (Z.leb_spec n 0), (Z.ltb_spec 0 n); try lia; [done|].
    cbn [run_entry bump_class]. by destruct (op_expire now now2 k n s) as [[]|].
Qed.

Lemma bump_counts line a b c :
  bump_class (classify line) (mkStats (u64 a) (u64 b) (u64 c)) =
  mkStats (u64 (a + Z.of_nat (count_class applies [line]))) (u64 (b + Z.of_nat (count_class passed_over [line])))
    (u64 (c + Z.of_nat (count_class rejected [line]))).
Proof.
  unfold count_class. rewrite !filter_cons. destruct (classify line); cbn [bump_class applies rejected passed_over];
    repeat (case_decide; [|]); try done; unfold count_replayed, count_error, count_skipped; cbn;
    by rewrite ?u64_add_l, ?Z.add_0_r.
Qed.

Lemma count_class_cons f line lines :
  count_class f (line :: lines) = (count_class f [line] + count_class f lines)%nat.
Proof. unfold count_class. rewrite !filter_cons. by case_decide. Qed.

Lemma replay_lines_class clock i lines s a b c :
  replay_lines clock i lines s (mkStats (u64 a) (u64 b) (u64 c)) =
    s' ← run_entries (entries_of clock i lines) s;
    Ret (s', mkStats (u64 (a + Z.of_nat (count_class applies lines)))
               (u64 (b + Z.of_nat (count_class passed_over lines)))
               (u64 (c + Z.of_nat (count_class rejected lines)))).
Proof.
  revert i s a b c. induction lines as [|line lines IH]; intros i s a b c.
  { simpl. by rewrite !Z.add_0_r. }
  cbn [replay_lines entries_of]. rewrite replay_line_class, bump_counts.
  rewrite !(count_class_cons _ line lines), !Nat2Z.inj_add, !Z.add_assoc.
  destruct (classify line) as [e| |]; cbn [mbind outcome_bind run_entries]; [|by rewrite IH..].
  destruct (clock i) as [now now2]. cbn [fst snd]. destruct (run_entry now now2 e s); [|done].
  cbn [mbind outcome_bind]. by rewrite IH.
Qed.

(** The seconds of an EXPIRE entry are positive. *)
Definition entry_positive (x : Z * Z * entry) : Prop := if x.2 is EExpire _ n then 0 < n else True.

Lemma run_entry_defined now now2 e s :
  store_inv s -> entry_defined (now, now2, e) -> entry_positive (now, now2, e) ->
  exists s', run_entry now now2 e s = Ret s' /\ store_inv s'.
Proof.
  intros Hinv Hdef Hpos. destruct e as [k v|k|k n]; cbn [run_entry].
  - destruct (law_set s k v Hinv) as (s' & -> & ? & _). eauto.
  - destruct (law_del now s k Hinv) as (s' & -> & ? & _). simpl. eauto.
  - destruct Hdef as [H1 H2]. destruct (law_expire now now2 s k n (now2 + n * NS_PER_S)) as (s' & -> & ? & _);
      [done|unfold entry_positive in Hpos; simpl in Hpos; lia|done
        |apply add_seconds_defined; [unfold entry_positive in Hpos; simpl in Hpos; lia|apply H1|apply H2]|]. simpl. eauto.
Qed.

Lemma entries_positive clock i lines :
  Forall entry_positive (entries_of clock i lines).
Proof.
  revert i. induction lines as [|line lines IH]; intros i; [constructor|]. cbn [entries_of].
  destruct (classify line) as [e| |] eqn:E; [|apply IH..]. constructor; [|apply IH]. unfold entry_positive. cbn [snd].
  revert E. unfold classify. destruct line as [|c line]; [done|].
  destruct (parseCommand (c :: line)) as [[] [|k [|v ar]]];
    try (by intros [= <-]); try done.
  destruct (stoll v); try done. destruct (Z.ltb_spec 0 z); [|done]. by intros [= <-].
Qed.

Lemma run_entries_defined es s :
  store_inv s -> Forall entry_defined es -> Forall entry_positive es ->
  exists s', run_entries es s = Ret s' /\ store_inv s'.
Proof.
  revert s. induction es as [|[[now now2] e] es IH]; intros s Hinv Hdef Hpos; [by exists s|].
  apply Forall_cons in Hdef as [Hd Hdef]. apply Forall_cons in Hpos as [Hp Hpos].
  destruct (run_entry_defined now now2 e s Hinv Hd Hp) as (s1 & He & Hinv1). cbn [run_entries].
  rewrite He. by apply IH.
Qed.

Lemma reason_rejected w1 w2 line : is_Some (replay_reason w1 w2 line) <-> classify line = Rejected.
Proof.
  unfold replay_reason, classify. destruct line as [|c line]; [by split; [intros []|]|].
  destruct (parseCommand (c :: line)) as [[] [|k [|v ar]]]; cbn [type args length Nat.leb];
    try (split; [by intros []|done]); try (split; [done|by eexists]).
  destruct (stoll v) as [z| |]; try (split; [done|by eexists]).
  destruct (Z.leb_spec z 0), (Z.ltb_spec 0 z); try lia; [split; [done|by eexists]|split; [by intros []|done]].
Qed.

Lemma messages_count w1 w2 n lines : length (replay_messages w1 w2 n lines) = count_class rejected lines.
Proof.
  revert n. induction lines as [|line lines IH]; intros n; [done|]. cbn [replay_messages].
  rewrite length_app, IH, (count_class_cons _ line lines). f_equal. unfold replay_message, count_class.
  pose proof (reason_rejected w1 w2 line) as Hr. rewrite filter_cons.
  destruct (replay_reason w1 w2 line); case_decide as Hd; simpl; try done.
  - destruct Hr as [Hr _]. rewrite Hr in Hd by eauto. done.
  - destruct (classify line) eqn:E; try done. destruct Hr as [_ Hr]. by destruct (Hr eq_refl).
Qed.

(** C21: A replay of any file applies the entries among its lines, in order, and nothing else;
    its statistics count every line once, and as many messages are written as there are
    errors.  It is defined, and leaves a well-formed storage, whenever the deadlines of
    the EXPIRE entries are representable. *)
Theorem replay_any_file clock contents s what1 what2 :
  let lines := getlines contents in
  let st := mkStats (u64 (Z.of_nat (count_class applies lines))) (u64 (Z.of_nat (count_class passed_over lines)))
              (u64 (Z.of_nat (count_class rejected lines))) in
  replay clock (Some contents) s = (s' ← run_entries (entries_of clock 0 lines) s; Ret (s', st)) /\
  (count_class applies lines + count_class passed_over lines + count_class rejected lines)%nat = length lines /\
  length (replay_messages what1 what2 0 lines) = count_class rejected lines /\
  (store_inv s -> Forall entry_defined (entries_of clock 0 lines) ->
   exists s', replay clock (Some contents) s = Ret (s', st) /\ store_inv s').
Proof.
  intros lines st.
  assert (Heq : replay clock (Some contents) s = (s' ← run_entries (entries_of clock 0 lines) s; Ret (s', st)))
    by apply (replay_lines_class clock 0 lines s 0 0 0).
  split; [done|]. split; [apply classes_partition|]. split; [apply messages_count|]. intros Hinv Hdef.
  destruct (run_entries_defined (entries_of clock 0 lines) s Hinv Hdef) as (s' & Hs & Hinv');
    [apply entries_positive|]. exists s'. by rewrite Heq, Hs.
Qed.
End reference.
