(* ===== verification/LogOrder.v ===== *)
(** * Storage and log within one command

    [dispatch] changes the storage under the mutex of a shard and then, outside of it,
    hands a line to the log writer ([src/protocol/dispatcher.cpp]).  Here the two halves
    are separate steps of a worker.  A worker alone does what [dispatch] does; two workers
    with writes to one key can reach the log in the other order than the storage. *)

From S2P Require Import Prelude Cpp Lru Parser Response StorageInterface AofFormat AofWriter.
From S2P Require Import AofReplay Dispatcher DispatcherFacts Recovery.
Local Open Scope Z_scope.

(** ** The two halves *)

(** The call of the log writer a command still has to make. *)
Inductive log_call : Type :=
| LogSet (k v : bytes)
| LogDel (k : bytes)
| LogExpire (k : bytes) (seconds : Z)
| LogNothing.

Definition run_log (l : log_call) (a : AOFWriter) : AOFWriter :=
  match l with
  | LogSet k v => logSet k v a
  | LogDel k => logDel k a
  | LogExpire k n => logExpire k n a
  | LogNothing => a
  end.

Section split.
Context {S : Type} `{StorageOps S}.
Implicit Types (w : World S).

(** [dispatch] up to the call of the log writer: the response it will return, the world,
    and that call. *)
Definition dispatch_store (now now2 : Z) (cmd : Command) w : outcome (bytes * World S * log_call) :=
  let d := inc_requests (disp w) in
  let s := store w in
  match type cmd, args cmd with
  | SET, k :: v :: _ =>
      s' ← op_set k v s; Ret (okResponse, mkWorld (inc_writes d) s' (aof w), LogSet k v)
  | DEL, k :: _ =>
      '(deleted, s') ← op_del now k s;
      Ret (integerResponse (if deleted : bool then 1 else 0), mkWorld (inc_writes d) s' (aof w),
           if deleted then LogDel k else LogNothing)
  | EXPIRE, k :: n :: _ =>
      match stoll n with
      | Conv seconds =>
          '(success, s') ← op_expire now now2 k seconds s;
          Ret (integerResponse (if success : bool then 1 else 0), mkWorld d s' (aof w),
               if success then LogExpire k seconds else LogNothing)
      | InvalidArgument | OutOfRange =>
          Ret (errorResponse (str "value is not an integer or out of range"), mkWorld d s (aof w), LogNothing)
      end
  | _, _ => '(r, w') ← dispatch now now2 cmd w; Ret (r, w', LogNothing)
  end.

(** The rest of [dispatch]. *)
Definition dispatch_log_call (l : log_call) w : World S :=
  mkWorld (disp w) (store w) (run_log l <$> aof w).

(** A worker that is not interrupted does what [dispatch] does. *)
Lemma dispatch_split now now2 cmd w :
  dispatch now now2 cmd w =
  '(r, w', l) ← dispatch_store now now2 cmd w; Ret (r, dispatch_log_call l w').
Proof.
  assert (Hid : forall w', dispatch_log_call LogNothing w' = w').
  { intros [d s [a|]]; done. }
  destruct cmd as [ty al]. unfold dispatch_store. simpl.
  destruct ty, al as [|k [|v l]]; simpl;
    try (destruct (dispatch now now2 _ w) as [[]|]; simpl; by rewrite ?Hid).
  all: unfold dispatch; cbn [type args]; rewrite ?Hid; try done.
  - by destruct (op_set k v (store w)).
  - by destruct (op_del now k (store w)) as [[[] s']|]; simpl; rewrite ?Hid.
  - by destruct (op_del now k (store w)) as [[[] s']|]; simpl; rewrite ?Hid.
  - destruct (stoll v) as [n| |]; simpl; rewrite ?Hid; try done.
    by destruct (op_expire now now2 k n (store w)) as [[[] s']|]; simpl; rewrite ?Hid.
Qed.

(** ** Workers *)

(** The world, and the log calls workers have yet to make, by worker. *)
Record Workers : Type := mkWorkers {
  shared : World S;
  waiting : gmap nat log_call;
  replies : list (nat * bytes)
}.

Inductive worker_event : Type :=
| WStore (j : nat) (now now2 : Z) (cmd : Command)   (* worker [j] runs the first half *)
| WLog (j : nat).                                   (* and the second *)

(** One step; [None] when the worker is not at that point. *)
Definition worker_exec (e : worker_event) (ws : Workers) : option (outcome Workers) :=
  match e with
  | WStore j now now2 cmd =>
      match waiting ws !! j with
      | Some _ => None
      | None => Some ('(r, w, l) ← dispatch_store now now2 cmd (shared ws);
                      Ret (mkWorkers w (<[j := l]> (waiting ws)) (replies ws ++ [(j, r)])))
      end
  | WLog j =>
      l ← waiting ws !! j;
      Some (Ret (mkWorkers (dispatch_log_call l (shared ws)) (delete j (waiting ws)) (replies ws)))
  end.

Fixpoint worker_run (es : list worker_event) (ws : Workers) : option (outcome Workers) :=
  match es with
  | [] => Some (Ret ws)
  | e :: es' =>
      o ← worker_exec e ws;
      match o with
      | Ret ws' => worker_run es' ws'
      | UB => Some UB
      end
  end.
End split.

Arguments mkWorkers {S} shared waiting replies.
Arguments shared {S} w.
Arguments waiting {S} w.
Arguments replies {S} w.

(** ** The order of storage and log *)

Section order.
Context {S : Type} `{StorageLaws S}.
Implicit Types (w : World S).

Lemma worker_set j now now2 k v s' (ws : Workers) :
  waiting ws !! j = None -> op_set k v (store (shared ws)) = Ret s' ->
  worker_exec (WStore j now now2 (mkCommand SET [k; v])) ws =
    Some (Ret (mkWorkers (mkWorld (inc_writes (inc_requests (disp (shared ws)))) s' (aof (shared ws)))
                 (<[j := LogSet k v]> (waiting ws)) (replies ws ++ [(j, okResponse)]))).
Proof. intros Hj Hop. simpl. rewrite Hj. unfold dispatch_store. simpl. by rewrite Hop. Qed.

Lemma worker_log j l (ws : Workers) :
  waiting ws !! j = Some l ->
  worker_exec (WLog j) ws =
    Some (Ret (mkWorkers (dispatch_log_call l (shared ws)) (delete j (waiting ws)) (replies ws))).
Proof. intros Hj. simpl. by rewrite Hj. Qed.

(** C36: Two clients set one key at the same time, both are answered with OK, and the storage
    keeps the second value; but the second worker reaches the log first, and after a
    restart the key has the first value. *)
Theorem log_order_inverted K w a k v1 v2 clock s0 :
  fresh_server K w a -> loggable k -> loggable v1 -> loggable v2 -> empty_store K s0 ->
  exists es ws a', worker_run es (mkWorkers w ∅ []) = Some (Ret ws) /\
    waiting ws = ∅ /\ replies ws = [(0%nat, okResponse); (1%nat, okResponse)] /\
    view (store (shared ws)) k = Some (v2, None) /\ aof (shared ws) = Some a' /\
    exists s1 st, replay clock (Some (lines_text (queue_ a'))) s0 = Ret (s1, st) /\
      errors st = 0 /\ view s1 k = Some (v1, None).
Proof.
  intros ((Hinv & _) & _ & Ha & Hacc & Hq) [Hk Hkn] [Hv1 Hn1] [Hv2 Hn2] (Hinv0 & _).
  destruct (law_set (store w) k v1 Hinv) as (s1 & Hop1 & Hinv1 & _).
  destruct (law_set s1 k v2 Hinv1) as (s2 & Hop2 & _ & Hk2 & _).
  destruct (law_set s0 k v2 Hinv0) as (t1 & Hop3 & Hinv3 & _).
  destruct (law_set t1 k v1 Hinv3) as (t2 & Hop4 & _ & Hk4 & _).
  eexists [WStore 0 0 0 (mkCommand SET [k; v1]); WStore 1 0 0 (mkCommand SET [k; v2]); WLog 1; WLog 0], _,
    (append_log ([setLine k v2] ++ [setLine k v1]) a).
  split.
  { cbn [worker_run]. erewrite worker_set; [|apply lookup_empty|exact Hop1]. cbn [mbind option_bind].
    erewrite worker_set; [|cbn [waiting]; by rewrite lookup_insert_ne|exact Hop2]. cbn [mbind option_bind].
    erewrite worker_log; [|apply lookup_insert_eq]. cbn [mbind option_bind].
    erewrite worker_log; [reflexivity|]. cbn [waiting].
    by rewrite lookup_delete_ne, lookup_insert_ne, lookup_insert_eq by done. }
  cbn [waiting shared replies dispatch_log_call run_log store aof]. rewrite Ha.
  split; [by_evaluation|]. split; [done|]. split; [done|]. split.
  { cbn [run_log fmap option_fmap option_map]. rewrite (logSet_accepting k v2 a), logSet_accepting by (by apply append_log_accepting || done). by rewrite append_log_app. }
  unfold append_log. cbn [queue_ set_queue]. rewrite Hq. cbn [app]. unfold replay. rewrite getlines_lines_text.
  - cbn [replay_lines]. rewrite replay_setLine, Hop3 by done. cbn [mbind outcome_bind].
    rewrite replay_setLine, Hop4 by done. cbn [mbind outcome_bind]. eexists _, _. split; [done|]. done.
  - repeat constructor; by apply setLine_no_newline.
Qed.
End order.
