(* ===== verification/SplitLog.v ===== *)
(** * The log while log calls are on their way

    Between its storage call and its log call a worker has changed the storage but not
    the log ([LogOrder]).  The log then agrees with the storage up to the calls that are
    still to be made; as long as no two of them are about one key, the order in which they
    are made does not matter. *)

From S2P Require Import Prelude Cpp Lru Parser Response StorageInterface AofFormat AofWriter.
From S2P Require Import AofReplay Dispatcher DispatcherFacts Recovery Restarts LogOrder.
Local Open Scope Z_scope.

(** ** Log calls as entries *)

Definition call_entry (l : log_call) : option entry :=
  match l with
  | LogSet k v => Some (ESet k v)
  | LogDel k => Some (EDel k)
  | LogExpire k n => Some (EExpire k n)
  | LogNothing => None
  end.

Definition entry_key (e : entry) : bytes :=
  match e with ESet k _ | EDel k | EExpire k _ => k end.

Definition call_key (l : log_call) : option bytes := entry_key <$> call_entry l.

Lemma apply_entry_other g e k : entry_key e <> k -> apply_entry g e k = g k.
Proof. intros Hk. destruct e; simpl; unfold shape_update; by rewrite decide_False. Qed.

(** An entry reads the log's map at its own key only. *)
Lemma apply_entry_local g g' e :
  g (entry_key e) = g' (entry_key e) -> apply_entry g e (entry_key e) = apply_entry g' e (entry_key e).
Proof. intros Hg. destruct e; simpl in *; unfold shape_update; by rewrite ?decide_True, ?Hg. Qed.

(** The call makes its line. *)
Lemma run_log_append l a :
  accepting a -> run_log l a = append_log (entry_line <$> option_list (call_entry l)) a.
Proof.
  intros Ha. destruct l; simpl; [by apply logSet_accepting|by apply logDel_accepting
    |by apply logExpire_accepting|by rewrite append_log_nil].
Qed.

(** ** Agreement at a key *)

(** What [agrees] says of one key. *)
Definition agree_at (o : option slot) (x : option (bytes * bool)) : Prop :=
  match o, x with
  | Some s, _ => x = Some (slot_shape s)
  | None, Some (_, d) => d = true
  | None, None => True
  end.

Lemma agrees_at m g : agrees m g <-> forall k, agree_at (m k) (g k).
Proof. done. Qed.

Lemma agree_at_live now o x : agree_at o x -> agree_at (live_slot now o) x.
Proof.
  destruct o as [[v [d|]]|]; simpl; try done. unfold slot_expired. simpl.
  destruct (d <=? now); [|done]. by intros ->.
Qed.

(** ** The log call of a request *)

(** By the state of the map before it. *)
Definition ref_call (now : Z) (cmd : Command) (m : kv) : log_call :=
  match type cmd, args cmd with
  | SET, k :: v :: _ => LogSet k v
  | DEL, k :: _ => if bool_decide (is_Some (live_slot now (m k))) then LogDel k else LogNothing
  | EXPIRE, k :: n :: _ =>
      match stoll n with
      | Conv seconds =>
          if bool_decide (0 <= seconds) && bool_decide (is_Some (live_slot now (m k)))
          then LogExpire k seconds else LogNothing
      | _ => LogNothing
      end
  | _, _ => LogNothing
  end.

(** A request that logs an entry changes its key only, and agreement at the key becomes
    agreement with the entry applied; one that logs nothing keeps agreement everywhere. *)
Definition call_effect (K : gset bytes) (T : Z) (l : log_call) (m m' : kv) : Prop :=
  match call_entry l with
  | Some e =>
      entry_ok K T e /\ (forall k, k <> entry_key e -> m' k = m k) /\
      (forall g, agree_at (m (entry_key e)) (g (entry_key e)) ->
         agree_at (m' (entry_key e)) (apply_entry g e (entry_key e)))
  | None => forall k x, agree_at (m k) x -> agree_at (m' k) x
  end.

Lemma call_effect_same K T m : call_effect K T LogNothing m m.
Proof. by intros k x. Qed.

(** Reading a key, or failing to find it, removes it if it has expired. *)
Lemma call_effect_live K T now k m : call_effect K T LogNothing m (kv_update k (live_slot now (m k)) m).
Proof.
  intros k' x Hx. unfold kv_update. case_decide as Hk; [subst; by apply agree_at_live|done].
Qed.

Lemma ref_call_effect K T now now2 cmd m :
  req_within K (now, now2, cmd) -> req_loggable T (now, now2, cmd) ->
  call_effect K T (ref_call now cmd m) m (ref_dispatch now now2 cmd m).2.
Proof.
  destruct cmd as [ty al]. unfold req_within, req_loggable, ref_call, ref_dispatch. simpl. intros Hin Hlog.
  assert (Hne : forall k o k', k' <> k -> kv_update k o m k' = m k').
  { intros k o k' Hk. unfold kv_update. by rewrite decide_False. }
  assert (Heq : forall k o, kv_update k o m k = o) by (intros; unfold kv_update; by rewrite decide_True).
  assert (Hseq : forall k o g, shape_update k o g k = o) by (intros; unfold shape_update; by rewrite decide_True).
  assert (Hdel : forall k, loggable k -> call_effect K T
    (if bool_decide (is_Some (live_slot now (m k))) then LogDel k else LogNothing) m (kv_update k None m)).
  { intros k Hk. case_bool_decide as Hl.
    - split; [done|]. split; [by apply Hne|]. intros g _. simpl. by rewrite Heq, Hseq.
    - apply eq_None_not_Some in Hl. rewrite <- Hl. apply call_effect_live. }
  destruct ty, al as [|k [|v l]]; simpl in *;
    try (by apply call_effect_same); try (by apply call_effect_live); try (by apply Hdel).
  - split; [simpl; tauto|]. split; [by apply Hne|]. intros g _. simpl. by rewrite Heq, Hseq.
  - destruct Hlog as [Hk Hn]. destruct (stoll v) as [n| |] eqn:E; try by apply call_effect_same.
    destruct Hn as [Hnz Hmax]. destruct (Z.ltb_spec n 0).
    { rewrite bool_decide_eq_false_2 by lia. by apply call_effect_same. }
    rewrite bool_decide_eq_true_2 by done. simpl. case_bool_decide as Hl.
    + split; [split_and!; [done|by eapply stoll_range|lia|done]|]. split; [by apply Hne|]. intros g Hg. simpl in *.
      rewrite Heq, Hseq. destruct Hl as [x Hx]. rewrite Hx. apply live_slot_Some in Hx. rewrite Hx in Hg.
      simpl in *. by rewrite Hg.
    + apply eq_None_not_Some in Hl. rewrite Hl. simpl. rewrite <- Hl. apply call_effect_live.
Qed.

Section store.
Context {S : Type} `{StorageLaws S}.
Implicit Types (w : World S) (m : kv).

(** The first half of [dispatch] leaves the log alone and ends with that log call. *)
Lemma dispatch_store_call K now now2 cmd w m r w' l :
  req_ok (now, now2, cmd) -> refines_kv K w m ->
  dispatch_store now now2 cmd w = Ret (r, w', l) -> aof w' = aof w /\ l = ref_call now cmd m.
Proof.
  destruct cmd as [ty al]. intros (Hnow & Hnow2 & Hreq) (Hinv & _ & _ & Hview).
  unfold dispatch_store, dispatch, ref_call. simpl in *.
  destruct ty, al as [|k [|v al]]; simpl in *; try (by intros [= <- <- <-]);
    try (destruct (law_get now (store w) k Hinv) as (s' & -> & _); simpl; case_match; by intros [= <- <- <-]);
    try (destruct (law_del now (store w) k Hinv) as (s' & -> & _); simpl; rewrite Hview;
         intros [= <- <- <-]; by case_match);
    try (destruct (law_ttl now now2 (store w) k Hinv Hnow2) as (s' & -> & _); simpl; by intros [= <- <- <-]);
    try (intros (x & Hx & Heq)%bind_Ret_inv; apply bind_Ret_inv in Hx as (u & _ & [= <-]);
         by injection Heq as <- <- <-).
  - destruct (law_set (store w) k v Hinv) as (s' & -> & _). simpl. by intros [= <- <- <-].
  - destruct (stoll v) as [n| |]; try (by intros [= <- <- <-]).
    destruct (bool_decide_reflect (0 <= n)) as [Hpos|Hneg]; simpl.
    + destruct (law_expire now now2 (store w) k n (now2 + n * NS_PER_S))
        as (s' & -> & _); [done..|by apply add_seconds_defined; auto|]. simpl. rewrite Hview.
      intros [= <- <- <-]. by case_match.
    + rewrite law_expire_negative by lia. by intros [= <- <- <-].
Qed.

(** The first half refines the map like the whole. *)
Lemma dispatch_store_refines K now now2 cmd w m :
  req_ok (now, now2, cmd) -> req_within K (now, now2, cmd) -> refines_kv K w m ->
  exists r w', dispatch_store now now2 cmd w = Ret (r, w', ref_call now cmd m) /\ aof w' = aof w /\
    refines_kv K w' (ref_dispatch now now2 cmd m).2.
Proof.
  intros Hok Hin Hm. destruct (dispatch_refines K now now2 cmd w m Hok Hin Hm) as (r & w1 & Hd & _ & Hm1).
  rewrite dispatch_split in Hd. apply bind_Ret_inv in Hd as ([[r' w'] l] & Hs & [= <- <-]).
  destruct (dispatch_store_call K now now2 cmd w m r' w' l Hok Hm Hs) as [Ha ->].
  exists r', w'. split; [done|]. split; [done|]. exact Hm1.
Qed.
End store.

(** ** Agreement up to the calls on their way *)

(** The calls, by worker; [e] is the entry of one of them. *)
Definition on_its_way (L : gmap nat log_call) (id : nat) (e : entry) : Prop :=
  exists l, L !! id = Some l /\ call_entry l = Some e.

(** No two of them are about one key. *)
Definition separate (L : gmap nat log_call) : Prop :=
  forall id id' e e', on_its_way L id e -> on_its_way L id' e' -> entry_key e = entry_key e' -> id = id'.

(** At the key of a call the storage agrees with the log once the call is made, and at
    every other key with the log as it is. *)
Definition agrees_upto (L : gmap nat log_call) (m : kv) (g : shape) : Prop :=
  (forall id e, on_its_way L id e -> agree_at (m (entry_key e)) (apply_entry g e (entry_key e))) /\
  (forall k, (forall id e, on_its_way L id e -> entry_key e <> k) -> agree_at (m k) (g k)).

(** A new call is about none of the keys of the others. *)
Definition no_overlap (l : log_call) (L : gmap nat log_call) : Prop :=
  map_Forall (fun _ l' => call_key l = None \/ call_key l' <> call_key l) L.

Lemma no_overlap_keys l L id e e' :
  no_overlap l L -> call_entry l = Some e -> on_its_way L id e' -> entry_key e' <> entry_key e.
Proof.
  intros Hno He (l' & Hl' & He') Hk. specialize (Hno id l' Hl'). unfold call_key in Hno.
  rewrite He, He' in Hno. simpl in Hno. destruct Hno as [|Hno]; [done|]. apply Hno. by rewrite Hk.
Qed.

Lemma agrees_upto_none m g : agrees_upto ∅ m g <-> agrees m g.
Proof.
  split.
  - intros [_ Ha]. apply agrees_at. intros k. apply Ha. by intros id e (l & Hl & _).
  - intros Ha. split; [by intros id e (l & Hl & _)|]. intros k _. by apply agrees_at.
Qed.

Lemma on_its_way_insert L id l id' e :
  L !! id = None -> on_its_way (<[id := l]> L) id' e <->
  (id' = id /\ call_entry l = Some e) \/ on_its_way L id' e.
Proof.
  intros Hid. unfold on_its_way. split.
  - intros (l' & [[<- <-]|[Hne Hl']]%lookup_insert_Some & He); [by left|right; eauto].
  - intros [[-> He]|(l' & Hl' & He)]; [exists l; by rewrite lookup_insert_eq|].
    exists l'. rewrite lookup_insert_ne by congruence. done.
Qed.

Lemma on_its_way_delete L id id' e :
  on_its_way (delete id L) id' e <-> id' <> id /\ on_its_way L id' e.
Proof.
  unfold on_its_way. split.
  - intros (l & [Hne Hl]%lookup_delete_Some & He). split; [done|]. eauto.
  - intros (Hne & l & Hl & He). exists l. by rewrite lookup_delete_ne.
Qed.

(** A storage call: its log call joins those on their way. *)
Lemma agrees_upto_store K T L id l m m' g :
  L !! id = None -> separate L -> no_overlap l L -> call_effect K T l m m' -> agrees_upto L m g ->
  separate (<[id := l]> L) /\ agrees_upto (<[id := l]> L) m' g.
Proof.
  intros Hid Hsep Hno Heff [Hway Hrest]. unfold call_effect in Heff. split.
  { intros id1 id2 e1 e2 H1 H2 Hk. rewrite on_its_way_insert in H1, H2 by done.
    destruct H1 as [[-> H1]|H1], H2 as [[-> H2]|H2]; [done| | |by eapply Hsep];
      [by destruct (no_overlap_keys l L id2 e1 e2)|by destruct (no_overlap_keys l L id1 e2 e1)]. }
  destruct (call_entry l) as [e|] eqn:El; split.
  - destruct Heff as (_ & Hne & He). intros id' e'. rewrite on_its_way_insert, El by done.
    intros [[-> [= <-]]|Hw].
    + apply He, Hrest. intros id' e' Hw. by eapply no_overlap_keys.
    + rewrite Hne by (by eapply no_overlap_keys). by eapply Hway.
  - destruct Heff as (_ & Hne & _). intros k Hk. rewrite Hne.
    + apply Hrest. intros id' e' Hw. apply (Hk id'). rewrite on_its_way_insert by done. by right.
    + intros ->. apply (Hk id e); [|done]. rewrite on_its_way_insert, El by done. by left.
  - intros id' e'. rewrite on_its_way_insert, El by done. intros [[_ [=]]|Hw]. by apply Heff, (Hway id').
  - intros k Hk. apply Heff, Hrest. intros id' e' Hw. apply (Hk id'). rewrite on_its_way_insert by done. by right.
Qed.

(** A log call: its entry is in the log, whichever call it is. *)
Lemma agrees_upto_log L id l m g :
  L !! id = Some l -> separate L -> agrees_upto L m g ->
  separate (delete id L) /\ agrees_upto (delete id L) m (foldl apply_entry g (option_list (call_entry l))).
Proof.
  intros Hl Hsep [Hway Hrest]. split.
  { intros id1 id2 e1 e2 [_ H1]%on_its_way_delete [_ H2]%on_its_way_delete. by apply Hsep. }
  destruct (call_entry l) as [e|] eqn:El; simpl; split.
  - intros id' e' [Hne Hw]%on_its_way_delete. erewrite apply_entry_local; [by eapply Hway|].
    apply apply_entry_other. intros Hk. apply Hne. eapply Hsep; [exact Hw|by exists l|done].
  - intros k Hk. destruct (decide (entry_key e = k)) as [<-|Hne]; [apply (Hway id); by exists l|].
    rewrite apply_entry_other by done. apply Hrest. intros id' e' Hw.
    destruct (decide (id' = id)) as [->|Hid]; [|by apply (Hk id'), on_its_way_delete].
    destruct Hw as (l' & Hl' & He'). congruence.
  - intros id' e' [_ Hw]%on_its_way_delete. by apply (Hway id').
  - intros k Hk. apply Hrest. intros id' e' Hw.
    destruct (decide (id' = id)) as [->|Hid]; [|by apply (Hk id'), on_its_way_delete].
    destruct Hw as (l' & Hl' & He'). congruence.
Qed.

(** The expiration sweep removes keys that have expired. *)
Lemma agrees_upto_sweep L m m' g :
  (forall k, m' k = m k \/ m' k = None /\ exists now, live_slot now (m k) = None) ->
  agrees_upto L m g -> agrees_upto L m' g.
Proof.
  intros Hm. assert (Hat : forall k x, agree_at (m k) x -> agree_at (m' k) x).
  { intros k x Hx. destruct (Hm k) as [->|(-> & now & Hn)]; [done|]. rewrite <- Hn. by apply agree_at_live. }
  intros [Hway Hrest]. split; eauto.
Qed.
