(* ===== verification/Connection.v ===== *)
(** * Connections ([src/server/connection.cpp], [include/server/connection.h])

    A connection collects received bytes until they make a line, and sends responses,
    directly or through a write buffer when the socket is full.  What the kernel
    answers to [recv] and [send] is an argument; [wire] is what the kernel has taken
    from the connection. *)

From Equations Require Import Equations.
From S2P Require Import Prelude Cpp Parser.

(** ** State *)

Record Connection : Type := mkConnection {
  fd_ : Z;
  read_buffer_ : bytes;
  write_buffer_ : bytes;
  has_error_ : bool;
  in_flight_ : bool
}.

Definition new_connection (fd : Z) : Connection := mkConnection fd [] [] false false.

Section setters.
Implicit Types c : Connection.
Definition set_read_buffer (b : bytes) c : Connection :=
  mkConnection (fd_ c) b (write_buffer_ c) (has_error_ c) (in_flight_ c).
Definition set_write_buffer (b : bytes) c : Connection :=
  mkConnection (fd_ c) (read_buffer_ c) b (has_error_ c) (in_flight_ c).
Definition set_error c : Connection :=
  mkConnection (fd_ c) (read_buffer_ c) (write_buffer_ c) true (in_flight_ c).
Definition set_in_flight (b : bool) c : Connection :=
  mkConnection (fd_ c) (read_buffer_ c) (write_buffer_ c) (has_error_ c) b.
End setters.

(** ** What the kernel answers *)

Definition READ_BUFFER_SIZE : nat := Z.to_nat 4096.

(** [recv]: some bytes, the end of the stream, or an error; [EAGAIN] and
    [EWOULDBLOCK] are [RecvAgain]. *)
Inductive recv_result : Type :=
| Received (data : bytes)
| RecvEof
| RecvAgain
| RecvError.

(** [recv] delivers between one byte and the size of the buffer. *)
Definition recv_ok (r : recv_result) : Prop :=
  match r with
  | Received data => data <> [] /\ length data <= READ_BUFFER_SIZE
  | _ => True
  end.

(** [send]: a number of bytes taken from the front, or an error. *)
Inductive send_result : Type :=
| Sent (n : nat)
| SendAgain
| SendError.

(** A [send] that does not fail takes at least one byte. *)
Definition progress (r : send_result) : Prop :=
  match r with Sent n => 0 < n | _ => True end.

(** ** Operations *)

(** [read_buffer_.find('\n')]: the text before the first line feed and after it. *)
Fixpoint split_line (s : bytes) : option (bytes * bytes) :=
  match s with
  | [] => None
  | c :: s' =>
      if bool_decide (c = ch_nl) then Some ([], s')
      else match split_line s' with
           | Some (l, r) => Some (c :: l, r)
           | None => None
           end
  end.

(** [if (!cmd.empty() && cmd.back() == '\r') cmd.pop_back()]. *)
Definition strip_cr (cmd : bytes) : bytes :=
  match last cmd with
  | Some c => if bool_decide (c = ch_cr) then take (pred (length cmd)) cmd else cmd
  | None => cmd
  end.

Lemma split_line_length s l r : split_line s = Some (l, r) -> length r < length s.
Proof.
  revert l r. induction s as [|c s IH]; intros l r; simpl; [done|]. case_bool_decide.
  - intros [= _ <-]. lia.
  - destruct (split_line s) as [[l' r']|]; [|done]. intros [= _ <-].
    specialize (IH _ _ eq_refl). lia.
Qed.

(** The loop of [readAndParse] over the buffer: the commands and what is left. *)
Equations? extract (buffer : bytes) : list bytes * bytes by wf (length buffer) lt :=
extract buffer with inspect (split_line buffer) => {
  | exist _ None _ := ([], buffer);
  | exist _ (Some (cmd, rest)) E :=
      let cr := extract rest in (push_token (strip_cr cmd) cr.1, cr.2) }.
Proof. by eapply split_line_length. Qed.

Definition readAndParse (r : recv_result) (c : Connection) : list bytes * Connection :=
  match r with
  | RecvAgain => ([], c)
  | RecvError | RecvEof => ([], set_error c)
  | Received data =>
      let cr := extract (read_buffer_ c ++ data) in (cr.1, set_read_buffer cr.2 c)
  end.

Definition queueResponse (response : bytes) (c : Connection) : Connection :=
  set_write_buffer (write_buffer_ c ++ response) c.

(** The loop of [sendResponse]: [rest] is [response.substr(total_sent)].  [None] is a
    loop that still waits for the kernel. *)
Fixpoint sendResponse (os : list send_result) (rest : bytes) (c : Connection) (wire : bytes)
    : option (bool * Connection * bytes) :=
  match rest, os with
  | [], _ => Some (true, c, wire)
  | _, [] => None
  | _, Sent n :: os' => sendResponse os' (drop n rest) c (wire ++ take n rest)
  | _, SendAgain :: _ => Some (false, set_write_buffer (write_buffer_ c ++ rest) c, wire)
  | _, SendError :: _ => Some (false, set_error c, wire)
  end.

Definition flushWriteBuffer (r : send_result) (c : Connection) (wire : bytes)
    : bool * Connection * bytes :=
  match write_buffer_ c with
  | [] => (true, c, wire)
  | _ =>
      match r with
      | Sent n =>
          let left := drop n (write_buffer_ c) in
          (bool_decide (left = []), set_write_buffer left c, wire ++ take n (write_buffer_ c))
      | SendAgain => (false, c, wire)
      | SendError => (false, set_error c, wire)
      end
  end.

Definition wantWrite (c : Connection) : bool := negb (bool_decide (write_buffer_ c = [])).

(** [compare_exchange_strong(false, true)]. *)
Definition trySetInFlight (c : Connection) : bool * Connection :=
  if in_flight_ c then (false, c) else (true, set_in_flight true c).

Definition clearInFlight (c : Connection) : Connection := set_in_flight false c.

(** ** Reading *)

Lemma extract_eq buffer :
  extract buffer = match split_line buffer with
                   | None => ([], buffer)
                   | Some (cmd, rest) =>
                       (push_token (strip_cr cmd) (extract rest).1, (extract rest).2)
                   end.
Proof.
  rewrite extract_equation_1.
  destruct (inspect (split_line buffer)) as [[[cmd rest]|] E]; simpl; by rewrite E.
Qed.

Lemma split_line_app s t l r :
  split_line s = Some (l, r) -> split_line (s ++ t) = Some (l, r ++ t).
Proof.
  revert l. induction s as [|c s IH]; intros l; simpl; [done|]. case_bool_decide.
  - by intros [= <- <-].
  - destruct (split_line s) as [[l' r']|]; [|done]. intros [= <- <-].
    by rewrite (IH l').
Qed.

Lemma push_token_app t l1 l2 : push_token t l1 ++ l2 = push_token t (l1 ++ l2).
Proof. by destruct t. Qed.

(** Bytes received in two pieces give the commands of the whole. *)
Lemma extract_app s t :
  extract (s ++ t) =
  ((extract s).1 ++ (extract ((extract s).2 ++ t)).1, (extract ((extract s).2 ++ t)).2).
Proof.
  induction s as [s IH] using (induction_ltof1 _ (@length ascii)). unfold ltof in IH.
  rewrite (extract_eq s). destruct (split_line s) as [[cmd rest]|] eqn:E.
  - rewrite (extract_eq (s ++ t)). rewrite (split_line_app s t cmd rest E).
    rewrite IH by (by eapply split_line_length). simpl. by rewrite push_token_app.
  - simpl. by destruct (extract (s ++ t)).
Qed.

Lemma split_line_None s : split_line s = None <-> ch_nl ∉ s.
Proof.
  induction s as [|c s IH]; simpl; [split; [set_solver|done]|]. rewrite not_elem_of_cons.
  case_bool_decide as Hc; [split; [done|intros [? _]; congruence]|].
  destruct (split_line s) as [[l r]|]; naive_solver.
Qed.

Lemma split_line_Some s l r : split_line s = Some (l, r) -> ch_nl ∉ l /\ s = l ++ ch_nl :: r.
Proof.
  revert l. induction s as [|c s IH]; intros l; simpl; [done|]. case_bool_decide as Hc.
  - intros [= <- <-]. subst. split; [set_solver|done].
  - destruct (split_line s) as [[l' r']|]; [|done]. intros [= <- <-].
    destruct (IH l' eq_refl) as [Hl ->]. split; [|done].
    apply not_elem_of_cons. split; congruence.
Qed.

(** Several reads in a row: all the commands, and the connection after them. *)
Fixpoint read_all (rs : list recv_result) (c : Connection) : list bytes * Connection :=
  match rs with
  | [] => ([], c)
  | r :: rs' =>
      let '(cmds, c') := readAndParse r c in
      let '(cmds', c'') := read_all rs' c' in
      (cmds ++ cmds', c'')
  end.

(** The bytes the reads delivered. *)
Definition received (rs : list recv_result) : bytes :=
  concat (map (fun r => match r with Received data => data | _ => [] end) rs).

Lemma readAndParse_buffer r c :
  ch_nl ∉ read_buffer_ c ->
  extract (read_buffer_ c ++ received [r]) =
    ((readAndParse r c).1, read_buffer_ (readAndParse r c).2).
Proof.
  intros Hc. unfold received. destruct r; simpl; rewrite ?app_nil_r; [by destruct (extract _)|..];
    rewrite extract_eq, (proj2 (split_line_None _) Hc); done.
Qed.

Lemma extract_clean s :
  Forall (fun cmd => cmd <> [] /\ forall c, c ∈ cmd -> c ∈ s /\ c <> ch_nl) (extract s).1 /\
  ch_nl ∉ (extract s).2.
Proof.
  induction s as [s IH] using (induction_ltof1 _ (@length ascii)). unfold ltof in IH.
  rewrite extract_eq. destruct (split_line s) as [[cmd rest]|] eqn:E; simpl.
  - destruct (IH rest) as [IH1 IH2]; [by eapply split_line_length|]. split; [|done].
    apply split_line_Some in E as [Hcmd ->].
    assert (Htl : Forall (fun cmd0 => cmd0 <> [] /\
      forall c, c ∈ cmd0 -> c ∈ cmd ++ ch_nl :: rest /\ c <> ch_nl) (extract rest).1).
    { eapply Forall_impl; [exact IH1|]. intros l [Hl1 Hl2]. split; [done|]. intros c Hc.
      destruct (Hl2 c Hc). split; [|done]. apply elem_of_app. right. by right. }
    assert (Hsub : forall c, c ∈ strip_cr cmd -> c ∈ cmd).
    { intros c. unfold strip_cr. repeat case_match; try done. apply subseteq_take. }
    destruct (strip_cr cmd) as [|d l] eqn:El; simpl; [done|]. constructor; [|done].
    split; [done|]. intros c Hc%Hsub. split; [apply elem_of_app; by left|]. by intros ->.
  - split; [constructor|]. by apply split_line_None.
Qed.

(** How the kernel cuts the stream does not matter: the reads deliver the commands of
    the bytes received so far, and keep what follows the last line feed. *)
Lemma read_all_extract rs c cmds c' :
  ch_nl ∉ read_buffer_ c -> read_all rs c = (cmds, c') ->
  extract (read_buffer_ c ++ received rs) = (cmds, read_buffer_ c').
Proof.
  revert c cmds. induction rs as [|r rs IH]; intros c cmds Hc Hr; simpl in Hr.
  - injection Hr as <- <-. unfold received. simpl.
    by rewrite app_nil_r, extract_eq, (proj2 (split_line_None _) Hc).
  - pose proof (readAndParse_buffer r c Hc) as Hone.
    pose proof (extract_clean (read_buffer_ c ++ received [r])) as [_ Hcl].
    rewrite Hone in Hcl. simpl in Hcl.
    destruct (readAndParse r c) as [cmds1 c1]. simpl in *.
    destruct (read_all rs c1) as [cmds2 c2] eqn:E2. injection Hr as <- <-.
    specialize (IH c1 cmds2 Hcl E2). unfold received in *. simpl in *.
    rewrite app_nil_r in Hone. by rewrite app_assoc, extract_app, Hone; simpl; rewrite IH.
Qed.

(** The text of a list of lines. *)
Definition line_stream (ls : list bytes) : bytes := concat (map (fun l => l ++ [ch_nl]) ls).

Lemma split_line_text l r : ch_nl ∉ l -> split_line (l ++ ch_nl :: r) = Some (l, r).
Proof.
  induction l as [|c l IH]; simpl; [done|]. intros [Hc Hl]%not_elem_of_cons.
  rewrite bool_decide_eq_false_2 by congruence. by rewrite IH.
Qed.

Lemma extract_line_stream ls r :
  Forall (fun l => ch_nl ∉ l) ls -> ch_nl ∉ r ->
  extract (line_stream ls ++ r) = (foldr push_token [] (map strip_cr ls), r).
Proof.
  intros Hls Hr. induction Hls as [|l ls Hl _ IH].
  - simpl. by rewrite extract_eq, (proj2 (split_line_None _) Hr).
  - unfold line_stream in *. simpl. rewrite <- !app_assoc. simpl.
    rewrite extract_eq, split_line_text by done. by rewrite IH.
Qed.

(** A line as a client writes it: its text, and whether it ends in CRLF. *)
Definition client_line (l : bytes * bool) : bytes := l.1 ++ (if l.2 then [ch_cr] else []).

(** The text has no line feed, and a carriage return at its end belongs to a CRLF. *)
Definition client_line_ok (l : bytes * bool) : Prop :=
  ch_nl ∉ l.1 /\ (l.2 = false -> last l.1 <> Some ch_cr).

Lemma strip_cr_client_line l : client_line_ok l -> strip_cr (client_line l) = l.1.
Proof.
  destruct l as [t crlf]. unfold client_line, strip_cr. intros [_ Hcr]. simpl in *.
  destruct crlf; simpl.
  - rewrite last_snoc, bool_decide_eq_true_2 by done.
    rewrite length_app, Nat.add_1_r. simpl. by apply take_app_length.
  - rewrite app_nil_r. destruct (last t) as [c|]; [|done].
    rewrite bool_decide_eq_false_2; [done|]. intros ->. by apply Hcr.
Qed.

Lemma client_line_no_newline l : client_line_ok l -> ch_nl ∉ client_line l.
Proof.
  intros [Hl _]. unfold client_line. apply not_elem_of_app. split; [done|].
  destruct (l.2); by_evaluation.
Qed.

(** C11: Framing: a client sends lines, ended by LF or CRLF, however the kernel cuts them
    into reads; the connection delivers exactly the texts that are not empty, in order,
    and keeps the incomplete last line. *)
Theorem read_framing rs ls r fd cmds c :
  Forall client_line_ok ls -> ch_nl ∉ r ->
  received rs = line_stream (map client_line ls) ++ r -> read_all rs (new_connection fd) = (cmds, c) ->
  cmds = filter (fun l => l <> []) ls.*1 /\ read_buffer_ c = r.
Proof.
  intros Hls Hr Hrs Hread. apply read_all_extract in Hread; [|set_solver].
  simpl in Hread. rewrite Hrs, extract_line_stream in Hread.
  - injection Hread as <- <-. split; [|done].
    clear -Hls. induction Hls as [|l ls Hl _ IH]; [done|].
    simpl. rewrite IH, strip_cr_client_line by done. by destruct (l.1).
  - clear -Hls. induction Hls; simpl; constructor; [by apply client_line_no_newline|done].
  - done.
Qed.

(** Whatever is received, a command is not empty and has no line feed, and the buffer
    never keeps a complete line. *)
Lemma read_clean rs fd cmds c :
  read_all rs (new_connection fd) = (cmds, c) ->
  Forall (fun cmd => cmd <> [] /\ ch_nl ∉ cmd) cmds /\ ch_nl ∉ read_buffer_ c.
Proof.
  intros Hread. apply read_all_extract in Hread; [|set_solver]. simpl in Hread.
  pose proof (extract_clean (received rs)) as [Hc Hb]. rewrite Hread in *. simpl in *.
  split; [|done]. eapply Forall_impl; [exact Hc|]. intros cmd [Hne Hcs]. split; [done|].
  intros Hin. by destruct (Hcs _ Hin).
Qed.

(** ** Writing *)

(** [sendResponse] loses nothing: what the kernel took and what is left make up the
    response.  What is left is queued behind the write buffer when the socket is full,
    and dropped only with the error flag set. *)
Definition send_outcome (response : bytes) (c : Connection) (wire : bytes)
    (b : bool) (c' : Connection) (wire' : bytes) : Prop :=
  exists sent rest, response = sent ++ rest /\ wire' = wire ++ sent /\
    ((b = true /\ rest = [] /\ c' = c) \/
     (b = false /\ rest <> [] /\ c' = queueResponse rest c) \/
     (b = false /\ rest <> [] /\ c' = set_error c)).

Lemma send_outcome_stop response c wire b c' :
  (b = true /\ response = [] /\ c' = c) \/
  (b = false /\ response <> [] /\ c' = queueResponse response c) \/
  (b = false /\ response <> [] /\ c' = set_error c) ->
  send_outcome response c wire b c' wire.
Proof. exists [], response. by rewrite app_nil_r. Qed.

Lemma sendResponse_outcome os response c wire b c' wire' :
  sendResponse os response c wire = Some (b, c', wire') ->
  send_outcome response c wire b c' wire'.
Proof.
  revert response wire. induction os as [|r os IH]; intros response wire Hs.
  - destruct response; simplify_eq/=. apply send_outcome_stop; auto.
  - destruct response as [|d response].
    { simplify_eq/=. apply send_outcome_stop; auto. }
    remember (d :: response) as data eqn:Hd. assert (Hne : data <> []) by (by subst).
    assert (Hs' : match r with
      | Sent n => sendResponse os (drop n data) c (wire ++ take n data)
      | SendAgain => Some (false, queueResponse data c, wire)
      | SendError => Some (false, set_error c, wire) end = Some (b, c', wire')).
    { rewrite Hd in Hs |- *. by destruct r. }
    clear Hs. destruct r as [n| |].
    + apply IH in Hs' as (sent & rest & Hr & -> & Hcase). exists (take n data ++ sent), rest.
      split; [by rewrite <- app_assoc, <- Hr, take_drop|]. by rewrite app_assoc.
    + injection Hs' as <- <- <-. apply send_outcome_stop; auto.
    + injection Hs' as <- <- <-. apply send_outcome_stop; auto.
Qed.

(** As long as the kernel makes progress the loop ends, after at most one [send] per
    byte. *)
Lemma sendResponse_ends os response c wire :
  Forall progress os -> length response <= length os ->
  is_Some (sendResponse os response c wire).
Proof.
  intros Hp. revert response wire. induction Hp as [|r os Hr _ IH]; intros response wire Hlen.
  - destruct response; simpl in *; [done|lia].
  - destruct response as [|d response]; [done|]. destruct r as [n| |]; simpl in *; [|done..].
    destruct n as [|n]; [lia|]. apply IH. simpl. rewrite length_drop. lia.
Qed.

(** C29: [sendResponse] returns after at most one [send] per byte when every [send] makes
    progress; the bytes the kernel took and the bytes that are left are the response, and what is
    left is queued, or given up with the error flag set. *)
Theorem sendResponse_total os response c wire :
  Forall progress os -> length response <= length os ->
  exists b c' wire', sendResponse os response c wire = Some (b, c', wire') /\
    send_outcome response c wire b c' wire'.
Proof.
  intros Hp Hlen. destruct (sendResponse_ends os response c wire Hp Hlen) as [[[b c'] wire'] Hs].
  exists b, c', wire'. split; [done|]. by apply sendResponse_outcome in Hs.
Qed.

(** What the client will have received once the write buffer is flushed. *)
Definition outgoing (c : Connection) (wire : bytes) : bytes := wire ++ write_buffer_ c.

(** Flushing moves a prefix of the write buffer to the socket: nothing is lost or
    reordered; it reports success exactly when the buffer is empty. *)
Lemma flush_conserves r c wire b c' wire' :
  flushWriteBuffer r c wire = (b, c', wire') ->
  outgoing c' wire' = outgoing c wire /\ (b = true <-> write_buffer_ c' = []) /\
  (has_error_ c' = has_error_ c \/ r = SendError) /\ read_buffer_ c' = read_buffer_ c.
Proof.
  unfold flushWriteBuffer, outgoing. destruct (write_buffer_ c) as [|d rest] eqn:Ew.
  - intros [= <- <- <-]. rewrite Ew. naive_solver.
  - rewrite <- Ew. assert (Hne : write_buffer_ c <> []) by (by rewrite Ew).
    destruct r as [n| |]; intros [= <- <- <-]; simpl.
    + rewrite <- app_assoc, take_drop. rewrite bool_decide_eq_true. naive_solver.
    + naive_solver.
    + naive_solver.
Qed.
