(* ===== verification/ThreadPool.v ===== *)
(** * The thread pool ([src/server/thread_pool.cpp], [include/server/thread_pool.h])

    Workers take tasks from a queue under a mutex and run them outside it.  A step is
    one atomic action of a worker, of a thread that submits, or of the destructor.
    Members are destroyed in reverse order of declaration: the condition variable, the
    mutex and the queue before the threads, whose destructors request the stop and
    join; an action on a destroyed member is undefined behaviour. *)

From S2P Require Import Prelude Cpp.

(** ** State *)

Inductive worker_state (Task : Type) : Type :=
| Idle                     (* before or in the locked section *)
| Running (task : Task)
| Exited.
Arguments Idle {Task}.
Arguments Running {Task} task.
Arguments Exited {Task}.

(** A [std::jthread] and its stop token. *)
Record Worker (Task : Type) : Type := mkWorker {
  stop_requested : bool;
  wstate : worker_state Task
}.
Arguments mkWorker {Task} stop_requested wstate.
Arguments stop_requested {Task} w.
Arguments wstate {Task} w.

(** [members_alive]: the mutex, the condition variable and the queue are not destroyed. *)
Record ThreadPool (Task : Type) : Type := mkPool {
  workers_ : list (Worker Task);
  tasks_ : list Task;
  members_alive : bool
}.
Arguments mkPool {Task} workers_ tasks_ members_alive.
Arguments workers_ {Task} t.
Arguments tasks_ {Task} t.
Arguments members_alive {Task} t.

(** ** Operations *)

Section pool.
Context {Task : Type}.
Implicit Types (p : ThreadPool Task) (t : Task).

(** The constructor: at least one thread. *)
Definition new_pool (num_threads : nat) : ThreadPool Task :=
  let num_threads := if bool_decide (num_threads = 0) then 1 else num_threads in
  mkPool (replicate num_threads (mkWorker false Idle)) [] true.

Definition pool_size p : nat := length (workers_ p).

Definition submit t p : outcome (ThreadPool Task) :=
  require (members_alive p = true);;
  Ret (mkPool (workers_ p) (tasks_ p ++ [t]) (members_alive p)).

Definition set_worker (i : nat) (st : worker_state Task) p : ThreadPool Task :=
  mkPool (alter (fun w => mkWorker (stop_requested w) st) i (workers_ p)) (tasks_ p)
    (members_alive p).

(** The locked section of [workerLoop] for worker [i], once the wait is over: exit on a
    stop request with an empty queue, wait again on an empty queue, or take a task. *)
Definition worker_lock (i : nat) (stop : bool) p : outcome (ThreadPool Task) :=
  require (members_alive p = true);;
  match tasks_ p with
  | [] => Ret (if stop then set_worker i Exited p else p)
  | t :: rest => Ret (set_worker i (Running t) (mkPool (workers_ p) rest (members_alive p)))
  end.

Inductive pool_event : Type :=
| PSubmit (t : Task)
| PLock (i : nat)          (* worker [i] runs its locked section *)
| PFinish (i : nat)        (* worker [i] returns from its task *)
| PDestroyMembers          (* the destructor's body is over: [cv_], [mutex_], [tasks_] go *)
| PRequestStop (i : nat).  (* the destructor of [workers_[i]] requests its stop *)

(** One action; [None] when it is not possible in the state. *)
Definition pool_exec (e : pool_event) p : option (outcome (ThreadPool Task)) :=
  match e with
  | PSubmit t => Some (submit t p)
  | PLock i =>
      w ← workers_ p !! i;
      match wstate w with Idle => Some (worker_lock i (stop_requested w) p) | _ => None end
  | PFinish i =>
      w ← workers_ p !! i;
      match wstate w with Running _ => Some (Ret (set_worker i Idle p)) | _ => None end
  | PDestroyMembers =>
      if members_alive p then Some (Ret (mkPool (workers_ p) [] false)) else None
  | PRequestStop i =>
      if members_alive p then None
      else w ← workers_ p !! i;
           Some (Ret (mkPool (alter (fun w => mkWorker true (wstate w)) i (workers_ p))
                        (tasks_ p) (members_alive p)))
  end.

Fixpoint pool_run (es : list pool_event) p : option (outcome (ThreadPool Task)) :=
  match es with
  | [] => Some (Ret p)
  | e :: es' =>
      o ← pool_exec e p;
      match o with Ret p' => pool_run es' p' | UB => Some UB end
  end.

(** ** What happens to the tasks *)

(** The tasks submitted, and the tasks workers took, in the order of a run. *)
Fixpoint submitted (es : list pool_event) : list Task :=
  match es with
  | [] => []
  | PSubmit t :: es' => t :: submitted es'
  | _ :: es' => submitted es'
  end.

Fixpoint taken (es : list pool_event) p : list Task :=
  match es with
  | [] => []
  | e :: es' =>
      match e with PLock _ => take 1 (tasks_ p) | _ => [] end ++
      match pool_exec e p with Some (Ret p') => taken es' p' | _ => [] end
  end.

Lemma worker_lock_Ret i stop p p' :
  worker_lock i stop p = Ret p' ->
  members_alive p = true /\ members_alive p' = true /\
  take 1 (tasks_ p) ++ tasks_ p' = tasks_ p.
Proof.
  unfold worker_lock. intros H. apply bind_Ret_inv in H as ([] & Hal%require_Ret & H).
  destruct (tasks_ p) as [|t rest] eqn:E; injection H as <-.
  - destruct stop; simpl; by rewrite E.
  - by simpl.
Qed.

Lemma pool_exec_tasks e p p' :
  pool_exec e p = Some (Ret p') -> members_alive p' = true ->
  members_alive p = true /\
  match e with PLock _ => take 1 (tasks_ p) | _ => [] end ++ tasks_ p' = tasks_ p ++ submitted [e].
Proof.
  intros He Hal. destruct e as [t|i|i| |i]; simpl in He.
  - injection He as He. unfold submit in He.
    apply bind_Ret_inv in He as ([] & ?%require_Ret & [= <-]). done.
  - destruct (workers_ p !! i) as [w|]; [|done]. simpl in He.
    destruct (wstate w); try done. injection He as He.
    apply worker_lock_Ret in He as (? & _ & Ht). by rewrite Ht, app_nil_r.
  - destruct (workers_ p !! i) as [w|]; [|done]. simpl in He.
    destruct (wstate w); try done. injection He as <-. simpl in *. by rewrite app_nil_r.
  - destruct (members_alive p); [|done]. by injection He as <-.
  - destruct (members_alive p) eqn:E; [done|].
    destruct (workers_ p !! i) as [w|]; [|done]. by injection He as <-.
Qed.

Lemma pool_run_tasks es p p' :
  pool_run es p = Some (Ret p') -> members_alive p' = true ->
  members_alive p = true /\ taken es p ++ tasks_ p' = tasks_ p ++ submitted es.
Proof.
  revert p. induction es as [|e es IH]; intros p Hr Hal; simpl in Hr.
  - injection Hr as <-. simpl. by rewrite app_nil_r.
  - apply bind_Some in Hr as ([p1|] & He & Hr); [|done].
    destruct (IH p1 Hr Hal) as [Hal1 Ht]. destruct (pool_exec_tasks e p p1 He Hal1) as [Hal0 H0].
    split; [done|]. simpl. rewrite He, <- app_assoc, Ht, app_assoc, H0, <- app_assoc.
    f_equal. by destruct e.
Qed.

(** C28: Until the pool is destroyed, whatever the interleaving: the tasks the workers took,
    followed by the queue, are the submitted tasks in order, so each one is taken at
    most once, in the order of submission, and none is lost. *)
Theorem pool_fifo n es p :
  pool_run es (new_pool n) = Some (Ret p) -> members_alive p = true ->
  taken es (new_pool n) ++ tasks_ p = submitted es.
Proof. intros Hr Hal. by destruct (pool_run_tasks es _ p Hr Hal) as [_ ->]. Qed.

(** ** Progress *)

(** No worker has left, and before the destruction none was asked to. *)
Definition pool_inv p : Prop :=
  workers_ p <> [] /\
  Forall (fun w => wstate w <> Exited /\ (members_alive p = true -> stop_requested w = false))
    (workers_ p).

Lemma new_pool_inv n : pool_inv (new_pool n).
Proof.
  unfold new_pool, pool_inv. simpl. split.
  - case_bool_decide; [done|]. by destruct n.
  - apply Forall_replicate. done.
Qed.

Lemma Forall_alter_worker (P Q : Worker Task -> Prop) f i ws :
  Forall P ws -> (forall w, P w -> Q w) -> (forall w, P w -> Q (f w)) -> Forall Q (alter f i ws).
Proof.
  intros HP HQ Hf. apply Forall_alter; [by eapply Forall_impl|]. intros w Hw _.
  apply Hf. rewrite Forall_forall in HP. apply HP. by eapply list_elem_of_lookup_2.
Qed.

Lemma alter_nonempty (f : Worker Task -> Worker Task) i ws : ws <> [] -> alter f i ws <> [].
Proof. intros Hne Heq. apply Hne, length_zero_iff_nil. by rewrite <- (length_alter f ws i), Heq. Qed.

Lemma set_worker_inv i st p : st <> Exited -> pool_inv p -> pool_inv (set_worker i st p).
Proof.
  intros Hst [Hne HF]. split; simpl; [by apply alter_nonempty|].
  eapply Forall_alter_worker; [exact HF|done|]. intros w [_ Hs]. done.
Qed.

Lemma pool_exec_inv e p p' : pool_inv p -> pool_exec e p = Some (Ret p') -> pool_inv p'.
Proof.
  intros Hinv He. pose proof Hinv as [Hne HF]. destruct e as [t|i|i| |i]; simpl in He.
  - injection He as He. unfold submit in He. by apply bind_Ret_inv in He as ([] & _ & [= <-]).
  - destruct (workers_ p !! i) as [w|] eqn:Ei; [|done]. simpl in He.
    destruct (wstate w); try done. injection He as He. unfold worker_lock in He.
    apply bind_Ret_inv in He as ([] & Hal%require_Ret & He).
    rewrite Forall_lookup in HF. destruct (HF i w Ei) as [_ Hs]. rewrite Hs in He by done.
    destruct (tasks_ p); injection He as <-; [done|]. by apply set_worker_inv.
  - destruct (workers_ p !! i) as [w|]; [|done]. simpl in He.
    destruct (wstate w); try done. injection He as <-. by apply set_worker_inv.
  - destruct (members_alive p); [|done]. injection He as <-. split; [done|]. simpl.
    eapply Forall_impl; [exact HF|]. by intros w [? _].
  - destruct (members_alive p) eqn:E; [done|].
    destruct (workers_ p !! i) as [w|]; [|done]. injection He as <-.
    split; simpl; [by apply alter_nonempty|].
    eapply Forall_alter_worker; [exact HF|by intros ? []|by intros ? []].
Qed.

Lemma pool_run_inv es p p' : pool_inv p -> pool_run es p = Some (Ret p') -> pool_inv p'.
Proof.
  revert p. induction es as [|e es IH]; intros p Hp Hr; simpl in Hr; [by injection Hr as <-|].
  apply bind_Some in Hr as ([p1|] & He & Hr); [|done]. eauto using pool_exec_inv.
Qed.
End pool.
