(* ===== verification/Server.v ===== *)
(** * The server ([src/server/server.cpp], [src/server/event_loop.cpp])

    The event loop accepts connections, reads commands and hands one command at a time
    per connection to the thread pool; a worker dispatches it, sends the response and
    clears the in-flight flag.  A step is one handler call of the event loop, or one of
    the three calls of a worker's task; the kernel's answers are arguments of the step.
    [Connection] objects live in a heap: the connection table and the tasks share them. *)

From S2P Require Import Prelude Cpp Parser StorageInterface AofWriter AofReplay Dispatcher.
From S2P Require Import Connection.
Local Open Scope Z_scope.

(** ** State *)

(** A task of the pool: the closure [handleRead] submits, and how far it has run. *)
Inductive task_state : Type :=
| TDispatch                 (* about to call [dispatch] *)
| TSend (response : bytes)  (* about to call [sendResponse] *)
| TClear.                   (* about to call [clearInFlight] *)

Record Task : Type := mkTask {
  task_conn : nat;
  task_cmd : Command;
  task_state_of : task_state
}.

(** The kernel's side: the socket each open descriptor refers to, and the bytes each
    socket has taken from the server. *)
Record Kernel : Type := mkKernel {
  fd_table : gmap Z nat;
  wires : gmap nat bytes
}.

(** What the kernel answers to the calls [acceptConnection] makes for a descriptor:
    [fcntl] twice, then [epoll_ctl]; negative for an error. *)
Record AcceptSys : Type := mkAcceptSys {
  acc_getfl : Z;
  acc_setfl : Z;
  acc_epoll_add : Z
}.

(** [setNonBlocking]: the message of the exception, if it throws. *)
Definition setNonBlocking (getfl setfl : Z) : option bytes :=
  if getfl <? 0 then Some (str "fcntl F_GETFL failed")
  else if setfl <? 0 then Some (str "fcntl F_SETFL failed") else None.

(** The event loop's interest list holds the descriptors registered with EPOLLIN; the
    flag says whether EPOLLOUT is asked for too. *)
Record Server (S : Type) : Type := mkServer {
  world : World S;
  heap : gmap nat Connection;
  connections_ : gmap Z nat;
  interest : gmap Z bool;
  pool_tasks : list Task;
  kernel : Kernel
}.
Arguments mkServer {S} world heap connections_ interest pool_tasks kernel.
Arguments world {S} s.
Arguments heap {S} s.
Arguments connections_ {S} s.
Arguments interest {S} s.
Arguments pool_tasks {S} s.
Arguments kernel {S} s.

Definition wire_of (sock : nat) (k : Kernel) : bytes := default [] (wires k !! sock).

Definition set_wire (sock : nat) (b : bytes) (k : Kernel) : Kernel :=
  mkKernel (fd_table k) (<[sock := b]> (wires k)).

Section server.
Context {S : Type} `{StorageOps S}.
Implicit Types (sv : Server S).

Definition set_world (w : World S) sv : Server S :=
  mkServer w (heap sv) (connections_ sv) (interest sv) (pool_tasks sv) (kernel sv).
Definition set_conn (id : nat) (c : Connection) sv : Server S :=
  mkServer (world sv) (<[id := c]> (heap sv)) (connections_ sv) (interest sv) (pool_tasks sv)
    (kernel sv).
Definition set_tasks (ts : list Task) sv : Server S :=
  mkServer (world sv) (heap sv) (connections_ sv) (interest sv) ts (kernel sv).
Definition set_interest (m : gmap Z bool) sv : Server S :=
  mkServer (world sv) (heap sv) (connections_ sv) m (pool_tasks sv) (kernel sv).
Definition set_kernel (k : Kernel) sv : Server S :=
  mkServer (world sv) (heap sv) (connections_ sv) (interest sv) (pool_tasks sv) k.

(** ** The event loop *)

(** [addFd] and [modifyFd] throw when [epoll_ctl] fails; [None] is the exception.  It
    fails with EEXIST or ENOENT when the descriptor is or is not in the interest list,
    and otherwise answers [ctl], negative when the kernel refuses (ENOMEM, ENOSPC, ...). *)
Definition addFd (ctl : Z) (fd : Z) (out : bool) sv : option (Server S) :=
  match interest sv !! fd with
  | Some _ => None
  | None => if ctl <? 0 then None else Some (set_interest (<[fd := out]> (interest sv)) sv)
  end.

Definition modifyFd (ctl : Z) (fd : Z) (out : bool) sv : option (Server S) :=
  match interest sv !! fd with
  | Some _ => if ctl <? 0 then None else Some (set_interest (<[fd := out]> (interest sv)) sv)
  | None => None
  end.

Definition removeFd (fd : Z) sv : Server S := set_interest (delete fd (interest sv)) sv.

(** ** Handlers *)

(** One iteration of [acceptConnection]: the kernel returned descriptor [fd] for a new
    socket [sock]; the connection object is at [id].  [None] is the exception of
    [setNonBlocking] or [addFd]. *)
Definition acceptConnection (sys : AcceptSys) (fd : Z) (sock id : nat) sv : option (Server S) :=
  match setNonBlocking (acc_getfl sys) (acc_setfl sys) with
  | Some _ => None
  | None =>
      let k := mkKernel (<[fd := sock]> (fd_table (kernel sv))) (<[sock := []]> (wires (kernel sv))) in
      let sv := mkServer (world sv) (<[id := new_connection fd]> (heap sv))
                  (<[fd := id]> (connections_ sv)) (interest sv) (pool_tasks sv) k in
      addFd (acc_epoll_add sys) fd false sv
  end.

Definition closeConnection (fd : Z) sv : Server S :=
  let sv := removeFd fd sv in
  mkServer (world sv) (heap sv) (delete fd (connections_ sv)) (interest sv) (pool_tasks sv)
    (mkKernel (delete fd (fd_table (kernel sv))) (wires (kernel sv))).

Definition updateEpollEvents (ctl : Z) (fd : Z) sv : outcome (option (Server S)) :=
  match connections_ sv !! fd with
  | None => Ret (Some sv)
  | Some id => c ← deref (heap sv !! id); Ret (modifyFd ctl fd (wantWrite c) sv)
  end.

(** The loop of [handleRead] over the commands of one read. *)
Fixpoint handle_commands (now now2 : Z) (id : nat) (commands : list bytes) sv
    : outcome (Server S) :=
  match commands with
  | [] => Ret sv
  | cmd_str :: rest =>
      c ← deref (heap sv !! id);
      let '(set, c') := trySetInFlight c in
      if set : bool then
        Ret (set_tasks (pool_tasks sv ++ [mkTask id (parseCommand cmd_str) TDispatch])
               (set_conn id c' sv))
      else
        '(response, w) ← dispatch now now2 (parseCommand cmd_str) (world sv);
        handle_commands now now2 id rest (set_world w (set_conn id (queueResponse response c) sv))
  end.

Definition handleRead (now now2 : Z) (r : recv_result) (ctl : Z) (fd : Z) sv
    : outcome (option (Server S)) :=
  match connections_ sv !! fd with
  | None => Ret (Some sv)
  | Some id =>
      c ← deref (heap sv !! id);
      if in_flight_ c then Ret (Some sv)
      else
        let '(commands, c') := readAndParse r c in
        let sv := set_conn id c' sv in
        if has_error_ c' then Ret (Some (closeConnection fd sv))
        else sv ← handle_commands now now2 id commands sv; updateEpollEvents ctl fd sv
  end.

(** [conn->flushWriteBuffer()] on the socket the descriptor is bound to. *)
Definition flush_to_fd (r : send_result) (c : Connection) (k : Kernel) : Connection * Kernel :=
  match fd_table k !! fd_ c with
  | Some sock =>
      let '(_, c', wire') := flushWriteBuffer r c (wire_of sock k) in (c', set_wire sock wire' k)
  | None => ((flushWriteBuffer SendError c []).1.2, k)
  end.

Definition handleWrite (r : send_result) (ctl : Z) (fd : Z) sv : outcome (option (Server S)) :=
  match connections_ sv !! fd with
  | None => Ret (Some sv)
  | Some id =>
      c ← deref (heap sv !! id);
      let '(c', k) := flush_to_fd r c (kernel sv) in
      let sv := set_kernel k (set_conn id c' sv) in
      if has_error_ c' then Ret (Some (closeConnection fd sv)) else updateEpollEvents ctl fd sv
  end.

(** ** The task *)

(** [conn->sendResponse(response)]: the descriptor of the object names whatever socket
    it is bound to now; a closed descriptor makes the first [send] fail. *)
Definition send_to_fd (os : list send_result) (response : bytes) (c : Connection) (k : Kernel)
    : option (Connection * Kernel) :=
  match fd_table k !! fd_ c with
  | Some sock =>
      '(_, c', wire') ← sendResponse os response c (wire_of sock k);
      Some (c', set_wire sock wire' k)
  | None =>
      '(_, c', _) ← sendResponse [SendError] response c [];
      Some (c', k)
  end.

(** The next call of task [i]; [None] when the task waits for the kernel. *)
Definition task_step (i : nat) (now now2 : Z) (os : list send_result) sv
    : option (outcome (Server S)) :=
  t ← pool_tasks sv !! i;
  c ← heap sv !! task_conn t;
  match task_state_of t with
  | TDispatch =>
      Some ('(response, w) ← dispatch now now2 (task_cmd t) (world sv);
            Ret (set_tasks (<[i := mkTask (task_conn t) (task_cmd t) (TSend response)]> (pool_tasks sv))
                   (set_world w sv)))
  | TSend response =>
      '(c', k) ← send_to_fd os response c (kernel sv);
      Some (Ret (set_tasks (<[i := mkTask (task_conn t) (task_cmd t) TClear]> (pool_tasks sv))
                   (set_kernel k (set_conn (task_conn t) c' sv))))
  | TClear =>
      Some (Ret (set_tasks (delete i (pool_tasks sv)) (set_conn (task_conn t) (clearInFlight c) sv)))
  end.

(** ** Start *)

(** The constructor's use of the log, and the dispatcher it creates: [file] is the
    contents of the log file, if it exists, and [can_open] whether it opens for writing.
    [None] is the exception of [start]. *)
Definition server_start (aof_enabled : bool) (clock : nat -> Z * Z) (now interval : Z)
    (file : option bytes) (can_open : bool) (s0 : S) : outcome (option (Server S)) :=
  let idle w := mkServer w ∅ ∅ ∅ [] (mkKernel ∅ ∅) in
  if aof_enabled then
    let a := setEnabled false (new_writer now interval) in
    '(s, _) ← replay clock file s0;
    let a := setEnabled true a in
    Ret (a ← aof_start (if can_open then Some (default [] file) else None) a;
         Some (idle (mkWorld (new_dispatcher now) s (Some a))))
  else Ret (Some (idle (mkWorld (new_dispatcher now) s0 None))).

(** ** Runs *)

(** The flags of an epoll event, and what the kernel answers to the calls its handlers
    make: the [recv] of [handleRead], the [send] of [handleWrite], and the [epoll_ctl] at
    the end of each. *)
Record EpollEvent : Type := mkEvent {
  ev_err : bool;            (* EPOLLERR or EPOLLHUP *)
  ev_in : bool;
  ev_out : bool;
  on_recv : recv_result;
  on_send : send_result;
  read_ctl : Z;
  write_ctl : Z
}.

(** The body of the loop of [run] for an event of a client. *)
Definition handle_event (now now2 : Z) (ev : EpollEvent) (fd : Z) sv
    : outcome (option (Server S)) :=
  if ev_err ev then Ret (Some (closeConnection fd sv))
  else
    o ← (if ev_in ev then handleRead now now2 (on_recv ev) (read_ctl ev) fd sv else Ret (Some sv));
    match o with
    | None => Ret None
    | Some sv =>
        match connections_ sv !! fd with
        | None => Ret (Some sv)
        | Some _ => if ev_out ev then handleWrite (on_send ev) (write_ctl ev) fd sv else Ret (Some sv)
        end
    end.

Inductive server_event : Type :=
| SvAccept (sys : AcceptSys) (fd : Z) (sock id : nat)
| SvEvent (now now2 : Z) (ev : EpollEvent) (fd : Z)
| SvTask (i : nat) (now now2 : Z) (os : list send_result).

(** One step; [None] when it is not possible.  The kernel returns a free descriptor for
    a new socket, and reports events only for descriptors of the interest list, EPOLLOUT
    only when asked for. *)
Definition server_exec (e : server_event) sv : option (outcome (option (Server S))) :=
  match e with
  | SvAccept sys fd sock id =>
      if decide (fd_table (kernel sv) !! fd = None /\ wires (kernel sv) !! sock = None /\
                 heap sv !! id = None)
      then Some (Ret (acceptConnection sys fd sock id sv)) else None
  | SvEvent now now2 ev fd =>
      match interest sv !! fd with
      | Some out => if implb (ev_out ev) out then Some (handle_event now now2 ev fd sv) else None
      | None => None
      end
  | SvTask i now now2 os =>
      match task_step i now now2 os sv with
      | Some (Ret sv') => Some (Ret (Some sv'))
      | Some UB => Some UB
      | None => None
      end
  end.

Fixpoint server_run (es : list server_event) sv : option (outcome (option (Server S))) :=
  match es with
  | [] => Some (Ret (Some sv))
  | e :: es' =>
      o ← server_exec e sv;
      match o with
      | Ret (Some sv') => server_run es' sv'
      | other => Some other
      end
  end.
End server.

(** The kernel grants what the server asks of it in a step: [fcntl] and [epoll_ctl]
    succeed. *)
Definition accept_granted (sys : AcceptSys) : Prop :=
  0 <= acc_getfl sys /\ 0 <= acc_setfl sys /\ 0 <= acc_epoll_add sys.

Definition event_granted (ev : EpollEvent) : Prop := 0 <= read_ctl ev /\ 0 <= write_ctl ev.

Definition step_granted (e : server_event) : Prop :=
  match e with
  | SvAccept sys _ _ _ => accept_granted sys
  | SvEvent _ _ ev _ => event_granted ev
  | SvTask _ _ _ _ => True
  end.

(** Data to read, and a hangup, on a kernel that grants what it is asked. *)
Definition granted : AcceptSys := mkAcceptSys 0 0 0.
Definition ev_read (r : recv_result) : EpollEvent := mkEvent false true false r SendAgain 0 0.
Definition ev_hangup : EpollEvent := mkEvent true false false RecvAgain SendAgain 0 0.
