(* ===== verification/ServerFacts.v ===== *)
(** * What the server guarantees its clients, and what it does not

    The tables of the server stay consistent in every run: one task per connection, the
    in-flight flag tells which, every handler finds its objects and throws only when the
    kernel refuses [fcntl] or [epoll_ctl], and the event loop never runs a command itself.
    The last theorems are runs in which clients lose commands, bytes or their own
    responses. *)

From S2P Require Import Prelude Cpp Parser Response StorageInterface AofWriter AofReplay.
From S2P Require Import Dispatcher DispatcherFacts ParserFacts Connection Server.
Local Open Scope Z_scope.

Section facts.
Context {S : Type} `{StorageOps S}.
Implicit Types (sv : Server S) (w : World S).

(** ** Consistency *)

Definition busy sv : list nat := task_conn <$> pool_tasks sv.

(** One task at most per connection, and the flag is set exactly when there is one. *)
Definition tasks_ok sv : Prop :=
  NoDup (busy sv) /\
  (forall id c, heap sv !! id = Some c -> in_flight_ c = true <-> id ∈ busy sv) /\
  (forall id, id ∈ busy sv -> is_Some (heap sv !! id)).

(** The connection table, the interest list and the kernel know the same descriptors,
    and the table's objects exist and know theirs. *)
Definition tables_ok sv : Prop :=
  dom (interest sv) = dom (connections_ sv) /\
  dom (fd_table (kernel sv)) = dom (connections_ sv) /\
  (forall fd id, connections_ sv !! fd = Some id ->
     exists c, heap sv !! id = Some c /\ fd_ c = fd) /\
  (forall id c, heap sv !! id = Some c -> ch_nl ∉ read_buffer_ c).

Definition server_inv sv : Prop := tasks_ok sv /\ tables_ok sv.

(** A server before its first connection. *)
Definition idle_server w : Server S := mkServer w ∅ ∅ ∅ [] (mkKernel ∅ ∅).

Lemma idle_server_inv w : server_inv (idle_server w).
Proof.
  split.
  - split; [constructor|]. split; [done|]. intros id Hid. by apply elem_of_nil in Hid.
  - repeat split; try done; set_solver.
Qed.

(** Replacing an object by one with the same descriptor, flag and a clean buffer. *)
Lemma set_conn_inv id c c' sv :
  heap sv !! id = Some c -> fd_ c' = fd_ c -> in_flight_ c' = in_flight_ c ->
  ch_nl ∉ read_buffer_ c' -> server_inv sv -> server_inv (set_conn id c' sv).
Proof.
  intros Hid Hfd Hin Hb [(Hnd & Hfl & Hex) (Hi & Hk & Hc & Hr)].
  split.
  - split; [done|]. split; simpl.
    + intros id' d [[<- <-]|[? Hd]]%lookup_insert_Some; [|by apply Hfl].
      rewrite Hin. by apply Hfl.
    + intros id' Hb'. apply lookup_insert_is_Some'. right. by apply Hex.
  - split; [done|]. split; [done|]. split; simpl.
    + intros fd id' Hfd'. destruct (Hc _ _ Hfd') as (d & Hd & Hdfd).
      destruct (decide (id = id')) as [<-|Hne].
      * rewrite lookup_insert_eq. exists c'. split; [done|]. congruence.
      * rewrite lookup_insert_ne by done. eauto.
    + intros id' d [[<- <-]|[? Hd]]%lookup_insert_Some; [done|by eapply Hr].
Qed.

Lemma set_kernel_inv k sv :
  fd_table k = fd_table (kernel sv) -> server_inv sv -> server_inv (set_kernel k sv).
Proof.
  intros Hk [Ht (Hi & Hd & Hrest)]. split; [done|]. split; [done|].
  split; [|done]. simpl. by rewrite Hk.
Qed.

Lemma set_world_inv w sv : server_inv sv -> server_inv (set_world w sv).
Proof. done. Qed.

Lemma closeConnection_inv fd sv : server_inv sv -> server_inv (closeConnection fd sv).
Proof.
  intros [Ht (Hi & Hk & Hc & Hr)]. split; [done|]. unfold closeConnection, tables_ok. simpl.
  rewrite !dom_delete_L, Hi, Hk. split; [done|]. split; [done|]. split; [|done].
  intros fd' id [_ Hfd]%lookup_delete_Some. by apply Hc.
Qed.

(** How a handler ends: with a state that satisfies [P], or with an exception because
    the kernel did not grant what it was asked; never in undefined behaviour. *)
Definition ends (grants : Prop) (P : Server S -> Prop) (o : outcome (option (Server S))) : Prop :=
  match o with
  | Ret (Some sv') => P sv'
  | Ret None => ~ grants
  | UB => False
  end.

Lemma ends_mono (g g' : Prop) (P Q : Server S -> Prop) o :
  (g' -> g) -> (forall sv, P sv -> Q sv) -> ends g P o -> ends g' Q o.
Proof. destruct o as [[sv|]|]; simpl; auto. Qed.

Lemma ends_impl (g : Prop) (P Q : Server S -> Prop) o :
  ends g P o -> (forall sv, P sv -> Q sv) -> ends g Q o.
Proof. destruct o as [[sv|]|]; simpl; auto. Qed.

Lemma ends_granted (g : Prop) P o :
  g -> ends g P o -> exists sv', o = Ret (Some sv') /\ P sv'.
Proof. destruct o as [[sv|]|]; simpl; [eauto|tauto|tauto]. Qed.

Lemma ends_return g P o sv' : ends g P o -> o = Ret (Some sv') -> P sv'.
Proof. by intros He ->. Qed.

Lemma setNonBlocking_granted getfl setfl :
  setNonBlocking getfl setfl = None <-> 0 <= getfl /\ 0 <= setfl.
Proof.
  unfold setNonBlocking. destruct (Z.ltb_spec getfl 0); [split; [done|lia]|].
  destruct (Z.ltb_spec setfl 0); split; try done; lia.
Qed.

Lemma acceptConnection_inv sys fd sock id sv :
  fd_table (kernel sv) !! fd = None -> heap sv !! id = None -> server_inv sv ->
  ends (accept_granted sys) server_inv (Ret (acceptConnection sys fd sock id sv)).
Proof.
  intros Hfd Hid [(Hnd & Hfl & Hex) (Hi & Hk & Hc & Hr)].
  assert (Hdom : fd ∉ dom (connections_ sv)) by (by rewrite <- Hk, not_elem_of_dom).
  unfold acceptConnection, addFd, accept_granted. simpl.
  assert (Hint : interest sv !! fd = None) by (by rewrite <- not_elem_of_dom, Hi).
  pose proof (setNonBlocking_granted (acc_getfl sys) (acc_setfl sys)) as Hnb'.
  destruct (setNonBlocking _ _); [simpl; intros (H1 & H2 & _); discriminate (proj2 Hnb' (conj H1 H2))|clear Hnb'].
  rewrite Hint. destruct (Z.ltb_spec (acc_epoll_add sys) 0); simpl; [lia|].
  assert (Hnb : id ∉ busy sv) by (intros Hb; apply Hex in Hb as [? ?]; congruence). split.
  - split; [done|]. split; simpl.
    + intros id' c [[<- <-]|[? Hd]]%lookup_insert_Some; [|by apply Hfl]. by simpl.
    + intros id' Hb. apply lookup_insert_is_Some'. right. by apply Hex.
  - unfold tables_ok. simpl. rewrite !dom_insert_L, Hi, Hk. split; [done|]. split; [done|]. split.
    + intros fd' id' [[<- <-]|[Hne Hfd']]%lookup_insert_Some.
      * rewrite lookup_insert_eq. eauto.
      * destruct (Hc _ _ Hfd') as (d & Hd & Hdfd). exists d.
        rewrite lookup_insert_ne by congruence. done.
    + intros id' c [[<- <-]|[? Hd]]%lookup_insert_Some; [by apply not_elem_of_nil|by eapply Hr].
Qed.

Lemma updateEpollEvents_inv ctl fd sv :
  server_inv sv ->
  ends (0 <= ctl) (fun sv' => server_inv sv' /\ world sv' = world sv /\ heap sv' = heap sv /\
      pool_tasks sv' = pool_tasks sv /\ connections_ sv' = connections_ sv /\ kernel sv' = kernel sv)
    (updateEpollEvents ctl fd sv).
Proof.
  intros [Ht (Hi & Hk & Hc & Hr)]. unfold updateEpollEvents.
  destruct (connections_ sv !! fd) as [id|] eqn:E; [|done].
  destruct (Hc _ _ E) as (c & Hid & _). rewrite Hid. simpl. unfold modifyFd.
  assert (Hd : fd ∈ dom (interest sv)) by (rewrite Hi; by apply elem_of_dom_2 in E).
  apply elem_of_dom in Hd as [out ->]. destruct (Z.ltb_spec ctl 0); simpl; [lia|].
  split; [|done]. split; [done|]. unfold tables_ok. simpl. rewrite dom_insert_L, Hi.
  split; [|done]. apply elem_of_dom_2 in E. set_solver.
Qed.

(** Reading and sending keep the descriptor and the flag. *)
Lemma readAndParse_frame r c :
  ch_nl ∉ read_buffer_ c ->
  fd_ (readAndParse r c).2 = fd_ c /\ in_flight_ (readAndParse r c).2 = in_flight_ c /\
  ch_nl ∉ read_buffer_ (readAndParse r c).2.
Proof. intros Hc. destruct r; simpl; try done. repeat split. apply extract_clean. Qed.

Lemma flush_to_fd_frame r c k :
  fd_ (flush_to_fd r c k).1 = fd_ c /\ in_flight_ (flush_to_fd r c k).1 = in_flight_ c /\
  read_buffer_ (flush_to_fd r c k).1 = read_buffer_ c /\
  fd_table (flush_to_fd r c k).2 = fd_table k.
Proof.
  unfold flush_to_fd, flushWriteBuffer. repeat case_match; simplify_eq/=; try done.
Qed.

Lemma send_to_fd_frame os response c k c' k' :
  send_to_fd os response c k = Some (c', k') ->
  fd_ c' = fd_ c /\ in_flight_ c' = in_flight_ c /\ read_buffer_ c' = read_buffer_ c /\
  fd_table k' = fd_table k.
Proof.
  unfold send_to_fd. destruct (fd_table k !! fd_ c) as [sock|];
    intros Hs; apply bind_Some in Hs as ([[b d] wire'] & Hsend & [= <- <-]);
    apply sendResponse_outcome in Hsend as (sent & rest & _ & _ & Hcase);
    destruct Hcase as [(_ & _ & ->)|[(_ & _ & ->)|(_ & _ & ->)]]; done.
Qed.

(** Submitting a task for a connection that has none. *)
Lemma submit_inv id c cmd sv :
  heap sv !! id = Some c -> in_flight_ c = false -> server_inv sv ->
  server_inv (set_tasks (pool_tasks sv ++ [mkTask id cmd TDispatch])
                (set_conn id (set_in_flight true c) sv)).
Proof.
  intros Hid Hin [(Hnd & Hfl & Hex) (Hi & Hk & Hc & Hr)].
  assert (Hnb : id ∉ busy sv) by (intros Hb%(Hfl id c Hid); congruence).
  split.
  - unfold tasks_ok, busy in *. simpl. rewrite fmap_app. simpl. split; [|split].
    + apply NoDup_app. split; [done|]. split; [set_solver|apply NoDup_singleton].
    + intros id' d [[<- <-]|[Hne Hd]]%lookup_insert_Some; [set_solver|].
      rewrite (Hfl _ _ Hd). set_solver.
    + intros id' [Hb|Hb]%elem_of_app; apply lookup_insert_is_Some'; [right; by apply Hex|left].
      by apply list_elem_of_singleton in Hb.
  - split; [done|]. split; [done|]. split; simpl.
    + intros fd id' Hfd'. destruct (Hc _ _ Hfd') as (d & Hd & Hdfd).
      destruct (decide (id = id')) as [<-|Hne].
      * rewrite lookup_insert_eq. eexists. split; [done|]. simpl. congruence.
      * rewrite lookup_insert_ne by done. eauto.
    + intros id' d [[<- <-]|[? Hd]]%lookup_insert_Some; [by apply (Hr id c)|by eapply Hr].
Qed.

(** On a connection that is not in flight, the loop over the commands submits the
    first one and stops. *)
Lemma handle_commands_first now now2 id c cmd rest sv :
  heap sv !! id = Some c -> in_flight_ c = false ->
  handle_commands now now2 id (cmd :: rest) sv =
  Ret (set_tasks (pool_tasks sv ++ [mkTask id (parseCommand cmd) TDispatch])
         (set_conn id (set_in_flight true c) sv)).
Proof. intros Hid Hin. simpl. rewrite Hid. simpl. unfold trySetInFlight. by rewrite Hin. Qed.

(** [handleRead] on a consistent server: unless [epoll_ctl] is refused it returns normally,
    keeps the server consistent, and leaves the storage, the log and the counters alone. *)
Lemma handleRead_total now now2 r ctl fd sv :
  server_inv sv ->
  ends (0 <= ctl) (fun sv' => server_inv sv' /\ world sv' = world sv)
    (handleRead now now2 r ctl fd sv).
Proof.
  intros Hinv. pose proof Hinv as [_ (_ & _ & Hc & Hr)]. unfold handleRead.
  destruct (connections_ sv !! fd) as [id|] eqn:E; [|done].
  destruct (Hc _ _ E) as (c & Hid & _). rewrite Hid. simpl.
  destruct (in_flight_ c) eqn:Hin; [done|].
  destruct (readAndParse_frame r c (Hr _ _ Hid)) as (Hfd & Hin' & Hb).
  destruct (readAndParse r c) as [commands c']. simpl in *.
  assert (Hinv1 : server_inv (set_conn id c' sv)) by (by eapply set_conn_inv).
  destruct (has_error_ c'); [by split; [apply closeConnection_inv|]|].
  destruct commands as [|cmd rest].
  - apply (ends_impl _ _ _ _ (updateEpollEvents_inv ctl fd _ Hinv1)). naive_solver.
  - assert (Hid' : heap (set_conn id c' sv) !! id = Some c') by (simpl; apply lookup_insert_eq).
    rewrite (handle_commands_first now now2 id c' cmd rest _ Hid') by congruence.
    pose proof (submit_inv id c' (parseCommand cmd) _ Hid' ltac:(congruence) Hinv1) as Hinv2.
    apply (ends_impl _ _ _ _ (updateEpollEvents_inv ctl fd _ Hinv2)). naive_solver.
Qed.

Lemma handleWrite_total r ctl fd sv :
  server_inv sv ->
  ends (0 <= ctl) (fun sv' => server_inv sv' /\ world sv' = world sv) (handleWrite r ctl fd sv).
Proof.
  intros Hinv. pose proof Hinv as [_ (_ & _ & Hc & Hr)]. unfold handleWrite.
  destruct (connections_ sv !! fd) as [id|] eqn:E; [|done].
  destruct (Hc _ _ E) as (c & Hid & _). rewrite Hid. simpl.
  destruct (flush_to_fd_frame r c (kernel sv)) as (Hfd & Hin & Hb & Hk).
  destruct (flush_to_fd r c (kernel sv)) as [c' k]. simpl in *.
  assert (Hinv1 : server_inv (set_kernel k (set_conn id c' sv))).
  { apply set_kernel_inv; [done|]. eapply set_conn_inv; try done. rewrite Hb. by eapply Hr. }
  destruct (has_error_ c'); [by split; [apply closeConnection_inv|]|].
  apply (ends_impl _ _ _ _ (updateEpollEvents_inv ctl fd _ Hinv1)). naive_solver.
Qed.

(** ** Tasks *)

Lemma busy_update i t t' sv :
  pool_tasks sv !! i = Some t -> task_conn t' = task_conn t ->
  task_conn <$> <[i := t']> (pool_tasks sv) = busy sv.
Proof.
  intros Hi Ht. unfold busy. rewrite list_fmap_insert, Ht.
  apply list_insert_id. by rewrite list_lookup_fmap, Hi.
Qed.

Lemma set_tasks_inv ts sv :
  task_conn <$> ts = busy sv -> server_inv sv -> server_inv (set_tasks ts sv).
Proof. intros Hts [Ht Hb]. split; [|done]. unfold tasks_ok, busy in *. simpl. by rewrite Hts. Qed.

(** The end of a task. *)
Lemma finish_inv i t c sv :
  pool_tasks sv !! i = Some t -> heap sv !! task_conn t = Some c -> server_inv sv ->
  server_inv (set_tasks (delete i (pool_tasks sv)) (set_conn (task_conn t) (clearInFlight c) sv)).
Proof.
  intros Hi Hid [(Hnd & Hfl & Hex) (Hin & Hk & Hc & Hr)].
  pose proof (take_drop_middle _ _ _ Hi) as Hsplit. unfold busy in *.
  rewrite <- Hsplit in Hnd, Hfl, Hex. rewrite fmap_app, fmap_cons in Hnd.
  setoid_rewrite fmap_app in Hfl. setoid_rewrite fmap_cons in Hfl.
  setoid_rewrite fmap_app in Hex. setoid_rewrite fmap_cons in Hex.
  apply NoDup_app in Hnd as (Hn1 & Hn2 & Hn3%NoDup_cons). destruct Hn3 as [Hn3 Hn4].
  split.
  - unfold tasks_ok, busy. simpl. rewrite delete_take_drop, fmap_app. split; [|split].
    + apply NoDup_app. split; [done|]. split; [|done]. intros x Hx Hx'. apply (Hn2 x Hx). by right.
    + intros id d [[<- <-]|[Hne Hd]]%lookup_insert_Some.
      * simpl. split; [done|]. intros [Hx|Hx]%elem_of_app; [|done].
        exfalso. apply (Hn2 _ Hx). by left.
      * rewrite (Hfl _ _ Hd). rewrite !elem_of_app, elem_of_cons. naive_solver.
    + intros id Hb. apply lookup_insert_is_Some'. right. apply Hex.
      rewrite elem_of_app, elem_of_cons. apply elem_of_app in Hb. tauto.
  - split; [done|]. split; [done|]. split; simpl.
    + intros fd id' Hfd'. destruct (Hc _ _ Hfd') as (d & Hd & Hdfd).
      destruct (decide (task_conn t = id')) as [<-|Hne].
      * rewrite lookup_insert_eq. eexists. split; [done|]. simpl. congruence.
      * rewrite lookup_insert_ne by done. eauto.
    + intros id' d [[<- <-]|[? Hd]]%lookup_insert_Some; [by apply (Hr (task_conn t) c)|by eapply Hr].
Qed.

Lemma task_step_inv i now now2 os sv sv' :
  server_inv sv -> task_step i now now2 os sv = Some (Ret sv') -> server_inv sv'.
Proof.
  intros Hinv Hs. unfold task_step in Hs. apply bind_Some in Hs as (t & Hi & Hs).
  apply bind_Some in Hs as (c & Hid & Hs). destruct (task_state_of t) as [|response|].
  - injection Hs as Hs. apply bind_Ret_inv in Hs as ([r w] & _ & [= <-]).
    apply set_tasks_inv; [by apply (busy_update i t _ sv)|by apply set_world_inv].
  - apply bind_Some in Hs as ([c' k] & Hsend & Hs). injection Hs as <-.
    apply send_to_fd_frame in Hsend as (Hfd & Hin & Hb & Hk).
    apply set_tasks_inv; [by apply (busy_update i t _ sv)|]. apply set_kernel_inv; [done|].
    eapply set_conn_inv; try done. rewrite Hb. destruct Hinv as [_ (_ & _ & _ & Hr)]. by eapply Hr.
  - injection Hs as <-. by apply finish_inv.
Qed.

(** ** Every run *)

Lemma handle_event_total now now2 ev fd sv :
  server_inv sv ->
  ends (event_granted ev) (fun sv' => server_inv sv' /\ world sv' = world sv)
    (handle_event now now2 ev fd sv).
Proof.
  intros Hinv. unfold handle_event, event_granted. destruct (ev_err ev).
  { by split; [apply closeConnection_inv|]. }
  assert (Hread : ends (0 <= read_ctl ev) (fun sv' => server_inv sv' /\ world sv' = world sv)
    (if ev_in ev then handleRead now now2 (on_recv ev) (read_ctl ev) fd sv else Ret (Some sv))).
  { destruct (ev_in ev); [by apply handleRead_total|done]. }
  destruct (if ev_in ev then _ else _) as [[sv1|]|]; simpl in *; [|tauto|done].
  destruct Hread as [Hinv1 Hw1]. destruct (connections_ sv1 !! fd); [|done].
  destruct (ev_out ev); [|done]. eapply ends_mono; [| |by apply handleWrite_total].
  - by intros [_ ?].
  - intros sv2 [? ?]. split; [done|]. congruence.
Qed.

(** A worker's task about to run a command whose dispatch is undefined. *)
Definition dispatch_undefined sv (e : server_event) : Prop :=
  exists i now now2 os t, e = SvTask i now now2 os /\ pool_tasks sv !! i = Some t /\
    task_state_of t = TDispatch /\ dispatch now now2 (task_cmd t) (world sv) = UB.

Lemma task_step_undefined i now now2 os sv :
  task_step i now now2 os sv = Some UB -> dispatch_undefined sv (SvTask i now now2 os).
Proof.
  intros Hs. unfold task_step in Hs. apply bind_Some in Hs as (t & Hi & Hs).
  apply bind_Some in Hs as (c & Hid & Hs). exists i, now, now2, os, t.
  destruct (task_state_of t) as [|response|] eqn:Hst; [|by apply bind_Some in Hs as ([c' k] & _ & Hs)|done].
  injection Hs as Hs. do 3 (split; [done|]).
  by destruct (dispatch now now2 (task_cmd t) (world sv)) as [[r w]|].
Qed.

Lemma server_exec_inv e sv o :
  server_inv sv -> server_exec e sv = Some o ->
  ends (step_granted e) server_inv o \/ o = UB /\ dispatch_undefined sv e.
Proof.
  intros Hinv He. destruct e as [sys fd sock id|now now2 ev fd|i now now2 os]; simpl in He.
  - case_decide as Hd; [|done]. destruct Hd as (Hfd & _ & Hid). injection He as <-. left.
    by apply acceptConnection_inv.
  - destruct (interest sv !! fd) as [out|]; [|done]. destruct (implb _ _); [|done].
    injection He as <-. left. eapply ends_impl; [by apply handle_event_total|]. by intros ? [? _].
  - destruct (task_step i now now2 os sv) as [[sv'|]|] eqn:E; try done; injection He as <-.
    + left. by eapply task_step_inv.
    + right. split; [done|]. by apply task_step_undefined.
Qed.

Lemma server_run_inv es sv o :
  server_inv sv -> server_run es sv = Some o ->
  ends (Forall step_granted es) server_inv o \/
  o = UB /\ exists es1 e es2 sv1, es = es1 ++ e :: es2 /\
    server_run es1 sv = Some (Ret (Some sv1)) /\ dispatch_undefined sv1 e.
Proof.
  revert sv. induction es as [|e es IH]; intros sv Hinv Hr; simpl in Hr.
  { injection Hr as <-. by left. }
  apply bind_Some in Hr as (o1 & He & Hr).
  destruct (server_exec_inv e sv o1 Hinv He) as [Hend|[-> Hun]].
  - destruct o1 as [[sv1|]|]; simpl in Hend; [|injection Hr as <-|done].
    + destruct (IH sv1 Hend Hr) as [Hend1|(-> & es1 & e1 & es2 & sv2 & -> & Hr1 & Hun)].
      * left. eapply ends_mono; [|done|exact Hend1]. by intros [_ ?]%Forall_cons.
      * right. split; [done|]. exists (e :: es1), e1, es2, sv2. split; [done|]. split; [|done].
        simpl. by rewrite He.
    + left. simpl. by intros [? _]%Forall_cons.
  - injection Hr as <-. right. split; [done|]. by exists [], e, es, sv.
Qed.

Lemma server_run_reaches_inv es sv sv' :
  server_inv sv -> server_run es sv = Some (Ret (Some sv')) -> server_inv sv'.
Proof. intros Hinv Hr. by destruct (server_run_inv _ _ _ Hinv Hr) as [?|[? _]]. Qed.

(** C9: In every run of the server, in any interleaving of the event loop and the workers
    and whatever the kernel answers: in the state it reaches each connection has at most
    one task, its in-flight flag is set exactly while it has one, and the connection
    table, the interest list and the kernel agree on the open descriptors; the run ends
    with an exception only if the kernel refused an [fcntl] or an [epoll_ctl] in one of
    its steps; and it ends in undefined behaviour only where a worker ran a command whose
    dispatch is undefined in the state it found. *)
Theorem server_consistent w es o :
  server_run es (idle_server w) = Some o ->
  match o with
  | Ret (Some sv) => server_inv sv
  | Ret None => ~ Forall step_granted es
  | UB => exists es1 e es2 sv, es = es1 ++ e :: es2 /\
      server_run es1 (idle_server w) = Some (Ret (Some sv)) /\ server_inv sv /\
      dispatch_undefined sv e
  end.
Proof.
  intros Hr. destruct (server_run_inv _ _ _ (idle_server_inv w) Hr)
    as [Hend|(-> & es1 & e & es2 & sv & Hes & Hr1 & Hun)].
  - destruct o as [[sv|]|]; done.
  - exists es1, e, es2, sv. pose proof (server_run_reaches_inv _ _ _ (idle_server_inv w) Hr1). done.
Qed.

(** In every state a run reaches, whatever the event, the event loop handles it without
    undefined behaviour, throws only when [epoll_ctl] is refused, and leaves storage, log
    and counters untouched: the branch of [handleRead] that runs a command on the event
    loop's thread is never taken. *)
Lemma event_loop_never_dispatches w es sv now now2 ev fd :
  server_run es (idle_server w) = Some (Ret (Some sv)) ->
  ends (event_granted ev) (fun sv' => world sv' = world sv) (handle_event now now2 ev fd sv).
Proof.
  intros Hr. pose proof (server_run_reaches_inv _ _ _ (idle_server_inv w) Hr) as Hinv.
  eapply ends_impl; [by apply handle_event_total|]. by intros ? [_ ?].
Qed.

(** ** Commands, bytes and responses that get lost *)

(** C35: Of the commands one read delivers only the first is executed: two reads that agree
    on the first command and on what stays in the buffer leave the same server, however
    many commands follow the first. *)
Theorem commands_after_first_lost now now2 ctl fd id c r1 r2 cmd rest1 rest2 c' sv :
  connections_ sv !! fd = Some id -> heap sv !! id = Some c -> in_flight_ c = false ->
  readAndParse r1 c = (cmd :: rest1, c') -> readAndParse r2 c = (cmd :: rest2, c') ->
  handleRead now now2 r1 ctl fd sv = handleRead now now2 r2 ctl fd sv.
Proof.
  intros Hfd Hid Hin H1 H2. unfold handleRead. rewrite Hfd, Hid. simpl. rewrite Hin, H1, H2.
  destruct (has_error_ c'); [done|].
  assert (Hin' : in_flight_ c' = false) by (destruct r1; simplify_eq/=; done).
  assert (Hid' : heap (set_conn id c' sv) !! id = Some c') by (simpl; apply lookup_insert_eq).
  by rewrite !(handle_commands_first _ _ _ _ _ _ _ Hid' Hin').
Qed.

(** A server that has just been constructed. *)
Definition fresh_start (start : Z) (s : S) (a : option AOFWriter) : Server S :=
  idle_server (mkWorld (new_dispatcher start) s a).

Definition ping_line : bytes := str "PING" ++ [ch_nl].

(** C33: A worker sends to the descriptor its connection had: when the event loop closes the
    connection meanwhile and the kernel gives the descriptor to a new client, the new
    client receives the response.  Here it has sent nothing. *)
Theorem response_to_wrong_client start (s : S) a :
  exists es sv, server_run es (fresh_start start s a) = Some (Ret (Some sv)) /\
    connections_ sv !! 5 = Some 1%nat /\ heap sv !! 1%nat = Some (new_connection 5) /\
    fd_table (kernel sv) !! 5 = Some 1%nat /\ wire_of 1 (kernel sv) = pongResponse.
Proof.
  eexists [SvAccept granted 5 0 0; SvEvent 0 0 (ev_read (Received ping_line)) 5; SvTask 0 0 0 [];
           SvEvent 0 0 ev_hangup 5; SvAccept granted 5 1 1; SvTask 0 0 0 [Sent 6]], _.
  split; [vm_compute; reflexivity|]. by repeat split.
Qed.

(** C34: A response the socket takes only in part is queued, but nothing asks for EPOLLOUT:
    no task is left and the event loop will not call [handleWrite], so the rest waits
    until the client sends more.  The next response is then sent past the queued bytes,
    into the middle of the first. *)
Theorem response_interleaved start (s : S) a :
  exists es1 sv1 c1 es2 sv2 c2,
    server_run es1 (fresh_start start s a) = Some (Ret (Some sv1)) /\
    heap sv1 !! 0%nat = Some c1 /\ write_buffer_ c1 = drop 2 pongResponse /\
    pool_tasks sv1 = [] /\ interest sv1 !! 5 = Some false /\
    server_run es2 sv1 = Some (Ret (Some sv2)) /\
    heap sv2 !! 0%nat = Some c2 /\ write_buffer_ c2 = drop 2 pongResponse /\
    wire_of 0 (kernel sv2) = take 2 pongResponse ++ pongResponse.
Proof.
  eexists [SvAccept granted 5 0 0; SvEvent 0 0 (ev_read (Received ping_line)) 5; SvTask 0 0 0 [];
           SvTask 0 0 0 [Sent 2; SendAgain]; SvTask 0 0 0 []], _, _,
    [SvEvent 0 0 (ev_read (Received ping_line)) 5; SvTask 0 0 0 []; SvTask 0 0 0 [Sent 6]], _, _.
  split; [vm_compute; reflexivity|]. do 4 (split; [vm_compute; reflexivity|]).
  split; [vm_compute; reflexivity|]. by repeat split.
Qed.

(** ** Start *)

(** Starting with a log: the storage is the replay of the file, nothing was logged
    meanwhile, and the writer accepts lines and appends to the file. *)
Lemma server_start_replays clock now interval contents s0 s st :
  replay clock (Some contents) s0 = Ret (s, st) ->
  exists a, server_start true clock now interval (Some contents) true s0 =
      Ret (Some (idle_server (mkWorld (new_dispatcher now) s (Some a)))) /\
    enabled_ a = true /\ stopped_ a = false /\ queue_ a = [] /\ thread_ a = Waiting /\
    text a = contents.
Proof.
  intros Hrep. unfold server_start. rewrite Hrep. eexists. split; [reflexivity|].
  repeat split. unfold text. simpl. by rewrite app_nil_r.
Qed.
End facts.

(** The commands of a sequence of lines, with the clock readings of each. *)
Definition requests (times : list (Z * Z)) (lines : list bytes) : list (Z * Z * Command) :=
  zip_with (fun t line => (t.1, t.2, parseCommand line)) times lines.
