(* ===== verification/ServerSession.v ===== *)
(** * Clients get their own responses

    The server's guarantee to its clients, and the conditions it needs: a connection is
    not torn down by an error event while its command is in flight, and the socket takes
    a whole response.  Then, in every interleaving of the event loop and the workers,
    what a client has received is the responses to its own commands, in order. *)

From S2P Require Import Prelude Cpp Parser Response StorageInterface AofWriter AofReplay.
From S2P Require Import Dispatcher Connection Server ServerFacts.
Local Open Scope Z_scope.

Section session.
Context {S : Type} `{StorageOps S}.
Implicit Types (sv : Server S) (w : World S) (ts : list Task).

(** ** What was answered *)

(** The response a step computes, with the connection it is for. *)
Definition answered (e : server_event) sv : list (nat * bytes) :=
  match e with
  | SvTask i now now2 _ =>
      match pool_tasks sv !! i with
      | Some (mkTask id cmd TDispatch) =>
          match dispatch now now2 cmd (world sv) with Ret (r, _) => [(id, r)] | UB => [] end
      | _ => []
      end
  | _ => []
  end.

(** The responses of a run, in order. *)
Fixpoint answers (es : list server_event) sv : list (nat * bytes) :=
  match es with
  | [] => []
  | e :: es' =>
      answered e sv ++
      match server_exec e sv with Some (Ret (Some sv')) => answers es' sv' | _ => [] end
  end.

(** The responses to the commands of one connection, one after the other. *)
Definition responses_to (id : nat) (tr : list (nat * bytes)) : bytes :=
  concat (filter (fun p => p.1 = id) tr).*2.

(** The response a task of the connection holds and has not sent yet. *)
Definition held (id : nat) (t : Task) : bytes :=
  if decide (task_conn t = id) then
    match task_state_of t with TSend r => r | _ => [] end
  else [].

Definition pending (id : nat) ts : bytes := concat (map (held id) ts).

(** ** Orderly runs *)

(** An error event only for a connection that is not in flight, and a [sendResponse]
    that sends everything. *)
Definition orderly (e : server_event) sv : Prop :=
  match e with
  | SvAccept _ _ _ _ => True
  | SvEvent _ _ ev fd =>
      ev_err ev = true -> forall id, connections_ sv !! fd = Some id -> id ∉ busy sv
  | SvTask i _ _ os =>
      forall id cmd r c, pool_tasks sv !! i = Some (mkTask id cmd (TSend r)) ->
        heap sv !! id = Some c ->
        forall wire, exists wire', sendResponse os r c wire = Some (true, c, wire')
  end.

Fixpoint orderly_run (es : list server_event) sv : Prop :=
  match es with
  | [] => True
  | e :: es' =>
      orderly e sv /\
      match server_exec e sv with Some (Ret (Some sv')) => orderly_run es' sv' | _ => True end
  end.

Lemma orderly_cons e es sv sv' :
  orderly e sv -> server_exec e sv = Some (Ret (Some sv')) -> orderly_run es sv' ->
  orderly_run (e :: es) sv.
Proof. intros Ho He Hor. simpl. by rewrite He. Qed.

(** ** The invariant *)

(** The client behind descriptor [fd] has received the responses to its commands, but
    for the one a task still holds. *)
Definition received_own (tr : list (nat * bytes)) sv : Prop :=
  forall fd id sock, connections_ sv !! fd = Some id -> fd_table (kernel sv) !! fd = Some sock ->
    wire_of sock (kernel sv) ++ pending id (pool_tasks sv) = responses_to id tr.

(** Nothing is queued on a connection, and one of the table has no error. *)
Definition quiet (id : nat) (c : Connection) sv : Prop :=
  write_buffer_ c = [] /\ (has_error_ c = true -> forall fd, connections_ sv !! fd <> Some id).

Record delivered (tr : list (nat * bytes)) sv : Prop := mkDelivered {
  del_inv : server_inv sv;
  del_own : received_own tr sv;
  del_quiet : forall id c, heap sv !! id = Some c -> quiet id c sv;
  del_open : forall id, id ∈ busy sv -> exists fd, connections_ sv !! fd = Some id;
  del_socks : forall fd sock, fd_table (kernel sv) !! fd = Some sock -> is_Some (wires (kernel sv) !! sock);
  del_inj : forall fd fd' sock, fd_table (kernel sv) !! fd = Some sock ->
              fd_table (kernel sv) !! fd' = Some sock -> fd = fd';
  del_known : forall p, p ∈ tr -> is_Some (heap sv !! p.1)
}.

(** ** Responses and pending responses *)

Lemma responses_to_app id tr1 tr2 :
  responses_to id (tr1 ++ tr2) = responses_to id tr1 ++ responses_to id tr2.
Proof. unfold responses_to. by rewrite filter_app, fmap_app, concat_app. Qed.

Lemma responses_to_other id tr : (forall p, p ∈ tr -> p.1 <> id) -> responses_to id tr = [].
Proof.
  intros Htr. unfold responses_to. induction tr as [|p tr IH]; [done|].
  rewrite filter_cons_False by (apply Htr; by left). apply IH. intros q Hq. apply Htr. by right.
Qed.

Lemma responses_to_one id r : responses_to id [(id, r)] = r.
Proof. unfold responses_to. by rewrite filter_cons_True; simpl; rewrite ?app_nil_r. Qed.

Lemma pending_app id ts1 ts2 : pending id (ts1 ++ ts2) = pending id ts1 ++ pending id ts2.
Proof. unfold pending. by rewrite map_app, concat_app. Qed.

Lemma pending_other id ts : id ∉ task_conn <$> ts -> pending id ts = [].
Proof.
  induction ts as [|t ts IH]; [done|]. rewrite fmap_cons, not_elem_of_cons. intros [Hne Hts].
  unfold pending. simpl. unfold held at 1. rewrite decide_False by done. by apply IH.
Qed.

(** With one task per connection, the pending response is that of its task. *)
Lemma pending_task i id t ts :
  NoDup (task_conn <$> ts) -> ts !! i = Some t -> task_conn t = id -> pending id ts = held id t.
Proof.
  intros Hnd Hi <-. rewrite <- (take_drop_middle _ _ _ Hi) in Hnd |- *.
  rewrite fmap_app, fmap_cons in Hnd. apply NoDup_app in Hnd as (_ & Hd & Hnd).
  apply NoDup_cons in Hnd as [Hn _]. rewrite pending_app, pending_other.
  - change (t :: drop (Datatypes.S i) ts) with ([t] ++ drop (Datatypes.S i) ts).
    rewrite pending_app, (pending_other _ (drop _ _)) by done.
    unfold pending. simpl. by rewrite !app_nil_r.
  - intros Hin. apply (Hd _ Hin). by left.
Qed.

(** Changing or removing a task of another connection changes nothing. *)
Lemma pending_insert_ne id i t t' ts :
  ts !! i = Some t -> task_conn t <> id -> task_conn t' <> id ->
  pending id (<[i := t']> ts) = pending id ts.
Proof.
  intros Hi Ht Ht'. rewrite <- (take_drop_middle _ _ _ Hi) at 2.
  rewrite insert_take_drop by (by eapply lookup_lt_Some). rewrite !pending_app. f_equal.
  unfold pending. simpl. unfold held at 1 3. by rewrite !decide_False.
Qed.

Lemma pending_delete_ne id i t ts :
  ts !! i = Some t -> held id t = [] -> pending id (delete i ts) = pending id ts.
Proof.
  intros Hi Ht. rewrite <- (take_drop_middle _ _ _ Hi) at 2.
  rewrite delete_take_drop, !pending_app. f_equal. unfold pending. simpl. by rewrite Ht.
Qed.

(** ** Steps of the event loop *)

(** Steps that keep the tasks, the tables and what the sockets have taken. *)
Lemma delivered_same tr sv sv' :
  delivered tr sv -> server_inv sv' ->
  connections_ sv' = connections_ sv -> pool_tasks sv' = pool_tasks sv ->
  fd_table (kernel sv') = fd_table (kernel sv) ->
  (forall sock, is_Some (wires (kernel sv) !! sock) ->
     is_Some (wires (kernel sv') !! sock) /\ wire_of sock (kernel sv') = wire_of sock (kernel sv)) ->
  (forall id c, heap sv' !! id = Some c -> quiet id c sv) ->
  (forall id, is_Some (heap sv !! id) -> is_Some (heap sv' !! id)) ->
  delivered tr sv'.
Proof.
  intros [Hinv Hown Hem Hop Hso Hinj Hkn] Hinv' Hc Ht Hf Hw Hem' Hh. split; try done.
  - intros fd id sock. rewrite Hc, Hf, Ht. intros Hfd Hsock.
    destruct (Hw sock (Hso _ _ Hsock)) as [_ ->]. by eapply Hown.
  - intros id c Hid. unfold quiet. rewrite Hc. by apply Hem'.
  - unfold busy. rewrite Hc, Ht. exact Hop.
  - rewrite Hf. intros fd sock Hsock. by apply Hw, (Hso fd).
  - rewrite Hf. exact Hinj.
  - intros p Hp. auto.
Qed.

Lemma delivered_set_conn tr id c c' sv :
  delivered tr sv -> heap sv !! id = Some c -> server_inv (set_conn id c' sv) ->
  quiet id c' sv -> delivered tr (set_conn id c' sv).
Proof.
  intros Hd Hid Hinv Hw. apply (delivered_same tr sv); try done.
  - simpl. intros id' d [[<- <-]|[_ Hd']]%lookup_insert_Some; [done|]. by eapply (del_quiet tr sv).
  - simpl. intros id' Hs. apply lookup_insert_is_Some'. by right.
Qed.

Lemma delivered_update tr ctl fd sv :
  delivered tr sv -> ends (0 <= ctl) (delivered tr) (updateEpollEvents ctl fd sv).
Proof.
  intros Hd. apply (ends_impl _ _ _ _ (updateEpollEvents_inv ctl fd sv (del_inv _ _ Hd))).
  intros sv' (Hinv & _ & Hh & Ht & Hc & Hk).
  apply (delivered_same tr sv); try done; rewrite ?Hk, ?Hh; try done.
  intros id c. by apply (del_quiet tr sv).
Qed.

Lemma delivered_close tr fd sv :
  delivered tr sv -> (forall id, connections_ sv !! fd = Some id -> id ∉ busy sv) ->
  delivered tr (closeConnection fd sv).
Proof.
  intros [Hinv Hown Hem Hop Hso Hinj Hkn] Hnb. split; simpl; try done.
  - by apply closeConnection_inv.
  - intros fd' id sock Hfd Hsock. simpl in *. apply lookup_delete_Some in Hfd as [_ Hfd].
    apply lookup_delete_Some in Hsock as [_ Hsock]. by apply (Hown fd').
  - intros id c Hid. destruct (Hem id c Hid) as [Hw He]. split; [done|]. intros Herr fd'. simpl.
    intros [_ Hfd']%lookup_delete_Some. by apply (He Herr fd').
  - intros id Hb. destruct (Hop id Hb) as [fd' Hfd']. exists fd'. simpl.
    rewrite lookup_delete_ne; [done|]. intros ->. by apply (Hnb id).
  - intros fd' sock [_ Hsock]%lookup_delete_Some. by eapply Hso.
  - intros fd1 fd2 sock [_ H1]%lookup_delete_Some [_ H2]%lookup_delete_Some. by eapply Hinj.
Qed.

(** A connection of the table that is not in flight has no task. *)
Lemma not_busy id c sv :
  server_inv sv -> heap sv !! id = Some c -> in_flight_ c = false -> id ∉ busy sv.
Proof. intros [(_ & Hfl & _) _] Hid Hin Hb. apply (Hfl id c Hid) in Hb. congruence. Qed.

Lemma delivered_submit tr fd id c cmd sv :
  delivered tr sv -> connections_ sv !! fd = Some id -> heap sv !! id = Some c ->
  in_flight_ c = false ->
  delivered tr (set_tasks (pool_tasks sv ++ [mkTask id cmd TDispatch])
                  (set_conn id (set_in_flight true c) sv)).
Proof.
  intros Hd Hfd Hid Hin. pose proof Hd as [Hinv Hown Hem Hop Hso Hinj Hkn].
  split; try done.
  - by apply submit_inv.
  - intros fd' id' sock Hfd' Hsock. simpl. rewrite pending_app.
    unfold pending at 2. simpl. unfold held. simpl.
    replace (if decide (id = id') then [] else []) with (@nil ascii) by (by case_decide).
    simpl. rewrite app_nil_r. by eapply Hown.
  - simpl. intros id' d [[<- <-]|[_ Hd']]%lookup_insert_Some; [by apply (Hem id c)|by apply Hem].
  - unfold busy. simpl. rewrite fmap_app. intros id' [Hb|Hb]%elem_of_app; [by apply Hop|].
    apply list_elem_of_singleton in Hb as ->. by exists fd.
  - simpl. intros p Hp. apply lookup_insert_is_Some'. right. by apply Hkn.
Qed.

Lemma readAndParse_write_buffer r c : write_buffer_ (readAndParse r c).2 = write_buffer_ c.
Proof. by destruct r. Qed.

(** A connection that fails is closed before anyone can use it. *)
Lemma delivered_fail tr fd id c c' sv :
  delivered tr sv -> connections_ sv !! fd = Some id -> heap sv !! id = Some c ->
  in_flight_ c = false -> server_inv (set_conn id c' sv) -> write_buffer_ c' = [] ->
  delivered tr (closeConnection fd (set_conn id c' sv)).
Proof.
  intros Hd E Hid Hin Hinv' Hw. pose proof (del_inv _ _ Hd) as Hinv.
  assert (Hd1 : delivered tr (closeConnection fd sv)).
  { apply delivered_close; [done|]. intros id'. rewrite E. intros [= <-]. by eapply not_busy. }
  change (delivered tr (set_conn id c' (closeConnection fd sv))).
  eapply delivered_set_conn; [done|exact Hid|exact (closeConnection_inv fd _ Hinv')|].
  split; [done|]. intros _ fd' Hfd'. simpl in Hfd'. apply lookup_delete_Some in Hfd' as [Hne Hfd'].
  destruct Hinv as [_ (_ & _ & Hc & _)].
  destruct (Hc _ _ E) as (d1 & Hd1' & <-). destruct (Hc _ _ Hfd') as (d2 & Hd2' & <-). congruence.
Qed.

Lemma delivered_read tr now now2 r ctl fd sv :
  delivered tr sv -> ends (0 <= ctl) (delivered tr) (handleRead now now2 r ctl fd sv).
Proof.
  intros Hd. pose proof (del_inv _ _ Hd) as Hinv. pose proof Hinv as [_ (_ & _ & Hc & Hr)].
  unfold handleRead. destruct (connections_ sv !! fd) as [id|] eqn:E; [|done].
  destruct (Hc _ _ E) as (c & Hid & _). rewrite Hid. simpl.
  destruct (in_flight_ c) eqn:Hin; [done|].
  destruct (readAndParse_frame r c (Hr _ _ Hid)) as (Hfd & Hin' & Hb).
  pose proof (readAndParse_write_buffer r c) as Hw.
  rewrite (proj1 (del_quiet _ _ Hd _ _ Hid)) in Hw.
  destruct (readAndParse r c) as [commands c']. simpl in *.
  assert (Hinv' : server_inv (set_conn id c' sv)) by (by eapply set_conn_inv).
  destruct (has_error_ c') eqn:Herr.
  { by eapply delivered_fail. }
  assert (Hd1 : delivered tr (set_conn id c' sv)).
  { eapply delivered_set_conn; try done. split; [done|congruence]. }
  assert (Hid' : heap (set_conn id c' sv) !! id = Some c') by (simpl; apply lookup_insert_eq).
  rewrite Hin in Hin'. destruct commands as [|cmd rest].
  - by apply delivered_update.
  - rewrite (handle_commands_first _ _ _ _ _ _ _ Hid' Hin'). cbn [mbind outcome_bind].
    apply delivered_update. by eapply delivered_submit.
Qed.

(** With nothing queued a flush does nothing. *)
Lemma flush_to_fd_empty r c k :
  write_buffer_ c = [] ->
  (flush_to_fd r c k).1 = c /\ fd_table (flush_to_fd r c k).2 = fd_table k /\
  forall sock, is_Some (wires k !! sock) ->
    is_Some (wires (flush_to_fd r c k).2 !! sock) /\
    wire_of sock (flush_to_fd r c k).2 = wire_of sock k.
Proof.
  intros Hw. unfold flush_to_fd, flushWriteBuffer. rewrite Hw.
  destruct (fd_table k !! fd_ c) as [s0|]; simpl; [|done]. split; [done|]. split; [done|].
  intros sock Hs. split; [apply lookup_insert_is_Some'; by right|]. unfold wire_of. simpl.
  destruct (decide (s0 = sock)) as [->|Hne].
  - by rewrite lookup_insert_eq.
  - by rewrite lookup_insert_ne.
Qed.

Lemma delivered_write tr r ctl fd sv :
  delivered tr sv -> ends (0 <= ctl) (delivered tr) (handleWrite r ctl fd sv).
Proof.
  intros Hd. pose proof (del_inv _ _ Hd) as Hinv. pose proof Hinv as [_ (_ & _ & Hc & Hr)].
  unfold handleWrite. destruct (connections_ sv !! fd) as [id|] eqn:E; [|done].
  destruct (Hc _ _ E) as (c & Hid & _). rewrite Hid. simpl.
  destruct (del_quiet _ _ Hd _ _ Hid) as [Hw He].
  destruct (flush_to_fd_empty r c (kernel sv) Hw) as (Hc' & Hf & Hws).
  destruct (flush_to_fd r c (kernel sv)) as [c' k]. simpl in *. subst c'.
  assert (Herr : has_error_ c = false).
  { destruct (has_error_ c); [|done]. by destruct (He eq_refl fd). }
  rewrite Herr. apply delivered_update. apply (delivered_same tr sv); try done.
  - apply set_kernel_inv; [done|]. eapply set_conn_inv; try done. by eapply Hr.
  - simpl. intros id' d [[<- <-]|[_ Hd']]%lookup_insert_Some; by apply (del_quiet tr sv).
  - simpl. intros id' Hs. apply lookup_insert_is_Some'. by right.
Qed.

Lemma delivered_event tr now now2 ev fd sv :
  delivered tr sv -> (ev_err ev = true -> forall id, connections_ sv !! fd = Some id -> id ∉ busy sv) ->
  ends (event_granted ev) (delivered tr) (handle_event now now2 ev fd sv).
Proof.
  intros Hd Hor. unfold handle_event, event_granted. destruct (ev_err ev).
  { apply delivered_close; auto. }
  assert (Hread : ends (0 <= read_ctl ev) (delivered tr)
    (if ev_in ev then handleRead now now2 (on_recv ev) (read_ctl ev) fd sv else Ret (Some sv))).
  { destruct (ev_in ev); [by apply delivered_read|done]. }
  destruct (if ev_in ev then _ else _) as [[sv1|]|]; simpl in *; [|tauto|done].
  destruct (connections_ sv1 !! fd); [|done]. destruct (ev_out ev); [|done].
  eapply ends_mono; [|done|by apply delivered_write]. by intros [_ ?].
Qed.

Lemma delivered_accept tr sys fd sock id sv sv' :
  delivered tr sv -> fd_table (kernel sv) !! fd = None -> wires (kernel sv) !! sock = None ->
  heap sv !! id = None -> acceptConnection sys fd sock id sv = Some sv' -> delivered tr sv'.
Proof.
  intros [Hinv Hown Hem Hop Hso Hinj Hkn] Hfd Hsock Hid Hacc.
  pose proof (acceptConnection_inv sys fd sock id sv Hfd Hid Hinv) as Hinv'. rewrite Hacc in Hinv'.
  unfold acceptConnection, addFd in Hacc. destruct (setNonBlocking _ _); [done|]. simpl in Hacc.
  destruct (interest sv !! fd); [done|]. destruct (_ <? 0); [done|]. injection Hacc as <-.
  destruct Hinv as [(_ & _ & Hbusy) (_ & Hdk & Hc & _)].
  assert (Hnc : forall fd' id', connections_ sv !! fd' = Some id' -> id' <> id /\ fd' <> fd).
  { intros fd' id' Hfd'. destruct (Hc _ _ Hfd') as (d & Hd & _). split; [congruence|].
    intros ->. apply elem_of_dom_2 in Hfd'. rewrite <- Hdk in Hfd'. by apply not_elem_of_dom in Hfd'. }
  assert (Hns : forall fd' s', fd_table (kernel sv) !! fd' = Some s' -> s' <> sock).
  { intros fd' s' Hs' ->. apply Hso in Hs' as [? ?]. congruence. }
  split; simpl; try done.
  - intros fd' id' s' Hfd'. simpl in *. apply lookup_insert_Some in Hfd' as [[<- <-]|[Hne Hfd']].
    + rewrite lookup_insert_eq. intros [= <-]. unfold wire_of. simpl. rewrite lookup_insert_eq.
      simpl. rewrite pending_other, responses_to_other; [done| |].
      * intros p Hp Heq. apply Hkn in Hp as [? ?]. congruence.
      * intros Hb. apply Hbusy in Hb as [? ?]. congruence.
    + rewrite lookup_insert_ne by done. intros Hs'. unfold wire_of. simpl.
      rewrite lookup_insert_ne by (apply not_eq_sym; by eapply Hns). by apply (Hown fd').
  - intros id' c [[<- <-]|[Hne Hd]]%lookup_insert_Some; [done|].
    destruct (Hem id' c Hd) as [Hw He]. split; [done|]. intros Herr fd'. simpl.
    intros [[_ <-]|[_ Hfd']]%lookup_insert_Some; [done|]. by apply (He Herr fd').
  - intros id' Hb. destruct (Hop id' Hb) as [fd' Hfd']. exists fd'.
    rewrite lookup_insert_ne; [done|]. apply not_eq_sym. by apply (Hnc fd' id').
  - intros fd' s' [[<- <-]|[Hne Hs']]%lookup_insert_Some; apply lookup_insert_is_Some'; [by left|].
    right. by eapply Hso.
  - intros fd1 fd2 s' [[<- <-]|[Hne1 H1]]%lookup_insert_Some [[<- ?]|[Hne2 H2]]%lookup_insert_Some;
      subst; try done; try (exfalso; by eapply Hns). by eapply Hinj.
  - intros p Hp. apply lookup_insert_is_Some'. right. by apply Hkn.
Qed.

(** ** Steps of a task *)

Lemma held_self id cmd r : held id (mkTask id cmd (TSend r)) = r.
Proof. unfold held. simpl. by rewrite decide_True. Qed.

Lemma held_not_sending id t : (forall r, task_state_of t <> TSend r) -> held id t = [].
Proof. unfold held. intros Ht. case_decide; [|done]. destruct (task_state_of t); try done. by destruct (Ht response). Qed.

(** The socket of a connection that has a task. *)
Lemma task_socket tr id c sv :
  delivered tr sv -> id ∈ busy sv -> heap sv !! id = Some c ->
  exists sock, connections_ sv !! fd_ c = Some id /\ fd_table (kernel sv) !! fd_ c = Some sock.
Proof.
  intros Hd Hb Hid. destruct (del_open _ _ Hd id Hb) as [fd Hfd].
  destruct (del_inv _ _ Hd) as [_ (_ & Hk & Hc & _)].
  destruct (Hc _ _ Hfd) as (d & Hd' & <-). rewrite Hid in Hd'. injection Hd' as <-.
  assert (Hdom : fd_ c ∈ dom (fd_table (kernel sv))) by (rewrite Hk; by apply elem_of_dom_2 in Hfd).
  apply elem_of_dom in Hdom as [sock Hs]. eauto.
Qed.

Section task.
Context (tr : list (nat * bytes)) (sv : Server S) (Hd : delivered tr sv).
Context (i id : nat) (cmd : Command) (c : Connection) (Hid : heap sv !! id = Some c).

Lemma busy_of st : pool_tasks sv !! i = Some (mkTask id cmd st) -> id ∈ busy sv.
Proof.
  intros Hi. unfold busy. change id with (task_conn (mkTask id cmd st)).
  apply list_elem_of_fmap_2. by eapply list_elem_of_lookup_2.
Qed.

(** Only the pending response of the connection changes with its task. *)
Lemma pending_step st st' id' :
  pool_tasks sv !! i = Some (mkTask id cmd st) ->
  pending id' (<[i := mkTask id cmd st']> (pool_tasks sv)) =
  if decide (id' = id) then held id (mkTask id cmd st') else pending id' (pool_tasks sv).
Proof.
  intros Hi. case_decide as Heq.
  - subst id'. apply (pending_task i); [| |done].
    + rewrite (busy_update i (mkTask id cmd st) _ sv) by done.
      destruct (del_inv _ _ Hd) as [(Hnd & _) _]. exact Hnd.
    + apply list_lookup_insert_eq. by eapply lookup_lt_Some.
  - by eapply pending_insert_ne; simpl.
Qed.

Lemma delivered_dispatch r w :
  pool_tasks sv !! i = Some (mkTask id cmd TDispatch) ->
  delivered (tr ++ [(id, r)])
    (set_tasks (<[i := mkTask id cmd (TSend r)]> (pool_tasks sv)) (set_world w sv)).
Proof.
  intros Hi. destruct Hd as [Hinv Hown Hem Hop Hso Hinj Hkn].
  assert (Hb : forall st, task_conn <$> <[i := mkTask id cmd st]> (pool_tasks sv) = busy sv)
    by (intros st; by apply (busy_update i (mkTask id cmd TDispatch))).
  assert (Hp : pending id (pool_tasks sv) = []).
  { destruct Hinv as [(Hnd & _) _]. rewrite (pending_task i id _ _ Hnd Hi) by done.
    by apply held_not_sending. }
  split; try done.
  - apply set_tasks_inv; [apply Hb|by apply set_world_inv].
  - intros fd id' sock Hfd Hs. simpl in *. rewrite (pending_step TDispatch) by done.
    rewrite responses_to_app, <- (Hown fd id' sock) by done. case_decide as Heq.
    + subst id'. by rewrite held_self, responses_to_one, Hp, app_nil_r.
    + rewrite (responses_to_other _ [(id, r)]), app_nil_r; [done|].
      intros p ->%list_elem_of_singleton. simpl. congruence.
  - unfold busy. simpl. by rewrite Hb.
  - intros p [Hp'|Hp']%elem_of_app; [by apply Hkn|].
    apply list_elem_of_singleton in Hp' as ->. by exists c.
Qed.

(** The socket takes a part of the response and the task keeps the rest. *)
Lemma delivered_send_part sent st' sock :
  pool_tasks sv !! i = Some (mkTask id cmd (TSend (sent ++ held id (mkTask id cmd st')))) ->
  fd_table (kernel sv) !! fd_ c = Some sock -> connections_ sv !! fd_ c = Some id ->
  delivered tr
    (set_tasks (<[i := mkTask id cmd st']> (pool_tasks sv))
      (set_kernel (set_wire sock (wire_of sock (kernel sv) ++ sent) (kernel sv)) (set_conn id c sv))).
Proof.
  intros Hi Hs Hc. pose proof Hd as [Hinv Hown Hem Hop Hso Hinj Hkn].
  assert (Hb : task_conn <$> <[i := mkTask id cmd st']> (pool_tasks sv) = busy sv)
    by (by apply (busy_update i (mkTask id cmd (TSend (sent ++ held id (mkTask id cmd st')))))).
  assert (Hp : pending id (pool_tasks sv) = sent ++ held id (mkTask id cmd st')).
  { destruct Hinv as [(Hnd & _) _].
    by rewrite (pending_task i id _ _ Hnd Hi), held_self by done. }
  split; try done.
  - apply set_tasks_inv; [apply Hb|]. apply set_kernel_inv; [done|].
    eapply set_conn_inv; try done. destruct Hinv as [_ (_ & _ & _ & Hr)]. by eapply Hr.
  - intros fd id' s' Hfd Hs'. simpl in *. rewrite (pending_step _ st' id' Hi).
    rewrite <- (Hown fd id' s') by done. unfold wire_of at 1. simpl. case_decide as Heq.
    + subst id'. destruct Hinv as [_ (_ & _ & Ht & _)]. destruct (Ht _ _ Hfd) as (d & Hd' & <-).
      rewrite Hid in Hd'. injection Hd' as <-. rewrite Hs in Hs'. injection Hs' as <-.
      rewrite lookup_insert_eq, Hp. simpl. by rewrite <- app_assoc.
    + rewrite lookup_insert_ne; [done|]. intros <-. apply Heq.
      rewrite (Hinj _ _ _ Hs' Hs), Hc in Hfd. by injection Hfd.
  - simpl. intros id' d [[<- <-]|[_ Hd']]%lookup_insert_Some; by apply Hem.
  - unfold busy. simpl. by rewrite Hb.
  - simpl. intros fd s' Hs'. apply lookup_insert_is_Some'. right. by eapply Hso.
  - simpl. intros p Hp'. apply lookup_insert_is_Some'. right. by apply Hkn.
Qed.

Lemma delivered_send r sock :
  pool_tasks sv !! i = Some (mkTask id cmd (TSend r)) ->
  fd_table (kernel sv) !! fd_ c = Some sock -> connections_ sv !! fd_ c = Some id ->
  delivered tr
    (set_tasks (<[i := mkTask id cmd TClear]> (pool_tasks sv))
      (set_kernel (set_wire sock (wire_of sock (kernel sv) ++ r) (kernel sv)) (set_conn id c sv))).
Proof. intros Hi. apply delivered_send_part. by rewrite held_not_sending, app_nil_r. Qed.

Lemma delivered_clear :
  pool_tasks sv !! i = Some (mkTask id cmd TClear) ->
  delivered tr (set_tasks (delete i (pool_tasks sv)) (set_conn id (clearInFlight c) sv)).
Proof.
  intros Hi. pose proof Hd as [Hinv Hown Hem Hop Hso Hinj Hkn]. split; try done.
  - by apply (finish_inv i (mkTask id cmd TClear)).
  - intros fd id' s' Hfd Hs'. simpl in *.
    rewrite (pending_delete_ne id' i (mkTask id cmd TClear)) by (done || by apply held_not_sending).
    by apply (Hown fd).
  - simpl. intros id' d [[<- <-]|[_ Hd']]%lookup_insert_Some; [by apply (Hem id c)|by apply Hem].
  - unfold busy. simpl. intros id' Hb. apply Hop. unfold busy.
    rewrite <- (take_drop_middle _ _ _ Hi), fmap_app, fmap_cons, elem_of_app, elem_of_cons.
    rewrite delete_take_drop, fmap_app, elem_of_app in Hb. tauto.
  - simpl. intros p Hp'. apply lookup_insert_is_Some'. right. by apply Hkn.
Qed.
End task.

Lemma delivered_task tr i now now2 os sv sv' :
  delivered tr sv -> orderly (SvTask i now now2 os) sv ->
  task_step i now now2 os sv = Some (Ret sv') ->
  delivered (tr ++ answered (SvTask i now now2 os) sv) sv'.
Proof.
  intros Hd Hor Hs. unfold task_step in Hs. simpl. apply bind_Some in Hs as (t & Hi & Hs).
  rewrite Hi. apply bind_Some in Hs as (c & Hid & Hs). destruct t as [id cmd st]. simpl in *.
  destruct st as [|r|].
  - injection Hs as Hs. apply bind_Ret_inv in Hs as ([r w] & Hdis & [= <-]). rewrite Hdis.
    by apply (delivered_dispatch tr sv Hd i id cmd c).
  - rewrite app_nil_r. pose proof (busy_of sv i id cmd _ Hi) as Hb.
    destruct (task_socket tr id c sv Hd Hb Hid) as (sock & Hc & Hsock).
    unfold send_to_fd in Hs. rewrite Hsock in Hs.
    destruct (Hor id cmd r c Hi Hid (wire_of sock (kernel sv))) as [wire' Hsend].
    rewrite Hsend in Hs. simpl in Hs. injection Hs as <-.
    apply sendResponse_outcome in Hsend as (sent & rest & -> & -> & [(_ & -> & _)|[([=] & _)|([=] & _)]]).
    rewrite app_nil_r in *. by apply delivered_send.
  - rewrite app_nil_r. injection Hs as <-. by apply (delivered_clear tr sv Hd i id cmd c).
Qed.

(** ** Every orderly run *)

Lemma delivered_exec tr e sv sv' :
  delivered tr sv -> orderly e sv -> server_exec e sv = Some (Ret (Some sv')) ->
  delivered (tr ++ answered e sv) sv'.
Proof.
  intros Hd Hor He. destruct e as [sys fd sock id|now now2 ev fd|i now now2 os]; simpl in He.
  - case_decide as Hdec; [|done]. destruct Hdec as (Hfd & Hsock & Hid). injection He as He.
    simpl. rewrite app_nil_r. by eapply delivered_accept.
  - destruct (interest sv !! fd) as [out|]; [|done]. destruct (implb _ _); [|done].
    injection He as He. simpl. rewrite app_nil_r. eapply ends_return; [|exact He].
    by apply delivered_event.
  - destruct (task_step i now now2 os sv) as [[sv1|]|] eqn:E; try done. injection He as <-.
    by apply delivered_task.
Qed.

Lemma delivered_run tr es sv sv' :
  delivered tr sv -> orderly_run es sv -> server_run es sv = Some (Ret (Some sv')) ->
  delivered (tr ++ answers es sv) sv'.
Proof.
  revert tr sv. induction es as [|e es IH]; intros tr sv Hd Hor Hr; simpl in *.
  - injection Hr as <-. by rewrite app_nil_r.
  - destruct Hor as [Ho Hor]. apply bind_Some in Hr as ([[sv1|]|] & He & Hr); try done.
    rewrite He in Hor |- *. rewrite app_assoc. apply IH; [by apply delivered_exec|done|done].
Qed.

Lemma delivered_idle w : delivered [] (idle_server w).
Proof.
  split; try done; simpl.
  - apply idle_server_inv.
  - intros id Hb. by apply elem_of_nil in Hb.
  - intros p Hp. by apply elem_of_nil in Hp.
Qed.

(** In every orderly run, with any number of clients and in any interleaving of the event
    loop and the workers: what a connected client has received, followed by the response
    a worker still holds for it, is the responses to its own commands, whole and in
    order. *)
Lemma clients_get_own_responses w es sv fd id sock :
  orderly_run es (idle_server w) -> server_run es (idle_server w) = Some (Ret (Some sv)) ->
  connections_ sv !! fd = Some id -> fd_table (kernel sv) !! fd = Some sock ->
  wire_of sock (kernel sv) ++ pending id (pool_tasks sv) =
  responses_to id (answers es (idle_server w)).
Proof.
  intros Hor Hr Hfd Hs.
  by apply (del_own _ _ (delivered_run [] es _ sv (delivered_idle w) Hor Hr) fd).
Qed.
End session.
