(* ===== verification/FineServer.v ===== *)
(** * The server with its workers taken apart

    In [Server] a worker runs a whole [dispatch] and a whole [sendResponse] as one step
    each.  Here a step of a worker is what no other thread can interrupt: the storage call,
    the call of the log writer, each single [send], the store to the in-flight flag.  The
    runs of [Server] are among the runs here, and clients still receive the responses to
    their own commands however the calls of the workers interleave. *)

From S2P Require Import Prelude Cpp Parser Response StorageInterface AofWriter AofReplay.
From S2P Require Import Dispatcher LogOrder Connection Server ServerFacts ServerSession.
Local Open Scope Z_scope.

(** ** State and steps *)

(** The server, and the call of the log writer a worker has yet to make, by connection. *)
Record FineServer (S : Type) : Type := mkFine {
  base : Server S;
  logs : gmap nat log_call
}.
Arguments mkFine {S} base logs.
Arguments base {S} f.
Arguments logs {S} f.

(** One iteration of the loop of [sendResponse]: [rest] is [response.substr(total_sent)]. *)
Definition send_call (o : send_result) (rest : bytes) (c : Connection) (wire : bytes)
    : Connection * bytes * task_state :=
  match rest, o with
  | [], _ => (c, wire, TClear)
  | _, Sent n => (c, wire ++ take n rest, TSend (drop n rest))
  | _, SendAgain => (queueResponse rest c, wire, TClear)
  | _, SendError => (set_error c, wire, TClear)
  end.

(** On the socket the descriptor is bound to; a closed descriptor makes [send] fail. *)
Definition send_once (o : send_result) (rest : bytes) (c : Connection) (k : Kernel)
    : Connection * Kernel * task_state :=
  match fd_table k !! fd_ c with
  | Some sock =>
      let '(c', wire', st) := send_call o rest c (wire_of sock k) in (c', set_wire sock wire' k, st)
  | None => let '(c', _, st) := send_call SendError rest c [] in (c', k, st)
  end.

(** The next call of task [i]: its storage call, its log call, one [send], the end. *)
Inductive work_event : Type :=
| WkStore (i : nat) (now now2 : Z)
| WkLog (i : nat)
| WkSend (i : nat) (o : send_result)
| WkClear (i : nat).

Inductive fine_event : Type :=
| FLoop (e : server_event)
| FWork (e : work_event).

Section fine.
Context {S : Type} `{StorageOps S}.
Implicit Types (sv : Server S) (fs : FineServer S) (w : World S).

Definition set_task (i : nat) (t : Task) sv : Server S := set_tasks (<[i := t]> (pool_tasks sv)) sv.

Definition work_exec (e : work_event) fs : option (outcome (FineServer S)) :=
  let sv := base fs in
  match e with
  | WkStore i now now2 =>
      t ← pool_tasks sv !! i;
      match logs fs !! task_conn t, task_state_of t with
      | None, TDispatch =>
          Some ('(response, w, l) ← dispatch_store now now2 (task_cmd t) (world sv);
                Ret (mkFine (set_task i (mkTask (task_conn t) (task_cmd t) (TSend response)) (set_world w sv))
                       (<[task_conn t := l]> (logs fs))))
      | _, _ => None
      end
  | WkLog i =>
      t ← pool_tasks sv !! i;
      l ← logs fs !! task_conn t;
      Some (Ret (mkFine (set_world (dispatch_log_call l (world sv)) sv) (delete (task_conn t) (logs fs))))
  | WkSend i o =>
      t ← pool_tasks sv !! i;
      match logs fs !! task_conn t, task_state_of t with
      | None, TSend rest =>
          c ← heap sv !! task_conn t;
          let '(c', k, st) := send_once o rest c (kernel sv) in
          Some (Ret (mkFine (set_task i (mkTask (task_conn t) (task_cmd t) st)
                               (set_kernel k (set_conn (task_conn t) c' sv))) (logs fs)))
      | _, _ => None
      end
  | WkClear i =>
      t ← pool_tasks sv !! i;
      match task_state_of t with
      | TClear =>
          c ← heap sv !! task_conn t;
          Some (Ret (mkFine (set_tasks (delete i (pool_tasks sv)) (set_conn (task_conn t) (clearInFlight c) sv))
                       (logs fs)))
      | _ => None
      end
  end.

(** The event loop works on the server and leaves the log calls of the workers alone. *)
Definition on_base (f : Server S -> option (outcome (option (Server S)))) fs
    : option (outcome (option (FineServer S))) :=
  o ← f (base fs);
  Some (match o with
        | Ret (Some sv') => Ret (Some (mkFine sv' (logs fs)))
        | Ret None => Ret None
        | UB => UB
        end).

Definition fine_exec (e : fine_event) fs : option (outcome (option (FineServer S))) :=
  match e with
  | FLoop (SvTask _ _ _ _) => None
  | FLoop e => on_base (server_exec e) fs
  | FWork e =>
      o ← work_exec e fs;
      Some (fs' ← o; Ret (Some fs'))
  end.

Fixpoint fine_run (es : list fine_event) fs : option (outcome (option (FineServer S))) :=
  match es with
  | [] => Some (Ret (Some fs))
  | e :: es' =>
      o ← fine_exec e fs;
      match o with
      | Ret (Some fs') => fine_run es' fs'
      | other => Some other
      end
  end.

Lemma fine_run_app es1 es2 fs fs1 :
  fine_run es1 fs = Some (Ret (Some fs1)) -> fine_run (es1 ++ es2) fs = fine_run es2 fs1.
Proof.
  revert fs. induction es1 as [|e es1 IH]; intros fs; simpl; [by intros [= <-]|].
  destruct (fine_exec e fs) as [[[fs2|]|]|]; simpl; try done. apply IH.
Qed.

(** ** The tables stay consistent *)

Lemma send_once_frame o rest c k c' k' st :
  send_once o rest c k = (c', k', st) ->
  fd_ c' = fd_ c /\ in_flight_ c' = in_flight_ c /\ read_buffer_ c' = read_buffer_ c /\
  fd_table k' = fd_table k.
Proof.
  unfold send_once, send_call. destruct (fd_table k !! fd_ c); destruct rest, o;
    intros Hs; simplify_eq/=; done.
Qed.

Lemma work_exec_inv e fs fs' :
  server_inv (base fs) -> work_exec e fs = Some (Ret fs') -> server_inv (base fs').
Proof.
  intros Hinv He. destruct e as [i now now2|i|i o|i]; simpl in He; apply bind_Some in He as (t & Hi & He).
  - destruct (logs fs !! task_conn t), (task_state_of t); try done. injection He as He.
    apply bind_Ret_inv in He as ([[r w] l] & _ & [= <-]).
    apply set_tasks_inv; [by apply (busy_update i t)|by apply set_world_inv].
  - apply bind_Some in He as (l & _ & [= <-]). by apply set_world_inv.
  - destruct (logs fs !! task_conn t), (task_state_of t) as [|rest|]; try done.
    apply bind_Some in He as (c & Hc & He). destruct (send_once o rest c (kernel (base fs))) as [[c' k] st] eqn:E.
    injection He as <-. apply send_once_frame in E as (Hfd & Hin & Hb & Hk).
    apply set_tasks_inv; [by apply (busy_update i t)|]. apply set_kernel_inv; [done|].
    eapply set_conn_inv; try done. rewrite Hb. destruct Hinv as [_ (_ & _ & _ & Hr)]. by eapply Hr.
  - destruct (task_state_of t); try done. apply bind_Some in He as (c & Hc & [= <-]). by apply finish_inv.
Qed.

(** ** Log calls can be made *)

(** A log call on its way belongs to a task that has not sent its response. *)
Definition logs_owned fs : Prop :=
  forall id, is_Some (logs fs !! id) ->
    exists t r, t ∈ pool_tasks (base fs) /\ task_conn t = id /\ task_state_of t = TSend r.

Lemma logs_owned_more sv' fs :
  (exists new, pool_tasks sv' = pool_tasks (base fs) ++ new) -> logs_owned fs ->
  logs_owned (mkFine sv' (logs fs)).
Proof.
  intros [new Hn] Hl id Hid. destruct (Hl id Hid) as (t & r & Hin & Hc & Hst). exists t, r.
  split; [|done]. simpl. rewrite Hn. apply elem_of_app. by left.
Qed.

(** Replacing a task without a log call, or the task of the only new one. *)
Lemma owned_insert i t t' (ts : list Task) u :
  ts !! i = Some t -> task_conn u <> task_conn t -> u ∈ ts -> u ∈ <[i := t']> ts.
Proof.
  intros Hi Hne [j Hj]%list_elem_of_lookup. apply list_elem_of_lookup. exists j.
  rewrite list_lookup_insert_ne; [done|]. intros ->. congruence.
Qed.

Lemma work_exec_owned e fs fs' :
  logs_owned fs -> work_exec e fs = Some (Ret fs') -> logs_owned fs'.
Proof.
  intros Hl He. destruct e as [i now now2|i|i o|i]; simpl in He; apply bind_Some in He as (t & Hi & He).
  - destruct (logs fs !! task_conn t) eqn:Hlt, (task_state_of t) eqn:Hst; try done. injection He as He.
    apply bind_Ret_inv in He as ([[r w] l] & _ & [= <-]). intros id Hid. simpl in *.
    apply lookup_insert_is_Some in Hid as [<-|[Hne Hid]].
    + exists (mkTask (task_conn t) (task_cmd t) (TSend r)), r. split; [|done].
      apply list_elem_of_lookup. exists i. apply list_lookup_insert_eq. by eapply lookup_lt_Some.
    + destruct (Hl id Hid) as (u & r' & Hin & Hc & Hu). exists u, r'. split; [|done].
      eapply owned_insert; [done| |done]. congruence.
  - apply bind_Some in He as (l & _ & [= <-]). intros id [l' Hl']. simpl in *.
    apply lookup_delete_Some in Hl' as [_ Hl']. by apply Hl.
  - destruct (logs fs !! task_conn t) eqn:Hlt, (task_state_of t) as [|rest|]; try done.
    apply bind_Some in He as (c & Hc & He). destruct (send_once o rest c (kernel (base fs))) as [[c' k] st].
    injection He as <-. intros id Hid. simpl in *. destruct (Hl id Hid) as (u & r' & Hin & Hcu & Hu).
    exists u, r'. split; [|done]. eapply owned_insert; [done| |done]. intros Heq. rewrite <- Hcu, Heq, Hlt in Hid.
    by destruct Hid.
  - destruct (task_state_of t) eqn:Hst; try done. apply bind_Some in He as (c & Hc & [= <-]).
    intros id Hid. simpl in *. destruct (Hl id Hid) as (u & r' & Hin & Hcu & Hu). exists u, r'. split; [|done].
    rewrite <- (take_drop_middle _ _ _ Hi), elem_of_app, elem_of_cons in Hin.
    rewrite delete_take_drop, elem_of_app. destruct Hin as [?|[->|?]]; [by left|congruence|by right].
Qed.

(** Then every log call on its way can be made, with nothing else in between. *)
Lemma logs_complete fs :
  logs_owned fs ->
  exists es fs', fine_run (FWork <$> es) fs = Some (Ret (Some fs')) /\ logs fs' = ∅ /\
    pool_tasks (base fs') = pool_tasks (base fs) /\ Forall (fun e => exists i, e = WkLog i) es.
Proof.
  remember (size (logs fs)) as n eqn:Hn. revert fs Hn. induction n as [|n IH]; intros fs Hn Hl.
  { exists [], fs. split; [done|]. split; [by apply map_size_empty_iff|done]. }
  destruct (map_choose (logs fs)) as (id & l & Hid); [intros He; rewrite He, map_size_empty in Hn; lia|].
  destruct (Hl id (mk_is_Some _ _ Hid)) as (t & r & Hin & Hc & Hst).
  apply list_elem_of_lookup in Hin as [i Hi].
  set (fs1 := mkFine (set_world (dispatch_log_call l (world (base fs))) (base fs)) (delete id (logs fs))).
  assert (Hx : work_exec (WkLog i) fs = Some (Ret fs1)) by (simpl; rewrite Hi; simpl; rewrite Hc, Hid; done).
  destruct (IH fs1) as (es & fs' & Hrun & Hnone & Htasks & Hes).
  - simpl. rewrite map_size_delete_Some by (by eexists). lia.
  - by eapply work_exec_owned.
  - exists (WkLog i :: es), fs'. split; [|split; [done|split; [exact Htasks|by constructor; [exists i|]]]].
    rewrite fmap_cons. cbn [fine_run fine_exec]. rewrite Hx. exact Hrun.
Qed.

(** ** The runs of [Server] are runs *)

Lemma one_send i t r c o c' k st sv :
  pool_tasks sv !! i = Some t -> task_state_of t = TSend r -> heap sv !! task_conn t = Some c ->
  send_once o r c (kernel sv) = (c', k, st) ->
  fine_exec (FWork (WkSend i o)) (mkFine sv ∅) =
    Some (Ret (Some (mkFine (set_task i (mkTask (task_conn t) (task_cmd t) st)
      (set_kernel k (set_conn (task_conn t) c' sv))) ∅))).
Proof. intros Hi Hst Hc Hs. simpl. rewrite Hi. simpl. rewrite lookup_empty, Hst, Hc. simpl. by rewrite Hs. Qed.

(** Two updates of a task, its connection and its socket are one. *)
Lemma send_merge i t1 t2 id c1 c2 sock (b1 b2 : bytes) sv :
  set_task i t2 (set_kernel (set_wire sock b2 (set_wire sock b1 (kernel sv)))
    (set_conn id c2 (set_task i t1 (set_kernel (set_wire sock b1 (kernel sv)) (set_conn id c1 sv))))) =
  set_task i t2 (set_kernel (set_wire sock b2 (kernel sv)) (set_conn id c2 sv)).
Proof.
  unfold set_task, set_tasks, set_kernel, set_conn, set_wire. simpl.
  by rewrite list_insert_insert_eq, !insert_insert_eq.
Qed.

(** A [sendResponse] is a sequence of single calls. *)
Lemma send_calls i t os r c c' wire' b sv sock :
  pool_tasks sv !! i = Some t -> task_state_of t = TSend r -> heap sv !! task_conn t = Some c ->
  fd_table (kernel sv) !! fd_ c = Some sock ->
  sendResponse os r c (wire_of sock (kernel sv)) = Some (b, c', wire') ->
  exists es, fine_run es (mkFine sv ∅) =
    Some (Ret (Some (mkFine (set_task i (mkTask (task_conn t) (task_cmd t) TClear)
      (set_kernel (set_wire sock wire' (kernel sv)) (set_conn (task_conn t) c' sv))) ∅))).
Proof.
  assert (Hlast : forall o r sv t c' wire', pool_tasks sv !! i = Some t -> task_state_of t = TSend r ->
    heap sv !! task_conn t = Some c -> fd_table (kernel sv) !! fd_ c = Some sock ->
    send_call o r c (wire_of sock (kernel sv)) = (c', wire', TClear) ->
    exists es, fine_run es (mkFine sv ∅) =
      Some (Ret (Some (mkFine (set_task i (mkTask (task_conn t) (task_cmd t) TClear)
        (set_kernel (set_wire sock wire' (kernel sv)) (set_conn (task_conn t) c' sv))) ∅)))).
  { intros o r0 sv0 t0 c0 wire0 Hi Hst Hc Hs Hcall. exists [FWork (WkSend i o)]. cbn [fine_run].
    by erewrite one_send; [|done|done|done|unfold send_once; by rewrite Hs, Hcall]. }
  revert r sv t. induction os as [|o os IH]; intros r sv t Hi Hst Hc Hs Hsend.
  { destruct r; [|done]. injection Hsend as _ <- <-. by eapply (Hlast SendError). }
  destruct r as [|d r]; [injection Hsend as _ <- <-; by eapply (Hlast SendError)|].
  destruct o as [n| |]; [|injection Hsend as _ <- <-; by eapply (Hlast SendAgain)
    |injection Hsend as _ <- <-; by eapply (Hlast SendError)].
  set (t1 := mkTask (task_conn t) (task_cmd t) (TSend (drop n (d :: r)))).
  set (b1 := wire_of sock (kernel sv) ++ take n (d :: r)).
  destruct (IH (drop n (d :: r)) (set_task i t1 (set_kernel (set_wire sock b1 (kernel sv))
    (set_conn (task_conn t) c sv))) t1) as [es Hes]; try done.
  - apply list_lookup_insert_eq. by eapply lookup_lt_Some.
  - apply lookup_insert_eq.
  - unfold wire_of. simpl. by rewrite lookup_insert_eq.
  - exists (FWork (WkSend i (Sent n)) :: es). cbn [fine_run].
    erewrite one_send; [|done|done|done|unfold send_once; rewrite Hs; reflexivity].
    cbn [mbind option_bind]. fold t1 b1. rewrite Hes. do 4 f_equal.
    apply (send_merge i t1 _ (task_conn t) c c' sock b1 wire' sv).
Qed.

Lemma task_step_fine i now now2 os sv sv' :
  task_step i now now2 os sv = Some (Ret sv') ->
  exists es, fine_run es (mkFine sv ∅) = Some (Ret (Some (mkFine sv' ∅))).
Proof.
  unfold task_step. intros Hs. apply bind_Some in Hs as (t & Hi & Hs).
  apply bind_Some in Hs as (c & Hc & Hs). destruct (task_state_of t) as [|r|] eqn:Hst.
  - injection Hs as Hs. rewrite dispatch_split in Hs.
    destruct (dispatch_store now now2 (task_cmd t) (world sv)) as [[[r w] l]|] eqn:Hd; [|done].
    injection Hs as <-. exists [FWork (WkStore i now now2); FWork (WkLog i)].
    simpl. rewrite Hi. simpl. rewrite lookup_empty, Hst, Hd. simpl.
    rewrite list_lookup_insert_eq by (by eapply lookup_lt_Some). simpl.
    by rewrite lookup_insert_eq; simpl; rewrite delete_insert_id.
  - apply bind_Some in Hs as ([c' k] & Hsend & [= <-]). unfold send_to_fd in Hsend.
    destruct (fd_table (kernel sv) !! fd_ c) as [sock|] eqn:Hs.
    + apply bind_Some in Hsend as ([[b c1] wire'] & Hsend & [= <- <-]). by eapply send_calls.
    + exists [FWork (WkSend i SendError)]. cbn [fine_run].
      erewrite (one_send i t r c SendError c' k TClear); try done. unfold send_once. rewrite Hs.
      destruct r; simpl in Hsend; by injection Hsend as <- <-.
  - injection Hs as <-. exists [FWork (WkClear i)]. simpl. rewrite Hi. simpl. by rewrite Hst, Hc.
Qed.

(** Every run of [Server] is a run here: nothing proved of these runs is lost. *)
Lemma coarse_runs_are_fine es sv sv' :
  server_run es sv = Some (Ret (Some sv')) ->
  exists fes, fine_run fes (mkFine sv ∅) = Some (Ret (Some (mkFine sv' ∅))).
Proof.
  revert sv. induction es as [|e es IH]; intros sv Hr; simpl in Hr; [injection Hr as <-; by exists []|].
  apply bind_Some in Hr as ([[sv1|]|] & He & Hr); try done. destruct (IH sv1 Hr) as [fes Hfes].
  assert (Hstep : exists fes1, fine_run fes1 (mkFine sv ∅) = Some (Ret (Some (mkFine sv1 ∅)))).
  { destruct e as [sys fd sock id|now now2 ev fd|i now now2 os].
    - exists [FLoop (SvAccept sys fd sock id)]. cbn [fine_run fine_exec]. unfold on_base. cbn [base]. by rewrite He.
    - exists [FLoop (SvEvent now now2 ev fd)]. cbn [fine_run fine_exec]. unfold on_base. cbn [base]. by rewrite He.
    - simpl in He. destruct (task_step i now now2 os sv) as [[sv2|]|] eqn:E; try done.
      injection He as ->. by eapply task_step_fine. }
  destruct Hstep as [fes1 Hfes1]. exists (fes1 ++ fes). by rewrite (fine_run_app _ _ _ _ Hfes1).
Qed.
End fine.

(** ** Clients and their responses *)

Section session.
Context {S : Type} `{StorageOps S}.
Implicit Types (sv : Server S) (fs : FineServer S) (w : World S).

(** The response a step computes, with the connection it is for. *)
Definition fine_answered (e : fine_event) fs : list (nat * bytes) :=
  match e with
  | FWork (WkStore i now now2) =>
      match pool_tasks (base fs) !! i with
      | Some (mkTask id cmd TDispatch) =>
          match dispatch_store now now2 cmd (world (base fs)) with Ret (r, _, _) => [(id, r)] | UB => [] end
      | _ => []
      end
  | _ => []
  end.

Fixpoint fine_answers (es : list fine_event) fs : list (nat * bytes) :=
  match es with
  | [] => []
  | e :: es' =>
      fine_answered e fs ++
      match fine_exec e fs with Some (Ret (Some fs')) => fine_answers es' fs' | _ => [] end
  end.

(** An error event only for a connection that is not in flight, and sockets that take
    some part of what they are given, however small. *)
Definition fine_orderly (e : fine_event) fs : Prop :=
  match e with
  | FLoop e => orderly e (base fs)
  | FWork (WkSend _ o) => exists n, o = Sent n
  | FWork _ => True
  end.

Fixpoint fine_orderly_run (es : list fine_event) fs : Prop :=
  match es with
  | [] => True
  | e :: es' =>
      fine_orderly e fs /\
      match fine_exec e fs with Some (Ret (Some fs')) => fine_orderly_run es' fs' | _ => True end
  end.

Lemma fine_orderly_cons e es fs fs' :
  fine_orderly e fs -> fine_exec e fs = Some (Ret (Some fs')) -> fine_orderly_run es fs' ->
  fine_orderly_run (e :: es) fs.
Proof. intros Ho He Hor. simpl. by rewrite He. Qed.

(** The log calls do not touch what clients see. *)
Lemma delivered_world tr w sv : delivered tr sv -> delivered tr (set_world w sv).
Proof.
  intros Hd. apply (delivered_same tr sv); try done.
  - apply set_world_inv, Hd.
  - intros id c. by apply (del_quiet tr sv).
Qed.

Lemma delivered_send_call tr i t c n rest sv :
  delivered tr sv -> pool_tasks sv !! i = Some t -> task_state_of t = TSend rest ->
  heap sv !! task_conn t = Some c ->
  exists k st, send_once (Sent n) rest c (kernel sv) = (c, k, st) /\
    delivered tr (set_task i (mkTask (task_conn t) (task_cmd t) st) (set_kernel k (set_conn (task_conn t) c sv))).
Proof.
  intros Hd Hi Hst Hc. destruct t as [id cmd st]. simpl in *. subst st.
  destruct (task_socket tr id c sv Hd (busy_of sv i id cmd _ Hi) Hc) as (sock & Hfd & Hs).
  unfold send_once. rewrite Hs. destruct rest as [|d rest]; eexists _, _; (split; [reflexivity|]).
  - rewrite <- (app_nil_r (wire_of sock (kernel sv))).
    apply (delivered_send_part tr sv Hd i id cmd c Hc [] TClear sock); try done.
    by rewrite held_not_sending.
  - apply (delivered_send_part tr sv Hd i id cmd c Hc (take n (d :: rest)) (TSend (drop n (d :: rest))) sock);
      try done. by rewrite held_self, take_drop.
Qed.

Lemma delivered_work tr e fs fs' :
  delivered tr (base fs) -> fine_orderly (FWork e) fs -> work_exec e fs = Some (Ret fs') ->
  delivered (tr ++ fine_answered (FWork e) fs) (base fs').
Proof.
  intros Hd Hor He. destruct e as [i now now2|i|i o'|i]; simpl in He |- *;
    apply bind_Some in He as ([id cmd st] & Hi & He); cbn [task_state_of task_conn task_cmd] in *;
    rewrite ?app_nil_r.
  - rewrite Hi. destruct (logs fs !! id); [done|]. destruct st; try done. injection He as He.
    destruct (del_inv _ _ Hd) as [(_ & _ & Hb) _].
    destruct (Hb id (busy_of _ i id cmd _ Hi)) as [c Hc].
    destruct (dispatch_store now now2 cmd (world (base fs))) as [[[r w] l]|]; [|done].
    injection He as <-. by apply (delivered_dispatch tr (base fs) Hd i id cmd c).
  - apply bind_Some in He as (l & _ & [= <-]). by apply delivered_world.
  - destruct (logs fs !! id); [done|]. destruct st as [|rest|]; try done.
    apply bind_Some in He as (c & Hc & He). destruct Hor as [n ->].
    destruct (delivered_send_call tr i _ c n rest (base fs) Hd Hi eq_refl Hc) as (k & st' & Hs & Hd').
    rewrite Hs in He. injection He as <-. exact Hd'.
  - destruct st; try done. apply bind_Some in He as (c & Hc & [= <-]).
    by apply (delivered_clear tr (base fs) Hd i id cmd c).
Qed.

(** A step of the event loop is a step of the server beneath. *)
Lemma fine_exec_loop e fs fs' :
  fine_exec (FLoop e) fs = Some (Ret (Some fs')) ->
  server_exec e (base fs) = Some (Ret (Some (base fs'))) /\ logs fs' = logs fs /\
  answered e (base fs) = [].
Proof.
  intros He. destruct e as [sys fd sock id|now now2 ev fd|]; [| |done]; cbn [fine_exec] in He;
    unfold on_base in He; apply bind_Some in He as ([[sv'|]|] & Ho & He); try done;
    by injection He as <-.
Qed.

Lemma fine_exec_work e fs fs' :
  fine_exec (FWork e) fs = Some (Ret (Some fs')) -> work_exec e fs = Some (Ret fs').
Proof.
  cbn [fine_exec]. intros He. apply bind_Some in He as ([fs1|] & Ho & He); [|done].
  injection He as <-. done.
Qed.

Lemma delivered_fine_exec tr e fs fs' :
  delivered tr (base fs) -> fine_orderly e fs -> fine_exec e fs = Some (Ret (Some fs')) ->
  delivered (tr ++ fine_answered e fs) (base fs').
Proof.
  intros Hd Hor He. destruct e as [e|e].
  - apply fine_exec_loop in He as (He & _ & Ha). pose proof (delivered_exec tr e _ _ Hd Hor He) as Hd'.
    by rewrite Ha in Hd'.
  - apply delivered_work; [done|done|by apply fine_exec_work].
Qed.

Lemma delivered_fine_run tr es fs fs' :
  delivered tr (base fs) -> fine_orderly_run es fs -> fine_run es fs = Some (Ret (Some fs')) ->
  delivered (tr ++ fine_answers es fs) (base fs').
Proof.
  revert tr fs. induction es as [|e es IH]; intros tr fs Hd Hor Hr; simpl in *.
  - injection Hr as <-. by rewrite app_nil_r.
  - destruct Hor as [Ho Hor]. apply bind_Some in Hr as ([[fs1|]|] & He & Hr); try done.
    rewrite He in Hor |- *. rewrite app_assoc. apply IH; [by apply delivered_fine_exec|done|done].
Qed.

(** C3: In every interleaving of the event loop with the storage calls, the log calls and the
    single [send] calls of the workers, with any number of clients, as long as no error
    event hits a connection with a command in flight and every [send] takes some part of
    what it is given: what a connected client has received, followed by the part of a
    response a worker has not sent yet, is the responses to its own commands, whole and in
    order. *)
Theorem clients_get_own_bytes w es fs fd id sock :
  fine_orderly_run es (mkFine (idle_server w) ∅) ->
  fine_run es (mkFine (idle_server w) ∅) = Some (Ret (Some fs)) ->
  connections_ (base fs) !! fd = Some id -> fd_table (kernel (base fs)) !! fd = Some sock ->
  wire_of sock (kernel (base fs)) ++ pending id (pool_tasks (base fs)) =
  responses_to id (fine_answers es (mkFine (idle_server w) ∅)).
Proof.
  intros Hor Hr Hfd Hs.
  by apply (del_own _ _ (delivered_fine_run [] es (mkFine (idle_server w) ∅) fs (delivered_idle w) Hor Hr) fd).
Qed.
End session.
