(* ===== verification/OneLine.v ===== *)
(** * One line for each command the server takes from a client

    [handleRead] takes the first command of a read and submits it ([src/server/server.cpp]);
    a worker answers it.  Here the commands the server takes from a connection are followed
    through the pool: each gets one response, in order, and a response is one line, so a
    client that reads lines knows which response belongs to which command. *)

From S2P Require Import Prelude Cpp Parser ParserFacts Response StorageInterface AofWriter.
From S2P Require Import Dispatcher DispatcherFacts LogOrder Connection Server ServerFacts.
From S2P Require Import ServerSession FineServer.
Local Open Scope Z_scope.

(** ** What is taken and what is executed *)

Section traces.
Context {S : Type} `{StorageOps S}.
Implicit Types (sv : Server S) (fs : FineServer S) (w : World S) (ts : list Task).

(** The command [handleRead] takes from a read on [fd], with its connection: the first of
    the read, if the connection has no command in flight and did not fail. *)
Definition read_command (r : recv_result) (fd : Z) sv : list (nat * Command) :=
  match connections_ sv !! fd with
  | None => []
  | Some id =>
      match heap sv !! id with
      | None => []
      | Some c =>
          if in_flight_ c then []
          else match readAndParse r c with
               | (line :: _, c') => if has_error_ c' then [] else [(id, parseCommand line)]
               | ([], _) => []
               end
      end
  end.

(** The command a step takes from a client, and the command a step executes. *)
Definition step_taken (e : fine_event) fs : list (nat * Command) :=
  match e with
  | FLoop (SvEvent _ _ ev fd) =>
      if ev_err ev then [] else if ev_in ev then read_command (on_recv ev) fd (base fs) else []
  | _ => []
  end.

Definition step_executed (e : fine_event) fs : list (nat * Command) :=
  match e with
  | FWork (WkStore i _ _) =>
      match pool_tasks (base fs) !! i with
      | Some (mkTask id cmd TDispatch) => [(id, cmd)]
      | _ => []
      end
  | _ => []
  end.

(** What the steps of a run contribute, in order. *)
Fixpoint along {A} (f : fine_event -> FineServer S -> list A) (es : list fine_event) fs : list A :=
  match es with
  | [] => []
  | e :: es' =>
      f e fs ++ match fine_exec e fs with Some (Ret (Some fs')) => along f es' fs' | _ => [] end
  end.

(** The part of a trace that concerns one connection. *)
Definition of_conn {A} (id : nat) (tr : list (nat * A)) : list A := (filter (fun p => p.1 = id) tr).*2.

(** The commands of a connection that no worker has executed yet. *)
Definition queued (t : Task) : list (nat * Command) :=
  match task_state_of t with TDispatch => [(task_conn t, task_cmd t)] | _ => [] end.
Definition unserved (id : nat) ts : list Command := of_conn id (ts ≫= queued).

(** Every step of a worker executes a request whose deadline, if it sets one, fits the
    clock. *)
Definition store_ok (e : fine_event) fs : Prop :=
  match e with
  | FWork (WkStore i now now2) =>
      forall t, pool_tasks (base fs) !! i = Some t -> task_state_of t = TDispatch ->
        req_ok (now, now2, task_cmd t)
  | _ => True
  end.

Fixpoint stores_ok (es : list fine_event) fs : Prop :=
  match es with
  | [] => True
  | e :: es' =>
      store_ok e fs /\
      match fine_exec e fs with Some (Ret (Some fs')) => stores_ok es' fs' | _ => True end
  end.

Lemma stores_ok_cons e es fs fs' :
  store_ok e fs -> fine_exec e fs = Some (Ret (Some fs')) -> stores_ok es fs' -> stores_ok (e :: es) fs.
Proof. intros Ho He Hor. simpl. by rewrite He. Qed.

Lemma of_conn_app {A} id (tr1 tr2 : list (nat * A)) :
  of_conn id (tr1 ++ tr2) = of_conn id tr1 ++ of_conn id tr2.
Proof. unfold of_conn. by rewrite filter_app, fmap_app. Qed.

Lemma of_conn_one {A} id (x : A) : of_conn id [(id, x)] = [x].
Proof. unfold of_conn. by rewrite filter_cons_True. Qed.

Lemma of_conn_ne {A} id id' (x : A) : id' <> id -> of_conn id [(id', x)] = [].
Proof. intros Hne. unfold of_conn. by rewrite filter_cons_False. Qed.

Lemma unserved_app id ts1 ts2 : unserved id (ts1 ++ ts2) = unserved id ts1 ++ unserved id ts2.
Proof. unfold unserved. by rewrite bind_app, of_conn_app. Qed.

Lemma unserved_other id ts : id ∉ task_conn <$> ts -> unserved id ts = [].
Proof.
  induction ts as [|t ts IH]; [done|]. rewrite fmap_cons, not_elem_of_cons. intros [Hne Hts].
  unfold unserved. rewrite bind_cons, of_conn_app. change (of_conn id (ts ≫= queued)) with (unserved id ts).
  rewrite (IH Hts), app_nil_r. unfold queued. destruct (task_state_of t); [|done..].
  by apply of_conn_ne.
Qed.

(** Replacing a task changes the commands that wait as it changes its own. *)
Lemma unserved_split id i t ts :
  ts !! i = Some t ->
  unserved id ts = unserved id (take i ts) ++ of_conn id (queued t) ++ unserved id (drop (Datatypes.S i) ts).
Proof.
  intros Hi. rewrite <- (take_drop_middle _ _ _ Hi) at 1. rewrite unserved_app. f_equal.
  unfold unserved. by rewrite bind_cons, of_conn_app.
Qed.

Lemma unserved_insert_same id i t t' ts :
  ts !! i = Some t -> queued t' = queued t -> unserved id (<[i := t']> ts) = unserved id ts.
Proof.
  intros Hi Hq. rewrite (unserved_split id i t ts Hi).
  rewrite insert_take_drop by (by eapply lookup_lt_Some). rewrite unserved_app. f_equal.
  unfold unserved. by rewrite bind_cons, of_conn_app, Hq.
Qed.

Lemma unserved_delete_done id i t ts :
  ts !! i = Some t -> queued t = [] -> unserved id (delete i ts) = unserved id ts.
Proof.
  intros Hi Hq. rewrite (unserved_split id i t ts Hi), Hq.
  by rewrite delete_take_drop, unserved_app.
Qed.
End traces.

(** ** Steps of the event loop *)

Section loop.
Context {S : Type} `{StorageOps S}.
Implicit Types (sv : Server S) (fs : FineServer S).

Definition fresh_task (p : nat * Command) : Task := mkTask p.1 p.2 TDispatch.

Lemma updateEpollEvents_tasks ctl fd sv sv' :
  updateEpollEvents ctl fd sv = Ret (Some sv') -> pool_tasks sv' = pool_tasks sv.
Proof.
  unfold updateEpollEvents, modifyFd. destruct (connections_ sv !! fd); [|by intros [= <-]].
  destruct (heap sv !! _); [|done]. simpl. destruct (interest sv !! fd); [|done].
  destruct (ctl <? 0); [done|]. by intros [= <-].
Qed.

Lemma handleRead_tasks now now2 r ctl fd sv sv' :
  handleRead now now2 r ctl fd sv = Ret (Some sv') ->
  pool_tasks sv' = pool_tasks sv ++ (fresh_task <$> read_command r fd sv).
Proof.
  unfold handleRead, read_command. destruct (connections_ sv !! fd) as [id|];
    [|intros [= <-]; by rewrite app_nil_r].
  destruct (heap sv !! id) as [c|]; [|done]. simpl.
  destruct (in_flight_ c) eqn:Hin; [intros [= <-]; by rewrite app_nil_r|].
  assert (Hin' : in_flight_ (readAndParse r c).2 = false) by (by destruct r).
  destruct (readAndParse r c) as [[|line lines] c']; simpl in Hin'.
  - destruct (has_error_ c'); [intros [= <-]; by rewrite app_nil_r|].
    simpl. intros ->%updateEpollEvents_tasks. by rewrite app_nil_r.
  - destruct (has_error_ c'); [intros [= <-]; by rewrite app_nil_r|].
    rewrite (handle_commands_first _ _ _ c') by (done || apply lookup_insert_eq).
    cbn [mbind outcome_bind]. by intros ->%updateEpollEvents_tasks.
Qed.

Lemma handleWrite_tasks r ctl fd sv sv' :
  handleWrite r ctl fd sv = Ret (Some sv') -> pool_tasks sv' = pool_tasks sv.
Proof.
  unfold handleWrite. destruct (connections_ sv !! fd) as [id|]; [|by intros [= <-]].
  destruct (heap sv !! id) as [c|]; [|done]. simpl. destruct (flush_to_fd r c (kernel sv)) as [c' k].
  destruct (has_error_ c'); [by intros [= <-]|]. by intros ->%updateEpollEvents_tasks.
Qed.

(** The event loop submits exactly the command it takes. *)
Lemma loop_step_tasks e fs fs' :
  fine_exec (FLoop e) fs = Some (Ret (Some fs')) ->
  pool_tasks (base fs') = pool_tasks (base fs) ++ (fresh_task <$> step_taken (FLoop e) fs).
Proof.
  intros Hx. destruct (fine_exec_loop _ _ _ Hx) as (He & _ & _).
  destruct e as [sys fd sock id|now now2 ev fd|i now now2 os]; [| |done]; simpl in He |- *.
  - case_decide; [|done]. injection He as He. unfold acceptConnection, addFd in He.
    repeat case_match; try done. injection He as <-. by rewrite app_nil_r.
  - destruct (interest (base fs) !! fd); [|done]. destruct (implb _ _); [|done]. injection He as He.
    unfold handle_event in He. destruct (ev_err ev).
    { injection He as <-. by rewrite app_nil_r. }
    apply bind_Ret_inv in He as ([sv1|] & Hr & He); [|done].
    assert (Ht : pool_tasks (base fs') = pool_tasks sv1).
    { destruct (connections_ sv1 !! fd); [|by injection He as <-].
      destruct (ev_out ev); [by eapply handleWrite_tasks|by injection He as <-]. }
    rewrite Ht. destruct (ev_in ev); [by eapply handleRead_tasks|].
    injection Hr as <-. by rewrite app_nil_r.
Qed.

Lemma loop_step_world e fs fs' :
  server_inv (base fs) -> fine_exec (FLoop e) fs = Some (Ret (Some fs')) ->
  server_inv (base fs') /\ world (base fs') = world (base fs).
Proof.
  intros Hinv Hx. destruct (fine_exec_loop _ _ _ Hx) as (He & _ & _).
  split; [by destruct (server_exec_inv _ _ _ Hinv He) as [?|[? _]]|].
  destruct e as [sys fd sock id|now now2 ev fd|i now now2 os]; [| |done]; simpl in He.
  - case_decide; [|done]. injection He as He. unfold acceptConnection, addFd in He.
    repeat case_match; try done. by injection He as <-.
  - destruct (interest (base fs) !! fd); [|done]. destruct (implb _ _); [|done]. injection He as He.
    by destruct (ends_return _ _ _ _ (handle_event_total now now2 ev fd _ Hinv) He).
Qed.

(** No argument of a command the server takes has a line feed. *)
Lemma step_taken_clean e fs : Forall (fun p => clean_command p.2) (step_taken e fs).
Proof.
  destruct e as [[|? ? ev fd|]|]; simpl; auto. destruct (ev_err ev); [done|].
  destruct (ev_in ev); [|done]. unfold read_command.
  destruct (connections_ (base fs) !! fd) as [id|]; [|done].
  destruct (heap (base fs) !! id) as [c|]; [|done]. destruct (in_flight_ c); [done|].
  destruct (on_recv ev) as [data| | |]; simpl; try done.
  destruct (extract_clean (read_buffer_ c ++ data)) as [Hl _].
  destruct (extract (read_buffer_ c ++ data)) as [[|line lines] rest]; [done|]. simpl.
  apply Forall_cons in Hl as [[_ Hline] _].
  destruct (has_error_ c); [done|]. apply Forall_singleton. unfold clean_command.
  apply Forall_forall. intros a Ha Hin. by destruct (Hline ch_nl (parseCommand_chars line a _ Ha Hin)).
Qed.
End loop.

(** ** Every run *)

Section session.
Context {S : Type} `{StorageLaws S}.
Implicit Types (fs : FineServer S) (w : World S).

(** The commands taken so far are those executed and those that wait; every command
    executed was answered with one line; and what is still to be executed cannot break
    the framing. *)
Record followed (taken executed : list (nat * Command)) (tr : list (nat * bytes)) fs : Prop := mkFollowed {
  fol_inv : server_inv (base fs);
  fol_taken : forall id, of_conn id taken = of_conn id executed ++ unserved id (pool_tasks (base fs));
  fol_answered : executed.*1 = tr.*1;
  fol_lines : Forall (fun p => one_line p.2) tr;
  fol_clean : Forall (fun t => clean_command (task_cmd t)) (pool_tasks (base fs));
  fol_framed : framed (world (base fs))
}.

Lemma followed_loop taken executed tr e fs fs' :
  followed taken executed tr fs -> fine_exec (FLoop e) fs = Some (Ret (Some fs')) ->
  followed (taken ++ step_taken (FLoop e) fs) executed tr fs'.
Proof.
  intros [Hinv Ht Ha Hl Hc Hf] Hx. destruct (loop_step_world e fs fs' Hinv Hx) as [Hinv' Hw].
  pose proof (loop_step_tasks e fs fs' Hx) as Htasks. split; try done.
  - intros id. rewrite of_conn_app, Ht, <- app_assoc, Htasks, unserved_app. do 2 f_equal.
    unfold unserved. f_equal. clear. induction (step_taken (FLoop e) fs) as [|[i c] l IH]; [done|].
    rewrite fmap_cons, bind_cons. simpl. by rewrite <- IH.
  - rewrite Htasks. apply Forall_app. split; [done|]. apply Forall_fmap.
    eapply Forall_impl; [apply step_taken_clean|]. done.
  - by rewrite Hw.
Qed.

(** The storage call of a worker: one line, and the framing is kept. *)
Lemma dispatch_store_framed now now2 cmd w r w' l :
  framed w -> req_ok (now, now2, cmd) -> clean_command cmd ->
  dispatch_store now now2 cmd w = Ret (r, w', l) -> one_line r /\ framed w'.
Proof.
  intros Hw Hreq Hc Hd. destruct (dispatch_framed now now2 cmd w Hw Hreq Hc) as (r' & w1 & Hx & Hr & Hw1).
  rewrite dispatch_split, Hd in Hx. injection Hx as <- <-. by destruct Hw1.
Qed.

Lemma executed_unserved i t st id fs :
  server_inv (base fs) -> pool_tasks (base fs) !! i = Some t -> task_state_of t = TDispatch ->
  st <> TDispatch ->
  unserved id (pool_tasks (base fs)) =
  of_conn id [(task_conn t, task_cmd t)] ++
    unserved id (<[i := mkTask (task_conn t) (task_cmd t) st]> (pool_tasks (base fs))).
Proof.
  intros [(Hnd & _) _] Hi Hst Hne. unfold busy in Hnd.
  assert (Hq : queued t = [(task_conn t, task_cmd t)]) by (unfold queued; by rewrite Hst).
  assert (Hq' : queued (mkTask (task_conn t) (task_cmd t) st) = []) by (unfold queued; by destruct st).
  rewrite (unserved_split id i t _ Hi), Hq.
  rewrite insert_take_drop by (by eapply lookup_lt_Some). rewrite unserved_app.
  unfold unserved at 4. rewrite bind_cons, of_conn_app, Hq'. fold (unserved id (drop (Datatypes.S i) (pool_tasks (base fs)))).
  destruct (decide (task_conn t = id)) as [<-|Hd]; [|by rewrite !of_conn_ne].
  rewrite (unserved_other _ (take i _)); [done|].
  rewrite <- (take_drop_middle _ _ _ Hi), fmap_app, fmap_cons in Hnd.
  apply NoDup_app in Hnd as (_ & Hd & _). intros Hin. apply (Hd _ Hin). by left.
Qed.

Lemma followed_store taken executed tr i now now2 fs fs' :
  followed taken executed tr fs -> store_ok (FWork (WkStore i now now2)) fs ->
  work_exec (WkStore i now now2) fs = Some (Ret fs') ->
  followed taken (executed ++ step_executed (FWork (WkStore i now now2)) fs)
    (tr ++ fine_answered (FWork (WkStore i now now2)) fs) fs'.
Proof.
  intros [Hinv Ht Ha Hl Hc Hf] Hok He. pose proof (work_exec_inv _ _ _ Hinv He) as Hinv'.
  simpl in He. apply bind_Some in He as ([id cmd st] & Hi & He). simpl in He |- *. rewrite Hi.
  destruct (logs fs !! id); [done|]. destruct st; try done. injection He as He.
  assert (Hcmd : clean_command cmd) by (by apply (Forall_lookup_1 _ _ _ _ Hc Hi)).
  destruct (dispatch_store now now2 cmd (world (base fs))) as [[[r w] l]|] eqn:Hd; [|done].
  injection He as <-.
  destruct (dispatch_store_framed _ _ _ _ _ _ _ Hf (Hok _ Hi eq_refl) Hcmd Hd) as [Hr Hf'].
  split; try done.
  - intros id'. rewrite of_conn_app, Ht, <- app_assoc. f_equal.
    by rewrite (executed_unserved i _ (TSend r) id' fs Hinv Hi).
  - by rewrite !fmap_app, Ha.
  - apply Forall_app. split; [done|]. by apply Forall_singleton.
  - simpl. by apply Forall_insert.
Qed.

Lemma followed_work taken executed tr e fs fs' :
  followed taken executed tr fs -> store_ok (FWork e) fs -> work_exec e fs = Some (Ret fs') ->
  followed taken (executed ++ step_executed (FWork e) fs) (tr ++ fine_answered (FWork e) fs) fs'.
Proof.
  intros Hfol Hok He. destruct e as [i now now2|i|i o|i]; [by apply followed_store|..];
    pose proof Hfol as [Hinv Ht Ha Hl Hc Hf]; pose proof (work_exec_inv _ _ _ Hinv He) as Hinv';
    simpl in He |- *; rewrite !app_nil_r; apply bind_Some in He as (t & Hi & He).
  - by apply bind_Some in He as (l & _ & [= <-]).
  - destruct (logs fs !! task_conn t), (task_state_of t) as [|rest|] eqn:Hst; try done.
    apply bind_Some in He as (c & _ & He). destruct (send_once o rest c (kernel (base fs))) as [[c' k] st] eqn:E.
    injection He as <-. split; try done; simpl.
    + intros id. rewrite Ht. f_equal. symmetry. apply (unserved_insert_same id i t); [done|].
      unfold queued. rewrite Hst. simpl. unfold send_once, send_call in E.
      by repeat case_match; simplify_eq.
    + apply Forall_insert; [done|]. by apply (Forall_lookup_1 _ _ _ _ Hc Hi).
  - destruct (task_state_of t) eqn:Hst; try done. apply bind_Some in He as (c & _ & [= <-]).
    split; try done; simpl.
    + intros id. rewrite Ht. f_equal. symmetry. apply (unserved_delete_done id i t); [done|].
      unfold queued. by rewrite Hst.
    + by apply Forall_delete.
Qed.

Lemma followed_run taken executed tr es fs fs' :
  followed taken executed tr fs -> stores_ok es fs -> fine_run es fs = Some (Ret (Some fs')) ->
  followed (taken ++ along step_taken es fs) (executed ++ along step_executed es fs)
    (tr ++ fine_answers es fs) fs'.
Proof.
  revert taken executed tr fs. induction es as [|e es IH]; intros taken executed tr fs Hf Hok Hr; simpl in *.
  { injection Hr as <-. by rewrite !app_nil_r. }
  destruct Hok as [Ho Hok]. apply bind_Some in Hr as ([[fs1|]|] & He & Hr); try done.
  rewrite He in Hok |- *. rewrite !app_assoc. apply IH; [|done|done]. destruct e as [e|e].
  - simpl fine_answered. simpl step_executed. rewrite !app_nil_r. by apply followed_loop.
  - simpl step_taken. rewrite app_nil_r. apply followed_work; [done|done|]. by apply fine_exec_work.
Qed.

Lemma followed_idle w : framed w -> followed [] [] [] (mkFine (idle_server w) ∅).
Proof. intros Hw. split; try done. apply idle_server_inv. Qed.

Lemma of_conn_length {A B} id (tr1 : list (nat * A)) (tr2 : list (nat * B)) :
  tr1.*1 = tr2.*1 -> length (of_conn id tr1) = length (of_conn id tr2).
Proof.
  unfold of_conn. revert tr2. induction tr1 as [|[i x] tr1 IH]; intros [|[j y] tr2] Heq; try done.
  injection Heq as -> Heq. specialize (IH tr2 Heq).
  destruct (decide (j = id)); [rewrite !filter_cons_True|rewrite !filter_cons_False]; simpl; auto.
Qed.

(** C23: In every interleaving of the event loop and the workers, with any number of clients,
    from a well-formed storage without line feeds in its values, as long as no error event hits a connection with a command in flight, every [send]
    takes some part of what it is given, and the deadlines of the EXPIRE commands fit the
    clock: of the commands [handleRead] has taken from a connected client (the first of
    each read) some are answered and the others wait for a worker; each of those answered
    has exactly one response, in order, which is one line; the client has received these
    lines and nothing else, but for the part of the last that a worker has not sent yet;
    and no line feed has entered the storage. *)
Theorem session_one_line_each w es fs fd id sock :
  framed w ->
  fine_orderly_run es (mkFine (idle_server w) ∅) -> stores_ok es (mkFine (idle_server w) ∅) ->
  fine_run es (mkFine (idle_server w) ∅) = Some (Ret (Some fs)) ->
  connections_ (base fs) !! fd = Some id -> fd_table (kernel (base fs)) !! fd = Some sock ->
  exists commands responses,
    of_conn id (along step_taken es (mkFine (idle_server w) ∅)) =
      commands ++ unserved id (pool_tasks (base fs)) /\
    length responses = length commands /\ Forall one_line responses /\
    wire_of sock (kernel (base fs)) ++ pending id (pool_tasks (base fs)) = concat responses /\
    framed (world (base fs)).
Proof.
  intros Hw Hor Hok Hr Hfd Hs.
  destruct (followed_run [] [] [] es _ fs (followed_idle w Hw) Hok Hr) as [_ Ht Ha Hl _ Hf].
  exists (of_conn id (along step_executed es (mkFine (idle_server w) ∅))).
  exists (of_conn id (fine_answers es (mkFine (idle_server w) ∅))). split; [apply Ht|].
  split; [symmetry; by apply of_conn_length|]. split.
  - unfold of_conn. apply Forall_fmap, Forall_forall. intros p [_ Hp]%list_elem_of_filter.
    by apply (proj1 (Forall_forall _ _) Hl).
  - split; [|done].
    by apply (del_own _ _ (delivered_fine_run [] es (mkFine (idle_server w) ∅) fs (delivered_idle w) Hor Hr) fd).
Qed.
End session.
