(* ===== verification/ServerLoop.v ===== *)
(** * The loop of the server ([Server::run], [EventLoop::wait], [Server::acceptConnection])

    One iteration of [run] takes a batch of events from [epoll_wait] and handles them one
    after the other; workers run in between.  The events were reported before the first
    handler ran, so a handler acts on what it finds then.  The theorem says that a batch
    is nevertheless a run of single events, each valid when it is handled: what is proved
    of runs ([ServerFacts], [ServerSession]) holds of the loop. *)

From S2P Require Import Prelude Cpp Parser StorageInterface AofWriter Dispatcher Connection Server.
From S2P Require Import ServerFacts.
Local Open Scope Z_scope.

(** ** Operations *)

Definition MAX_EVENTS : nat := 64.

(** [EventLoop::wait]: [epoll_wait] fails ([None]) or fills at most [MAX_EVENTS] entries. *)
Definition wait {A} (answer : option (list A)) : list A :=
  match answer with
  | Some events => take MAX_EVENTS events
  | None => []
  end.

(** What [accept] answers: a descriptor for a new socket, with the kernel's answers to the
    calls made for it; no more connections; another error. *)
Inductive accept_result : Type :=
| Accepted (sys : AcceptSys) (fd : Z) (sock id : nat)
| AcceptAgain
| AcceptError.

(** An event of the batch: the descriptor, its flags with what the kernel answers to the
    calls of the handlers, and what [accept] answers if it is the listening socket.  A
    step of a worker may come between two events. *)
Inductive loop_item : Type :=
| LEvent (now now2 : Z) (fd : Z) (ev : EpollEvent) (accepts : list accept_result)
| LTask (i : nat) (now now2 : Z) (os : list send_result).

Section loop.
Context {S : Type} `{StorageOps S}.
Implicit Types (sv : Server S).

(** The kernel gives a new connection a descriptor and a socket that are free. *)
Definition accept_possible (fd : Z) (sock id : nat) sv : Prop :=
  fd_table (kernel sv) !! fd = None /\ wires (kernel sv) !! sock = None /\ heap sv !! id = None.

#[export] Instance accept_possible_dec fd sock id sv : Decision (accept_possible fd sock id sv).
Proof. unfold accept_possible. apply _. Defined.

(** The loop of [acceptConnection]; [Some None] is an exception of [setNonBlocking] or
    [addFd], [None] an answer the kernel does not give. *)
Fixpoint accept_loop (answers : list accept_result) sv : option (option (Server S)) :=
  match answers with
  | Accepted sys fd sock id :: answers' =>
      if decide (accept_possible fd sock id sv) then
        match acceptConnection sys fd sock id sv with
        | Some sv' => accept_loop answers' sv'
        | None => Some None
        end
      else None
  | (AcceptAgain | AcceptError) :: _ | [] => Some (Some sv)
  end.

(** The body of the loop of [run] over the events, with the steps of the workers. *)
Definition run_item (server_fd : Z) (item : loop_item) sv : option (outcome (option (Server S))) :=
  match item with
  | LEvent now now2 fd ev accepts =>
      if decide (fd = server_fd) then Ret <$> accept_loop accepts sv
      else Some (handle_event now now2 ev fd sv)
  | LTask i now now2 os => server_exec (SvTask i now now2 os) sv
  end.

Fixpoint run_items (server_fd : Z) (items : list loop_item) sv
    : option (outcome (option (Server S))) :=
  match items with
  | [] => Some (Ret (Some sv))
  | item :: items' =>
      o ← run_item server_fd item sv;
      match o with
      | Ret (Some sv') => run_items server_fd items' sv'
      | other => Some other
      end
  end.

(** ** The same steps as single events *)

Fixpoint accept_steps (answers : list accept_result) : list server_event :=
  match answers with
  | Accepted sys fd sock id :: answers' => SvAccept sys fd sock id :: accept_steps answers'
  | _ => []
  end.

Definition item_steps (server_fd : Z) (item : loop_item) : list server_event :=
  match item with
  | LEvent now now2 fd ev accepts =>
      if decide (fd = server_fd) then accept_steps accepts else [SvEvent now now2 ev fd]
  | LTask i now now2 os => [SvTask i now now2 os]
  end.

(** What [epoll_wait] reports of the connections when the batch is taken: registered
    descriptors, EPOLLOUT only where it was asked for. *)
Definition reported (server_fd : Z) sv (item : loop_item) : Prop :=
  match item with
  | LEvent _ _ fd ev _ =>
      fd = server_fd \/ exists out, interest sv !! fd = Some out /\ implb (ev_out ev) out = true
  | LTask _ _ _ _ => True
  end.

(** The descriptors of the connections in the batch. *)
Definition client_fds (server_fd : Z) (items : list loop_item) : list Z :=
  omap (fun item => match item with
                    | LEvent _ _ fd _ _ => if decide (fd = server_fd) then None else Some fd
                    | LTask _ _ _ _ => None
                    end) items.

(** The kernel grants what the handlers of an item ask of it. *)
Definition answer_granted (a : accept_result) : Prop :=
  match a with Accepted sys _ _ _ => accept_granted sys | _ => True end.

Definition item_granted (item : loop_item) : Prop :=
  match item with
  | LEvent _ _ _ ev accepts => event_granted ev /\ Forall answer_granted accepts
  | LTask _ _ _ _ => True
  end.

(** ** What a handler leaves alone *)

(** New tasks come last, and wait to be dispatched. *)
Definition submits sv sv' : Prop :=
  exists new, pool_tasks sv' = pool_tasks sv ++ new /\ Forall (fun t => task_state_of t = TDispatch) new.

Lemma submits_none sv sv' : pool_tasks sv' = pool_tasks sv -> submits sv sv'.
Proof. intros Ht. exists []. by rewrite app_nil_r. Qed.

#[export] Instance submits_preorder : PreOrder submits.
Proof.
  split.
  - intros sv. by apply submits_none.
  - intros sv1 sv2 sv3 (n1 & H1 & F1) (n2 & H2 & F2). exists (n1 ++ n2).
    rewrite H2, H1, app_assoc. split; [done|]. by apply Forall_app.
Qed.

(** A handler changes the interest of its own descriptor only, and it only adds tasks. *)
Definition handler_frame (fd : Z) sv sv' : Prop :=
  (forall fd', fd <> fd' -> interest sv' !! fd' = interest sv !! fd') /\ submits sv sv'.

#[local] Instance handler_frame_preorder fd : PreOrder (handler_frame fd).
Proof.
  split; [done|]. intros sv1 sv2 sv3 [Hi1 Ht1] [Hi2 Ht2]. split; [|by transitivity sv2].
  intros fd' Hne. by rewrite Hi2, Hi1.
Qed.

Lemma updateEpollEvents_frame ctl fd sv sv' :
  updateEpollEvents ctl fd sv = Ret (Some sv') -> handler_frame fd sv sv'.
Proof.
  unfold updateEpollEvents, modifyFd. destruct (connections_ sv !! fd); [|by intros [= <-]].
  destruct (heap sv !! _); [|done]. simpl. destruct (interest sv !! fd); [|done].
  destruct (ctl <? 0); [done|]. intros [= <-]. split; [|by apply submits_none]. intros fd' Hne. simpl. by rewrite lookup_insert_ne.
Qed.

Lemma closeConnection_frame fd sv : handler_frame fd sv (closeConnection fd sv).
Proof. split; [|by apply submits_none]. intros fd' Hne. simpl. by rewrite lookup_delete_ne. Qed.

Lemma handle_commands_frame fd now now2 id cmds sv sv' :
  handle_commands now now2 id cmds sv = Ret sv' -> handler_frame fd sv sv'.
Proof.
  revert sv. induction cmds as [|cmd cmds IH]; intros sv; simpl; [by intros [= <-]|].
  destruct (heap sv !! id) as [c|]; [|done]. simpl. destruct (trySetInFlight c) as [[] c'].
  - intros [= <-]. split; [done|]. eexists. split; [done|]. by apply Forall_singleton.
  - intros Hr. apply bind_Ret_inv in Hr as ([r w] & _ & Hr). by apply IH in Hr.
Qed.

Lemma handleRead_frame now now2 r ctl fd sv sv' :
  handleRead now now2 r ctl fd sv = Ret (Some sv') -> handler_frame fd sv sv'.
Proof.
  unfold handleRead. destruct (connections_ sv !! fd) as [id|]; [|by intros [= <-]].
  destruct (heap sv !! _); [|done]. simpl. destruct (in_flight_ _); [by intros [= <-]|].
  destruct (readAndParse r _) as [cmds c']. change (handler_frame fd sv) with (handler_frame fd (set_conn id c' sv)).
  destruct (has_error_ c').
  - intros [= <-]. apply closeConnection_frame.
  - intros Hr. apply bind_Ret_inv in Hr as (sv1 & H1 & Hr). etransitivity; [by eapply handle_commands_frame|].
    by eapply updateEpollEvents_frame.
Qed.

Lemma handleWrite_frame r ctl fd sv sv' :
  handleWrite r ctl fd sv = Ret (Some sv') -> handler_frame fd sv sv'.
Proof.
  unfold handleWrite. destruct (connections_ sv !! fd) as [id|]; [|by intros [= <-]].
  destruct (heap sv !! _); [|done]. simpl. destruct (flush_to_fd r _ _) as [c' k].
  change (handler_frame fd sv) with (handler_frame fd (set_kernel k (set_conn id c' sv))).
  destruct (has_error_ c').
  - intros [= <-]. apply closeConnection_frame.
  - apply updateEpollEvents_frame.
Qed.

Lemma handle_event_frame now now2 ev fd sv sv' :
  handle_event now now2 ev fd sv = Ret (Some sv') -> handler_frame fd sv sv'.
Proof.
  unfold handle_event. destruct (ev_err ev).
  { intros [= <-]. apply closeConnection_frame. }
  intros Hr. apply bind_Ret_inv in Hr as ([sv1|] & H1 & Hr); [|done]. transitivity sv1.
  { destruct (ev_in ev); [by eapply handleRead_frame|by injection H1 as <-]. }
  destruct (connections_ sv1 !! fd); [|by injection Hr as <-].
  destruct (ev_out ev); [by eapply handleWrite_frame|by injection Hr as <-].
Qed.

Lemma task_step_interest i now now2 os sv sv' :
  task_step i now now2 os sv = Some (Ret sv') -> interest sv' = interest sv.
Proof.
  intros Hs. unfold task_step in Hs. apply bind_Some in Hs as (t & _ & Hs).
  apply bind_Some in Hs as (c & _ & Hs). destruct (task_state_of t).
  - injection Hs as Hs. by apply bind_Ret_inv in Hs as ([r w] & _ & [= <-]).
  - apply bind_Some in Hs as ([c' k] & _ & Hs). by injection Hs as <-.
  - by injection Hs as <-.
Qed.

(** ** A batch is a run *)

Lemma server_run_app es1 es2 sv sv1 :
  server_run es1 sv = Some (Ret (Some sv1)) -> server_run (es1 ++ es2) sv = server_run es2 sv1.
Proof.
  revert sv. induction es1 as [|e es1 IH]; intros sv; simpl; [by intros [= <-]|].
  destruct (server_exec e sv) as [[[sv2|]|]|]; simpl; try done. apply IH.
Qed.

(** A run that has stopped, with an exception or undefined behaviour, stays so. *)
Lemma server_run_app_stop es1 es2 sv o :
  server_run es1 sv = Some o -> (forall sv', o <> Ret (Some sv')) -> server_run (es1 ++ es2) sv = Some o.
Proof.
  revert sv. induction es1 as [|e es1 IH]; intros sv; simpl.
  - intros [= <-] Ho. by destruct (Ho sv).
  - destruct (server_exec e sv) as [[[sv2|]|]|]; simpl; try done. apply IH.
Qed.

Lemma acceptConnection_interest sys fd sock id sv sv' fd' out :
  acceptConnection sys fd sock id sv = Some sv' -> interest sv !! fd' = Some out ->
  interest sv' !! fd' = Some out.
Proof.
  unfold acceptConnection, addFd. destruct (setNonBlocking _ _); [done|]. simpl.
  destruct (interest sv !! fd) eqn:E; [done|]. destruct (_ <? 0); [done|]. intros [= <-] Hfd'.
  simpl. rewrite lookup_insert_ne; congruence.
Qed.

(** The loop of accepts is the run of its steps, exceptions included. *)
Lemma accept_loop_run answers sv o :
  server_inv sv -> accept_loop answers sv = Some o ->
  server_run (accept_steps answers) sv = Some (Ret o) /\
  forall sv', o = Some sv' -> server_inv sv' /\
    forall fd out, interest sv !! fd = Some out -> interest sv' !! fd = Some out.
Proof.
  revert sv. induction answers as [|a answers IH]; intros sv Hinv Hl; simpl in Hl.
  { injection Hl as <-. split; [done|]. by intros sv' [= <-]. }
  destruct a as [sys fd sock id| |];
    [|injection Hl as <-; (split; [done|by intros sv' [= <-]])..].
  case_decide as Hd; [|done]. pose proof Hd as (Hfd & Hsock & Hid).
  pose proof (acceptConnection_inv sys fd sock id sv Hfd Hid Hinv) as Hinv1.
  cbn [accept_steps server_run server_exec]. unfold accept_possible in Hd. rewrite decide_True by done.
  destruct (acceptConnection sys fd sock id sv) as [sv1|] eqn:Hacc; cbn [mbind option_bind].
  - destruct (IH sv1 Hinv1 Hl) as [Hrun Hend]. split; [done|]. intros sv' Ho.
    destruct (Hend sv' Ho) as [Hinv' Hi]. split; [done|]. intros fd' out Hfd'.
    by eapply Hi, acceptConnection_interest.
  - injection Hl as <-. done.
Qed.

(** One item: the single events give the same, and what was reported of the other
    descriptors still holds. *)
Lemma run_item_run server_fd item sv o :
  server_inv sv -> reported server_fd sv item -> run_item server_fd item sv = Some o ->
  server_run (item_steps server_fd item) sv = Some o /\
  forall sv', o = Ret (Some sv') -> server_inv sv' /\
    forall items, Forall (reported server_fd sv) items -> NoDup (client_fds server_fd (item :: items)) ->
      Forall (reported server_fd sv') items.
Proof.
  intros Hinv Hrep Hrun. destruct item as [now now2 fd ev accepts|i now now2 os]; simpl in *.
  - case_decide as Hfd.
    + apply fmap_Some in Hrun as (o' & Hl & ->).
      destruct (accept_loop_run accepts sv o' Hinv Hl) as [Hr Hend].
      split; [done|]. intros sv' [= ->]. destruct (Hend sv' eq_refl) as [Hinv' Hi].
      split; [done|]. intros items Hitems _.
      eapply Forall_impl; [exact Hitems|]. intros [? ? fd' ev' ?|]; simpl; [|done].
      intros [->|(out & Hout & Himp)]; eauto.
    + destruct Hrep as [Hrep|(out & Hout & Himp)]; [done|]. injection Hrun as <-.
      pose proof (handle_event_total now now2 ev fd sv Hinv) as Hend.
      cbn [server_run server_exec]. rewrite Hout, Himp. cbn [mbind option_bind].
      split; [by destruct (handle_event now now2 ev fd sv) as [[]|]|].
      intros sv' Hev. rewrite Hev in Hend. split; [apply Hend|].
      intros items Hitems [Hnotin _]%NoDup_cons. apply Forall_forall. intros item Hitem.
      rewrite Forall_forall in Hitems. specialize (Hitems item Hitem).
      destruct item as [n n2 fd' ev' acc'|]; simpl in *; [|done].
      destruct Hitems as [->|(out' & Hout' & Himp')]; [by left|]. right. exists out'. split; [|done].
      destruct (decide (fd' = server_fd)) as [->|Hfd'].
      * rewrite <- Hout'. by apply (handle_event_frame _ _ _ _ _ _ Hev).
      * rewrite <- Hout'. apply (handle_event_frame _ _ _ _ _ _ Hev). intros <-. apply Hnotin.
        apply list_elem_of_omap. exists (LEvent n n2 fd ev' acc'). split; [done|]. by rewrite decide_False.
  - rewrite Hrun. split; [by destruct o as [[]|]|].
    intros sv' ->. destruct (task_step i now now2 os sv) as [[sv1|]|] eqn:E; try done.
    injection Hrun as <-. split; [by eapply task_step_inv|]. intros items Hitems _.
    apply task_step_interest in E. eapply Forall_impl; [exact Hitems|].
    intros [? ? fd' ev' ?|]; simpl; [|done]. by rewrite E.
Qed.

(** C10: The loop handles a batch, workers interleaved, exactly as the single events it stands
    for, each valid at the moment it is handled, exceptions included: no event of the batch acts on a
    connection accepted after the batch was taken, and every run of the loop is one of
    the runs of [server_run]. *)
Theorem run_batch_refines server_fd items sv o :
  server_inv sv -> Forall (reported server_fd sv) items -> NoDup (client_fds server_fd items) ->
  run_items server_fd items sv = Some o ->
  server_run (items ≫= item_steps server_fd) sv = Some o.
Proof.
  revert sv. induction items as [|item items IH]; intros sv Hinv Hrep Hnd Hrun; [done|].
  apply Forall_cons in Hrep as [Hrep1 Hrep].
  cbn [run_items] in Hrun. apply bind_Some in Hrun as (o1 & Hitem & Hrun). rewrite bind_cons.
  destruct (run_item_run server_fd item sv o1 Hinv Hrep1 Hitem) as [Hsteps Hnext].
  destruct o1 as [[sv1|]|].
  - rewrite (server_run_app _ _ _ _ Hsteps). destruct (Hnext sv1 eq_refl) as [Hinv1 Hrep'].
    apply IH; auto. unfold client_fds in Hnd. simpl in Hnd. case_match; [by apply NoDup_cons in Hnd as [_ ?]|done].
  - injection Hrun as <-. by apply server_run_app_stop.
  - injection Hrun as <-. by apply server_run_app_stop.
Qed.
End loop.
