(* ===== verification/ServerLife.v ===== *)
(** * The life of the server: construction, signals and destruction
    ([src/server/server.cpp], [src/server/event_loop.cpp], [src/server/main.cpp])

    The constructor opens the log, starts the pool and sets up the listening socket, and
    throws when the kernel refuses; [main] installs the signal handlers and runs the loop;
    the destructor stops the log writer and closes the connections while workers may still
    run their tasks. *)

From S2P Require Import Prelude Cpp Parser Response StorageInterface AofWriter AofReplay.
From S2P Require Import Dispatcher Connection Server ServerFacts.
Local Open Scope Z_scope.

(** ** Construction *)

(** What the kernel answers to the calls of the set-up, negative for an error. *)
Record SetupSys : Type := mkSetupSys {
  sys_epoll_create : Z;
  sys_listen_socket : Z;
  sys_reuseaddr : Z;
  sys_bind : Z;
  sys_listen : Z;
  sys_getfl : Z;
  sys_setfl : Z;
  sys_epoll_add : Z
}.

(** The set-up ends with the two descriptors, or with an exception: its message, the
    descriptors that stay open although no object owns them, and whether a running pool
    was destroyed on the way out. *)
Inductive setup_result : Type :=
| SetupOk (epoll_fd server_fd : Z)
| SetupThrow (message : bytes) (leaked : list Z) (pool_destroyed : bool).

(** [EventLoop::EventLoop]: the descriptor, or the message of the exception; and its
    destructor: the descriptor it closes. *)
Definition new_event_loop (epoll_create : Z) : Z + bytes :=
  if epoll_create <? 0 then inr (str "Failed to create epoll instance") else inl epoll_create.

Definition event_loop_destroy (epoll_fd : Z) : option Z := if 0 <=? epoll_fd then Some epoll_fd else None.

(** The rest of the constructor after the log: the event loop, the pool, then the socket.
    An exception destroys the members made so far; the destructor of the event loop
    closes its descriptor, but [server_fd_] is a plain [int]. *)
Definition server_setup (port : Z) (sys : SetupSys) : setup_result :=
  match new_event_loop (sys_epoll_create sys) with
  | inr message => SetupThrow message [] false
  | inl epoll_fd =>
    let server_fd := sys_listen_socket sys in
    if server_fd <? 0 then SetupThrow (str "Failed to create socket") [] true
    else if sys_reuseaddr sys <? 0 then SetupThrow (str "Failed to set SO_REUSEADDR") [] true
    else if sys_bind sys <? 0 then
      SetupThrow (str "Failed to bind to port " ++ to_string port) [] true
    else if sys_listen sys <? 0 then SetupThrow (str "Failed to listen on socket") [] true
    else
      match setNonBlocking (sys_getfl sys) (sys_setfl sys) with
      | Some message => SetupThrow message [server_fd] true
      | None =>
          if sys_epoll_add sys <? 0 then SetupThrow (str "Failed to add fd to epoll") [server_fd] true
          else SetupOk epoll_fd server_fd
      end
  end.

Definition listening (sys : SetupSys) : Prop :=
  0 <= sys_epoll_create sys /\ 0 <= sys_listen_socket sys /\ 0 <= sys_reuseaddr sys /\
  0 <= sys_bind sys /\ 0 <= sys_listen sys.

(** The set-up succeeds exactly when no call fails.  When one fails, the exception leaves
    the listening socket open if the failing call comes after [listen], and it destroys
    the running pool unless the failing call is the first. *)
Lemma server_setup_spec port sys :
  match server_setup port sys with
  | SetupOk epoll_fd server_fd =>
      listening sys /\ 0 <= sys_getfl sys /\ 0 <= sys_setfl sys /\ 0 <= sys_epoll_add sys /\
      epoll_fd = sys_epoll_create sys /\ server_fd = sys_listen_socket sys
  | SetupThrow _ leaked pool_destroyed =>
      (sys_getfl sys < 0 \/ sys_setfl sys < 0 \/ sys_epoll_add sys < 0 \/ ~ listening sys) /\
      (leaked <> [] <-> listening sys) /\ (pool_destroyed = true <-> 0 <= sys_epoll_create sys)
  end.
Proof.
  unfold server_setup, new_event_loop, setNonBlocking, listening.
  repeat (match goal with |- context [?a <? 0] => destruct (Z.ltb_spec a 0) end;
    [split_and!; solve [lia|split; (done || lia)|tauto]|]).
  split_and!; done || lia.
Qed.

(** The whole constructor: the log first ([server_start]); [can_open] says whether the
    file opens for writing. *)
Inductive construct_result (S : Type) : Type :=
| Constructed (sv : Server S) (epoll_fd server_fd : Z)
| Thrown (message : bytes) (leaked : list Z) (pool_destroyed : bool).
Arguments Constructed {S} sv epoll_fd server_fd.
Arguments Thrown {S} message leaked pool_destroyed.

Definition server_construct {S} `{StorageOps S} (port : Z) (aof_enabled : bool) (aof_path : bytes)
    (clock : nat -> Z * Z) (now interval : Z) (file : option bytes) (can_open : bool)
    (sys : SetupSys) (s0 : S) : outcome (construct_result S) :=
  o ← server_start aof_enabled clock now interval file can_open s0;
  Ret match o with
      | None => Thrown (str "Failed to open AOF file: " ++ aof_path) [] false
      | Some sv =>
          match server_setup port sys with
          | SetupOk epoll_fd server_fd => Constructed sv epoll_fd server_fd
          | SetupThrow message leaked pool_destroyed => Thrown message leaked pool_destroyed
          end
      end.

(** ** [main]: signals and the flag [running_] *)

Inductive main_phase : Type := BeforeRun | InLoop | AfterLoop | Killed.

Record MainState : Type := mkMainState {
  phase : main_phase;
  handlers : bool;       (* both [std::signal] calls done *)
  running_ : bool
}.

(** [main] after the construction of the server. *)
Definition main_start : MainState := mkMainState BeforeRun false false.

Inductive main_event : Type :=
| MInstall      (* [std::signal(...)] *)
| MRun          (* [run]: [running_ = true] *)
| MIterate      (* [run]: [running_] is tested true and the body runs *)
| MLeave        (* [run]: [running_] is tested false *)
| MSignal.      (* SIGINT or SIGTERM arrives *)

(** A signal runs [stop], or kills the process while the default action is in place. *)
Definition main_exec (e : main_event) (st : MainState) : option MainState :=
  match e, phase st with
  | MInstall, BeforeRun => Some (mkMainState BeforeRun true (running_ st))
  | MRun, BeforeRun => if handlers st then Some (mkMainState InLoop true true) else None
  | MIterate, InLoop => if running_ st then Some st else None
  | MLeave, InLoop => if running_ st then None else Some (mkMainState AfterLoop (handlers st) false)
  | MSignal, Killed => None
  | MSignal, p => if handlers st then Some (mkMainState p true false) else Some (mkMainState Killed false false)
  | _, _ => None
  end.

Fixpoint main_run (es : list main_event) (st : MainState) : option MainState :=
  match es with
  | [] => Some st
  | e :: es' => st' ← main_exec e st; main_run es' st'
  end.

(** Once the flag is cleared in the loop, no iteration starts any more. *)
Lemma main_run_stopped es st st' :
  phase st = InLoop \/ phase st = AfterLoop -> handlers st = true -> running_ st = false ->
  main_run es st = Some st' ->
  (MIterate ∉ es) /\ (phase st' = AfterLoop \/ exists st'', main_exec MLeave st' = Some st'').
Proof.
  revert st. induction es as [|e es IH]; intros [p h r] Hp Hh Hr Hrun; simpl in *; subst.
  - injection Hrun as <-. split; [by apply not_elem_of_nil|].
    destruct Hp as [-> | ->]; [right; by eexists|by left].
  - apply bind_Some in Hrun as (st1 & He & Hrun).
    assert (H1 : (phase st1 = InLoop \/ phase st1 = AfterLoop) /\ handlers st1 = true /\
      running_ st1 = false /\ e <> MIterate).
    { destruct e, Hp as [-> | ->]; simpl in He; simplify_eq/=; auto. }
    destruct H1 as (Hp1 & Hh1 & Hr1 & Hne). destruct (IH st1 Hp1 Hh1 Hr1 Hrun) as [Hni Hl].
    split; [|done]. by apply not_elem_of_cons.
Qed.

(** The loop runs with the handlers installed. *)
Lemma main_run_handlers es st st' :
  (phase st = InLoop -> handlers st = true) -> main_run es st = Some st' ->
  phase st' = InLoop -> handlers st' = true.
Proof.
  revert st. induction es as [|e es IH]; intros st Hst Hrun; simpl in Hrun; [by injection Hrun as <-|].
  apply bind_Some in Hrun as (st1 & He & Hrun). apply (IH st1); [|done].
  destruct st as [p h r]. destruct e, p; simpl in *; try done;
    repeat case_match; simplify_eq/=; first [done|by auto|intros; simplify_eq].
Qed.

(** A signal stops the server only once [run] has set its flag: after that no further
    iteration of the loop starts and the loop can be left.  A signal that arrives after
    the handlers are installed and before is forgotten, and the loop goes on for ever. *)
Lemma signal_needs_running :
  (forall es1 es2 st st', main_run es1 main_start = Some st -> phase st = InLoop ->
     main_run (MSignal :: es2) st = Some st' ->
     (MIterate ∉ es2) /\ (phase st' = AfterLoop \/ exists st'', main_exec MLeave st' = Some st'')) /\
  (exists st, main_run [MInstall; MSignal; MRun] main_start = Some st /\
     forall n, main_run (replicate n MIterate) st = Some st).
Proof.
  split.
  - intros es1 es2 st st' Hrun Hp Hsig. cbn [main_run] in Hsig. apply bind_Some in Hsig as (st1 & He & Hrun2).
    pose proof (main_run_handlers es1 main_start st ltac:(done) Hrun Hp) as Hh.
    destruct st as [p h r]. simpl in *. subst. injection He as <-.
    by eapply main_run_stopped; [left| | |exact Hrun2].
  - eexists. split; [reflexivity|]. induction n as [|n IH]; [done|]. exact IH.
Qed.

(** ** Destruction *)

Section destructor.
Context {S : Type} `{StorageOps S}.
Implicit Types (sv : Server S).

Definition set_aof (a : option AOFWriter) sv : Server S :=
  set_world (mkWorld (disp (world sv)) (store (world sv)) a) sv.

(** [aof_writer_->stop()]: [es] are the actions of the writer thread and of producers
    while it waits; [None] when they do not end. *)
Definition stop_writer (es : list aof_event) (fio : io_result) sv : option (Server S) :=
  match aof (world sv) with
  | Some a => a' ← aof_run (EvStopStore :: es ++ [EvStopFinish fio]) a; Some (set_aof (Some a') sv)
  | None => Some sv
  end.

(** [removeFd(fd); shutdown(fd, ...); close(fd)]. *)
Definition drop_connection (fd : Z) sv : Server S :=
  let sv := removeFd fd sv in
  set_kernel (mkKernel (delete fd (fd_table (kernel sv))) (wires (kernel sv))) sv.

(** The loop over the table, and [connections_.clear()]. *)
Definition close_all sv : Server S :=
  let sv := foldr drop_connection sv (map_to_list (connections_ sv)).*1 in
  mkServer (world sv) (heap sv) ∅ (interest sv) (pool_tasks sv) (kernel sv).

(** The destructor after [stop]; also the descriptor of the listening socket, if it is
    closed. *)
Definition server_destroy (server_fd : Z) (es : list aof_event) (fio : io_result) sv
    : option (Server S * option Z) :=
  sv ← stop_writer es fio sv;
  Some (close_all sv, if 0 <=? server_fd then Some server_fd else None).

(** [~AOFWriter], later, when the pointer to the writer is destroyed: [stop] once more. *)
Definition writer_destroy (fio : io_result) sv : option (Server S) := stop_writer [] fio sv.

(** The second [stop] finds the thread joined and the file closed. *)
Lemma stop_twice es fio fio' sv sv' : stop_writer es fio sv = Some sv' -> writer_destroy fio' sv' = Some sv'.
Proof.
  unfold writer_destroy, stop_writer. destruct (aof (world sv)) as [a|] eqn:Ha; [|by intros [= <-]; rewrite Ha].
  intros Hs. apply bind_Some in Hs as (a' & Hr & [= <-]).
  change (EvStopStore :: es ++ [EvStopFinish fio]) with ((EvStopStore :: es) ++ [EvStopFinish fio]) in Hr.
  rewrite aof_run_app in Hr. apply bind_Some in Hr as (a1 & H1 & Hr). cbn [aof_run] in Hr.
  apply bind_Some in Hr as (a2 & Hf & [= <-]). simpl in Hf.
  assert (Hst : stopped_ a1 = true) by (by eapply aof_stop_stopped). rewrite Hst in Hf.
  assert (Ha2 : a2 = close_file fio a1 /\ (thread_ a1 = NotStarted \/ thread_ a1 = AofWriter.Exited)).
  { destruct (thread_ a1); simplify_eq; auto. }
  destruct Ha2 as [-> Hth]. cbn [set_aof world aof set_world mbind option_bind aof_run aof_exec app].
  assert (Hs2 : set_stopped true (close_file fio a1) = close_file fio a1).
  { destruct a1. unfold close_file. simpl in *. subst. by repeat case_match. }
  assert (Hth2 : thread_ (close_file fio a1) = thread_ a1) by (unfold close_file; by repeat case_match).
  assert (Hc : close_file fio' (close_file fio a1) = close_file fio a1).
  { unfold close_file at 2 3. destruct (file_ a1) as [f|] eqn:Ef; [destruct (is_open f) eqn:Eo|];
      unfold close_file; simpl; rewrite ?Ef, ?Eo; done. }
  rewrite Hs2. assert (stopped_ (close_file fio a1) = true) as Hst2 by (by rewrite <- Hs2).
  rewrite Hth2, Hst2. destruct Hth as [-> | ->]; simpl; by rewrite Hc.
Qed.

Lemma drop_connections_spec fds sv :
  let sv' := foldr drop_connection sv fds in
  (forall fd, interest sv' !! fd = if decide (fd ∈ fds) then None else interest sv !! fd) /\
  (forall fd, fd_table (kernel sv') !! fd = if decide (fd ∈ fds) then None else fd_table (kernel sv) !! fd) /\
  world sv' = world sv /\ pool_tasks sv' = pool_tasks sv /\ heap sv' = heap sv /\
  wires (kernel sv') = wires (kernel sv).
Proof.
  induction fds as [|fd fds IH]; simpl in *; [done|]. destruct IH as (Hi & Hf & ? & ? & ? & ?).
  split_and!; try done; intros fd'; destruct (decide (fd = fd')) as [->|Hne];
    rewrite ?lookup_delete_eq, ?lookup_delete_ne by done; rewrite ?Hi, ?Hf;
    repeat case_decide; (done || set_solver).
Qed.

(** Every connection is closed. *)
Lemma close_all_closes sv :
  server_inv sv ->
  connections_ (close_all sv) = ∅ /\ interest (close_all sv) = ∅ /\ fd_table (kernel (close_all sv)) = ∅ /\
  world (close_all sv) = world sv.
Proof.
  intros [_ (Hi & Hk & _)]. unfold close_all.
  destruct (drop_connections_spec (map_to_list (connections_ sv)).*1 sv) as (Hint & Hfd & Hw & _).
  assert (Hin : forall fd, fd ∈ (map_to_list (connections_ sv)).*1 <-> fd ∈ dom (connections_ sv)).
  { intros fd. rewrite list_elem_of_fmap, elem_of_dom. split.
    - intros ([fd' id] & -> & H1%elem_of_map_to_list). by exists id.
    - intros [id Hid]. exists (fd, id). split; [done|]. by apply elem_of_map_to_list. }
  split; [done|]. simpl. split; [|split; [|done]]; apply map_eq; intros fd; rewrite lookup_empty.
  - rewrite Hint. case_decide as Hd; [done|]. rewrite Hin, <- Hi in Hd. by apply not_elem_of_dom.
  - rewrite Hfd. case_decide as Hd; [done|]. rewrite Hin, <- Hk in Hd. by apply not_elem_of_dom.
Qed.

(** So it changes nothing after the destructor of the server. *)
Lemma writer_destroy_again server_fd es fio fio' sv sv' closed :
  server_destroy server_fd es fio sv = Some (sv', closed) -> writer_destroy fio' sv' = Some sv'.
Proof.
  intros Hd. apply bind_Some in Hd as (sv1 & Hs & [= <- _]).
  pose proof (stop_twice es fio fio' sv sv1 Hs) as Ht. unfold writer_destroy, stop_writer in *.
  destruct (drop_connections_spec (map_to_list (connections_ sv1)).*1 sv1) as (_ & _ & Hw & _).
  assert (Hwc : world (close_all sv1) = world sv1) by exact Hw. rewrite Hwc. destruct (aof (world sv1)) as [a|] eqn:Ha; [|done].
  apply bind_Some in Ht as (a' & Hr & Ha'). rewrite Hr. cbn [mbind option_bind].
  assert (a' = a) as -> by (injection Ha' as Heq; rewrite <- Heq in Ha; cbn in Ha; congruence).
  rewrite <- Ha, <- Hwc. destruct (close_all sv1) as [w ? ? ? ? ?]. by destruct w.
Qed.

(** C14: A clean shutdown, on a disk that writes what it is given: when no worker is about to
    push a line, the body of the server's destructor can complete, and however it does
    without a disk error, every line logged is in the file, every connection is closed, the
    listening socket too, and the event loop watches no connection; the destructor of the
    writer, which stops it once more, changes nothing. *)
Theorem shutdown_flushes sv now interval existing w0 es1 a server_fd :
  server_inv sv -> 0 <= server_fd -> aof (world sv) = Some a ->
  aof_start (Some existing) (new_writer now interval) = Some w0 ->
  Forall healthy es1 -> aof_run es1 w0 = Some a -> stopped_ a = false -> pushing_ a = [] ->
  (exists es2 sv', Forall healthy es2 /\ server_destroy server_fd es2 IoOk sv = Some (sv', Some server_fd)) /\
  forall es2 sv' closed, Forall healthy es2 -> server_destroy server_fd es2 IoOk sv = Some (sv', closed) ->
    exists a' f, aof (world sv') = Some a' /\ file_ a' = Some f /\ is_open f = false /\
      disk f = existing ++ lines_text (pushed es1 ++ pushed es2) /\
      connections_ sv' = ∅ /\ interest sv' = ∅ /\ fd_table (kernel sv') = ∅ /\
      forall fio, writer_destroy fio sv' = Some sv'.
Proof.
  intros Hinv Hfd Ha Hst Hh1 Hrun1 Hns Hpu. split.
  - unfold server_destroy, stop_writer. rewrite Ha, (proj2 (Z.leb_le _ _) Hfd). destruct (aof_start_ok _ _ _ Hst) as (Hok & _).
    destruct (aof_run_text es1 w0 a Hh1 Hok Hrun1) as [(f & _ & _ & Hth & _) _].
    destruct (stop_completes a) as (es2 & a' & Hh2 & _ & Hrun2); [|done|done|].
    { eapply (aof_run_inv flags_ok); [apply aof_exec_flags| |done]. by injection Hst as <-. }
    exists es2. rewrite Hrun2. by eexists.
  - intros es2 sv' closed Hh2 Hd. pose proof (fun fio => writer_destroy_again _ _ _ fio _ _ _ Hd) as Hagain.
    apply bind_Some in Hd as (sv1 & Hd & [= <- <-]). unfold stop_writer in Hd. rewrite Ha in Hd. apply bind_Some in Hd as (a' & Hrun2 & [= <-]).
    destruct (stop_flushes now interval existing w0 es1 a es2 a') as (f & Hf & Hop & _ & _ & Hdisk); try done.
    destruct (close_all_closes (set_aof (Some a') sv)) as (H1 & H2 & H3 & H4); [done|].
    exists a', f. rewrite H4. done.
Qed.
End destructor.

Section acknowledged.
Context {S : Type} `{StorageLaws S}.
Implicit Types (sv : Server S).

Lemma task_dispatches i id cmd c now now2 os r w sv :
  pool_tasks sv !! i = Some (mkTask id cmd TDispatch) -> heap sv !! id = Some c ->
  dispatch now now2 cmd (world sv) = Ret (r, w) ->
  task_step i now now2 os sv =
    Some (Ret (set_tasks (<[i := mkTask id cmd (TSend r)]> (pool_tasks sv)) (set_world w sv))).
Proof. intros Hi Hid Hd. unfold task_step. rewrite Hi. simpl. rewrite Hid. simpl. by rewrite Hd. Qed.

Lemma task_sends i id cmd c c' k now now2 os r sv :
  pool_tasks sv !! i = Some (mkTask id cmd (TSend r)) -> heap sv !! id = Some c ->
  send_to_fd os r c (kernel sv) = Some (c', k) ->
  task_step i now now2 os sv =
    Some (Ret (set_tasks (<[i := mkTask id cmd TClear]> (pool_tasks sv))
                 (set_kernel k (set_conn id c' sv)))).
Proof. intros Hi Hid Hs. unfold task_step. rewrite Hi. simpl. rewrite Hid. simpl. by rewrite Hs. Qed.

(** C37: The writer is stopped before the workers: a SET a worker runs after that changes the
    storage and is answered with OK, but the log refuses its line.  The client's write is
    acknowledged and its line is not in the log. *)
Theorem shutdown_loses_acknowledged sv i id c sock k v a es fio a' now now2 :
  store_inv (store (world sv)) -> aof (world sv) = Some a ->
  aof_run (EvStopStore :: es ++ [EvStopFinish fio]) a = Some a' ->
  pool_tasks sv !! i = Some (mkTask id (mkCommand SET [k; v]) TDispatch) ->
  heap sv !! id = Some c -> fd_table (kernel sv) !! fd_ c = Some sock ->
  exists sv1 sv2, stop_writer es fio sv = Some sv1 /\
    server_run [SvTask i now now2 []; SvTask i now now2 [Sent 4]] sv1 = Some (Ret (Some sv2)) /\
    aof (world sv2) = Some a' /\ view (store (world sv2)) k = Some (v, None) /\
    wire_of sock (kernel sv2) = wire_of sock (kernel sv) ++ okResponse.
Proof.
  intros Hinv Ha Hrun Hi Hid Hfd. unfold stop_writer. rewrite Ha, Hrun. simpl.
  destruct (law_set (store (world sv)) k v Hinv) as (s' & Hop & _ & Hk & _).
  apply aof_stop_stopped in Hrun. eexists _, _. split; [reflexivity|].
  assert (Hlog : logSet k v a' = a') by (unfold logSet, enqueue; rewrite Hrun; by case_match).
  pose proof (lookup_lt_Some _ _ _ Hi) as Hlt. cbn [server_run].
  erewrite task_dispatches; [|exact Hi|exact Hid|].
  2:{ unfold dispatch. simpl. by rewrite Hop. }
  cbn [mbind option_bind]. erewrite task_sends; [|by apply list_lookup_insert_eq|exact Hid|].
  2:{ unfold send_to_fd. simpl. by rewrite Hfd. }
  split; [reflexivity|]. simpl. rewrite Hlog. split; [done|]. split; [done|].
  unfold wire_of, set_wire. simpl. by rewrite lookup_insert_eq.
Qed.
End acknowledged.
