(* ===== verification/Main.v ===== *)
(** * The main program ([src/server/main.cpp])

    The command line of the server: options, the legacy positional arguments, and the
    values the server is constructed with. *)

From S2P Require Import Prelude Cpp.
Local Open Scope Z_scope.

(** ** Operations *)

Record Options : Type := mkOptions {
  opt_port : Z;
  opt_threads : Z;          (* 0 means automatic *)
  opt_aof_enabled : bool;
  opt_aof_path : bytes
}.

Definition default_options : Options := mkOptions 6380 0 true (str "./cache.aof").

(** How the loop over the arguments ends: the server runs, or [main] returns. *)
Inductive args_result : Type :=
| Run (o : Options)
| Usage
| Fail (message : bytes).

Definition with_port (p : Z) (o : Options) : Options :=
  mkOptions (p mod 2 ^ 16) (opt_threads o) (opt_aof_enabled o) (opt_aof_path o).
Definition with_threads (t : Z) (o : Options) : Options :=
  mkOptions (opt_port o) (t mod 2 ^ 64) (opt_aof_enabled o) (opt_aof_path o).
Definition with_aof_enabled (b : bool) (o : Options) : Options :=
  mkOptions (opt_port o) (opt_threads o) b (opt_aof_path o).
Definition with_aof_path (p : bytes) (o : Options) : Options :=
  mkOptions (opt_port o) (opt_threads o) (opt_aof_enabled o) p.

Definition parse_port (s : bytes) : Z + bytes :=
  match stoi s with
  | Conv p => if (p <? 1) || (65535 <? p)
              then inr (str "Error: port must be between 1 and 65535") else inl p
  | InvalidArgument | OutOfRange => inr (str "Error: invalid port number")
  end.

Definition parse_threads (s : bytes) : Z + bytes :=
  match stoi s with
  | Conv t => if t <=? 0
              then inr (str "Error: thread count must be greater than 0") else inl t
  | InvalidArgument | OutOfRange => inr (str "Error: invalid thread count")
  end.

(** [argv[i][0] != '-']; the first character of an empty argument is the terminator. *)
Definition positional (a : bytes) : bool := negb (bool_decide (head a = Some "-"%char)).

Definition is_arg (a : bytes) (names : list string) : bool :=
  bool_decide (a ∈ str <$> names).

(** The loop over the arguments after the program's name. *)
Fixpoint parse_args (argv : list bytes) (o : Options) : args_result :=
  match argv with
  | [] => Run o
  | a :: rest =>
      if is_arg a ["-p"; "--port"]%string then
        match rest with
        | [] => Run o
        | v :: rest' =>
            match parse_port v with
            | inl p => parse_args rest' (with_port p o)
            | inr e => Fail e
            end
        end
      else if is_arg a ["-t"; "--threads"]%string then
        match rest with
        | [] => Run o
        | v :: rest' =>
            match parse_threads v with
            | inl t => parse_args rest' (with_threads t o)
            | inr e => Fail e
            end
        end
      else if is_arg a ["--aof-enabled"]%string then
        match rest with
        | [] => Run o
        | v :: rest' => parse_args rest' (with_aof_enabled (is_arg v ["true"; "1"]%string) o)
        end
      else if is_arg a ["--aof-path"]%string then
        match rest with
        | [] => Run o
        | v :: rest' => parse_args rest' (with_aof_path v o)
        end
      else if is_arg a ["-h"; "--help"]%string then Usage
      else if positional a then
        match parse_port a with
        | inr e => Fail e
        | inl p =>
            match rest with
            | v :: rest' =>
                if positional v then
                  match parse_threads v with
                  | inl t => parse_args rest' (with_threads t (with_port p o))
                  | inr e => Fail e
                  end
                else parse_args rest (with_port p o)
            | [] => Run (with_port p o)
            end
        end
      else parse_args rest o
  end.

(** ** Properties *)

(** A configuration the server may be started with. *)
Definition options_ok (o : Options) : Prop :=
  1 <= opt_port o <= 65535 /\ 0 <= opt_threads o <= INT_MAX.

Lemma parse_port_range s p : parse_port s = inl p -> 1 <= p <= 65535.
Proof.
  unfold parse_port. destruct (stoi s) as [z| |]; try done.
  destruct (Z.ltb_spec z 1); [done|]. destruct (Z.ltb_spec 65535 z); [done|]. intros [= <-]. lia.
Qed.

Lemma parse_threads_range s t : parse_threads s = inl t -> 1 <= t <= INT_MAX.
Proof.
  unfold parse_threads. destruct (stoi s) as [z| |] eqn:E; try done.
  apply strtol_range in E. destruct (Z.leb_spec z 0); [done|]. intros [= <-]. lia.
Qed.

Lemma with_port_ok p o : 1 <= p <= 65535 -> options_ok o -> options_ok (with_port p o).
Proof. intros Hp [_ Ht]. split; [|done]. simpl. rewrite Z.mod_small by lia. done. Qed.

Lemma with_threads_ok t o : 1 <= t <= INT_MAX -> options_ok o -> options_ok (with_threads t o).
Proof.
  intros Ht [Hp _]. split; [done|]. simpl. unfold INT_MAX in *.
  rewrite Z.mod_small by lia. lia.
Qed.

Lemma parse_args_ok argv o o' : options_ok o -> parse_args argv o = Run o' -> options_ok o'.
Proof.
  remember (length argv) as n eqn:Hn. revert argv Hn o.
  induction n as [n IH] using lt_wf_ind. intros argv -> o Ho.
  destruct argv as [|a rest]; [by intros [= <-]|]. simpl.
  assert (Hrec : forall l o1, (length l <= length rest)%nat -> options_ok o1 ->
    parse_args l o1 = Run o' -> options_ok o').
  { intros l o1 Hl. apply (IH (length l)); [simpl; lia|done]. }
  repeat case_match; simplify_eq; try done;
    repeat match goal with
    | H : parse_port _ = inl _ |- _ => apply parse_port_range in H
    | H : parse_threads _ = inl _ |- _ => apply parse_threads_range in H
    end; intros Hr; simplify_eq;
    try (refine (Hrec _ _ _ _ Hr); [simpl; lia|]);
    auto using with_port_ok, with_threads_ok.
Qed.

(** Whatever the command line, a server that is started gets a port from 1 to 65535 and
    a number of threads that is 0, for automatic, or fits an int. *)
Lemma parse_args_range argv o : parse_args argv default_options = Run o -> options_ok o.
Proof. apply parse_args_ok. unfold options_ok, INT_MAX. simpl. lia. Qed.

(** The command line that asks for a configuration. *)
Definition print_options (o : Options) : list bytes :=
  [str "--port"; to_string (opt_port o); str "--threads"; to_string (opt_threads o);
   str "--aof-enabled"; if opt_aof_enabled o then str "true" else str "false";
   str "--aof-path"; opt_aof_path o].

(** Every configuration with an explicit number of threads can be asked for. *)
Lemma parse_args_roundtrip o :
  options_ok o -> opt_threads o <> 0 -> parse_args (print_options o) default_options = Run o.
Proof.
  intros [Hp Ht] Hnz. destruct o as [port threads en path]. simpl in *.
  assert (HP : parse_port (to_string port) = inl port).
  { unfold parse_port. rewrite stoi_to_string by (unfold in_int, INT_MIN, INT_MAX; lia).
    destruct (Z.ltb_spec port 1); [lia|]. by destruct (Z.ltb_spec 65535 port); [lia|]. }
  assert (HT : parse_threads (to_string threads) = inl threads).
  { unfold parse_threads. rewrite stoi_to_string by (unfold in_int, INT_MIN in *; lia).
    by destruct (Z.leb_spec threads 0); [lia|]. }
  unfold print_options. cbn [opt_port opt_threads opt_aof_enabled opt_aof_path parse_args].
  rewrite HP, HT. unfold INT_MAX in *. unfold with_port, with_threads. simpl.
  rewrite !Z.mod_small by lia. by destruct en.
Qed.
