(* ===== verification/Process.v ===== *)
(** * The server process, from its command line to the end of its destructor

    [main] reads the command line and constructs the server; then the event loop, the
    calls of the workers, the thread of the log writer and the expiration thread run
    interleaved; a signal ends the loop and the destructor stops the writer.  The last
    theorem composes everything before it: what a process stored is there when the next
    process has started on its log. *)

From S2P Require Import Prelude Cpp Lru Parser Response StorageInterface AofFormat AofWriter.
From S2P Require Import AofReplay Dispatcher DispatcherFacts Recovery Restarts LogOrder SplitLog.
From S2P Require Import Connection Server ServerFacts FineServer ServerLoop ServerLife Main.
Local Open Scope Z_scope.

(** ** [main] up to the loop *)

(** What [main] writes before it constructs the server. *)
Definition start_text (o : Options) : bytes :=
  str "CacheForge server starting on port " ++ to_string (opt_port o) ++
  (if opt_aof_enabled o then str " (AOF: " ++ opt_aof_path o ++ str ")" else []) ++
  str "..." ++ [ch_nl].

Definition printUsage (program : bytes) : bytes :=
  concat (map (fun line => line ++ [ch_nl])
    [str "Usage: " ++ program ++ str " [options]"; str "Options:";
     str "  -p, --port <port>       Port to listen on (default: 6380)";
     str "  -t, --threads <num>     Number of worker threads (default: auto)";
     str "  --aof-enabled <bool>    Enable AOF persistence (default: true)";
     str "  --aof-path <path>       Path to AOF file (default: ./cache.aof)";
     str "  -h, --help              Show this help message"]).

(** [main] returns with a code, having written on the two streams itself, or it is about
    to run the loop. *)
Inductive launched (S : Type) : Type :=
| Exits (code : Z) (out err : bytes)
| Serves (out : bytes) (sv : Server S) (epoll_fd server_fd : Z).
Arguments Exits {S} code out err.
Arguments Serves {S} out sv epoll_fd server_fd.

(** What the process finds: the files and which of them open for writing, the clocks
    during the replay and after it, and the answers of the kernel to the set-up. *)
Record LaunchEnv : Type := mkLaunchEnv {
  le_files : bytes -> option bytes;
  le_can_open : bytes -> bool;
  le_clock : nat -> Z * Z;
  le_now : Z;
  le_interval : Z;
  le_sys : SetupSys
}.

Definition launch {S} `{StorageOps S} (program : bytes) (argv : list bytes) (env : LaunchEnv) (s0 : S)
    : outcome (launched S) :=
  match parse_args argv default_options with
  | Usage => Ret (Exits 0 (printUsage program) [])
  | Fail message => Ret (Exits 1 [] (message ++ [ch_nl]))
  | Run o =>
      r ← server_construct (opt_port o) (opt_aof_enabled o) (opt_aof_path o) (le_clock env) (le_now env)
            (le_interval env) (le_files env (opt_aof_path o)) (le_can_open env (opt_aof_path o))
            (le_sys env) s0;
      Ret match r with
          | Constructed sv epoll_fd server_fd => Serves (start_text o) sv epoll_fd server_fd
          | Thrown message _ _ => Exits 1 (start_text o) (str "Error: " ++ message ++ [ch_nl])
          end
  end.

(** ** The threads of the process *)

(** A step of the event loop, of a worker, of the thread of the log writer, or a sweep of
    one shard by the expiration thread. *)
Inductive process_event : Type :=
| PLoop (item : loop_item)
| PWork (e : work_event)
| PWriter (e : aof_event)
| PSweep (i : nat) (now : Z) (order : list bytes).

(** The actions of the writer's thread. *)
Definition writer_action (e : aof_event) : bool :=
  match e with EvTake | EvWrite _ _ _ | EvSpill _ => true | _ => false end.

Section process.
Context {S : Type} `{StorageOps S}.
Implicit Types (sv : Server S) (fs : FineServer S).

Definition on_world (w : World S) fs : FineServer S := mkFine (set_world w (base fs)) (logs fs).

Definition process_exec (server_fd : Z) (e : process_event) fs : option (outcome (option (FineServer S))) :=
  let w := world (base fs) in
  match e with
  | PLoop (LTask _ _ _ _) => None
  | PLoop item => on_base (run_item server_fd item) fs
  | PWork e => fine_exec (FWork e) fs
  | PWriter e =>
      if writer_action e then
        a ← aof w; a' ← aof_exec e a; Some (Ret (Some (on_world (mkWorld (disp w) (store w) (Some a')) fs)))
      else None
  | PSweep i now order =>
      Some (s' ← op_sweep i now order (store w); Ret (Some (on_world (mkWorld (disp w) s' (aof w)) fs)))
  end.

Fixpoint process_run (server_fd : Z) (es : list process_event) fs : option (outcome (option (FineServer S))) :=
  match es with
  | [] => Some (Ret (Some fs))
  | e :: es' =>
      o ← process_exec server_fd e fs;
      match o with
      | Ret (Some fs') => process_run server_fd es' fs'
      | other => Some other
      end
  end.
End process.

Lemma process_run_app {S} `{StorageOps S} server_fd es1 es2 (fs fs1 : FineServer S) :
  process_run server_fd es1 fs = Some (Ret (Some fs1)) ->
  process_run server_fd (es1 ++ es2) fs = process_run server_fd es2 fs1.
Proof.
  revert fs. induction es1 as [|e es1 IH]; intros fs; simpl; [by intros [= <-]|].
  destruct (process_exec server_fd e fs) as [[[fs2|]|]|]; simpl; try done. apply IH.
Qed.

(** ** The log of a process *)

(** Producers that push their lines one after the other. *)
Definition push_all (lines : list bytes) : list aof_event := lines ≫= fun l => [EvCheck l; EvPush l].

Lemma push_all_healthy lines : Forall healthy (push_all lines).
Proof. induction lines as [|l lines IH]; [done|]. by repeat constructor. Qed.

Lemma push_all_pushed lines : pushed (push_all lines) = lines.
Proof. induction lines as [|l lines IH]; [done|]. unfold push_all in *. rewrite bind_cons. simpl. by rewrite IH. Qed.

(** Logging lines is such a run. *)
Lemma push_all_run lines a :
  accepting a -> pushing_ a = [] -> aof_run (push_all lines) a = Some (append_log lines a).
Proof.
  revert a. induction lines as [|l lines IH]; intros a Hacc Hp; [by rewrite append_log_nil|].
  unfold push_all in *. rewrite bind_cons. destruct Hacc as [He Hs]. simpl. rewrite He, Hs. simpl.
  rewrite decide_True by done. simpl.
  change (set_queue (queue_ a ++ [l]) (set_pushing (pushing_ a) (set_pushing (l :: pushing_ a) a)))
    with (append_log [l] (set_pushing (pushing_ a) a)).
  assert (Heq : set_pushing (pushing_ a) a = a) by (by destruct a).
  rewrite Heq, IH by done. by rewrite append_log_app.
Qed.

Lemma writer_action_frame e a a' :
  writer_action e = true -> accepting a -> pushing_ a = [] -> aof_exec e a = Some a' ->
  accepting a' /\ pushing_ a' = [] /\ pushed [e] = [].
Proof.
  unfold accepting. intros He [Hen Hst] Hp Hex. destruct e; try done; simpl in Hex.
  - destruct (thread_ a); simplify_eq. unfold take_batch. by case_match.
  - destruct (thread_ a); simplify_eq. unfold write_batch. simpl.
    repeat case_match; simpl in *; simplify_eq/=; done.
  - by simplify_eq/=.
Qed.

Section log.
Context {S : Type} `{StorageLaws S}.
Context (K : gset bytes) (T : Z) (existing : bytes) (a0 : AOFWriter).
Implicit Types (sv : Server S) (w : World S) (fs : FineServer S) (L : gmap nat log_call).

(** The writer [a] was fed [lines] since it was [a0], and is ready for more. *)
Definition fed (lines : list bytes) (a : AOFWriter) : Prop :=
  accepting a /\ pushing_ a = [] /\
  exists es, Forall healthy es /\ aof_run es a0 = Some a /\ pushed es = lines.

Lemma fed_append lines more a : fed lines a -> fed (lines ++ more) (append_log more a).
Proof.
  intros (Hacc & Hp & es & Hh & Hrun & <-). split; [done|]. split; [done|].
  exists (es ++ push_all more). split; [apply Forall_app; split; [done|apply push_all_healthy]|].
  rewrite aof_run_app, Hrun, pushed_app, push_all_pushed. split; [by apply push_all_run|done].
Qed.

Lemma fed_writer lines e a a' :
  fed lines a -> writer_action e = true -> healthy e -> aof_exec e a = Some a' -> fed lines a'.
Proof.
  intros (Hacc & Hp & es & Hh & Hrun & Hl) He Hhe Hex.
  destruct (writer_action_frame e a a' He Hacc Hp Hex) as (Hacc' & Hp' & Hpe).
  split; [done|]. split; [done|]. exists (es ++ [e]). split; [by apply Forall_app; split; [|constructor]|].
  rewrite aof_run_app, Hrun, pushed_app, Hpe, app_nil_r. simpl. by rewrite Hex.
Qed.

(** What holds of the world of a process with the log calls [L] on their way: the storage
    is the map [m], and the file followed by the lines given to the writer is the text of
    entries that agree with it up to [L]. *)
Definition process_world w L : Prop :=
  exists m a lines ents, refines_kv K w m /\ aof w = Some a /\ fed lines a /\
    existing ++ lines_text lines = lines_text (entry_line <$> ents) /\ Forall (entry_ok K T) ents /\
    (forall id e, on_its_way L id e -> entry_ok K T e) /\ separate L /\ agrees_upto L m (log_kv ents).

Definition request_ok (req : Z * Z * Command) : Prop :=
  req_ok req /\ req_within K req /\ req_loggable T req.

Lemma process_world_store now now2 cmd w L id :
  request_ok (now, now2, cmd) -> L !! id = None ->
  (forall r w' l, dispatch_store now now2 cmd w = Ret (r, w', l) -> no_overlap l L) -> process_world w L ->
  exists r w' l, dispatch_store now now2 cmd w = Ret (r, w', l) /\ process_world w' (<[id := l]> L).
Proof.
  intros (Hok & Hin & Hlog) Hid Hno (m & a & lines & ents & Hm & Ha & Hfed & Htext & Hents & HL & Hsep & Hag).
  destruct (dispatch_store_refines K now now2 cmd w m Hok Hin Hm) as (r & w' & Hd & Ha' & Hm').
  pose proof (ref_call_effect K T now now2 cmd m Hin Hlog) as Heff.
  destruct (agrees_upto_store K T L id _ m _ (log_kv ents) Hid Hsep (Hno _ _ _ Hd) Heff Hag) as [Hsep' Hag'].
  eexists r, w', _. split; [done|]. exists (ref_dispatch now now2 cmd m).2, a, lines, ents.
  rewrite Ha'. split_and!; try done. intros id' e. rewrite on_its_way_insert by done.
  intros [[_ He]|Hw]; [|by eapply HL]. unfold call_effect in Heff. rewrite He in Heff. apply Heff.
Qed.

Lemma process_world_log w L id l :
  L !! id = Some l -> process_world w L -> process_world (dispatch_log_call l w) (delete id L).
Proof.
  intros Hl (m & a & lines & ents & Hm & Ha & Hfed & Htext & Hents & HL & Hsep & Hag).
  destruct (agrees_upto_log L id l m _ Hl Hsep Hag) as [Hsep' Hag'].
  set (new := option_list (call_entry l)) in *.
  exists m, (append_log (entry_line <$> new) a), (lines ++ (entry_line <$> new)), (ents ++ new).
  split; [done|]. split; [simpl; rewrite Ha; simpl; by rewrite run_log_append by apply Hfed|].
  split; [by apply fed_append|]. split; [by rewrite lines_text_app, app_assoc, Htext, fmap_app, lines_text_app|].
  split; [|split; [|split]].
  - apply Forall_app. split; [done|]. unfold new. destruct (call_entry l) as [e|] eqn:E; [|done].
    apply Forall_singleton. apply (HL id). by exists l.
  - intros id' e [_ Hw]%on_its_way_delete. by eapply HL.
  - done.
  - unfold log_kv in *. by rewrite foldl_app.
Qed.

Lemma process_world_sweep i now order w L :
  sweep_ok i order (store w) -> process_world w L ->
  exists s', op_sweep i now order (store w) = Ret s' /\ process_world (mkWorld (disp w) s' (aof w)) L.
Proof.
  intros Hok (m & a & lines & ents & (Hinv & Hfit & Hst & Hview) & Ha & Hfed & Htext & Hents & HL & Hsep & Hag).
  destruct (law_sweep i now order (store w) Hinv Hok) as (s' & Hs & Hinv' & Hv' & Hfit').
  exists s'. split; [done|]. exists (view s'), a, lines, ents.
  split; [split; [done|]; split; [by apply Hfit'|done]|]. split_and!; try done.
  eapply agrees_upto_sweep; [|exact Hag]. intros k. rewrite <- Hview.
  destruct (Hv' k) as [->|[-> Hl]]; [by left|right; eauto].
Qed.

(** ** Every step *)

Definition process_ok fs : Prop :=
  server_inv (base fs) /\ logs_owned fs /\ process_world (world (base fs)) (logs fs).

(** What a step needs: a kernel that grants [fcntl] and [epoll_ctl]; a disk that writes what
    it is given; a sweep that traverses the shard; a request that is sound and whose log
    call is about no key with a log call on its way. *)
Definition step_ok (e : process_event) fs : Prop :=
  match e with
  | PLoop item => item_granted item
  | PWriter e => healthy e
  | PSweep i _ order => sweep_ok i order (store (world (base fs)))
  | PWork (WkStore i now now2) =>
      forall t, pool_tasks (base fs) !! i = Some t -> task_state_of t = TDispatch ->
        request_ok (now, now2, task_cmd t) /\
        forall r w l, dispatch_store now now2 (task_cmd t) (world (base fs)) = Ret (r, w, l) ->
          no_overlap l (logs fs)
  | PWork _ => True
  end.

Fixpoint run_ok (server_fd : Z) (es : list process_event) fs : Prop :=
  match es with
  | [] => True
  | e :: es' =>
      step_ok e fs /\
      match process_exec server_fd e fs with Some (Ret (Some fs')) => run_ok server_fd es' fs' | _ => True end
  end.

Lemma run_ok_cons server_fd e es fs fs' :
  step_ok e fs -> process_exec server_fd e fs = Some (Ret (Some fs')) -> run_ok server_fd es fs' ->
  run_ok server_fd (e :: es) fs.
Proof. intros Ho He Hr. simpl. by rewrite He. Qed.

Lemma run_ok_app server_fd es1 es2 fs fs1 :
  run_ok server_fd es1 fs -> process_run server_fd es1 fs = Some (Ret (Some fs1)) ->
  run_ok server_fd es2 fs1 -> run_ok server_fd (es1 ++ es2) fs.
Proof.
  revert fs. induction es1 as [|e es1 IH]; intros fs; simpl; [by intros _ [= <-]|].
  destruct (process_exec server_fd e fs) as [[[fs2|]|]|]; simpl; try done. intros [He Hr] Hrun Hr2.
  split; [done|]. by apply IH.
Qed.

Lemma accept_loop_frame answers sv sv' :
  accept_loop answers sv = Some (Some sv') -> world sv' = world sv /\ pool_tasks sv' = pool_tasks sv.
Proof.
  revert sv. induction answers as [|[sys fd sock id| |] answers IH]; intros sv; simpl; try (by intros [= <-]).
  case_decide; [|done]. destruct (acceptConnection sys fd sock id sv) as [sv1|] eqn:E; [|done].
  intros [-> ->]%IH. unfold acceptConnection, addFd in E. repeat case_match; try done. by injection E as <-.
Qed.

(** Without a refusal the loop of accepts does not throw. *)
Lemma accept_loop_granted answers sv o :
  server_inv sv -> Forall answer_granted answers -> accept_loop answers sv = Some o ->
  exists sv', o = Some sv'.
Proof.
  intros Hinv Hok. revert sv Hinv. induction Hok as [|a answers Ha _ IH]; intros sv Hinv Hl; simpl in Hl.
  { injection Hl as <-. eauto. }
  destruct a as [sys fd sock id| |]; [|by injection Hl as <-; eauto..].
  case_decide as Hd; [|done]. destruct Hd as (Hfd & _ & Hid).
  destruct (ends_granted _ _ _ Ha (acceptConnection_inv sys fd sock id sv Hfd Hid Hinv)) as (sv1 & Hacc & Hinv1).
  injection Hacc as Hacc. rewrite Hacc in Hl. by apply (IH sv1).
Qed.

(** The event loop keeps the tables, never touches the world, and only adds tasks. *)
Lemma loop_item_ok server_fd now now2 fd ev accepts sv o :
  server_inv sv -> item_granted (LEvent now now2 fd ev accepts) ->
  run_item server_fd (LEvent now now2 fd ev accepts) sv = Some o ->
  exists sv', o = Ret (Some sv') /\ server_inv sv' /\ world sv' = world sv /\
    submits sv sv'.
Proof.
  intros Hinv [Hev Hacc] Hx. simpl in Hx. case_decide.
  - apply fmap_Some in Hx as (o' & Hl & ->).
    destruct (accept_loop_granted accepts sv o' Hinv Hacc Hl) as [sv' ->].
    destruct (accept_loop_run accepts sv _ Hinv Hl) as [_ Hend].
    destruct (accept_loop_frame accepts sv sv' Hl) as [Hw Ht].
    exists sv'. split_and!; [done|by apply Hend|done|by apply submits_none].
  - injection Hx as <-.
    destruct (ends_granted _ _ _ Hev (handle_event_total now now2 ev fd sv Hinv)) as (sv' & Hret & Hinv' & Hw').
    exists sv'. split_and!; [done..|]. by apply (handle_event_frame _ _ _ _ _ _ Hret).
Qed.

Lemma work_ok e fs o :
  process_ok fs -> step_ok (PWork e) fs -> work_exec e fs = Some o ->
  exists fs', o = Ret fs' /\ process_ok fs'.
Proof.
  intros (Hinv & Hown & Hw) He Hx.
  assert (Hstep : exists fs', o = Ret fs' /\ process_world (world (base fs')) (logs fs')).
  { destruct e as [i now now2|i|i o'|i]; simpl in Hx; apply bind_Some in Hx as (t & Hi & Hx).
    - destruct (logs fs !! task_conn t) eqn:Hl, (task_state_of t) eqn:Hst; try done.
      destruct (He t Hi Hst) as [Hreq Hno].
      destruct (process_world_store now now2 (task_cmd t) _ _ (task_conn t) Hreq Hl Hno Hw)
        as (r & w' & l & Hd & Hw'). rewrite Hd in Hx. injection Hx as <-. by eexists.
    - apply bind_Some in Hx as (l & Hl & [= <-]). eexists. split; [reflexivity|]. by apply process_world_log.
    - destruct (logs fs !! task_conn t), (task_state_of t); try done.
      apply bind_Some in Hx as (c & _ & Hx). destruct (send_once _ _ _ _) as [[c' k] st].
      injection Hx as <-. by eexists.
    - destruct (task_state_of t); try done. apply bind_Some in Hx as (c & _ & [= <-]). by eexists. }
  destruct Hstep as (fs' & -> & Hw'). exists fs'. split; [done|].
  split; [by eapply work_exec_inv|]. split; [by eapply work_exec_owned|done].
Qed.

Lemma process_exec_ok server_fd e fs o :
  process_ok fs -> step_ok e fs -> process_exec server_fd e fs = Some o ->
  exists fs', o = Ret (Some fs') /\ process_ok fs'.
Proof.
  intros Hfs He Hx. pose proof Hfs as (Hinv & Hown & Hw). destruct e as [[now now2 fd ev accepts|]|e|e|i now order].
  - cbn [process_exec] in Hx. unfold on_base in Hx. apply bind_Some in Hx as (o' & Ho' & [= <-]).
    destruct (loop_item_ok _ _ _ _ _ _ _ _ Hinv He Ho') as (sv' & -> & Hinv' & Hw' & Ht).
    eexists. split; [reflexivity|]. split; [done|]. split; [|simpl; by rewrite Hw'].
    apply logs_owned_more; [|done]. destruct Ht as (new & Hn & _). by exists new.
  - done.
  - simpl in Hx. apply bind_Some in Hx as (o' & Ho' & [= <-]).
    destruct (work_ok e fs o' Hfs He Ho') as (fs' & -> & Hfs'). by exists fs'.
  - simpl in Hx. destruct (writer_action e) eqn:Ea; [|done].
    destruct Hw as (m & a & lines & ents & Hm & Ha & Hfed & Hrest). rewrite Ha in Hx. simpl in Hx.
    apply bind_Some in Hx as (a' & Hex & [= <-]). eexists. split; [done|].
    split; [by apply set_world_inv|]. split; [done|].
    exists m, a', lines, ents. split; [done|]. split; [done|]. split; [by eapply fed_writer|done].
  - simpl in Hx. destruct (process_world_sweep i now order _ _ He Hw) as (s' & Hs & Hw').
    rewrite Hs in Hx. injection Hx as <-. eexists. split; [reflexivity|]. by split; [apply set_world_inv|].
Qed.

(** The log calls on their way can be made, with no other step in between. *)
Lemma log_calls_complete server_fd fs :
  process_ok fs ->
  exists es fs', run_ok server_fd (PWork <$> es) fs /\
    process_run server_fd (PWork <$> es) fs = Some (Ret (Some fs')) /\ logs fs' = ∅ /\ process_ok fs' /\
    pool_tasks (base fs') = pool_tasks (base fs).
Proof.
  intros Hfs. destruct (logs_complete fs) as (es & fs' & Hrun & Hnone & Htasks & Hes); [by apply Hfs|].
  exists es, fs'. rewrite Htasks. clear Htasks. revert fs Hfs Hrun.
  induction Hes as [|e es [i ->] Hes IH]; intros fs Hfs Hrun.
  { injection Hrun as ->. done. }
  rewrite fmap_cons in *. cbn [fine_run process_run process_exec run_ok] in *.
  apply bind_Some in Hrun as (o & Hx & Hrun). rewrite Hx. cbn [mbind option_bind].
  destruct (process_exec_ok server_fd (PWork (WkLog i)) fs o Hfs I Hx) as (fs1 & -> & Hfs1).
  destruct (IH fs1 Hfs1 Hrun) as (Hro & Hrun' & Hnil & Hok & _). done.
Qed.

Lemma process_run_ok server_fd es fs o :
  process_ok fs -> run_ok server_fd es fs -> process_run server_fd es fs = Some o ->
  exists fs', o = Ret (Some fs') /\ process_ok fs'.
Proof.
  revert fs. induction es as [|e es IH]; intros fs Hfs Hok Hrun; simpl in *.
  { injection Hrun as <-. eauto. }
  destruct Hok as [He Hok]. apply bind_Some in Hrun as (o1 & Hx & Hrun). rewrite Hx in Hok.
  destruct (process_exec_ok server_fd e fs o1 Hfs He Hx) as (fs1 & -> & Hfs1). by apply (IH fs1).
Qed.
End log.

(** ** Lives of the process *)

Section lives.
Context {S : Type} `{StorageLaws S}.
Context (K : gset bytes) (T : Z) (program path : bytes).
Implicit Types (sv : Server S) (s : S) (m : kv).

(** A command line that asks for the log at [path]; a log file with the contents [file]
    that can be opened; a replay within the second that starts at [t]; a kernel that
    grants the set-up; an empty storage with room for the keys of [K]. *)
Record starts (file : option bytes) (argv : list bytes) (env : LaunchEnv) (t : Z) s : Prop := mkStarts {
  st_options : exists o, parse_args argv default_options = Run o /\ opt_aof_enabled o = true /\
    opt_aof_path o = path;
  st_file : le_files env path = file /\ le_can_open env path = true;
  st_clock : 0 <= t <= T /\ replay_clock t (le_clock env) /\ clock_reading (le_now env);
  st_sys : forall port, server_setup port (le_sys env) =
    SetupOk (sys_epoll_create (le_sys env)) (sys_listen_socket (le_sys env));
  st_store : empty_store K s
}.

(** [lives file m]: after some processes, one after the other, the log file is [file] and
    the storage of the last one held [m] at its end.  A process is launched, runs its
    threads in any interleaving, and its destructor stops the log writer when no log call
    is on its way and no worker makes one any more. *)
Inductive lives : option bytes -> kv -> Prop :=
| lives_none : lives None kv_empty
| lives_next file m argv env t s0 out sv0 epoll_fd server_fd es fs stop sv' closed a f :
    lives file m -> starts file argv env t s0 ->
    launch program argv env s0 = Ret (Serves out sv0 epoll_fd server_fd) ->
    run_ok K T server_fd es (mkFine sv0 ∅) ->
    process_run server_fd es (mkFine sv0 ∅) = Some (Ret (Some fs)) -> logs fs = ∅ ->
    Forall healthy stop -> pushed stop = [] ->
    server_destroy server_fd stop IoOk (base fs) = Some (sv', closed) ->
    aof (world sv') = Some a -> file_ a = Some f ->
    lives (Some (disk f)) (view (store (world sv'))).

(** The contents of the log file, empty if there is none. *)
Definition contents (file : option bytes) : bytes := default [] file.

Definition started_process file env (fs : FineServer S) : Prop :=
  exists a0, aof_start (Some (contents file)) (new_writer (le_now env) (le_interval env)) = Some a0 /\
    process_ok K T (contents file) a0 fs.

Lemma launch_ok file m argv env t s0 :
  logged K T (contents file) m -> starts file argv env t s0 ->
  exists out sv0, launch program argv env s0 =
      Ret (Serves out sv0 (sys_epoll_create (le_sys env)) (sys_listen_socket (le_sys env))) /\
    (forall k, recovered (m k) (view (store (world sv0)) k)) /\ started_process file env (mkFine sv0 ∅).
Proof.
  intros Hm [(o & Hparse & Hen & Hpath) [Hfile Hopen] (Ht & Hclock & Hnow) Hsys Hs0].
  destruct (replay_logged K T (contents file) m t (le_clock env) s0 Hm Ht Hclock Hs0)
    as (s1 & st & es & Hrep & _ & _ & Htext & Hes & Hag & Hreb).
  assert (Hrep' : replay (le_clock env) file s0 = Ret (s1, st)) by (by destruct file).
  unfold launch, server_construct, server_start. rewrite Hparse, Hen, Hpath, Hfile, Hopen, Hrep'.
  cbn [mbind outcome_bind]. rewrite Hsys. eexists _, _. split; [reflexivity|]. split.
  { eapply agrees_recovered; [exact Hag|]. apply Hreb. }
  pose proof Hreb as (Hinv & Hfit & _). eexists. split; [reflexivity|].
  split; [apply idle_server_inv|]. split; [by intros id [l Hl]|]. exists (view s1).
  eexists _, [], es. split; [done|]. split; [reflexivity|].
  split; [split; [done|]; split; [done|]; by exists []|]. rewrite app_nil_r.
  split_and!; [done|done|by intros id e (l & Hl & _)|by intros id id' e e' (l & Hl & _)|].
  apply agrees_upto_none. by eapply agrees_rebuilt.
Qed.

(** The destructor leaves the log in agreement with the storage. *)
Lemma destroy_logged file env fs server_fd stop sv' closed a f :
  started_process file env fs -> logs fs = ∅ -> Forall healthy stop -> pushed stop = [] ->
  server_destroy server_fd stop IoOk (base fs) = Some (sv', closed) ->
  aof (world sv') = Some a -> file_ a = Some f ->
  logged K T (disk f) (view (store (world sv'))).
Proof.
  intros (a0 & Ha0 & Hinv & _ & m & a1 & lines & ents & Hm & Ha1 & ([_ Hst] & Hp & es & Hh & Hrun & <-) & Htext &
    Hents & _ & _ & Hag) HL Hh2 Hps Hd Ha Hf.
  unfold server_destroy, stop_writer in Hd. rewrite Ha1 in Hd.
  apply bind_Some in Hd as (sv1 & Hd & [= <- _]). apply bind_Some in Hd as (a2 & Hstop & [= <-]).
  destruct (close_all_closes (set_aof (Some a2) (base fs))) as (_ & _ & _ & Hw); [by apply set_world_inv|].
  rewrite Hw in *. simpl in *. injection Ha as ->.
  destruct (stop_flushes (le_now env) (le_interval env) (contents file) a0 es a1 stop a)
    as (f' & Hf' & _ & _ & _ & Hdisk); [done..|].
  assert (f' = f) as -> by congruence. rewrite Hdisk, Hps, app_nil_r.
  rewrite HL, agrees_upto_none in Hag. exists ents. split; [done|]. split; [done|].
  eapply agrees_view; [|exact Hag]. apply Hm.
Qed.

(** The destructor can complete. *)
Lemma destroy_completes file env fs server_fd :
  started_process file env fs ->
  exists stop sv' closed, Forall healthy stop /\ pushed stop = [] /\
    server_destroy server_fd stop IoOk (base fs) = Some (sv', closed).
Proof.
  intros (a0 & Ha0 & _ & _ & m & a & lines & ents & _ & Ha & ([_ Hst] & _ & es & Hh & Hrun & _) & _).
  destruct (aof_start_ok _ _ _ Ha0) as (Hok & _).
  destruct (aof_run_text es a0 a Hh Hok Hrun) as [(f & _ & _ & Hth & _) _].
  destruct (stop_completes a) as (stop & a' & Hhs & Hps & Hstop); [|done|done|].
  { eapply (aof_run_inv flags_ok); [apply aof_exec_flags| |done]. by injection Ha0 as <-. }
  eexists stop, _, _. split; [done|]. split; [done|].
  unfold server_destroy, stop_writer. rewrite Ha, Hstop. reflexivity.
Qed.

Lemma lives_logged file m : lives file m -> logged K T (contents file) m.
Proof.
  induction 1 as [|file m argv env t s0 out sv0 epoll_fd server_fd es fs stop sv' closed a f _ IH Hst Hl
    Hok Hrun HL Hh Hp Hd Ha Hf].
  { exists []. split_and!; done. }
  destruct (launch_ok file m argv env t s0 IH Hst) as (out' & sv1 & Hl' & _ & a0 & Ha0 & Hok1).
  rewrite Hl in Hl'. injection Hl' as -> -> -> ->.
  destruct (process_run_ok K T (contents file) a0 _ es _ _ Hok1 Hok Hrun) as (fs2 & [= <-] & Hok2).
  eapply destroy_logged; try done. by exists a0.
Qed.

(** C2: However many processes there were, and however their threads interleaved: the next
    one starts, its storage holds every key the last one stored, with its value, and with
    a deadline exactly if it had one; whatever its threads do, it serves without an
    exception or undefined behaviour; and at any moment the log calls on their way can be
    made and the process shut down.  A step of a worker is its storage call, its log call
    or one [send].  This holds of processes that meet the following conditions ([starts],
    [run_ok]): the log is on, its file opens and is replayed within one second; keys and
    values that are logged survive quoting; an EXPIRE asks for a number of seconds that is
    not 0 and that fits the clock; the keys written are among [K], for which the storage
    has room, so that nothing is evicted; no storage call logs a key for which another log
    call is on its way; the disk writes what it is given, a sweep visits its shard, and
    the kernel grants the set-up, [fcntl] and [epoll_ctl]; and each process before was shut
    down when no log call was on its way. *)
Theorem processes_recover file m argv env t s0 :
  lives file m -> starts file argv env t s0 ->
  exists out sv0 epoll_fd server_fd,
    launch program argv env s0 = Ret (Serves out sv0 epoll_fd server_fd) /\
    (forall k, recovered (m k) (view (store (world sv0)) k)) /\
    forall es o, run_ok K T server_fd es (mkFine sv0 ∅) -> process_run server_fd es (mkFine sv0 ∅) = Some o ->
      exists fs, o = Ret (Some fs) /\ exists es' fs' stop sv' closed,
        run_ok K T server_fd es' fs /\ process_run server_fd es' fs = Some (Ret (Some fs')) /\ logs fs' = ∅ /\
        Forall healthy stop /\ pushed stop = [] /\
        server_destroy server_fd stop IoOk (base fs') = Some (sv', closed).
Proof.
  intros Hl%lives_logged Hst.
  destruct (launch_ok file m argv env t s0 Hl Hst) as (out & sv0 & Hlaunch & Hrec & a0 & Ha0 & Hok).
  eexists out, sv0, _, _. split; [exact Hlaunch|]. split; [exact Hrec|]. intros es o Hro Hrun.
  destruct (process_run_ok K T (contents file) a0 _ es _ o Hok Hro Hrun) as (fs & -> & Hok').
  exists fs. split; [done|].
  destruct (log_calls_complete K T (contents file) a0 (sys_listen_socket (le_sys env)) fs Hok')
    as (es' & fs' & Hro' & Hrun' & Hnone & Hok2 & _).
  destruct (destroy_completes file env fs' (sys_listen_socket (le_sys env))) as (stop & sv' & closed & Hd);
    [by exists a0|]. by exists (PWork <$> es'), fs', stop, sv', closed.
Qed.
End lives.
