(* ===== verification/Drain.v ===== *)
(** * The calls of a task

    The worker of a task can always finish it: from any state the threads of the process
    reach, the calls it still has to make are possible and defined. *)

From S2P Require Import Prelude Cpp Lru Parser Response StorageInterface AofFormat AofWriter.
From S2P Require Import AofReplay Dispatcher DispatcherFacts Recovery Restarts LogOrder SplitLog.
From S2P Require Import Connection Server ServerFacts FineServer ServerLoop ServerLife Main Process.
Local Open Scope Z_scope.

Section drain.
Context {S : Type} `{StorageLaws S}.
Context (K : gset bytes) (T : Z) (existing : bytes) (a0 : AOFWriter) (server_fd : Z).
Implicit Types (sv : Server S) (fs : FineServer S) (ts : list Task).

Abbreviation ok := (process_ok K T existing a0).

(** Calls of workers, each of the kind [P], lead from one state to the other. *)
Definition works (P : work_event -> Prop) fs fs' : Prop :=
  exists es, Forall P es /\ run_ok K T server_fd (PWork <$> es) fs /\
    process_run server_fd (PWork <$> es) fs = Some (Ret (Some fs')) /\ ok fs'.

Lemma works_refl P fs : ok fs -> works P fs fs.
Proof. intros Hfs. by exists []. Qed.

Lemma works_step (P : work_event -> Prop) e fs fs1 fs' :
  ok fs -> step_ok K T (PWork e) fs -> work_exec e fs = Some (Ret fs1) -> P e ->
  (ok fs1 -> works P fs1 fs') -> works P fs fs'.
Proof.
  intros Hfs Hok He HP Hrest.
  assert (Hx : process_exec server_fd (PWork e) fs = Some (Ret (Some fs1))) by (simpl; by rewrite He).
  destruct (process_exec_ok K T existing a0 server_fd (PWork e) fs _ Hfs Hok Hx) as (? & [= <-] & Hfs1).
  destruct (Hrest Hfs1) as (es & HPs & Hro & Hrun & Hfs'). exists (e :: es). rewrite fmap_cons.
  split; [by constructor|]. split; [by eapply run_ok_cons|]. split; [|done]. cbn [process_run]. by rewrite Hx.
Qed.

(** ** One task *)

(** A call of task [j] other than its last. *)
Definition call_of (j : nat) (e : work_event) : Prop :=
  match e with WkStore i _ _ | WkLog i | WkSend i _ => i = j | WkClear _ => False end.

(** The worker of task [j] can make all its calls but the last. *)
Definition readies (j : nat) (t : Task) fs : Prop :=
  exists fs', works (call_of j) fs fs' /\ logs fs' = ∅ /\
    pool_tasks (base fs') = <[j := mkTask (task_conn t) (task_cmd t) TClear]> (pool_tasks (base fs)).

Lemma readies_step e j t st fs fs1 :
  ok fs -> step_ok K T (PWork e) fs -> work_exec e fs = Some (Ret fs1) -> call_of j e ->
  pool_tasks (base fs1) = <[j := mkTask (task_conn t) (task_cmd t) st]> (pool_tasks (base fs)) ->
  (ok fs1 -> readies j (mkTask (task_conn t) (task_cmd t) st) fs1) -> readies j t fs.
Proof.
  intros Hfs Hok He Hj Ht Hrest.
  assert (Hfs1 : ok fs1).
  { destruct (work_ok K T existing a0 e fs _ Hfs Hok He) as (? & [= <-] & ?). done. }
  destruct (Hrest Hfs1) as (fs' & Hw & Hl & Ht'). exists fs'. split; [by eapply works_step|]. split; [done|].
  by rewrite Ht', Ht, list_insert_insert_eq.
Qed.

Lemma task_heap fs j t : ok fs -> pool_tasks (base fs) !! j = Some t -> is_Some (heap (base fs) !! task_conn t).
Proof.
  intros [[(_ & _ & Hb) _] _] Hj. apply Hb. unfold busy. apply list_elem_of_fmap_2. by eapply list_elem_of_lookup_2.
Qed.

Lemma send_step fs j t r o :
  ok fs -> pool_tasks (base fs) !! j = Some t -> task_state_of t = TSend r -> logs fs = ∅ ->
  exists c fs1, work_exec (WkSend j o) fs = Some (Ret fs1) /\ logs fs1 = ∅ /\
    pool_tasks (base fs1) =
      <[j := mkTask (task_conn t) (task_cmd t) (send_once o r c (kernel (base fs))).2]> (pool_tasks (base fs)).
Proof.
  intros Hfs Hj Hst Hl. destruct (task_heap fs j t Hfs Hj) as [c Hc]. exists c.
  simpl. rewrite Hj. simpl. rewrite Hl, lookup_empty, Hst, Hc. simpl.
  destruct (send_once o r c (kernel (base fs))) as [[c' k] st]. by eexists.
Qed.

Lemma send_nothing o c k : (send_once o [] c k).2 = TClear.
Proof. unfold send_once. by destruct (fd_table k !! fd_ c). Qed.

Lemma send_everything r c k :
  (send_once (Sent (length r)) r c k).2 = TClear \/ (send_once (Sent (length r)) r c k).2 = TSend [].
Proof.
  unfold send_once. destruct (fd_table k !! fd_ c); [|left; by destruct r].
  destruct r as [|d r]; [by left|right]. cbn [send_call snd]. by rewrite drop_all.
Qed.

(** From its last call to its first. *)
Lemma ready_now fs j t :
  ok fs -> pool_tasks (base fs) !! j = Some t -> task_state_of t = TClear -> logs fs = ∅ -> readies j t fs.
Proof.
  intros Hfs Hj Hst Hl. exists fs. split; [by apply works_refl|]. split; [done|].
  rewrite list_insert_id; [done|]. rewrite Hj. destruct t. simpl in Hst. by subst.
Qed.

Lemma ready_sending fs j t r :
  ok fs -> pool_tasks (base fs) !! j = Some t -> task_state_of t = TSend r -> logs fs = ∅ -> readies j t fs.
Proof.
  intros Hfs Hj Hst Hl. pose proof (lookup_lt_Some _ _ _ Hj) as Hlt.
  destruct (send_step fs j t r (Sent (length r)) Hfs Hj Hst Hl) as (c & fs1 & Hx & Hl1 & Ht1).
  eapply (readies_step (WkSend j _)); [done|done|exact Hx|done|exact Ht1|]. intros Hfs1.
  assert (Hj1 : forall u, pool_tasks (base fs1) = <[j := u]> (pool_tasks (base fs)) ->
    pool_tasks (base fs1) !! j = Some u) by (intros u ->; by apply list_lookup_insert_eq).
  destruct (send_everything r c (kernel (base fs))) as [E|E]; rewrite E in *.
  { eapply ready_now; by auto. }
  destruct (send_step fs1 j _ [] SendError Hfs1 (Hj1 _ Ht1) eq_refl Hl1) as (c2 & fs2 & Hx2 & Hl2 & Ht2).
  rewrite send_nothing in Ht2. eapply (readies_step (WkSend j _)); [done|done|exact Hx2|done|exact Ht2|]. intros Hfs2.
  eapply ready_now; [done| |done|done]. rewrite Ht2. apply list_lookup_insert_eq. by rewrite Ht1, length_insert.
Qed.

(** A command that waits to be served can be, at some time. *)
Definition servable (t : Task) : Prop :=
  task_state_of t = TDispatch -> exists now now2, request_ok K T (now, now2, task_cmd t).

Lemma ready_task fs j t :
  ok fs -> pool_tasks (base fs) !! j = Some t -> servable t -> logs fs = ∅ -> readies j t fs.
Proof.
  intros Hfs Hj Hserve Hl. destruct (task_state_of t) as [|r|] eqn:Hst;
    [|by eapply ready_sending|by eapply ready_now].
  pose proof (lookup_lt_Some _ _ _ Hj) as Hlt.
  destruct (Hserve Hst) as (now & now2 & Hreq). pose proof Hfs as (_ & _ & Hw). rewrite Hl in Hw.
  assert (Hno : forall r w l, dispatch_store now now2 (task_cmd t) (world (base fs)) = Ret (r, w, l) ->
    no_overlap l ∅) by (intros; apply map_Forall_empty).
  destruct (process_world_store K T existing a0 now now2 (task_cmd t) _ ∅ (task_conn t) Hreq
    (lookup_empty _) Hno Hw) as (r & w & l & Hd & _).
  eapply (readies_step (WkStore j now now2)); [done|
    |by simpl; rewrite Hj; simpl; rewrite Hl, lookup_empty, Hst, Hd|done|done|].
  { intros t' Ht' _. rewrite Hj in Ht'. injection Ht' as <-. rewrite Hl. done. }
  intros Hfs1. eapply (readies_step (WkLog j)); [done|done| |done| |].
  { simpl. rewrite list_lookup_insert_eq by done. simpl. rewrite lookup_insert_eq. reflexivity. }
  { simpl. by rewrite list_insert_insert_eq. }
  intros Hfs2. eapply ready_sending; [done|by apply list_lookup_insert_eq|done|]. by apply delete_insert_id.
Qed.

(** Its last call. *)
Lemma clear_task fs j t :
  ok fs -> pool_tasks (base fs) !! j = Some t -> task_state_of t = TClear ->
  exists fs', work_exec (WkClear j) fs = Some (Ret fs') /\ ok fs' /\
    pool_tasks (base fs') = delete j (pool_tasks (base fs)) /\ logs fs' = logs fs.
Proof.
  intros Hfs Hj Hst. destruct (task_heap fs j t Hfs Hj) as [c Hc].
  assert (Hx : work_exec (WkClear j) fs = Some (Ret (mkFine (set_tasks (delete j (pool_tasks (base fs)))
    (set_conn (task_conn t) (clearInFlight c) (base fs))) (logs fs)))) by (simpl; rewrite Hj; simpl; by rewrite Hst, Hc).
  eexists. split; [exact Hx|]. split; [|done].
  by destruct (work_ok K T existing a0 (WkClear j) fs _ Hfs I Hx) as (? & [= <-] & ?).
Qed.

(** Without tasks no connection waits for a worker. *)
Lemma drained_idle fs id c :
  ok fs -> pool_tasks (base fs) = [] -> heap (base fs) !! id = Some c -> in_flight_ c = false.
Proof.
  intros [[(_ & Hflag & _) _] _] Ht Hc. destruct (in_flight_ c) eqn:E; [|done].
  apply (Hflag id c Hc) in E. unfold busy in E. rewrite Ht in E. by apply elem_of_nil in E.
Qed.
End drain.
