(* ===== verification/Pooled.v ===== *)
(** * The process with its thread pool

    In [Process] a task may make its next call at any time.  Here the workers of the
    [ThreadPool] run them: the event loop submits a task for every command it reads, a
    worker takes the oldest one under the lock of the pool, makes its calls, and comes back
    for the next.  The theorems say that the composed system behaves as each component on
    its own, and that a pool with any number of threads can finish every command. *)

From S2P Require Import Prelude Cpp Lru Parser Response StorageInterface AofFormat AofWriter.
From S2P Require Import AofReplay Dispatcher DispatcherFacts Recovery Restarts LogOrder SplitLog.
From S2P Require Import Connection ThreadPool Server ServerFacts FineServer ServerLoop ServerLife Main Process Drain.
Local Open Scope Z_scope.

(** The process, and the pool of its workers.  A task of the pool is named by the
    connection it captures, which has no other. *)
Record PooledProcess (S : Type) : Type := mkPooled {
  proc : FineServer S;
  pool : ThreadPool nat
}.
Arguments mkPooled {S} proc pool.
Arguments proc {S} p.
Arguments pool {S} p.

(** A step of the event loop, the log writer or the expiration thread; worker [i] in the
    locked section of its loop; worker [i] in the task it runs. *)
Inductive pooled_event : Type :=
| QThread (e : process_event)
| QLock (i : nat)
| QWork (i : nat) (e : work_event).

Definition work_index (e : work_event) : nat :=
  match e with WkStore i _ _ | WkLog i | WkSend i _ | WkClear i => i end.

(** The number of threads [Server] asks for: the hardware's when it is given none. *)
Definition pool_threads (num_threads hardware_concurrency : Z) : Z :=
  if num_threads =? 0 then hardware_concurrency else num_threads.

(** The pool of a server with the options [o]. *)
Definition server_pool (o : Options) (hardware_concurrency : Z) : ThreadPool nat :=
  new_pool (Z.to_nat (pool_threads (opt_threads o) hardware_concurrency)).

(** What [run] writes first. *)
Definition listening_text (port : Z) (p : ThreadPool nat) : bytes :=
  str "Server listening on port " ++ to_string port ++ str " with " ++ to_string (Z.of_nat (pool_size p)) ++
  str " worker threads" ++ [ch_nl].

Section pooled.
Context {S : Type} `{StorageOps S}.
Implicit Types (fs : FineServer S) (pp : PooledProcess S).

(** The tasks a step of the event loop submitted. *)
Definition submitted_by fs fs' : list nat :=
  task_conn <$> drop (length (pool_tasks (base fs))) (pool_tasks (base fs')).

(** What the step of a worker in its task is for the pool: the task returns after its last
    call. *)
Definition returns (i : nat) (e : work_event) : list (@pool_event nat) :=
  match e with WkClear _ => [PFinish i] | _ => [] end.

(** The process is now [fs'], and the pool makes the steps [pes]. *)
Definition with_pool (pes : list (@pool_event nat)) (o : outcome (option (FineServer S))) pp
    : option (outcome (option (PooledProcess S))) :=
  match o with
  | Ret (Some fs') => o' ← pool_run pes (pool pp); Some (p ← o'; Ret (Some (mkPooled fs' p)))
  | Ret None => Some (Ret None)
  | UB => Some UB
  end.

(** What a step is for the pool. *)
Definition pool_steps (server_fd : Z) (e : pooled_event) pp : list (@pool_event nat) :=
  match e with
  | QThread e =>
      match process_exec server_fd e (proc pp) with
      | Some (Ret (Some fs')) => PSubmit <$> submitted_by (proc pp) fs'
      | _ => []
      end
  | QLock i => [PLock i]
  | QWork i e => returns i e
  end.

(** And for the process. *)
Definition process_steps (e : pooled_event) : list process_event :=
  match e with QThread e => [e] | QLock _ => [] | QWork _ e => [PWork e] end.

Definition pooled_exec (server_fd : Z) (e : pooled_event) pp : option (outcome (option (PooledProcess S))) :=
  match e with
  | QThread (PWork _) => None
  | QThread pe =>
      o ← process_exec server_fd pe (proc pp); with_pool (pool_steps server_fd e pp) o pp
  | QLock i => with_pool [PLock i] (Ret (Some (proc pp))) pp
  | QWork i we =>
      w ← workers_ (pool pp) !! i;
      t ← pool_tasks (base (proc pp)) !! work_index we;
      match wstate w with
      | Running id =>
          if decide (id = task_conn t)
          then o ← process_exec server_fd (PWork we) (proc pp); with_pool (returns i we) o pp
          else None
      | _ => None
      end
  end.

Fixpoint pooled_run (server_fd : Z) (es : list pooled_event) pp : option (outcome (option (PooledProcess S))) :=
  match es with
  | [] => Some (Ret (Some pp))
  | e :: es' =>
      o ← pooled_exec server_fd e pp;
      match o with
      | Ret (Some pp') => pooled_run server_fd es' pp'
      | other => Some other
      end
  end.

(** The steps of a run, as the pool sees them. *)
Fixpoint pool_trace (server_fd : Z) (es : list pooled_event) pp : list (@pool_event nat) :=
  match es with
  | [] => []
  | e :: es' =>
      pool_steps server_fd e pp ++
      match pooled_exec server_fd e pp with Some (Ret (Some pp')) => pool_trace server_fd es' pp' | _ => [] end
  end.

(** ** Projections *)

Lemma pool_run_app {A} (es1 es2 : list (@pool_event A)) p p1 :
  pool_run es1 p = Some (Ret p1) -> pool_run (es1 ++ es2) p = pool_run es2 p1.
Proof.
  revert p. induction es1 as [|e es1 IH]; intros p; simpl; [by intros [= <-]|].
  destruct (pool_exec e p) as [[p2|]|]; simpl; try done. apply IH.
Qed.

Lemma with_pool_inv pes o pp pp' :
  with_pool pes o pp = Some (Ret (Some pp')) ->
  o = Ret (Some (proc pp')) /\ pool_run pes (pool pp) = Some (Ret (pool pp')).
Proof.
  unfold with_pool. destruct o as [[fs'|]|]; try done. intros Hp. apply bind_Some in Hp as (o' & Ho' & [= Hp]).
  by apply bind_Ret_inv in Hp as (p & -> & [= <-]).
Qed.

Lemma pooled_exec_inv server_fd e pp pp' :
  pooled_exec server_fd e pp = Some (Ret (Some pp')) ->
  process_run server_fd (process_steps e) (proc pp) = Some (Ret (Some (proc pp'))) /\
  pool_run (pool_steps server_fd e pp) (pool pp) = Some (Ret (pool pp')).
Proof.
  intros Hx. destruct e as [pe|i|i we].
  - assert (Hx' : (o ← process_exec server_fd pe (proc pp); with_pool (pool_steps server_fd (QThread pe) pp) o pp) =
      Some (Ret (Some pp'))) by (by destruct pe). clear Hx.
    apply bind_Some in Hx' as (o & Ho & Hx). apply with_pool_inv in Hx as [-> Hp]. split; [|done].
    cbn [process_steps process_run]. by rewrite Ho.
  - cbn [pooled_exec] in Hx. apply with_pool_inv in Hx as [[= Hp] Hx]. split; [simpl; by rewrite Hp|done].
  - cbn [pooled_exec] in Hx. apply bind_Some in Hx as (w & _ & Hx). apply bind_Some in Hx as (t & _ & Hx).
    destruct (wstate w) as [|id|]; try done. case_decide; [|done]. apply bind_Some in Hx as (o & Ho & Hx).
    apply with_pool_inv in Hx as [-> Hp]. split; [|done]. cbn [process_steps process_run]. by rewrite Ho.
Qed.

Lemma pooled_run_projects server_fd es pp pp' :
  pooled_run server_fd es pp = Some (Ret (Some pp')) ->
  process_run server_fd (es ≫= process_steps) (proc pp) = Some (Ret (Some (proc pp'))) /\
  pool_run (pool_trace server_fd es pp) (pool pp) = Some (Ret (pool pp')).
Proof.
  revert pp. induction es as [|e es IH]; intros pp Hrun; [by injection Hrun as ->|].
  cbn [pooled_run] in Hrun. apply bind_Some in Hrun as (o & He & Hrun). destruct o as [[pp1|]|]; try done.
  destruct (pooled_exec_inv _ _ _ _ He) as [H1 H2]. destruct (IH pp1 Hrun) as [H3 H4].
  rewrite bind_cons. cbn [pool_trace]. rewrite He. split.
  - by rewrite (process_run_app _ _ _ _ _ H1).
  - by rewrite (pool_run_app _ _ _ _ H2).
Qed.
End pooled.

(** ** Which worker runs what *)

Definition running_task {A} (st : worker_state A) : option A := match st with Running t => Some t | _ => None end.

(** The tasks the workers are in. *)
Definition running {A} (p : ThreadPool A) : list A := omap (fun w => running_task (wstate w)) (workers_ p).

Definition runs {A} (i : nat) (t : A) (p : ThreadPool A) : Prop :=
  exists w, workers_ p !! i = Some w /\ wstate w = Running t.

Section running.
Context {A : Type}.
Implicit Types (p : ThreadPool A) (t : A).

Lemma running_runs t p : t ∈ running p -> exists i, runs i t p.
Proof.
  unfold running. rewrite list_elem_of_omap. intros (w & [i Hi]%list_elem_of_lookup & Hw).
  exists i, w. split; [done|]. destruct (wstate w); simpl in Hw; congruence.
Qed.

(** One worker and the others. *)
Lemma running_split i w p :
  workers_ p !! i = Some w ->
  exists others, running p ≡ₚ option_list (running_task (wstate w)) ++ others /\
    forall st, running (set_worker i st p) ≡ₚ option_list (running_task st) ++ others.
Proof.
  intros Hi. pose proof (lookup_lt_Some _ _ _ Hi) as Hlt.
  exists (omap (fun w => running_task (wstate w)) (take i (workers_ p)) ++
          omap (fun w => running_task (wstate w)) (drop (S i) (workers_ p))).
  assert (Hcons : forall (l1 l2 : list (Worker A)) v,
    omap (fun w => running_task (wstate w)) (l1 ++ v :: l2) ≡ₚ
    option_list (running_task (wstate v)) ++ omap (fun w => running_task (wstate w)) l1 ++
    omap (fun w => running_task (wstate w)) l2).
  { intros l1 l2 v. rewrite omap_app. simpl. destruct (running_task (wstate v)); simpl; [|done].
    symmetry. apply Permutation_middle. }
  split.
  - unfold running. rewrite <- (take_drop_middle (workers_ p) i w Hi) at 1. apply Hcons.
  - intros st. unfold running, set_worker. cbn [workers_].
    set (f := fun w => mkWorker (stop_requested w) st). assert (Hf : alter f i (workers_ p) !! i = Some (f w)).
    { by rewrite list_lookup_alter_eq, Hi. }
    rewrite <- (take_drop_middle _ i _ Hf), take_alter_ge, drop_alter_lt by lia. apply Hcons.
Qed.

Lemma running_new n : running (@new_pool A n) = [].
Proof.
  unfold running, new_pool. cbn [workers_]. generalize (if bool_decide (n = 0)%nat then 1%nat else n). intros k.
  by induction k.
Qed.

(** The pool forgets no task and invents none. *)
Lemma pool_submit_all ts p p' :
  pool_run (PSubmit <$> ts) p = Some (Ret p') -> p' = mkPool (workers_ p) (tasks_ p ++ ts) (members_alive p).
Proof.
  revert p. induction ts as [|t ts IH]; intros p; [intros [= <-]; by destruct p; simpl; rewrite app_nil_r|].
  rewrite fmap_cons. simpl. unfold submit. destruct (require (members_alive p = true)) as [[]|]; [|done]. simpl.
  intros ->%IH. simpl. by rewrite <- app_assoc.
Qed.

Lemma pool_lock i p p' :
  pool_inv p -> pool_exec (PLock i) p = Some (Ret p') ->
  running p' ++ tasks_ p' ≡ₚ running p ++ tasks_ p /\ (forall t, t ∈ tasks_ p' -> t ∈ tasks_ p).
Proof.
  intros [_ HF] Hx. simpl in Hx. apply bind_Some in Hx as (w & Hi & Hx). destruct (wstate w) eqn:Hw; try done.
  injection Hx as Hx. unfold worker_lock in Hx. apply bind_Ret_inv in Hx as ([] & Hal%require_Ret & Hx).
  rewrite Forall_lookup in HF. destruct (HF i w Hi) as [_ Hs]. rewrite Hs in Hx by done.
  destruct (tasks_ p) as [|t ts] eqn:Ht; injection Hx as <-; [by rewrite Ht|].
  destruct (running_split i w (mkPool (workers_ p) ts (members_alive p)) Hi) as (others & H1 & H2).
  rewrite (H2 (Running t)), Hw in *. change (running (mkPool _ _ _)) with (running p) in H1.
  cbn [running_task option_list app tasks_ set_worker] in *. rewrite H1. split; [apply Permutation_middle|].
  intros u Hu. by right.
Qed.

Lemma pool_finish i t p :
  runs i t p ->
  exists p', pool_exec (PFinish i) p = Some (Ret p') /\ tasks_ p' = tasks_ p /\ members_alive p' = members_alive p /\
    t :: running p' ≡ₚ running p.
Proof.
  intros (w & Hi & Hw). eexists. split; [simpl; by rewrite Hi; simpl; rewrite Hw|].
  destruct (running_split i w p Hi) as (others & H1 & H2). rewrite (H2 Idle), H1, Hw. done.
Qed.

Lemma pool_exec_size e p p' : pool_exec e p = Some (Ret p') -> pool_size p' = pool_size p.
Proof.
  unfold pool_size. destruct e as [t|i|i| |i]; simpl.
  - unfold submit. destruct (require _) as [[]|]; [|done]. by intros [= <-].
  - destruct (workers_ p !! i) as [w|]; [|done]. simpl. destruct (wstate w); try done. unfold worker_lock.
    destruct (require _) as [[]|]; [|done]. destruct (tasks_ p), (stop_requested w); intros [= <-];
      cbn [set_worker workers_]; by rewrite ?length_alter.
  - destruct (workers_ p !! i) as [w|]; [|done]. simpl. destruct (wstate w); try done.
    intros [= <-]. cbn [set_worker workers_]. by rewrite length_alter.
  - destruct (members_alive p); [|done]. by intros [= <-].
  - destruct (members_alive p), (workers_ p !! i); simpl; try done. intros [= <-]. simpl. by rewrite length_alter.
Qed.

Lemma pool_run_size es p p' : pool_run es p = Some (Ret p') -> pool_size p' = pool_size p.
Proof.
  revert p. induction es as [|e es IH]; intros p; simpl; [by intros [= <-]|].
  destruct (pool_exec e p) as [[p1|]|] eqn:He; simpl; try done. intros ->%IH. by eapply pool_exec_size.
Qed.

Lemma length_running p : (length (running p) <= length (workers_ p))%nat.
Proof.
  unfold running. induction (workers_ p) as [|w ws IH]; [done|].
  simpl. destruct (running_task (wstate w)); [apply le_n_S, IH|apply Nat.le_le_succ_r, IH].
Qed.
End running.

(** ** Workers and tasks agree *)

Section agree.
Context {S : Type} `{StorageLaws S}.
Context (K : gset bytes) (T : Z) (existing : bytes) (a0 : AOFWriter) (server_fd : Z).
Implicit Types (fs : FineServer S) (pp : PooledProcess S).

(** The pool is not destroyed, its tasks are the commands in flight, each once, and a
    command in the queue has not been served. *)
Definition pooled_ok pp : Prop :=
  process_ok K T existing a0 (proc pp) /\ pool_inv (pool pp) /\ members_alive (pool pp) = true /\
  running (pool pp) ++ tasks_ (pool pp) ≡ₚ busy (base (proc pp)) /\
  forall t, t ∈ pool_tasks (base (proc pp)) -> task_conn t ∈ tasks_ (pool pp) -> task_state_of t = TDispatch.

(** A call of a worker changes its own task only, and only the last one removes it. *)
Definition is_clear (e : work_event) : bool := match e with WkClear _ => true | _ => false end.

Lemma work_exec_tasks e fs fs' :
  work_exec e fs = Some (Ret fs') ->
  exists t, pool_tasks (base fs) !! work_index e = Some t /\
    if is_clear e then pool_tasks (base fs') = delete (work_index e) (pool_tasks (base fs))
    else exists st, pool_tasks (base fs') = <[work_index e := mkTask (task_conn t) (task_cmd t) st]> (pool_tasks (base fs)).
Proof.
  intros He. destruct e as [i now now2|i|i o|i]; simpl in *; apply bind_Some in He as (t & Hi & He);
    exists t; (split; [done|]).
  - destruct (logs fs !! task_conn t), (task_state_of t); try done. injection He as He.
    apply bind_Ret_inv in He as ([[r w] l] & _ & [= <-]). by eexists.
  - apply bind_Some in He as (l & _ & [= <-]). exists (task_state_of t). simpl.
    rewrite list_insert_id; [done|]. rewrite Hi. by destruct t.
  - destruct (logs fs !! task_conn t), (task_state_of t) as [|rest|]; try done.
    apply bind_Some in He as (c & Hc & He). destruct (send_once o rest c (kernel (base fs))) as [[c' k] st].
    injection He as <-. by eexists.
  - destruct (task_state_of t); try done. by apply bind_Some in He as (c & Hc & [= <-]).
Qed.

(** Other threads only submit. *)
Lemma thread_submits pe fs fs' :
  process_ok K T existing a0 fs -> step_ok K T pe fs -> (forall we, pe <> PWork we) ->
  process_exec server_fd pe fs = Some (Ret (Some fs')) -> submits (base fs) (base fs').
Proof.
  intros (Hinv & _) Hok Hnw Hx. destruct pe as [[now now2 fd ev accepts|]|e|e|i now order]; simpl in Hx; try done.
  - unfold on_base in Hx. apply bind_Some in Hx as (o' & Ho' & Hx).
    destruct (loop_item_ok _ _ _ _ _ _ _ _ Hinv Hok Ho') as (sv' & -> & _ & _ & Ht). by injection Hx as <-.
  - by destruct (Hnw e).
  - destruct (writer_action e); [|done]. apply bind_Some in Hx as (a & _ & Hx).
    apply bind_Some in Hx as (a' & _ & [= <-]). by apply submits_none.
  - injection Hx as Hx. apply bind_Ret_inv in Hx as (s' & _ & [= <-]). by apply submits_none.
Qed.
(** ** Every step keeps the agreement *)

Lemma pooled_nodup pp : pooled_ok pp -> NoDup (running (pool pp) ++ tasks_ (pool pp)).
Proof. intros ([[(Hnd & _) _] _] & _ & _ & -> & _). done. Qed.

Lemma submitted_new fs fs' new :
  pool_tasks (base fs') = pool_tasks (base fs) ++ new -> submitted_by fs fs' = task_conn <$> new.
Proof. intros Hn. unfold submitted_by. by rewrite Hn, drop_app_length. Qed.

Lemma pooled_submit pp fs' p' :
  pooled_ok pp -> process_ok K T existing a0 fs' -> submits (base (proc pp)) (base fs') ->
  pool_run (PSubmit <$> submitted_by (proc pp) fs') (pool pp) = Some (Ret p') -> pooled_ok (mkPooled fs' p').
Proof.
  intros (Hok & Hp & Hal & Hb & Hq) Hok' (new & Hn & Hnew) Hrun.
  assert (Hp' : pool_inv p') by (by eapply pool_run_inv). rewrite (submitted_new _ _ _ Hn) in Hrun.
  apply pool_submit_all in Hrun as ->. unfold pooled_ok. cbn [proc pool tasks_ members_alive].
  change (running (mkPool _ _ _)) with (running (pool pp)). split_and!; [done..| |].
  - unfold busy in *. by rewrite app_assoc, Hb, Hn, fmap_app.
  - intros t Ht Hc. rewrite Hn in Ht. apply elem_of_app in Ht as [Ht|Ht].
    + apply elem_of_app in Hc as [Hc|Hc]; [by apply Hq|exfalso].
      destruct Hok' as [[(Hnd & _) _] _]. unfold busy in Hnd. rewrite Hn, fmap_app in Hnd.
      apply NoDup_app in Hnd as (_ & Hdis & _). apply (Hdis (task_conn t)); [by apply list_elem_of_fmap_2|done].
    + rewrite Forall_forall in Hnew. by apply Hnew.
Qed.

Lemma pooled_lock i pp p' :
  pooled_ok pp -> pool_exec (PLock i) (pool pp) = Some (Ret p') -> pooled_ok (mkPooled (proc pp) p').
Proof.
  intros (Hok & Hp & Hal & Hb & Hq) Hx. destruct (pool_lock i (pool pp) p' Hp Hx) as [Hb' Hsub].
  split; [done|]. split; [by eapply pool_exec_inv|]. split; [|split].
  - simpl in Hx. apply bind_Some in Hx as (w & _ & Hx). destruct (wstate w); try done. injection Hx as Hx.
    by apply worker_lock_Ret in Hx as (_ & ? & _).
  - cbn [proc pool]. by rewrite Hb'.
  - intros t Ht Hc. by apply Hq, Hsub.
Qed.

Lemma pooled_call we pp t fs' :
  pooled_ok pp -> process_ok K T existing a0 fs' -> is_clear we = false ->
  work_exec we (proc pp) = Some (Ret fs') ->
  pool_tasks (base (proc pp)) !! work_index we = Some t -> task_conn t ∈ running (pool pp) ->
  pooled_ok (mkPooled fs' (pool pp)).
Proof.
  intros Hpp Hok' Hcl Hx Ht Hrun. pose proof (pooled_nodup pp Hpp) as Hnd.
  destruct Hpp as (Hok & Hp & Hal & Hb & Hq).
  destruct (work_exec_tasks _ _ _ Hx) as (t' & Ht' & Hts). rewrite Hcl in Hts. destruct Hts as [st Hts].
  rewrite Ht in Ht'. injection Ht' as <-. split; [done|]. split; [done|]. split; [done|]. cbn [proc pool]. split.
  - rewrite Hb. unfold busy. rewrite Hts. symmetry. apply reflexive_eq.
    rewrite list_fmap_insert. apply list_insert_id. by rewrite list_lookup_fmap, Ht.
  - intros u [k Hk]%list_elem_of_lookup Hc. rewrite Hts in Hk. apply list_lookup_insert_Some in Hk as [(<- & <- & _)|[_ Hk]].
    + apply NoDup_app in Hnd as (_ & Hdis & _). by destruct (Hdis _ Hrun).
    + apply Hq; [by eapply list_elem_of_lookup_2|done].
Qed.

Lemma pooled_finish i we pp t fs' p' :
  pooled_ok pp -> process_ok K T existing a0 fs' -> is_clear we = true ->
  work_exec we (proc pp) = Some (Ret fs') ->
  pool_tasks (base (proc pp)) !! work_index we = Some t -> runs i (task_conn t) (pool pp) ->
  pool_exec (PFinish i) (pool pp) = Some (Ret p') ->
  pooled_ok (mkPooled fs' p') /\ tasks_ p' = tasks_ (pool pp) /\ task_conn t :: running p' ≡ₚ running (pool pp).
Proof.
  intros (Hok & Hp & Hal & Hb & Hq) Hok' Hcl Hx Ht Hruns Hfin.
  destruct (work_exec_tasks _ _ _ Hx) as (t' & Ht' & Hts). rewrite Hcl in Hts.
  destruct (pool_finish i _ _ Hruns) as (p'' & Hfin' & Htasks & Hal' & Hr).
  rewrite Hfin in Hfin'. injection Hfin' as <-. split; [|done].
  split; [done|]. split; [by eapply pool_exec_inv|]. cbn [proc pool]. split; [congruence|]. rewrite Htasks. split.
  - apply (Permutation_cons_inv (a := task_conn t)). unfold busy. rewrite Hts.
    change (task_conn t :: running p' ++ tasks_ (pool pp)) with ((task_conn t :: running p') ++ tasks_ (pool pp)).
    rewrite Hr, Hb. unfold busy. exact (fmap_Permutation task_conn _ _ (delete_Permutation _ _ _ Ht)).
  - intros u Hu. apply Hq. rewrite Hts in Hu. eapply elem_of_sublist; [exact Hu|]. apply sublist_delete.
Qed.
(** ** Runs *)

Lemma run_ok_split es1 es2 fs fs1 :
  run_ok K T server_fd (es1 ++ es2) fs -> process_run server_fd es1 fs = Some (Ret (Some fs1)) ->
  run_ok K T server_fd es2 fs1.
Proof.
  revert fs. induction es1 as [|e es1 IH]; intros fs; simpl; [by intros ? [= <-]|]. intros [_ Hr].
  destruct (process_exec server_fd e fs) as [[[fs2|]|]|]; simpl; try done. by apply IH.
Qed.

Lemma pool_run_submit {A} (ts : list A) p : members_alive p = true -> exists p', pool_run (PSubmit <$> ts) p = Some (Ret p').
Proof.
  revert p. induction ts as [|t ts IH]; intros p Hal; [by eexists|]. rewrite fmap_cons. simpl.
  unfold submit. rewrite require_true by done. simpl. by apply IH.
Qed.

(** The pool's part of a step is one of its own steps. *)
Lemma pool_run_one {A} (e : @pool_event A) p : pool_run [e] p = pool_exec e p.
Proof. simpl. by destruct (pool_exec e p) as [[?|]|]. Qed.

(** The calls are possible, defined and keep the agreement, for each kind of step. *)
Lemma pooled_thread_ok pe pp o :
  pooled_ok pp -> step_ok K T pe (proc pp) -> pooled_exec server_fd (QThread pe) pp = Some o ->
  exists pp', o = Ret (Some pp') /\ pooled_ok pp'.
Proof.
  intros Hpp Hso Hx. pose proof Hpp as (Hok & Hp & Hal & _).
  assert (Hnw : forall we, pe <> PWork we) by (intros we ->; done).
  assert (Hx' : (o' ← process_exec server_fd pe (proc pp); with_pool (pool_steps server_fd (QThread pe) pp) o' pp) =
    Some o) by (by destruct pe). clear Hx. apply bind_Some in Hx' as (o' & Ho' & Hx).
  destruct (process_exec_ok K T existing a0 server_fd pe _ _ Hok Hso Ho') as (fs' & -> & Hok').
  cbn [pool_steps with_pool] in Hx. rewrite Ho' in Hx.
  destruct (pool_run_submit (submitted_by (proc pp) fs') (pool pp) Hal) as [p' Hp']. rewrite Hp' in Hx.
  injection Hx as <-. eexists. split; [reflexivity|]. eapply pooled_submit; try done. by eapply thread_submits.
Qed.

Lemma pooled_lock_ok i pp o :
  pooled_ok pp -> pooled_exec server_fd (QLock i) pp = Some o -> exists pp', o = Ret (Some pp') /\ pooled_ok pp'.
Proof.
  intros Hpp Hx. cbn [pooled_exec with_pool] in Hx. rewrite pool_run_one in Hx.
  apply bind_Some in Hx as (o' & Ho' & [= <-]). destruct o' as [p'|].
  - eexists. split; [reflexivity|]. by eapply pooled_lock.
  - simpl in Ho'. apply bind_Some in Ho' as (w & _ & Ho'). destruct (wstate w); try done. injection Ho' as Ho'.
    unfold worker_lock in Ho'. rewrite require_true in Ho' by apply Hpp. by destruct (tasks_ (pool pp)).
Qed.

(** What worker [i] does in its task [t]. *)
Lemma pooled_work_ok i we pp t o :
  pooled_ok pp -> pool_tasks (base (proc pp)) !! work_index we = Some t -> runs i (task_conn t) (pool pp) ->
  step_ok K T (PWork we) (proc pp) -> work_exec we (proc pp) = Some o ->
  exists fs' p', o = Ret fs' /\ pooled_exec server_fd (QWork i we) pp = Some (Ret (Some (mkPooled fs' p'))) /\
    pooled_ok (mkPooled fs' p') /\ tasks_ p' = tasks_ (pool pp) /\
    (if is_clear we then task_conn t :: running p' ≡ₚ running (pool pp) else p' = pool pp).
Proof.
  intros Hpp Ht Hruns Hso Hx. pose proof Hpp as (Hok & Hp & Hal & _).
  destruct (work_ok K T existing a0 we _ _ Hok Hso Hx) as (fs' & -> & Hok').
  assert (Hexec : pooled_exec server_fd (QWork i we) pp = with_pool (returns i we) (Ret (Some fs')) pp).
  { destruct Hruns as (w & Hi & Hw). cbn [pooled_exec]. rewrite Hi. simpl. rewrite Ht. simpl.
    rewrite Hw, decide_True, Hx by done. reflexivity. }
  destruct (is_clear we) eqn:Hcl.
  - destruct (pool_finish i _ _ Hruns) as (p' & Hfin & _). exists fs', p'.
    destruct (pooled_finish i we pp t fs' p') as (Hpp' & Htasks & Hr); try done. split_and!; try done.
    rewrite Hexec. destruct we; try done. cbn [returns with_pool]. by rewrite pool_run_one, Hfin.
  - exists fs', (pool pp). split_and!; try done; [rewrite Hexec; by destruct we|]. eapply (pooled_call we); try done.
    destruct Hruns as (w & Hi & Hw). unfold running. apply list_elem_of_omap. exists w.
    split; [by eapply list_elem_of_lookup_2|by rewrite Hw].
Qed.

Lemma pooled_exec_ok e pp o :
  pooled_ok pp -> run_ok K T server_fd (process_steps e) (proc pp) -> pooled_exec server_fd e pp = Some o ->
  exists pp', o = Ret (Some pp') /\ pooled_ok pp'.
Proof.
  intros Hpp Hro Hx. destruct e as [pe|i|i we].
  - eapply pooled_thread_ok; [done| |done]. apply Hro.
  - by eapply pooled_lock_ok.
  - pose proof Hx as Hx'. cbn [pooled_exec] in Hx'. apply bind_Some in Hx' as (w & Hi & Hx').
    apply bind_Some in Hx' as (t & Ht & Hx'). destruct (wstate w) as [|id|] eqn:Hw; try done.
    case_decide as Hid; [subst id|done]. apply bind_Some in Hx' as (o' & Ho' & _).
    cbn [process_exec fine_exec] in Ho'. apply bind_Some in Ho' as (o1 & Ho1 & _).
    destruct (pooled_work_ok i we pp t o1) as (fs' & p' & _ & Hx1 & Hpp' & _); try done; [by exists w|apply Hro|].
    rewrite Hx1 in Hx. injection Hx as <-. by eexists.
Qed.

Lemma pooled_run_ok es pp o :
  pooled_ok pp -> run_ok K T server_fd (es ≫= process_steps) (proc pp) -> pooled_run server_fd es pp = Some o ->
  exists pp', o = Ret (Some pp') /\ pooled_ok pp'.
Proof.
  revert pp. induction es as [|e es IH]; intros pp Hpp Hro Hrun; [injection Hrun as <-; by eexists|].
  cbn [pooled_run] in Hrun. apply bind_Some in Hrun as (o1 & Hx & Hrun). rewrite bind_cons in Hro.
  assert (Hro1 : run_ok K T server_fd (process_steps e) (proc pp)).
  { destruct e; simpl in *; [|done|]; (split; [apply Hro|by repeat case_match]). }
  destruct (pooled_exec_ok e pp o1 Hpp Hro1 Hx) as (pp1 & -> & Hpp1). apply (IH pp1 Hpp1); [|done].
  eapply run_ok_split; [exact Hro|]. by apply (pooled_exec_inv server_fd e pp pp1).
Qed.
End agree.

(** ** The server *)

Section served.
Context {S : Type} `{StorageLaws S}.
Context (K : gset bytes) (T : Z) (program path : bytes).

(** The process and the pool once [main] has constructed the server. *)
Definition launched_with (sv0 : Server S) (o : Options) (hardware_concurrency : Z) : PooledProcess S :=
  mkPooled (mkFine sv0 ∅) (server_pool o hardware_concurrency).

(** A process on the log of any processes before it. *)
Definition serving file argv env (o : Options) (sv0 : Server S) (server_fd : Z) : Prop :=
  exists m t s0 out epoll_fd, lives K T program path file m /\ starts K T path file argv env t s0 /\
    parse_args argv default_options = Run o /\
    launch program argv env s0 = Ret (Serves out sv0 epoll_fd server_fd).

Lemma launch_idle argv env s0 out (sv0 : Server S) epoll_fd server_fd :
  launch program argv env s0 = Ret (Serves out sv0 epoll_fd server_fd) -> pool_tasks sv0 = [].
Proof.
  unfold launch. destruct (parse_args argv default_options) as [| |o]; try done. intros Hr.
  apply bind_Ret_inv in Hr as (r & Hr & Hs). destruct r as [sv e f|]; [|done]. injection Hs as _ <- _ _.
  apply bind_Ret_inv in Hr as ([sv'|] & Hstart & Hs); [|done]. destruct (server_setup _ _); [|done].
  injection Hs as <- _ _. unfold server_start in Hstart. destruct (opt_aof_enabled o); [|by injection Hstart as <-].
  apply bind_Ret_inv in Hstart as ([s st] & _ & Hx). injection Hx as Hx. by apply bind_Some in Hx as (a & _ & [= <-]).
Qed.

Lemma serving_ok file argv env o sv0 server_fd hw :
  serving file argv env o sv0 server_fd ->
  exists a0, aof_start (Some (contents file)) (new_writer (le_now env) (le_interval env)) = Some a0 /\
    pooled_ok K T (contents file) a0 (launched_with sv0 o hw).
Proof.
  intros (m & t & s0 & out & epoll_fd & Hl%lives_logged & Hst & _ & Hlaunch).
  destruct (launch_ok K T program path file m argv env t s0 Hl Hst) as (out' & sv1 & Hl' & _ & a0 & Ha0 & Hok).
  pose proof (launch_idle _ _ _ _ _ _ _ Hlaunch) as Hidle.
  rewrite Hlaunch in Hl'. injection Hl' as -> -> -> ->. exists a0. split; [done|]. split; [done|].
  split; [apply new_pool_inv|]. split; [done|]. cbn [launched_with proc pool base]. unfold busy, server_pool.
  rewrite Hidle, running_new. split; [done|]. intros t' Ht'. by apply elem_of_nil in Ht'.
Qed.

(** C5: The process with its pool is both its components.  In every interleaving of the
    event loop, the workers, the writer and the expiration thread that meets the conditions
    of [run_ok] (no storage call logs a key for which another log call is on its way;
    EXPIRE deadlines fit the clock and are not 0 seconds; logged arguments survive quoting;
    the keys written are among [K], for which the storage has room; the disk is healthy;
    sweeps visit their shard; the kernel grants [fcntl] and [epoll_ctl]), in a process
    launched as in [processes_recover], no step is undefined or throws, the run is one of the process without the pool, and one of the pool alone.  The
    commands in flight are the tasks that workers run or that wait in the queue, each
    once; workers take them in the order the event loop submitted them; a queued one was
    not served yet; and the pool keeps its threads, each with one task at most. *)
Theorem pooled_refines file argv env o sv0 server_fd hw es out :
  serving file argv env o sv0 server_fd ->
  let pp0 := launched_with sv0 o hw in
  run_ok K T server_fd (es ≫= process_steps) (proc pp0) -> pooled_run server_fd es pp0 = Some out ->
  exists pp, out = Ret (Some pp) /\
    process_run server_fd (es ≫= process_steps) (proc pp0) = Some (Ret (Some (proc pp))) /\
    pool_run (pool_trace server_fd es pp0) (pool pp0) = Some (Ret (pool pp)) /\
    running (pool pp) ++ tasks_ (pool pp) ≡ₚ busy (base (proc pp)) /\
    taken (pool_trace server_fd es pp0) (pool pp0) ++ tasks_ (pool pp) = submitted (pool_trace server_fd es pp0) /\
    (forall t, t ∈ pool_tasks (base (proc pp)) -> task_conn t ∈ tasks_ (pool pp) -> task_state_of t = TDispatch) /\
    pool_size (pool pp) = pool_size (pool pp0) /\ (length (running (pool pp)) <= pool_size (pool pp))%nat.
Proof.
  intros Hsv pp0 Hro Hrun. destruct (serving_ok _ _ _ _ _ _ hw Hsv) as (a0 & _ & Hpp0).
  destruct (pooled_run_ok K T _ a0 server_fd es pp0 out Hpp0 Hro Hrun) as (pp & -> & Hpp). exists pp.
  destruct (pooled_run_projects _ _ _ _ Hrun) as [Hproc Hpool]. pose proof Hpp as (_ & _ & Hal & Hb & Hq).
  destruct (pool_run_tasks _ _ _ Hpool Hal) as [_ Htaken]. split_and!; try done.
  - by eapply pool_run_size.
  - apply length_running.
Qed.
End served.
