(* ===== verification/Finish.v ===== *)
(** * Every command is answered

    What the workers of the pool can still do in a state the process reaches: with their
    own steps alone they finish every command that was submitted; and what they cannot:
    leave, so that the destructors never end with defined behaviour. *)

From S2P Require Import Prelude Cpp Lru Parser Response StorageInterface AofFormat AofWriter.
From S2P Require Import AofReplay Dispatcher DispatcherFacts Recovery Restarts LogOrder SplitLog.
From S2P Require Import Connection ThreadPool Server ServerFacts FineServer ServerLoop ServerLife Main Process Drain Pooled.
Local Open Scope Z_scope.

Section finish.
Context {S : Type} `{StorageLaws S}.
Context (K : gset bytes) (T : Z) (existing : bytes) (a0 : AOFWriter) (server_fd : Z).
Implicit Types (fs : FineServer S) (pp : PooledProcess S).

Abbreviation pooled_ok := (pooled_ok K T existing a0).

(** ** The workers can finish *)

Definition worker_step (e : pooled_event) : Prop := match e with QThread _ => False | _ => True end.

(** Steps of workers lead from one state to the other. *)
Definition pooled_works pp pp' : Prop :=
  exists es, Forall worker_step es /\ run_ok K T server_fd (es ≫= process_steps) (proc pp) /\
    pooled_run server_fd es pp = Some (Ret (Some pp')) /\ pooled_ok pp'.

Lemma pooled_works_refl pp : pooled_ok pp -> pooled_works pp pp.
Proof. intros Hpp. by exists []. Qed.

Lemma pooled_works_step e pp pp1 pp' :
  worker_step e -> run_ok K T server_fd (process_steps e) (proc pp) ->
  pooled_exec server_fd e pp = Some (Ret (Some pp1)) -> pooled_works pp1 pp' -> pooled_works pp pp'.
Proof.
  intros Hw Hro Hx (es & Hes & Hros & Hrun & Hpp'). exists (e :: es). split; [by constructor|].
  split; [|split; [cbn [pooled_run]; by rewrite Hx|done]]. rewrite bind_cons.
  eapply run_ok_app; [done| |exact Hros]. by apply (pooled_exec_inv server_fd e pp pp1).
Qed.

Lemma pooled_run_app es1 es2 pp pp1 :
  pooled_run server_fd es1 pp = Some (Ret (Some pp1)) ->
  pooled_run server_fd (es1 ++ es2) pp = pooled_run server_fd es2 pp1.
Proof.
  revert pp. induction es1 as [|e es1 IH]; intros pp; [by intros [= <-]|]. cbn [pooled_run app].
  destruct (pooled_exec server_fd e pp) as [[[pp2|]|]|]; simpl; try done. apply IH.
Qed.

Lemma pooled_works_trans pp pp1 pp' : pooled_works pp pp1 -> pooled_works pp1 pp' -> pooled_works pp pp'.
Proof.
  intros (es1 & Hes1 & Hro1 & Hrun1 & _) (es2 & Hes2 & Hro2 & Hrun2 & Hpp'). exists (es1 ++ es2).
  split; [by apply Forall_app|]. rewrite bind_app. split; [|split; [by rewrite (pooled_run_app _ _ _ _ Hrun1)|done]].
  eapply run_ok_app; [done| |exact Hro2]. by apply (pooled_run_projects server_fd es1 pp pp1).
Qed.

(** The calls of one task are the calls of the worker that runs it. *)
Lemma pooled_works_calls i id j es pp fs' :
  pooled_ok pp -> Forall (call_of j) es -> runs i id (pool pp) -> busy (base (proc pp)) !! j = Some id ->
  run_ok K T server_fd (PWork <$> es) (proc pp) ->
  process_run server_fd (PWork <$> es) (proc pp) = Some (Ret (Some fs')) ->
  pooled_works pp (mkPooled fs' (pool pp)).
Proof.
  intros Hpp Hes. revert pp Hpp. induction Hes as [|e es He Hes IH]; intros pp Hpp Hruns Hj Hro Hrun.
  { injection Hrun as <-. destruct pp. by apply pooled_works_refl. }
  rewrite fmap_cons in *. cbn [process_run run_ok] in *. destruct Hro as [Hso Hro].
  apply bind_Some in Hrun as (o & Hx & Hrun). rewrite Hx in Hro.
  cbn [process_exec fine_exec] in Hx. apply bind_Some in Hx as (o1 & Ho1 & [= <-]).
  assert (Hidx : work_index e = j) by (by destruct e). assert (Hcl : is_clear e = false) by (by destruct e).
  unfold busy in Hj. rewrite list_lookup_fmap in Hj. apply fmap_Some in Hj as (t & Ht & ->).
  destruct (pooled_work_ok K T existing a0 server_fd i e pp t o1) as (fs1 & p1 & -> & Hexec & Hpp1 & _ & Hp1); [done|by rewrite Hidx|done..|].
  rewrite Hcl in Hp1. subst p1. eapply (pooled_works_step (QWork i e)); [done| |exact Hexec|].
  { split; [exact Hso|]. by repeat case_match. }
  apply (IH (mkPooled fs1 (pool pp))); [done|done| |done|done].
  destruct (work_exec_tasks _ _ _ Ho1) as (t' & Ht' & Hts). rewrite Hcl in Hts. destruct Hts as [st Hts].
  rewrite Hidx in *. assert (t' = t) as -> by congruence. cbn [proc]. unfold busy. rewrite Hts, list_lookup_fmap.
  rewrite list_lookup_insert_eq by (by eapply lookup_lt_Some). done.
Qed.

(** A command of which the log call is on its way is with a worker. *)
Lemma logging_runs pp t l :
  pooled_ok pp -> t ∈ pool_tasks (base (proc pp)) -> logs (proc pp) !! task_conn t = Some l ->
  exists i, runs i (task_conn t) (pool pp).
Proof.
  intros ((Hinv & Hown & _) & _ & _ & Hb & Hq) Ht Hl. apply running_runs.
  destruct (Hown (task_conn t)) as (u & r & Hu & Hc & Hst); [by eexists|].
  assert (Hin : task_conn u ∈ running (pool pp) ++ tasks_ (pool pp)).
  { rewrite Hb. unfold busy. by apply list_elem_of_fmap_2. }
  rewrite <- Hc. apply elem_of_app in Hin as [Hin|Hin]; [done|]. rewrite (Hq u Hu Hin) in Hst. done.
Qed.
(** First the log calls. *)
Lemma pooled_logs pp :
  pooled_ok pp ->
  exists pp', pooled_works pp pp' /\ logs (proc pp') = ∅ /\ pool pp' = pool pp /\
    pool_tasks (base (proc pp')) = pool_tasks (base (proc pp)).
Proof.
  remember (size (logs (proc pp))) as n eqn:Hn. revert pp Hn. induction n as [|n IH]; intros pp Hn Hpp.
  { exists pp. split; [by apply pooled_works_refl|]. split; [by apply map_size_empty_iff|done]. }
  destruct (map_choose (logs (proc pp))) as (id & l & Hid); [intros He; rewrite He, map_size_empty in Hn; lia|].
  pose proof Hpp as ((_ & Hown & _) & _). destruct (Hown id) as (t & r & Hin & Hc & Hst); [by eexists|]. subst id.
  destruct (logging_runs pp t l Hpp Hin Hid) as [i Hruns]. apply list_elem_of_lookup in Hin as [j Hj].
  assert (Hx : exists o, work_exec (WkLog j) (proc pp) = Some o)
    by (simpl; rewrite Hj; simpl; rewrite Hid; by eexists). destruct Hx as [o Hx].
  destruct (pooled_work_ok K T existing a0 server_fd i (WkLog j) pp t o Hpp Hj Hruns I Hx) as (fs1 & p1 & -> & Hexec & Hpp1 & _ & ->).
  simpl in Hx. rewrite Hj in Hx. simpl in Hx. rewrite Hid in Hx. injection Hx as <-. edestruct IH as (pp' & Hw & Hrest); [|exact Hpp1|].
  { simpl. rewrite map_size_delete_Some by (by eexists). lia. }
  exists pp'. split; [|exact Hrest].
  eapply (pooled_works_step (QWork i (WkLog j))); [done| |exact Hexec|done]. split; [done|]. by repeat case_match.
Qed.

(** Then one task that is running. *)
Lemma pooled_finish_one pp i id :
  pooled_ok pp -> runs i id (pool pp) -> Forall (servable K T) (pool_tasks (base (proc pp))) -> logs (proc pp) = ∅ ->
  exists pp', pooled_works pp pp' /\ tasks_ (pool pp') = tasks_ (pool pp) /\
    id :: running (pool pp') ≡ₚ running (pool pp) /\
    Forall (servable K T) (pool_tasks (base (proc pp'))) /\ logs (proc pp') = ∅.
Proof.
  intros Hpp Hruns Hserve Hl. pose proof Hpp as (Hok & _ & _ & Hb & _).
  assert (Hin : id ∈ busy (base (proc pp))).
  { rewrite <- Hb. apply elem_of_app. left. destruct Hruns as (w & Hi & Hw). unfold running. apply list_elem_of_omap.
    exists w. split; [by eapply list_elem_of_lookup_2|by rewrite Hw]. }
  apply list_elem_of_lookup in Hin as [j Hj]. pose proof Hj as Hjt. unfold busy in Hjt.
  rewrite list_lookup_fmap in Hjt. apply fmap_Some in Hjt as (t & Ht & ->).
  pose proof Hserve as Hs. rewrite Forall_lookup in Hs.
  destruct (ready_task K T existing a0 server_fd (proc pp) j t Hok Ht (Hs j t Ht) Hl)
    as (fs1 & (es & Hcalls & Hro & Hrun & Hok1) & Hl1 & Ht1).
  pose proof (pooled_works_calls i _ j es pp fs1 Hpp Hcalls Hruns Hj Hro Hrun) as Hw1.
  pose proof Hw1 as (_ & _ & _ & _ & Hpp1). set (t1 := mkTask (task_conn t) (task_cmd t) TClear) in *.
  assert (Hj1 : pool_tasks (base fs1) !! j = Some t1).
  { rewrite Ht1. apply list_lookup_insert_eq. by eapply lookup_lt_Some. }
  destruct (clear_task K T existing a0 fs1 j t1 Hok1 Hj1 eq_refl) as (fs2 & Hx2 & _ & Ht2 & Hl2).
  destruct (pooled_work_ok K T existing a0 server_fd i (WkClear j) (mkPooled fs1 (pool pp)) t1 _ Hpp1 Hj1 Hruns I Hx2)
    as (? & p2 & [= <-] & Hexec & Hpp2 & Htasks & Hr).
  exists (mkPooled fs2 p2). split; [|split; [done|split; [done|split; [|cbn [proc]; congruence]]]].
  - eapply pooled_works_trans; [exact Hw1|]. eapply (pooled_works_step (QWork i (WkClear j))); [done| |exact Hexec|].
    + split; [done|]. by repeat case_match.
    + by apply pooled_works_refl.
  - cbn [proc]. rewrite Ht2, Ht1. apply Forall_delete. by apply Forall_insert.
Qed.

(** All that are running. *)
Lemma pooled_finish_running pp :
  pooled_ok pp -> Forall (servable K T) (pool_tasks (base (proc pp))) -> logs (proc pp) = ∅ ->
  exists pp', pooled_works pp pp' /\ tasks_ (pool pp') = tasks_ (pool pp) /\ running (pool pp') = [] /\
    Forall (servable K T) (pool_tasks (base (proc pp'))) /\ logs (proc pp') = ∅.
Proof.
  remember (length (running (pool pp))) as n eqn:Hn. revert pp Hn. induction n as [|n IH]; intros pp Hn Hpp Hs Hl.
  { exists pp. split; [by apply pooled_works_refl|]. split; [done|]. split; [|done]. by apply length_zero_iff_nil. }
  destruct (running (pool pp)) as [|id rest] eqn:Hr; [done|].
  destruct (running_runs id (pool pp)) as [i Hruns]; [rewrite Hr; by left|].
  destruct (pooled_finish_one pp i id Hpp Hruns Hs Hl) as (pp1 & Hw1 & Ht1 & Hr1 & Hs1 & Hl1).
  pose proof Hw1 as (_ & _ & _ & _ & Hpp1). rewrite Hr in Hr1. apply Permutation_cons_inv in Hr1.
  destruct (IH pp1) as (pp' & Hw & Ht & Hrest); [|done..|].
  { injection Hn as ->. by rewrite Hr1. }
  exists pp'. split; [by eapply pooled_works_trans|]. by rewrite Ht, Ht1.
Qed.

(** And the queue, with one worker. *)
Lemma pooled_finish_queue pp :
  pooled_ok pp -> Forall (servable K T) (pool_tasks (base (proc pp))) -> logs (proc pp) = ∅ ->
  running (pool pp) = [] ->
  exists pp', pooled_works pp pp' /\ tasks_ (pool pp') = [] /\ running (pool pp') = [] /\ logs (proc pp') = ∅.
Proof.
  remember (tasks_ (pool pp)) as ts eqn:Hts. revert pp Hts. induction ts as [|t ts IH]; intros pp Hts Hpp Hs Hl Hr.
  { exists pp. split; [by apply pooled_works_refl|done]. }
  pose proof Hpp as (_ & [Hne HF] & Hal & _). destruct (workers_ (pool pp)) as [|w ws] eqn:Hws; [done|].
  apply Forall_cons in HF as [[Hex _] _].
  assert (Hw : wstate w = Idle).
  { destruct (wstate w) as [|u|] eqn:E; [done| |done]. unfold running in Hr. rewrite Hws in Hr. simpl in Hr.
    by rewrite E in Hr. }
  set (p1 := set_worker 0 (Running t) (mkPool (workers_ (pool pp)) ts (members_alive (pool pp)))).
  assert (Hx : pool_exec (PLock 0) (pool pp) = Some (Ret p1)).
  { simpl. rewrite Hws. simpl. rewrite Hw. unfold worker_lock. by rewrite require_true, <- Hts by done. }
  pose proof (pooled_lock K T existing a0 0 pp p1 Hpp Hx) as Hpp1.
  destruct (pooled_finish_running (mkPooled (proc pp) p1) Hpp1 Hs Hl) as (pp2 & Hw2 & Ht2 & Hr2 & Hs2 & Hl2).
  pose proof Hw2 as (_ & _ & _ & _ & Hpp2). destruct (IH pp2) as (pp' & Hw' & Hrest); [by rewrite Ht2|done|done|done|done|].
  exists pp'. split; [|done]. eapply (pooled_works_step (QLock 0)); [done|done| |eapply pooled_works_trans; [exact Hw2|done]].
  cbn [pooled_exec with_pool]. by rewrite pool_run_one, Hx.
Qed.

Lemma pooled_all_done pp :
  pooled_ok pp -> Forall (servable K T) (pool_tasks (base (proc pp))) ->
  exists pp', pooled_works pp pp' /\ pool_tasks (base (proc pp')) = [] /\ logs (proc pp') = ∅ /\
    tasks_ (pool pp') = [] /\ running (pool pp') = [].
Proof.
  intros Hpp Hs. destruct (pooled_logs pp Hpp) as (pp1 & Hw1 & Hl1 & _ & Ht1). rewrite <- Ht1 in Hs.
  pose proof Hw1 as (_ & _ & _ & _ & Hpp1).
  destruct (pooled_finish_running pp1 Hpp1 Hs Hl1) as (pp2 & Hw2 & _ & Hr2 & Hs2 & Hl2).
  pose proof Hw2 as (_ & _ & _ & _ & Hpp2).
  destruct (pooled_finish_queue pp2 Hpp2 Hs2 Hl2 Hr2) as (pp3 & Hw3 & Ht3 & Hr3 & Hl3).
  pose proof Hw3 as (_ & _ & _ & _ & (_ & _ & _ & Hb & _)). exists pp3. split_and!; try done.
  - eapply pooled_works_trans; [exact Hw1|]. by eapply pooled_works_trans.
  - rewrite Ht3, Hr3 in Hb. apply Permutation_nil_l in Hb. unfold busy in Hb.
    by destruct (pool_tasks (base (proc pp3))).
Qed.
End finish.

(** ** The server *)

Section served.
Context {S : Type} `{StorageLaws S}.
Context (K : gset bytes) (T : Z) (program path : bytes).

(** C6: In every state the process reaches by a run that meets the conditions of [run_ok] (as
    in [pooled_refines]), with however many threads, if each command still queued can be
    served at some time under these conditions ([servable]: its EXPIRE deadline fits the
    clock, its arguments can be logged, its key is among [K]), the workers alone can
    finish every command that was submitted, whatever its log call and however much of its
    response was sent, each worker one task after the other: no step they have to make is
    impossible or undefined.  Afterwards the queue is empty, no worker runs a task, every
    log call was made and every connection is ready for its next command. *)
Theorem pooled_drains file argv env o sv0 server_fd hw es pp :
  serving K T program path file argv env o sv0 server_fd ->
  run_ok K T server_fd (es ≫= process_steps) (mkFine sv0 ∅) ->
  pooled_run server_fd es (launched_with sv0 o hw) = Some (Ret (Some pp)) ->
  Forall (servable K T) (pool_tasks (base (proc pp))) ->
  exists work pp', Forall worker_step work /\ run_ok K T server_fd (work ≫= process_steps) (proc pp) /\
    pooled_run server_fd work pp = Some (Ret (Some pp')) /\
    pool_tasks (base (proc pp')) = [] /\ tasks_ (pool pp') = [] /\ running (pool pp') = [] /\
    logs (proc pp') = ∅ /\ forall id c, heap (base (proc pp')) !! id = Some c -> in_flight_ c = false.
Proof.
  intros Hsv Hro Hrun Hserve. destruct (serving_ok K T program path _ _ _ _ _ _ hw Hsv) as (a0 & _ & Hpp0).
  destruct (pooled_run_ok K T _ a0 server_fd es _ _ Hpp0 Hro Hrun) as (? & [= <-] & Hpp).
  destruct (pooled_all_done K T _ a0 server_fd pp Hpp Hserve)
    as (pp' & (work & Hw & Hrow & Hrunw & Hpp') & Ht & Hl & Hq & Hr).
  exists work, pp'. split_and!; try done. intros id c Hc. destruct Hpp' as [Hok' _].
  by eapply (drained_idle K T (contents file) a0).
Qed.

(** ** The end of the process *)

(** What [stop] writes, in the destructor, and what [main] writes last. *)
Definition stop_text : bytes := str "Shutting down..." ++ [ch_nl].
Definition stopped_text : bytes := str "Server stopped." ++ [ch_nl].

(** Every [jthread] of the pool was joined. *)
Definition pool_joined (p : ThreadPool nat) : bool :=
  forallb (fun w => match wstate w with Exited => true | _ => false end) (workers_ p).

(** [main] after the loop: the destructor of the server, [stop] the steps of the log writer
    meanwhile; then its members in reverse order, the connections being gone: the pool,
    [pes] the steps of its workers and of their [jthread] objects, the event loop, the log
    writer, the storage.  The code, the last words of [main] and the descriptors closed.
    [None] when a thread is not joined. *)
Definition process_exit (epoll_fd server_fd : Z) (stop : list aof_event) (fio : io_result)
    (pes : list (@pool_event nat)) (pp : PooledProcess S) : option (outcome (Z * bytes * list Z)) :=
  '(sv, closed) ← server_destroy server_fd stop fio (base (proc pp));
  o ← pool_run (PDestroyMembers :: pes) (pool pp);
  match o with
  | UB => Some UB
  | Ret p =>
      if pool_joined p then
        _ ← writer_destroy fio sv;
        Some (Ret (0, stop_text ++ stopped_text, option_list closed ++ option_list (event_loop_destroy epoll_fd)))
      else None
  end.

(** A pool with its members destroyed cannot be joined, and one of its workers is about to
    use them. *)
Lemma pool_never_joined (p : ThreadPool nat) : pool_inv p -> pool_joined p = false.
Proof.
  intros [Hne HF]. unfold pool_joined. destruct (workers_ p) as [|w ws]; [done|].
  apply Forall_cons in HF as [[Hw _] _]. simpl. by destruct (wstate w).
Qed.

Lemma pool_dies (p : ThreadPool nat) :
  pool_inv p -> members_alive p = true -> exists pes, pool_run (PDestroyMembers :: pes) p = Some UB.
Proof.
  intros [Hne HF] Hal. destruct (workers_ p) as [|w ws] eqn:Hws; [done|]. apply Forall_cons in HF as [[Hw _] _].
  destruct (wstate w) as [|t|] eqn:Hst; [| |done].
  - exists [PLock 0]. simpl. rewrite Hal. simpl. rewrite Hws. simpl. by rewrite Hst.
  - exists [PFinish 0; PLock 0]. simpl. rewrite Hal. simpl. rewrite Hws. simpl. by rewrite Hst.
Qed.

(** C32: [main] never gets to its last line with defined behaviour.  The pool destroys its mutex
    and its queue before its threads are asked to stop, and they can leave only through
    their locked section: from every state the process reaches with the log on, by a run
    that meets the conditions of [run_ok], and whatever the order of the steps, its destructors do not end or they have undefined behaviour, and there is an
    order in which they come to it. *)
Theorem exit_undefined file argv env o sv0 server_fd hw es pp :
  serving K T program path file argv env o sv0 server_fd ->
  run_ok K T server_fd (es ≫= process_steps) (mkFine sv0 ∅) ->
  pooled_run server_fd es (launched_with sv0 o hw) = Some (Ret (Some pp)) ->
  (forall epoll_fd stop fio pes r, process_exit epoll_fd server_fd stop fio pes pp = Some r -> r = UB) /\
  exists stop pes, Forall healthy stop /\ forall epoll_fd, process_exit epoll_fd server_fd stop IoOk pes pp = Some UB.
Proof.
  intros Hsv Hro Hrun. destruct (serving_ok K T program path _ _ _ _ _ _ hw Hsv) as (a0 & Ha0 & Hpp0).
  destruct (pooled_run_ok K T _ a0 server_fd es _ _ Hpp0 Hro Hrun) as (? & [= <-] & Hpp).
  pose proof Hpp as (Hok & Hp & Hal & _). unfold process_exit. split.
  - intros epoll_fd stop fio pes r Hx. apply bind_Some in Hx as ([sv closed] & _ & Hx). apply bind_Some in Hx as ([p|] & Hr & Hx);
      [|by injection Hx as <-]. rewrite pool_never_joined in Hx; [done|]. by eapply pool_run_inv.
  - destruct (destroy_completes K T file env (proc pp) server_fd) as (stop & sv' & closed & Hh & _ & Hd);
      [by exists a0|]. destruct (pool_dies _ Hp Hal) as [pes Hpes]. exists stop, pes. split; [done|].
    intros epoll_fd. rewrite Hd. cbn [mbind option_bind]. by rewrite Hpes.
Qed.
End served.
