(* ===== verification/Double.v ===== *)
(** * The type [double]

    IEEE 754 binary64 as [tools/cache_bench.cpp] uses it: conversion from integers,
    comparison, product, difference and quotient rounded to nearest even, conversion to
    an integer type by truncation, and [std::atof].  The arithmetic is that of the
    executable specification of the Standard Library ([SpecFloat]). *)

From Stdlib Require Import SpecFloat.
From stdpp Require Import sorting.
From S2P Require Import Prelude Cpp.
Local Open Scope Z_scope.

(** ** Operations *)

Abbreviation double := spec_float.
Definition double_prec : Z := 53.
Definition double_emax : Z := 1024.

(** Conversion of an integer, [m * 2^e] in general. *)
Definition double_of (z : Z) : double := binary_normalize double_prec double_emax z 0 false.

Definition dmul : double -> double -> double := SFmul double_prec double_emax.
Definition dsub : double -> double -> double := SFsub double_prec double_emax.
Definition ddiv : double -> double -> double := SFdiv double_prec double_emax.
Definition dlt : double -> double -> bool := SFltb.
Definition dle (x y : double) : Prop := SFleb x y = true.

#[export] Instance dle_dec x y : Decision (dle x y).
Proof. unfold dle. apply _. Defined.

Definition is_nan (x : double) : bool := match x with S754_nan => true | _ => false end.

(** Conversion to an integer type with the range [lo .. hi]: the fraction is dropped, and
    a value that does not fit is undefined. *)
Definition trunc (x : double) : option Z :=
  match x with
  | S754_zero _ => Some 0
  | S754_finite s m e =>
      let a := if 0 <=? e then Z.shiftl (Zpos m) e else Z.shiftr (Zpos m) (- e) in
      Some (if s then - a else a)
  | _ => None
  end.

Definition double_to (lo hi : Z) (x : double) : outcome Z :=
  z ← deref (trunc x); require (lo <= z <= hi);; Ret z.

(** ** The order *)

(** The position of a double that is not NaN in the order, as a lexicographic key. *)
Definition dkey (x : double) : Z * Z * Z :=
  match x with
  | S754_infinity true => (-2, 0, 0)
  | S754_finite true m e => (-1, - e, - Zpos m)
  | S754_zero _ | S754_nan => (0, 0, 0)
  | S754_finite false m e => (1, e, Zpos m)
  | S754_infinity false => (2, 0, 0)
  end.

Definition lex_le (a b : Z * Z * Z) : Prop :=
  a.1.1 < b.1.1 \/ (a.1.1 = b.1.1 /\ (a.1.2 < b.1.2 \/ (a.1.2 = b.1.2 /\ a.2 <= b.2))).

#[export] Instance lex_le_dec a b : Decision (lex_le a b).
Proof. unfold lex_le. apply _. Defined.

Definition key_le (x y : double) : Prop := lex_le (dkey x) (dkey y).

#[export] Instance key_le_dec x y : Decision (key_le x y).
Proof. unfold key_le. apply _. Defined.

(** [std::sort] on doubles: [operator<] is a strict weak order only without NaN, and then
    the order of the keys.  Doubles with the same key are the same value. *)
Definition std_sort (l : list double) : outcome (list double) :=
  require (Forall (fun x => is_nan x = false) l);; Ret (merge_sort key_le l).

(** ** [std::atof]

    White space, a sign, then a decimal or hexadecimal number with an optional fraction
    and exponent, an infinity or a NaN; 0 when there is no number.  The result is the
    nearest double. *)

Definition hex_val (c : ascii) : option Z :=
  let u := byte_val (toupper c) in
  if (65 <=? u) && (u <=? 70) then Some (u - 55) else digit_val c.

(** The longest run of digits: its value after [acc], how many, and what follows. *)
Fixpoint scan_run (dv : ascii -> option Z) (base acc : Z) (n : nat) (s : bytes)
    : Z * nat * bytes :=
  match s with
  | c :: s' =>
      match dv c with
      | Some d => scan_run dv base (acc * base + d) (S n) s'
      | None => (acc, n, s)
      end
  | [] => (acc, n, [])
  end.

(** Digits with an optional point: the digits as an integer, how many of them are after
    the point, how many there are, and what follows. *)
Definition scan_point (dv : ascii -> option Z) (base : Z) (s : bytes) : Z * nat * nat * bytes :=
  let '(a, n, s1) := scan_run dv base 0 0 s in
  match s1 with
  | c :: s2 =>
      if bool_decide (c = "."%char) then
        let '(b, k, s3) := scan_run dv base a 0 s2 in (b, k, (n + k)%nat, s3)
      else (a, 0%nat, n, s1)
  | [] => (a, 0%nat, n, s1)
  end.

(** An exponent: the letter, an optional sign and at least one digit; otherwise none. *)
Definition scan_exponent (letter : ascii) (s : bytes) : Z :=
  match s with
  | c :: s1 =>
      if bool_decide (toupper c = letter) then
        let '(sign, ds) := scan_sign s1 in
        if starts_with_digit ds then sign * (scan_digits 0 ds).1 else 0
      else 0
  | [] => 0
  end.

Definition starts_with_nocase (p : string) (s : bytes) : bool :=
  bool_decide (toupper <$> take (String.length p) s = str p).

(** [(-1)^neg * m * base^e], rounded once. *)
Definition scale (neg : bool) (m base e : Z) : double :=
  match m with
  | Zpos p =>
      if 0 <=? e then
        match Zpos p * base ^ e with
        | Zpos q => binary_round double_prec double_emax neg q 0
        | _ => S754_zero neg
        end
      else ddiv (S754_finite neg p 0) (S754_finite false (Z.to_pos (base ^ (- e))) 0)
  | _ => S754_zero neg
  end.

Definition atof (s : bytes) : double :=
  let '(sign, s1) := scan_sign (skip_spaces s) in
  let neg := sign <? 0 in
  if starts_with_nocase "INF" s1 then S754_infinity neg
  else if starts_with_nocase "NAN" s1 then S754_nan
  else
    let '(hm, hk, hn, hrest) := scan_point hex_val 16 (drop 2 s1) in
    if starts_with_nocase "0X" s1 && bool_decide (0 < hn)%nat then
      scale neg hm 2 (scan_exponent "P" hrest - 4 * Z.of_nat hk)
    else
      let '(m, k, n, rest) := scan_point digit_val 10 s1 in
      if bool_decide (n = 0%nat) then S754_zero false
      else scale neg m 10 (scan_exponent "E" rest - Z.of_nat k).

Example atof_decimal : atof (str " 0.8") = S754_finite false 7205759403792794 (-53).
Proof. vm_compute. reflexivity. Qed.
Example atof_exponent : atof (str "-12.5e-1x") = S754_finite true 5629499534213120 (-52).
Proof. vm_compute. reflexivity. Qed.
Example atof_hex : atof (str "0x1.8p1") = double_of 3.
Proof. vm_compute. reflexivity. Qed.
Example atof_none : atof (str "localhost") = double_of 0.
Proof. vm_compute. reflexivity. Qed.

Lemma dle_key x y :
  dle x y <-> is_nan x = false /\ is_nan y = false /\ lex_le (dkey x) (dkey y).
Proof.
  unfold dle, SFleb, lex_le.
  destruct x as [s|s| |s m e], y as [t|t| |t n f]; simpl;
    try destruct s; try destruct t; simpl; try (split; intros; destruct_and?; (done || lia));
    change (Pos.compare_cont Eq m n) with (Pos.compare m n);
    destruct (Z.compare_spec e f); destruct (Pos.compare_spec m n); simpl;
    (split; [intros; split_and!; (done || lia)|intros (_ & _ & ?); (done || lia)]).
Qed.

(** Without NaN, [operator<] is the strict part of the order. *)
Lemma dlt_key x y :
  is_nan x = false -> is_nan y = false -> dlt x y = true <-> ~ key_le y x.
Proof.
  intros Hx Hy. unfold key_le, dlt, SFltb, lex_le.
  destruct x as [s|s| |s m e], y as [t|t| |t n f]; try done;
    try destruct s; try destruct t; simpl; try (split; (done || lia));
    change (Pos.compare_cont Eq m n) with (Pos.compare m n);
    destruct (Z.compare_spec e f); destruct (Pos.compare_spec m n); simpl;
    (split; [intros; (done || lia)|intros; (done || lia)]).
Qed.

(** ** No NaN from integers *)

Lemma shr_nonneg m l e n : 0 <= m -> 0 <= shr_m (fst (shr (shr_record_of_loc m l) e n)).
Proof.
  intros Hm. assert (H0 : 0 <= shr_m (shr_record_of_loc m l)) by (by destruct l as [|[]]).
  destruct n as [|p|p]; simpl; try done.
  generalize dependent (shr_record_of_loc m l). clear Hm.
  assert (H1 : forall r, 0 <= shr_m r -> 0 <= shr_m (shr_1 r)).
  { intros [[|[q|q|]|[q|q|]] r s]; simpl; lia. }
  induction p as [p IH|p IH|]; intros r Hr; simpl; auto.
Qed.

Lemma round_nonneg m l : 0 <= m -> 0 <= round_nearest_even m l.
Proof. intros. destruct l as [|[]]; simpl; try case_match; lia. Qed.

Lemma round_aux_not_nan s m e l :
  0 <= m -> is_nan (binary_round_aux double_prec double_emax s m e l) = false.
Proof.
  intros Hm. unfold binary_round_aux, shr_fexp.
  match goal with |- context [shr ?r ?a ?n] => pose proof (shr_nonneg m l a n Hm) as H1;
    destruct (shr r a n) as [r1 e1] end. simpl in *.
  apply round_nonneg with (l := loc_of_shr_record r1) in H1. revert H1.
  generalize (round_nearest_even (shr_m r1) (loc_of_shr_record r1)). intros m2 H2.
  match goal with |- context [shr ?r ?a ?n] => pose proof (shr_nonneg m2 loc_Exact a n H2) as H3;
    simpl in H3; destruct (shr r a n) as [r2 e2] end. simpl in *.
  destruct (shr_m r2); [done| |lia]. by case_match.
Qed.

Lemma double_of_not_nan z : is_nan (double_of z) = false.
Proof.
  unfold double_of, binary_normalize, binary_round. destruct z as [|p|p]; [done| |];
    destruct (shl_align _ _ _); apply round_aux_not_nan; lia.
Qed.

Lemma ddiv_not_nan x s m e :
  is_nan x = false -> is_nan (ddiv x (S754_finite s m e)) = false.
Proof.
  intros Hx. unfold ddiv, SFdiv. destruct x as [t|t| |t n f]; try done.
  unfold SFdiv_core_binary.
  match goal with |- context [Z.div_eucl ?a ?b] =>
    pose proof (Z.div_pos a b) as Hq; unfold Z.div in Hq; destruct (Z.div_eucl a b) as [q r] end.
  apply round_aux_not_nan, Hq; [|done].
  case_match; try done. apply Z.shiftl_nonneg. lia.
Qed.

(** ** Sorting *)

#[export] Instance key_le_trans : Transitive key_le.
Proof. intros x y z. unfold key_le, lex_le. lia. Qed.

#[export] Instance key_le_total : Total key_le.
Proof. intros x y. unfold key_le, lex_le. lia. Qed.

Lemma key_le_dle x y : is_nan x = false -> is_nan y = false -> dle x y <-> key_le x y.
Proof. rewrite dle_key. unfold key_le. tauto. Qed.

Lemma std_sort_ok l :
  Forall (fun x => is_nan x = false) l ->
  exists l', std_sort l = Ret l' /\ l' ≡ₚ l /\ StronglySorted key_le l'.
Proof.
  intros Hl. exists (merge_sort key_le l). unfold std_sort. rewrite require_true by done.
  split; [done|]. split; [apply merge_sort_Permutation|apply StronglySorted_merge_sort; apply _].
Qed.

(** ** Magnitudes

    [mag s lo hi x]: [x] is finite, not zero, has the sign [s], and its leading bit is
    worth [2^(lo - 1)] to [2^(hi - 1)]. *)
Definition mag (s : bool) (lo hi : Z) (x : double) : Prop :=
  match x with
  | S754_finite t m e => t = s /\ lo <= Zdigits2 (Zpos m) + e <= hi
  | _ => False
  end.

Lemma Zdigits2_log2 m : 0 < m -> Zdigits2 m = Z.log2 m + 1.
Proof.
  intros Hm. destruct m as [|p|p]; try lia. unfold Zdigits2.
  assert (H : digits2_pos p = Pos.size p) by (induction p as [p IH|p IH|]; simpl; rewrite ?IH; reflexivity).
  rewrite H. destruct p as [p|p|]; simpl; lia.
Qed.

Lemma Zdigits2_bounds m : 0 < m -> 2 ^ (Zdigits2 m - 1) <= m < 2 ^ Zdigits2 m.
Proof.
  intros Hm. rewrite Zdigits2_log2 by done. rewrite Z.add_simpl_r. by apply Z.log2_spec.
Qed.

Lemma Zdigits2_pos m : 0 < m -> 1 <= Zdigits2 m.
Proof. intros Hm. rewrite Zdigits2_log2 by done. pose proof (Z.log2_nonneg m). lia. Qed.

Lemma Zdigits2_interval m a b : 0 <= a -> 2 ^ a <= m < 2 ^ b -> a + 1 <= Zdigits2 m <= b.
Proof.
  intros Ha Hm. assert (0 < 2 ^ a) by (apply Z.pow_pos_nonneg; lia).
  rewrite Zdigits2_log2 by lia.
  assert (0 <= b) by (destruct (Z.le_gt_cases 0 b); [done|rewrite (Z.pow_neg_r 2 b) in Hm by done; lia]).
  destruct Hm as [Hm1 Hm2]. assert (0 < m) by lia. apply Z.log2_le_pow2 in Hm1; [|lia].
  apply Z.log2_lt_pow2 in Hm2; lia.
Qed.

(** A double below [2^hi] converts to any type that holds it. *)
Lemma double_to_mag s lo hi x a b :
  mag s lo hi x -> 0 <= hi -> a < 1 - 2 ^ hi -> 2 ^ hi <= b + 1 -> exists z, double_to a b x = Ret z.
Proof.
  destruct x as [| | |t m e]; try done. intros [_ Hd] Hhi Ha Hb. unfold double_to. simpl.
  pose proof (Zdigits2_pos (Zpos m) ltac:(lia)). set (z := if 0 <=? e then _ else _).
  assert (Hz : 0 <= z < 2 ^ hi).
  { subst z. destruct (Zdigits2_bounds (Zpos m) ltac:(lia)) as [_ Hu]. destruct (Z.leb_spec 0 e).
    - rewrite Z.shiftl_mul_pow2 by done. assert (0 < 2 ^ e) by (apply Z.pow_pos_nonneg; lia).
      pose proof (Z.pow_le_mono_r 2 (Zdigits2 (Zpos m) + e) hi) as Hp. rewrite Z.pow_add_r in Hp by lia. nia.
    - rewrite Z.shiftr_div_pow2 by lia. assert (0 < 2 ^ (- e)) by (apply Z.pow_pos_nonneg; lia).
      split; [apply Z.div_pos; lia|]. apply Z.div_lt_upper_bound; [done|].
      rewrite <- Z.pow_add_r by lia. pose proof (Z.pow_le_mono_r 2 (Zdigits2 (Zpos m)) (- e + hi)). lia. }
  exists (if t then - z else z). rewrite require_true by (destruct t; lia). done.
Qed.

(** Shifting right by [n] places, if [n] is positive. *)
Lemma shr_div m l e n :
  0 <= m ->
  shr_m (fst (shr (shr_record_of_loc m l) e n)) = m / 2 ^ Z.max 0 n /\
  snd (shr (shr_record_of_loc m l) e n) = e + Z.max 0 n.
Proof.
  intros Hm. assert (H0 : shr_m (shr_record_of_loc m l) = m) by (by destruct l as [|[]]).
  destruct n as [|p|p]; simpl; [by rewrite H0, Z.div_1_r, Z.add_0_r| |by rewrite H0, Z.div_1_r, Z.add_0_r].
  split; [|done]. change (Z.max 0 (Zpos p)) with (Zpos p).
  remember (shr_record_of_loc m l) as r eqn:Hr. clear Hr. subst m. revert r Hm. clear l.
  assert (H1 : forall r, 0 <= shr_m r -> shr_m (shr_1 r) = shr_m r / 2).
  { intros [[|[q|q|]|q] r s] Hr; rewrite <- Z.div2_div; simpl in *; lia || done. }
  assert (Hd : forall a q, 0 <= a -> 0 <= a / 2 ^ Zpos q).
  { intros a q Ha. apply Z.div_pos; [done|by apply Z.pow_pos_nonneg]. }
  induction p as [p IH|p IH|]; intros r Hr; cbn [SpecFloat.iter_pos].
  - assert (H2 : 0 <= shr_m r / 2) by (apply Z.div_pos; lia).
    assert (H3 : 0 <= shr_m (SpecFloat.iter_pos shr_1 p (shr_1 r))) by (rewrite IH; rewrite ?H1; auto).
    rewrite IH, IH, H1 by (done || by rewrite H1). rewrite !Z.div_div by (done || lia). f_equal.
    replace (Zpos p~1) with (1 + Zpos p + Zpos p) by lia. rewrite !Z.pow_add_r by lia. lia.
  - assert (H3 : 0 <= shr_m (SpecFloat.iter_pos shr_1 p r)) by (rewrite IH; auto).
    rewrite IH, IH by done. rewrite Z.div_div by (done || lia). f_equal.
    replace (Zpos p~0) with (Zpos p + Zpos p) by lia. by rewrite Z.pow_add_r by lia.
  - by apply H1.
Qed.

(** ** Rounding keeps the magnitude *)

Lemma fexp_le a k : a - 53 <= k -> -1074 <= k -> fexp double_prec double_emax a <= k.
Proof. unfold fexp, emin, double_prec, double_emax. lia. Qed.

(** [shr_fexp] moves the exponent up to [fexp] of the magnitude, if it is below. *)
Lemma shr_fexp_spec m e l :
  0 <= m ->
  let e1 := Z.max e (fexp double_prec double_emax (Zdigits2 m + e)) in
  shr_m (fst (shr_fexp double_prec double_emax m e l)) = m / 2 ^ (e1 - e) /\
  snd (shr_fexp double_prec double_emax m e l) = e1.
Proof.
  intros Hm e1. unfold shr_fexp.
  destruct (shr_div m l e (fexp double_prec double_emax (Zdigits2 m + e) - e) Hm) as [-> ->].
  assert (Heq : Z.max 0 (fexp double_prec double_emax (Zdigits2 m + e) - e) = e1 - e) by lia.
  rewrite Heq. split; [done|lia].
Qed.

(** Bounds after a shift. *)
Lemma div_pow2_lt a e e1 k : e <= e1 <= k -> a < 2 ^ (k - e) -> a / 2 ^ (e1 - e) < 2 ^ (k - e1).
Proof.
  intros He Ha. assert (0 < 2 ^ (e1 - e)) by (apply Z.pow_pos_nonneg; lia).
  apply Z.div_lt_upper_bound; [done|]. rewrite <- Z.pow_add_r by lia.
  by replace (e1 - e + (k - e1)) with (k - e) by lia.
Qed.

Lemma div_pow2_ge a e e1 k : e <= e1 <= k -> 2 ^ (k - e) <= a -> 2 ^ (k - e1) <= a / 2 ^ (e1 - e).
Proof.
  intros He Ha. assert (0 < 2 ^ (e1 - e)) by (apply Z.pow_pos_nonneg; lia).
  apply Z.div_le_lower_bound; [done|]. rewrite <- Z.pow_add_r by lia.
  by replace (e1 - e + (k - e1)) with (k - e) by lia.
Qed.

Lemma round_nearest_even_bounds m l : m <= round_nearest_even m l <= m + 1.
Proof. destruct l as [|[]]; simpl; try case_match; lia. Qed.

(** The mantissa and the exponent [binary_round_aux] ends with. *)
Lemma round_aux_unfold s m e l :
  0 <= m ->
  exists m2 e1 e2, binary_round_aux double_prec double_emax s m e l =
      match m2 / 2 ^ (e2 - e1) with
      | Z0 => S754_zero s
      | Zpos p => if e2 <=? 971 then S754_finite s p e2 else S754_infinity s
      | _ => S754_nan
      end /\
    e1 = Z.max e (fexp double_prec double_emax (Zdigits2 m + e)) /\
    m / 2 ^ (e1 - e) <= m2 <= m / 2 ^ (e1 - e) + 1 /\
    e2 = Z.max e1 (fexp double_prec double_emax (Zdigits2 m2 + e1)).
Proof.
  intros Hm. unfold binary_round_aux.
  destruct (shr_fexp_spec m e l Hm) as [H1 H2]. destruct (shr_fexp _ _ m e l) as [r1 e1]. simpl in H1, H2.
  pose proof (round_nearest_even_bounds (shr_m r1) (loc_of_shr_record r1)) as Hr.
  set (m2 := round_nearest_even (shr_m r1) (loc_of_shr_record r1)) in *.
  assert (0 <= m / 2 ^ (e1 - e)) by (apply Z.div_pos; [done|apply Z.pow_pos_nonneg; lia]).
  assert (Hm2 : 0 <= m2) by (subst; lia).
  destruct (shr_fexp_spec m2 e1 loc_Exact Hm2) as [H3 H4].
  destruct (shr_fexp _ _ m2 e1 loc_Exact) as [r2 e2]. simpl in H3, H4.
  exists m2, e1, e2. rewrite H3, <- H4. subst e1. rewrite <- H1. done.
Qed.

Lemma round_aux_mag s m e l lo hi :
  0 < m -> lo <= Zdigits2 m + e <= hi -> -1000 <= lo -> hi <= 900 ->
  mag s lo (hi + 1) (binary_round_aux double_prec double_emax s m e l).
Proof.
  intros Hm HD Hlo Hhi. destruct (round_aux_unfold s m e l) as (m2 & e1 & e2 & -> & H1 & Hm2 & H2); [lia|].
  destruct (Zdigits2_bounds m Hm) as [Hl Hu]. set (D := Zdigits2 m + e) in *.
  pose proof (Zdigits2_pos m Hm).
  pose proof (fexp_le D (D - 1) ltac:(lia) ltac:(lia)) as Hf.
  assert (He1 : e <= e1 <= D - 1) by lia.
  pose proof (div_pow2_ge m e e1 (D - 1) He1 ltac:(replace (D - 1 - e) with (Zdigits2 m - 1) by lia; done)) as Hm1.
  pose proof (div_pow2_lt m e e1 D ltac:(lia) ltac:(replace (D - e) with (Zdigits2 m) by lia; done)) as Hm1'.
  assert (Hd2 : D - 1 - e1 + 1 <= Zdigits2 m2 <= D - e1 + 1).
  { apply Zdigits2_interval; [lia|]. rewrite Z.pow_add_r by lia. lia. }
  assert (0 < 2 ^ (D - 1 - e1)) by (apply Z.pow_pos_nonneg; lia).
  destruct (Zdigits2_bounds m2 ltac:(lia)) as [Hl2 Hu2]. set (D2 := Zdigits2 m2 + e1) in *.
  pose proof (fexp_le D2 (D2 - 1) ltac:(lia) ltac:(lia)) as Hf2.
  assert (He2 : e1 <= e2 <= D2 - 1) by lia.
  pose proof (div_pow2_ge m2 e1 e2 (D2 - 1) He2 ltac:(replace (D2 - 1 - e1) with (Zdigits2 m2 - 1) by lia; done)) as Hm3.
  pose proof (div_pow2_lt m2 e1 e2 D2 ltac:(lia) ltac:(replace (D2 - e1) with (Zdigits2 m2) by lia; done)) as Hm3'.
  pose proof (Zdigits2_interval (m2 / 2 ^ (e2 - e1)) (D2 - 1 - e2) (D2 - e2) ltac:(lia) (conj Hm3 Hm3')) as Hd3.
  assert (0 < 2 ^ (D2 - 1 - e2)) by (apply Z.pow_pos_nonneg; lia).
  destruct (m2 / 2 ^ (e2 - e1)) as [|p|p]; [lia| |lia].
  rewrite (proj2 (Z.leb_le e2 971)) by lia. split; [done|lia].
Qed.

(** ** Integers and quotients *)

Lemma shl_align_spec p e : let '(m, e') := shl_align p 0 e in Zpos m = Zpos p * 2 ^ (- e') /\ e' <= 0.
Proof.
  unfold shl_align. destruct (e - 0) as [|d|d] eqn:E; simpl; [lia|lia|]. replace e with (Zneg d) by lia.
  split; [|lia]. change (- Zneg d) with (Zpos d). clear E.
  induction d as [|d IH] using Pos.peano_ind; [simpl; lia|].
  rewrite Pos.iter_succ, Pos2Z.inj_succ, Z.pow_succ_r by lia. simpl. lia.
Qed.

Lemma double_of_pos_round p :
  exists m e, double_of (Zpos p) = binary_round_aux double_prec double_emax false (Zpos m) e loc_Exact /\
    double_of (Zneg p) = binary_round_aux double_prec double_emax true (Zpos m) e loc_Exact /\
    Zpos m = Zpos p * 2 ^ (- e) /\ e <= 0.
Proof.
  unfold double_of, binary_normalize, binary_round. simpl.
  pose proof (shl_align_spec p (fexp double_prec double_emax (Zpos (digits2_pos p) + 0))) as Hs.
  destruct (shl_align _ _ _) as [m e]. exists m, e. destruct Hs. split_and!; done.
Qed.

(** The magnitude of a quotient, from the magnitudes of the operands. *)
Lemma div_core_bounds m1 e1 m2 e2 :
  let d := Zdigits2 (Zpos m1) + e1 - (Zdigits2 (Zpos m2) + e2) in
  -1000 <= d ->
  exists q e' l, SFdiv_core_binary double_prec double_emax (Zpos m1) e1 (Zpos m2) e2 = (q, e', l) /\
    e' <= d - 1 /\ 2 ^ (d - 1 - e') <= q < 2 ^ (d + 1 - e').
Proof.
  intros d Hd. unfold SFdiv_core_binary. fold d.
  set (e' := Z.min (fexp double_prec double_emax d) (e1 - e2)).
  assert (He' : e' <= d - 1) by (pose proof (fexp_le d (d - 1)); subst e'; lia).
  set (sh := e1 - e2 - e'). assert (Hsh : 0 <= sh) by (subst sh e'; lia).
  assert (Hm' : match sh with Z0 => Zpos m1 | Zpos _ => Z.shiftl (Zpos m1) sh | Zneg _ => 0 end
    = Zpos m1 * 2 ^ sh).
  { destruct sh as [|p|p] eqn:E; [lia|by rewrite Z.shiftl_mul_pow2|lia]. }
  rewrite Hm'. destruct (Zdigits2_bounds (Zpos m1) ltac:(lia)) as [Hl1 Hu1].
  destruct (Zdigits2_bounds (Zpos m2) ltac:(lia)) as [Hl2 Hu2].
  pose proof (Zdigits2_pos (Zpos m1) ltac:(lia)).
  pose proof (Zdigits2_pos (Zpos m2) ltac:(lia)).
  assert (Hlo : 2 ^ (Zdigits2 (Zpos m1) - 1) * 2 ^ sh = 2 ^ Zdigits2 (Zpos m2) * 2 ^ (d - 1 - e')).
  { rewrite <- !Z.pow_add_r by lia. f_equal. subst sh d. lia. }
  assert (Hhi : 2 ^ Zdigits2 (Zpos m1) * 2 ^ sh = 2 ^ (Zdigits2 (Zpos m2) - 1) * 2 ^ (d + 1 - e')).
  { rewrite <- !Z.pow_add_r by lia. f_equal. subst sh d. lia. }
  assert (H1 : 0 < 2 ^ sh) by (apply Z.pow_pos_nonneg; lia).
  assert (H2 : 0 < 2 ^ (d - 1 - e')) by (apply Z.pow_pos_nonneg; lia).
  assert (H3 : 0 < 2 ^ (d + 1 - e')) by (apply Z.pow_pos_nonneg; lia).
  assert (Hq : 2 ^ (d - 1 - e') <= Zpos m1 * 2 ^ sh / Zpos m2 < 2 ^ (d + 1 - e')).
  { split; [apply Z.div_le_lower_bound; [lia|nia]|apply Z.div_lt_upper_bound; [lia|nia]]. }
  unfold Z.div in Hq. destruct (Z.div_eucl _ _) as [q r]. by exists q, e', (new_location (Zpos m2) r).
Qed.

Lemma double_of_mag z lo hi :
  2 ^ (lo - 1) <= Z.abs z < 2 ^ hi -> 1 <= lo -> hi <= 900 -> mag (z <? 0) lo (hi + 1) (double_of z).
Proof.
  intros Hz Hlo Hhi.
  assert (Hp : forall p m e, Zpos m = Zpos p * 2 ^ (- e) -> e <= 0 -> 2 ^ (lo - 1) <= Zpos p < 2 ^ hi ->
    lo <= Zdigits2 (Zpos m) + e <= hi).
  { intros p m e Hm He Hp. assert (0 < 2 ^ (- e)) by (apply Z.pow_pos_nonneg; lia).
    assert (0 <= hi) by (destruct (Z.le_gt_cases 0 hi); [done|rewrite (Z.pow_neg_r 2 hi) in Hp by done; lia]).
    pose proof (Zdigits2_interval (Zpos m) (lo - 1 + - e) (hi + - e) ltac:(lia)) as Hi.
    rewrite !Z.pow_add_r in Hi by lia. rewrite Hm in *. nia. }
  assert (0 < 2 ^ (lo - 1)) by (apply Z.pow_pos_nonneg; lia).
  destruct z as [|p|p]; [simpl in Hz; lia| |];
    destruct (double_of_pos_round p) as (m & e & Hpos & Hneg & Hm & He); rewrite ?Hpos, ?Hneg;
    (apply round_aux_mag; [lia|by apply (Hp p)|lia|lia]).
Qed.

(** The quotient of two doubles of known magnitude. *)
Lemma ddiv_mag s t a b c d x y :
  mag s a b x -> mag t c d y -> -1000 <= a - d -> b - c <= 800 ->
  mag (xorb s t) (a - d) (b - c + 2) (ddiv x y).
Proof.
  destruct x as [| | |s' m1 e1], y as [| | |t' m2 e2]; try done.
  intros [-> Hx] [-> Hy] Hlo Hhi. unfold ddiv, SFdiv.
  destruct (div_core_bounds m1 e1 m2 e2 ltac:(lia)) as (q & e' & l & -> & He' & Hq).
  set (D := Zdigits2 (Zpos m1) + e1 - (Zdigits2 (Zpos m2) + e2)) in *.
  pose proof (Zdigits2_interval q (D - 1 - e') (D + 1 - e') ltac:(lia) Hq) as Hd.
  assert (0 < 2 ^ (D - 1 - e')) by (apply Z.pow_pos_nonneg; lia).
  replace (b - c + 2) with (b - c + 1 + 1) by lia. apply round_aux_mag; lia.
Qed.

Lemma mag_not_nan s lo hi x : mag s lo hi x -> is_nan x = false.
Proof. by destruct x. Qed.

Lemma mag_negative lo hi x : mag true lo hi x -> dlt (double_of 0) x = false.
Proof. destruct x as [| | |[] m e]; try done. by intros [[=] _]. Qed.
