(* ===== verification/Client.v ===== *)
(** * What the two client programs share

    [tools/cache_cli.cpp] and [tools/cache_bench.cpp] are blocking clients: a call may
    wait for the server for ever, and an exception nobody catches or a signal nobody
    handles ends the program.
    [tool] is the monad of their computations; the answers of the kernel are arguments. *)

From S2P Require Import Prelude Cpp Connection.
Local Open Scope Z_scope.

(** ** Computations *)

Inductive tool (A : Type) : Type :=
| Done (a : A)
| Waits            (* blocked in a call that has not returned *)
| Terminates       (* an uncaught exception ([std::terminate]), or the signal SIGPIPE *)
| Undefined.       (* undefined behaviour *)
Arguments Done {A} a.
Arguments Waits {A}.
Arguments Terminates {A}.
Arguments Undefined {A}.

#[export] Instance tool_ret : MRet tool := fun A a => Done a.
#[export] Instance tool_bind : MBind tool := fun A B k m =>
  match m with
  | Done a => k a
  | Waits => Waits
  | Terminates => Terminates
  | Undefined => Undefined
  end.

Definition lift {A} (m : outcome A) : tool A :=
  match m with Ret a => Done a | UB => Undefined end.

Definition wait_for {A} (o : option A) : tool A :=
  match o with Some a => Done a | None => Waits end.

(** [reserve(n)] of a container: [std::length_error] past its largest size. *)
Definition reserve (max_size n : Z) : tool unit := if n <=? max_size then Done tt else Terminates.

(** Two threads of a program: undefined behaviour or a termination in one is that of the
    program, and a thread that waits keeps the program waiting. *)
Definition both {A B} (m : tool A) (k : tool B) : tool (A * B) :=
  match m, k with
  | Undefined, _ | _, Undefined => Undefined
  | Terminates, _ | _, Terminates => Terminates
  | Waits, _ | _, Waits => Waits
  | Done a, Done b => Done (a, b)
  end.

(** ** Sending *)

(** What a blocking [send] with no flags answers: it took some bytes; it failed; it failed
    because the connection is closed, and SIGPIPE, which neither program ignores, ends it. *)
Inductive client_send : Type :=
| Took (n : nat)
| SendFailed
| BrokenPipe.

(** ** Connecting *)

(** The answers of the kernel and of [inet_pton]. *)
Record ConnectSys : Type := mkConnectSys {
  sys_socket : Z;
  sys_pton : Z;
  sys_connect : Z
}.

(** The result, and the descriptors that are open afterwards. *)
Definition connectToServer (sys : ConnectSys) : Z * list Z :=
  let fd := sys_socket sys in
  if fd <? 0 then (-1, [])
  else if sys_pton sys <=? 0 then (-1, [])
  else if sys_connect sys <? 0 then (-1, [])
  else (fd, [fd]).

(** No failure leaves a descriptor open, and a success opens exactly the one returned. *)
Lemma connectToServer_no_leak sys fd open :
  connectToServer sys = (fd, open) ->
  (fd < 0 /\ open = []) \/ (0 <= fd /\ open = [fd]).
Proof.
  unfold connectToServer. destruct (Z.ltb_spec (sys_socket sys) 0); [intros [= <- <-]; left; by split; [lia|]|].
  repeat case_match; intros [= <- <-]; (left; by split; [lia|]) || (right; by split; [lia|]).
Qed.

(** ** Inversion and composition *)

Section tool_laws.
Context {A B : Type}.

Lemma tool_bind_Done (m : tool A) (k : A -> tool B) b :
  m ≫= k = Done b <-> exists a, m = Done a /\ k a = Done b.
Proof.
  split.
  - destruct m as [a| | |]; simpl; [eauto|done..].
  - by intros (a & -> & Hk).
Qed.

Lemma lift_Done (m : outcome A) a : lift m = Done a <-> m = Ret a.
Proof. destruct m; simpl; split; congruence. Qed.

Lemma wait_for_Done (o : option A) a : wait_for o = Done a <-> o = Some a.
Proof. destruct o; simpl; split; congruence. Qed.
End tool_laws.

(** A computation that does not wait and is not undefined: it is done with a result that
    satisfies [P], or it terminates for a [cause]. *)
Definition ended {A} (cause : Prop) (P : A -> Prop) (m : tool A) : Prop :=
  match m with
  | Done a => P a
  | Terminates => cause
  | Waits | Undefined => False
  end.

Section ended.
Context {A B : Type} (cause : Prop).

Lemma ended_bind (P : A -> Prop) (Q : B -> Prop) (m : tool A) (k : A -> tool B) :
  ended cause P m -> (forall a, P a -> ended cause Q (k a)) -> ended cause Q (m ≫= k).
Proof. destruct m; simpl; auto. Qed.

Lemma ended_mono (cause' : Prop) (P Q : A -> Prop) (m : tool A) :
  ended cause' P m -> (cause' -> cause) -> (forall a, P a -> Q a) -> ended cause Q m.
Proof. destruct m; simpl; auto. Qed.

Lemma ended_both (P : A -> Prop) (Q : B -> Prop) (m : tool A) (k : tool B) :
  ended cause P m -> ended cause Q k -> ended cause (fun p => P p.1 /\ Q p.2) (both m k).
Proof. destruct m, k; simpl; auto. Qed.
End ended.

Lemma reserve_ok max_size n : n <= max_size -> reserve max_size n = Done tt.
Proof. intros H. unfold reserve. by rewrite (proj2 (Z.leb_le _ _)). Qed.

(** Invert every hypothesis that says a computation of a client is done. *)
Ltac tool_inv :=
  repeat match goal with
  | H : _ ≫= _ = Done _ |- _ => apply tool_bind_Done in H as (? & ? & H)
  | H : lift _ = Done _ |- _ => apply lift_Done in H
  | H : wait_for _ = Done _ |- _ => apply wait_for_Done in H
  | H : Done _ = Done _ |- _ => injection H as H
  | H : (_, _) = (_, _) |- _ => injection H as H
  end; simplify_eq.
