(* ===== verification/Bench.v ===== *)
(** * The benchmark client ([tools/cache_bench.cpp])

    The command line, the split of the requests over threads, the loop of a worker with
    its blocking socket, and the report: totals, sorted latencies and percentiles.  The
    draws of the random distributions, the readings of the clocks and the answers of the
    kernel are arguments. *)

From S2P Require Import Prelude Cpp Connection Double Client Main.
Local Open Scope Z_scope.

(** ** State *)

Record BenchConfig : Type := mkBenchConfig {
  host : bytes;
  port : Z;
  threads : Z;
  requests : Z;
  keyspace : Z;
  read_ratio : double;
  value_size : Z
}.

Definition default_config : BenchConfig :=
  mkBenchConfig (str "127.0.0.1") 6380 4 100000 10000 (atof (str "0.8")) 64.

Record ThreadResult : Type := mkThreadResult {
  latencies : list double;
  errors : Z
}.

(** ** Sending and receiving *)

(** [sendCommand]: the answers of [send] are consumed from [os]; the result says whether
    everything was sent, and [wire] is what the kernel took.  A [send] without an answer
    waits, and one on a closed connection ends the program. *)
Fixpoint send_all (os : list client_send) (rest wire : bytes)
    : tool (bool * list client_send * bytes) :=
  match rest, os with
  | [], _ => Done (true, os, wire)
  | _, [] => Waits
  | _, Took n :: os' =>
      if bool_decide (n = 0%nat) then Done (false, os', wire)
      else send_all os' (drop n rest) (wire ++ take n rest)
  | _, SendFailed :: os' => Done (false, os', wire)
  | _, BrokenPipe :: _ => Terminates
  end.

Definition sendCommand (os : list client_send) (cmd wire : bytes)
    : tool (bool * list client_send * bytes) :=
  send_all os (cmd ++ [ch_nl]) wire.

(** What [recv] of one byte answers: the byte, or the end of the stream or an error. *)
Inductive recv_byte : Type :=
| RByte (c : ascii)
| RFail.

(** [recvResponse]: [buffer] holds the bytes stored so far; the terminator goes after
    them.  The result says whether the loop ended without a failure. *)
Fixpoint recv_loop (bufsize : nat) (answers : list recv_byte) (buffer : bytes)
    : option (bool * list recv_byte * bytes) :=
  if decide (length buffer < bufsize - 1)%nat then
    match answers with
    | [] => None
    | RFail :: answers' => Some (false, answers', buffer)
    | RByte c :: answers' =>
        if bool_decide (c = ch_nl) then Some (true, answers', buffer ++ [c])
        else recv_loop bufsize answers' (buffer ++ [c])
    end
  else Some (true, answers, buffer).

Definition recvResponse (bufsize : nat) (answers : list recv_byte)
    : option (bool * list recv_byte * bytes) := recv_loop bufsize answers [].

Definition RECV_BUF : nat := Z.to_nat 4096.
Arguments RECV_BUF : simpl never.

(** ** A worker *)

(** [generateRandomValue]: [draw i] is the [i]-th value of the distribution on the
    indices of [chars]. *)
Definition chars : bytes :=
  str "abcdefghijklmnopqrstuvwxyz" ++ str "ABCDEFGHIJKLMNOPQRSTUVWXYZ" ++ str "0123456789".

Fixpoint random_chars (draw : nat -> Z) (i n : nat) : outcome bytes :=
  match n with
  | O => Ret []
  | S n' => c ← deref (chars !! Z.to_nat (draw i)); cs ← random_chars draw (S i) n'; Ret (c :: cs)
  end.

(** The largest size of a [std::string], of a [std::vector<double>] and of a
    [std::vector<ThreadResult>]: [PTRDIFF_MAX] over the size of an element. *)
Definition MAX_STRING : Z := 2 ^ 63 - 1.
Definition MAX_DOUBLES : Z := 2 ^ 60 - 1.
Definition MAX_RESULTS : Z := 2 ^ 58 - 1.

Definition generateRandomValue (draw : nat -> Z) (len : Z) : tool bytes :=
  reserve MAX_STRING len;; lift (random_chars draw 0 (Z.to_nat len)).

(** The command of one iteration: a GET with probability [read_ratio], else a SET. *)
Definition bench_command (config : BenchConfig) (value : bytes) (key_id : Z) (ratio : double)
    : bytes :=
  if dlt ratio (read_ratio config) then str "GET key:" ++ to_string key_id
  else str "SET key:" ++ to_string key_id ++ [ch_space] ++ value.

(** What a worker meets: whether its thread can be created, connecting, the clock, the
    draws of its generator and the answers on its socket. *)
Record WorkerEnv : Type := mkWorkerEnv {
  we_created : bool;
  we_connect : ConnectSys;
  we_now : Z;
  we_value_draw : nat -> Z;
  we_key : nat -> Z;
  we_ratio : nat -> double;
  we_clock : nat -> Z * Z;
  we_sends : list client_send;
  we_recvs : list recv_byte
}.

(** The state of the loop: the socket, and the result so far. *)
Record WorkerState : Type := mkWorkerState {
  ws_sends : list client_send;
  ws_recvs : list recv_byte;
  ws_wire : bytes;
  ws_responses : list bytes;   (* the contents of [recv_buf] after each success *)
  ws_result : ThreadResult
}.

Definition worker_start (os : list client_send) (rs : list recv_byte) : WorkerState :=
  mkWorkerState os rs [] [] (mkThreadResult [] 0).

(** [sendCommand(fd, cmd) && recvResponse(fd, recv_buf, sizeof(recv_buf))]. *)
Definition exchange (cmd : bytes) (st : WorkerState) : tool (bool * WorkerState) :=
  '(sent, os, wire) ← sendCommand (ws_sends st) cmd (ws_wire st);
  if sent : bool then
    '(ok, rs, buffer) ← wait_for (recvResponse RECV_BUF (ws_recvs st));
    Done (ok, mkWorkerState os rs wire
                (if ok : bool then ws_responses st ++ [buffer] else ws_responses st) (ws_result st))
  else Done (false, mkWorkerState os (ws_recvs st) wire (ws_responses st) (ws_result st)).

(** The latency in microseconds: the difference of two readings in nanoseconds. *)
Definition microseconds (start stop : Z) : outcome double :=
  ns ← i64 (stop - start); Ret (ddiv (double_of ns) (double_of 1000)).

Definition set_result (r : ThreadResult) (st : WorkerState) : WorkerState :=
  mkWorkerState (ws_sends st) (ws_recvs st) (ws_wire st) (ws_responses st) r.

Definition push_latency (us : double) (r : ThreadResult) : ThreadResult :=
  mkThreadResult (latencies r ++ [us]) (errors r).
Definition count_failure (r : ThreadResult) : ThreadResult :=
  mkThreadResult (latencies r) (u64 (errors r + 1)).

(** The loop over [n] requests from number [i]. *)
Fixpoint worker_loop (config : BenchConfig) (env : WorkerEnv) (value : bytes) (i n : nat)
    (st : WorkerState) : tool WorkerState :=
  match n with
  | O => Done st
  | S n' =>
      '(ok, st) ← exchange (bench_command config value (we_key env i) (we_ratio env i)) st;
      st ← (if ok : bool then
              us ← lift (microseconds (we_clock env i).1 (we_clock env i).2);
              Done (set_result (push_latency us (ws_result st)) st)
            else Done (set_result (count_failure (ws_result st)) st));
      worker_loop config env value (S i) n' st
  end.

(** [workerThread]: the product for the seed is an [int], the bounds of a distribution
    must be ordered, and the conversions to [size_t] wrap. *)
Definition workerThread (config : BenchConfig) (env : WorkerEnv) (thread_id num_requests : Z)
    : tool WorkerState :=
  let st := worker_start (we_sends env) (we_recvs env) in
  let '(fd, _) := connectToServer (we_connect env) in
  if fd <? 0 then Done (set_result (mkThreadResult [] (u64 num_requests)) st)
  else
    reserve MAX_DOUBLES (u64 num_requests);;
    lift (require (in_int (thread_id * 1000)));;
    lift (i64 (thread_id * 1000 + we_now env));;
    lift (require (in_int (keyspace config - 1) /\ 0 <= keyspace config - 1));;
    value ← generateRandomValue (we_value_draw env) (u64 (value_size config));
    worker_loop config env value 0 (Z.to_nat num_requests) st.

(** ** The command line *)

Definition set_host (h : bytes) (c : BenchConfig) : BenchConfig :=
  mkBenchConfig h (port c) (threads c) (requests c) (keyspace c) (read_ratio c) (value_size c).
Definition set_port (p : Z) (c : BenchConfig) : BenchConfig :=
  mkBenchConfig (host c) (u16 p) (threads c) (requests c) (keyspace c) (read_ratio c) (value_size c).
Definition set_threads (n : Z) (c : BenchConfig) : BenchConfig :=
  mkBenchConfig (host c) (port c) n (requests c) (keyspace c) (read_ratio c) (value_size c).
Definition set_requests (n : Z) (c : BenchConfig) : BenchConfig :=
  mkBenchConfig (host c) (port c) (threads c) n (keyspace c) (read_ratio c) (value_size c).
Definition set_keyspace (n : Z) (c : BenchConfig) : BenchConfig :=
  mkBenchConfig (host c) (port c) (threads c) (requests c) n (read_ratio c) (value_size c).
Definition set_read_ratio (x : double) (c : BenchConfig) : BenchConfig :=
  mkBenchConfig (host c) (port c) (threads c) (requests c) (keyspace c) x (value_size c).
Definition set_value_size (n : Z) (c : BenchConfig) : BenchConfig :=
  mkBenchConfig (host c) (port c) (threads c) (requests c) (keyspace c) (read_ratio c) n.

(** The option [a] with the value [v]; [None] when [a] is no option with a value. *)
Definition bench_option (a v : bytes) (c : BenchConfig) : option (outcome BenchConfig) :=
  if is_arg a ["--host"]%string then Some (Ret (set_host v c))
  else if is_arg a ["--port"]%string then Some (n ← atoi v; Ret (set_port n c))
  else if is_arg a ["--threads"]%string then Some (n ← atoi v; Ret (set_threads n c))
  else if is_arg a ["--requests"]%string then Some (n ← atoi v; Ret (set_requests n c))
  else if is_arg a ["--keyspace"]%string then Some (n ← atoi v; Ret (set_keyspace n c))
  else if is_arg a ["--read-ratio"]%string then Some (Ret (set_read_ratio (atof v) c))
  else if is_arg a ["--value-size"]%string then Some (n ← atoi v; Ret (set_value_size n c))
  else None.

(** [parseArgs]: the loop over the arguments after the program's name; [None] is the exit
    after the usage text.  An argument that is no option is skipped. *)
Fixpoint parseArgs (argv : list bytes) (c : BenchConfig) : outcome (option BenchConfig) :=
  match argv with
  | [] => Ret (Some c)
  | a :: rest =>
      let other := if is_arg a ["--help"; "-h"]%string then Ret None else parseArgs rest c in
      match rest with
      | v :: rest' =>
          match bench_option a v c with
          | Some o => c' ← o; parseArgs rest' c'
          | None => other
          end
      | [] => other
      end
  end.

(** ** [main] *)

(** [requests / threads] and [requests % threads] on [int]. *)
Definition int_div (a b : Z) : outcome Z := require (b <> 0 /\ in_int (Z.quot a b));; Ret (Z.quot a b).
Definition int_rem (a b : Z) : outcome Z := require (b <> 0 /\ in_int (Z.quot a b));; Ret (Z.rem a b).

(** [all_latencies[n * p / 100]], in [size_t]. *)
Definition percentile (p : Z) (l : list double) : outcome double :=
  deref (l !! Z.to_nat (u64 (Z.of_nat (length l) * p) / 100)).

Record Report : Type := mkReport {
  total_ops : Z;
  elapsed_s : double;
  throughput : Z;
  latency_p50 : Z;
  latency_p95 : Z;
  latency_p99 : Z;
  total_errors : Z
}.

(** The share of thread [t]. *)
Definition share (base remainder t : Z) : Z := base + (if t <? remainder then 1 else 0).

(** The threads are started in order and joined; each has its own result, so the results
    do not depend on how they interleave.  A thread that cannot be created is an exception
    nobody catches, and so ends the program while the threads before it run. *)
Fixpoint run_workers (config : BenchConfig) (envs : nat -> WorkerEnv) (base remainder : Z)
    (t n : nat) : tool (list ThreadResult) :=
  match n with
  | O => Done []
  | S n' =>
      if we_created (envs t) then
        '(st, rs) ← both (workerThread config (envs t) (Z.of_nat t) (share base remainder (Z.of_nat t)))
                      (run_workers config envs base remainder (S t) n');
        Done (ws_result st :: rs)
      else Terminates
  end.

Definition total_samples_of (rs : list ThreadResult) : Z :=
  foldl (fun acc r => u64 (acc + Z.of_nat (length (latencies r)))) 0 rs.
Definition total_errors_of (rs : list ThreadResult) : Z :=
  foldl (fun acc r => u64 (acc + errors r)) 0 rs.

(** [p50], [p95] and [p99] are 0 without samples. *)
Definition percentiles (l : list double) : outcome (double * double * double) :=
  if bool_decide (l = []) then Ret (double_of 0, double_of 0, double_of 0)
  else
    p50 ← percentile 50 l;
    p95 ← percentile 95 l;
    p99 ← percentile 99 l;
    Ret (p50, p95, p99).

Definition int64_of_double : double -> outcome Z := double_to INT64_MIN INT64_MAX.

(** The report of the results: [start] and [stop] are the readings around the run. *)
Definition make_report (start stop : Z) (rs : list ThreadResult) : outcome Report :=
  ns ← i64 (stop - start);
  let elapsed := ddiv (double_of ns) (double_of NS_PER_S) in
  let total_samples := total_samples_of rs in
  let total_errors := total_errors_of rs in
  all_latencies ← std_sort (rs ≫= latencies);
  '(p50, p95, p99) ← percentiles all_latencies;
  let ops_per_sec :=
    if dlt (double_of 0) elapsed then ddiv (double_of total_samples) elapsed else double_of 0 in
  t ← int64_of_double ops_per_sec;
  l50 ← int64_of_double p50;
  l95 ← int64_of_double p95;
  l99 ← int64_of_double p99;
  Ret (mkReport total_samples elapsed t l50 l95 l99 total_errors).

(** [main] after the command line: the percentages of the banner are converted to [int],
    and the vectors of results and threads throw for a negative number of threads. *)
Definition bench_main (config : BenchConfig) (envs : nat -> WorkerEnv) (start stop : Z)
    : tool Report :=
  lift (double_to INT_MIN INT_MAX (dmul (read_ratio config) (double_of 100)));;
  lift (double_to INT_MIN INT_MAX
          (dmul (dsub (double_of 1) (read_ratio config)) (double_of 100)));;
  base ← lift (int_div (requests config) (threads config));
  remainder ← lift (int_rem (requests config) (threads config));
  reserve MAX_RESULTS (u64 (threads config));;
  rs ← run_workers config envs base remainder 0 (Z.to_nat (threads config));
  lift (make_report start stop rs).
