(* ===== verification/BenchFacts.v ===== *)
(** * Properties of the benchmark client

    Every request is accounted for, the requests are split evenly, the responses stay in
    step with the commands as long as they fit the buffer, and the percentiles are ranks
    of the sorted latencies. *)

From Stdlib Require Import SpecFloat.
From stdpp Require Import sorting.
From S2P Require Import Prelude Cpp Parser ParserFacts Response Connection Double Client Main Bench.
Local Open Scope Z_scope.

(** ** Sending and receiving *)

Lemma send_all_total os rest wire :
  (length rest <= length os)%nat ->
  ended (BrokenPipe ∈ os) (fun r => (length os <= length r.1.2 + length rest)%nat /\ r.1.2 ⊆ os)
    (send_all os rest wire).
Proof.
  revert rest wire. induction os as [|o os IH]; intros [|c rest] wire Hl; simpl in Hl |- *;
    [done|lia|split; [lia|done]|].
  destruct o as [n| |]; simpl; [|split; [lia|set_solver]|set_solver].
  case_bool_decide as Hn; [simpl; split; [lia|set_solver]|].
  eapply ended_mono; [apply IH|set_solver|].
  { rewrite length_drop. simpl. lia. }
  intros r [Hlen Hsub]. rewrite length_drop in Hlen. simpl in Hlen. split; [lia|set_solver].
Qed.

Lemma recv_loop_total bufsize answers buffer :
  (bufsize - 1 <= length buffer + length answers)%nat -> (length buffer <= bufsize - 1)%nat ->
  exists ok answers' buffer', recv_loop bufsize answers buffer = Some (ok, answers', buffer') /\
    (length answers + length buffer <= length answers' + (bufsize - 1))%nat /\
    (length buffer' <= bufsize - 1)%nat.
Proof.
  revert buffer. induction answers as [|a answers IH]; intros buffer Hl Hb; simpl in *.
  - rewrite decide_False by lia. eexists _, _, _. split; [done|]. simpl. lia.
  - case_decide; [|eexists _, _, _; split; [done|]; simpl; lia].
    destruct a as [c|]; [|eexists _, _, _; split; [done|]; simpl; lia].
    case_bool_decide; [eexists _, _, _; split; [done|]; rewrite length_app; simpl; lia|].
    destruct (IH (buffer ++ [c])) as (ok & a' & b' & -> & H1 & H2); [rewrite length_app; simpl; lia..|].
    eexists _, _, _. split; [done|]. rewrite length_app in H1. simpl in H1. lia.
Qed.

(** A line that fits the buffer is read exactly, whatever follows it. *)
Lemma recv_loop_line bufsize body buffer answers :
  ch_nl ∉ body -> (length buffer + length body < bufsize - 1)%nat ->
  recv_loop bufsize ((RByte <$> body ++ [ch_nl]) ++ answers) buffer =
  Some (true, answers, buffer ++ body ++ [ch_nl]).
Proof.
  revert buffer. induction body as [|c body IH]; intros buffer Hnl Hl; simpl in *.
  - by rewrite decide_True by lia.
  - rewrite decide_True by lia. apply not_elem_of_cons in Hnl as [Hc Hnl].
    rewrite bool_decide_eq_false_2 by congruence.
    rewrite IH by (try done; rewrite length_app; simpl; lia). by rewrite <- app_assoc.
Qed.

(** A longer line is cut at the size of the buffer and its rest left for the next call. *)
Lemma recv_loop_long bufsize text rest buffer :
  ch_nl ∉ text -> (length buffer + length text = bufsize - 1)%nat ->
  recv_loop bufsize ((RByte <$> text) ++ rest) buffer = Some (true, rest, buffer ++ text).
Proof.
  revert buffer. induction text as [|c text IH]; intros buffer Hnl Hl; simpl in *.
  - rewrite app_nil_r. destruct rest; simpl; by rewrite decide_False by lia.
  - rewrite decide_True by lia. apply not_elem_of_cons in Hnl as [Hc Hnl].
    rewrite bool_decide_eq_false_2 by congruence.
    rewrite IH by (try done; rewrite length_app; simpl; lia). by rewrite <- app_assoc.
Qed.

(** ** The value and the commands *)

Definition draws_ok (draw : nat -> Z) : Prop := forall i, 0 <= draw i <= 61.

Lemma random_chars_ok draw i n :
  draws_ok draw -> exists v, random_chars draw i n = Ret v /\ length v = n /\ Forall (.∈ chars) v.
Proof.
  intros Hd. revert i. induction n as [|n IH]; intros i; simpl; [by exists []|].
  destruct (lookup_lt_is_Some_2 chars (Z.to_nat (draw i))) as [c Hc].
  { specialize (Hd i). change (length chars) with 62%nat. lia. }
  destruct (IH (S i)) as (v & -> & <- & Hv). rewrite Hc. exists (c :: v). simpl.
  split; [done|]. split; [done|]. constructor; [by eapply list_elem_of_lookup_2|done].
Qed.

Lemma dec_digits_length fuel n : (length (dec_digits fuel n) <= fuel)%nat.
Proof.
  revert n. induction fuel as [|fuel IH]; intros n; simpl; [done|]. case_if; simpl; [lia|].
  rewrite length_app. specialize (IH (n / 10)). simpl. lia.
Qed.

Lemma to_string_length z : 0 <= z <= INT_MAX -> (length (to_string z) <= 31)%nat.
Proof.
  intros Hz. unfold to_string. rewrite (proj2 (Z.ltb_ge _ _)) by lia. unfold dec.
  etrans; [apply dec_digits_length|]. unfold INT_MAX in *.
  assert (Z.log2 z <= Z.log2 (2 ^ 31 - 1)) as H by (apply Z.log2_le_mono; lia).
  change (Z.log2 (2 ^ 31 - 1)) with 30 in H. lia.
Qed.

Lemma bench_command_length config value key ratio :
  0 <= key <= INT_MAX -> (length (bench_command config value key ratio) <= 40 + length value)%nat.
Proof.
  intros Hk%to_string_length. unfold bench_command. case_if; rewrite !length_app; simpl; lia.
Qed.

(** ** The worker *)

(** An environment a worker of [n] requests gets through: draws within the bounds of the
    distributions, clocks that do not overflow, and enough answers on the socket, whatever
    they say: one per byte sent and one per byte of a full buffer. *)
Record env_ok (config : BenchConfig) (n : nat) (env : WorkerEnv) : Prop := mkEnvOk {
  env_value : draws_ok (we_value_draw env);
  env_key i : 0 <= we_key env i <= keyspace config - 1;
  env_clock i : clock_reading (we_clock env i).1 /\ clock_reading (we_clock env i).2;
  env_now : 0 <= we_now env <= INT64_MAX - INT_MAX;
  env_sends : (n * (41 + Z.to_nat (value_size config)) <= length (we_sends env))%nat;
  env_recvs : (n * (RECV_BUF - 1) <= length (we_recvs env))%nat
}.

(** A configuration the program runs with. *)
Record config_ok (config : BenchConfig) : Prop := mkConfigOk {
  config_threads : 1 <= threads config /\ (threads config - 1) * 1000 <= INT_MAX;
  config_requests : 0 <= requests config <= INT_MAX;
  config_keyspace : 1 <= keyspace config <= INT_MAX;
  config_value_size : 0 <= value_size config <= INT_MAX;
  config_ratio : defined (double_to INT_MIN INT_MAX (dmul (read_ratio config) (double_of 100))) /\
    defined (double_to INT_MIN INT_MAX (dmul (dsub (double_of 1) (read_ratio config)) (double_of 100)))
}.

(** The requests a result accounts for. *)
Definition accounted (r : ThreadResult) : Z := Z.of_nat (length (latencies r)) + errors r.

(** A latency: zero, or less than [2^56] microseconds, with at least one significant bit
    above [2^-10]. *)
Definition latency_ok (x : double) : Prop := x = S754_zero false \/ exists s, mag s (-9) 56 x.

Definition result_ok (r : ThreadResult) : Prop := 0 <= errors r /\ Forall latency_ok (latencies r).

Lemma latency_not_nan x : latency_ok x -> is_nan x = false.
Proof. intros [->|[s H]]; [done|by eapply mag_not_nan]. Qed.

Lemma latency_to_int64 x : latency_ok x -> exists z, int64_of_double x = Ret z.
Proof.
  intros [->|[s H]]; [by exists 0|].
  apply (double_to_mag s (-9) 56); [done|lia|unfold INT64_MIN; lia|unfold INT64_MAX; lia].
Qed.

(** The quotient of a difference of clock readings by a constant. *)
Lemma clock_quotient ns c lo hi :
  - 2 ^ 63 < ns < 2 ^ 63 -> mag false lo hi (double_of c) -> 0 <= lo -> hi <= 100 ->
  ddiv (double_of ns) (double_of c) = S754_zero false \/
  mag (ns <? 0) (1 - hi) (66 - lo) (ddiv (double_of ns) (double_of c)) /\ ns <> 0.
Proof.
  intros Hns Hc Hlo Hhi. destruct (decide (ns = 0)) as [->|Hnz].
  { left. destruct (double_of c) as [| | |t m e]; try done. by destruct Hc as [-> _]. }
  right. split; [|done]. pose proof (double_of_mag ns 1 63 ltac:(lia) ltac:(lia) ltac:(lia)) as Hx.
  pose proof (ddiv_mag _ _ _ _ _ _ _ _ Hx Hc ltac:(lia) ltac:(lia)) as Hd.
  rewrite xorb_false_r in Hd. by replace (66 - lo) with (63 + 1 - lo + 2) by lia.
Qed.

Lemma exchange_total cmd m st :
  (length cmd < m)%nat -> (m <= length (ws_sends st))%nat ->
  (RECV_BUF - 1 <= length (ws_recvs st))%nat ->
  ended (BrokenPipe ∈ ws_sends st) (fun r => ws_result r.2 = ws_result st /\
      (length (ws_sends st) <= length (ws_sends r.2) + m)%nat /\ ws_sends r.2 ⊆ ws_sends st /\
      (length (ws_recvs st) <= length (ws_recvs r.2) + (RECV_BUF - 1))%nat)
    (exchange cmd st).
Proof.
  intros Hc Hs Hr. unfold exchange, sendCommand. eapply ended_bind.
  { apply send_all_total. rewrite length_app. simpl. lia. }
  intros [[ok os] w] [Hos Hsub]. rewrite length_app in Hos. simpl in Hos, Hsub.
  destruct ok; [|simpl; split_and!; [done|lia|done|lia]]. unfold recvResponse.
  destruct (recv_loop_total RECV_BUF (ws_recvs st) []) as (ok & rs & b & -> & Hrs & _); [cbn [length]; lia..|].
  simpl in *. split_and!; [done|lia|done|lia].
Qed.

Lemma microseconds_ok a b :
  clock_reading a -> clock_reading b -> exists us, microseconds a b = Ret us /\ latency_ok us.
Proof.
  intros Ha Hb. unfold microseconds, clock_reading, INT64_MAX in *.
  rewrite i64_ok by (unfold in_int64, INT64_MIN, INT64_MAX; lia).
  eexists. split; [done|].
  destruct (clock_quotient (b - a) 1000 10 10) as [->|[H _]]; try lia; [by vm_compute|by left|].
  right. by eexists.
Qed.

Lemma worker_loop_total config env value i n st :
  Forall latency_ok (latencies (ws_result st)) ->
  0 <= errors (ws_result st) -> errors (ws_result st) + Z.of_nat n < 2 ^ 64 ->
  (forall j, 0 <= we_key env j <= INT_MAX) ->
  (forall j, clock_reading (we_clock env j).1 /\ clock_reading (we_clock env j).2) ->
  (n * (41 + length value) <= length (ws_sends st))%nat ->
  (n * (RECV_BUF - 1) <= length (ws_recvs st))%nat ->
  ended (BrokenPipe ∈ ws_sends st) (fun st' => result_ok (ws_result st') /\
    accounted (ws_result st') = accounted (ws_result st) + Z.of_nat n) (worker_loop config env value i n st).
Proof.
  intros Hn He Hb Hk Hc. revert i st Hn He Hb.
  induction n as [|n IH]; intros i st Hn He Hb Hs Hr; cbn [worker_loop].
  { split; [done|lia]. }
  pose proof (bench_command_length config value _ (we_ratio env i) (Hk i)) as Hlen.
  eapply ended_bind; [apply (exchange_total _ (41 + length value)); nia|].
  intros [ok st1] (Hres & Hs1 & Hsub & Hr1). cbn [snd] in Hres, Hs1, Hsub, Hr1. rewrite Hres. destruct ok.
  - destruct (microseconds_ok _ _ (proj1 (Hc i)) (proj2 (Hc i))) as (us & -> & Hus).
    cbn [lift mbind tool_bind].
    refine (ended_mono _ _ _ _ _ (IH (S i) (set_result (push_latency us (ws_result st)) st1) _ _ _ _ _) _ _);
      cbn [set_result ws_result ws_sends ws_recvs push_latency latencies errors];
      try nia; [by apply Forall_app_2, Forall_singleton|apply Hsub|].
    intros st2 [Hok Ha]. split; [done|]. rewrite Ha.
    unfold accounted, push_latency. simpl. rewrite length_app. simpl. lia.
  - cbn [mbind tool_bind]. assert (Hu : u64 (errors (ws_result st) + 1) = errors (ws_result st) + 1).
    { apply u64_small. lia. }
    refine (ended_mono _ _ _ _ _ (IH (S i) (set_result (count_failure (ws_result st)) st1) _ _ _ _ _) _ _);
      cbn [set_result ws_result ws_sends ws_recvs count_failure latencies errors];
      rewrite ?Hu; try nia; [done|apply Hsub|].
    intros st2 [Hok Ha]. split; [done|]. rewrite Ha.
    unfold accounted, count_failure. simpl. lia.
Qed.

Lemma workerThread_total config env t n :
  config_ok config -> env_ok config (Z.to_nat n) env ->
  0 <= t < threads config -> 0 <= n <= INT_MAX ->
  ended (BrokenPipe ∈ we_sends env) (fun st => result_ok (ws_result st) /\ accounted (ws_result st) = n)
    (workerThread config env t n).
Proof.
  intros [[Ht1 Ht2] _ Hks Hvs _] [Hd Hk Hc Hnow Hs Hr] Ht Hn. unfold workerThread.
  unfold INT_MAX, INT64_MAX in *.
  assert (Hun : u64 n = n) by (apply u64_small; lia).
  destruct (connectToServer _) as [fd open]. case_if.
  { unfold result_ok, accounted. simpl. rewrite Hun. split; [|lia]. split; [lia|done]. }
  rewrite Hun, reserve_ok by (unfold MAX_DOUBLES; lia). cbn [mbind tool_bind].
  rewrite require_true by (unfold in_int, INT_MIN, INT_MAX; lia). cbn [lift mbind tool_bind].
  rewrite i64_ok by (unfold in_int64, INT64_MIN, INT64_MAX; lia). cbn [lift mbind tool_bind].
  rewrite require_true by (unfold in_int, INT_MIN, INT_MAX; lia). cbn [lift mbind tool_bind].
  unfold generateRandomValue. rewrite (u64_small (value_size config)) by lia.
  rewrite reserve_ok by (unfold MAX_STRING; lia). cbn [lift mbind tool_bind].
  destruct (random_chars_ok (we_value_draw env) 0 (Z.to_nat (value_size config)) Hd) as (v & -> & Hv & _).
  cbn [lift mbind tool_bind]. eapply ended_mono; [apply worker_loop_total|done|];
    cbn [worker_start ws_result ws_sends ws_recvs latencies errors]; rewrite ?Hv; try done; try lia.
  - intros j. specialize (Hk j). unfold INT_MAX. lia.
  - intros st [Hok Ha]. split; [done|]. rewrite Ha. unfold accounted. simpl. lia.
Qed.

(** ** The split *)

Fixpoint sumZ {A} (f : A -> Z) (l : list A) : Z :=
  match l with
  | [] => 0
  | x :: l' => f x + sumZ f l'
  end.

Lemma sumZ_nonneg {A} (f : A -> Z) (l : list A) : Forall (fun x => 0 <= f x) l -> 0 <= sumZ f l.
Proof. induction 1 as [|x l Hx _ IH]; simpl; lia. Qed.

Lemma sumZ_add {A} (f g : A -> Z) (l : list A) : sumZ (fun x => f x + g x) l = sumZ f l + sumZ g l.
Proof. induction l as [|x l IH]; simpl; lia. Qed.

Lemma sumZ_fmap {A B} (f : A -> Z) (g : B -> Z) l k : f <$> l = g <$> k -> sumZ f l = sumZ g k.
Proof.
  revert k. induction l as [|x l IH]; intros [|y k] Heq; try done.
  injection Heq as Hx Hl. simpl. rewrite Hx. f_equal. by apply IH.
Qed.

(** A counter of type [size_t] that does not overflow is a sum. *)
Lemma foldl_u64_sum {A} (f : A -> Z) (l : list A) acc :
  Forall (fun x => 0 <= f x) l -> 0 <= acc -> acc + sumZ f l < 2 ^ 64 ->
  foldl (fun a x => u64 (a + f x)) acc l = acc + sumZ f l.
Proof.
  intros Hl. revert acc. induction Hl as [|x l Hx Hl IH]; intros acc Ha Hb; simpl in *; [lia|].
  pose proof (sumZ_nonneg f l Hl). rewrite u64_small, IH by lia. lia.
Qed.

Lemma share_sum base remainder t n :
  0 <= remainder ->
  sumZ (fun j => share base remainder (Z.of_nat j)) (seq t n) =
  base * Z.of_nat n + (Z.min (Z.of_nat (t + n)) remainder - Z.min (Z.of_nat t) remainder).
Proof.
  intros Hr. revert t. induction n as [|n IH]; intros t; simpl.
  - rewrite Nat.add_0_r. lia.
  - rewrite IH. unfold share. destruct (Z.ltb_spec (Z.of_nat t) remainder); lia.
Qed.

(** What ends the program before its report: a thread that cannot be created, or a [send]
    on a closed connection. *)
Definition worker_lost (env : WorkerEnv) : Prop := we_created env = false \/ BrokenPipe ∈ we_sends env.

Lemma run_workers_total config envs base remainder t n :
  config_ok config -> Z.of_nat (t + n) <= threads config ->
  (forall j : nat, 0 <= share base remainder (Z.of_nat j) <= INT_MAX) ->
  (forall j, (t <= j < t + n)%nat ->
     env_ok config (Z.to_nat (share base remainder (Z.of_nat j))) (envs j)) ->
  ended (exists j, (t <= j < t + n)%nat /\ worker_lost (envs j))
    (fun rs => Forall result_ok rs /\
       accounted <$> rs = (fun j => share base remainder (Z.of_nat j)) <$> seq t n)
    (run_workers config envs base remainder t n).
Proof.
  intros Hc. revert t. induction n as [|n IH]; intros t Ht Hs He; simpl; [done|].
  destruct (we_created (envs t)) eqn:Hcr; [|exists t; split; [lia|by left]].
  eapply ended_bind; [apply ended_both|].
  - eapply ended_mono; [apply (workerThread_total config (envs t) (Z.of_nat t) _ Hc (He t ltac:(lia))); [lia|apply Hs]| |].
    + intros Hbp. exists t. split; [lia|by right].
    + intros st Hst. exact Hst.
  - eapply ended_mono; [apply (IH (S t)); [lia|done|intros j Hj; apply He; lia]| |].
    + intros (j & Hj & Hl). exists j. split; [lia|done].
    + intros rs Hrs. exact Hrs.
  - intros [st rs] [[Hok Ha] [Hoks Has]]. simpl in *. split; [by constructor|]. by f_equal.
Qed.

(** ** The report *)

Definition samples (r : ThreadResult) : Z := Z.of_nat (length (latencies r)).

Lemma samples_length rs : sumZ samples rs = Z.of_nat (length (rs ≫= latencies)).
Proof.
  induction rs as [|r rs IH]; [done|]. rewrite bind_cons, length_app. cbn [sumZ].
  rewrite IH. unfold samples. lia.
Qed.

(** The totals of the report, when all requests of the threads fit a counter. *)
Lemma totals_sum rs :
  Forall result_ok rs -> sumZ accounted rs < 2 ^ 64 ->
  total_samples_of rs = sumZ samples rs /\ total_errors_of rs = sumZ errors rs /\
  total_samples_of rs + total_errors_of rs = sumZ accounted rs.
Proof.
  intros Hok Hb. change (sumZ accounted rs) with (sumZ (fun r => samples r + errors r) rs) in *.
  rewrite sumZ_add in *.
  assert (He : Forall (fun r => 0 <= errors r) rs) by (eapply Forall_impl; [exact Hok|by intros ? [? _]]).
  assert (Hs : Forall (fun r => 0 <= samples r) rs) by (apply Forall_true; intros; unfold samples; lia).
  pose proof (sumZ_nonneg _ _ He). pose proof (sumZ_nonneg _ _ Hs).
  assert (H1 : total_samples_of rs = sumZ samples rs).
  { unfold total_samples_of. rewrite <- (Z.add_0_l (sumZ samples rs)). apply (foldl_u64_sum samples); auto; lia. }
  assert (H2 : total_errors_of rs = sumZ errors rs).
  { unfold total_errors_of. rewrite <- (Z.add_0_l (sumZ errors rs)). apply foldl_u64_sum; auto; lia. }
  rewrite H1, H2. done.
Qed.

Lemma percentile_index p n :
  0 <= p < 100 -> 0 < n <= INT_MAX -> 0 <= u64 (n * p) / 100 < n /\ u64 (n * p) / 100 = n * p / 100.
Proof.
  intros Hp Hn. unfold INT_MAX in *. rewrite u64_small by nia. split; [|done].
  split; [apply Z.div_pos; nia|apply Z.div_lt_upper_bound; nia].
Qed.

Lemma percentile_defined p l :
  0 <= p < 100 -> l <> [] -> Z.of_nat (length l) <= INT_MAX ->
  exists v, percentile p l = Ret v /\ l !! Z.to_nat (Z.of_nat (length l) * p / 100) = Some v.
Proof.
  intros Hp Hl Hn. assert (0 < Z.of_nat (length l)) by (destruct l; simpl; [done|lia]).
  destruct (percentile_index p (Z.of_nat (length l)) Hp ltac:(lia)) as [Hi Heq].
  unfold percentile. rewrite Heq in *.
  destruct (lookup_lt_is_Some_2 l (Z.to_nat (Z.of_nat (length l) * p / 100))) as [v Hv]; [lia|].
  exists v. by rewrite Hv.
Qed.

Lemma percentiles_defined l :
  Forall latency_ok l -> Z.of_nat (length l) <= INT_MAX ->
  exists a b c, percentiles l = Ret (a, b, c) /\ latency_ok a /\ latency_ok b /\ latency_ok c.
Proof.
  intros Hl Hn. unfold percentiles. case_bool_decide as Hnil.
  { eexists _, _, _. split; [done|]. split_and!; by left. }
  assert (Hin : forall i v, l !! i = Some v -> latency_ok v).
  { intros i v. by eapply Forall_lookup_1. }
  destruct (percentile_defined 50 l) as (a & -> & Ha); [lia|done|done|].
  destruct (percentile_defined 95 l) as (b & -> & Hb); [lia|done|done|].
  destruct (percentile_defined 99 l) as (c & -> & Hc); [lia|done|done|].
  exists a, b, c. split; [done|]. split_and!; eauto.
Qed.

Lemma throughput_defined total ns :
  0 <= total <= INT_MAX -> - 2 ^ 63 < ns < 2 ^ 63 ->
  exists z, int64_of_double (let elapsed := ddiv (double_of ns) (double_of NS_PER_S) in
    if dlt (double_of 0) elapsed then ddiv (double_of total) elapsed else double_of 0) = Ret z.
Proof.
  intros Ht Hns. unfold INT_MAX in *. cbv zeta. destruct (decide (total = 0)) as [->|Hnz].
  { case_if; [|by exists 0]. destruct (ddiv (double_of ns) (double_of NS_PER_S)); by exists 0. }
  destruct (clock_quotient ns NS_PER_S 30 30) as [->|[He Hn0]]; try lia; [by vm_compute|by exists 0|].
  destruct (Z.ltb_spec ns 0).
  { apply mag_negative in He. rewrite He. by exists 0. }
  case_if; [|by exists 0].
  pose proof (double_of_mag total 1 31 ltac:(lia) ltac:(lia) ltac:(lia)) as Hx.
  pose proof (ddiv_mag _ _ _ _ _ _ _ _ Hx He ltac:(lia) ltac:(lia)) as Hd.
  eapply double_to_mag; [exact Hd|lia|unfold INT64_MIN; lia|unfold INT64_MAX; lia].
Qed.

Lemma make_report_defined start stop rs :
  clock_reading start -> clock_reading stop -> Forall result_ok rs -> sumZ accounted rs <= INT_MAX ->
  exists rep, make_report start stop rs = Ret rep /\
    total_ops rep = sumZ samples rs /\ total_errors rep = sumZ errors rs.
Proof.
  intros Hst Hsp Hok Hb. unfold make_report, clock_reading, INT64_MAX in *.
  rewrite i64_ok by (unfold in_int64, INT64_MIN, INT64_MAX; lia). cbn [mbind outcome_bind].
  destruct (totals_sum rs Hok) as (-> & -> & Hsum); [unfold INT_MAX in *; lia|].
  assert (Hl : Forall latency_ok (rs ≫= latencies)).
  { clear -Hok. induction Hok as [|r rs [_ Hr] _ IH]; [done|]. rewrite bind_cons. by apply Forall_app. }
  destruct (std_sort_ok (rs ≫= latencies)) as (l & -> & Hperm & _).
  { eapply Forall_impl; [exact Hl|apply latency_not_nan]. }
  cbn [mbind outcome_bind].
  assert (Hn : Z.of_nat (length l) = sumZ samples rs) by (by rewrite Hperm, samples_length).
  assert (He : 0 <= sumZ errors rs).
  { apply sumZ_nonneg. eapply Forall_impl; [exact Hok|by intros ? [? _]]. }
  destruct (percentiles_defined l) as (a & b & c & -> & Ha & Hb' & Hc).
  { by rewrite Hperm. }
  { lia. }
  cbn [mbind outcome_bind].
  destruct (throughput_defined (sumZ samples rs) (stop - start)) as (z & Hz); [lia|lia|].
  cbv zeta in Hz. rewrite Hz. cbn [mbind outcome_bind].
  destruct (latency_to_int64 a Ha) as [za ->], (latency_to_int64 b Hb') as [zb ->], (latency_to_int64 c Hc) as [zc ->].
  eexists. split; [done|]. done.
Qed.

(** ** The whole program *)

Lemma env_ok_mono config n n' env : (n <= n')%nat -> env_ok config n' env -> env_ok config n env.
Proof. intros Hn [H1 H2 H3 H4 H5 H6]. split; try done; nia. Qed.

Lemma split_defined config :
  config_ok config ->
  let base := requests config / threads config in
  let remainder := requests config mod threads config in
  int_div (requests config) (threads config) = Ret base /\
  int_rem (requests config) (threads config) = Ret remainder /\
  0 <= remainder < threads config /\
  (forall t : nat, 0 <= share base remainder (Z.of_nat t) <= requests config) /\
  sumZ (fun j => share base remainder (Z.of_nat j)) (seq 0 (Z.to_nat (threads config))) = requests config.
Proof.
  intros [[Ht _] Hr _ _ _] base remainder. unfold int_div, int_rem, INT_MAX in *.
  rewrite Z.quot_div_nonneg, Z.rem_mod_nonneg by lia. fold base remainder.
  pose proof (Z.mod_pos_bound (requests config) (threads config) ltac:(lia)) as Hm.
  pose proof (Z.div_mod (requests config) (threads config) ltac:(lia)) as Hdm. fold base remainder in Hm, Hdm.
  assert (Hb : 0 <= base) by (apply Z.div_pos; lia).
  rewrite !require_true by (unfold in_int, INT_MIN, INT_MAX; nia).
  split; [done|]. split; [done|]. split; [done|]. split.
  - intros t. unfold share. destruct (Z.ltb_spec (Z.of_nat t) remainder); nia.
  - rewrite share_sum by lia. simpl. lia.
Qed.

(** C26: Every request is accounted for.  A run with a sound configuration, draws within
    their bounds and clocks that do not overflow never waits for ever and is never undefined, whatever answers the
    server and the network give, as long as there are enough of them: it ends with a
    report, and the operations and the errors it reports are the requests asked for; or it
    is terminated, and then one of its threads could not be created or a [send] met a
    closed connection, whose SIGPIPE the program does not ignore. *)
Theorem bench_accounts config envs start stop :
  config_ok config -> (forall t, env_ok config (Z.to_nat (requests config)) (envs t)) ->
  clock_reading start -> clock_reading stop ->
  match bench_main config envs start stop with
  | Done rep => total_ops rep + total_errors rep = requests config
  | Terminates => exists t : nat, Z.of_nat t < threads config /\
      (we_created (envs t) = false \/ BrokenPipe ∈ we_sends (envs t))
  | Waits | Undefined => False
  end.
Proof.
  intros Hc He Hst Hsp. destruct (split_defined config Hc) as (Hdiv & Hrem & Hr & Hs & Hsum).
  pose proof Hc as [[Ht1 Ht2] Hreq _ _ [[p1 Hp1] [p2 Hp2]]].
  unfold bench_main. rewrite Hp1, Hp2, Hdiv, Hrem. cbn [lift mbind tool_bind].
  unfold INT_MAX in *. rewrite u64_small, reserve_ok by (unfold MAX_RESULTS; lia). cbn [mbind tool_bind].
  assert (Hrun : ended (exists j, (0 <= j < 0 + Z.to_nat (threads config))%nat /\ worker_lost (envs j))
    (fun rs => Forall result_ok rs /\ accounted <$> rs =
       (fun j => share (requests config / threads config) (requests config mod threads config) (Z.of_nat j)) <$>
       seq 0 (Z.to_nat (threads config)))
    (run_workers config envs (requests config / threads config) (requests config mod threads config) 0
       (Z.to_nat (threads config)))).
  { apply run_workers_total; [done|simpl; lia| |].
    - intros j. specialize (Hs j). unfold INT_MAX. lia.
    - intros j _. apply env_ok_mono with (Z.to_nat (requests config)); [|done]. specialize (Hs j). lia. }
  destruct (run_workers _ _ _ _ _ _) as [rs| | |]; simpl in Hrun |- *; try done.
  - destruct Hrun as [Hok Ha]. apply sumZ_fmap in Ha. rewrite Hsum in Ha.
    destruct (make_report_defined start stop rs Hst Hsp Hok) as (rep & -> & H1 & H2).
    { unfold INT_MAX. lia. }
    simpl. rewrite H1, H2, <- Ha. by rewrite <- sumZ_add.
  - destruct Hrun as (j & Hj & Hl). exists j. split; [lia|done].
Qed.

(** ** Percentiles *)

Definition count (P : double -> Prop) `{!forall x, Decision (P x)} (l : list double) : Z :=
  Z.of_nat (length (filter P l)).

(** In a sorted list the values below the [i]-th are before it, and those up to it are
    not. *)
Lemma sorted_rank l i v :
  Forall (fun x => is_nan x = false) l -> StronglySorted key_le l -> l !! i = Some v ->
  count (fun x => dlt x v = true) l <= Z.of_nat i < count (fun x => dle x v) l.
Proof.
  intros Hn Hs Hi. pose proof (lookup_lt_Some _ _ _ Hi) as Hlt.
  rewrite <- (take_drop_middle l i v Hi) in Hn, Hs |- *.
  assert (Htl : length (take i l) = i) by (rewrite length_take; lia).
  apply Forall_app in Hn as [Hn1 [Hv Hn3]%Forall_cons].
  apply StronglySorted_app in Hs as (Hbefore & _ & [Hafter _]%StronglySorted_cons).
  unfold count. rewrite !filter_app, !length_app. split.
  - rewrite (list_filter_none _ (v :: drop (S i) l)).
    + pose proof (list_filter_length (fun x => dlt x v = true) (take i l)). simpl. lia.
    + constructor; [rewrite dlt_key by done; intros []; by unfold key_le, lex_le; lia|].
      eapply Forall_impl; [apply Forall_and; split; [exact Hn3|exact Hafter]|].
      intros x [Hx Hle]. rewrite dlt_key by done. tauto.
  - rewrite (list_filter_all _ (take i l)).
    + rewrite filter_cons_True by (apply key_le_dle; try done; unfold key_le, lex_le; lia). simpl. lia.
    + apply Forall_forall. intros x Hx. rewrite Forall_forall in Hn1.
      apply key_le_dle; [by apply Hn1|done|]. apply Hbefore; [done|by left].
Qed.

(** C27: The percentile, before the report truncates it to whole microseconds, is a latency of the run with at most [p] per cent of the
    latencies below it, and more than [p] per cent at most as large. *)
Theorem percentile_rank p l :
  0 <= p < 100 -> l <> [] -> Z.of_nat (length l) <= INT_MAX -> Forall (fun x => is_nan x = false) l ->
  exists l' v, std_sort l = Ret l' /\ percentile p l' = Ret v /\ v ∈ l /\
    100 * count (fun x => dlt x v = true) l <= p * Z.of_nat (length l) <
      100 * count (fun x => dle x v) l.
Proof.
  intros Hp Hl Hlen Hn. destruct (std_sort_ok l Hn) as (l' & Hsort & Hperm & Hs).
  assert (Hl' : l' <> []). { intros ->. by apply Permutation_nil_l in Hperm. }
  destruct (percentile_defined p l') as (v & Hv & Hi); [done|done|by rewrite Hperm|].
  exists l', v. split; [done|]. split; [done|].
  split; [rewrite <- Hperm; by eapply list_elem_of_lookup_2|].
  apply sorted_rank in Hi; [|by rewrite Hperm|done].
  assert (Hcount : forall (P : double -> Prop) `{!forall x, Decision (P x)}, count P l' = count P l).
  { intros P ?. unfold count. by rewrite Hperm. }
  rewrite !Hcount in Hi. rewrite Hperm in Hi. set (n := Z.of_nat (length l)) in *.
  assert (0 <= n * p / 100) by (apply Z.div_pos; lia). rewrite Z2Nat.id in Hi by done.
  pose proof (Z.div_mod (n * p) 100). pose proof (Z.mod_pos_bound (n * p) 100). lia.
Qed.

(** ** The command line *)

(** An argument that is not an option with a value changes nothing. *)
Lemma parseArgs_skip a rest c :
  (forall v, bench_option a v c = None) -> is_arg a ["--help"; "-h"]%string = false ->
  parseArgs (a :: rest) c = parseArgs rest c.
Proof.
  intros Ha Hh. cbn [parseArgs]. rewrite Hh. destruct rest as [|v rest]; [done|]. by rewrite Ha.
Qed.

Lemma is_arg_positional a names :
  positional a = true -> Forall (fun n => positional (str n) = false) names -> is_arg a names = false.
Proof.
  intros Ha Hn. unfold is_arg. apply bool_decide_eq_false_2. intros (n & -> & Hin)%list_elem_of_fmap.
  rewrite Forall_forall in Hn. rewrite Hn in Ha by done. done.
Qed.

(** Positional arguments, as in the usage of the README, are ignored: the benchmark runs
    with its defaults. *)
Lemma bench_positional_ignored argv c :
  Forall (fun a => positional a = true) argv -> parseArgs argv c = Ret (Some c).
Proof.
  induction 1 as [|a argv Ha _ IH]; [done|]. rewrite parseArgs_skip; [done| |].
  - intros v. unfold bench_option. rewrite !is_arg_positional; (done || by_evaluation || auto).
  - rewrite is_arg_positional; (done || by_evaluation).
Qed.

(** The command line that asks for a configuration; [ratio] is the text of the ratio. *)
Definition print_config (c : BenchConfig) (ratio : bytes) : list bytes :=
  [str "--host"; host c; str "--port"; to_string (port c); str "--threads"; to_string (threads c);
   str "--requests"; to_string (requests c); str "--keyspace"; to_string (keyspace c);
   str "--read-ratio"; ratio; str "--value-size"; to_string (value_size c)].

(** Every configuration can be asked for. *)
Lemma parseArgs_roundtrip c ratio :
  0 <= port c < 2 ^ 16 -> Forall in_int [threads c; requests c; keyspace c; value_size c] ->
  read_ratio c = atof ratio -> parseArgs (print_config c ratio) default_config = Ret (Some c).
Proof.
  intros Hp Hints Hr. destruct c as [h p t r k x v]. cbn [port threads requests keyspace value_size read_ratio] in *.
  apply Forall_cons in Hints as [Ht [Hq [Hk [Hv _]%Forall_cons]%Forall_cons]%Forall_cons].
  assert (Hpi : in_int p) by (unfold in_int, INT_MIN, INT_MAX; lia).
  unfold print_config. cbn [parseArgs host port threads requests keyspace value_size].
  assert (Hu : u16 p = p) by (unfold u16; by rewrite Z.mod_small).
  repeat (match goal with |- context [bench_option ?a ?v ?c] =>
    let o := eval cbv [bench_option is_arg] in (bench_option a v c) in change (bench_option a v c) with o end;
    repeat (rewrite bool_decide_eq_false_2 by by_evaluation); rewrite bool_decide_eq_true_2 by by_evaluation;
    rewrite ?atoi_to_string by done; cbn [mbind outcome_bind]).
  unfold set_value_size, set_read_ratio, set_keyspace, set_requests, set_threads, set_port, set_host. simpl.
  by rewrite Hu, Hr.
Qed.
