(* ===== verification/BenchSession.v ===== *)
(** * A benchmark worker against the server

    The commands a worker builds, as the server frames, parses and serves them, and the
    responses as the worker reads them: client and server stay in step as long as the
    responses fit the worker's buffer, and get out of step when one does not. *)

From Stdlib Require Import SpecFloat.
From S2P Require Import Prelude Cpp Lru Parser ParserFacts Response StorageInterface AofFormat AofWriter.
From S2P Require Import Dispatcher DispatcherFacts Connection Double Client Bench BenchFacts.
Local Open Scope Z_scope.

(** ** The commands *)

Lemma chars_plain c :
  c ∈ chars -> isspace c = false /\ (c ∉ quoting_chars) /\ c <> ch_nl /\ c <> ch_cr.
Proof.
  intros Hc.
  assert (HF : Forall (fun c => isspace c = false /\ (c ∉ quoting_chars) /\ c <> ch_nl /\ c <> ch_cr) chars)
    by by_evaluation.
  rewrite Forall_forall in HF. by apply HF.
Qed.

(** Text without white space and without the characters that force quotes. *)
Definition plain_text (s : bytes) : Prop :=
  Forall (fun c => isspace c = false /\ c ∉ quoting_chars) s.

Lemma plain_text_unquoted s : plain_text s -> quoteIfNeeded s = s.
Proof.
  intros Hs. unfold quoteIfNeeded. destruct (needs_quoting s) eqn:E; [|done]. exfalso.
  apply existsb_exists in E as (c & Hc%list_elem_of_In & Hq%bool_decide_eq_true).
  unfold plain_text in Hs. rewrite Forall_forall in Hs. by destruct (Hs c Hc).
Qed.

Lemma plain_text_replayable s : s <> [] -> plain_text s -> replayable s.
Proof. intros Hne Hs. split; [done|]. right. eapply Forall_impl; [exact Hs|]. by intros c [? _]. Qed.

Lemma chars_text v : Forall (.∈ chars) v -> plain_text v.
Proof. intros Hv. eapply Forall_impl; [exact Hv|]. intros c Hc. by apply chars_plain in Hc as (? & ? & _). Qed.

Definition bench_key (key_id : Z) : bytes := str "key:" ++ to_string key_id.

Lemma bench_key_text key_id : plain_text (bench_key key_id).
Proof.
  apply Forall_app. split; [by_evaluation|]. apply Forall_forall. intros c Hc.
  pose proof (to_string_no_space key_id) as Hs. rewrite Forall_forall in Hs. split; [by apply Hs|].
  eapply needs_quoting_false; [apply to_string_unquoted|done].
Qed.

(** The command of a request, as the parser gives it. *)
Definition bench_parsed (config : BenchConfig) (value : bytes) (key_id : Z) (ratio : double) : Command :=
  if dlt ratio (read_ratio config) then mkCommand GET [bench_key key_id]
  else mkCommand SET [bench_key key_id; value].

Lemma bench_command_parses config value key_id ratio :
  value <> [] -> Forall (.∈ chars) value ->
  parseCommand (bench_command config value key_id ratio) = bench_parsed config value key_id ratio.
Proof.
  intros Hne Hv%chars_text. pose proof (bench_key_text key_id) as Hk.
  assert (Hkr : replayable (bench_key key_id)) by (by apply plain_text_replayable).
  assert (Hvr : replayable value) by (by apply plain_text_replayable).
  unfold bench_command, bench_parsed. case_if.
  - change (str "GET key:" ++ to_string key_id) with (str "GET" ++ str " " ++ bench_key key_id).
    rewrite <- (plain_text_unquoted (bench_key key_id)) at 1 by done.
    by rewrite parse_one_arg by (done || by_evaluation).
  - assert (Hl : str "SET key:" ++ to_string key_id ++ [ch_space] ++ value = setLine (bench_key key_id) value).
    { unfold setLine. rewrite !plain_text_unquoted by done. unfold bench_key. by rewrite <- !app_assoc. }
    rewrite Hl. by apply parse_setLine.
Qed.

Lemma bench_command_line config value key_id ratio :
  Forall (.∈ chars) value -> value <> [] ->
  let l := bench_command config value key_id ratio in
  (ch_nl ∉ l) /\ strip_cr l = l /\ l <> [].
Proof.
  intros Hv Hne l.
  assert (Hl : Forall (fun c => c <> ch_nl /\ c <> ch_cr) l).
  { assert (Hn : Forall (fun c => c <> ch_nl /\ c <> ch_cr) (to_string key_id)).
    { eapply Forall_impl; [apply to_string_no_space|]. intros c Hc. split; by intros ->. }
    assert (Hv' : Forall (fun c => c <> ch_nl /\ c <> ch_cr) value).
    { eapply Forall_impl; [exact Hv|]. by intros c (_ & _ & ? & ?)%chars_plain. }
    unfold l, bench_command. case_if; rewrite !Forall_app; split_and!; (done || by_evaluation). }
  rewrite Forall_forall in Hl. split; [intros Hin; by destruct (Hl _ Hin)|]. split.
  - unfold strip_cr. destruct (last l) as [c|] eqn:E; [|done]. rewrite bool_decide_eq_false_2; [done|].
    apply Hl. apply last_Some in E as [l' ->]. apply elem_of_app. right. by left.
  - unfold l, bench_command. by case_if.
Qed.

(** ** The responses *)

Section session.
Context {S : Type} `{StorageLaws S}.
Implicit Types (w : World S).

(** A value whose response fits the buffer of a worker. *)
Definition short_value (v : bytes) : Prop := (ch_nl ∉ v) /\ (length v <= RECV_BUF - 3)%nat.

Definition short_values w : Prop :=
  store_inv (store w) /\ forall k v d, view (store w) k = Some (v, d) -> short_value v.

(** A response a worker reads with one call. *)
Definition short_line (r : bytes) : Prop := one_line r /\ (length r <= RECV_BUF - 1)%nat.

Lemma short_line_const r : one_line r -> (length r <= 5)%nat -> short_line r.
Proof. intros Hr Hl. split; [done|]. unfold RECV_BUF. lia. Qed.

Lemma short_line_value v : short_value v -> short_line (valueResponse v).
Proof.
  intros [Hn Hl]. split; [by apply valueResponse_one_line|]. unfold valueResponse.
  rewrite !length_app. cbn [str length String.list_ascii_of_string]. unfold RECV_BUF in *. lia.
Qed.

Lemma bench_dispatch config value key_id ratio now now2 w :
  short_values w -> short_value value ->
  exists r w', dispatch now now2 (bench_parsed config value key_id ratio) w = Ret (r, w') /\
    short_line r /\ short_values w'.
Proof.
  intros [Hinv Hval] Hv. unfold bench_parsed. case_if; unfold dispatch; cbn [type args].
  - destruct (law_get now (store w) (bench_key key_id) Hinv) as (s' & -> & Hinv' & Hk & Hne & _).
    cbn [mbind outcome_bind]. assert (Hvals : short_values (mkWorld (disp w) s' (aof w))).
    { split; [done|]. simpl. intros k v d. destruct (decide (bench_key key_id = k)) as [<-|Hd].
      - rewrite Hk. intros Hl%live_slot_Some. by eapply Hval.
      - rewrite Hne by done. apply Hval. }
    destruct (live_slot now (view (store w) (bench_key key_id))) as [[v d]|] eqn:El; simpl.
    + eexists _, _. split; [done|]. split; [|done]. apply live_slot_Some in El. eauto using short_line_value.
    + eexists _, _. split; [done|]. split; [|done]. apply short_line_const; [|by_evaluation].
      apply one_line_of. by_evaluation.
  - destruct (law_set (store w) (bench_key key_id) value Hinv) as (s' & -> & Hinv' & Hk & Hne & _).
    eexists _, _. split; [done|]. split.
    + apply short_line_const; [|by_evaluation]. apply one_line_of. by_evaluation.
    + split; [done|]. simpl. intros k v d. destruct (decide (bench_key key_id = k)) as [<-|Hd].
      * rewrite Hk. by intros [= <- _].
      * destruct (Hne k Hd) as [->| ->]; [apply Hval|done].
Qed.

(** The commands of requests [i] to [i + n - 1], and the requests the server serves: their
    parses, with the readings of its clock. *)
Definition bench_lines (config : BenchConfig) (env : WorkerEnv) (value : bytes) (i n : nat) : list bytes :=
  (fun j => bench_command config value (we_key env j) (we_ratio env j)) <$> seq i n.

Definition bench_requests (times : nat -> Z * Z) (config : BenchConfig) (env : WorkerEnv) (value : bytes)
    (i n : nat) : list (Z * Z * Command) :=
  (fun j => (times j, parseCommand (bench_command config value (we_key env j) (we_ratio env j)))) <$> seq i n.

Lemma bench_serve times config env value i n w :
  value <> [] -> Forall (.∈ chars) value -> short_values w -> short_value value ->
  exists responses w', serve (bench_requests times config env value i n) w = Ret (responses, w') /\
    length responses = n /\ Forall short_line responses /\ short_values w'.
Proof.
  intros Hne Hv. revert i w. induction n as [|n IH]; intros i w Hw Hs; [by exists [], w|].
  unfold bench_requests in *. cbn [seq]. rewrite fmap_cons. destruct (times i) as [now now2]. cbn [serve].
  rewrite bench_command_parses by done.
  destruct (bench_dispatch config value (we_key env i) (we_ratio env i) now now2 w Hw Hs)
    as (r & w1 & -> & Hr & Hw1). cbn [mbind outcome_bind].
  destruct (IH (Datatypes.S i) w1 Hw1 Hs) as (rs & w2 & Hserve & <- & Hrs & Hw2).
  rewrite Hserve.
  exists (r :: rs), w2. split; [done|]. split; [done|]. split; [by constructor|done].
Qed.

(** Every [send] takes at least one byte. *)
Definition takes (o : client_send) : Prop := match o with Took (Datatypes.S _) => True | _ => False end.

Lemma send_all_takes os rest wire :
  Forall takes os -> (length rest <= length os)%nat ->
  exists os', send_all os rest wire = Done (true, os', wire ++ rest) /\ Forall takes os' /\
    (length os <= length os' + length rest)%nat.
Proof.
  intros Hos. revert rest wire. induction Hos as [|o os Ho Hos IH]; intros [|c rest] wire Hl;
    try (simpl in Hl; lia); try (eexists; rewrite app_nil_r; split; [done|]; split; [by auto|simpl; lia]).
  destruct o as [[|k]| |]; try done. cbn [send_all]. rewrite bool_decide_eq_false_2 by lia.
  destruct (IH (drop (Datatypes.S k) (c :: rest)) (wire ++ take (Datatypes.S k) (c :: rest)))
    as (os' & -> & Hos' & Hlen).
  { rewrite length_drop. simpl in *. lia. }
  exists os'. rewrite <- app_assoc, take_drop. split; [done|]. split; [done|].
  rewrite length_drop in Hlen. simpl in *. lia.
Qed.

(** Lines the server's framing leaves as they are. *)
Lemma framing_id ls :
  Forall (fun l => strip_cr l = l /\ l <> []) ls -> foldr push_token [] (map strip_cr ls) = ls.
Proof. induction 1 as [|l ls [Hl Hne] _ IH]; [done|]. simpl. rewrite Hl, IH. by destruct l. Qed.

Lemma worker_loop_in_step config env value i n st responses rest :
  Forall (.∈ chars) value ->
  (forall j, 0 <= we_key env j <= INT_MAX) ->
  (forall j, clock_reading (we_clock env j).1 /\ clock_reading (we_clock env j).2) ->
  Forall takes (ws_sends st) -> (n * (41 + length value) <= length (ws_sends st))%nat ->
  ws_recvs st = (RByte <$> concat responses) ++ rest -> length responses = n -> Forall short_line responses ->
  exists st', worker_loop config env value i n st = Done st' /\
    ws_responses st' = ws_responses st ++ responses /\
    ws_wire st' = ws_wire st ++ line_stream (bench_lines config env value i n) /\
    errors (ws_result st') = errors (ws_result st) /\
    length (latencies (ws_result st')) = (length (latencies (ws_result st)) + n)%nat.
Proof.
  intros Hv Hk Hc. revert i st responses.
  induction n as [|n IH]; intros i st [|r responses] Hs Hlen Hr Hn Hlines; try done; cbn [worker_loop].
  { exists st. rewrite !app_nil_r. split_and!; done || lia. }
  apply Forall_cons in Hlines as [[Hone Hrl] Hlines]. destruct Hone as (body & -> & Hbody).
  pose proof (bench_command_length config value _ (we_ratio env i) (Hk i)) as Hcl.
  set (cmd := bench_command config value (we_key env i) (we_ratio env i)) in *.
  unfold exchange, sendCommand.
  destruct (send_all_takes (ws_sends st) (cmd ++ [ch_nl]) (ws_wire st)) as (os & -> & Hos & Hol);
    [done|rewrite length_app; simpl; nia|]. cbn [wait_for mbind tool_bind]. rewrite length_app in Hol. simpl in Hol.
  rewrite Hr. cbn [concat]. rewrite fmap_app, <- app_assoc. unfold recvResponse.
  rewrite length_app in Hrl. simpl in Hrl.
  rewrite (recv_loop_line RECV_BUF body []) by (done || (simpl; lia)). cbn [wait_for mbind tool_bind ws_result].
  destruct (microseconds_ok _ _ (proj1 (Hc i)) (proj2 (Hc i))) as (us & -> & _).
  cbn [lift mbind tool_bind].
  match goal with |- context [worker_loop _ _ _ _ _ ?x] => destruct (IH (Datatypes.S i) x responses)
    as (st' & -> & H1 & H2 & H3 & H4) end; cbn [set_result ws_sends ws_recvs]; try done; [nia|by injection Hn|].
  exists st'. split; [done|]. rewrite H1, H2, H3, H4. cbn [set_result ws_responses ws_wire ws_result push_latency latencies errors].
  split; [by rewrite <- app_assoc|]. split; [|split; [done|rewrite length_app; simpl; lia]].
  unfold bench_lines, line_stream. cbn [seq fmap list_fmap map concat]. by rewrite <- !app_assoc.
Qed.

(** C25: A worker and the server stay in step: with short values, stored ones included, that are
    not empty where the worker sends them, and sends that make progress, the server frames and parses exactly the commands the worker
    built, and if the network delivers the responses to
    them, each is one line the worker reads with one call, in order, without an error. *)
Theorem bench_session times config env value n w rest :
  value <> [] -> Forall (.∈ chars) value -> short_value value -> short_values w ->
  (forall j, 0 <= we_key env j <= INT_MAX) ->
  (forall j, clock_reading (we_clock env j).1 /\ clock_reading (we_clock env j).2) ->
  Forall takes (we_sends env) -> (n * (41 + length value) <= length (we_sends env))%nat ->
  exists responses w',
    serve (bench_requests times config env value 0 n) w = Ret (responses, w') /\
    exists st',
      worker_loop config env value 0 n
        (worker_start (we_sends env) ((RByte <$> concat responses) ++ rest)) = Done st' /\
      ws_responses st' = responses /\ errors (ws_result st') = 0 /\
      length (latencies (ws_result st')) = n /\
      extract (ws_wire st') = (bench_lines config env value 0 n, []).
Proof.
  intros Hne Hv Hsv Hw Hk Hc Hs Hl.
  destruct (bench_serve times config env value 0 n w Hne Hv Hw Hsv) as (responses & w' & Hserve & Hlen & Hlines & _).
  exists responses, w'. split; [done|].
  destruct (worker_loop_in_step config env value 0 n
    (worker_start (we_sends env) ((RByte <$> concat responses) ++ rest)) responses rest)
    as (st' & -> & H1 & H2 & H3 & H4); try done.
  exists st'. split; [done|]. split; [done|]. split; [done|]. split; [done|]. rewrite H2. simpl.
  assert (Hcl : Forall (fun l => (ch_nl ∉ l) /\ strip_cr l = l /\ l <> []) (bench_lines config env value 0 n)).
  { apply Forall_fmap, Forall_true. intros j. by apply bench_command_line. }
  rewrite <- (app_nil_r (line_stream _)), extract_line_stream; [|by eapply Forall_impl; [exact Hcl|intros ? [? _]]|by apply not_elem_of_nil].
  by rewrite framing_id by (by eapply Forall_impl; [exact Hcl|intros ? [_ ?]]).
Qed.

End session.

(** A response that does not fit the buffer of a worker counts as a success, its rest is
    left in the stream, and the next call returns that rest as the response to the next
    command. *)
Lemma recv_out_of_step value next rest :
  ch_nl ∉ value -> (RECV_BUF - 2 < length value < 2 * RECV_BUF - 4)%nat ->
  exists first second,
    recvResponse RECV_BUF ((RByte <$> valueResponse value) ++ (RByte <$> next) ++ rest) =
      Some (true, (RByte <$> second) ++ (RByte <$> next) ++ rest, first) /\
    recvResponse RECV_BUF ((RByte <$> second) ++ (RByte <$> next) ++ rest) =
      Some (true, (RByte <$> next) ++ rest, second) /\
    valueResponse value = first ++ second.
Proof.
  intros Hv Hlen. set (text := str "$" ++ value).
  assert (Htext : ch_nl ∉ text) by (apply not_elem_of_app; split; [by_evaluation|done]).
  assert (Hl : length text = S (length value)) by done.
  exists (take (RECV_BUF - 1) text), (drop (RECV_BUF - 1) text ++ [ch_nl]).
  assert (Hval : valueResponse value = take (RECV_BUF - 1) text ++ drop (RECV_BUF - 1) text ++ [ch_nl]).
  { rewrite app_assoc, take_drop. unfold text. by rewrite <- app_assoc. }
  assert (Hsub : forall c n, c ∈ take n text \/ c ∈ drop n text -> c ∈ text).
  { intros c m. rewrite <- elem_of_app, take_drop. done. }
  split; [|split; [|done]].
  - rewrite Hval, fmap_app, <- app_assoc. apply recv_loop_long.
    + intros Hin. apply Htext. eauto.
    + rewrite length_take. cbn [length]. lia.
  - apply (recv_loop_line RECV_BUF _ []).
    + intros Hin. apply Htext. eauto.
    + rewrite length_drop. cbn [length]. unfold RECV_BUF in *. lia.
Qed.
