(* ===== verification/Cli.v ===== *)
(** * The command line client ([tools/cache_cli.cpp])

    A loop that reads a line of the terminal, sends it, and prints what one [recv] of at
    most 4095 bytes delivers.  The model is the program for Linux; the answers of the
    kernel are arguments. *)

From S2P Require Import Prelude Cpp Lru Parser Response StorageInterface AofFormat AofWriter AofReplay.
From S2P Require Import ParserFacts Dispatcher DispatcherFacts Connection Server ServerFacts Client.
Local Open Scope Z_scope.

(** ** State *)

Definition BUFFER_SIZE : nat := Z.to_nat 4096.
Arguments BUFFER_SIZE : simpl never.

(** What the program has written: the two standard streams and the socket. *)
Record CliState : Type := mkCliState {
  cli_out : bytes;
  cli_err : bytes;
  cli_wire : bytes
}.

Definition print (s : bytes) (st : CliState) : CliState :=
  mkCliState (cli_out st ++ s) (cli_err st) (cli_wire st).
Definition print_error (s : bytes) (st : CliState) : CliState :=
  mkCliState (cli_out st) (cli_err st ++ s) (cli_wire st).

(** ** Operations *)

Definition is_eol (c : ascii) : bool := bool_decide (c = ch_nl) || bool_decide (c = ch_cr).

Fixpoint skip_eol (s : bytes) : bytes :=
  match s with
  | c :: s' => if is_eol c then skip_eol s' else s
  | [] => []
  end.

(** [while (!response.empty() && (back is a line feed or a carriage return)) pop_back()]. *)
Definition strip_eol (response : bytes) : bytes := reverse (skip_eol (reverse response)).

(** [send]: the result is not looked at; what the kernel took is on the wire.  On a closed
    connection SIGPIPE ends the program. *)
Definition cli_send (o : client_send) (text : bytes) (st : CliState) : tool CliState :=
  match o with
  | Took n => Done (mkCliState (cli_out st) (cli_err st) (cli_wire st ++ take n text))
  | SendFailed => Done st
  | BrokenPipe => Terminates
  end.

(** The loop over the lines of the terminal, with one answer of the kernel for each
    [send] and each [recv]; a blocking [recv] that has no answer yet waits. *)
Fixpoint cli_loop (lines : list bytes) (answers : list (client_send * recv_result)) (st : CliState)
    : tool CliState :=
  let st := print (str "> ") st in
  match lines with
  | [] => Done st
  | [] :: lines' => cli_loop lines' answers st
  | line :: lines' =>
      match answers with
      | [] => Waits
      | (o, r) :: answers' =>
          st ← cli_send o (line ++ [ch_nl]) st;
          match r with
          | Received data => cli_loop lines' answers' (print (strip_eol data ++ [ch_nl]) st)
          | RecvEof | RecvAgain | RecvError => Done (print_error (str "Connection closed" ++ [ch_nl]) st)
          end
      end
  end.

(** [main]: the first argument, if there is one, is the port. *)
Definition cli_port (args : list bytes) : outcome Z :=
  match args with
  | a :: _ => n ← atoi a; Ret (u16 n)
  | [] => Ret 6380
  end.

Definition cli_host : bytes := str "127.0.0.1".

(** The exit code, and what was written.  [input] is what the terminal delivers. *)
Definition cli_main (args : list bytes) (sys : ConnectSys) (input : bytes)
    (answers : list (client_send * recv_result)) : tool (Z * CliState) :=
  let st := mkCliState [] [] [] in
  port ← lift (cli_port args);
  let peer := cli_host ++ str ":" ++ to_string port in
  if sys_socket sys =? -1 then Done (1, print_error (str "Failed to create socket" ++ [ch_nl]) st)
  else if sys_pton sys <=? 0 then Done (1, print_error (str "Invalid address" ++ [ch_nl]) st)
  else if sys_connect sys <? 0 then
    Done (1, print_error (str "Failed to connect to " ++ peer ++ [ch_nl]) st)
  else
    let st := print (str "Connected to " ++ peer ++ [ch_nl]) st in
    let st := print (str "Type commands (PING, SET key value, GET key, DEL key). Ctrl+C to exit." ++
                     [ch_nl]) st in
    st ← cli_loop (getlines input) answers st;
    Done (0, st).

(** ** In step with the server *)

(** The text of a response as it is shown: the response without its end of line, that is
    without the line feeds and carriage returns at its end. *)
Definition eol (c : ascii) : Prop := c = ch_nl \/ c = ch_cr.

Definition shown (response text : bytes) : Prop :=
  exists e, response = text ++ e /\ Forall eol e /\ forall c, last text = Some c -> ~ eol c.

Lemma is_eol_spec c : is_eol c = true <-> eol c.
Proof. unfold is_eol, eol. by rewrite orb_true_iff, !bool_decide_eq_true. Qed.

Lemma skip_eol_split s :
  exists e, s = e ++ skip_eol s /\ Forall eol e /\ forall c, head (skip_eol s) = Some c -> ~ eol c.
Proof.
  induction s as [|c s (e & Hs & He & Hh)]; simpl; [by exists []|].
  destruct (is_eol c) eqn:Hc.
  - exists (c :: e). split; [by rewrite Hs at 1|]. split; [|done]. constructor; [by apply is_eol_spec|done].
  - exists []. split; [done|]. split; [done|]. intros d [= <-] Hd%is_eol_spec. congruence.
Qed.

(** The loop that pops characters leaves the text of the response. *)
Lemma strip_eol_shown r : shown r (strip_eol r).
Proof.
  destruct (skip_eol_split (reverse r)) as (e & Hr & He & Hh). exists (reverse e). split; [|split].
  - unfold strip_eol. by rewrite <- reverse_app, <- Hr, reverse_involutive.
  - by apply Forall_reverse.
  - intros c. unfold strip_eol. rewrite last_reverse. apply Hh.
Qed.

(** What the terminal shows when a text is printed for each command. *)
Fixpoint transcript (lines texts : list bytes) : bytes :=
  str "> " ++
  match lines, texts with
  | [], _ => []
  | [] :: lines', _ => transcript lines' texts
  | _ :: lines', t :: texts' => t ++ [ch_nl] ++ transcript lines' texts'
  | _, [] => []
  end.

(** The lines that are sent. *)
Definition cli_commands (lines : list bytes) : list bytes := filter (fun l => l <> []) lines.

(** A [send] that takes the whole line. *)
Definition takes_all (line : bytes) (o : client_send) : Prop := o = Took (S (length line)).

Lemma cli_loop_in_step lines responses sends st :
  length responses = length (cli_commands lines) -> Forall2 takes_all (cli_commands lines) sends ->
  exists st', cli_loop lines (zip sends (Received <$> responses)) st = Done st' /\
    cli_out st' = cli_out st ++ transcript lines (strip_eol <$> responses) /\ cli_err st' = cli_err st /\
    cli_wire st' = cli_wire st ++ line_stream (cli_commands lines).
Proof.
  unfold cli_commands. revert responses sends st.
  induction lines as [|line lines IH]; intros responses sends st Hlen Hs.
  { eexists. split; [destruct responses, sends; reflexivity|]. simpl. rewrite app_nil_r. done. }
  destruct line as [|c line].
  - rewrite filter_cons_False in * by (by intros []). cbn [cli_loop].
    destruct (IH responses sends (print (str "> ") st)) as (st' & -> & H1 & H2 & H3); [done..|].
    exists st'. rewrite H1, H2, H3. split; [done|]. split; [|done]. cbn [print cli_out transcript].
    by rewrite <- app_assoc.
  - rewrite filter_cons_True in * by done. destruct responses as [|r responses]; [done|].
    inversion Hs as [|? o ? sends' Ho Hs']; subst. rewrite Ho. cbn [cli_loop cli_send mbind tool_bind zip zip_with fmap list_fmap].
    match goal with |- context [cli_loop lines _ ?x] =>
      destruct (IH responses sends' x) as (st' & -> & H1 & H2 & H3) end; [by injection Hlen|done|].
    exists st'. rewrite H1, H2, H3. split; [done|].
    cbn [print cli_send cli_out cli_err cli_wire transcript]. split; [by rewrite <- !app_assoc|].
    split; [done|]. rewrite <- app_assoc. f_equal. unfold line_stream. cbn [map concat]. f_equal.
    apply take_ge. rewrite length_app. simpl. lia.
Qed.

Lemma getlines_no_newline s : Forall (fun l => ch_nl ∉ l) (getlines s).
Proof.
  induction s as [|c s IH]; simpl; [done|]. case_bool_decide as Hc.
  - constructor; [apply not_elem_of_nil|done].
  - destruct IH as [|l ls Hl Hls]; [apply Forall_singleton|constructor; [|done]];
      apply not_elem_of_cons; (split; [congruence|]); [apply not_elem_of_nil|done].
Qed.

(** Commands that do not end in a carriage return pass the framing unchanged. *)
Lemma extract_commands input :
  Forall (fun l => last l <> Some ch_cr) (getlines input) ->
  extract (line_stream (cli_commands (getlines input))) = (cli_commands (getlines input), []).
Proof.
  intros Hcr. assert (Hok : Forall (fun l => client_line_ok (l, false) /\ l <> []) (cli_commands (getlines input))).
  { pose proof (getlines_no_newline input) as Hn. unfold cli_commands. apply Forall_forall.
    intros l [Hne Hl]%list_elem_of_filter. rewrite Forall_forall in Hcr, Hn.
    split; [split; [by apply Hn|intros _; by apply Hcr]|done]. }
  rewrite <- (app_nil_r (line_stream _)), extract_line_stream.
  - f_equal. induction Hok as [|l ls [Hl Hne] _ IH]; [done|]. simpl. rewrite IH.
    pose proof (strip_cr_client_line (l, false) Hl) as Hs. unfold client_line in Hs. simpl in Hs.
    rewrite app_nil_r in Hs. rewrite Hs. by destruct l.
  - eapply Forall_impl; [exact Hok|]. by intros l [[? _] _].
  - by apply not_elem_of_nil.
Qed.

Section session.
Context {S : Type} `{StorageLaws S}.
Implicit Types (w : World S).

(** C24: A session at the terminal, for lines that do not end in a carriage return and
    EXPIRE commands whose deadlines fit the clock, served by a server whose storage holds
    no line feed: every response is one line; and when every [send] takes the whole line
    and every [recv] delivers one response, the bytes sent are framed by the server as
    exactly the lines that are not empty, and the terminal shows, after the prompt of each
    of them, its response without the line feeds and carriage returns at its end, and
    nothing else. *)
Theorem cli_session input times w st :
  Forall (fun l => last l <> Some ch_cr) (getlines input) ->
  framed w -> length times = length (cli_commands (getlines input)) ->
  Forall req_ok (requests times (cli_commands (getlines input))) ->
  exists responses w',
    serve (requests times (cli_commands (getlines input))) w = Ret (responses, w') /\
    Forall one_line responses /\
    forall sends, Forall2 takes_all (cli_commands (getlines input)) sends ->
    exists st' texts, cli_loop (getlines input) (zip sends (Received <$> responses)) st = Done st' /\
      Forall2 shown responses texts /\
      cli_out st' = cli_out st ++ transcript (getlines input) texts /\ cli_err st' = cli_err st /\
      exists sent, cli_wire st' = cli_wire st ++ sent /\
        extract sent = (cli_commands (getlines input), []).
Proof.
  intros Hcr Hw Hlen Hok.
  destruct (serve_framed_lines (requests times (cli_commands (getlines input))) w Hw Hok)
    as (responses & w' & Hs & Hl & Ho & _).
  { pose proof (getlines_no_newline input) as Hn. unfold requests, cli_commands. clear -Hn.
    apply Forall_forall. intros req Hreq. apply elem_of_lookup_zip_with in Hreq as (i & t & l & -> & _ & Hl).
    apply list_elem_of_lookup_2, list_elem_of_filter in Hl as [_ Hl]. rewrite Forall_forall in Hn.
    apply Forall_forall. intros a Ha Hin. by apply (Hn l Hl), (parseCommand_chars l a). }
  exists responses, w'. split; [done|]. split; [done|]. intros sends Hsends.
  destruct (cli_loop_in_step (getlines input) responses sends st) as (st' & -> & H1 & H2 & H3); [|done|].
  { rewrite Hl. unfold requests. rewrite length_zip_with. lia. }
  exists st', (strip_eol <$> responses). split; [done|]. split.
  { apply Forall2_fmap_r, Forall_Forall2_diag, Forall_forall. intros r _. apply strip_eol_shown. }
  split; [done|]. split; [done|]. eexists. split; [exact H3|]. by apply extract_commands.
Qed.
End session.

(** One [recv] per command: a response that arrives in two pieces, as one of 4096 bytes or
    more always does, is shown as the responses to two commands. *)
Lemma cli_out_of_step r line1 line2 o1 o2 rest st :
  (BUFFER_SIZE <= length r)%nat -> line1 <> [] -> line2 <> [] -> o1 <> BrokenPipe -> o2 <> BrokenPipe ->
  exists piece1 piece2, r = piece1 ++ piece2 /\ (0 < length piece1 < BUFFER_SIZE)%nat /\ piece2 <> [] /\
    exists st', cli_loop [line1; line2] ((o1, Received piece1) :: (o2, Received piece2) :: rest) st = Done st' /\
      cli_out st' = cli_out st ++ transcript [line1; line2] [strip_eol piece1; strip_eol piece2].
Proof.
  intros Hr H1 H2 Ho1 Ho2. exists (take (BUFFER_SIZE - 1) r), (drop (BUFFER_SIZE - 1) r).
  split; [by rewrite take_drop|]. split; [rewrite length_take; unfold BUFFER_SIZE in *; lia|].
  split. { intros Hd%(f_equal length). rewrite length_drop in Hd. cbn [length] in Hd. unfold BUFFER_SIZE in *. lia. }
  destruct line1 as [|c1 line1], line2 as [|c2 line2]; try done. destruct o1, o2; try done;
    (eexists; split; [reflexivity|]; cbn [print cli_out transcript]; by rewrite <- !app_assoc).
Qed.

(** The usage of the README, [cache_cli localhost 6380]: the host is taken for the port. *)
Example cli_readme_port : cli_port [str "localhost"; str "6380"] = Ret 0.
Proof. vm_compute. reflexivity. Qed.
