(* ===== verification/Witnesses.v ===== *)
(** * Concrete inputs for the theorems

    One run per theorem that has hypotheses: the theorem applied to inputs at which
    every hypothesis holds.  [std::hash] is instantiated by the length of the key. *)

From S2P Require Import Prelude Cpp Parser AofFormat ParserFacts Response StdList Lru Shard.
From S2P Require Import StorageInterface ShardedStorage StorageFacts StorageSize Accounting Expiration.
From S2P Require Import AofWriter AofReplay Isolation ReplayReport.
From S2P Require Import Dispatcher DispatcherFacts Recovery StorageCommute Restarts LogOrder SplitLog.
From S2P Require Import Connection ThreadPool Server ServerFacts ServerSession FineServer OneLine ServerLoop.
From S2P Require Import ServerLife Main Process Drain Pooled Finish Client Cli.
Local Open Scope Z_scope.

#[local] Instance demo_hash : StdHash := fun s => Z.of_nat (length s).

(** ** Storage *)

Definition demo_calls : list call :=
  [CallSet (str "a") (str "1"); CallSet (str "b") (str "2"); CallGet 0 (str "a");
   CallExpire 0 0 (str "a") 10; CallTtl 1 1 (str "a"); CallSet (str "c") (str "3");
   CallGet 5 (str "b"); CallDel 5 (str "a")].

Definition state_of {A} (m : outcome (A * ShardedStorage)) (s : ShardedStorage) : ShardedStorage :=
  match m with Ret (_, s') => s' | UB => s end.

(** A storage for two keys per shard, and the same after the runs. *)
Definition demo_empty : ShardedStorage := new_storage 32.
Definition demo_stored : ShardedStorage :=
  state_of (run_calls [CallSet (str "a") (str "1"); CallExpire 0 0 (str "a") 10] demo_empty)
    demo_empty.

Lemma run_calls_reachable max_keys cs s0 rs s :
  reachable max_keys s0 -> calls_ok cs s0 -> run_calls cs s0 = Ret (rs, s) -> reachable max_keys s.
Proof.
  revert s0 rs. induction cs as [|c cs IH]; intros s0 rs Hr Hok Hrun; simpl in *.
  - outcome_inv. done.
  - destruct Hok as [Hc Hok]. apply bind_Ret_inv in Hrun as ([r s1] & H1 & Hrun).
    apply bind_Ret_inv in Hrun as ([rs1 s2] & H2 & [= <- <-]).
    apply (IH s1 rs1); [|by eauto|done]. eapply rtc_r; [exact Hr|]. by econstructor.
Qed.

(** Close [calls_ok] for calls without a sweep. *)
Ltac calls_ok_tac :=
  repeat (split; [first [done|intros _; unfold deadline_ok; by_evaluation|by_evaluation]|intros ? ? _]);
  exact I.

Lemma demo_calls_ok : calls_ok demo_calls demo_empty.
Proof. calls_ok_tac. Qed.

Lemma demo_range : 0 <= 32 < 2 ^ 64.
Proof. lia. Qed.

Lemma demo_empty_reachable : reachable 32 demo_empty.
Proof. constructor. Qed.

Lemma demo_stored_reachable : reachable 32 demo_stored.
Proof.
  eapply (run_calls_reachable 32 [CallSet (str "a") (str "1"); CallExpire 0 0 (str "a") 10]);
    [apply demo_empty_reachable|calls_ok_tac|vm_compute; reflexivity].
Qed.

Lemma storage_refines_lru_witness :
  exists s, run_calls demo_calls (new_storage 32) =
    Ret ([RUnit; RUnit; RValue (Some (str "1")); RBool true; RInt 9; RUnit; RValue None; RBool true], s)
    /\ storage_inv s.
Proof.
  pose proof (storage_refines_lru 32 demo_calls demo_range demo_calls_ok) as Hr.
  destruct (spec_run _ _ _) as [rs ca] eqn:E. destruct Hr as (s & Hr & Hi & _).
  apply (f_equal fst) in E. vm_compute in E. exists s. split; [|exact Hi].
  rewrite Hr, <- E. reflexivity.
Defined.

Lemma storage_reachable_inv_witness : storage_inv demo_stored.
Proof. apply (storage_reachable_inv 32 demo_stored demo_range demo_stored_reachable). Defined.

(** [a] is deleted after its shard was read, and counted. *)
Definition demo_scan : list (list call) :=
  [[]; []; [CallDel 0 (str "a"); CallSet (str "bb") (str "2")]] ++ replicate 13 [].

Lemma demo_scan_ok : scan_ok demo_scan demo_stored.
Proof.
  split; [done|]. intros rs s [= <- <-]. split; [done|]. intros rs s [= <- <-]. split; [calls_ok_tac|].
  intros rs s Hs. vm_compute in Hs. injection Hs as <- <-.
  repeat (split; [exact I|]; intros rs s [= <- <-]). exact I.
Qed.

Lemma size_regular_witness :
  exists s', size_scan 0 demo_scan 0 demo_stored = Ret (2, s') /\ rtc storage_step demo_stored s'.
Proof.
  destruct (size_regular 32 demo_stored demo_scan demo_range demo_stored_reachable eq_refl demo_scan_ok)
    as (R & s' & Hs & Hsteps & _). exists s'. split; [|exact Hsteps].
  rewrite Hs. do 2 f_equal. apply (f_equal (fun o => match o with Ret x => x.1 | UB => 0 end)) in Hs.
  vm_compute in Hs. symmetry. exact Hs.
Defined.

(** Two keys of the same shard: the one just written survives the next insertion. *)
Definition demo_touched : ShardedStorage :=
  state_of (run_call (CallSet (str "a") (str "1")) demo_empty) demo_empty.
Definition demo_pushed : ShardedStorage :=
  state_of (run_calls [CallSet (str "b") (str "2")] demo_touched) demo_empty.

Lemma lru_keeps_recent_witness : storage_view demo_pushed (str "a") = Some (str "1", None).
Proof.
  apply (lru_keeps_recent 32 demo_empty (CallSet (str "a") (str "1")) RUnit demo_touched
    [CallSet (str "b") (str "2")] [RUnit] demo_pushed (str "a") (str "1", None));
    [apply demo_range|apply demo_empty_reachable|done|done|vm_compute; reflexivity
    |vm_compute; reflexivity|calls_ok_tac|by repeat constructor|vm_compute; lia
    |vm_compute; reflexivity].
Defined.

(** The sweep of the shard of [a] ten seconds after the deadline was set. *)
Lemma demo_sweep_ok now : call_ok demo_stored (CallSweep 1 now [str "a"]).
Proof. eexists. split; [vm_compute; reflexivity|]. vm_compute. reflexivity. Qed.

Lemma sweep_exact_witness :
  exists s', storage_sweep 1 (10 * NS_PER_S) [str "a"] demo_stored = Ret s' /\
    ~ expired_at (10 * NS_PER_S) s' (str "a").
Proof.
  destruct (sweep_exact 32 demo_stored 1 (10 * NS_PER_S) [str "a"] demo_range
    demo_stored_reachable (demo_sweep_ok _)) as (s' & Hs & _ & Hk & _).
  exists s'. split; [exact Hs|]. apply Hk; [vm_compute; reflexivity|by_evaluation].
Defined.

Lemma expire_defined_iff_witness :
  defined (storage_expire 0 0 (str "a") 100 demo_stored) <-> 0 + 100 * NS_PER_S <= INT64_MAX.
Proof.
  apply (expire_defined_iff 32 demo_stored 0 0 (str "a") 100 demo_range demo_stored_reachable);
    [by_evaluation|lia|vm_compute; eauto].
Defined.

(** Keys of two shards, one of them full. *)
Lemma shards_commute_witness :
  run_two (CallGet (10 * NS_PER_S) (str "a")) (CallSet (str "bb") (str "2")) demo_stored =
  swap_replies <$> run_two (CallSet (str "bb") (str "2")) (CallGet (10 * NS_PER_S) (str "a")) demo_stored.
Proof. apply shards_commute. vm_compute. discriminate. Defined.

(** Five insertions, of which two are pushed out, one is deleted and one expires. *)
Definition demo_books : list call :=
  [CallSet (str "a") (str "1"); CallSet (str "b") (str "2"); CallSet (str "c") (str "3");
   CallSet (str "d") (str "4"); CallSetWithTTL 0 (str "ee") (str "5") 1; CallDel 0 (str "d");
   CallGet 2000000000 (str "ee")].

Lemma demo_books_ok : calls_ok demo_books demo_empty.
Proof. calls_ok_tac. Qed.

Lemma keys_balance_witness :
  exists rs s, run_calls demo_books demo_empty = Ret (rs, s) /\
    5 = storage_size s + Z.of_nat (deleted demo_books rs) + expiredKeysCount s + evictedKeysCount s.
Proof.
  destruct (keys_balance 32 demo_books demo_range demo_books_ok) as (rs & s & Hr & Hb); [vm_compute; reflexivity|].
  exists rs, s. split; [exact Hr|]. rewrite <- Hb. vm_compute. reflexivity.
Defined.



(** ** Requests *)

Definition demo_keys : gset bytes := {[str "a"; str "b"]}.

Definition demo_world : World ShardedStorage := mkWorld (new_dispatcher 0) demo_empty None.

Definition demo_reqs : list (Z * Z * Command) :=
  [(0, 0, mkCommand SET [str "a"; str "1 2"]); (1, 1, mkCommand GET [str "a"]);
   (2, 2, mkCommand EXPIRE [str "a"; str "10"]); (3, 3, mkCommand TTL [str "a"]);
   (4, 4, mkCommand SET [str "b"; str "x"]); (5, 5, mkCommand DEL [str "b"]);
   (6, 6, mkCommand STATS [])].

Lemma demo_empty_store : empty_store demo_keys demo_empty.
Proof.
  split; [by apply new_storage_inv|]. split; [|apply new_storage_view].
  apply new_storage_fits. vm_compute. discriminate.
Qed.

Lemma demo_reqs_ok : Forall req_ok demo_reqs.
Proof.
  repeat (apply Forall_cons; split; [split; [by_evaluation|]; split; [by_evaluation|];
    first [exact I|intros _; by_evaluation]|]); apply Forall_nil, I.
Qed.

Lemma demo_reqs_within : Forall (req_within demo_keys) demo_reqs.
Proof.
  repeat (apply Forall_cons; split; [first [exact I|unfold req_within; simpl; set_solver]|]);
    apply Forall_nil, I.
Qed.

Lemma serve_like_map_witness :
  exists rs w', serve demo_reqs demo_world = Ret (rs, w') /\
    view (store w') (str "a") = Some (str "1 2", Some (2 + 10 * NS_PER_S)).
Proof.
  destruct demo_empty_store as (Hi & Hf & Hv).
  destruct (serve_like_map demo_keys demo_reqs demo_world Hi Hf Hv ltac:(by_evaluation)
    demo_reqs_ok demo_reqs_within) as (rs & w' & Hs & _ & Hview).
  exists rs, w'. split; [exact Hs|]. rewrite Hview. reflexivity.
Defined.

(** Two clients: the first uses the key [a], the second [b] and a PING. *)
Definition demo_tagged : list (nat * (Z * Z * Command)) :=
  [(1%nat, (0, 0, mkCommand SET [str "a"; str "1"])); (2%nat, (1, 1, mkCommand SET [str "b"; str "2"]));
   (2%nat, (2, 2, mkCommand PING [])); (1%nat, (3, 3, mkCommand GET [str "a"]));
   (2%nat, (4, 4, mkCommand DEL [str "b"])); (1%nat, (5, 5, mkCommand TTL [str "a"]))].

Lemma demo_refines_empty : refines_kv demo_keys demo_world kv_empty.
Proof.
  destruct demo_empty_store as (Hi & Hf & Hv). split; [exact Hi|]. split; [exact Hf|].
  split; [by_evaluation|exact Hv].
Qed.

Lemma clients_isolated_witness :
  exists rs w', serve demo_tagged.*2 demo_world = Ret (rs, w') /\
    answers_of 1 demo_tagged rs = [okResponse; valueResponse (str "1"); integerResponse (-1)].
Proof.
  destruct (clients_isolated demo_keys (fun k => k = str "a") 1 demo_tagged demo_world demo_world
    demo_refines_empty demo_refines_empty) as (rs & w' & rs0 & w0' & Hs & Hs0 & Hsame).
  - repeat (apply Forall_cons; split; [first [exact I|reflexivity|discriminate]|]). apply Forall_nil, I.
  - repeat (apply Forall_cons; split; [split; [split; [by_evaluation|split; [by_evaluation|exact I]]
      |first [exact I|unfold req_within; simpl; set_solver]]|]). apply Forall_nil, I.
  - exists rs, w'. split; [exact Hs|]. injection Hs as <- <-. reflexivity.
Defined.

Lemma demo_framed : framed demo_world.
Proof.
  split; [apply demo_empty_store|]. split; [|by_evaluation]. intros k v d Hv.
  by rewrite (proj2 (proj2 demo_empty_store)) in Hv.
Qed.

Definition demo_world_a : World ShardedStorage := mkWorld (new_dispatcher 0) demo_stored None.

(** ** The log *)

Definition demo_writer : AOFWriter := new_writer 0 1000.
Definition demo_started : AOFWriter := default demo_writer (aof_start (Some []) demo_writer).

(** Two producers and the writer thread, interleaved. *)
Definition demo_events : list aof_event :=
  [EvCheck (setLine (str "a") (str "1")); EvCheck (setLine (str "b") (str "2"));
   EvPush (setLine (str "b") (str "2")); EvTake; EvPush (setLine (str "a") (str "1"));
   EvWrite [IoOk] IoOk 5; EvSpill 3].

Definition demo_after : AOFWriter := default demo_writer (aof_run demo_events demo_started).

Lemma demo_events_healthy : Forall healthy demo_events.
Proof. repeat constructor. Qed.

Lemma aof_fifo_witness :
  text demo_after ++ lines_text (in_progress demo_after ++ queue_ demo_after) =
  lines_text [setLine (str "b") (str "2"); setLine (str "a") (str "1")].
Proof.
  apply (aof_fifo 0 1000 [] demo_started demo_events demo_after); [reflexivity|
    apply demo_events_healthy|vm_compute; reflexivity].
Defined.

Lemma aof_prefix_witness :
  text demo_after `prefix_of` lines_text [setLine (str "b") (str "2"); setLine (str "a") (str "1")].
Proof.
  apply (aof_prefix 0 1000 [] demo_started demo_events demo_after); [reflexivity|
    vm_compute; reflexivity].
Defined.

Definition demo_stop : list aof_event := [EvStopRequest; EvTake; EvWrite [] IoOk 9; EvTake].
Definition demo_stopped : AOFWriter :=
  default demo_writer (aof_run (EvStopStore :: demo_stop ++ [EvStopFinish IoOk]) demo_after).

(** ** Restart *)

Definition demo_logging : World ShardedStorage :=
  mkWorld (new_dispatcher 0) demo_empty (Some demo_writer).

Lemma demo_fresh : fresh_server demo_keys demo_logging demo_writer.
Proof. split; [apply demo_empty_store|]. split; [by_evaluation|done]. Qed.

Lemma demo_reqs_loggable : Forall (req_loggable 100) demo_reqs.
Proof.
  repeat (apply Forall_cons; split; [unfold req_loggable, loggable; simpl type; simpl args;
    first [exact I|by_evaluation]|]); apply Forall_nil, I.
Qed.

Definition demo_lines : list bytes := ref_logs demo_reqs kv_empty.

(** The lines pushed one by one, taken as one batch and flushed by the stop. *)
Definition demo_session : list aof_event :=
  concat (map (fun l => [EvCheck l; EvPush l]) demo_lines).
Definition demo_fed : AOFWriter := default demo_writer (aof_run demo_session demo_started).
Definition demo_closed : AOFWriter :=
  default demo_writer (aof_run (EvStopStore :: demo_stop ++ [EvStopFinish IoOk]) demo_fed).

Lemma demo_writer_life : writer_life [] demo_lines (lines_text demo_lines).
Proof.
  exists 0, 1000, demo_started, demo_session, demo_fed, demo_stop, demo_closed.
  eexists. split; [reflexivity|]. split; [repeat constructor|]. split; [vm_compute; reflexivity|].
  do 2 (split; [vm_compute; reflexivity|]). split; [repeat constructor|].
  split; [vm_compute; reflexivity|]. split; [vm_compute; reflexivity|].
  split; [vm_compute; reflexivity|]. vm_compute. reflexivity.
Qed.

(** One session from an empty log, and the next start. *)
Definition demo_logged : list bytes * World ShardedStorage :=
  match serve demo_reqs demo_logging with Ret x => x | UB => ([], demo_logging) end.

Lemma demo_history : history demo_keys 100 (lines_text demo_lines) (view (store demo_logged.2)).
Proof.
  eapply (history_session demo_keys 100 [] kv_empty 100 (fun _ => (100, 100)) demo_empty demo_empty
    (mkStats 0 0 0) demo_logging demo_writer demo_reqs demo_logged.1 demo_logged.2).
  - constructor.
  - lia.
  - intros i. simpl. unfold NS_PER_S. lia.
  - apply demo_empty_store.
  - reflexivity.
  - split; [done|]. split; [by_evaluation|done].
  - apply demo_reqs_ok.
  - apply demo_reqs_within.
  - apply demo_reqs_loggable.
  - vm_compute. reflexivity.
  - vm_compute. reflexivity.
  - exact demo_writer_life.
Qed.

(** A file with a blank line, an error and a line that is no command of the log. *)
Definition demo_damaged : bytes :=
  lines_text [setLine (str "a") (str "1"); []; str "EXPIRE a soon"; str "GET a"; expireLine (str "a") 10].

Lemma replay_any_file_witness :
  exists s', replay (fun _ => (100, 100)) (Some demo_damaged) demo_empty = Ret (s', mkStats 2 2 1) /\ store_inv s'.
Proof.
  destruct (replay_any_file (fun _ => (100, 100)) demo_damaged demo_empty (str "stoll") (str "stoll"))
    as (_ & _ & _ & Hdef).
  apply Hdef.
  - apply demo_empty_store.
  - assert (Hes : entries_of (fun _ => (100, 100)) 0 (getlines demo_damaged) =
      [(100, 100, ESet (str "a") (str "1")); (100, 100, EExpire (str "a") 10)]) by (vm_compute; reflexivity).
    rewrite Hes. apply Forall_cons. split; [exact I|]. apply Forall_singleton. split; by_evaluation.
Defined.

Lemma log_order_inverted_witness :
  exists es ws a', worker_run es (mkWorkers demo_logging ∅ []) = Some (Ret ws) /\
    view (store (shared ws)) (str "a") = Some (str "2", None) /\ aof (shared ws) = Some a' /\
    exists s1 st, replay (fun _ => (100, 100)) (Some (lines_text (queue_ a'))) demo_empty = Ret (s1, st) /\
      errors st = 0 /\ view s1 (str "a") = Some (str "1", None).
Proof.
  destruct (log_order_inverted demo_keys demo_logging demo_writer (str "a") (str "1") (str "2")
    (fun _ => (100, 100)) demo_empty demo_fresh) as (es & ws & a' & Hrun & _ & _ & Hv & Ha & Hr);
    [unfold loggable; by_evaluation|unfold loggable; by_evaluation|unfold loggable; by_evaluation
    |apply demo_empty_store|].
  exists es, ws, a'. split; [exact Hrun|]. split; [exact Hv|]. split; [exact Ha|exact Hr].
Defined.

Lemma expire_zero_resurrects_witness :
  exists rs w' a',
    serve [(0, 0, mkCommand SET [str "a"; str "1"]); (1, 1, mkCommand EXPIRE [str "a"; str "0"])]
      demo_logging = Ret (rs, w') /\ aof w' = Some a' /\
    exists s1 st, replay (fun _ => (100, 100)) (Some (lines_text (queue_ a'))) demo_empty = Ret (s1, st) /\
      view s1 (str "a") = Some (str "1", None) /\ errors st = 1.
Proof.
  destruct (expire_zero_resurrects demo_keys demo_logging demo_writer (str "a") (str "1") 0 1 1
    (fun _ => (100, 100)) demo_empty demo_fresh) as (rs & w' & a' & Hs & _ & Ha & Hr);
    [by_evaluation|unfold loggable; by_evaluation|unfold loggable; by_evaluation
    |by_evaluation|by_evaluation|by_evaluation|apply demo_empty_store|].
  exists rs, w', a'. split; [exact Hs|]. split; [exact Ha|exact Hr].
Defined.

Lemma torn_line_accepted_witness :
  exists contents s1 st, contents `prefix_of` lines_text [setLine (str "a") (str "12")] /\
    replay (fun _ => (100, 100)) (Some contents) demo_empty = Ret (s1, st) /\
    view s1 (str "a") = Some (str "1", None) /\ errors st = 0.
Proof.
  apply (torn_line_accepted demo_keys (str "a") (str "1") "2"%char (fun _ => (100, 100)) demo_empty);
    [unfold loggable; by_evaluation|unfold loggable; by_evaluation|discriminate|reflexivity
    |apply demo_empty_store].
Defined.

(** ** Connections *)

Definition demo_reads : list recv_result :=
  [Received (str "PI"); RecvAgain; Received (str "NG" ++ [ch_cr; ch_nl; ch_nl] ++ str "GET a");
   Received ([ch_nl] ++ str "SE")].

Lemma read_framing_witness :
  (read_all demo_reads (new_connection 5)).1 = [str "PING"; str "GET a"] /\
  read_buffer_ (read_all demo_reads (new_connection 5)).2 = str "SE".
Proof.
  apply (read_framing demo_reads [(str "PING", true); ([], false); (str "GET a", false)] (str "SE") 5
    (read_all demo_reads (new_connection 5)).1 (read_all demo_reads (new_connection 5)).2);
    [unfold client_line_ok; by_evaluation|by_evaluation|reflexivity|apply surjective_pairing].
Defined.

Lemma sendResponse_total_witness :
  exists b c' wire', sendResponse [Sent 2; SendAgain; Sent 1; Sent 1; Sent 1; Sent 1] pongResponse
    (new_connection 5) [] = Some (b, c', wire') /\
    send_outcome pongResponse (new_connection 5) [] b c' wire'.
Proof.
  apply (sendResponse_total [Sent 2; SendAgain; Sent 1; Sent 1; Sent 1; Sent 1]);
    [repeat constructor|vm_compute; lia].
Defined.

(** ** Thread pool *)

Definition demo_pool_events : list pool_event :=
  [PSubmit 1%nat; PSubmit 2%nat; PLock 1; PLock 0; PFinish 1; PSubmit 3%nat].
Definition demo_pool : ThreadPool nat :=
  match pool_run demo_pool_events (new_pool 2) with Some (Ret p) => p | _ => new_pool 2 end.

Lemma demo_pool_runs : pool_run demo_pool_events (new_pool 2) = Some (Ret demo_pool).
Proof. vm_compute. reflexivity. Qed.

Lemma pool_fifo_witness : taken demo_pool_events (new_pool 2) ++ tasks_ demo_pool = [1; 2; 3]%nat.
Proof. apply (pool_fifo 2 demo_pool_events demo_pool demo_pool_runs). reflexivity. Defined.


(** ** Server *)

Definition demo_server_events : list server_event :=
  [SvAccept granted 5 0 0; SvAccept granted 6 1 1; SvEvent 0 0 (ev_read (Received ping_line)) 5; SvTask 0 1 1 [];
   SvEvent 0 0 (ev_read (Received (str "SET a 1" ++ [ch_nl]))) 6; SvTask 0 2 2 [Sent 6]; SvTask 1 3 3 []].
Definition demo_server0 : Server ShardedStorage := idle_server demo_logging.
Definition demo_server : Server ShardedStorage :=
  match server_run demo_server_events demo_server0 with Some (Ret (Some sv)) => sv | _ => demo_server0 end.

Lemma demo_server_runs : server_run demo_server_events demo_server0 = Some (Ret (Some demo_server)).
Proof. vm_compute. reflexivity. Qed.

(** A run, and one that the kernel ends by refusing to register a descriptor. *)
Definition demo_refused : list server_event :=
  [SvAccept granted 5 0 0; SvAccept (mkAcceptSys 0 0 (-1)) 6 1 1].

Lemma server_consistent_witness : server_inv demo_server /\ ~ Forall step_granted demo_refused.
Proof.
  split.
  - exact (server_consistent demo_logging demo_server_events (Ret (Some demo_server)) demo_server_runs).
  - apply (server_consistent demo_logging demo_refused (Ret None)). vm_compute. reflexivity.
Defined.

(** The same, with the calls of the workers interleaved and a response sent in pieces. *)
Definition demo_fine_events : list fine_event :=
  [FLoop (SvAccept granted 5 0 0); FLoop (SvAccept granted 6 1 1); FLoop (SvEvent 0 0 (ev_read (Received ping_line)) 5);
   FWork (WkStore 0 1 1); FLoop (SvEvent 0 0 (ev_read (Received (str "SET a 1" ++ [ch_nl]))) 6);
   FWork (WkStore 1 2 2); FWork (WkLog 0); FWork (WkSend 0 (Sent 2)); FWork (WkLog 1);
   FWork (WkSend 1 (Sent 1)); FWork (WkSend 0 (Sent 4)); FWork (WkSend 0 (Sent 0)); FWork (WkClear 0)].
Definition demo_fine0 : FineServer ShardedStorage := mkFine (idle_server demo_logging) ∅.
Definition demo_fine : FineServer ShardedStorage :=
  match fine_run demo_fine_events demo_fine0 with Some (Ret (Some fs)) => fs | _ => demo_fine0 end.

Lemma demo_fine_runs : fine_run demo_fine_events demo_fine0 = Some (Ret (Some demo_fine)).
Proof. vm_compute. reflexivity. Qed.

Lemma demo_fine_orderly : fine_orderly_run demo_fine_events demo_fine0.
Proof.
  unfold demo_fine_events.
  repeat (eapply fine_orderly_cons; [first [exact I|intros [=]|by eexists]|vm_compute; reflexivity|]). exact I.
Qed.

Lemma clients_get_own_bytes_witness :
  wire_of 0 (kernel (base demo_fine)) ++ pending 0 (pool_tasks (base demo_fine)) = pongResponse /\
  wire_of 1 (kernel (base demo_fine)) ++ pending 1 (pool_tasks (base demo_fine)) = okResponse.
Proof.
  split.
  - rewrite (clients_get_own_bytes demo_logging demo_fine_events demo_fine 5 0 0
      demo_fine_orderly demo_fine_runs); vm_compute; reflexivity.
  - rewrite (clients_get_own_bytes demo_logging demo_fine_events demo_fine 6 1 1
      demo_fine_orderly demo_fine_runs); vm_compute; reflexivity.
Defined.

Lemma demo_fine_stores : stores_ok demo_fine_events demo_fine0.
Proof.
  unfold demo_fine_events.
  repeat (eapply stores_ok_cons;
    [first [exact I
           |intros t Ht _; vm_compute in Ht; injection Ht as <-;
            split; [by_evaluation|]; split; [by_evaluation|vm_compute; exact I]]
    |vm_compute; reflexivity|]). exact I.
Qed.

Lemma session_one_line_each_witness :
  exists commands responses, [parseCommand (str "SET a 1")] = commands ++ unserved 1 (pool_tasks (base demo_fine)) /\
    length responses = length commands /\ Forall one_line responses /\
    wire_of 1 (kernel (base demo_fine)) ++ pending 1 (pool_tasks (base demo_fine)) = concat responses.
Proof.
  destruct (session_one_line_each demo_logging demo_fine_events demo_fine 6 1 1)
    as (commands & responses & Ht & Hl & Ho & Hw & _);
    [apply demo_framed|exact demo_fine_orderly|exact demo_fine_stores|exact demo_fine_runs
    |vm_compute; reflexivity|vm_compute; reflexivity|].
  exists commands, responses. split; [rewrite <- Ht; vm_compute; reflexivity|].
  split; [exact Hl|]. split; [exact Ho|exact Hw].
Defined.

(** Two commands in one read, and the first of them alone. *)
Definition demo_accepted : Server ShardedStorage :=
  match server_run [SvAccept granted 5 0 0] demo_server0 with Some (Ret (Some sv)) => sv | _ => demo_server0 end.

Lemma commands_after_first_lost_witness :
  handleRead 0 0 (Received (ping_line ++ str "SET a 1" ++ [ch_nl])) 0 5 demo_accepted =
  handleRead 0 0 (Received ping_line) 0 5 demo_accepted.
Proof.
  apply (commands_after_first_lost 0 0 0 5 0 (new_connection 5)
    (Received (ping_line ++ str "SET a 1" ++ [ch_nl])) (Received ping_line)
    (str "PING") [str "SET a 1"] [] (new_connection 5) demo_accepted); vm_compute; reflexivity.
Defined.

(** ** The loop, shutdown *)

(** A batch of two events, of a client with a command and of the listening socket with a
    new connection, and the worker in between. *)
Definition demo_batch : list loop_item :=
  [LEvent 0 0 5 (ev_read (Received ping_line)) []; LTask 0 1 1 [];
   LEvent 0 0 3 (ev_read RecvAgain) [Accepted granted 6 1 1; AcceptAgain]; LTask 0 2 2 [Sent 6]].

Definition demo_batch_end : Server ShardedStorage :=
  match run_items 3 demo_batch demo_accepted with Some (Ret (Some sv)) => sv | _ => demo_accepted end.

Lemma demo_accepted_inv : server_inv demo_accepted.
Proof.
  apply (server_run_reaches_inv [SvAccept granted 5 0 0] demo_server0);
    [apply idle_server_inv|vm_compute; reflexivity].
Qed.

Lemma run_batch_refines_witness :
  server_run (demo_batch ≫= item_steps 3) demo_accepted = Some (Ret (Some demo_batch_end)).
Proof.
  apply run_batch_refines.
  - apply demo_accepted_inv.
  - repeat (apply Forall_cons; split); try (apply Forall_nil, I); try exact I; [right|by left].
    exists false. split; vm_compute; reflexivity.
  - by_evaluation.
  - vm_compute. reflexivity.
Defined.

(** The server with the log of [demo_events]. *)
Definition demo_closing : Server ShardedStorage :=
  idle_server (mkWorld (new_dispatcher 0) demo_empty (Some demo_after)).

Lemma shutdown_flushes_witness :
  exists es2 sv' a' f, server_destroy 3 es2 IoOk demo_closing = Some (sv', Some 3) /\ aof (world sv') = Some a' /\
    file_ a' = Some f /\ is_open f = false /\
    disk f = lines_text ([setLine (str "b") (str "2"); setLine (str "a") (str "1")] ++ pushed es2).
Proof.
  destruct (shutdown_flushes demo_closing 0 1000 [] demo_started demo_events demo_after 3)
    as [(es2 & sv' & Hh & Hd) Hall];
    [apply idle_server_inv|lia|reflexivity|reflexivity|apply demo_events_healthy|vm_compute; reflexivity
    |vm_compute; reflexivity|vm_compute; reflexivity|].
  destruct (Hall es2 sv' (Some 3) Hh Hd) as (a' & f & Ha & Hf & Ho & Hdisk & _).
  exists es2, sv', a', f. split; [exact Hd|]. split; [exact Ha|]. split; [exact Hf|]. split; [exact Ho|].
  exact Hdisk.
Defined.

(** A worker holds a SET when the writer is stopped. *)
Definition demo_holding : Server ShardedStorage :=
  match server_run [SvAccept granted 5 0 0; SvEvent 0 0 (ev_read (Received (str "SET a 1" ++ [ch_nl]))) 5]
          demo_closing with
  | Some (Ret (Some sv)) => sv | _ => demo_closing end.

Lemma shutdown_loses_acknowledged_witness :
  exists sv1 sv2, stop_writer demo_stop IoOk demo_holding = Some sv1 /\
    server_run [SvTask 0 1 1 []; SvTask 0 1 1 [Sent 4]] sv1 = Some (Ret (Some sv2)) /\
    aof (world sv2) = Some demo_stopped /\ view (store (world sv2)) (str "a") = Some (str "1", None) /\
    wire_of 0 (kernel sv2) = okResponse.
Proof.
  apply (shutdown_loses_acknowledged demo_holding 0 0 (trySetInFlight (new_connection 5)).2 0 (str "a")
    (str "1") demo_after demo_stop IoOk demo_stopped 1 1);
    [apply demo_empty_store|vm_compute; reflexivity..].
Defined.

(** ** The process *)

Definition demo_path : bytes := str "./cache.aof".

Definition demo_launch (file : option bytes) : LaunchEnv :=
  mkLaunchEnv (fun p => if decide (p = demo_path) then file else None) (fun _ => true)
    (fun _ => (100, 100)) 100 1000 (mkSetupSys 4 3 0 0 0 0 0 0).

Lemma demo_starts file : starts demo_keys 1000 demo_path file [] (demo_launch file) 100 demo_empty.
Proof.
  split.
  - exists default_options. split; [reflexivity|]. split; reflexivity.
  - split; [|reflexivity]. unfold demo_launch. cbn [le_files]. by rewrite decide_True.
  - split; [lia|]. split; [|by_evaluation]. intros i. simpl. unfold NS_PER_S. lia.
  - reflexivity.
  - apply demo_empty_store.
Qed.

(** Two clients set different keys.  Their workers overlap: the second reaches the log
    first, the expiration thread sweeps their shard in between, and the writer thread takes
    the line of the second before the first has logged. *)
Definition demo_process : list process_event :=
  [PLoop (LEvent 0 0 3 (ev_read RecvAgain) [Accepted granted 5 0 0; Accepted granted 6 1 1; AcceptAgain]);
   PLoop (LEvent 0 0 5 (ev_read (Received (str "SET a 1" ++ [ch_nl]))) []);
   PLoop (LEvent 0 0 6 (ev_read (Received (str "SET b 2" ++ [ch_nl]))) []);
   PWork (WkStore 0 200 200); PWork (WkStore 1 210 210); PSweep 1 220 [str "a"; str "b"];
   PWork (WkLog 1); PWriter EvTake; PWork (WkLog 0); PWork (WkSend 1 (Sent 3));
   PWriter (EvWrite [IoOk] IoOk 300); PWork (WkSend 1 (Sent 1)); PWork (WkSend 0 (Sent 4))].
Definition demo_shutdown : list aof_event := [EvStopRequest; EvTake; EvWrite [] IoOk 400; EvTake].

Definition demo_first : Server ShardedStorage :=
  match launch (str "server") [] (demo_launch None) demo_empty with
  | Ret (Serves _ sv _ _) => sv | _ => demo_server0 end.
Definition demo_last : FineServer ShardedStorage :=
  match process_run 3 demo_process (mkFine demo_first ∅) with
  | Some (Ret (Some fs)) => fs | _ => mkFine demo_server0 ∅ end.
Definition demo_gone : Server ShardedStorage :=
  match server_destroy 3 demo_shutdown IoOk (base demo_last) with Some (sv, _) => sv | None => demo_server0 end.
Definition demo_file : bytes := lines_text [setLine (str "b") (str "2"); setLine (str "a") (str "1")].

(** Close [step_ok] for a step on a computed state. *)
Ltac step_ok_tac :=
  first
    [ exact I
    | by repeat constructor
    | eexists; split; [vm_compute; reflexivity|vm_compute; by repeat constructor]
    | intros t Ht _; vm_compute in Ht; injection Ht as <-; split;
        [ split; [split; [by_evaluation|]; split; [by_evaluation|exact I]|];
          split; [unfold req_within; simpl; set_solver|];
          unfold req_loggable, loggable; simpl type; simpl args; by_evaluation
        | intros r w l Hd; vm_compute in Hd; injection Hd as _ _ <-; by_evaluation ] ].

Lemma demo_run_ok : run_ok demo_keys 1000 3 demo_process (mkFine demo_first ∅).
Proof.
  unfold demo_process. repeat (eapply run_ok_cons; [step_ok_tac|vm_compute; reflexivity|]). exact I.
Qed.

Lemma demo_lives :
  lives demo_keys 1000 (str "server") demo_path (Some demo_file) (view (store (world demo_gone))).
Proof.
  refine (lives_next demo_keys 1000 (str "server") demo_path None kv_empty [] (demo_launch None) 100 demo_empty
    (start_text default_options) demo_first 4 3 demo_process demo_last demo_shutdown demo_gone (Some 3)
    (default demo_writer (aof (world demo_gone)))
    (mkOFStream false true [] demo_file) _ (demo_starts None) _ demo_run_ok _ _ _ _ _ _ _);
    [constructor|vm_compute; reflexivity|vm_compute; reflexivity|vm_compute; reflexivity|by repeat constructor
    |reflexivity|vm_compute; reflexivity|vm_compute; reflexivity|vm_compute; reflexivity].
Qed.

Lemma processes_recover_witness :
  exists out sv0 epoll_fd server_fd,
    launch (str "server") [] (demo_launch (Some demo_file)) demo_empty = Ret (Serves out sv0 epoll_fd server_fd) /\
    recovered (Some (str "1", None)) (view (store (world sv0)) (str "a")).
Proof.
  destruct (processes_recover demo_keys 1000 (str "server") demo_path (Some demo_file)
    (view (store (world demo_gone))) [] (demo_launch (Some demo_file)) 100 demo_empty demo_lives (demo_starts _))
    as (out & sv0 & efd & sfd & Hl & Hrec & _).
  exists out, sv0, efd, sfd. split; [exact Hl|]. specialize (Hrec (str "a")). vm_compute in Hrec |- *. exact Hrec.
Defined.

(** One worker: it has a log call to make, and the second command waits in the queue. *)
Definition demo_pooled : list pooled_event :=
  (QThread <$> take 3 demo_process) ++ [QLock 0; QWork 0 (WkStore 0 200 200)].
Definition demo_pool0 : PooledProcess ShardedStorage := launched_with demo_first default_options 1.
Definition demo_middle : PooledProcess ShardedStorage :=
  match pooled_run 3 demo_pooled demo_pool0 with Some (Ret (Some pp)) => pp | _ => demo_pool0 end.

Example demo_listening :
  listening_text 6380 (pool demo_pool0) = str "Server listening on port 6380 with 1 worker threads" ++ [ch_nl].
Proof. vm_compute. reflexivity. Qed.

Lemma demo_pooled_runs : pooled_run 3 demo_pooled demo_pool0 = Some (Ret (Some demo_middle)).
Proof. vm_compute. reflexivity. Qed.

Lemma demo_serving : serving demo_keys 1000 (str "server") demo_path None [] (demo_launch None) default_options demo_first 3.
Proof.
  exists kv_empty, 100, demo_empty, (start_text default_options), 4. split; [constructor|].
  split; [apply demo_starts|]. split; vm_compute; reflexivity.
Qed.

Lemma demo_pooled_ok : run_ok demo_keys 1000 3 (demo_pooled ≫= process_steps) (mkFine demo_first ∅).
Proof.
  change (demo_pooled ≫= process_steps) with (take 4 demo_process). cbn [take demo_process].
  repeat (eapply run_ok_cons; [step_ok_tac|vm_compute; reflexivity|]). exact I.
Qed.

Lemma demo_servable : Forall (servable demo_keys 1000) (pool_tasks (base (proc demo_middle))).
Proof.
  assert (Ht : pool_tasks (base (proc demo_middle)) =
    [mkTask 0 (mkCommand SET [str "a"; str "1"]) (TSend okResponse);
     mkTask 1 (mkCommand SET [str "b"; str "2"]) TDispatch]) by (vm_compute; reflexivity).
  rewrite Ht. apply Forall_cons. split; [discriminate|]. apply Forall_singleton. intros _. exists 300, 300.
  split; [split; [by_evaluation|]; split; [by_evaluation|exact I]|].
  split; [unfold req_within; simpl; set_solver|]. unfold req_loggable, loggable. simpl type. simpl args. by_evaluation.
Qed.

Lemma pooled_refines_witness :
  running (pool demo_middle) = [0]%nat /\ tasks_ (pool demo_middle) = [1]%nat /\
  running (pool demo_middle) ++ tasks_ (pool demo_middle) ≡ₚ busy (base (proc demo_middle)).
Proof.
  split; [vm_compute; reflexivity|]. split; [vm_compute; reflexivity|].
  destruct (pooled_refines demo_keys 1000 (str "server") demo_path None [] (demo_launch None) default_options demo_first 3 1
    demo_pooled (Ret (Some demo_middle)) demo_serving demo_pooled_ok demo_pooled_runs) as (pp & Hpp & _ & _ & Hb & _).
  injection Hpp as <-. exact Hb.
Defined.

Lemma pooled_drains_witness :
  exists work pp', pooled_run 3 work demo_middle = Some (Ret (Some pp')) /\
    tasks_ (pool pp') = [] /\ running (pool pp') = [] /\ logs (proc pp') = ∅.
Proof.
  destruct (pooled_drains demo_keys 1000 (str "server") demo_path None [] (demo_launch None) default_options demo_first 3 1
    demo_pooled demo_middle demo_serving demo_pooled_ok demo_pooled_runs demo_servable)
    as (work & pp' & _ & _ & Hr & _ & Hq & Hrun & Hl & _).
  exists work, pp'. split; [exact Hr|]. split; [exact Hq|]. split; [exact Hrun|exact Hl].
Defined.

Lemma exit_undefined_witness :
  exists stop pes, process_exit 4 3 stop IoOk pes demo_middle = Some UB.
Proof.
  destruct (exit_undefined demo_keys 1000 (str "server") demo_path None [] (demo_launch None) default_options demo_first 3 1
    demo_pooled demo_middle demo_serving demo_pooled_ok demo_pooled_runs) as [_ (stop & pes & _ & Hx)].
  exists stop, pes. apply Hx.
Defined.

(** ** Command line client *)

Definition demo_input : bytes :=
  str "PING" ++ [ch_nl; ch_nl] ++ str "SET a 1" ++ [ch_nl] ++ str "GET a".

Lemma cli_session_witness :
  exists responses w',
    serve (requests [(0, 0); (1, 1); (2, 2)] (cli_commands (getlines demo_input))) demo_world =
      Ret (responses, w') /\
    exists st' texts, cli_loop (getlines demo_input) (zip [Took 5; Took 8; Took 6] (Received <$> responses))
        (mkCliState [] [] []) = Done st' /\
      Forall2 shown responses texts /\ cli_out st' = transcript (getlines demo_input) texts.
Proof.
  destruct (cli_session demo_input [(0, 0); (1, 1); (2, 2)] demo_world (mkCliState [] [] []))
    as (responses & w' & Hs & _ & Hcli); [by_evaluation|apply demo_framed|vm_compute; reflexivity| |].
  - repeat (apply Forall_cons; split; [|]); try (apply Forall_nil, I);
      (split; [by_evaluation|]; split; [by_evaluation|vm_compute; exact I]).
  - exists responses, w'. split; [exact Hs|].
    destruct (Hcli [Took 5; Took 8; Took 6]) as (st' & texts & Hl & Ht & Ho & _); [repeat constructor|].
    exists st', texts. split; [exact Hl|]. split; [exact Ht|exact Ho].
Defined.
