(* ===== verification/BenchWitnesses.v ===== *)
(** * Concrete inputs for the theorems about the benchmark client

    One run per theorem, at inputs at which every hypothesis holds.  Storage and world are
    those of [Witnesses]. *)

From Stdlib Require Import SpecFloat.
From S2P Require Import Prelude Cpp Response StorageInterface ShardedStorage StorageFacts Dispatcher.
From S2P Require Import DispatcherFacts Connection.
From S2P Require Import Witnesses Double Client Main Bench BenchFacts BenchSession.
Local Open Scope Z_scope.

#[local] Instance bench_hash : StdHash := Witnesses.demo_hash.

(** Three requests over two threads; the sockets deliver nothing but line feeds. *)
Definition demo_config : BenchConfig :=
  mkBenchConfig (str "127.0.0.1") 6380 2 3 10 (atof (str "0.5")) 2.

Definition demo_env (t : nat) : WorkerEnv :=
  mkWorkerEnv true (mkConnectSys 7 1 0) 1000 (fun i => Z.of_nat i mod 62) (fun i => Z.of_nat i mod 10)
    (fun i => double_of (Z.of_nat i mod 2)) (fun i => (2000, 5000))
    (replicate (Z.to_nat 129) (Took 100)) (replicate (Z.to_nat 12285) (RByte ch_nl)).

Lemma demo_config_ok : config_ok demo_config.
Proof.
  split; unfold demo_config; simpl; try (unfold INT_MAX; lia).
  split; eexists; vm_compute; reflexivity.
Qed.

Lemma demo_env_ok t : env_ok demo_config (Z.to_nat 3) (demo_env t).
Proof.
  split.
  - intros i. simpl. pose proof (Z.mod_pos_bound (Z.of_nat i) 62). lia.
  - intros i. simpl. pose proof (Z.mod_pos_bound (Z.of_nat i) 10). lia.
  - intros i. simpl. by_evaluation.
  - simpl. unfold INT64_MAX, INT_MAX. lia.
  - cbn [demo_env we_sends]. rewrite length_replicate. simpl. lia.
  - cbn [demo_env we_recvs]. rewrite length_replicate. unfold RECV_BUF. lia.
Qed.

Lemma bench_accounts_witness :
  exists rep, bench_main demo_config demo_env 0 NS_PER_S = Done rep /\
    total_ops rep + total_errors rep = 3.
Proof.
  pose proof (bench_accounts demo_config demo_env 0 NS_PER_S demo_config_ok demo_env_ok
    ltac:(by_evaluation) ltac:(by_evaluation)) as Hrun.
  destruct (bench_main demo_config demo_env 0 NS_PER_S) as [rep| | |]; [|contradiction| |contradiction].
  - exists rep. split; [reflexivity|exact Hrun].
  - destruct Hrun as (t & _ & [[=]|Hb]). by apply elem_of_replicate in Hb as [[=] _].
Defined.

Definition demo_latencies : list double := double_of <$> [30; 10; 20; 10].

Lemma percentile_rank_witness :
  exists l' v, std_sort demo_latencies = Ret l' /\ percentile 50 l' = Ret v /\ v ∈ demo_latencies.
Proof.
  destruct (percentile_rank 50 demo_latencies) as (l' & v & Hs & Hp & Hv & _);
    [lia|discriminate|vm_compute; discriminate|repeat constructor|].
  exists l', v. split; [exact Hs|]. split; [exact Hp|exact Hv].
Defined.

Definition demo_value : bytes := str "ab".

Lemma demo_short : short_value demo_value.
Proof. split; [by_evaluation|]. unfold RECV_BUF. simpl. lia. Qed.

Lemma demo_short_values : short_values demo_world.
Proof.
  split; [apply demo_empty_store|]. intros k v d Hv.
  by rewrite (proj2 (proj2 demo_empty_store)) in Hv.
Qed.

Lemma bench_session_witness :
  exists responses w',
    serve (bench_requests (fun j => (0, 0)) demo_config (demo_env 0) demo_value 0 3) demo_world =
      Ret (responses, w') /\
    exists st', worker_loop demo_config (demo_env 0) demo_value 0 3
        (worker_start (we_sends (demo_env 0)) ((RByte <$> concat responses) ++ [])) = Done st' /\
      ws_responses st' = responses /\ length (latencies (ws_result st')) = 3%nat.
Proof.
  destruct (bench_session (fun j => (0, 0)) demo_config (demo_env 0) demo_value 3 demo_world [])
    as (responses & w' & Hs & st' & Hl & Hr & _ & Hn & _).
  - discriminate.
  - by_evaluation.
  - apply demo_short.
  - apply demo_short_values.
  - intros j. simpl. pose proof (Z.mod_pos_bound (Z.of_nat j) 10). unfold INT_MAX. lia.
  - intros j. by_evaluation.
  - apply Forall_replicate. exact I.
  - cbn [demo_env we_sends]. rewrite length_replicate. simpl. lia.
  - exists responses, w'. split; [exact Hs|]. exists st'. split; [exact Hl|]. split; [exact Hr|exact Hn].
Defined.
