(* ===== verification/Tests.v ===== *)
(** * The repository's tests, on the model ([tests/*.cpp])

    The assertions of the unit tests, evaluated on the definitions of this development:
    what the authors expect of the code is what the model does.  A test is a [bool], its
    assertions in order; a test of the storage takes the hash and runs on a clock that
    advances by the sleeps of the test.  The tests that run several threads, and the one that
    stores a thousand keys, are in [ConcurrentTests]. *)

From S2P Require Import Prelude Cpp Lru Parser Response Shard StorageInterface ShardedStorage AofWriter.
From S2P Require Import AofReplay Dispatcher.
Local Open Scope Z_scope.

Definition assert_all (l : list bool) : bool := forallb id l.

(** A run with undefined behaviour fails. *)
Definition passes (o : outcome (list bool)) : bool := match o with Ret l => assert_all l | UB => false end.

Definition key_i (prefix : string) (i : Z) : bytes := str prefix ++ to_string i.

Definition upto (n : nat) : list Z := Z.of_nat <$> seq 0 n.

(** ** [tests/test_parser.cpp] *)

Definition has_type (line : string) (ty : CommandType) : bool := bool_decide (type (parseCommand (str line)) = ty).
Definition has_args (line : string) (l : list string) : bool :=
  bool_decide (args (parseCommand (str line)) = str <$> l).

(** The string with CR LF at its end. *)
Definition crlf_type (line : string) (ty : CommandType) : bool :=
  bool_decide (type (parseCommand (str line ++ [ch_cr; ch_nl])) = ty).

Definition parser_test_ping : bool :=
  assert_all [has_type "PING" PING; has_args "PING" []; has_type "ping" PING; crlf_type "  PING  " PING].

Definition parser_test_set : bool :=
  assert_all [has_type "SET foo bar" SET; has_args "SET foo bar" ["foo"; "bar"];
    has_type "set mykey myvalue" SET; has_args "set mykey myvalue" ["mykey"; "myvalue"];
    has_type "SET onlykey" SET; has_args "SET onlykey" []].

Definition parser_test_get : bool :=
  assert_all [has_type "GET foo" GET; has_args "GET foo" ["foo"]; has_type "GET" GET; has_args "GET" []].

Definition parser_test_del : bool :=
  assert_all [has_type "DEL foo" DEL; has_args "DEL foo" ["foo"]; has_type "del bar" DEL; has_args "del bar" ["bar"]].

Definition parser_test_unknown : bool :=
  assert_all [has_type "INVALID" UNKNOWN; has_type "" UNKNOWN; has_type "   " UNKNOWN].

Definition parser_test_quoted_strings : bool :=
  let cmd := parseCommand (str "SET foo " ++ [ch_quote] ++ str "hello world" ++ [ch_quote]) in
  assert_all [bool_decide (type cmd = SET); bool_decide (args cmd = [str "foo"; str "hello world"])].

Definition parser_test_expire : bool :=
  assert_all [has_type "EXPIRE mykey 60" EXPIRE; has_args "EXPIRE mykey 60" ["mykey"; "60"];
    has_type "expire foo 3600" EXPIRE; has_args "expire foo 3600" ["foo"; "3600"];
    has_type "EXPIRE onlykey" EXPIRE; has_args "EXPIRE onlykey" []].

Definition parser_test_ttl : bool :=
  assert_all [has_type "TTL mykey" TTL; has_args "TTL mykey" ["mykey"]; has_type "ttl foo" TTL;
    has_args "ttl foo" ["foo"]; has_type "TTL" TTL; has_args "TTL" []].

Definition parser_test_stats : bool :=
  assert_all [has_type "STATS" STATS; has_args "STATS" []; has_type "stats" STATS; has_args "stats" [];
    crlf_type "  STATS  " STATS].

Lemma parser_tests_pass :
  assert_all [parser_test_ping; parser_test_set; parser_test_get; parser_test_del; parser_test_unknown;
    parser_test_quoted_strings; parser_test_expire; parser_test_ttl; parser_test_stats] = true.
Proof. vm_compute. reflexivity. Qed.

Section storage.
Context `{StdHash}.

(** [ShardedStorage storage;] *)
Definition storage0 : ShardedStorage := new_storage 100000.

Definition ms (n : Z) : Z := n * 1000000.

Definition value_is (o : option bytes) (v : string) : bool := bool_decide (o = Some (str v)).

Definition set_all (keys : list bytes) (val : string) (s : ShardedStorage) : outcome ShardedStorage :=
  foldl (fun o k => s ← o; storage_set k (str val) s) (Ret s) keys.

Definition del_all (keys : list bytes) (s : ShardedStorage) : outcome ShardedStorage :=
  foldl (fun o k => s ← o; '(_, s') ← storage_del 0 k s; Ret s') (Ret s) keys.

(** ** [tests/test_sharded_storage.cpp] *)

Definition test_set_get : bool := passes (
  s ← storage_set (str "key1") (str "value1") storage0;
  '(v1, s) ← storage_get 0 (str "key1") s;
  s ← storage_set (str "key1") (str "value2") s;
  '(v2, s) ← storage_get 0 (str "key1") s;
  Ret [value_is v1 "value1"; value_is v2 "value2"]).

Definition test_get_nonexistent : bool := passes (
  '(v, s) ← storage_get 0 (str "nonexistent") storage0; Ret [bool_decide (v = None)]).

Definition test_del : bool := passes (
  s1 ← storage_set (str "key1") (str "value1") storage0;
  '(d1, s2) ← storage_del 0 (str "key1") s1;
  '(v, s3) ← storage_get 0 (str "key1") s2;
  '(d2, _) ← storage_del 0 (str "nonexistent") s3;
  Ret [storage_size s1 =? 1; d1; storage_size s2 =? 0; bool_decide (v = None); negb d2]).

Definition test_size : bool := passes (
  s ← storage_set (str "a") (str "1") storage0;
  s ← storage_set (str "b") (str "2") s;
  s1 ← storage_set (str "c") (str "3") s;
  '(_, s2) ← storage_del 0 (str "b") s1;
  Ret [storage_size storage0 =? 0; storage_size s1 =? 3; storage_size s2 =? 2]).

(** Each key of the list has its value. *)
Definition have_values (kvs : list (bytes * bytes)) (s : ShardedStorage) : outcome (list bool) :=
  foldr (fun kv o => '(v, _) ← storage_get 0 kv.1 s; l ← o; Ret (bool_decide (v = Some kv.2) :: l)) (Ret []) kvs.

(** ** [tests/test_lru.cpp] *)

Definition testEvictionOrder : bool := passes (
  s ← set_all (key_i "key" <$> upto 40) "value" (new_storage 32);
  Ret [storage_size s <=? 32; 8 <=? evictedKeysCount s]).

Definition testGetPreventsEviction : bool := passes (
  s ← storage_set (str "protected") (str "value") (new_storage 64);
  s ← foldl (fun o i =>
        s ← o; s ← storage_set (key_i "key" i) (str "value") s;
        if i mod 3 =? 0 then '(_, s') ← storage_get 0 (str "protected") s; Ret s' else Ret s) (Ret s) (upto 100);
  '(v, _) ← storage_get 0 (str "protected") s;
  Ret [bool_decide (is_Some v)]).

Definition testEvictedKeysCounter : bool := passes (
  s ← set_all (key_i "key" <$> upto 32) "value" (new_storage 16); Ret [16 <=? evictedKeysCount s]).

Definition testUpdateExistingKeyNoEviction : bool := passes (
  s1 ← set_all (key_i "key" <$> upto 16) "value1" (new_storage 64);
  s2 ← set_all (key_i "key" <$> upto 16) "value2" s1;
  Ret [evictedKeysCount s1 =? 0; evictedKeysCount s2 =? 0; storage_size s2 =? 16]).

Definition testDeleteRemovesFromLRU : bool := passes (
  s1 ← set_all (key_i "key" <$> upto 20) "value" (new_storage 32);
  s2 ← del_all (key_i "key" <$> upto 10) s1;
  s3 ← set_all (key_i "key" <$> (Z.add 100 <$> upto 30)) "value" s2;
  Ret [storage_size s2 =? 10; storage_size s3 <=? 32]).

Definition testLRUWithTTL : bool := passes (
  s ← foldl (fun o i =>
        s ← o; if i mod 2 =? 0 then storage_setWithTTL 0 (key_i "key" i) (str "value") 3600 s
               else storage_set (key_i "key" i) (str "value") s) (Ret (new_storage 32)) (upto 20);
  s ← set_all (key_i "key" <$> (Z.add 100 <$> upto 50)) "value" s;
  Ret [storage_size s <=? 32]).

Definition testMinCapacity : bool := passes (
  s ← set_all (key_i "key" <$> upto 32) "value" (new_storage 8);
  Ret [1 <=? storage_size s; storage_size s <=? 16]).

(** ** [tests/test_ttl.cpp] *)

Definition testExpireExistingKey : bool := passes (
  s ← storage_set (str "mykey") (str "myvalue") storage0;
  '(b, _) ← storage_expire 0 0 (str "mykey") 60 s; Ret [b]).

Definition testExpireNonExistentKey : bool := passes (
  '(b, _) ← storage_expire 0 0 (str "nokey") 60 storage0; Ret [negb b]).

Definition testTTLWithExpiration : bool := passes (
  s ← storage_set (str "mykey") (str "myvalue") storage0;
  '(_, s) ← storage_expire 0 0 (str "mykey") 10 s;
  '(ttl, _) ← storage_ttl (ms 1) (ms 1) (str "mykey") s;
  Ret [(9 <=? ttl) && (ttl <=? 10)]).

Definition testTTLNoExpiration : bool := passes (
  s ← storage_set (str "mykey") (str "myvalue") storage0;
  '(ttl, _) ← storage_ttl 0 0 (str "mykey") s; Ret [ttl =? -1]).

Definition testTTLNonExistentKey : bool := passes (
  '(ttl, _) ← storage_ttl 0 0 (str "nokey") storage0; Ret [ttl =? -2]).

Definition testKeyDisappearsAfterTTL : bool := passes (
  s ← storage_set (str "expiring") (str "value") storage0;
  '(_, s) ← storage_expire 0 0 (str "expiring") 1 s;
  '(v1, s) ← storage_get (ms 1) (str "expiring") s;
  '(v2, s) ← storage_get (ms 1101) (str "expiring") s;
  '(ttl, _) ← storage_ttl (ms 1102) (ms 1102) (str "expiring") s;
  Ret [value_is v1 "value"; bool_decide (v2 = None); ttl =? -2]).

Definition testSetWithTTL : bool := passes (
  s ← storage_setWithTTL 0 (str "ttlkey") (str "value") 5 storage0;
  '(v, s) ← storage_get (ms 1) (str "ttlkey") s;
  '(remaining, _) ← storage_ttl (ms 2) (ms 2) (str "ttlkey") s;
  Ret [value_is v "value"; (4 <=? remaining) && (remaining <=? 5)]).

Definition testSetResetsExpiration : bool := passes (
  s ← storage_setWithTTL 0 (str "mykey") (str "value1") 5 storage0;
  '(t1, s) ← storage_ttl (ms 1) (ms 1) (str "mykey") s;
  s ← storage_set (str "mykey") (str "value2") s;
  '(t2, s) ← storage_ttl (ms 2) (ms 2) (str "mykey") s;
  '(v, _) ← storage_get (ms 3) (str "mykey") s;
  Ret [0 <? t1; t2 =? -1; value_is v "value2"]).

Definition testDelOnExpiredKey : bool := passes (
  s ← storage_setWithTTL 0 (str "expkey") (str "value") 1 storage0;
  '(b, _) ← storage_del (ms 1100) (str "expkey") s; Ret [negb b]).

Definition testExpireOnExpiredKey : bool := passes (
  s ← storage_setWithTTL 0 (str "expkey") (str "value") 1 storage0;
  '(b, _) ← storage_expire (ms 1100) (ms 1100) (str "expkey") 60 s; Ret [negb b]).

(** The thread passes over the shards after the keys expired, each in the order its map
    has then. *)
Definition pass_env (now : Z) (s : ShardedStorage) : list (bool * Z * list bytes) :=
  (fun sh => (false, now, (map_to_list (data sh)).*1)) <$> shards_ s.

Definition testBackgroundSweep : bool := passes (
  let s := startExpirationSweep storage0 in
  s1 ← foldl (fun o i => s ← o; storage_setWithTTL 0 (key_i "sweep_key_" i) (str "value") 1 s) (Ret s) (upto 50);
  s2 ← expirationPass 0 (pass_env (ms 1500) s1) s1;
  Ret [storage_size s1 =? 50; storage_size s2 =? 0; expiredKeysCount s2 =? 50]).

Definition testExpiredKeysCounter : bool := passes (
  let keys := str <$> ["exp1"; "exp2"; "exp3"] in
  s ← foldl (fun o k => s ← o; storage_setWithTTL 0 k (str "v") 0 s) (Ret storage0) keys;
  s ← foldl (fun o k => s ← o; '(_, s') ← storage_get (ms 10) k s; Ret s') (Ret s) keys;
  Ret [expiredKeysCount s =? 3]).

(** ** [tests/test_stats.cpp] *)

(** [std::getline(stream, pair, ',')] until the end of the stream. *)
Fixpoint split_commas (s : bytes) : list bytes :=
  match s with
  | [] => []
  | c :: s' =>
      if bool_decide (c = ","%char) then [] :: split_commas s'
      else match split_commas s' with [] => [[c]] | l :: ls => (c :: l) :: ls end
  end.

(** [pair] up to its first colon and what follows, if there is one. *)
Fixpoint at_colon (pair : bytes) : option (bytes * bytes) :=
  match pair with
  | [] => None
  | c :: rest => if bool_decide (c = ":"%char) then Some ([], rest) else (fun x => (c :: x.1, x.2)) <$> at_colon rest
  end.

Definition parseStatsResponse (response : bytes) : gmap bytes bytes :=
  let body := match response with c :: r => if bool_decide (c = "$"%char) then r else response | [] => [] end in
  let body := if bool_decide (last body = Some ch_nl) then removelast body else body in
  foldl (fun m pair => match at_colon pair with Some (k, v) => <[k := v]> m | None => m end) ∅ (split_commas body).

Definition stat_is (stats : gmap bytes bytes) (name value : string) : bool :=
  bool_decide (stats !! str name = Some (str value)).

(** The number under a name, read with [std::stoul] or [std::stoi]. *)
Definition stat_number (stats : gmap bytes bytes) (name : string) : Z :=
  match stoll (default [] (stats !! str name)) with Conv z => z | _ => -1 end.

(** A dispatcher without a log serves the lines. *)
Definition serve_lines (now : Z) (lines : list string) (w : World ShardedStorage)
    : outcome (list bytes * World ShardedStorage) :=
  serve ((fun l => (now, now, parseCommand (str l))) <$> lines) w.

Definition dispatcher0 (s : ShardedStorage) : World ShardedStorage := mkWorld (new_dispatcher 0) s None.

(** The last response is the one looked at. *)
Definition after_lines (lines : list string) : outcome (gmap bytes bytes) :=
  '(rs, _) ← serve_lines 0 lines (dispatcher0 storage0); Ret (parseStatsResponse (default [] (last rs))).

Definition test_stats_initial : bool := passes (
  stats ← after_lines ["STATS"];
  Ret [stat_is stats "total_requests" "1"; stat_is stats "total_reads" "0"; stat_is stats "total_writes" "0";
    stat_is stats "cache_hits" "0"; stat_is stats "cache_misses" "0"; stat_is stats "expired_keys" "0";
    stat_is stats "evicted_keys" "0"; stat_is stats "current_keys" "0"; 0 <=? stat_number stats "uptime_seconds"]).

Definition test_stats_after_operations : bool := passes (
  stats ← after_lines ["SET key1 val1"; "SET key2 val2"; "SET key3 val3"; "GET key1"; "GET key2";
    "GET nonexistent"; "DEL key3"; "STATS"];
  Ret [stat_is stats "total_requests" "8"; stat_is stats "total_reads" "3"; stat_is stats "total_writes" "4";
    stat_is stats "cache_hits" "2"; stat_is stats "cache_misses" "1"; stat_is stats "current_keys" "2"]).

Definition test_stats_expired_keys : bool := passes (
  '(_, w) ← serve_lines 0 ["SET tempkey tempval"; "EXPIRE tempkey 1"] (dispatcher0 (startExpirationSweep storage0));
  s ← expirationPass 0 (pass_env (ms 1500) (store w)) (store w);
  '(rs, _) ← serve_lines (ms 2500) ["GET tempkey"; "STATS"] (mkWorld (disp w) s None);
  let stats := parseStatsResponse (default [] (last rs)) in
  Ret [1 <=? stat_number stats "expired_keys"; stat_is stats "cache_misses" "1"]).

Definition test_stats_evicted_keys : bool := passes (
  '(_, w) ← serve ((fun i => (0, 0, mkCommand SET [key_i "key" i; key_i "val" i])) <$> upto 32)
              (dispatcher0 (new_storage 16));
  '(response, _) ← dispatch 0 0 (parseCommand (str "STATS")) w;
  Ret [0 <? stat_number (parseStatsResponse response) "evicted_keys"]).

Definition test_stats_current_keys : bool := passes (
  stats ← after_lines ["SET a 1"; "SET b 2"; "SET c 3"; "SET d 4"; "SET e 5"; "DEL a"; "DEL b"; "STATS"];
  Ret [stat_is stats "current_keys" "3"]).

(** ** [tests/test_aof.cpp] *)

(** The steps of the thread during the sleep of a test, and of [stop] after it. *)
Definition slept : list aof_event := [EvTake; EvWrite [] IoOk 200].
Definition stopped : list aof_event := [EvStopStore; EvStopRequest; EvTake; EvStopFinish IoOk].

(** The file a writer leaves that was started, used and stopped. *)
Definition written_file (use : AOFWriter -> AOFWriter) : option bytes :=
  a ← aof_start (Some []) (new_writer 0 1000);
  a ← aof_run (slept ++ stopped) (use a);
  disk <$> file_ a.

Definition replayed (file : option bytes) : outcome (ShardedStorage * Stats) :=
  replay (fun _ => (0, 0)) file storage0.

Definition log_all (kvs : list (bytes * bytes)) (a : AOFWriter) : AOFWriter :=
  foldl (fun a kv => logSet kv.1 kv.2 a) a kvs.

Definition hundred : list (bytes * bytes) := (fun i => (key_i "key" i, key_i "value" i)) <$> upto 100.

Definition test_write_and_replay_100_keys : bool := passes (
  '(s, stats) ← replayed (written_file (log_all hundred));
  vs ← have_values hundred s;
  Ret ([commands_replayed stats =? 100; errors stats =? 0; storage_size s =? 100] ++ vs)).

Definition test_del_command_replayed : bool := passes (
  '(s, stats) ← replayed (written_file (fun a => logDel (str "mykey") (logSet (str "mykey") (str "myvalue") a)));
  '(v, _) ← storage_get 0 (str "mykey") s;
  Ret [commands_replayed stats =? 2; bool_decide (v = None)]).

Definition test_expire_command_replayed : bool := passes (
  '(s, stats) ← replayed (written_file (fun a =>
     logExpire (str "mykey") 60 (logSet (str "mykey") (str "myvalue") a)));
  '(v, s) ← storage_get (ms 1) (str "mykey") s;
  '(ttl, _) ← storage_ttl (ms 2) (ms 2) (str "mykey") s;
  Ret [commands_replayed stats =? 2; value_is v "myvalue"; (58 <=? ttl) && (ttl <=? 60)]).

Definition corrupted : bytes :=
  lines_text (str <$> ["SET key1 value1"; "INVALID_COMMAND"; "SET key2 value2"; "SET_MISSING_VALUE";
    "SET key3 value3"]).

Definition test_corrupted_line_recovery : bool := passes (
  '(s, stats) ← replayed (Some corrupted);
  '(v1, s) ← storage_get 0 (str "key1") s;
  '(v2, s) ← storage_get 0 (str "key2") s;
  '(v3, _) ← storage_get 0 (str "key3") s;
  Ret [commands_replayed stats =? 3; errors stats =? 0; 1 <=? lines_skipped stats;
    value_is v1 "value1"; value_is v2 "value2"; value_is v3 "value3"]).

Definition test_replay_mode_disables_logging : bool := passes (
  '(s, stats) ← replayed (written_file (fun a =>
     logSet (str "key3") (str "value3") (setEnabled true (logSet (str "key2") (str "value2")
       (setEnabled false (logSet (str "key1") (str "value1") a))))));
  '(v1, s) ← storage_get 0 (str "key1") s;
  '(v2, s) ← storage_get 0 (str "key2") s;
  '(v3, _) ← storage_get 0 (str "key3") s;
  Ret [commands_replayed stats =? 2; bool_decide (is_Some v1); bool_decide (v2 = None); bool_decide (is_Some v3)]).

Definition spaced : list (bytes * bytes) :=
  [(str "greeting", str "hello world"); (str "sentence", str "the quick brown fox")].
Definition quoted : list (bytes * bytes) :=
  [(str "quote_test", str "say " ++ [ch_quote] ++ str "hi" ++ [ch_quote]);
   (str "backslash_test", str "path\to\file")].

(** Both keys come back with their values. *)
Definition two_replayed (kvs : list (bytes * bytes)) : bool := passes (
  '(s, stats) ← replayed (written_file (log_all kvs));
  vs ← have_values kvs s;
  Ret ((commands_replayed stats =? 2) :: vs)).

Definition test_values_with_spaces : bool := two_replayed spaced.
Definition test_values_with_quotes : bool := two_replayed quoted.

Definition test_pending_and_written_counts : bool :=
  let a0 := new_writer 0 1000 in
  let a := (a ← aof_start (Some []) a0;
            aof_run slept (log_all ((fun i => (key_i "key" i, str "value")) <$> upto 10) a)) in
  assert_all [writtenCount a0 =? 0; bool_decide ((writtenCount <$> a) = Some 10);
    bool_decide ((pendingCount <$> a) = Some 0)].

Definition test_empty_aof_file : bool := passes (
  '(s, stats) ← replayed None;
  Ret [commands_replayed stats =? 0; errors stats =? 0; storage_size s =? 0]).
End storage.

(** ** All of them *)

(** The tests that pass for both of the hashes below, and those that need a hash which
    spreads their keys. *)
Definition storage_tests `{StdHash} : list bool :=
  [test_set_get; test_get_nonexistent; test_del; test_size; testEvictionOrder; testGetPreventsEviction;
   testEvictedKeysCounter; testLRUWithTTL; testMinCapacity; testExpireExistingKey; testExpireNonExistentKey;
   testTTLWithExpiration; testTTLNoExpiration; testTTLNonExistentKey; testKeyDisappearsAfterTTL; testSetWithTTL;
   testSetResetsExpiration; testDelOnExpiredKey; testExpireOnExpiredKey; testBackgroundSweep;
   testExpiredKeysCounter; test_stats_initial; test_stats_after_operations; test_stats_expired_keys;
   test_stats_evicted_keys; test_stats_current_keys; test_write_and_replay_100_keys; test_del_command_replayed;
   test_expire_command_replayed; test_corrupted_line_recovery; test_replay_mode_disables_logging;
   test_values_with_spaces; test_values_with_quotes; test_pending_and_written_counts; test_empty_aof_file].

Definition spreading_tests `{StdHash} : list bool := [testUpdateExistingKeyNoEviction; testDeleteRemovesFromLRU].

(** A hash that spreads the keys of the tests, and the worst one. *)
Definition byte_sum : StdHash := fun k => foldr Z.add 0 ((fun c => Z.of_nat (nat_of_ascii c)) <$> k).
Definition constant : StdHash := fun _ => 0.

Lemma other_tests_pass :
  assert_all (@storage_tests byte_sum) = true /\ assert_all (@spreading_tests byte_sum) = true /\
  assert_all (@storage_tests constant) = true.
Proof. vm_compute. done. Qed.

(** 64 keys of capacity do not ensure that 16 keys are stored without an eviction, nor 32
    that 10 of 20 keys remain: the standard allows a hash for which the two tests fail. *)
Lemma spreading_tests_need_spread : @spreading_tests constant = [false; false].
Proof. vm_compute. reflexivity. Qed.
