(* ===== verification/ConcurrentTests.v ===== *)
(** * The tests with several threads ([tests/*.cpp])

    The threads of a test make their calls in any order the scheduler likes; the
    expiration thread sweeps in between where the test starts it.  What a test asserts
    holds for every such order and every [std::hash], not only for the ones a run of the test comes
    across.  A storage test reduces to its threads on a plain map; threads that share no
    key then behave as each of them alone. *)

From S2P Require Import Prelude Cpp Lru Parser AofFormat ParserFacts Shard StorageInterface ShardedStorage StorageFacts.
From S2P Require Import StorageSize AofWriter AofReplay Recovery Tests.
Local Open Scope Z_scope.

(** ** Threads *)

(** A call of a thread, before the clock is read, and what the thread asserts of its reply. *)
Inductive test_call : Type :=
| TSet (key val : bytes)
| TSetWithTTL (key val : bytes) (seconds : Z)
| TGet (key : bytes)
| TDel (key : bytes)
| TExpire (key : bytes) (seconds : Z)
| TTtl (key : bytes).

Definition at_time (now now2 : Z) (c : test_call) : call :=
  match c with
  | TSet k v => CallSet k v
  | TSetWithTTL k v secs => CallSetWithTTL now k v secs
  | TGet k => CallGet now k
  | TDel k => CallDel now k
  | TExpire k secs => CallExpire now now2 k secs
  | TTtl k => CallTtl now now2 k
  end.

Abbreviation test_step := (test_call * (reply -> bool))%type.

(** A call whose reply the test does not look at. *)
Definition just (c : test_call) : test_step := (c, fun _ => true).

(** The next call of thread [i], or a sweep. *)
Inductive test_event : Type :=
| NextCall (i : nat) (now now2 : Z)
| Sweep (i : nat) (now : Z) (order : list bytes).

Section threads.
Context `{StdHash}.
Implicit Types (ts : list (list test_step)) (s : ShardedStorage).

(** [true] when every assertion so far held; [None] when the step is not possible. *)
Definition test_exec (e : test_event) ts s : option (outcome (bool * list (list test_step) * ShardedStorage)) :=
  match e with
  | NextCall i now now2 =>
      p ← ts !! i;
      match p with
      | [] => None
      | (c, check) :: p' =>
          Some ('(r, s') ← run_call (at_time now now2 c) s; Ret (check r, <[i := p']> ts, s'))
      end
  | Sweep i now order => Some ('(_, s') ← run_call (CallSweep i now order) s; Ret (true, ts, s'))
  end.

Fixpoint test_run (es : list test_event) ts s : option (outcome (bool * list (list test_step) * ShardedStorage)) :=
  match es with
  | [] => Some (Ret (true, ts, s))
  | e :: es' =>
      o ← test_exec e ts s;
      match o with
      | Ret (b, ts', s') =>
          o' ← test_run es' ts' s';
          Some ('(b', ts'', s'') ← o'; Ret (b && b', ts'', s''))
      | UB => Some UB
      end
  end.

(** The threads have been joined. *)
Definition joined ts : Prop := Forall (eq []) ts.

(** The clock stays far enough from the end of its range, and a sweep visits its shard. *)
Definition event_ok (e : test_event) s : Prop :=
  match e with
  | NextCall _ now now2 => deadline_ok now 3600 /\ deadline_ok now2 3600 /\ 0 <= now /\ 0 <= now2
  | Sweep i now order => call_ok s (CallSweep i now order)
  end.

Fixpoint events_ok (es : list test_event) ts s : Prop :=
  match es with
  | [] => True
  | e :: es' =>
      event_ok e s /\
      match test_exec e ts s with Some (Ret (_, ts', s')) => events_ok es' ts' s' | _ => True end
  end.

(** Deadlines of an hour at most. *)
Definition short (st : test_step) : Prop :=
  match st.1 with TSetWithTTL _ _ secs | TExpire _ secs => 0 <= secs <= 3600 | _ => True end.

Lemma deadline_ok_less now secs secs' :
  deadline_ok now secs -> 0 <= now -> 0 <= secs' <= secs -> deadline_ok now secs'.
Proof. unfold deadline_ok, clock_reading, NS_PER_S. intros [? ?] ? ?. split; [done|]. lia. Qed.

Lemma at_time_ok now now2 c check s :
  event_ok (NextCall 0 now now2) s -> short (c, check) -> call_ok s (at_time now now2 c).
Proof.
  intros (H1 & H2 & H3 & H4) Hs. destruct c; simpl in *; try done.
  - intros _. by eapply deadline_ok_less.
  - intros _. by eapply deadline_ok_less.
  - apply H2.
Qed.

(** Whatever the order, the calls are defined. *)
Lemma test_exec_defined e ts s o :
  storage_inv s -> Forall (Forall short) ts -> event_ok e s -> test_exec e ts s = Some o ->
  exists b ts' s', o = Ret (b, ts', s') /\ Forall (Forall short) ts' /\ storage_inv s' /\ rtc storage_step s s'.
Proof.
  intros Hinv Hts Hok Hx. destruct e as [i now now2|i now order]; cbn [test_exec] in Hx.
  - apply bind_Some in Hx as (p & Hp & Hx). destruct p as [|[c check] p']; [done|]. injection Hx as <-.
    pose proof Hts as Hp'. rewrite Forall_lookup in Hp'. specialize (Hp' i _ Hp). apply Forall_cons in Hp' as [Hc Hp'].
    pose proof (at_time_ok now now2 c check s Hok Hc) as Hcok.
    pose proof (call_refines s _ Hinv Hcok) as Hr. destruct (spec_call _ _ _) as [[[r ca] nx] ne].
    destruct Hr as (s' & Hrun & Hs). rewrite Hrun. eexists _, _, s'. split; [reflexivity|].
    split; [by apply Forall_insert|]. split; [apply Hs|]. by eapply rtc_once, step_call.
  - pose proof (call_refines s (CallSweep i now order) Hinv Hok) as Hr.
    destruct (spec_call _ _ _) as [[[r ca] nx] ne]. destruct Hr as (s' & Hrun & Hs).
    rewrite Hrun in Hx. injection Hx as <-. eexists _, _, s'. split; [reflexivity|]. split; [done|]. split; [apply Hs|].
    by apply rtc_once, (step_call (CallSweep i now order) r).
Qed.

Lemma test_run_defined es ts s o :
  storage_inv s -> Forall (Forall short) ts -> events_ok es ts s -> test_run es ts s = Some o ->
  exists b ts' s', o = Ret (b, ts', s') /\ storage_inv s' /\ rtc storage_step s s'.
Proof.
  revert ts s o. induction es as [|e es IH]; intros ts s o Hinv Hts Hok Hrun; [injection Hrun as <-; by eexists _, _, _|].
  cbn [test_run events_ok] in *. destruct Hok as [He Hok]. apply bind_Some in Hrun as (o1 & Hx & Hrun).
  destruct (test_exec_defined e ts s o1 Hinv Hts He Hx) as (b & ts1 & s1 & -> & Hts1 & Hinv1 & Hs1).
  rewrite Hx in Hok. apply bind_Some in Hrun as (o2 & Hrun2 & [= <-]).
  destruct (IH ts1 s1 o2 Hinv1 Hts1 Hok Hrun2) as (b2 & ts2 & s2 & -> & Hinv2 & Hs2).
  eexists _, _, s2. split; [reflexivity|]. split; [done|]. by etransitivity.
Qed.
End threads.

(** ** On a plain map *)

(** The calls without deadlines, on a map. *)
Definition call_key (c : test_call) : bytes :=
  match c with TSet k _ | TSetWithTTL k _ _ | TGet k | TDel k | TExpire k _ | TTtl k => k end.

Definition plain (c : test_call) : Prop := match c with TSet _ _ | TGet _ | TDel _ => True | _ => False end.

Definition map_call (c : test_call) (m : gmap bytes bytes) : reply * gmap bytes bytes :=
  match c with
  | TSet k v => (RUnit, <[k := v]> m)
  | TGet k => (RValue (m !! k), m)
  | TDel k => (RBool (bool_decide (is_Some (m !! k))), delete k m)
  | _ => (RUnit, m)
  end.

Fixpoint map_run (es : list test_event) (ts : list (list test_step)) (m : gmap bytes bytes)
    : option (bool * list (list test_step) * gmap bytes bytes) :=
  match es with
  | [] => Some (true, ts, m)
  | Sweep _ _ _ :: es' => map_run es' ts m
  | NextCall i _ _ :: es' =>
      p ← ts !! i;
      match p with
      | [] => None
      | (c, check) :: p' =>
          let '(r, m') := map_call c m in
          '(b, ts', m'') ← map_run es' (<[i := p']> ts) m'; Some (check r && b, ts', m'')
      end
  end.

(** The calls of a thread and their keys. *)
Definition calls_of (p : list test_step) : list test_call := p.*1.
Definition keys_of (p : list test_step) : list bytes := call_key <$> calls_of p.

Section plain.
Context `{StdHash} (K : gset bytes).
Implicit Types (ts : list (list test_step)) (s : ShardedStorage) (m : gmap bytes bytes).

(** The storage holds the map, nothing has a deadline, and there is room for [K]. *)
Definition holds s m : Prop :=
  storage_inv s /\ storage_fits K s /\ forall k, storage_view s k = (fun v => (v, None)) <$> m !! k.

Lemma stored_view s k : storage_inv s -> k ∈ stored s <-> is_Some (storage_view s k).
Proof.
  intros Hinv. unfold stored. rewrite (seen_stored (shards_ s) (replicate (Z.to_nat NUM_SHARDS) s) k).
  - split; [|intros Hs; exists s; split; [|done]].
    + by intros (sk & [-> _]%lookup_replicate & Hv).
    + apply lookup_replicate. split; [done|apply shardIndex_lt].
  - apply Hinv.
  - intros i sh Hi. exists s. split; [|done]. apply lookup_replicate. split; [done|].
    rewrite <- (si_shards s Hinv). by eapply lookup_lt_Some.
Qed.

Lemma holds_size s m : holds s m -> storage_size s = Z.of_nat (size m).
Proof.
  intros (Hinv & _ & Hv). rewrite (proj1 (storage_size_stored s Hinv)), <- size_dom. do 2 f_equal.
  apply set_eq. intros k. rewrite elem_of_dom, (stored_view s k Hinv), Hv. by rewrite fmap_is_Some.
Qed.

Lemma plain_live now (o : option bytes) :
  live_slot now ((fun v => (v, None)) <$> o) = (fun v => (v, None)) <$> o.
Proof. by destruct o. Qed.

Lemma holds_call now now2 c s m :
  holds s m -> plain c -> call_key c ∈ K ->
  exists s', run_call (at_time now now2 c) s = Ret ((map_call c m).1, s') /\ holds s' (map_call c m).2.
Proof.
  intros (Hinv & Hfit & Hv) Hp Hk. destruct c as [k v| |k|k| |]; try done; simpl in *.
  - destruct (storage_set_law s k v Hinv) as (s' & Hr & Hinv' & Hk' & _ & Hf). rewrite Hr. exists s'. split; [done|].
    destruct (Hf K Hfit Hk) as [Hfit' Hother]. split; [done|]. split; [done|]. intros k'.
    destruct (decide (k = k')) as [<-|Hne]; [by rewrite lookup_insert_eq|]. by rewrite lookup_insert_ne, Hother.
  - destruct (storage_get_law now s k Hinv) as (s' & Hr & Hinv' & Hk' & Hother & Hf).
    rewrite Hv, plain_live in *. rewrite Hr. exists s'. split; [by destruct (m !! k)|].
    split; [done|]. split; [by apply Hf|]. intros k'. destruct (decide (k = k')) as [<-|Hne]; [done|]. by rewrite Hother.
  - destruct (storage_del_law now s k Hinv) as (s' & Hr & Hinv' & Hk' & Hother & Hf).
    rewrite Hv, plain_live in *. rewrite Hr. exists s'. split; [by destruct (m !! k)|].
    split; [done|]. split; [by apply Hf|]. intros k'. destruct (decide (k = k')) as [<-|Hne];
      [by rewrite lookup_delete_eq|]. by rewrite lookup_delete_ne, Hother.
Qed.

Definition plain_in (st : test_step) : Prop := plain st.1 /\ call_key st.1 ∈ K.

(** The threads of a test on the storage are the threads on the map. *)
Lemma test_run_holds es ts s m o :
  holds s m -> Forall (Forall plain_in) ts -> (forall i now order, Sweep i now order ∉ es) ->
  test_run es ts s = Some o ->
  exists b ts' s' m', o = Ret (b, ts', s') /\ map_run es ts m = Some (b, ts', m') /\ holds s' m'.
Proof.
  revert ts s m o. induction es as [|e es IH]; intros ts s m o Hs Hts Hns Hrun.
  { injection Hrun as <-. by exists true, ts, s, m. }
  assert (Hns' : forall i now order, Sweep i now order ∉ es) by (intros i now order Hin; eapply Hns; by right).
  destruct e as [i now now2|i now order]; [|by destruct (Hns i now order); left].
  cbn [test_run test_exec map_run] in *. destruct (ts !! i) as [p|] eqn:Hp; [|done].
  cbn [mbind option_bind] in *. destruct p as [|[c check] p']; [done|]. cbn [mbind option_bind] in *.
  pose proof Hts as Hpl. rewrite Forall_lookup in Hpl. specialize (Hpl i _ Hp).
  apply Forall_cons in Hpl as [[Hc Hk] Hp']. destruct (holds_call now now2 c s m Hs Hc Hk) as (s1 & Hr & Hs1).
  rewrite Hr in Hrun. cbn [mbind outcome_bind] in Hrun. apply bind_Some in Hrun as (o2 & Hrun2 & [= <-]).
  destruct (map_call c m) as [r m1]. cbn [fst snd] in *.
  destruct (IH _ _ m1 o2 Hs1 (Forall_insert _ _ i _ Hts Hp') Hns' Hrun2) as (b & ts' & s' & m' & -> & Hm & Hs').
  exists (check r && b), ts', s', m'. split; [done|]. split; [|done]. by rewrite Hm.
Qed.
End plain.

(** ** Threads that share no key *)

Section alone.
Implicit Types (ts : list (list test_step)) (p : list test_step) (m : gmap bytes bytes).

(** What a thread asserts when it runs alone. *)
Fixpoint alone p m : bool :=
  match p with
  | [] => true
  | (c, check) :: p' => let '(r, m') := map_call c m in check r && alone p' m'
  end.

Definition no_shared_key ts : Prop :=
  forall i j p q k, ts !! i = Some p -> ts !! j = Some q -> k ∈ keys_of p -> k ∈ keys_of q -> i = j.

Lemma map_call_frame c m k : k <> call_key c -> (map_call c m).2 !! k = m !! k.
Proof. intros Hk. destruct c; simpl in *; by rewrite ?lookup_insert_ne, ?lookup_delete_ne. Qed.

Lemma map_call_agree c m m' :
  m !! call_key c = m' !! call_key c ->
  (map_call c m).1 = (map_call c m').1 /\ (map_call c m).2 !! call_key c = (map_call c m').2 !! call_key c.
Proof.
  intros Hk. destruct c; simpl in *; rewrite ?lookup_insert_eq, ?lookup_delete_eq, ?Hk; by split.
Qed.

Lemma alone_agree p m m' : (forall k, k ∈ keys_of p -> m !! k = m' !! k) -> alone p m = alone p m'.
Proof.
  revert m m'. induction p as [|[c check] p IH]; intros m m' Hk; [done|]. cbn [alone].
  destruct (map_call_agree c m m') as [Hr Hc]; [apply Hk; by left|].
  assert (Hrest : forall k, k ∈ keys_of p -> (map_call c m).2 !! k = (map_call c m').2 !! k).
  { intros k Hin. destruct (decide (k = call_key c)) as [->|Hne]; [done|].
    rewrite !map_call_frame by done. apply Hk. by right. }
  destruct (map_call c m) as [r m1], (map_call c m') as [r' m1']. simpl in *. subst. by rewrite (IH m1 m1').
Qed.

Lemma no_shared_key_next ts i c check p :
  no_shared_key ts -> ts !! i = Some ((c, check) :: p) -> no_shared_key (<[i := p]> ts).
Proof.
  assert (Hsub : forall j q, ts !! i = Some ((c, check) :: p) -> <[i := p]> ts !! j = Some q ->
    exists q', ts !! j = Some q' /\ forall k, k ∈ keys_of q -> k ∈ keys_of q').
  { intros j q Hi [(<- & <- & _)|[_ Hj]]%list_lookup_insert_Some; [|by exists q].
    eexists. split; [done|]. intros k Hk. by right. }
  intros Hd Hi a b q1 q2 k H1 H2 Hk1 Hk2.
  destruct (Hsub a q1 Hi H1) as (q1' & Ha & Hs1), (Hsub b q2 Hi H2) as (q2' & Hb & Hs2). eauto.
Qed.

(** No thread notices the others. *)
Lemma map_run_alone es ts m b ts' m' :
  no_shared_key ts -> Forall (fun p => alone p m = true) ts -> map_run es ts m = Some (b, ts', m') -> b = true.
Proof.
  revert ts m b. induction es as [|[i now now2|i now order] es IH]; intros ts m b Hd Hal Hrun.
  - by injection Hrun as <-.
  - cbn [map_run] in Hrun. apply bind_Some in Hrun as (p & Hp & Hrun). destruct p as [|[c check] p]; [done|].
    pose proof Hal as Hi. rewrite Forall_lookup in Hi. specialize (Hi i _ Hp). cbn [alone] in Hi.
    destruct (map_call c m) as [r m1] eqn:Hm. apply andb_true_iff in Hi as [Hcheck Hrest].
    apply bind_Some in Hrun as ([[b1 ts1] m2] & Hrun & [= <- -> ->]). rewrite Hcheck. simpl.
    apply (IH _ _ _ (no_shared_key_next _ _ _ _ _ Hd Hp)) in Hrun; [done|].
    apply Forall_lookup. intros j q [(<- & <- & _)|[Hne Hj]]%list_lookup_insert_Some; [done|].
    rewrite Forall_lookup in Hal. rewrite <- (Hal j q Hj). apply alone_agree. intros k Hk.
    change m1 with (r, m1).2. rewrite <- Hm. apply map_call_frame. intros ->.
    apply Hne. eapply Hd; [done|done| |done]. by left.
  - by eapply IH.
Qed.

(** Nothing is asserted on the way. *)
Lemma map_run_unchecked es ts m b ts' m' :
  Forall (Forall (fun st => forall r, st.2 r = true)) ts -> map_run es ts m = Some (b, ts', m') -> b = true.
Proof.
  revert ts m b. induction es as [|[i now now2|i now order] es IH]; intros ts m b Ht Hrun.
  - by injection Hrun as <-.
  - cbn [map_run] in Hrun. apply bind_Some in Hrun as (p & Hp & Hrun). destruct p as [|[c check] p]; [done|].
    pose proof Ht as Hi. rewrite Forall_lookup in Hi. specialize (Hi i _ Hp). apply Forall_cons in Hi as [Hc Hi].
    destruct (map_call c m) as [r m1]. apply bind_Some in Hrun as ([[b1 ts1] m2] & Hrun & [= <- -> ->]).
    simpl in Hc. rewrite Hc. simpl. eapply (IH _ m1); [|exact Hrun]. by apply Forall_insert.
  - by eapply IH.
Qed.

(** A thread without others. *)
Lemma map_run_single es p m b ts' m' :
  map_run es [p] m = Some (b, ts', m') -> joined ts' -> m' = foldl (fun m st => (map_call st.1 m).2) m p.
Proof.
  revert p m b. induction es as [|[i now now2|i now order] es IH]; intros p m b Hrun Hj.
  - injection Hrun as _ <- <-. by apply Forall_singleton in Hj as <-.
  - cbn [map_run] in Hrun. destruct i as [|i]; [|done]. simpl in Hrun. destruct p as [|[c check] p]; [done|].
    destruct (map_call c m) as [r m1] eqn:Hc. apply bind_Some in Hrun as ([[b1 ts1] m2] & Hrun & [= _ -> ->]).
    simpl. rewrite Hc. by eapply IH.
  - by eapply IH.
Qed.

(** ** Threads that delete what they set *)

Fixpoint tidy p : Prop :=
  match p with
  | [] => True
  | (TSet k _, _) :: p' => TDel k ∈ calls_of p' /\ tidy p'
  | _ :: p' => tidy p'
  end.

Definition to_delete ts m : Prop :=
  forall k, is_Some (m !! k) -> exists i p, ts !! i = Some p /\ TDel k ∈ calls_of p.

Lemma to_delete_next ts m i c check p :
  ts !! i = Some ((c, check) :: p) -> tidy ((c, check) :: p) -> to_delete ts m ->
  to_delete (<[i := p]> ts) (map_call c m).2.
Proof.
  intros Hi Htidy Hd k Hk. pose proof (lookup_lt_Some _ _ _ Hi) as Hlt.
  assert (Hold : is_Some (m !! k) -> c <> TDel k -> exists j q, <[i := p]> ts !! j = Some q /\ TDel k ∈ calls_of q).
  { intros Hm Hc. destruct (Hd k Hm) as (j & q & Hj & Hin). destruct (decide (i = j)) as [<-|Hne].
    - exists i, p. split; [by apply list_lookup_insert_eq|]. rewrite Hi in Hj. injection Hj as <-.
      unfold calls_of in *. rewrite fmap_cons in Hin. apply elem_of_cons in Hin as [Heq|Hin]; [by destruct Hc|done].
    - exists j, q. by rewrite list_lookup_insert_ne. }
  destruct c as [k' v| |k'|k'| |]; simpl in *; try (by apply Hold).
  - destruct (decide (k' = k)) as [->|Hne]; [|rewrite lookup_insert_ne in Hk by done; by apply Hold].
    exists i, p. split; [by apply list_lookup_insert_eq|apply Htidy].
  - destruct (decide (k' = k)) as [->|Hne]; [rewrite lookup_delete_eq in Hk; by destruct Hk|].
    rewrite lookup_delete_ne in Hk by done. apply Hold; [done|congruence].
Qed.

Lemma map_run_tidy es ts m b ts' m' :
  Forall tidy ts -> to_delete ts m -> map_run es ts m = Some (b, ts', m') -> joined ts' -> m' = ∅.
Proof.
  revert ts m b. induction es as [|[i now now2|i now order] es IH]; intros ts m b Ht Hd Hrun Hj.
  - injection Hrun as _ <- <-. apply map_eq. intros k. rewrite lookup_empty. destruct (m !! k) eqn:E; [|done].
    destruct (Hd k) as (i & p & Hi & Hin); [by eexists|]. unfold joined in Hj. rewrite Forall_lookup in Hj.
    rewrite <- (Hj i p Hi) in Hin. by apply elem_of_nil in Hin.
  - cbn [map_run] in Hrun. apply bind_Some in Hrun as (p & Hp & Hrun). destruct p as [|[c check] p]; [done|].
    pose proof Ht as Hi. rewrite Forall_lookup in Hi. specialize (Hi i _ Hp).
    pose proof (to_delete_next ts m i c check p Hp Hi Hd) as Hd'. destruct (map_call c m) as [r m1].
    apply bind_Some in Hrun as ([[b1 ts1] m2] & Hrun & [= _ -> ->]). eapply (IH _ m1); [|done|exact Hrun|done].
    apply Forall_insert; [done|]. destruct c; simpl in Hi; tauto.
  - by eapply IH.
Qed.

(** ** Threads that delete nothing *)

(** [k] is stored, or a thread will set it. *)
Definition due ts m k : Prop :=
  is_Some (m !! k) \/ exists i p v, ts !! i = Some p /\ TSet k v ∈ calls_of p.

Definition no_delete (st : test_step) : Prop := match st.1 with TDel _ => False | _ => True end.

Lemma due_next ts m i c check p k :
  ts !! i = Some ((c, check) :: p) -> no_delete (c, check) ->
  due (<[i := p]> ts) (map_call c m).2 k <-> due ts m k.
Proof.
  intros Hi Hc. pose proof (lookup_lt_Some _ _ _ Hi) as Hlt.
  assert (Hlater : (exists j q v, <[i := p]> ts !! j = Some q /\ TSet k v ∈ calls_of q) ->
    exists j q v, ts !! j = Some q /\ TSet k v ∈ calls_of q).
  { intros (j & q & v & [(<- & <- & _)|[_ Hj]]%list_lookup_insert_Some & Hin); [|by exists j, q, v].
    exists i, ((c, check) :: p), v. split; [done|]. by right. }
  assert (Hnow : (exists j q v, ts !! j = Some q /\ TSet k v ∈ calls_of q) ->
    (exists v, c = TSet k v) \/ exists j q v, <[i := p]> ts !! j = Some q /\ TSet k v ∈ calls_of q).
  { intros (j & q & v & Hj & Hin). destruct (decide (i = j)) as [<-|Hne].
    - rewrite Hi in Hj. injection Hj as <-. unfold calls_of in Hin. rewrite fmap_cons in Hin.
      apply elem_of_cons in Hin as [Heq|Hin]; [left; by exists v|right]. exists i, p, v.
      split; [by apply list_lookup_insert_eq|done].
    - right. exists j, q, v. by rewrite list_lookup_insert_ne. }
  unfold due. destruct c as [k' v| |k'|k'| |]; simpl in *; try done; try (split; intros [Hm|Hs]; [by left|right; auto
    |by left|destruct (Hnow Hs) as [[? [=]]|]; by right]).
  rewrite lookup_insert_is_Some'. split.
  - intros [[->|Hm]|Hs]; [right|by left|right; auto]. exists i, ((TSet k v, check) :: p), v. split; [done|by left].
  - intros [Hm|Hs]; [by left; right|]. destruct (Hnow Hs) as [[v' [= -> _]]|Hs']; [by left; left|by right].
Qed.

Lemma map_run_due es ts m b ts' m' k :
  Forall (Forall no_delete) ts -> map_run es ts m = Some (b, ts', m') -> joined ts' ->
  is_Some (m' !! k) <-> due ts m k.
Proof.
  revert ts m b. induction es as [|[i now now2|i now order] es IH]; intros ts m b Ht Hrun Hj.
  - injection Hrun as _ <- <-. split; [by left|]. intros [Hm|(i & p & v & Hi & Hin)]; [done|].
    unfold joined in Hj. rewrite Forall_lookup in Hj. rewrite <- (Hj i p Hi) in Hin. by apply elem_of_nil in Hin.
  - cbn [map_run] in Hrun. apply bind_Some in Hrun as (p & Hp & Hrun). destruct p as [|[c check] p]; [done|].
    pose proof Ht as Hi. rewrite Forall_lookup in Hi. specialize (Hi i _ Hp). apply Forall_cons in Hi as [Hc Hi].
    rewrite <- (due_next ts m i c check p k Hp Hc). destruct (map_call c m) as [r m1].
    apply bind_Some in Hrun as ([[b1 ts1] m2] & Hrun & [= _ -> ->]). eapply IH; [|exact Hrun|done].
    by apply Forall_insert.
  - by eapply IH.
Qed.
End alone.

(** ** The threads of the tests *)

(** [prefix + std::to_string(t) + "_" + std::to_string(i)] *)
Definition key2 (prefix : string) (t i : Z) : bytes := str prefix ++ to_string t ++ str "_" ++ to_string i.

Lemma digits_no_separator z : 0 <= z -> "_"%char ∉ to_string z.
Proof.
  intros Hz Hin. unfold to_string in Hin. rewrite (proj2 (Z.ltb_ge z 0) Hz) in Hin. unfold dec in Hin.
  pose proof (dec_digits_digits (Datatypes.S (Z.to_nat (Z.log2 z))) z Hz) as Hd. rewrite Forall_forall in Hd.
  destruct (Hd _ Hin) as (d & Hd' & Heq). apply (f_equal digit_val) in Heq. rewrite digit_val_digit in Heq; done.
Qed.

Lemma separated_inj {A} (x : A) a b a' b' : x ∉ a -> x ∉ a' -> a ++ x :: b = a' ++ x :: b' -> a = a' /\ b = b'.
Proof.
  revert a'. induction a as [|y a IH]; intros [|y' a'] Ha Ha' Heq; simplify_eq/=; try done.
  - by apply not_elem_of_cons in Ha' as [? _].
  - by apply not_elem_of_cons in Ha as [? _].
  - apply not_elem_of_cons in Ha as [_ Ha], Ha' as [_ Ha']. by destruct (IH a' Ha Ha' ltac:(eassumption)) as [-> ->].
Qed.

Lemma key2_inj prefix t i t' i' : 0 <= t -> 0 <= t' -> key2 prefix t i = key2 prefix t' i' -> t = t' /\ i = i'.
Proof.
  intros Ht Ht' Heq. apply app_inv_head in Heq.
  destruct (separated_inj "_"%char _ _ _ _ (digits_no_separator t Ht) (digits_no_separator t' Ht') Heq) as [H1 H2].
  split; by apply to_string_inj.
Qed.

Definition has_value (r : reply) : bool := if r is RValue (Some _) then true else false.
Definition is_value (v : string) (r : reply) : bool :=
  if r is RValue (Some w) then bool_decide (w = str v) else false.

(** [num_threads] threads, each with the same body for [ops] values of its counter. *)
Definition test_threads (num_threads ops : nat) (body : Z -> Z -> list test_step) : list (list test_step) :=
  (fun t => upto ops ≫= body t) <$> upto num_threads.

Definition test_concurrent_access : list (list test_step) :=
  test_threads 8 1000 (fun t i =>
    let key := key2 "key_" t i in
    [just (TSet key (str "value")); (TGet key, is_value "value"); just (TDel key)]).

Definition test_concurrent_same_shard : list (list test_step) :=
  test_threads 4 500 (fun t i =>
    let key := key_i "shared_key_" i in [just (TSet key (key_i "thread_" t)); just (TGet key)]).

Definition test_high_concurrency_stress : list (list test_step) :=
  test_threads 16 500 (fun t i =>
    let key := key2 "stress_" t i in
    [just (TSet key (key_i "value_" i)); (TGet key, has_value)] ++ (if i mod 3 =? 0 then [just (TDel key)] else [])).

Definition testConcurrentLRU : list (list test_step) :=
  test_threads 8 500 (fun t i =>
    let key := key2 "key_" t i in
    [just (TSet key (str "value")); just (TGet key)] ++ (if i mod 5 =? 0 then [just (TDel key)] else [])).

Definition testConcurrentTTLOperations : list (list test_step) :=
  test_threads 8 100 (fun t i =>
    let key := key2 "key_" t i in
    [just (TSetWithTTL key (str "value") 2); just (TTtl key); just (TGet key); just (TExpire key 3)]).

Section bodies.
Implicit Types (body : Z -> Z -> list test_step).

Lemma elem_of_upto n z : z ∈ upto n <-> 0 <= z < Z.of_nat n.
Proof.
  unfold upto. rewrite list_elem_of_fmap. split.
  - intros (k & -> & [_ Hk]%elem_of_seq). lia.
  - intros Hz. exists (Z.to_nat z). split; [lia|]. apply elem_of_seq. lia.
Qed.

(** A property of all threads, of all steps, of all keys. *)
Lemma test_threads_Forall (P : list test_step -> Prop) n ops body :
  (forall t, 0 <= t < Z.of_nat n -> P (upto ops ≫= body t)) -> Forall P (test_threads n ops body).
Proof. intros HP. unfold test_threads. apply Forall_fmap, Forall_forall. intros t Ht%elem_of_upto. by apply HP. Qed.

Lemma test_threads_steps (P : test_step -> Prop) n ops body :
  (forall t i, 0 <= t < Z.of_nat n -> 0 <= i < Z.of_nat ops -> Forall P (body t i)) ->
  Forall (Forall P) (test_threads n ops body).
Proof.
  intros HP. apply test_threads_Forall. intros t Ht. apply Forall_bind, Forall_forall. intros i Hi%elem_of_upto.
  by apply HP.
Qed.

Lemma test_threads_lookup n ops body j p :
  test_threads n ops body !! j = Some p -> p = upto ops ≫= body (Z.of_nat j) /\ (j < n)%nat.
Proof.
  unfold test_threads, upto. rewrite !list_lookup_fmap. intros Hj.
  destruct (seq 0 n !! j) as [k|] eqn:E; [|done]. apply lookup_seq in E as [-> Hlt]. by injection Hj as <-.
Qed.

Lemma test_threads_at n ops body j : (j < n)%nat -> test_threads n ops body !! j = Some (upto ops ≫= body (Z.of_nat j)).
Proof.
  intros Hj. unfold test_threads. rewrite list_lookup_fmap.
  assert (upto n !! j = Some (Z.of_nat j)) as ->; [|done]. unfold upto. rewrite list_lookup_fmap.
  by rewrite lookup_seq_lt.
Qed.

Lemma test_threads_key n ops body j p k :
  test_threads n ops body !! j = Some p -> k ∈ keys_of p ->
  exists i, 0 <= i < Z.of_nat ops /\ k ∈ keys_of (body (Z.of_nat j) i).
Proof.
  intros [-> _]%test_threads_lookup Hk. unfold keys_of, calls_of in *. rewrite !list_elem_of_fmap in Hk.
  destruct Hk as (c & -> & ([c' check] & -> & Hin)%list_elem_of_fmap).
  apply list_elem_of_bind in Hin as (i & Hin & Hi%elem_of_upto). exists i. split; [done|].
  by do 2 apply list_elem_of_fmap_2.
Qed.

(** Keys made of the number of the thread are not shared. *)
Lemma keys_not_shared prefix n ops body :
  (forall t i k, k ∈ keys_of (body t i) -> k = key2 prefix t i) -> no_shared_key (test_threads n ops body).
Proof.
  intros Hb a b p q k Ha Hb' Hka Hkb.
  destruct (test_threads_key _ _ _ _ _ _ Ha Hka) as (i & _ & ->%Hb), (test_threads_key _ _ _ _ _ _ Hb' Hkb) as (i' & _ & Heq%Hb).
  apply key2_inj in Heq as [? _]; lia.
Qed.
End bodies.

(** ** The tests pass *)

(** One round of a thread after the other. *)
Lemma alone_rounds (body : Z -> list test_step) l m :
  (forall i m, exists m', forall rest, alone (body i ++ rest) m = alone rest m') -> alone (l ≫= body) m = true.
Proof.
  intros Hb. revert m. induction l as [|i l IH]; intros m; [done|]. rewrite bind_cons.
  destruct (Hb i m) as [m' ->]. apply IH.
Qed.

Lemma tidy_rounds (body : Z -> list test_step) l :
  (forall i rest, tidy rest -> tidy (body i ++ rest)) -> tidy (l ≫= body).
Proof. intros Hb. induction l as [|i l IH]; [done|]. rewrite bind_cons. by apply Hb. Qed.

Definition all_keys (ts : list (list test_step)) : gset bytes := list_to_set (ts ≫= keys_of).

Lemma plain_all ts : Forall (Forall (fun st => plain st.1)) ts -> Forall (Forall (plain_in (all_keys ts))) ts.
Proof.
  rewrite !Forall_forall. intros Hp p Hin. specialize (Hp p Hin). rewrite Forall_forall in *.
  intros st Hst. split; [by apply Hp|]. apply elem_of_list_to_set, list_elem_of_bind. exists p. split; [|done].
  unfold keys_of, calls_of. by do 2 apply list_elem_of_fmap_2.
Qed.

Section passes.
Context `{StdHash}.
Implicit Types (es : list test_event).

(** These tests do not start the expiration thread. *)
Definition unswept es : Prop := forall i now order, Sweep i now order ∉ es.

Lemma storage0_holds K : storage_fits K storage0 -> holds K storage0 ∅.
Proof.
  intros Hf. split; [by apply new_storage_inv|]. split; [done|]. intros k. rewrite lookup_empty. apply new_storage_view.
Qed.

(** Each thread finds the value it has just set, and at the end nothing is left, as long as
    no shard gets more of the 8000 keys than it has room for. *)
Lemma test_concurrent_access_passes es o :
  storage_fits (all_keys test_concurrent_access) storage0 -> unswept es ->
  test_run es test_concurrent_access storage0 = Some o ->
  exists ts s, o = Ret (true, ts, s) /\ (joined ts -> storage_size s = 0).
Proof.
  intros Hf Hns Hrun.
  destruct (test_run_holds _ es test_concurrent_access _ ∅ o (storage0_holds _ Hf))
    as (b & ts & s & m & -> & Hm & Hs); [|done|done|].
  { apply plain_all, test_threads_steps. intros t i _ _. by repeat constructor. }
  assert (b = true) as ->.
  { eapply map_run_alone; [| |exact Hm].
    - apply (keys_not_shared "key_"). intros t i k Hk. set_solver.
    - apply test_threads_Forall. intros t _. apply alone_rounds. intros i m0. eexists. intros rest. cbn.
      rewrite lookup_insert_eq. by rewrite bool_decide_eq_true_2. }
  exists ts, s. split; [done|]. intros Hj. rewrite (holds_size _ _ _ Hs).
  assert (m = ∅) as ->; [|done]. eapply map_run_tidy; [| |exact Hm|done].
  - apply test_threads_Forall. intros t _. apply tidy_rounds. intros i rest Hrest. cbn. split; [set_solver|done].
  - intros k [v Hv]. by rewrite lookup_empty in Hv.
Qed.

Lemma test_high_concurrency_stress_passes es o :
  storage_fits (all_keys test_high_concurrency_stress) storage0 -> unswept es ->
  test_run es test_high_concurrency_stress storage0 = Some o -> exists ts s, o = Ret (true, ts, s).
Proof.
  intros Hf Hns Hrun.
  destruct (test_run_holds _ es test_high_concurrency_stress _ ∅ o (storage0_holds _ Hf))
    as (b & ts & s & m & -> & Hm & Hs); [|done|done|].
  { apply plain_all, test_threads_steps. intros t i _ _. case_match; by repeat constructor. }
  exists ts, s. assert (b = true) as ->; [|done]. eapply map_run_alone; [| |exact Hm].
  - apply (keys_not_shared "stress_"). intros t i k Hk. case_match; set_solver.
  - apply test_threads_Forall. intros t _. apply alone_rounds. intros i m0. case_match; eexists; intros rest; cbn;
      by rewrite lookup_insert_eq.
Qed.

(** Whatever the hash, the 500 keys all the threads write are there at the end. *)
Definition shared_keys : list bytes := key_i "shared_key_" <$> upto 500.

Lemma elem_of_shared_keys k : k ∈ shared_keys <-> exists i, 0 <= i < 500 /\ k = key_i "shared_key_" i.
Proof.
  unfold shared_keys. rewrite list_elem_of_fmap. split; intros (i & H1 & H2); exists i.
  - apply elem_of_upto in H2. done.
  - split; [done|]. by apply elem_of_upto.
Qed.

Lemma shared_keys_NoDup : NoDup shared_keys.
Proof.
  unfold shared_keys, upto. rewrite <- list_fmap_compose. apply NoDup_fmap_2; [|apply NoDup_seq].
  intros a b Heq. apply app_inv_head, to_string_inj in Heq. lia.
Qed.

Lemma same_shard_plain : Forall (Forall (plain_in (list_to_set shared_keys))) test_concurrent_same_shard.
Proof.
  apply test_threads_steps. intros t i _ Hi.
  assert (Hk : key_i "shared_key_" i ∈ (list_to_set shared_keys : gset bytes)).
  { apply elem_of_list_to_set, elem_of_shared_keys. by exists i. }
  apply Forall_cons. split; [by split|]. apply Forall_singleton. by split.
Qed.

Lemma same_shard_due k : due test_concurrent_same_shard ∅ k <-> k ∈ shared_keys.
Proof.
  split.
  - intros [[v Hv]|(j & p & v & Hj & Hin)]; [by rewrite lookup_empty in Hv|].
    pose proof same_shard_plain as Hp. rewrite Forall_lookup in Hp. specialize (Hp j p Hj). rewrite Forall_forall in Hp.
    unfold calls_of in Hin. apply list_elem_of_fmap in Hin as (st & Heq & Hst). destruct (Hp st Hst) as [_ Hk].
    rewrite <- Heq in Hk. by apply elem_of_list_to_set in Hk.
  - intros (i & Hi & ->)%elem_of_shared_keys. right. eexists 0%nat, _, _.
    split; [by apply test_threads_at; lia|]. apply list_elem_of_fmap. eexists (TSet _ (key_i "thread_" 0), _).
    split; [done|]. apply list_elem_of_bind. exists i. split; [by left|by apply elem_of_upto].
Qed.

Lemma test_concurrent_same_shard_passes es o :
  unswept es -> test_run es test_concurrent_same_shard storage0 = Some o ->
  exists ts s, o = Ret (true, ts, s) /\ (joined ts -> storage_size s = 500).
Proof.
  intros Hns Hrun.
  assert (Hfit : storage_fits (list_to_set shared_keys) storage0).
  { apply new_storage_fits. rewrite size_list_to_set by apply shared_keys_NoDup. vm_compute. done. }
  destruct (test_run_holds _ es _ _ ∅ o (storage0_holds _ Hfit) same_shard_plain Hns Hrun)
    as (b & ts & s & m & -> & Hm & Hs).
  exists ts, s. split.
  { assert (b = true) as ->; [|done]. eapply map_run_unchecked; [|exact Hm].
    apply test_threads_steps. intros t i _ _. by repeat constructor. }
  intros Hj. rewrite (holds_size _ _ _ Hs), <- size_dom. assert (dom m = list_to_set shared_keys) as ->.
  { apply set_eq. intros k. rewrite elem_of_dom, elem_of_list_to_set, <- same_shard_due.
    eapply map_run_due; [|exact Hm|done]. apply test_threads_steps. intros t i _ _. by repeat constructor. }
  rewrite size_list_to_set by apply shared_keys_NoDup. reflexivity.
Qed.

(** [test_sharding_distribution] has one thread: a thousand keys, then their values. *)
Definition distribution_key (i : Z) : bytes := key_i "key_" i.
Definition distribution_sets : list test_step :=
  (fun i => just (TSet (distribution_key i) (key_i "value_" i))) <$> upto 1000.
Definition distribution_gets : list test_step :=
  (fun i => (TGet (distribution_key i), fun r => if r is RValue (Some v) then bool_decide (v = key_i "value_" i) else false))
    <$> upto 1000.

Lemma distribution_key_inj i j : distribution_key i = distribution_key j -> i = j.
Proof. intros Heq. by apply app_inv_head, to_string_inj in Heq. Qed.

Definition distribution_keys : gset bytes := list_to_set (distribution_key <$> upto 1000).

Lemma distribution_keys_size : size distribution_keys = 1000%nat.
Proof.
  unfold distribution_keys. rewrite size_list_to_set; [by rewrite length_fmap; unfold upto; rewrite length_fmap, length_seq|].
  unfold upto. rewrite <- list_fmap_compose. apply NoDup_fmap_2; [|apply NoDup_seq].
  intros a b Heq%distribution_key_inj. lia.
Qed.

(** What the loop of [set] calls leaves. *)
Lemma sets_map l m i :
  i ∈ l -> foldl (fun m st => (map_call st.1 m).2) m ((fun i => just (TSet (distribution_key i) (key_i "value_" i))) <$> l)
    !! distribution_key i = Some (key_i "value_" i).
Proof.
  revert m. induction l as [|j l IH] using rev_ind; intros m Hi; [by apply elem_of_nil in Hi|].
  rewrite fmap_app, foldl_app. simpl. destruct (decide (j = i)) as [->|Hne]; [by rewrite lookup_insert_eq|].
  rewrite lookup_insert_ne by (intros ?%distribution_key_inj; done). apply IH.
  apply elem_of_app in Hi as [Hi|Hi]; [done|]. by apply list_elem_of_singleton in Hi as ->.
Qed.

Lemma gets_alone l m :
  (forall i, i ∈ l -> m !! distribution_key i = Some (key_i "value_" i)) ->
  alone ((fun i => (TGet (distribution_key i),
    fun r => if r is RValue (Some v) then bool_decide (v = key_i "value_" i) else false)) <$> l) m = true.
Proof.
  induction l as [|i l IH]; intros Hm; [done|]. rewrite fmap_cons. cbn [alone map_call]. rewrite Hm by by left.
  rewrite bool_decide_eq_true_2 by done. apply IH. intros j Hj. apply Hm. by right.
Qed.

Lemma distribution_plain (c : Z -> test_step) :
  (forall i, 0 <= i < 1000 -> plain_in distribution_keys (c i)) -> Forall (plain_in distribution_keys) (c <$> upto 1000).
Proof. intros Hc. apply Forall_fmap, Forall_forall. intros i Hi%elem_of_upto. by apply Hc. Qed.

Lemma test_sharding_distribution_passes es1 o1 :
  unswept es1 -> test_run es1 [distribution_sets] storage0 = Some o1 ->
  exists ts s, o1 = Ret (true, ts, s) /\ (joined ts -> storage_size s = 1000 /\
    forall es2 o2, unswept es2 -> test_run es2 [distribution_gets] s = Some o2 -> exists ts2 s2, o2 = Ret (true, ts2, s2)).
Proof.
  intros Hns Hrun.
  assert (Hin : forall i, 0 <= i < 1000 -> distribution_key i ∈ distribution_keys).
  { intros i Hi. apply elem_of_list_to_set, list_elem_of_fmap_2. by apply elem_of_upto. }
  assert (Hfit : storage_fits distribution_keys storage0) by (apply new_storage_fits; by rewrite distribution_keys_size).
  destruct (test_run_holds distribution_keys es1 [distribution_sets] _ ∅ o1 (storage0_holds _ Hfit))
    as (b & ts & s & m & -> & Hm & Hs); [|done|done|].
  { apply Forall_singleton, distribution_plain. intros i Hi. split; [done|by apply Hin]. }
  exists ts, s. split.
  { assert (b = true) as ->; [|done]. eapply map_run_unchecked; [|exact Hm]. apply Forall_singleton, Forall_fmap.
    by apply Forall_true. }
  intros Hj. pose proof (map_run_single _ _ _ _ _ _ Hm Hj) as Hmap. split.
  - rewrite (holds_size _ _ _ Hs), <- size_dom. assert (dom m = distribution_keys) as ->; [|by rewrite distribution_keys_size].
    apply set_eq. intros k. split.
    + rewrite elem_of_dom. intros [v Hv]. destruct Hs as (_ & [Hk _] & Hview). apply Hk. rewrite Hview, Hv. by eexists.
    + intros (i & -> & Hi)%elem_of_list_to_set%list_elem_of_fmap. rewrite elem_of_dom, Hmap. eexists.
      by apply sets_map.
  - intros es2 o2 Hns2 Hrun2.
    destruct (test_run_holds distribution_keys es2 [distribution_gets] _ m o2 Hs)
      as (b2 & ts2 & s2 & m2 & -> & Hm2 & _); [|done|done|].
    { apply Forall_singleton, distribution_plain. intros i Hi. split; [done|by apply Hin]. }
    exists ts2, s2. assert (b2 = true) as ->; [|done]. eapply map_run_alone; [| |exact Hm2].
    { intros [|a] [|c] ? ? ? ? ? _ _; done. }
    apply Forall_singleton, gets_alone. intros i Hi. rewrite Hmap. by apply sets_map.
Qed.

(** The threads of [testConcurrentLRU] never overfill the storage. *)
Lemma testConcurrentLRU_passes es o :
  events_ok es testConcurrentLRU (new_storage 256) -> test_run es testConcurrentLRU (new_storage 256) = Some o ->
  exists b ts s, o = Ret (b, ts, s) /\ storage_size s <= 256.
Proof.
  intros Hok Hrun.
  destruct (test_run_defined es testConcurrentLRU (new_storage 256) o) as (b & ts & s & -> & Hinv & Hsteps);
    [by apply new_storage_inv| |done|done|].
  { apply test_threads_steps. intros t i _ _. case_match; by repeat constructor. }
  exists b, ts, s. split; [done|]. pose proof (proj2 (storage_size_stored s Hinv)) as Hle.
  rewrite (proj2 (steps_keep _ _ Hsteps (new_storage_inv 256 ltac:(done)))) in Hle. exact Hle.
Qed.

(** With the expiration thread sweeping, every call with a deadline is defined. *)
Lemma testConcurrentTTLOperations_passes es o :
  let s0 := startExpirationSweep storage0 in
  events_ok es testConcurrentTTLOperations s0 -> test_run es testConcurrentTTLOperations s0 = Some o ->
  exists b ts s, o = Ret (b, ts, s) /\ storage_inv (stopExpirationSweep s).
Proof.
  intros s0 Hok Hrun. assert (Hs0 : storage_inv s0) by (by apply (storage_step_inv storage0), step_start; apply new_storage_inv).
  destruct (test_run_defined es testConcurrentTTLOperations s0 o Hs0) as (b & ts & s & -> & Hinv & _); [|done|done|].
  { apply test_threads_steps. intros t i _ _. repeat constructor; simpl; lia. }
  exists b, ts, s. split; [done|]. by apply (storage_step_inv s), step_stop.
Qed.
End passes.

(** ** [test_concurrent_writes] of [tests/test_aof.cpp] *)

(** The thread and the counter of each of the 4 * 50 writes, and its key and value. *)
Definition writes : list (Z * Z) := upto 4 ≫= fun t => (fun i => (t, i)) <$> upto 50.
Definition write_pair (ti : Z * Z) : bytes * bytes := (key2 "key_" ti.1 ti.2, key2 "value_" ti.1 ti.2).
Definition write_line (kv : bytes * bytes) : bytes := setLine kv.1 kv.2.

Definition test_concurrent_writes : list bytes := write_line <$> (write_pair <$> writes).

Lemma writes_spec ti : ti ∈ writes -> 0 <= ti.1.
Proof.
  unfold writes. intros (t & (i & -> & _)%list_elem_of_fmap & Ht%elem_of_upto)%list_elem_of_bind. simpl. lia.
Qed.

Lemma writes_keys_NoDup : NoDup (write_pair <$> writes).*1.
Proof.
  rewrite <- list_fmap_compose. apply NoDup_fmap_2_strong.
  - intros [t i] [t' i'] H1%writes_spec H2%writes_spec Heq. simpl in *. by apply key2_inj in Heq as [-> ->].
  - apply (bool_decide_unpack _). vm_compute. exact I.
Qed.

(** A key that is one word for the tokenizer. *)
Definition one_word (s : bytes) : Prop := s <> [] /\ Forall (fun c => isspace c = false) s.

Lemma one_word_replayable s : one_word s -> replayable s.
Proof. intros [Hne Hs]. split; [done|by right]. Qed.

Lemma one_word_no_newline s : one_word s -> ch_nl ∉ s.
Proof. intros [_ Hs] Hin. rewrite Forall_forall in Hs. by specialize (Hs _ Hin). Qed.

Lemma key2_one_word prefix t i :
  prefix <> ""%string -> Forall (fun c => isspace c = false) (str prefix) -> one_word (key2 prefix t i).
Proof.
  intros Hne Hp. unfold key2. split; [by destruct prefix|].
  repeat (apply Forall_app; split); try done; try apply to_string_no_space. by repeat constructor.
Qed.

Section log.
Context `{StdHash} (K : gset bytes).

Lemma replay_writes clock i kvs s m st :
  holds K s m -> Forall (fun kv => one_word kv.1 /\ one_word kv.2 /\ kv.1 ∈ K) kvs ->
  exists s' m', replay_lines clock i (write_line <$> kvs) s st = Ret (s', Nat.iter (length kvs) count_replayed st) /\
    holds K s' m' /\ forall k, k ∈ dom m' <-> k ∈ dom m \/ k ∈ kvs.*1.
Proof.
  revert i s m st. induction kvs as [|[k v] kvs IH]; intros i s m st Hs Hkv.
  { exists s, m. split; [done|]. split; [done|]. intros k. rewrite elem_of_nil. tauto. }
  apply Forall_cons in Hkv as [(Hk & Hv & HK) Hkv]. destruct (holds_call K 0 0 (TSet k v) s m Hs I HK) as (s1 & Hr & Hs1).
  simpl in Hr. apply bind_Ret_inv in Hr as (s1' & Hr & [= ->]).
  destruct (IH (Datatypes.S i) s1 _ (count_replayed st) Hs1 Hkv) as (s' & m' & Hrep & Hs' & Hdom). exists s', m'.
  rewrite fmap_cons. cbn [replay_lines]. change (write_line (k, v)) with (setLine k v).
  rewrite replay_setLine by (by apply one_word_replayable).
  change (op_set k v s) with (storage_set k v s). rewrite Hr. cbn [mbind outcome_bind]. rewrite Hrep.
  split; [cbn [length]; by rewrite Nat.iter_succ_r|]. split; [done|]. intros k'. rewrite Hdom. simpl.
  rewrite dom_insert, elem_of_union, elem_of_singleton, elem_of_cons. tauto.
Qed.
End log.

(** Whatever the interleaving of the producers and of the writer thread, once the producers
    are joined and the writer is stopped, the replay of the file applies each of the 200
    lines, and the storage has the 200 keys. *)
Lemma test_concurrent_writes_passes `{StdHash} now interval w0 es1 w1 es2 w clock :
  aof_start (Some []) (new_writer now interval) = Some w0 -> Forall healthy es1 -> aof_run es1 w0 = Some w1 ->
  pushed es1 ≡ₚ test_concurrent_writes -> pushing_ w1 = [] -> stopped_ w1 = false ->
  Forall healthy es2 -> pushed es2 = [] -> aof_run (EvStopStore :: es2 ++ [EvStopFinish IoOk]) w1 = Some w ->
  exists f s st, file_ w = Some f /\ replay clock (Some (disk f)) storage0 = Ret (s, st) /\
    commands_replayed st = 200 /\ storage_size s = 200.
Proof.
  intros Hstart Hh1 Hrun1 Hpushed Hpu Hst Hh2 Hp2 Hrun2.
  destruct (stop_flushes now interval [] w0 es1 w1 es2 w) as (f & Hf & _ & _ & _ & Hdisk); [done..|].
  rewrite Hp2, app_nil_r in Hdisk. apply Permutation_map_inv in Hpushed as (kvs & Hl & Hperm).
  rewrite Hl in Hdisk.
  assert (Hall : Forall (fun kv => one_word kv.1 /\ one_word kv.2 /\
    kv.1 ∈ (list_to_set (write_pair <$> writes).*1 : gset bytes)) kvs).
  { apply Forall_forall. intros kv Hin. rewrite <- Hperm in Hin. pose proof Hin as (ti & -> & _)%list_elem_of_fmap.
    split_and!; [by apply key2_one_word; repeat constructor..|]. by apply elem_of_list_to_set, list_elem_of_fmap_2. }
  assert (Hlen : length kvs = 200%nat) by (rewrite <- Hperm; vm_compute; reflexivity).
  destruct (replay_writes (list_to_set (write_pair <$> writes).*1) clock 0 kvs storage0 ∅ (mkStats 0 0 0))
    as (s & m & Hrep & Hs & Hdom); [|done|].
  { apply storage0_holds, new_storage_fits. rewrite size_list_to_set by apply writes_keys_NoDup. vm_compute. done. }
  exists f, s, (Nat.iter 200 count_replayed (mkStats 0 0 0)). split; [done|]. rewrite Hdisk, Hlen in *. split.
  { cbn [replay app]. rewrite getlines_lines_text; [done|]. apply Forall_fmap. eapply Forall_impl; [exact Hall|].
    intros kv (Hk & Hv & _). by apply setLine_no_newline; apply one_word_no_newline. }
  split; [vm_compute; reflexivity|]. rewrite (holds_size _ _ _ Hs), <- size_dom.
  assert (dom m = list_to_set kvs.*1) as ->.
  { apply set_eq. intros k. rewrite Hdom, dom_empty, elem_of_list_to_set. set_solver. }
  rewrite size_list_to_set; [by rewrite length_fmap, Hlen|]. rewrite <- Hperm. apply writes_keys_NoDup.
Qed.
